(* ===== verification/_CoqProject ===== *)
-Q . S2P
Prelude.v
Text.v
Fs.v
Crc.v
Record.v
Segment.v
WalLog.v
LogCrash.v
AtomicFile.v
Codec.v
Config.v
MemTable.v
Snapshot.v
Store.v
RaftState.v
Wal.v
RaftCore.v
Election.v
Replication.v
Mirror.v
Footprint.v
Task.v
Driver.v
Futures.v
Apply.v
Interleave.v
Service.v
Tests.v
Sections.v
Durable.v
Faults.v
Protocol.v
Cluster.v
Simulation.v
Safety.v
Lease.v
Conformance.v
Startup.v
Restart.v
Recovery.v
Losses.v
