(* ===== verification/Prelude.v ===== *)
(** * wal-kv: a verification of the replicated key/value store

    ** The program

    wal-kv (src/) is a key/value store on top of a write-ahead log and Raft.  Its layers, from
    the bottom:

    - the write-ahead log: records with a checksum (src/wal/record.rs), segment files made of
      records (src/wal/segment.rs), and a log that rotates through segments, is cut at either
      end and is recovered after a crash (src/wal/log.rs);
    - the state machine: a table of keys and values (src/store/memtable.rs), its snapshots
      (src/store/snapshot.rs), and the store that owns both (src/store/mod.rs);
    - consensus: the durable vote (src/raft/state.rs), the passive core with its log helpers,
      restart and compaction (src/raft/mod.rs, [RaftCore]), elections (src/raft/election.rs),
      replication (src/raft/replication.rs), leases (src/raft/lease.rs), and the asynchronous
      driver that ticks the core, calls peers and feeds the store (src/raft/mod.rs, [Raft]);
    - the services: the client interface, the handlers for peers and the transport
      (src/rpc/service.rs); configuration (src/config.rs) and command line (src/main.rs).

    A write goes client -> service -> driver ([propose]) -> core -> log (fsync) -> peers ->
    commit index -> store; a restart goes snapshot -> log -> core.

    ** The files

    - Prelude (this file): bytes, machine integers, the error type of src/lib.rs, the state and
      error monad, tactics and hint databases.
    - Text: the string functions used for file names, addresses and messages.
    - Fs: the file system: what is in the page cache and what is on disk, a schedule of failing
      calls, crashes, and the standard library's [BufWriter].
    - Crc, Codec: the two libraries the stored formats rely on ([crc32fast], [bincode]), as
      classes with the laws their documentation gives, and one concrete instance of each.
    - Record, Segment, WalLog: src/wal/.  LogCrash: the log after a crash in the middle of
      appending.  Wal: the log as an interface (operations and laws) for the consensus core,
      with the segmented log as an instance.
    - AtomicFile: write-temporary, fsync, rename, fsync-directory, as both the snapshot and the
      hard-state writer do it.
    - MemTable, Snapshot, Store: src/store/.
    - Config: src/config.rs and [parse_peer] of src/main.rs.
    - RaftState, RaftCore, Election, Replication: src/raft/ without the driver.  Mirror: the log
      on disk holds the entries of the core.  Footprint: which files and directory entries
      every operation can touch.
    - Task: asynchronous code as sequences of sections that hold locks; running one task alone,
      interleaving several, invariants of interleavings, when two tasks are the same.
    - Driver: the driver's methods as tasks.  Futures: the collection of concurrent calls that
      the driver uses ([futures_shim] of src/raft/mod.rs), over [tokio]'s [JoinSet] as a class.
      Apply: what they do undisturbed.  Interleave:
      what happens when they run at the same time.
    - Service: src/rpc/service.rs.
    - Tests: the unit tests of src/ and the deterministic tests of tests/, run on the model.
    - Sections, Faults: the core that each section leaves, as a term over the one it found, when
      it succeeds and when it fails.  Durable: every section leaves on disk what a restart
      needs.  Protocol: what the nodes of a cluster do together, as an
      abstract transition system with its invariant.  Cluster: cores, stores, disks and
      messages of all nodes, the steps running the sections of the code.  Simulation: every
      step of Cluster is one of Protocol.  Safety: what follows for clusters, and runs that
      break safety outside of the steps.  Lease: what a leader that has been replaced answers.
      Conformance: the tasks of Driver and Service run
      nothing but steps of Cluster, except for a list of exits.  Restart: that a crash and
      [Raft::bootstrap] are such a step.  Recovery: clusters whose nodes start on unused disks
      and crash and restart on the disks they have written.  Losses: crashes outside of those
      runs that lose committed entries.
    - Startup: [Config::from_file] of src/config.rs and [main] of src/main.rs up to serving.

    ** How the model corresponds to the code

    A struct is a record with the fields of the struct, an enum an inductive type with its
    variants, a method a definition of the same name (prefixed with its type where names
    clash: [Log::append] is [log_append]).  A method with [&mut self] is a computation of the
    monad [M]: it returns the new state also when it fails, because the code keeps the changes
    made before [?] returns.  [Panic] is a third outcome.  Integers are [Z] with the wrap-around
    of a release build written out ([u64_add], [u64_sub]); a [debug_assert!] is not executed
    ([oversize_record_unreadable] and [concurrent_proposals_lose_write] are runs in which one
    would fail).  The clock and the random
    draw are arguments.  A [HashMap] or [BTreeMap] is a [gmap], a [Vec] a list.

    Files have contents in the page cache and on disk, and so do directory entries; a reboot
    ([crash]) finds what was synced, an arbitrary continuation of what was not, and each
    directory entry old or new; a directory that was created is there afterwards (the code
    never syncs the parent of a directory it creates, and what that can lose is not
    modelled).  Every system call takes a slot of a fault schedule, so a theorem
    that quantifies over the file system also covers every failing call.  The theorems on
    atomic replacement assume that a file has one of its names after a crash ([unaliased]),
    which is the atomicity of rename; the theorems on restarts are about crashes that find the
    directory entries of the log ([entries_kept]; in file LogCrash these are on disk), which
    the code does not ensure ([fresh_segment_lost_on_power_loss],
    [lost_directory_entry_loses_log]).

    A task of the driver or of a service is a sequence of atomic sections, one per block in
    which the code holds a lock; the store's lock is held across sections where the code does.
    Calls to peers appear as the list of their completions in any order; a call that never
    completes, fails or panics yields no reply ([election_collects_completions] derives this
    list from the code that collects the calls).  Writing a snapshot is one section: it touches
    only files of the snapshot directory, which nobody else uses.

    In file Cluster messages are kept forever and may be delivered any number of times in any
    order; a campaign and a round are what their tasks remember between sections (term,
    voters, index sent).  Sections may fail at any system call, logs are compacted, nodes
    restart.  The steps have guards that the code does not have, and the theorems on clusters
    are theorems on guarded runs ([guarded_reachable]; in Recovery, [live_step]) and not on
    all runs of the code.  What the guards leave out breaks safety, with a run that shows it: a
    node that sends AppendEntries without leading ([stale_round_overwrites_committed]) or
    from behind its snapshot ([compaction_loses_write_on_follower]), a leader that fails to
    step down ([failed_step_down_keeps_leading]), two tasks applying entries at once
    ([concurrent_proposals_lose_write]), a compaction that fails ([compact_error_misaligns]),
    and a restart on a disk that lost what was not synced ([unsynced_entry_counts]).  The type
    [exit] of file Conformance lists these once more as conditions on a section of a task.

    ** What the theorems show

    - Records (Record): reading returns what was written, and nothing else; every prefix of a
      record is reported as torn; reading returns unless it is interrupted for ever
      ([read_record_terminates]).
    - Segments (Segment): recovery keeps exactly the longest run of valid records, so a crash
      in the middle of an append loses no synced record, and corruption followed by good
      records is refused.
    - The log (WalLog, LogCrash): each operation implements an operation on an abstract sequence
      of records with a first index ([alog]); reopening after a crash gives the same sequence,
      and after a crash in the middle of appending at least what was synced
      ([acknowledged_appends_survive]).
    - Snapshots and hard state (AtomicFile, Snapshot, RaftState): for every failing call and
      every crash the old or the new contents are found, the new ones if the call returned.
    - The state machine (MemTable, Store): replaying the log from any allowed index over any
      snapshot gives the table of the whole history.
    - Elections (Election, Driver): over any run with failures, crashes and restarts a node
      votes once per term; a campaign wins only with the votes of a quorum, whatever
      interleaves with it; so a term has at most one leader ([one_leader_per_term]).
    - The cluster (Protocol, Cluster, Simulation, Safety): in guarded runs the sections of all
      nodes together refine the protocol, for every loss, delay, repetition and reordering of
      messages and with failing calls, compactions and restarts as far as the guards allow
      them; so there logs match, leaders have all that was applied, no two nodes ever apply different entries at an index ([state_machine_safety]), all
      tables, snapshots and committed entries follow one sequence of commands
      ([replicas_agree]), and a write that its leader has committed stays
      ([acknowledged_write_is_final]).
    - The asynchronous system (Conformance, Restart, Startup): the tasks of the driver and of the
      services, interleaved in any way on all nodes, stay within these runs or leave them by
      an exit ([tasks_conform], [system_conforms]); nodes started on blank disks are where the
      runs begin, and a crash followed by a start is one of their steps.
    - Durability (Footprint, Durable, Recovery): from unused disks, in guarded runs in which no
      system call fails, every section succeeds ([healthy_nodes_respond]) and leaves the node's log, hard
      state and snapshot on disk, so that a node can crash between any two sections and start
      again within the same run ([crash_anywhere_recovers]); what a node has applied is, at
      every later moment, on the disks of a majority ([applied_entries_survive]).  The runs
      assume that entries fit a record and tables a snapshot ([manageable]).  Crashes in the
      middle of a section are the subject of LogCrash (appends), Snapshot, RaftState, Store and
      Election; one in the middle of [Log::truncate_suffix] is not survived.
    - Replication (Replication, Mirror): what AppendEntries does to a follower on every branch;
      acknowledged entries are on disk and survive a crash; the commit rule; back-off makes
      progress.
    - The driver and the services (Apply, Service): applying follows the committed log exactly,
      for every failure of a snapshot; a proposal that a quorum acknowledges is on disk,
      committed, applied and published; a [put] that succeeds this way is read back by [get];
      the wire encoding is transparent.
    - The tests (Tests): the model passes the tests of the repository, for every reading of the
      clock and every random draw.
    - Behaviours that differ from what the code means to do, as theorems: a node that has stepped
      down goes on sending and destroys committed entries, a compacted leader makes a follower
      skip committed commands, a leader that cannot save a newer term keeps leading in it, an
      entry that was not synced counts towards its commitment, two proposals at once can lose
      a write, a node without peers never leads, a power failure can take the directory entry
      of a synced log, a crash while a log is cut loses
      the entries below the cut ([truncation_crash_breaks_safety]), a [put] can be acknowledged although
      its entry was overwritten, a lease does not exclude another leader and a leader that has
      been replaced serves stale reads ([lease_serves_stale_read]), and the smaller ones
      in Record, Segment, WalLog, RaftCore and Replication.

    ** Fuel and bounds

    Loops that consume input run on fuel computed from it: [fill] on the bytes wanted plus the
    length of the read schedule, the record loops on the length of the file, [take_committed]
    on the distance to the commit index.  The specifications ([fill_spec], [recover_loop_spec],
    [read_segments_rep], [take_loop_spec]) prove the results of the loops without mentioning
    fuel, so it never runs out.  The finite read schedules are the streams that are undisturbed
    in the end ([fill_loop_stream_of]); on endless ones the loop of [fill] ends unless the reads
    are interrupted for ever, and then it does not ([read_record_terminates]).  The loops over concurrent calls run on one more than the
    number of calls, which is enough ([next_total], [drain_total]).  Hypotheses such as
    [al_last a + 1 < u64_max] keep indices below the 64-bit wrap-around.

    ** Not modelled

    The TOML syntax, clap's parsing, tracing, tonic and the generated protobuf code are libraries
    (their results are parameters or arguments).  The randomised test tests/fault_injection.rs
    is covered by [scribbled_tail_survives] instead of being run; tests/recovery_timing.rs and
    benches/ measure time.

    The accessors of the structs are record projections.  The server that [main] starts and
    the endless loop of [Raft::run] are the repetition of their handlers and of [tick].

    ** Limits

    In file Conformance the messages a task receives are those of the cluster's lists, not of a
    network made of what the tasks send.  Progress is shown of a section
    ([healthy_nodes_respond]), of one leader and its round ([propose_commits]), and of back-off;
    that a whole cluster elects a leader in the end depends on the clocks, and that all
    followers catch up does not hold, since a leader cannot send what it has compacted. *)

From Corelib Require Import ssreflect.
From Corelib Require Export Init.Byte.
From Stdlib Require Import Strings.Byte Ascii.
From stdpp Require Import base gmap strings list fin_maps countable sorting.

Global Set Default Goal Selector "!".
Open Scope Z_scope.
#[global] Open Scope general_if_scope.

(** ** Bytes *)

#[global] Instance byte_eq_dec : EqDecision byte := Byte.byte_eq_dec.

#[global] Program Instance byte_countable : Countable byte :=
  inj_countable Byte.to_N Byte.of_N _.
Next Obligation.
  intros b. apply Byte.of_to_N.
Qed.

(** The value of a [u8] and the truncation of an integer to a [u8]. *)
Definition Z_of_byte (b : byte) : Z := Z.of_N (Byte.to_N b).
Definition byte_of_Z (z : Z) : byte :=
  match Byte.of_N (Z.to_N (z mod 256)) with
  | Some b => b
  | None => x00
  end.

(** [uN::to_le_bytes] for an [n]-byte integer, and [uN::from_le_bytes]. *)
Fixpoint to_le_bytes (n : nat) (z : Z) : list byte :=
  match n with
  | O => []
  | S n => byte_of_Z z :: to_le_bytes n (z / 256)
  end.

Fixpoint from_le_bytes (bs : list byte) : Z :=
  match bs with
  | [] => 0
  | b :: bs => Z_of_byte b + 256 * from_le_bytes bs
  end.

(** ** Machine integers: [u32], [u64] (and [usize] on a 64-bit target), with the
    wrap-around of a release build written out. *)
Definition u32 (z : Z) : Z := z mod 2 ^ 32.
Definition u64 (z : Z) : Z := z mod 2 ^ 64.
Definition u64_add (a b : Z) : Z := u64 (a + b).
Definition u64_sub (a b : Z) : Z := u64 (a - b).
Definition saturating_sub (a b : Z) : Z := Z.max 0 (a - b).
Definition u64_max : Z := 2 ^ 64 - 1.

(** The length of a vector or slice, as the [usize] Rust reports. *)
Definition zlen {A} (l : list A) : Z := Z.of_nat (length l).

(** [slice.get(i)] and [slice.get(i..)] with an integer index. *)
Definition zget {A} (l : list A) (i : Z) : option A :=
  if (i <? 0) then None else l !! Z.to_nat i.
Definition zget_from {A} (l : list A) (i : Z) : option (list A) :=
  if (0 <=? i) && (i <=? zlen l) then Some (drop (Z.to_nat i) l) else None.

(** ** Errors: [crate::Error] of src/lib.rs, one constructor per variant. *)
Inductive ErrorKind : Type :=
| NotFound
| AlreadyExists
| OtherIo.

Inductive Error : Type :=
| EIo (kind : ErrorKind)
| EEncode (msg : string)
| ECorruption (msg : string)
| EWal (msg : string)
| ERaft (msg : string)
| EConfig (msg : string)
| ETransport (msg : string).

#[global] Instance ErrorKind_eq_dec : EqDecision ErrorKind.
Proof. solve_decision. Defined.
#[global] Instance Error_eq_dec : EqDecision Error.
Proof. solve_decision. Defined.

(** [Error::raft] and [Error::wal]. *)
Definition error_raft (msg : string) : Error := ERaft msg.
Definition error_wal (msg : string) : Error := EWal msg.

(** What a Rust call yields: a value, an error propagated by [?], or a panic
    ([unwrap] of [None], an index out of range, an empty range). *)
Inductive outcome (A : Type) : Type :=
| Ok (a : A)
| Err (e : Error)
| Panic.
Arguments Ok {A} _.
Arguments Err {A} _.
Arguments Panic {A}.

#[global] Instance outcome_eq_dec `{EqDecision A} : EqDecision (outcome A).
Proof. solve_decision. Defined.

(** ** The state and error monad. A method with a [&mut] receiver keeps the changes
    it made before it failed, so the state is returned on every path. *)
Definition M (S A : Type) : Type := S → outcome A * S.

Definition ret {S A} (a : A) : M S A := λ s, (Ok a, s).
Definition throw {S A} (e : Error) : M S A := λ s, (Err e, s).
Definition panic {S A} : M S A := λ s, (Panic, s).
Definition bind {S A B} (m : M S A) (k : A → M S B) : M S B := λ s,
  match m s with
  | (Ok a, s') => k a s'
  | (Err e, s') => (Err e, s')
  | (Panic, s') => (Panic, s')
  end.
Definition gets {S A} (f : S → A) : M S A := λ s, (Ok (f s), s).
Definition modify {S} (f : S → S) : M S unit := λ s, (Ok tt, f s).
Definition lift {S A} (o : outcome A) : M S A := λ s, (o, s).

(** Run a computation on a component of the state. *)
Definition zoom {S T A} (get : S → T) (set : T → S → S) (m : M T A) : M S A := λ s,
  let '(r, t) := m (get s) in (r, set t s).

(** The value of an [Option] that the code unwraps. *)
Definition unwrap {S A} (o : option A) : M S A :=
  match o with Some a => ret a | None => panic end.

(** [let _ = call;]: an [Err] is discarded, a panic is not. *)
Definition ignore {S A} (m : M S A) : M S unit := λ s,
  match m s with
  | (Panic, s') => (Panic, s')
  | (_, s') => (Ok tt, s')
  end.

Declare Scope kv_scope.
Delimit Scope kv_scope with kv.
Open Scope kv_scope.

Notation "'let!' x ':=' m 'in' k" := (bind m (λ x, k))
  (at level 10, x binder, m at level 100, k at level 200) : kv_scope.
Notation "'do!' m 'then' k" := (bind m (λ _, k))
  (at level 10, m at level 100, k at level 200) : kv_scope.

(** A [for] loop over a list, stopping at the first error. *)
Fixpoint for_each {S A} (f : A → M S unit) (l : list A) : M S unit :=
  match l with
  | [] => ret tt
  | a :: l => do! f a then for_each f l
  end.

(** ** Lemmas on bytes and little-endian integers *)

Lemma Z_of_byte_range b : 0 ≤ Z_of_byte b < 256.
Proof.
  rw /Z_of_byte. pose proof (Byte.to_N_bounded b). lia.
Qed.

Lemma Z_of_byte_of_Z z : Z_of_byte (byte_of_Z z) = z mod 256.
Proof.
  rw /byte_of_Z /Z_of_byte.
  pose proof (Z.mod_pos_bound z 256 ltac:(lia)) as Hb.
  destruct (Byte.of_N _) as [b|] eqn:E.
  - apply Byte.to_of_N in E. rw E Z2N.id; lia.
  - apply Byte.of_N_None_iff in E. lia.
Qed.

Lemma Z_of_byte_inj b1 b2 : Z_of_byte b1 = Z_of_byte b2 → b1 = b2.
Proof.
  rw /Z_of_byte. intros H%N2Z.inj.
  pose proof (Byte.of_to_N b1). pose proof (Byte.of_to_N b2). congruence.
Qed.

Lemma length_to_le_bytes n z : length (to_le_bytes n z) = n.
Proof. revert z. induction n as [|n IH]; intros z; simpl; [done|by rw IH]. Qed.

Lemma from_le_bytes_range bs : 0 ≤ from_le_bytes bs < 256 ^ zlen bs.
Proof.
  rw /zlen. induction bs as [|b bs IH]; [done|].
  cbn [length from_le_bytes]. pose proof (Z_of_byte_range b).
  rw Nat2Z.inj_succ Z.pow_succ_r; lia.
Qed.

Lemma from_to_le_bytes n z : 0 ≤ z < 256 ^ Z.of_nat n → from_le_bytes (to_le_bytes n z) = z.
Proof.
  revert z. induction n as [|n IH]; intros z Hz; simpl.
  - simpl in Hz. lia.
  - rw Nat2Z.inj_succ Z.pow_succ_r in Hz; [lia|].
    rw IH; [split; [apply Z.div_pos; lia|apply Z.div_lt_upper_bound; lia]|].
    rw Z_of_byte_of_Z. pose proof (Z.div_mod z 256). lia.
Qed.

Lemma to_from_le_bytes bs : to_le_bytes (length bs) (from_le_bytes bs) = bs.
Proof.
  induction bs as [|b bs IH]; simpl; [done|].
  pose proof (Z_of_byte_range b) as Hb.
  f_equal.
  - apply Z_of_byte_inj. rw Z_of_byte_of_Z Z.mul_comm Z.mod_add; [lia|].
    by apply Z.mod_small.
  - rw Z.mul_comm Z.div_add; [lia|]. by rw (Z.div_small (Z_of_byte b)) // IH.
Qed.

(** ** Lemmas on machine integers and lengths *)

Lemma u32_small z : 0 ≤ z < 2 ^ 32 → u32 z = z.
Proof. apply Z.mod_small. Qed.
Lemma u64_small z : 0 ≤ z ≤ u64_max → u64 z = z.
Proof. intros ?. apply Z.mod_small. rw /u64_max in H. lia. Qed.
Lemma u64_add_small a b : 0 ≤ a + b ≤ u64_max → u64_add a b = a + b.
Proof. apply u64_small. Qed.
Lemma u64_sub_small a b : 0 ≤ a - b ≤ u64_max → u64_sub a b = a - b.
Proof. apply u64_small. Qed.
Lemma u64_range z : 0 ≤ u64 z ≤ u64_max.
Proof. rw /u64 /u64_max. pose proof (Z.mod_pos_bound z (2 ^ 64)). lia. Qed.

Lemma zlen_app {A} (l1 l2 : list A) : zlen (l1 ++ l2) = zlen l1 + zlen l2.
Proof. rw /zlen length_app. lia. Qed.
Lemma zlen_nil {A} : zlen (@nil A) = 0.
Proof. done. Qed.
Lemma zlen_cons {A} (a : A) l : zlen (a :: l) = 1 + zlen l.
Proof. rw /zlen /=. lia. Qed.
Lemma zlen_nonneg {A} (l : list A) : 0 ≤ zlen l.
Proof. rw /zlen. lia. Qed.
Lemma zlen_nil_inv {A} (l : list A) : zlen l = 0 → l = [].
Proof. destruct l; [done|]. rw zlen_cons. pose proof (zlen_nonneg l). lia. Qed.

Lemma zget_Some {A} (l : list A) i : 0 ≤ i → zget l i = l !! Z.to_nat i.
Proof. rw /zget. intros. by destruct (Z.ltb_spec i 0); [lia|]. Qed.
Lemma zget_is_Some {A} (l : list A) i : is_Some (zget l i) ↔ 0 ≤ i < zlen l.
Proof.
  rw /zget /zlen. destruct (Z.ltb_spec i 0).
  - split; [by intros []|lia].
  - rw lookup_lt_is_Some. lia.
Qed.

(** ** Monad lemmas *)

Lemma bind_Ok {S A B} (m : M S A) (k : A → M S B) s a s' :
  m s = (Ok a, s') → bind m k s = k a s'.
Proof. rw /bind. by intros ->. Qed.
Lemma bind_Err {S A B} (m : M S A) (k : A → M S B) s e s' :
  m s = (Err e, s') → bind m k s = (Err e, s').
Proof. rw /bind. by intros ->. Qed.

(** A successful sequence comes from two successful steps. *)
Lemma bind_Ok_inv {S A B} (m : M S A) (k : A → M S B) s b s' :
  bind m k s = (Ok b, s') → ∃ a s1, m s = (Ok a, s1) ∧ k a s1 = (Ok b, s').
Proof. rw /bind. destruct (m s) as [[a|e|] s1]; naive_solver. Qed.

(** The result of a sequence comes from its first step, if that fails, or from its second. *)
Definition failed {A} (r : outcome A) : Prop := match r with Ok _ => False | _ => True end.

Lemma bind_failed_inv {S A B} (m : M S A) (k : A → M S B) s r s' :
  bind m k s = (r, s') → failed r →
  (∃ r1, m s = (r1, s') ∧ failed r1) ∨ (∃ a s1, m s = (Ok a, s1) ∧ k a s1 = (r, s')).
Proof. rw /bind. destruct (m s) as [[a|e|] s1]; naive_solver. Qed.

Lemma for_each_app {S A} (f : A → M S unit) l1 l2 s :
  for_each f (l1 ++ l2) s = (do! for_each f l1 then for_each f l2) s.
Proof.
  revert s. induction l1 as [|a l1 IH]; intros s; simpl; [done|].
  rw /bind. destruct (f a s) as [[[]|e|] s1]; [|done..].
  rw IH /bind. by destruct (for_each f l1 s1) as [[]].
Qed.

(** ** Automation *)

Create HintDb kv.
Create Rewrite HintDb kv_len.
#[export] Hint Resolve zlen_nonneg : kv.
#[export] Hint Rewrite @zlen_app @zlen_nil @zlen_cons : kv_len.
#[export] Hint Rewrite @length_app @length_take @length_drop length_to_le_bytes : kv_len.

(** Normalise lengths, recording that the remaining ones are not negative. *)
Ltac kv_len :=
  repeat first
    [ progress autorewrite with kv_len in *
    | match goal with
      | |- context [zlen ?l] =>
          lazymatch goal with
          | _ : 0 ≤ zlen l |- _ => fail
          | _ => pose proof (zlen_nonneg l)
          end
      | _ : context [zlen ?l] |- _ =>
          lazymatch goal with
          | _ : 0 ≤ zlen l |- _ => fail
          | _ => pose proof (zlen_nonneg l)
          end
      end ].

(** Case analysis on the boolean comparisons of the code. *)
Ltac case_zb :=
  repeat match goal with
  | |- context [?a <? ?b] => destruct (Z.ltb_spec a b)
  | |- context [?a <=? ?b] => destruct (Z.leb_spec a b)
  | |- context [?a =? ?b] => destruct (Z.eqb_spec a b)
  | |- context [?a >? ?b] => rw (Z.gtb_ltb a b)
  | |- context [?a >=? ?b] => rw (Z.geb_leb a b)
  end.
