(* ===== verification/Text.v ===== *)
(** * Text: the string functions of the Rust standard library that the code uses.

    Zero-padded formatting of a [u64] ([{x:020}]), [str::strip_prefix],
    [str::strip_suffix], [str::parse::<u64>], [str::split_once],
    [str::starts_with], [Path::join] and friends.  Used for the names of WAL
    segments (src/wal/log.rs), of snapshots (src/store/snapshot.rs), for the
    [--peer] flag (src/main.rs) and for peer addresses (src/rpc/service.rs). *)

From Corelib Require Import ssreflect.
From Stdlib Require Import Ascii.
From stdpp Require Import base strings list pretty.
From S2P Require Import Prelude.

(** ** Decimal digits *)

Definition digit (d : Z) : ascii := ascii_of_nat (48 + Z.to_nat d).

Definition digit_value (c : ascii) : option Z :=
  let n := Z.of_nat (nat_of_ascii c) in
  if (48 <=? n) && (n <=? 57) then Some (n - 48) else None.

(** The [w] low-order decimal digits of [n], most significant first: the text of
    [format!("{n:0w}")] when [n] has at most [w] digits. *)
Fixpoint dec_fixed (w : nat) (n : Z) : string :=
  match w with
  | O => EmptyString
  | S w => String (digit ((n / 10 ^ Z.of_nat w) mod 10)) (dec_fixed w n)
  end.

(** [{n:020}]: a [u64] has at most 20 digits. *)
Definition fmt_020 (n : Z) : string := dec_fixed 20 n.

(** [u64::from_str]: an optional [+], then at least one digit, no overflow. *)
Fixpoint parse_digits (acc : Z) (s : string) : option Z :=
  match s with
  | EmptyString => Some acc
  | String c s =>
      match digit_value c with
      | None => None
      | Some d =>
          let acc' := acc * 10 + d in
          if acc' <=? u64_max then parse_digits acc' s else None
      end
  end.

Definition parse_u64 (s : string) : option Z :=
  match s with
  | EmptyString => None
  | String c rest =>
      if (c =? "+")%char
      then match rest with EmptyString => None | _ => parse_digits 0 rest end
      else parse_digits 0 s
  end.

(** ** Slicing *)

Fixpoint strip_prefix (pre s : string) : option string :=
  match pre, s with
  | EmptyString, _ => Some s
  | String c pre, String d s => if (c =? d)%char then strip_prefix pre s else None
  | String _ _, EmptyString => None
  end.

Definition starts_with (pre s : string) : bool :=
  match strip_prefix pre s with Some _ => true | None => false end.

Fixpoint strip_suffix (suf s : string) : option string :=
  if (s =? suf)%string then Some EmptyString
  else match s with
       | EmptyString => None
       | String c s => String c <$> strip_suffix suf s
       end.

(** [s.split_once(c)] at the first occurrence of the character [c]. *)
Fixpoint split_once (c : ascii) (s : string) : option (string * string) :=
  match s with
  | EmptyString => None
  | String d s =>
      if (d =? c)%char then Some (EmptyString, s)
      else prod_map (String d) id <$> split_once c s
  end.

(** ** Paths: the list of components below the root of the file system. *)
Abbreviation path := (list string) (only parsing).

Definition join (dir : path) (name : string) : path := dir ++ [name].
Definition parent (p : path) : option path :=
  match p with [] => None | _ => Some (removelast p) end.

(** [path.as_os_str()] with a suffix pushed at its end. *)
Definition push_os_str (p : path) (suf : string) : path :=
  match last p with
  | None => [suf]
  | Some n => removelast p ++ [(n ++ suf)%string]
  end.

(** [path.display()]. *)
Definition display (p : path) : string :=
  foldr (λ n s, ("/" +:+ n +:+ s)) EmptyString p.

(** ** Lemmas *)

Lemma strip_prefix_app pre s : strip_prefix pre (pre +:+ s) = Some s.
Proof. induction pre as [|c pre IH]; simpl; [done|]. by rw Ascii.eqb_refl. Qed.

Lemma strip_prefix_Some pre s r : strip_prefix pre s = Some r → s = pre +:+ r.
Proof.
  revert s. induction pre as [|c pre IH]; intros [|d s]; simpl; try naive_solver.
  destruct (Ascii.eqb_spec c d) as [->|]; [|done].
  intros ->%IH. done.
Qed.

Lemma string_length_app s1 s2 :
  String.length (s1 +:+ s2) = (String.length s1 + String.length s2)%nat.
Proof. induction s1 as [|c s1 IH]; simpl; [done|by f_equal]. Qed.

Lemma strip_suffix_app s suf : strip_suffix suf (s +:+ suf) = Some s.
Proof.
  induction s as [|c s IH].
  - simpl. destruct suf; simpl; [done|]. by rw Ascii.eqb_refl String.eqb_refl.
  - assert (String.eqb (String c s +:+ suf) suf = false) as Hne.
    { apply String.eqb_neq. intros H%(f_equal String.length).
      rw string_length_app /= in H. lia. }
    change (String c s +:+ suf) with (String c (s +:+ suf)) in *.
    cbn [strip_suffix]. rw Hne IH. done.
Qed.

Lemma strip_suffix_Some suf s r : strip_suffix suf s = Some r → s = r +:+ suf.
Proof.
  revert r. induction s as [|c s IH]; intros r; cbn [strip_suffix].
  - destruct (String.eqb_spec "" suf) as [<-|]; naive_solver.
  - destruct (String.eqb_spec (String c s) suf) as [<-|]; [naive_solver|].
    destruct (strip_suffix suf s) as [r'|] eqn:E; simpl; [|done].
    intros [= <-]. by rw (IH r' eq_refl).
Qed.

Lemma digit_value_digit d : 0 ≤ d < 10 → digit_value (digit d) = Some d.
Proof.
  intros Hd. rw /digit_value /digit nat_ascii_embedding; [lia|].
  rw Nat2Z.inj_add Z2Nat.id; [lia|].
  case_zb; simpl; try lia. f_equal. lia.
Qed.

Lemma dec_fixed_step w n :
  n mod 10 ^ Z.of_nat (S w) = (n / 10 ^ Z.of_nat w) mod 10 * 10 ^ Z.of_nat w + n mod 10 ^ Z.of_nat w.
Proof.
  rw Nat2Z.inj_succ Z.pow_succ_r; [lia|]. rw Z.mul_comm Z.rem_mul_r; lia.
Qed.

Lemma parse_digits_dec_fixed w acc n :
  0 ≤ acc →
  acc * 10 ^ Z.of_nat w + n mod 10 ^ Z.of_nat w ≤ u64_max →
  parse_digits acc (dec_fixed w n) = Some (acc * 10 ^ Z.of_nat w + n mod 10 ^ Z.of_nat w).
Proof.
  revert acc. induction w as [|w IH]; intros acc Hacc Hle.
  - cbn. f_equal. rw Z.mod_1_r. lia.
  - rw dec_fixed_step in Hle. rw dec_fixed_step.
    set (d := (n / 10 ^ Z.of_nat w) mod 10) in *.
    assert (0 ≤ d < 10) as Hd by (apply Z.mod_pos_bound; lia).
    assert (0 < 10 ^ Z.of_nat w) as Hp by lia.
    pose proof (Z.mod_pos_bound n (10 ^ Z.of_nat w) Hp) as Hm.
    rw Nat2Z.inj_succ Z.pow_succ_r in Hle; [lia|].
    cbn [dec_fixed parse_digits]. fold d. rw digit_value_digit //.
    destruct (Z.leb_spec (acc * 10 + d) u64_max); [|nia].
    rw IH; [lia|nia|]. f_equal. rw Nat2Z.inj_succ Z.pow_succ_r; lia.
Qed.

Lemma parse_u64_digits w n :
  0 ≤ n ≤ u64_max → n < 10 ^ Z.of_nat (S w) → parse_u64 (dec_fixed (S w) n) = Some n.
Proof.
  intros Hn Hw.
  assert (parse_digits 0 (dec_fixed (S w) n) = Some n) as Hp.
  { rw parse_digits_dec_fixed; [done| |]; rw Z.mod_small //; lia. }
  revert Hp. cbn [dec_fixed parse_u64].
  destruct (Ascii.eqb_spec (digit ((n / 10 ^ Z.of_nat w) mod 10)) "+"%char) as [E|]; [|done].
  assert (digit_value "+"%char = None) as Hplus by done.
  rw -E digit_value_digit // in Hplus. apply Z.mod_pos_bound. lia.
Qed.

Lemma parse_u64_fmt_020 n : 0 ≤ n ≤ u64_max → parse_u64 (fmt_020 n) = Some n.
Proof.
  intros Hn. apply parse_u64_digits; [done|].
  apply (Z.le_lt_trans _ u64_max); [lia|reflexivity].
Qed.

Lemma fmt_020_inj a b :
  0 ≤ a ≤ u64_max → 0 ≤ b ≤ u64_max → fmt_020 a = fmt_020 b → a = b.
Proof.
  intros Ha Hb H%(f_equal parse_u64). rw !parse_u64_fmt_020 // in H. by injection H.
Qed.

Lemma length_dec_fixed w n : String.length (dec_fixed w n) = w.
Proof. induction w as [|w IH]; simpl; [done|by f_equal]. Qed.

(** *** Lexical order on zero-padded numbers *)

Lemma ascii_compare_digit a b :
  0 ≤ a < 10 → 0 ≤ b < 10 → Ascii.compare (digit a) (digit b) = (a ?= b).
Proof.
  intros Ha Hb. rw /Ascii.compare /digit /ascii_of_nat !N_ascii_embedding; [lia..|].
  rw -N2Z.inj_compare !nat_N_Z !Nat2Z.inj_add !Z2Nat.id; [lia..|].
  apply Z.add_compare_mono_l.
Qed.

Lemma dec_fixed_compare w a b :
  0 ≤ a → 0 ≤ b →
  String.compare (dec_fixed w a) (dec_fixed w b) =
    (a mod 10 ^ Z.of_nat w ?= b mod 10 ^ Z.of_nat w).
Proof.
  intros Ha Hb. induction w as [|w IH]; [by rw !Z.mod_1_r|].
  rw !dec_fixed_step. cbn [dec_fixed String.compare].
  set (p := 10 ^ Z.of_nat w) in *. assert (0 < p) as Hp by lia.
  pose proof (Z.mod_pos_bound a p Hp). pose proof (Z.mod_pos_bound b p Hp).
  pose proof (Z.mod_pos_bound (a / p) 10 ltac:(lia)).
  pose proof (Z.mod_pos_bound (b / p) 10 ltac:(lia)).
  rw ascii_compare_digit // IH.
  destruct (Z.compare_spec ((a / p) mod 10) ((b / p) mod 10)) as [->| |]; symmetry.
  - apply Z.add_compare_mono_l.
  - apply Z.compare_lt_iff. nia.
  - apply Z.compare_gt_iff. nia.
Qed.

Lemma fmt_020_compare a b :
  0 ≤ a ≤ u64_max → 0 ≤ b ≤ u64_max →
  String.compare (fmt_020 a) (fmt_020 b) = (a ?= b).
Proof.
  intros Ha Hb. rw /fmt_020 dec_fixed_compare; [lia..|].
  assert (∀ n, 0 ≤ n ≤ u64_max → n mod 10 ^ Z.of_nat 20 = n) as Hm.
  { intros n Hn. apply Z.mod_small. split; [lia|].
    apply (Z.le_lt_trans _ u64_max); [lia|reflexivity]. }
  rw (Hm a Ha) (Hm b Hb). done.
Qed.

Lemma string_compare_app pre a b :
  String.compare (pre +:+ a) (pre +:+ b) = String.compare a b.
Proof.
  induction pre as [|c pre IH]; simpl; [done|].
  rw /Ascii.compare N.compare_refl. exact IH.
Qed.

Lemma string_compare_app_r a b suf :
  String.length a = String.length b →
  String.compare (a +:+ suf) (b +:+ suf) = String.compare a b.
Proof.
  revert b. induction a as [|c a IH]; intros [|d b] Hl; simplify_eq/=.
  - induction suf as [|c suf IHs]; simpl; [done|]. rw /Ascii.compare N.compare_refl. done.
  - destruct (Ascii.compare c d); [|done..]. by apply IH.
Qed.
