(* ===== verification/Fs.v ===== *)
(** * Fs: the file system calls of the Rust standard library, with their durability.

    The code keeps everything it must not lose in files: WAL segments, snapshots
    and the Raft hard state.  This file models the part of [std::fs] and [std::io]
    it uses, on a POSIX file system:

    - a file is an inode with its contents in the page cache ([i_data]) and the
      contents that have reached the disk ([i_durable]); [sync_all] on the file
      makes the two equal;
    - a directory entry has a volatile and a durable value as well ([fs_names],
      [fs_dnames]); only [sync_all] on the directory makes it durable;
    - [fs_sched] is the schedule of device faults: each call takes the next slot,
      [Some k] makes it fail with an i/o error ([k] bytes of a write got through),
      an exhausted schedule means that calls succeed.  A power cut in the middle of
      an operation is a fault at that call followed by [crash];
    - a directory that [create_dir_all] has made is there after every reboot ([crash_dirs]):
      that its entry in the parent directory may be lost, which the code does not prevent by
      an [fsync] of the parent, is not modelled;
    - [crash] relates a state to the states a reboot can find.

    [BufWriter] is the standard library's, with its 8 KiB buffer. *)

From Corelib Require Import ssreflect.
From stdpp Require Import base gmap strings list fin_maps sets.
From S2P Require Import Prelude Text.

Record inode := Inode { i_data : list byte; i_durable : list byte }.

Record fs := Fs {
  fs_inodes : gmap nat inode;
  fs_names : gmap path nat;
  fs_dnames : gmap path nat;
  fs_dirs : gset path;
  fs_next : nat;
  fs_sched : list (option nat)
}.

Definition set_inodes (f : gmap nat inode → gmap nat inode) (σ : fs) : fs :=
  Fs (f (fs_inodes σ)) (fs_names σ) (fs_dnames σ) (fs_dirs σ) (fs_next σ) (fs_sched σ).
Definition set_names (f : gmap path nat → gmap path nat) (σ : fs) : fs :=
  Fs (fs_inodes σ) (f (fs_names σ)) (fs_dnames σ) (fs_dirs σ) (fs_next σ) (fs_sched σ).
Definition set_dnames (f : gmap path nat → gmap path nat) (σ : fs) : fs :=
  Fs (fs_inodes σ) (fs_names σ) (f (fs_dnames σ)) (fs_dirs σ) (fs_next σ) (fs_sched σ).
Definition set_dirs (f : gset path → gset path) (σ : fs) : fs :=
  Fs (fs_inodes σ) (fs_names σ) (fs_dnames σ) (f (fs_dirs σ)) (fs_next σ) (fs_sched σ).
Definition set_sched (s : list (option nat)) (σ : fs) : fs :=
  Fs (fs_inodes σ) (fs_names σ) (fs_dnames σ) (fs_dirs σ) (fs_next σ) s.

(** The contents behind a descriptor. *)
Definition file_data (σ : fs) (fd : nat) : list byte :=
  from_option i_data [] (fs_inodes σ !! fd).
Definition file_durable (σ : fs) (fd : nat) : list byte :=
  from_option i_durable [] (fs_inodes σ !! fd).

Definition set_data (f : list byte → list byte) (i : inode) : inode :=
  Inode (f (i_data i)) (i_durable i).

(** ** System calls *)

(** Take the next slot of the fault schedule; [partial k] is the effect of a call
    that fails after [k] bytes. *)
Definition syscall {A} (partial : nat → fs → fs) (m : M fs A) : M fs A := λ σ,
  match fs_sched σ with
  | [] => m σ
  | None :: s => m (set_sched s σ)
  | Some k :: s => (Err (EIo OtherIo), partial k (set_sched s σ))
  end.

Definition no_effect : nat → fs → fs := λ _ σ, σ.

(** All the ancestors of a directory, itself included. *)
Definition ancestors (d : path) : list path :=
  (λ n, take n d) <$> seq 0 (S (length d)).

(** [fs::create_dir_all(d)]. *)
Definition create_dir_all (d : path) : M fs unit :=
  syscall no_effect (modify (set_dirs (λ ds, list_to_set (ancestors d) ∪ ds))).

(** [d.exists()] for a directory. *)
Definition dir_exists (d : path) : M fs bool :=
  gets (λ σ, bool_decide (d ∈ fs_dirs σ)).

Definition parent_exists (p : path) (σ : fs) : bool :=
  match parent p with
  | Some d => bool_decide (d ∈ fs_dirs σ)
  | None => false
  end.

(** A new empty inode under the name [p]. *)
Definition add_file (p : path) (σ : fs) : fs :=
  Fs (<[fs_next σ := Inode [] []]> (fs_inodes σ)) (<[p := fs_next σ]> (fs_names σ))
     (fs_dnames σ) (fs_dirs σ) (S (fs_next σ)) (fs_sched σ).

(** [OpenOptions::new().read(true).write(true).create_new(true).open(p)]. *)
Definition open_create_new (p : path) : M fs nat :=
  syscall no_effect (λ σ,
    if parent_exists p σ then
      match fs_names σ !! p with
      | Some _ => (Err (EIo AlreadyExists), σ)
      | None => (Ok (fs_next σ), add_file p σ)
      end
    else (Err (EIo NotFound), σ)).

(** [OpenOptions::new().read(true)(.write(true)).open(p)]: the file must exist. *)
Definition open_existing (p : path) : M fs nat :=
  syscall no_effect (λ σ,
    match fs_names σ !! p with
    | Some fd => (Ok fd, σ)
    | None => (Err (EIo NotFound), σ)
    end).

(** [OpenOptions::new().write(true).create(true).truncate(true).open(p)]. *)
Definition open_truncate (p : path) : M fs nat :=
  syscall no_effect (λ σ,
    if parent_exists p σ then
      match fs_names σ !! p with
      | Some fd => (Ok fd, set_inodes (alter (set_data (λ _, [])) fd) σ)
      | None => (Ok (fs_next σ), add_file p σ)
      end
    else (Err (EIo NotFound), σ)).

(** [file.metadata()?.len()]. *)
Definition metadata_len (fd : nat) : M fs Z :=
  syscall no_effect (gets (λ σ, zlen (file_data σ fd))).

(** Reading an open file from its start to its end. *)
Definition read_file (fd : nat) : M fs (list byte) :=
  syscall no_effect (gets (λ σ, file_data σ fd)).

(** Writing at the end of the file.  Every writer of this program is positioned
    there: a fresh file is empty, and a recovered one is truncated and then sought
    to its end. *)
Definition append_data (fd : nat) (bs : list byte) (σ : fs) : fs :=
  set_inodes (alter (set_data (λ d, d ++ bs)) fd) σ.
Definition file_write (fd : nat) (bs : list byte) : M fs unit :=
  syscall (λ k, append_data fd (take k bs)) (modify (append_data fd bs)).

(** [file.set_len(n)]: cut, or extend with zeros. *)
Definition resize_to (n : Z) (d : list byte) : list byte :=
  take (Z.to_nat n) d ++ replicate (Z.to_nat n - length d) x00.
Definition set_len (fd : nat) (n : Z) : M fs unit :=
  syscall no_effect (modify (set_inodes (alter (set_data (resize_to n)) fd))).

(** [file.sync_all()] on a file, and on a directory. *)
Definition sync_all (fd : nat) : M fs unit :=
  syscall no_effect
    (modify (set_inodes (alter (λ i, Inode (i_data i) (i_data i)) fd))).

Definition in_dir (d p : path) : Prop := parent p = Some d.
#[global] Instance in_dir_dec d p : Decision (in_dir d p).
Proof. rw /in_dir. apply _. Defined.

Definition sync_dir (d : path) : M fs unit :=
  syscall no_effect (λ σ,
    if bool_decide (d ∈ fs_dirs σ) then
      (Ok tt, set_dnames (λ dn, filter (λ '(p, _), in_dir d p) (fs_names σ)
                              ∪ filter (λ '(p, _), ¬ in_dir d p) dn) σ)
    else (Err (EIo NotFound), σ)).

(** [fs::remove_file(p)]. *)
Definition remove_file (p : path) : M fs unit :=
  syscall no_effect (λ σ,
    match fs_names σ !! p with
    | Some _ => (Ok tt, set_names (delete p) σ)
    | None => (Err (EIo NotFound), σ)
    end).

(** [fs::rename(a, b)]: replaces [b] atomically. *)
Definition rename (a b : path) : M fs unit :=
  syscall no_effect (λ σ,
    match fs_names σ !! a with
    | Some fd => (Ok tt, set_names (λ ns, <[b := fd]> (delete a ns)) σ)
    | None => (Err (EIo NotFound), σ)
    end).

(** [fs::read(p)]. *)
Definition fs_read (p : path) : M fs (list byte) :=
  let! fd := open_existing p in read_file fd.

(** [fs::read_dir(d)]: the names of the files in [d], in no particular order. *)
Definition dir_entries (d : path) (names : gmap path nat) : list string :=
  omap (λ '(p, _), if decide (in_dir d p) then last p else None) (map_to_list names).
Definition read_dir (d : path) : M fs (list string) :=
  syscall no_effect (λ σ,
    if bool_decide (d ∈ fs_dirs σ) then (Ok (dir_entries d (fs_names σ)), σ)
    else (Err (EIo NotFound), σ)).

(** ** What a reboot can find

    A synced inode keeps its contents.  An inode with unsynced changes keeps what the
    two versions agree on from the start of the file; after that anything may have
    been written.  A directory entry is the durable one or the volatile one.  Directories
    survive. *)
Definition crash_inode (i i' : inode) : Prop :=
  i_durable i' = i_data i' ∧
  if decide (i_data i = i_durable i) then i_data i' = i_data i
  else ∃ garbage, i_data i' = (max_prefix (i_data i) (i_durable i)).2 ++ garbage.

Record crash (σ σ' : fs) : Prop := {
  crash_inodes : ∀ fd, option_Forall2 crash_inode (fs_inodes σ !! fd) (fs_inodes σ' !! fd);
  crash_names : ∀ p, fs_names σ' !! p = fs_dnames σ !! p ∨ fs_names σ' !! p = fs_names σ !! p;
  crash_dnames : fs_dnames σ' = fs_names σ';
  crash_dirs : fs_dirs σ' = fs_dirs σ;
  crash_next : fs_next σ' = fs_next σ;
  crash_sched : fs_sched σ' = []
}.

(** A reboot that finds the entries the directory [d] had; it does if they were written back. *)
Definition entries_kept (d : path) (σ σ' : fs) : Prop :=
  ∀ n, fs_names σ' !! join d n = fs_names σ !! join d n.

(** The reboot that finds only what was durable. *)
Definition power_loss (σ : fs) : fs :=
  Fs ((λ i, Inode (i_durable i) (i_durable i)) <$> fs_inodes σ)
     (fs_dnames σ) (fs_dnames σ) (fs_dirs σ) (fs_next σ) [].

(** ** [BufWriter<File>] *)

Definition DEFAULT_BUF_SIZE : Z := 8 * 1024.

Record BufWriter := MkBufWriter { bw_file : nat; bw_buf : list byte }.

Definition bw_new (fd : nat) : BufWriter := MkBufWriter fd [].

(** [flush_buf]: write the buffer out; on a failed write the bytes that got through
    leave the buffer. *)
Definition bw_flush_buf : M (BufWriter * fs) unit := λ '(w, σ),
  match bw_buf w with
  | [] => (Ok tt, (w, σ))
  | buf =>
      match fs_sched σ with
      | Some k :: _ =>
          let '(r, σ') := file_write (bw_file w) buf σ in
          (r, (MkBufWriter (bw_file w) (drop k buf), σ'))
      | _ =>
          let '(r, σ') := file_write (bw_file w) buf σ in
          (r, (MkBufWriter (bw_file w) [], σ'))
      end
  end.

Definition bw_to_buffer (bs : list byte) : M (BufWriter * fs) unit :=
  modify (λ '(w, σ), (MkBufWriter (bw_file w) (bw_buf w ++ bs), σ)).

Definition bw_spare (w : BufWriter) : Z := DEFAULT_BUF_SIZE - zlen (bw_buf w).

(** [BufWriter::write_all]: buffer what fits, else flush first, and send a chunk as
    large as the buffer straight to the file. *)
Definition bw_write_all (bs : list byte) : M (BufWriter * fs) unit :=
  let! spare := gets (λ s, bw_spare s.1) in
  if zlen bs <? spare then bw_to_buffer bs
  else
    do! (if spare <? zlen bs then bw_flush_buf else ret tt) then
    if DEFAULT_BUF_SIZE <=? zlen bs
    then let! fd := gets (λ s, bw_file s.1) in
         zoom snd (λ σ s, (s.1, σ)) (file_write fd bs)
    else bw_to_buffer bs.

(** [BufWriter::flush] on a file, whose own [flush] does nothing. *)
Definition bw_flush : M (BufWriter * fs) unit := bw_flush_buf.

(** Dropping the writer flushes it and ignores the outcome. *)
Definition bw_drop (w : BufWriter) (σ : fs) : fs := (bw_flush_buf (w, σ)).2.2.

(** ** Well-formed states *)

Record fs_wf (σ : fs) : Prop := {
  wf_names p fd : fs_names σ !! p = Some fd → is_Some (fs_inodes σ !! fd);
  wf_dnames p fd : fs_dnames σ !! p = Some fd → is_Some (fs_inodes σ !! fd);
  wf_fresh fd : is_Some (fs_inodes σ !! fd) → (fd < fs_next σ)%nat
}.

(** No fault is scheduled: the calls succeed. *)
Definition fault_free (σ : fs) : Prop := fs_sched σ = [].

Lemma syscall_ok {A} partial (m : M fs A) σ : fault_free σ → syscall partial m σ = m σ.
Proof. rw /syscall. by intros ->. Qed.

(** ** Effects of the calls on a state without faults *)

Lemma open_existing_ok p fd σ :
  fault_free σ → fs_names σ !! p = Some fd → open_existing p σ = (Ok fd, σ).
Proof. intros. rw /open_existing syscall_ok //. by simplify_map_eq. Qed.

Lemma open_existing_missing p σ :
  fault_free σ → fs_names σ !! p = None → open_existing p σ = (Err (EIo NotFound), σ).
Proof. intros. rw /open_existing syscall_ok //. by simplify_map_eq. Qed.

Lemma open_create_new_ok p σ :
  fault_free σ → parent_exists p σ = true → fs_names σ !! p = None →
  open_create_new p σ = (Ok (fs_next σ), add_file p σ).
Proof. intros ? Hp Hn. by rw /open_create_new syscall_ok // Hp Hn. Qed.

Lemma open_create_new_exists p fd σ :
  fault_free σ → parent_exists p σ = true → fs_names σ !! p = Some fd →
  open_create_new p σ = (Err (EIo AlreadyExists), σ).
Proof. intros ? Hp Hn. by rw /open_create_new syscall_ok // Hp Hn. Qed.

Lemma metadata_len_ok fd σ :
  fault_free σ → metadata_len fd σ = (Ok (zlen (file_data σ fd)), σ).
Proof. intros. by rw /metadata_len syscall_ok. Qed.

Lemma read_file_ok fd σ : fault_free σ → read_file fd σ = (Ok (file_data σ fd), σ).
Proof. intros. by rw /read_file syscall_ok. Qed.

Lemma file_write_ok fd bs σ :
  fault_free σ → file_write fd bs σ = (Ok tt, append_data fd bs σ).
Proof. intros. by rw /file_write syscall_ok. Qed.

Lemma remove_file_ok p fd σ :
  fault_free σ → fs_names σ !! p = Some fd →
  remove_file p σ = (Ok tt, set_names (delete p) σ).
Proof. intros ? Hn. by rw /remove_file syscall_ok // Hn. Qed.

Definition make_durable (fd : nat) (σ : fs) : fs :=
  set_inodes (alter (λ i, Inode (i_data i) (i_data i)) fd) σ.
Lemma sync_all_ok fd σ : fault_free σ → sync_all fd σ = (Ok tt, make_durable fd σ).
Proof. intros. by rw /sync_all syscall_ok. Qed.

Definition cut_data (fd : nat) (n : Z) (σ : fs) : fs :=
  set_inodes (alter (set_data (resize_to n)) fd) σ.
Lemma set_len_ok fd n σ : fault_free σ → set_len fd n σ = (Ok tt, cut_data fd n σ).
Proof. intros. by rw /set_len syscall_ok. Qed.

(** *** Contents *)

Lemma alter_inode_data f fd fd' σ :
  file_data (set_inodes (alter f fd) σ) fd' =
    if decide (fd' = fd) then from_option (i_data ∘ f) [] (fs_inodes σ !! fd)
    else file_data σ fd'.
Proof.
  rw /file_data /=. case_decide; simplify_eq/=; simplify_map_eq; [|done].
  by destruct (fs_inodes σ !! fd).
Qed.

Lemma alter_inode_durable f fd fd' σ :
  file_durable (set_inodes (alter f fd) σ) fd' =
    if decide (fd' = fd) then from_option (i_durable ∘ f) [] (fs_inodes σ !! fd)
    else file_durable σ fd'.
Proof.
  rw /file_durable /=. case_decide; simplify_eq/=; simplify_map_eq; [|done].
  by destruct (fs_inodes σ !! fd).
Qed.

Lemma file_data_append fd bs σ :
  is_Some (fs_inodes σ !! fd) → file_data (append_data fd bs σ) fd = file_data σ fd ++ bs.
Proof.
  intros [i Hi]. rw /append_data alter_inode_data decide_True // /file_data Hi //.
Qed.
Lemma file_data_append_ne fd fd' bs σ :
  fd' ≠ fd → file_data (append_data fd bs σ) fd' = file_data σ fd'.
Proof. intros. by rw /append_data alter_inode_data decide_False. Qed.
Lemma file_durable_append fd fd' bs σ :
  file_durable (append_data fd bs σ) fd' = file_durable σ fd'.
Proof.
  rw /append_data alter_inode_durable. case_decide; [|done]. subst.
  rw /file_durable. by destruct (fs_inodes σ !! fd).
Qed.

Lemma append_data_nil fd σ : append_data fd [] σ = σ.
Proof.
  destruct σ as [inodes]. rw /append_data /set_inodes /=. f_equal.
  apply map_eq. intros i. destruct (decide (i = fd)) as [->|]; simplify_map_eq; [|done].
  destruct (inodes !! fd) as [[d du]|]; [|done]. by rw /= /set_data /= app_nil_r.
Qed.

Lemma append_data_app fd bs1 bs2 σ :
  append_data fd bs2 (append_data fd bs1 σ) = append_data fd (bs1 ++ bs2) σ.
Proof.
  destruct σ as [inodes]. rw /append_data /set_inodes /=. f_equal.
  apply map_eq. intros i. destruct (decide (i = fd)) as [->|]; simplify_map_eq; [|done].
  destruct (inodes !! fd) as [[d du]|]; [|done]. by rw /= /set_data /= app_assoc.
Qed.

Lemma is_Some_alter {A} (f : A → A) (m : gmap nat A) i j :
  is_Some (alter f i m !! j) ↔ is_Some (m !! j).
Proof.
  destruct (decide (i = j)) as [->|]; simplify_map_eq; [|done].
  by rw fmap_is_Some.
Qed.

(** Changing the contents of an inode keeps the state well formed. *)
Lemma set_inodes_alter_wf f fd σ : fs_wf σ → fs_wf (set_inodes (alter f fd) σ).
Proof. intros [Hn Hd Hf]. split; intros *; simpl; rw is_Some_alter; eauto. Qed.

(** Two states that differ at most in the contents of some files. *)
Record only_files (fds : list nat) (σ σ' : fs) : Prop := {
  of_names : fs_names σ' = fs_names σ;
  of_dirs : fs_dirs σ' = fs_dirs σ;
  of_sched : fs_sched σ' = fs_sched σ;
  of_wf : fs_wf σ → fs_wf σ';
  of_inodes fd : fd ∉ fds → fs_inodes σ' !! fd = fs_inodes σ !! fd
}.

Lemma only_files_refl fds σ : only_files fds σ σ.
Proof. by split. Qed.

Lemma only_files_alter f fd σ : only_files [fd] σ (set_inodes (alter f fd) σ).
Proof.
  split; try done.
  - apply set_inodes_alter_wf.
  - intros fd' Hne%not_elem_of_cons. rw /= lookup_alter_ne //. naive_solver.
Qed.

Lemma only_files_trans fds1 fds2 σ1 σ2 σ3 :
  only_files fds1 σ1 σ2 → only_files fds2 σ2 σ3 → only_files (fds1 ++ fds2) σ1 σ3.
Proof.
  intros [H1 H2 H3 H4 H5] [K1 K2 K3 K4 K5].
  split; try congruence; eauto. intros fd [Hn1 Hn2]%not_elem_of_app. by rw K5 // H5.
Qed.

Lemma only_files_mono fds1 fds2 σ σ' :
  fds1 ⊆ fds2 → only_files fds1 σ σ' → only_files fds2 σ σ'.
Proof. intros Hs [H1 H2 H3 H4 H5]. split; try done. intros fd Hn. apply H5. set_solver. Qed.

Lemma only_files_fault_free fds σ σ' : only_files fds σ σ' → fault_free σ → fault_free σ'.
Proof. intros [_ _ Hs _ _]. by rw /fault_free Hs. Qed.

(** *** The buffered writer *)

Lemma bw_flush_ok w σ :
  fault_free σ →
  bw_flush (w, σ) = (Ok tt, (bw_new (bw_file w), append_data (bw_file w) (bw_buf w) σ)).
Proof.
  intros Hs. rw /bw_flush /bw_flush_buf. destruct w as [fd [|b buf]]; simpl.
  - by rw append_data_nil.
  - rw Hs. by rw file_write_ok.
Qed.

Lemma bw_drop_ok w σ : fault_free σ → bw_drop w σ = append_data (bw_file w) (bw_buf w) σ.
Proof. intros. by rw /bw_drop -/bw_flush bw_flush_ok. Qed.

(** Some of the buffered bytes may have moved to the file; none is lost. *)
Lemma bw_write_all_ok bs w σ :
  fault_free σ →
  ∃ out buf, bw_write_all bs (w, σ) =
      (Ok tt, (MkBufWriter (bw_file w) buf, append_data (bw_file w) out σ))
    ∧ out ++ buf = bw_buf w ++ bs.
Proof.
  intros Hs. rw /bw_write_all /bind /gets /=.
  destruct (Z.ltb_spec (zlen bs) (bw_spare w)).
  { exists [], (bw_buf w ++ bs). by rw /bw_to_buffer /modify append_data_nil. }
  destruct (Z.ltb_spec (bw_spare w) (zlen bs)).
  - rw -/bw_flush bw_flush_ok //=. destruct (_ <=? _).
    + exists (bw_buf w ++ bs), [].
      rw /zoom /= file_write_ok //= append_data_app app_nil_r //.
    + exists (bw_buf w), bs. done.
  - rw /ret. destruct (Z.leb_spec DEFAULT_BUF_SIZE (zlen bs)).
    + assert (bw_buf w = []) as Hnil.
      { apply zlen_nil_inv. rw /bw_spare in H, H0. kv_len. lia. }
      exists bs, []. rw /zoom /= file_write_ok //= app_nil_r Hnil.
      destruct w; simplify_eq/=. done.
    + exists [], (bw_buf w ++ bs). by rw /bw_to_buffer /modify append_data_nil.
Qed.

(** ** Directories *)

Lemma parent_snoc (d : path) n : parent (d ++ [n]) = Some d.
Proof. rw /parent removelast_last. by destruct d. Qed.
Lemma parent_join d n : parent (join d n) = Some d.
Proof. apply parent_snoc. Qed.

Lemma parent_exists_join d n σ : d ∈ fs_dirs σ → parent_exists (join d n) σ = true.
Proof. intros Hd. rw /parent_exists parent_join. by apply bool_decide_eq_true. Qed.

Lemma add_file_wf p σ : fs_wf σ → fs_wf (add_file p σ).
Proof.
  intros [Hn Hd Hf]. split; simpl.
  - intros q fd. rw lookup_insert. case_decide; [intros [= <-]|intros Hq].
    + rw lookup_insert_eq. eauto.
    + rw lookup_insert. case_decide; eauto.
  - intros q fd Hq%Hd. rw lookup_insert. case_decide; eauto.
  - intros fd. rw lookup_insert. case_decide; [lia|]. intros Hx%Hf. lia.
Qed.

Lemma join_inj d n n' : join d n = join d n' → n = n'.
Proof. by intros [_ [= ->]]%app_inj_2. Qed.

Lemma elem_of_dir_entries d names n :
  n ∈ dir_entries d names ↔ is_Some (names !! join d n).
Proof.
  rw /dir_entries list_elem_of_omap. split.
  - intros ([p fd] & Hin%elem_of_map_to_list & Hl). case_decide as Hd; [|done].
    apply last_Some in Hl as [q ->]. rw /in_dir parent_snoc in Hd. simplify_eq.
    rw /join Hin. eauto.
  - intros [fd Hfd]. exists (join d n, fd). rw elem_of_map_to_list. split; [done|].
    rw decide_True; [apply parent_join|]. by rw /join last_snoc.
Qed.

Lemma NoDup_dir_entries d names : NoDup (dir_entries d names).
Proof.
  rw /dir_entries. pose proof (NoDup_fst_map_to_list names) as Hnd. revert Hnd.
  generalize (map_to_list names). intros l. induction l as [|[p fd] l IH]; [by constructor|].
  rw fmap_cons. intros [Hp Hnd]%NoDup_cons. simpl. case_decide as Hd; [|by apply IH].
  destruct (last p) as [n|] eqn:Hl; [|by apply IH]. constructor; [|by apply IH].
  intros ([q fd'] & Hq & Hl')%list_elem_of_omap. case_decide as Hd'; [|done].
  apply Hp. apply list_elem_of_fmap. exists (q, fd'). split; [|done]. simpl.
  apply last_Some in Hl as [p0 ->]. apply last_Some in Hl' as [q0 ->].
  rw /in_dir !parent_snoc in Hd. rw /in_dir !parent_snoc in Hd'. by simplify_eq.
Qed.

(** [create_dir_all] adds directories only. *)
Definition with_dir (d : path) (σ : fs) : fs := set_dirs (λ ds, list_to_set (ancestors d) ∪ ds) σ.

Lemma create_dir_all_ok d σ : fault_free σ → create_dir_all d σ = (Ok tt, with_dir d σ).
Proof. intros Hs. by rw /create_dir_all syscall_ok. Qed.

Lemma with_dir_elem d σ : d ∈ fs_dirs (with_dir d σ).
Proof.
  apply elem_of_union_l, elem_of_list_to_set. rw /ancestors list_elem_of_fmap.
  exists (length d). rw firstn_all elem_of_seq. split; [done|lia].
Qed.

(** ** Crashes *)

Lemma power_loss_crash σ : crash σ (power_loss σ).
Proof.
  split; try done.
  - intros fd. rw /= lookup_fmap. destruct (fs_inodes σ !! fd) as [i|]; simpl; constructor.
    split; [done|]. case_decide as Heq; simpl; [done|].
    eexists. apply max_prefix_snd.
  - intros p. by left.
Qed.

Lemma crash_synced σ σ' fd :
  crash σ σ' → file_data σ fd = file_durable σ fd → file_data σ' fd = file_data σ fd.
Proof.
  intros [Hi _ _ _ _ _]. rw /file_data /file_durable. specialize (Hi fd).
  destruct Hi as [i i' [_ Hc]|]; [|done]. simpl. intros ?. by rw decide_True in Hc.
Qed.

Lemma crash_entries_kept d σ σ' :
  crash σ σ' → (∀ n, fs_dnames σ !! join d n = fs_names σ !! join d n) → entries_kept d σ σ'.
Proof. intros Hcr Hd n. destruct (crash_names _ _ Hcr (join d n)) as [-> | ->]; [apply Hd|done]. Qed.

Lemma crash_is_Some σ σ' fd :
  crash σ σ' → is_Some (fs_inodes σ' !! fd) ↔ is_Some (fs_inodes σ !! fd).
Proof.
  intros [Hi _ _ _ _ _]. specialize (Hi fd). destruct Hi; split; intros Hx; eauto.
Qed.

Lemma crash_wf σ σ' : crash σ σ' → fs_wf σ → fs_wf σ'.
Proof.
  intros Hcr [Hn Hd Hf].
  assert (∀ p fd, fs_names σ' !! p = Some fd → is_Some (fs_inodes σ' !! fd)) as Hv.
  { intros p fd Hp. apply (crash_is_Some _ _ _ Hcr).
    destruct (crash_names _ _ Hcr p) as [E|E]; rw E in Hp; eauto. }
  split; [done|by rw (crash_dnames _ _ Hcr)|]. intros fd Hi. rw (crash_next _ _ Hcr).
  by apply Hf, (crash_is_Some _ _ _ Hcr).
Qed.

(** A file that only grew since it was synced keeps the synced bytes. *)
Lemma crash_grown σ σ' fd bs :
  crash σ σ' → file_data σ fd = file_durable σ fd ++ bs →
  ∃ g, file_data σ' fd = file_durable σ fd ++ g.
Proof.
  intros [Hi _ _ _ _ _]. rw /file_data /file_durable. specialize (Hi fd).
  destruct Hi as [i i' [_ Hc]|]; [|by exists []]. simpl. intros Hd.
  case_decide as Heq; [exists bs; congruence|]. destruct Hc as [g ->].
  destruct (max_prefix_max (i_data i) (i_durable i) (i_durable i)) as [k Hk].
  - rw Hd. by exists bs.
  - done.
  - rw Hk -app_assoc. eauto.
Qed.

(** ** Writers only ever append, whatever faults strike *)

Definition grows (fd : nat) (σ σ' : fs) : Prop :=
  ∃ out sched, σ' = set_sched sched (append_data fd out σ).

Lemma grows_refl fd σ : grows fd σ σ.
Proof. exists [], (fs_sched σ). rw append_data_nil. by destruct σ. Qed.

Lemma grows_trans fd σ1 σ2 σ3 : grows fd σ1 σ2 → grows fd σ2 σ3 → grows fd σ1 σ3.
Proof.
  intros (o1 & s1 & ->) (o2 & s2 & ->). exists (o1 ++ o2), s2.
  rw -append_data_app. done.
Qed.

Lemma grows_data fd σ σ' :
  grows fd σ σ' → ∃ out, file_data σ' fd = file_data σ fd ++ out.
Proof.
  intros (out & s & ->). rw {1}/file_data /=. rw lookup_alter_eq /file_data.
  destruct (fs_inodes σ !! fd) as [i|]; simpl; [by exists out|by exists []].
Qed.
Lemma grows_durable fd fd' σ σ' : grows fd σ σ' → file_durable σ' fd' = file_durable σ fd'.
Proof. intros (out & s & ->). exact (file_durable_append fd fd' out σ). Qed.
Lemma grows_names fd σ σ' : grows fd σ σ' → fs_names σ' = fs_names σ.
Proof. by intros (out & s & ->). Qed.
Lemma grows_inode fd fd' σ σ' :
  grows fd σ σ' → is_Some (fs_inodes σ' !! fd') ↔ is_Some (fs_inodes σ !! fd').
Proof. intros (out & s & ->). simpl. apply is_Some_alter. Qed.

Lemma file_write_grows fd bs σ : grows fd σ (file_write fd bs σ).2.
Proof.
  rw /file_write /syscall. destruct (fs_sched σ) as [|[k|] s] eqn:Es.
  - exists bs, []. by rw /= -Es; destruct σ.
  - by exists (take k bs), s.
  - by exists bs, s.
Qed.

(** A computation of the writer: it stays on its file and only makes it grow. *)
Definition writer_op {A} (m : M (BufWriter * fs) A) : Prop :=
  ∀ w σ, bw_file (m (w, σ)).2.1 = bw_file w ∧ grows (bw_file w) σ (m (w, σ)).2.2.

Lemma writer_op_ret {A} (a : A) : writer_op (ret a).
Proof. intros w σ. split; [done|apply grows_refl]. Qed.

Lemma writer_op_bind {A B} (m : M (BufWriter * fs) A) (k : A → M (BufWriter * fs) B) :
  writer_op m → (∀ a, writer_op (k a)) → writer_op (bind m k).
Proof.
  intros Hm Hk w σ. rw /bind. destruct (Hm w σ) as [Hf Hg].
  destruct (m (w, σ)) as [[a|e|] [w' σ']]; simpl in *; [|done..].
  destruct (Hk a w' σ') as [Hf' Hg']. split; [by rw Hf'|].
  rw Hf in Hg'. by eapply grows_trans.
Qed.

Lemma bw_flush_buf_op : writer_op bw_flush_buf.
Proof.
  intros [fd buf] σ. rw /bw_flush_buf /=. destruct buf as [|b buf].
  { split; [done|apply grows_refl]. }
  pose proof (file_write_grows fd (b :: buf) σ) as Hg.
  destruct (file_write fd (b :: buf) σ) as [r σ'].
  by destruct (fs_sched σ) as [|[k|] s].
Qed.

Lemma bw_write_all_op bs : writer_op (bw_write_all bs).
Proof.
  apply writer_op_bind; [intros w σ; split; [done|apply grows_refl]|].
  intros spare. assert (writer_op (bw_to_buffer bs)) as Hb.
  { intros w σ. split; [done|apply grows_refl]. }
  destruct (_ <? _); [done|].
  apply writer_op_bind; [destruct (_ <? _); [apply bw_flush_buf_op|apply writer_op_ret]|].
  intros _. destruct (_ <=? _); [|done].
  intros w σ. rw /bind /gets /zoom /=.
  pose proof (file_write_grows (bw_file w) bs σ). by destruct (file_write _ _ σ).
Qed.

(** ** A small concrete state: one directory, and one file in it *)

Definition demo_dir : path := ["wal"%string].
Definition demo_path : path := ["wal"%string; "seg"%string].
Definition empty_fs : fs := Fs ∅ ∅ ∅ {[ []; demo_dir ]} 0 [].
Definition file_fs (data : list byte) : fs :=
  Fs {[ 0%nat := Inode data data ]} {[ demo_path := 0%nat ]} {[ demo_path := 0%nat ]}
     {[ []; demo_dir ]} 1 [].

Lemma file_fs_wf data : fs_wf (file_fs data).
Proof.
  split; simpl.
  - intros p fd [_ <-]%lookup_singleton_Some. rw lookup_singleton_eq. eauto.
  - intros p fd [_ <-]%lookup_singleton_Some. rw lookup_singleton_eq. eauto.
  - intros fd [i [<- _]%lookup_singleton_Some]. lia.
Qed.

(** Well-formedness as a check. *)
Lemma fs_wf_check σ :
  map_Forall (λ _ fd, is_Some (fs_inodes σ !! fd)) (fs_names σ) →
  map_Forall (λ _ fd, is_Some (fs_inodes σ !! fd)) (fs_dnames σ) →
  map_Forall (λ fd _, (fd < fs_next σ)%nat) (fs_inodes σ) → fs_wf σ.
Proof. intros Hn Hd Hi. split; [exact Hn|exact Hd|]. intros fd [i Hfd]. by apply (Hi fd i). Qed.

(** Discharge a hypothesis at a concrete input by evaluating it. *)
Ltac evaluate :=
  first
    [ solve [apply (bool_decide_unpack _); vm_compute; exact I]
    | solve [vm_compute; reflexivity]
    | solve [vm_compute; discriminate]
    | solve [vm_compute; eexists; reflexivity] ].
