(* ===== verification/Crc.v ===== *)
(** * Crc: the checksum the WAL relies on.

    The code calls the [crc32fast] crate, which is not part of this repository: it
    enters the development as the class [Crc32], whose only law is that the digest of
    a byte string is a [u32].  [crc32_ieee] is the checksum that crate documents
    (CRC-32/ISO-HDLC, reflected polynomial 0xEDB88320), bit by bit; it shows that the
    class has an instance and makes the model executable. *)

From Corelib Require Import ssreflect.
From stdpp Require Import base list.
From S2P Require Import Prelude.

Class Crc32 := {
  crc32 : list byte → Z;
  crc32_range bs : 0 ≤ crc32 bs < 2 ^ 32
}.

Definition crc_bit (c : Z) : Z :=
  if Z.testbit c 0 then Z.lxor (Z.shiftr c 1) 0xEDB88320 else Z.shiftr c 1.

Definition crc_byte (c : Z) (b : byte) : Z :=
  Nat.iter 8 crc_bit (Z.lxor c (Z_of_byte b)).

Definition crc32_ieee (bs : list byte) : Z :=
  Z.lxor (foldl crc_byte 0xFFFFFFFF bs) 0xFFFFFFFF.

Lemma lxor_u32 a b : 0 ≤ a < 2 ^ 32 → 0 ≤ b < 2 ^ 32 → 0 ≤ Z.lxor a b < 2 ^ 32.
Proof.
  intros Ha Hb.
  assert (Z.lxor a b = Z.lxor a b mod 2 ^ 32) as ->; [|apply Z.mod_pos_bound; lia].
  rw -Z.land_ones; [lia|]. apply Z.bits_inj'. intros n Hn.
  rw Z.land_spec Z.lxor_spec Z.testbit_ones_nonneg; [lia..|].
  destruct (Z.ltb_spec n 32); [by rw andb_true_r|]. rw andb_false_r.
  assert (∀ z, 0 ≤ z < 2 ^ 32 → Z.testbit z n = false) as Hhi.
  { intros z Hz. rw -(Z.mod_small z (2 ^ 32)) // Z.mod_pow2_bits_high //; lia. }
  by rw !Hhi.
Qed.

Lemma crc_bit_u32 c : 0 ≤ c < 2 ^ 32 → 0 ≤ crc_bit c < 2 ^ 32.
Proof.
  intros Hc. assert (0 ≤ Z.shiftr c 1 < 2 ^ 32) as Hs.
  { rw Z.shiftr_div_pow2; [lia|]. change (2 ^ 1) with 2.
    split; [apply Z.div_pos; lia|]. apply Z.div_lt_upper_bound; lia. }
  rw /crc_bit. destruct (Z.testbit c 0); [|done]. apply lxor_u32; [done|lia].
Qed.

Lemma crc_byte_u32 c b : 0 ≤ c < 2 ^ 32 → 0 ≤ crc_byte c b < 2 ^ 32.
Proof.
  intros Hc. rw /crc_byte. pose proof (Z_of_byte_range b).
  assert (0 ≤ Z.lxor c (Z_of_byte b) < 2 ^ 32) as Hx by (apply lxor_u32; lia).
  generalize 8%nat. intros n. induction n as [|n IH]; [done|]. by apply crc_bit_u32.
Qed.

Lemma crc32_ieee_range bs : 0 ≤ crc32_ieee bs < 2 ^ 32.
Proof.
  apply lxor_u32; [|lia].
  assert (0 ≤ 0xFFFFFFFF < 2 ^ 32) as Hc by lia. revert Hc.
  generalize 0xFFFFFFFF. induction bs as [|b bs IH]; intros c Hc; [done|].
  by apply IH, crc_byte_u32.
Qed.

Definition crc32fast : Crc32 := {| crc32 := crc32_ieee; crc32_range := crc32_ieee_range |}.
