(* ===== verification/Record.v ===== *)
(** * Record: the framing of one WAL record (src/wal/record.rs).

    A record on disk is [crc32][length][payload].  [write_record] is written against
    the [Write] interface (instances: a vector, and the buffered file of [Fs]) and
    [read_record] against a reader whose [read] may return fewer bytes than asked,
    may be interrupted, or may fail, as [std::io::Read] allows.  Two kinds of reader: with a
    finite list of disturbances ([reader], after which reads are undisturbed; the files of
    the other components are read through it), and with an endless sequence of them
    ([stream]), for which the loop of [fill] need not end.  The checksum is the
    [crc32fast] crate's: a parameter, of which only the width is used. *)

From Corelib Require Import ssreflect.
From stdpp Require Import base list sets.
From S2P Require Import Prelude Text Fs Crc.

(** ** Interfaces *)

(** [std::io::Write], as far as the code uses it. *)
Class Write (W : Type) := write_all : list byte → M W unit.

#[global] Instance write_vec : Write (list byte) := λ bs, modify (λ v, v ++ bs).
#[global] Instance write_buf_writer : Write (BufWriter * fs) := bw_write_all.

(** ** [std::io::Read] *)

Inductive read_event :=
| ReadShort (k : nat)     (* at most [S k] bytes are returned *)
| ReadInterrupted         (* [ErrorKind::Interrupted] *)
| ReadFail.               (* any other i/o error *)

#[global] Instance read_event_eq_dec : EqDecision read_event.
Proof. solve_decision. Defined.

(** What is left of the stream, the position, and how the coming reads behave; with
    no event left a read returns all it was asked for. *)
Record reader := MkReader { r_rest : list byte; r_pos : Z; r_sched : list read_event }.

Inductive read_result :=
| Got (bs : list byte)
| Interrupted
| Failed.

Definition take_bytes (n : nat) (s : list read_event) (r : reader) : read_result * reader :=
  (Got (take n (r_rest r)),
   MkReader (drop n (r_rest r)) (r_pos r + zlen (take n (r_rest r))) s).

(** [r.read(&mut buf)] for a buffer of [n] bytes. *)
Definition read (n : nat) (r : reader) : read_result * reader :=
  match r_sched r with
  | [] => take_bytes n [] r
  | ReadShort k :: s => take_bytes (n `min` S k) s r
  | ReadInterrupted :: s => (Interrupted, MkReader (r_rest r) (r_pos r) s)
  | ReadFail :: s => (Failed, MkReader (r_rest r) (r_pos r) s)
  end.

(** [std::io::Read], as far as [fill] uses it. *)
Class Read (R : Type) := read_from : nat → R → read_result * R.
#[global] Instance read_scheduled : Read reader := read.

(** [reader.stream_position()]. *)
Definition stream_position (r : reader) : Z := r_pos r.

(** A reader at the start of some contents. *)
Definition reader_of (bs : list byte) : reader := MkReader bs 0 [].

(** A reader whose reads never come to an end: [None] is a read that returns all it was asked
    for. *)
Record stream := MkStream { sm_rest : list byte; sm_pos : Z; sm_next : nat → option read_event }.

Definition read_stream (n : nat) (r : stream) : read_result * stream :=
  let later := λ i, sm_next r (S i) in
  let got k := (Got (take k (sm_rest r)),
                MkStream (drop k (sm_rest r)) (sm_pos r + zlen (take k (sm_rest r))) later) in
  match sm_next r 0 with
  | None => got n
  | Some (ReadShort k) => got (n `min` S k)%nat
  | Some ReadInterrupted => (Interrupted, MkStream (sm_rest r) (sm_pos r) later)
  | Some ReadFail => (Failed, MkStream (sm_rest r) (sm_pos r) later)
  end.
#[global] Instance read_endless : Read stream := read_stream.

Lemma read_from_reader n (r : reader) : read_from n r = read n r.
Proof. done. Qed.
Lemma read_from_stream n (r : stream) : read_from n r = read_stream n r.
Proof. done. Qed.

(** After every read there is one that is not interrupted. *)
Definition not_stuck (r : stream) : Prop := ∀ i, ∃ j, (i ≤ j)%nat ∧ sm_next r j ≠ Some ReadInterrupted.

(** ** src/wal/record.rs *)

Definition HEADER_LEN : nat := 8.
Definition MAX_RECORD_LEN : Z := 64 * 1024 * 1024.

Inductive RecordRead :=
| Entry (payload : list byte)
| Eof
| Truncated
| Corrupt.

#[global] Instance RecordRead_eq_dec : EqDecision RecordRead.
Proof. solve_decision. Defined.

(** [fill]: the loop reads until the buffer of [n] bytes is full or the stream ends;
    [buf] holds the bytes read so far.  The fuel counts iterations, see [fill_fuel]. *)
Fixpoint fill_loop {R} `{Read R} (fuel : nat) (n : nat) (buf : list byte) : M R (list byte) := λ r,
  match fuel with
  | O => (Panic, r)
  | S fuel =>
      if (length buf <? n)%nat then
        match read_from (n - length buf) r with
        | (Got [], r') => (Ok buf, r')
        | (Got bs, r') => fill_loop fuel n (buf ++ bs) r'
        | (Interrupted, r') => fill_loop fuel n buf r'
        | (Failed, r') => (Err (EIo OtherIo), r')
        end
      else (Ok buf, r)
  end.

(** Every iteration uses up a read event or makes the buffer grow. *)
Definition fill_fuel (n : nat) (r : reader) : nat := S (S (n + length (r_sched r))).

Definition fill (n : nat) : M reader (list byte) := λ r, fill_loop (fill_fuel n r) n [] r.

(** [fill] with a number of iterations of its own choice. *)
Definition fill_up {R} `{Read R} (fuel n : nat) : M R (list byte) := fill_loop fuel n [].

Section record.
Context `{Crc32}.

(** [Hasher::new], [update] and [finalize]. *)
Definition hasher_new : list byte := [].
Definition hasher_update (h bs : list byte) : list byte := h ++ bs.
Definition hasher_finalize (h : list byte) : Z := crc32 h.

Definition write_record {W} `{Write W} (payload : list byte) : M W Z :=
  let len := u32 (zlen payload) in
  let len_bytes := to_le_bytes 4 len in
  let hasher := hasher_update hasher_new len_bytes in
  let hasher := hasher_update hasher payload in
  let crc := hasher_finalize hasher in
  do! write_all (to_le_bytes 4 crc) then
  do! write_all len_bytes then
  do! write_all payload then
  ret (Z.of_nat HEADER_LEN + zlen payload).

Definition read_record_with {R} (fill : nat → M R (list byte)) : M R RecordRead :=
  let! header := fill HEADER_LEN in
  if (length header =? 0)%nat then ret Eof
  else if (length header <? HEADER_LEN)%nat then ret Truncated
  else
    let crc := from_le_bytes (take 4 header) in
    let len := from_le_bytes (take 4 (drop 4 header)) in
    if MAX_RECORD_LEN <? len then ret Corrupt
    else
      let! payload := fill (Z.to_nat len) in
      if zlen payload <? len then ret Truncated
      else
        let hasher := hasher_update hasher_new (to_le_bytes 4 len) in
        let hasher := hasher_update hasher payload in
        if negb (hasher_finalize hasher =? crc) then ret Corrupt
        else ret (Entry payload).
Definition read_record : M reader RecordRead := read_record_with fill.

(** *** The bytes of a framed record *)

Definition record_crc (payload : list byte) : Z :=
  crc32 (to_le_bytes 4 (u32 (zlen payload)) ++ payload).
Definition frame (payload : list byte) : list byte :=
  to_le_bytes 4 (record_crc payload) ++ to_le_bytes 4 (u32 (zlen payload)) ++ payload.
Definition frames (ps : list (list byte)) : list byte := concat (frame <$> ps).

(** *** What the head of a byte string decodes to, and how many bytes that takes: the
    outcome of [read_record] as a function of the stream alone. *)
Definition decode (bs : list byte) : RecordRead * nat :=
  match bs with
  | [] => (Eof, 0%nat)
  | _ =>
      if (length bs <? HEADER_LEN)%nat then (Truncated, length bs)
      else
        let crc := from_le_bytes (take 4 bs) in
        let len := from_le_bytes (take 4 (drop 4 bs)) in
        let body := drop HEADER_LEN bs in
        if MAX_RECORD_LEN <? len then (Corrupt, HEADER_LEN)
        else if zlen body <? len then (Truncated, length bs)
        else
          let payload := take (Z.to_nat len) body in
          if crc32 (to_le_bytes 4 len ++ payload) =? crc
          then (Entry payload, (HEADER_LEN + Z.to_nat len)%nat)
          else (Corrupt, (HEADER_LEN + Z.to_nat len)%nat)
  end.

End record.

(** ** Reading a stream *)

(** The reads to come do not fail (they may be short or interrupted). *)
Definition quiet (r : reader) : Prop := ReadFail ∉ r_sched r.
#[global] Instance quiet_dec r : Decision (quiet r).
Proof. rw /quiet. apply _. Defined.

Lemma quiet_reader_of bs : quiet (reader_of bs).
Proof. apply not_elem_of_nil. Qed.

(** The reader after [n] bytes, or after all there is. *)
Definition advance (n : nat) (s : list read_event) (r : reader) : reader :=
  MkReader (drop n (r_rest r)) (r_pos r + zlen (take n (r_rest r))) s.

Lemma advance_0 r : advance 0 (r_sched r) r = r.
Proof. destruct r. by rw /advance /= drop_0 zlen_nil Z.add_0_r. Qed.

Lemma advance_advance n m s1 s2 r : advance m s2 (advance n s1 r) = advance (n + m) s2 r.
Proof.
  rw /advance /= drop_drop. f_equal.
  rw -Z.add_assoc -zlen_app. do 2 f_equal.
  by rw take_take_drop.
Qed.

(** Reading past the end stops there. *)
Lemma advance_all n m s r :
  (length (r_rest r) ≤ n)%nat → (length (r_rest r) ≤ m)%nat → advance n s r = advance m s r.
Proof. intros Hn Hm. rw /advance !drop_ge // !take_ge //. Qed.

(** Iterations the loop may still need. *)
Definition fill_measure (n : nat) (buf : list byte) (r : reader) : nat :=
  (length (r_sched r) +
   if decide (r_rest r = [] ∨ (n ≤ length buf)%nat) then 1 else 2)%nat.

(** What [fuel] iterations of the loop achieve. *)
Definition fill_done (fuel n : nat) (buf : list byte) (r : reader) : Prop :=
  ∃ s, fill_loop fuel n buf r =
         (Ok (buf ++ take (n - length buf) (r_rest r)), advance (n - length buf) s r)
       ∧ s `suffix_of` r_sched r.

(** A read of up to [k] bytes, then the rest of the loop. *)
Lemma fill_after_read fuel n buf r k s :
  (∀ buf r, (fill_measure n buf r ≤ fuel)%nat → (length buf ≤ n)%nat → quiet r →
     fill_done fuel n buf r) →
  (fill_measure n buf r ≤ S fuel)%nat → quiet r →
  (length buf < n)%nat → (0 < k ≤ n - length buf)%nat → s `suffix_of` r_sched r →
  (length s < length (r_sched r) ∨ (s = [] ∧ k = n - length buf))%nat →
  read (n - length buf) r = take_bytes k s r →
  fill_done (S fuel) n buf r.
Proof.
  intros IH Hfuel Hq Hlt Hk Hsuf Hmeas Hread.
  rw /fill_done. cbn [fill_loop]. rw (proj2 (Nat.ltb_lt _ _) Hlt) read_from_reader Hread /take_bytes.
  fold (advance k s r). destruct (take k (r_rest r)) as [|b bs] eqn:Ht.
  { assert (r_rest r = []) as Hnil.
    { apply (f_equal length) in Ht. rw length_take /= in Ht.
      apply length_zero_iff_nil. lia. }
    exists s. rw /advance Hnil !take_nil !drop_nil app_nil_r. done. }
  rw -Ht. destruct (IH (buf ++ take k (r_rest r)) (advance k s r)) as (s' & -> & Hs').
  - rw /fill_measure /= in Hfuel |- *. rw length_app length_take.
    apply suffix_length in Hsuf.
    rw (decide_False (P := r_rest r = [] ∨ _)) in Hfuel.
    { intros [Hnil|]; [|lia]. by rw Hnil take_nil in Ht. }
    destruct Hmeas as [|[-> ->]]; [case_decide; lia|].
    rw decide_True; [|simpl; lia].
    destruct (decide (length (r_rest r) ≤ n - length buf)%nat); [|right; lia].
    left. by apply drop_ge.
  - rw length_app length_take. lia.
  - rw /quiet /advance /=. intros Hin. apply Hq. by eapply elem_of_suffix.
  - exists s'. rw advance_advance length_app length_take /=. split; [|by etrans].
    rw -app_assoc. destruct (decide (k ≤ length (r_rest r))%nat).
    + rw Nat.min_l // take_take_drop.
      by replace (k + (n - (length buf + k)))%nat with (n - length buf)%nat by lia.
    + rw (take_ge _ k); [lia|]. rw drop_ge; [lia|]. rw take_nil app_nil_r.
      rw (take_ge _ (n - length buf)); [lia|].
      f_equal. rw /advance !drop_ge; [lia..|]. by rw !take_ge; [lia..|].
Qed.

Lemma fill_loop_spec fuel n buf r :
  (fill_measure n buf r ≤ fuel)%nat → (length buf ≤ n)%nat → quiet r →
  fill_done fuel n buf r.
Proof.
  revert buf r. induction fuel as [|fuel IH]; intros buf r Hfuel Hn Hq.
  { rw /fill_measure in Hfuel. case_decide; lia. }
  destruct (decide (length buf < n)%nat) as [Hlt|]; last first.
  { exists (r_sched r). cbn [fill_loop]. destruct (Nat.ltb_spec (length buf) n); [lia|].
    replace (n - length buf)%nat with 0%nat by lia. by rw advance_0 take_0 app_nil_r. }
  destruct (r_sched r) as [|[k| |] sched] eqn:Es.
  - apply fill_after_read with (n - length buf)%nat []; auto with lia.
    + rw Es. by exists [].
    + rw /read Es //.
  - apply fill_after_read with ((n - length buf) `min` S k)%nat sched; auto with lia.
    + rw Es. by exists [ReadShort k].
    + rw Es /=. lia.
    + rw /read Es //.
  - destruct (IH buf (MkReader (r_rest r) (r_pos r) sched)) as (s' & Hs & Hs').
    + rw /fill_measure Es /= in Hfuel |- *. repeat case_decide; lia.
    + done.
    + rw /quiet Es in Hq. rw /quiet /=. set_solver.
    + exists s'. cbn [fill_loop]. rw (proj2 (Nat.ltb_lt _ _) Hlt) read_from_reader /read Es Hs.
      split; [done|]. by apply suffix_cons_r.
  - exfalso. apply Hq. rw Es. set_solver.
Qed.

Lemma fill_spec n r :
  quiet r →
  ∃ s, fill n r = (Ok (take n (r_rest r)), advance n s r) ∧ s `suffix_of` r_sched r.
Proof.
  intros Hq. destruct (fill_loop_spec (fill_fuel n r) n [] r) as (s & Hs & Hsuf).
  - rw /fill_fuel /fill_measure. case_decide; lia.
  - simpl. lia.
  - done.
  - exists s. rw Nat.sub_0_r in Hs. split; [exact Hs|done].
Qed.

Lemma quiet_suffix n s r : quiet r → s `suffix_of` r_sched r → quiet (advance n s r).
Proof. intros Hq Hs Hin. apply Hq. by eapply elem_of_suffix. Qed.

(** [fill] never gets stuck, whatever the reads do. *)
(** *** Endless streams *)

(** The finite schedules are the streams that are undisturbed in the end. *)
Definition stream_of (r : reader) : stream := MkStream (r_rest r) (r_pos r) (λ i, r_sched r !! i).

Lemma read_stream_of n r : read_stream n (stream_of r) = ((read n r).1, stream_of (read n r).2).
Proof. destruct r as [rest p [|[k| |] s]]; reflexivity. Qed.

Lemma fill_loop_stream_of fuel n buf r :
  fill_loop fuel n buf (stream_of r) = ((fill_loop fuel n buf r).1, stream_of (fill_loop fuel n buf r).2).
Proof.
  revert buf r. induction fuel as [|fuel IH]; intros buf r; [done|]. cbn [fill_loop].
  destruct (_ <? _)%nat; [|done]. rw read_from_stream read_from_reader read_stream_of.
  by destruct (read _ r) as [[[|b bs]| |] r']; simpl.
Qed.

Lemma not_stuck_later rest p f : (∀ i, ∃ j, (i ≤ j)%nat ∧ f j ≠ Some ReadInterrupted) →
  not_stuck (MkStream rest p (λ i, f (S i))).
Proof. intros H i. destruct (H (S i)) as ([|j] & Hj & Hn); [lia|]. exists j. split; [lia|done]. Qed.

(** The loop ends, with one result for all sufficient numbers of iterations. *)
Definition ends (n : nat) (buf : list byte) (r : stream) : Prop :=
  ∃ bound out r', out ≠ Panic ∧ not_stuck r' ∧ ∀ fuel, (bound ≤ fuel)%nat → fill_loop fuel n buf r = (out, r').

Lemma ends_step n buf buf' r r' :
  (∀ fuel, fill_loop (S fuel) n buf r = fill_loop fuel n buf' r') → ends n buf' r' → ends n buf r.
Proof.
  intros E (bound & out & r2 & Hp & Hn & H). exists (S bound), out, r2. split_and!; [done..|].
  intros [|fuel] Hf; [lia|]. rw E. apply H. lia.
Qed.

Lemma ends_now n buf r out r' :
  (∀ fuel, fill_loop (S fuel) n buf r = (out, r')) → out ≠ Panic → not_stuck r' → ends n buf r.
Proof. intros E Hp Hn. exists 1%nat, out, r'. split_and!; [done..|]. intros [|fuel] Hf; [lia|]. apply E. Qed.

(** One read, if the buffer is not full. *)
Lemma fill_loop_read fuel n buf (r : stream) : (length buf < n)%nat →
  fill_loop (S fuel) n buf r =
    match read_stream (n - length buf) r with
    | (Got [], r') => (Ok buf, r')
    | (Got bs, r') => fill_loop fuel n (buf ++ bs) r'
    | (Interrupted, r') => fill_loop fuel n buf r'
    | (Failed, r') => (Err (EIo OtherIo), r')
    end.
Proof. intros Hlt. cbn [fill_loop]. by rw (proj2 (Nat.ltb_lt _ _) Hlt). Qed.

(** A read that gets [bs] brings the loop nearer to its end. *)
Lemma ends_got n buf r bs r' : (length buf < n)%nat → not_stuck r' →
  (∀ buf' r2, (n - length buf' < n - length buf)%nat → not_stuck r2 → ends n buf' r2) →
  read_stream (n - length buf) r = (Got bs, r') → ends n buf r.
Proof.
  intros Hlt Hr IH E. destruct bs as [|b bs].
  - apply (ends_now n buf r (Ok buf) r'); [|done|done]. intros fuel. by rw fill_loop_read // E.
  - apply (ends_step n buf (buf ++ b :: bs) r r'); [intros fuel; by rw fill_loop_read // E|].
    apply IH; [|done]. rw length_app /=. lia.
Qed.

Lemma fill_ends n buf r : not_stuck r → ends n buf r.
Proof.
  remember (n - length buf)%nat as m eqn:Em. revert buf r Em.
  induction m as [m IH] using lt_wf_ind. intros buf r -> Hr.
  destruct (decide (length buf < n)%nat) as [Hlt|Hge]; last first.
  { apply (ends_now n buf r (Ok buf) r); [|done|done]. intros fuel. cbn [fill_loop].
    by destruct (Nat.ltb_spec (length buf) n); [lia|]. }
  destruct (Hr 0%nat) as (j & _ & Hj). revert r Hr Hj. induction j as [|j IHj]; intros r Hr Hj.
  all: pose proof (λ rest p, not_stuck_later rest p _ Hr) as Hl.
  all: destruct (sm_next r 0) as [[k| |]|] eqn:E0; try by destruct Hj.
  all: try (eapply ends_got; [exact Hlt|..|by rw /read_stream E0]; [apply Hl|by intros; eapply IH]).
  all: try (eapply (ends_now n buf r (Err (EIo OtherIo)));
    [intros fuel; by rw fill_loop_read // /read_stream E0|done|apply Hl]).
  eapply ends_step; [intros fuel; by rw fill_loop_read // /read_stream E0|]. by apply IHj.
Qed.

(** Reads that are always interrupted never fill a buffer. *)
Lemma fill_never_ends fuel n (r : stream) : (0 < n)%nat → (∀ i, sm_next r i = Some ReadInterrupted) →
  (fill_loop fuel n [] r).1 = Panic.
Proof.
  intros Hn. revert r. induction fuel as [|fuel IH]; intros r Hr; [done|].
  rw fill_loop_read // /read_stream Hr. apply IH. intros i. apply Hr.
Qed.

Lemma fill_loop_no_panic fuel n buf r :
  (S (n - length buf) + length (r_sched r) < fuel)%nat → (fill_loop fuel n buf r).1 ≠ Panic.
Proof.
  revert buf r. induction fuel as [|fuel IH]; intros buf r Hfuel; [lia|].
  cbn [fill_loop]. destruct (Nat.ltb_spec (length buf) n); [|by simpl].
  rw read_from_reader /read. destruct (r_sched r) as [|[k| |] s] eqn:Es; simpl in Hfuel.
  - rw /take_bytes. destruct (take _ _) as [|b bs] eqn:Ht; [by simpl|].
    apply IH. rw length_app /=. lia.
  - rw /take_bytes. destruct (take _ _) as [|b bs] eqn:Ht; [by simpl|].
    apply IH. rw length_app /=. lia.
  - apply IH. simpl. lia.
  - by simpl.
Qed.

Section record_facts.
Context `{Crc32}.
Implicit Types p bs tl : list byte.

Lemma length_frame p : length (frame p) = (HEADER_LEN + length p)%nat.
Proof. rw /frame. by kv_len. Qed.
Lemma zlen_frame p : zlen (frame p) = 8 + zlen p.
Proof. rw /zlen length_frame /HEADER_LEN. lia. Qed.

Lemma frames_nil : frames [] = [].
Proof. done. Qed.
Lemma decode_nil : decode [] = (Eof, 0%nat).
Proof. done. Qed.
Lemma frames_app ps qs : frames (ps ++ qs) = frames ps ++ frames qs.
Proof. by rw /frames fmap_app concat_app. Qed.
Lemma frames_cons p ps : frames (p :: ps) = frame p ++ frames ps.
Proof. done. Qed.
Lemma frames_snoc ps p : frames (ps ++ [p]) = frames ps ++ frame p.
Proof. rw frames_app frames_cons /=. by rw app_nil_r. Qed.

Lemma take_frame_header p tl : take HEADER_LEN (frame p ++ tl) =
  to_le_bytes 4 (record_crc p) ++ to_le_bytes 4 (u32 (zlen p)).
Proof. done. Qed.
Lemma drop_frame_header p tl : drop HEADER_LEN (frame p ++ tl) = p ++ tl.
Proof. done. Qed.

Lemma record_crc_range p : 0 ≤ record_crc p < 256 ^ Z.of_nat 4.
Proof. apply crc32_range. Qed.

Lemma max_record_u32 z : 0 ≤ z ≤ MAX_RECORD_LEN → u32 z = z.
Proof. intros ?. apply u32_small. rw /MAX_RECORD_LEN in H0. lia. Qed.

(** The header of a frame gives back its two fields. *)
Lemma frame_crc_field p tl : from_le_bytes (take 4 (frame p ++ tl)) = record_crc p.
Proof. exact (from_to_le_bytes 4 _ (record_crc_range p)). Qed.
Lemma frame_len_field p tl : from_le_bytes (take 4 (drop 4 (frame p ++ tl))) = u32 (zlen p).
Proof.
  apply (from_to_le_bytes 4). change (256 ^ Z.of_nat 4) with (2 ^ 32).
  apply Z.mod_pos_bound. lia.
Qed.

Lemma frame_nonempty p tl : ∃ b bs, frame p ++ tl = b :: bs.
Proof. rw /frame. cbn. eauto. Qed.

Lemma decode_unfold bs :
  bs ≠ [] → (HEADER_LEN ≤ length bs)%nat →
  decode bs =
    let crc := from_le_bytes (take 4 bs) in
    let len := from_le_bytes (take 4 (drop 4 bs)) in
    let body := drop HEADER_LEN bs in
    if MAX_RECORD_LEN <? len then (Corrupt, HEADER_LEN)
    else if zlen body <? len then (Truncated, length bs)
    else if crc32 (to_le_bytes 4 len ++ take (Z.to_nat len) body) =? crc
         then (Entry (take (Z.to_nat len) body), (HEADER_LEN + Z.to_nat len)%nat)
         else (Corrupt, (HEADER_LEN + Z.to_nat len)%nat).
Proof.
  intros Hne Hlen. rw /decode. destruct bs as [|b bs]; [done|].
  by rw (proj2 (Nat.ltb_ge _ _) Hlen).
Qed.

Lemma decode_frame p tl :
  zlen p ≤ MAX_RECORD_LEN → decode (frame p ++ tl) = (Entry p, length (frame p)).
Proof.
  intros Hp. pose proof (zlen_nonneg p).
  rw decode_unfold.
  { destruct (frame_nonempty p tl) as (b & bs & ->). done. }
  { rw length_app length_frame. lia. }
  rw frame_crc_field frame_len_field drop_frame_header max_record_u32 //.
  cbv zeta. rw (proj2 (Z.ltb_ge _ _)) //. rw (proj2 (Z.ltb_ge _ _)); [kv_len; lia|].
  rw /zlen Nat2Z.id take_app_length. fold (zlen p).
  rw /record_crc max_record_u32 // Z.eqb_refl length_frame //.
Qed.

(** Whatever decodes to an entry is the frame of that entry. *)
Lemma decode_entry_inv bs p c :
  decode bs = (Entry p, c) →
  bs = frame p ++ drop c bs ∧ c = length (frame p) ∧ zlen p ≤ MAX_RECORD_LEN.
Proof.
  destruct (decide (bs = [])) as [->|Hne]; [done|].
  destruct (decide (HEADER_LEN ≤ length bs)%nat) as [Hlen|Hlen]; last first.
  { rw /decode. destruct bs as [|b bs]; [done|].
    rw (proj2 (Nat.ltb_lt _ _)); [lia|done]. }
  rw decode_unfold //. cbv zeta.
  set (len := from_le_bytes (take 4 (drop 4 bs))).
  assert (0 ≤ len) as Hl0 by apply from_le_bytes_range.
  destruct (Z.ltb_spec MAX_RECORD_LEN len) as [|Hmax]; [done|].
  destruct (Z.ltb_spec (zlen (drop HEADER_LEN bs)) len) as [|Hbody]; [done|].
  destruct (Z.eqb_spec (crc32 (to_le_bytes 4 len ++ take (Z.to_nat len) (drop HEADER_LEN bs)))
              (from_le_bytes (take 4 bs))) as [Hcrc|]; [|done].
  intros [= Hp Hc]. rw /zlen length_drop in Hbody.
  assert (zlen p = len) as Hzp.
  { rw -Hp /zlen length_take length_drop. lia. }
  assert (length (frame p) = c) as Hfc.
  { rw length_frame -Hc /HEADER_LEN. rw /zlen in Hzp. lia. }
  rw Hzp. split; [|done]. rw -{1}(take_drop c bs). f_equal.
  rw /frame /record_crc Hzp max_record_u32 // Hp in Hcrc |- *.
  rw Hcrc /len.
  pose proof (to_from_le_bytes (take 4 bs)) as H1.
  pose proof (to_from_le_bytes (take 4 (drop 4 bs))) as H2.
  rw length_take Nat.min_l in H1; [rw /HEADER_LEN in Hlen; lia|].
  rw length_take length_drop Nat.min_l in H2; [rw /HEADER_LEN in Hlen; lia|].
  by rw H1 H2 -Hp -Hc /HEADER_LEN app_assoc !take_take_drop.
Qed.

(** Cutting a frame short anywhere leaves a torn record. *)
Lemma decode_torn p k :
  zlen p ≤ MAX_RECORD_LEN → (0 < k < length (frame p))%nat →
  decode (take k (frame p)) = (Truncated, k).
Proof.
  intros Hp Hk. pose proof (length_frame p) as Hlf.
  assert (length (take k (frame p)) = k) as Hlk by (rw length_take; lia).
  assert (take k (frame p) ≠ []) as Hne.
  { intros Hn. rw Hn /= in Hlk. lia. }
  destruct (decide (HEADER_LEN ≤ k)%nat) as [Hh|Hh]; last first.
  { rw /decode. destruct (take k (frame p)) as [|b bs]; [done|].
    rw Hlk (proj2 (Nat.ltb_lt _ _)) //. lia. }
  rw decode_unfold //; [lia|]. cbv zeta. rw Hlk.
  assert (from_le_bytes (take 4 (drop 4 (take k (frame p)))) = zlen p) as ->.
  { rw -(max_record_u32 (zlen p)); [pose proof (zlen_nonneg p); lia|].
    rw -(frame_len_field p []) app_nil_r skipn_firstn_comm take_take Nat.min_l //.
    rw /HEADER_LEN in Hh. lia. }
  rw (proj2 (Z.ltb_ge _ _)) //. rw (proj2 (Z.ltb_lt _ _)) //.
  rw /zlen length_drop length_take Hlf. rw Hlf in Hk. lia.
Qed.

(** A complete record with other payload bytes behind its header. *)
Lemma decode_tampered p q tl :
  length q = length p → zlen p ≤ MAX_RECORD_LEN →
  decode (take HEADER_LEN (frame p) ++ q ++ tl) =
    (if record_crc q =? record_crc p then Entry q else Corrupt, (HEADER_LEN + length q)%nat).
Proof.
  intros Hl Hp. assert (zlen q = zlen p) as Hz by (rw /zlen; lia).
  pose proof (frame_crc_field p (q ++ tl)) as Hcrc.
  pose proof (frame_len_field p (q ++ tl)) as Hlen.
  rw decode_unfold; [done|rw length_app length_take length_frame; lia|]. cbv zeta.
  pose proof (zlen_nonneg p).
  change (drop HEADER_LEN _) with (q ++ tl).
  assert (from_le_bytes (take 4 (take HEADER_LEN (frame p) ++ q ++ tl)) = record_crc p)
    as -> by exact Hcrc.
  assert (from_le_bytes (take 4 (drop 4 (take HEADER_LEN (frame p) ++ q ++ tl))) = zlen p) as ->.
  { rw -(max_record_u32 (zlen p)) //. }
  rw (proj2 (Z.ltb_ge _ _)) //. rw (proj2 (Z.ltb_ge _ _)); [kv_len; lia|].
  rw -Hz {2 4 5}/zlen !Nat2Z.id take_app_length /record_crc.
  rw !max_record_u32; [lia..|]. by destruct (_ =? _).
Qed.

(** A length beyond the ceiling is read back as corruption, right after the header. *)
Lemma decode_oversize p tl :
  MAX_RECORD_LEN < zlen p < 2 ^ 32 → decode (frame p ++ tl) = (Corrupt, HEADER_LEN).
Proof.
  intros Hp. rw decode_unfold.
  { destruct (frame_nonempty p tl) as (b & bs & ->). done. }
  { rw length_app length_frame. lia. }
  cbv zeta. rw frame_len_field u32_small; [rw /MAX_RECORD_LEN in Hp; lia|].
  rw (proj2 (Z.ltb_lt _ _)) //. lia.
Qed.

Lemma decode_consumed bs : ((decode bs).2 ≤ length bs)%nat.
Proof.
  rw /decode. destruct bs as [|b bs]; [done|].
  destruct (Nat.ltb_spec (length (b :: bs)) HEADER_LEN) as [|Hh]; [done|]. cbv zeta.
  destruct (_ <? _); [done|].
  destruct (Z.ltb_spec (zlen (drop HEADER_LEN (b :: bs)))
              (from_le_bytes (take 4 (drop 4 (b :: bs))))) as [|Hb]; [done|].
  rw /zlen length_drop in Hb.
  destruct (_ =? _); cbn [snd]; revert Hb Hh; generalize (length (b :: bs)); lia.
Qed.

Lemma decode_eof_inv bs c : decode bs = (Eof, c) → bs = [].
Proof.
  rw /decode. destruct bs as [|b bs]; [done|]. intros Hd. exfalso. revert Hd.
  destruct (_ <? _)%nat; [done|]. cbv zeta.
  destruct (_ <? _); [done|]. destruct (_ <? _); [done|]. by destruct (_ =? _).
Qed.

(** [read_record] is [decode] on the rest of the stream, however the reads of the
    underlying file are cut up. *)
Lemma read_record_decode_aux r :
  quiet r →
  ∃ s, read_record r = (Ok (decode (r_rest r)).1, advance (decode (r_rest r)).2 s r)
       ∧ s `suffix_of` r_sched r.
Proof.
  intros Hq. destruct (fill_spec HEADER_LEN r Hq) as (s1 & Hfill & Hs1).
  pose proof (quiet_suffix HEADER_LEN _ _ Hq Hs1) as Hq1.
  rw /read_record /read_record_with (bind_Ok _ _ _ _ _ Hfill).
  set (bs := r_rest r) in *. rw length_take.
  destruct (Nat.eqb_spec (HEADER_LEN `min` length bs) 0) as [E|E].
  { assert (bs = []) as Hbs by (apply length_zero_iff_nil; rw /HEADER_LEN in E; lia).
    exists s1. by rw Hbs /= /ret /advance /HEADER_LEN /= -/bs Hbs. }
  destruct (Nat.ltb_spec (HEADER_LEN `min` length bs) HEADER_LEN) as [Hs|Hs].
  { exists s1.
    assert (decode bs = (Truncated, length bs)) as ->.
    { rw /decode. destruct bs; [done|]. rw (proj2 (Nat.ltb_lt _ _)) //. lia. }
    simpl. rw (advance_all _ HEADER_LEN) //; rw -/bs; lia. }
  assert (HEADER_LEN ≤ length bs)%nat as Hlen by lia.
  rw decode_unfold //; [intros Hn; rw Hn /= in E; lia|]. cbv zeta.
  assert (take 4 (take HEADER_LEN bs) = take 4 bs) as ->.
  { by rw take_take. }
  assert (take 4 (drop 4 (take HEADER_LEN bs)) = take 4 (drop 4 bs)) as ->.
  { by rw skipn_firstn_comm take_take. }
  set (len := from_le_bytes (take 4 (drop 4 bs))).
  assert (0 ≤ len) as Hl0 by apply from_le_bytes_range.
  destruct (Z.ltb_spec MAX_RECORD_LEN len); [by exists s1|].
  destruct (fill_spec (Z.to_nat len) (advance HEADER_LEN s1 r) Hq1) as (s2 & Hfill2 & Hs2).
  rw (bind_Ok _ _ _ _ _ Hfill2) advance_advance.
  assert (s2 `suffix_of` r_sched r) as Hs12 by (by etrans).
  change (r_rest (advance HEADER_LEN s1 r)) with (drop HEADER_LEN bs).
  assert ((zlen (take (Z.to_nat len) (drop HEADER_LEN bs)) <? len) =
          (zlen (drop HEADER_LEN bs) <? len)) as ->.
  { rw /zlen length_take. case_zb; lia. }
  exists s2. destruct (Z.ltb_spec (zlen (drop HEADER_LEN bs)) len) as [Ht|Ht].
  { rw /zlen length_drop in Ht.
    simpl. rw (advance_all (length bs) (HEADER_LEN + Z.to_nat len)) //; rw -/bs; unfold HEADER_LEN in *; lia. }
  rw /hasher_finalize /hasher_update /hasher_new /=.
  by destruct (_ =? _).
Qed.

(** The same when the reads deliver all they are asked for. *)
Lemma read_record_decode r :
  r_sched r = [] →
  read_record r = (Ok (decode (r_rest r)).1, advance (decode (r_rest r)).2 [] r).
Proof.
  intros Hs. destruct (read_record_decode_aux r) as (s & -> & Hsuf).
  - rw /quiet Hs. apply not_elem_of_nil.
  - rw Hs in Hsuf. apply suffix_nil_inv in Hsuf. by subst.
Qed.

End record_facts.

(** ** Properties *)

Section record_properties.
Context `{Crc32}.

Lemma write_record_vec p v : write_record p v = (Ok (8 + zlen p), v ++ frame p).
Proof. rw /write_record /bind /write_all /write_vec /= /frame /record_crc. by rw -!app_assoc. Qed.

(** C25: a payload up to the ceiling that [write_record] framed is read back by
    [read_record], whatever short or interrupted reads the stream delivers, and the
    reader is left right behind the record. *)
Theorem record_roundtrip p tl r :
  zlen p ≤ MAX_RECORD_LEN → quiet r → r_rest r = (write_record p []).2 ++ tl →
  ∃ r', read_record r = (Ok (Entry p), r') ∧ r_rest r' = tl
        ∧ r_pos r' = r_pos r + 8 + zlen p ∧ quiet r'.
Proof.
  intros Hp Hq Hr. rw write_record_vec in Hr. cbn [snd app] in Hr.
  destruct (read_record_decode_aux r Hq) as (s & Hs & Hsuf).
  pose proof (quiet_suffix (length (frame p)) _ _ Hq Hsuf) as Hq'.
  rw Hr decode_frame // in Hs. eexists. split; [exact Hs|].
  cbn [snd]. rw {1 2}/advance. cbn [r_rest r_pos].
  rw Hr drop_app_length take_app_length zlen_frame. split_and!; [done|lia|done].
Qed.

(** [read_record] accepts nothing but what [write_record] produces: a stream whose
    head reads as an entry starts with the frame of that very payload. *)
Theorem read_record_sound r p r' :
  quiet r → read_record r = (Ok (Entry p), r') →
  r_rest r = (write_record p []).2 ++ r_rest r' ∧ zlen p ≤ MAX_RECORD_LEN.
Proof.
  intros Hq Hread. destruct (read_record_decode_aux r Hq) as (s & Hs & _).
  rw Hread in Hs. injection Hs as Hd Hr'. rw write_record_vec /=.
  destruct (decode (r_rest r)) as [d c] eqn:E. simpl in *. subst d.
  destruct (decode_entry_inv _ _ _ E) as (Hb & Hc & Hm).
  split; [|done]. rw Hr' /=. done.
Qed.

(** A torn write - any proper, non-empty prefix of a framed record - is reported as
    [Truncated], never as an entry and never as corruption; the empty stream is [Eof]. *)
Theorem torn_record_truncated p k r :
  zlen p ≤ MAX_RECORD_LEN → (k < length (write_record p []).2)%nat → quiet r →
  r_rest r = take k (write_record p []).2 →
  (read_record r).1 = Ok (if (k =? 0)%nat then Eof else Truncated).
Proof.
  intros Hp Hk Hq Hr. rw write_record_vec in Hk Hr. cbn [snd app] in Hk, Hr.
  destruct (read_record_decode_aux r Hq) as (s & -> & _). rw Hr.
  destruct (Nat.eqb_spec k 0) as [->|]; [done|].
  rw decode_torn //. lia.
Qed.

(** A complete record whose payload bytes were changed on disk is an entry only if
    the checksum collides, and [Corrupt] otherwise. *)
Theorem tampered_payload_checked p q tl r :
  length q = length p → zlen p ≤ MAX_RECORD_LEN → quiet r →
  r_rest r = take HEADER_LEN (write_record p []).2 ++ q ++ tl →
  (read_record r).1 = Ok (if record_crc q =? record_crc p then Entry q else Corrupt).
Proof.
  intros Hl Hp Hq Hr. rw write_record_vec in Hr. cbn [snd app] in Hr.
  destruct (read_record_decode_aux r Hq) as (s & -> & _). by rw Hr decode_tampered.
Qed.

(** With the finite schedules of [reader] the fuel of [read_record] is always enough. *)
Lemma read_record_total r : (read_record r).1 ≠ Panic.
Proof.
  assert (∀ n r, (fill n r).1 ≠ Panic) as Hfill.
  { intros n r'. apply fill_loop_no_panic. rw /fill_fuel /=. lia. }
  rw /read_record /read_record_with /bind. pose proof (Hfill HEADER_LEN r) as H1.
  destruct (fill HEADER_LEN r) as [[hd|e|] r1]; [|done..].
  destruct (_ =? _)%nat; [done|]. destruct (_ <? _)%nat; [done|].
  destruct (_ <? _); [done|].
  pose proof (Hfill (Z.to_nat (from_le_bytes (take 4 (drop 4 hd)))) r1) as H2.
  destruct (fill (Z.to_nat _) r1) as [[pl|e|] r2]; [|done..].
  destruct (_ <? _); [done|]. by destruct (negb _).
Qed.

(** C28: [read_record] returns unless reads are interrupted for ever: on a stream of any
    contents whose reads may be short, interrupted or failing without end, if after every
    read there is a later one that is not interrupted, the loops of [fill] end within some
    number of iterations, and with any larger number [read_record] gives the same result; if
    every read is interrupted, no number of iterations is enough ([Panic] stands for a loop
    that was cut off). *)
Theorem read_record_terminates (r : stream) :
  (not_stuck r → ∃ bound out r', out ≠ Panic ∧
     ∀ fuel, (bound ≤ fuel)%nat → read_record_with (fill_up fuel) r = (out, r'))
  ∧ ((∀ i, sm_next r i = Some ReadInterrupted) → ∀ fuel, (read_record_with (fill_up fuel) r).1 = Panic).
Proof.
  split.
  - intros Hr. destruct (fill_ends HEADER_LEN [] r Hr) as (f1 & o1 & r1 & Hp1 & Hr1 & E1).
    destruct o1 as [hd|e|]; [|exists f1, (Err e), r1|done].
    2:{ split; [done|]. intros fuel Hf. by rw /read_record_with /bind /fill_up E1. }
    set (n := Z.to_nat (from_le_bytes (take 4 (drop 4 hd)))).
    destruct (fill_ends n [] r1 Hr1) as (f2 & o2 & r2 & Hp2 & _ & E2).
    assert (∃ out r', out ≠ Panic ∧ ∀ (fill : nat → M stream (list byte)),
      fill HEADER_LEN r = (Ok hd, r1) → fill n r1 = (o2, r2) → read_record_with fill r = (out, r')) as (out & r' & Ho & E).
    { rw /read_record_with /bind.
      destruct (length hd =? 0)%nat eqn:E0; [exists (Ok Eof), r1; split; [done|intros fill -> _; by rw E0]|].
      destruct (length hd <? HEADER_LEN)%nat eqn:E3;
        [exists (Ok Truncated), r1; split; [done|intros fill -> _; by rw E0 E3]|].
      destruct (MAX_RECORD_LEN <? from_le_bytes (take 4 (drop 4 hd))) eqn:E4;
        [exists (Ok Corrupt), r1; split; [done|intros fill -> _; by rw E0 E3 E4]|].
      destruct o2 as [pl|e|]; [|exists (Err e), r2; split; [done|intros fill ->; rw E0 E3 E4 -/n => ->; done]|done].
      set (k := zlen pl <? from_le_bytes (take 4 (drop 4 hd))).
      set (h := hasher_update (hasher_update hasher_new (to_le_bytes 4 (from_le_bytes (take 4 (drop 4 hd))))) pl).
      exists (Ok (if k then Truncated else if negb (hasher_finalize h =? from_le_bytes (take 4 hd)) then Corrupt
                  else Entry pl)), r2.
      split; [done|intros fill ->; rw E0 E3 E4 -/n => ->; rw -/k -/h]. destruct k; [done|]. by destruct (negb _). }
    exists (f1 `max` f2)%nat, out, r'. split; [done|]. intros fuel Hf. apply E; [apply E1|apply E2]; lia.
  - intros Hr fuel. rw /read_record_with /bind /fill_up. pose proof (fill_never_ends fuel HEADER_LEN r) as Hf.
    destruct (fill_loop fuel HEADER_LEN [] r) as [o r']. simpl in Hf. rw Hf //. rw /HEADER_LEN. lia.
Qed.

(** C29: nothing but a debug assertion stops [write_record] from framing a payload above the
    ceiling (and below 2^32 bytes, where the length field holds it); such a record is
    written without error and can never be read back. *)
Theorem oversize_record_unreadable p tl r :
  MAX_RECORD_LEN < zlen p < 2 ^ 32 → quiet r → r_rest r = (write_record p []).2 ++ tl →
  (write_record p ([] : list byte)).1 = Ok (8 + zlen p) ∧ (read_record r).1 = Ok Corrupt.
Proof.
  intros Hp Hq Hr. rw write_record_vec in Hr |- *. cbn [fst snd app] in Hr |- *. split; [done|].
  destruct (read_record_decode_aux r Hq) as (s & -> & _). by rw Hr decode_oversize.
Qed.

End record_properties.

(** ** Witnesses: the properties at concrete inputs, with the CRC-32 of [crc32fast] *)

Definition hi : list byte := [x68; x69].

Lemma record_roundtrip_witness :
  ∃ r', @read_record crc32fast
          (MkReader (@frame crc32fast hi ++ [x00]) 0 [ReadShort 2; ReadInterrupted; ReadShort 0])
        = (Ok (Entry hi), r') ∧ r_rest r' = [x00] ∧ r_pos r' = 0 + 8 + zlen hi ∧ quiet r'.
Proof.
  apply (@record_roundtrip crc32fast hi [x00]
           (MkReader (@frame crc32fast hi ++ [x00]) 0 [ReadShort 2; ReadInterrupted; ReadShort 0])).
  - done.
  - apply (bool_decide_unpack (quiet _)). vm_compute. exact I.
  - vm_compute. reflexivity.
Defined.

Lemma read_record_sound_witness :
  r_rest (reader_of (@frame crc32fast hi)) = (@write_record crc32fast _ _ hi []).2 ++ []
  ∧ zlen hi ≤ MAX_RECORD_LEN.
Proof.
  apply (@read_record_sound crc32fast (reader_of (@frame crc32fast hi)) hi (MkReader [] 10 [])).
  - apply quiet_reader_of.
  - vm_compute. reflexivity.
Defined.

Lemma torn_record_truncated_witness :
  (@read_record crc32fast (reader_of (take 9 (@frame crc32fast hi)))).1 = Ok Truncated.
Proof.
  apply (@torn_record_truncated crc32fast hi 9).
  - done.
  - vm_compute. lia.
  - apply quiet_reader_of.
  - vm_compute. reflexivity.
Defined.

Lemma tampered_payload_checked_witness :
  (@read_record crc32fast (reader_of (take 8 (@frame crc32fast hi) ++ [x68; x6a] ++ []))).1
  = Ok (if @record_crc crc32fast [x68; x6a] =? @record_crc crc32fast hi
        then Entry [x68; x6a] else Corrupt)
  ∧ (@record_crc crc32fast [x68; x6a] =? @record_crc crc32fast hi) = false.
Proof.
  split; [|vm_compute; reflexivity].
  apply (@tampered_payload_checked crc32fast hi [x68; x6a] []).
  - done.
  - done.
  - apply quiet_reader_of.
  - vm_compute. reflexivity.
Defined.

(** Every other read is interrupted. *)
Definition halting (bs : list byte) : stream :=
  MkStream bs 0 (λ i, if Nat.even i then Some ReadInterrupted else Some (ReadShort 2)).

Lemma read_record_terminates_witness :
  (∃ bound out r', out ≠ Panic ∧ ∀ fuel, (bound ≤ fuel)%nat →
     @read_record_with crc32fast _ (fill_up fuel) (halting (@frame crc32fast hi)) = (out, r'))
  ∧ (@read_record_with crc32fast _ (fill_up 20) (halting (@frame crc32fast hi))).1 = Ok (Entry hi).
Proof.
  split; [|vm_compute; reflexivity]. apply (@read_record_terminates crc32fast (halting (@frame crc32fast hi))).
  intros i. exists (S (2 * i)). split; [lia|]. rw /halting. cbn [sm_next]. by rw Nat.even_succ Nat.odd_mul.
Defined.

Lemma oversize_record_unreadable_witness :
  let p := replicate (Z.to_nat (MAX_RECORD_LEN + 1)) x00 in
  (@write_record crc32fast _ _ p ([] : list byte)).1 = Ok (8 + zlen p)
  ∧ (@read_record crc32fast (reader_of ((@write_record crc32fast _ _ p []).2 ++ []))).1 = Ok Corrupt.
Proof.
  intros p. apply (@oversize_record_unreadable crc32fast p []).
  - rw /p /zlen length_replicate Z2Nat.id; rw /MAX_RECORD_LEN; lia.
  - apply quiet_reader_of.
  - reflexivity.
Defined.

(** From here on frames are handled through the lemmas above. *)
#[global] Opaque frame frames decode.
