(* ===== verification/Segment.v ===== *)
(** * Segment: one append-only log file (src/wal/segment.rs).

    The state of a segment is the [Segment] record and the file system; appends go to
    the buffered writer, [segment_sync] flushes and fsyncs, [segment_recover] scans
    the file after a restart.  [records] is the reference for what a file holds: the
    longest run of valid records at its start, and the bytes behind it. *)

From Corelib Require Import ssreflect.
From stdpp Require Import base gmap strings list pretty.
From S2P Require Import Prelude Text Fs Crc Record.

Record Segment := MkSegment {
  seg_base_index : Z;
  seg_path : path;
  seg_writer : BufWriter;
  seg_bytes : Z;
  seg_count : Z
}.

Definition set_writer (w : BufWriter) (s : Segment) : Segment :=
  MkSegment (seg_base_index s) (seg_path s) w (seg_bytes s) (seg_count s).

(** A [&mut Segment] next to the file system: run an operation of its writer. *)
Definition on_writer {A} : M (BufWriter * fs) A → M (Segment * fs) A :=
  zoom (λ '(s, σ), (seg_writer s, σ)) (λ '(w, σ) '(s, _), (set_writer w s, σ)).
Definition on_fs {S A} : M fs A → M (S * fs) A := zoom snd (λ σ s, (s.1, σ)).

(** [writer.seek(SeekFrom::End(0))]: the writer appends from here on. *)
Definition seek_end (fd : nat) : M fs unit := syscall no_effect (ret tt).

(** [Segment::create]. *)
Definition segment_create (p : path) (base_index : Z) : M fs Segment :=
  let! file := open_create_new p in
  ret (MkSegment base_index p (bw_new file) 0 0).

Section segment.
Context `{Crc32}.

(** [rest_parses_cleanly]; every record takes bytes of the file, so one round per
    remaining byte (and one more) is enough. *)
Fixpoint rest_parses_cleanly_loop (fuel : nat) : M reader bool :=
  match fuel with
  | O => panic
  | S fuel =>
      let! x := read_record in
      match x with
      | Entry _ => rest_parses_cleanly_loop fuel
      | Eof => ret true
      | Truncated | Corrupt => ret false
      end
  end.
Definition rest_parses_cleanly : M reader bool := λ r,
  rest_parses_cleanly_loop (S (length (r_rest r))) r.

Definition corruption_msg (p : path) (good_offset : Z) : string :=
  "crc mismatch in " +:+ display p +:+ " at offset " +:+ pretty good_offset.

(** The loop of [Segment::recover]: the offset behind the last good record and the
    number of records. *)
Fixpoint recover_loop (fuel : nat) (p : path) (file_len good_offset count : Z)
    : M reader (Z * Z) :=
  match fuel with
  | O => panic
  | S fuel =>
      let! x := read_record in
      match x with
      | Entry _ =>
          let! pos := gets stream_position in
          recover_loop fuel p file_len pos (u64_add count 1)
      | Eof => ret (good_offset, count)
      | Truncated => ret (good_offset, count)
      | Corrupt =>
          let! pos := gets stream_position in
          let! interior := (if pos <? file_len then rest_parses_cleanly else ret false) in
          if interior then throw (ECorruption (corruption_msg p good_offset))
          else ret (good_offset, count)
      end
  end.

(** [Segment::recover]. *)
Definition segment_recover (p : path) (base_index : Z) : M fs Segment :=
  let! file := open_existing p in
  let! file_len := metadata_len file in
  let! contents := read_file file in
  let! found :=
    lift (recover_loop (S (length contents)) p file_len 0 0 (reader_of contents)).1 in
  let good_offset := found.1 in
  let count := found.2 in
  let! file := open_existing p in
  do! set_len file good_offset then
  do! sync_all file then
  do! seek_end file then
  ret (MkSegment base_index p (bw_new file) good_offset count).

(** [Segment::append]. *)
Definition segment_append (payload : list byte) : M (Segment * fs) unit :=
  let! written := on_writer (write_record payload) in
  modify (λ '(s, σ),
    (MkSegment (seg_base_index s) (seg_path s) (seg_writer s)
       (u64_add (seg_bytes s) written) (u64_add (seg_count s) 1), σ)).

(** [Segment::sync]. *)
Definition segment_sync : M (Segment * fs) unit :=
  do! on_writer bw_flush then
  let! fd := gets (λ s, bw_file (seg_writer s.1)) in
  on_fs (sync_all fd).

(** [SegmentIter] and its [next]. *)
Record SegmentIter := MkSegmentIter { it_reader : reader; it_done : bool }.

Definition segment_iter (s : Segment) : M fs SegmentIter :=
  let! file := open_existing (seg_path s) in
  let! contents := read_file file in
  ret (MkSegmentIter (reader_of contents) false).

Definition iter_error : Error :=
  error_wal "unexpected partial/corrupt record while iterating".

Definition iter_next (it : SegmentIter) : option (outcome (list byte)) * SegmentIter :=
  if it_done it then (None, it)
  else
    let '(x, r) := read_record (it_reader it) in
    match x with
    | Ok (Entry p) => (Some (Ok p), MkSegmentIter r false)
    | Ok Eof => (None, MkSegmentIter r true)
    | Ok Truncated | Ok Corrupt => (Some (Err iter_error), MkSegmentIter r true)
    | Err e => (Some (Err e), MkSegmentIter r true)
    | Panic => (Some Panic, MkSegmentIter r true)
    end.

(** [seg.iter()?.collect::<Result<Vec<_>>>()]. *)
Fixpoint iter_collect (fuel : nat) (it : SegmentIter) : outcome (list (list byte)) :=
  match fuel with
  | O => Panic
  | S fuel =>
      match iter_next it with
      | (None, _) => Ok []
      | (Some (Ok p), it') =>
          match iter_collect fuel it' with
          | Ok ps => Ok (p :: ps)
          | o => o
          end
      | (Some (Err e), _) => Err e
      | (Some Panic, _) => Panic
      end
  end.
Definition iter_fuel (it : SegmentIter) : nat := S (length (r_rest (it_reader it))).
Definition segment_collect (s : Segment) : M fs (list (list byte)) :=
  let! it := segment_iter s in lift (iter_collect (iter_fuel it) it).

(** [Segment::remove]: the file is unlinked, then the writer is dropped. *)
Definition segment_remove (s : Segment) : M fs unit := λ σ,
  let '(r, σ') := remove_file (seg_path s) σ in (r, bw_drop (seg_writer s) σ').

(** ** Reference: what a file holds *)

Fixpoint split_records (fuel : nat) (bs : list byte) : list (list byte) * list byte :=
  match fuel with
  | O => ([], bs)
  | S fuel =>
      match decode bs with
      | (Entry p, c) =>
          let '(ps, rest) := split_records fuel (drop c bs) in (p :: ps, rest)
      | _ => ([], bs)
      end
  end.

(** The records at the start of [bs] and the bytes behind them. *)
Definition records (bs : list byte) : list (list byte) * list byte :=
  split_records (length bs) bs.

(** Behind the good records there is a bad one, followed by more bytes all of which
    are good records again. *)
Definition interior_corruption (rest : list byte) : bool :=
  match decode rest with
  | (Corrupt, c) =>
      negb (bool_decide (drop c rest = [])) && bool_decide ((records (drop c rest)).2 = [])
  | _ => false
  end.

End segment.
Arguments records : simpl never.

(** ** Facts on the reference *)

Definition small (ps : list (list byte)) : Prop :=
  Forall (λ p, zlen p ≤ MAX_RECORD_LEN) ps.
#[global] Instance small_dec ps : Decision (small ps).
Proof. rw /small. apply _. Defined.

Section records.
Context `{Crc32}.
Implicit Types (ps qs : list (list byte)) (bs tl : list byte).

Lemma decode_entry_length bs p c : decode bs = (Entry p, c) → (8 ≤ c ≤ length bs)%nat.
Proof.
  intros Hd. destruct (decode_entry_inv _ _ _ Hd) as (Hb & Hc & _).
  pose proof (decode_consumed bs) as Hle. rw Hd /= in Hle.
  rw Hc length_frame /HEADER_LEN in Hle |- *. lia.
Qed.

Lemma split_records_fuel fuel bs :
  (length bs ≤ fuel)%nat → split_records fuel bs = records bs.
Proof.
  rw /records. remember (length bs) as n eqn:Hn. assert (length bs ≤ n)%nat as Hle by lia.
  clear Hn. revert fuel bs Hle. induction n as [|n IH]; intros fuel bs Hle Hf.
  { destruct bs; [|simpl in Hle; lia]. by destruct fuel. }
  destruct fuel as [|fuel]; [lia|]. simpl.
  destruct (decode bs) as [[p| | |] c] eqn:Hd; try done.
  apply decode_entry_length in Hd.
  rw (IH fuel); [rw length_drop; lia|lia|done].
Qed.

Lemma records_unfold bs :
  records bs =
    match decode bs with
    | (Entry p, c) => let '(ps, rest) := records (drop c bs) in (p :: ps, rest)
    | _ => ([], bs)
    end.
Proof.
  rw -(split_records_fuel (S (length bs)) bs); [lia|]. simpl.
  destruct (decode bs) as [[p| | |] c]; try done.
  rw split_records_fuel // length_drop. lia.
Qed.

(** Induction along the records of a byte string. *)
Lemma records_ind (P : list byte → Prop) :
  (∀ bs, (∀ p c, decode bs = (Entry p, c) → P (drop c bs)) → P bs) → ∀ bs, P bs.
Proof.
  intros IH bs. remember (length bs) as n eqn:Hn. revert bs Hn.
  induction n as [n IHn] using lt_wf_ind. intros bs ->. apply IH.
  intros p c Hd%decode_entry_length. eapply IHn; [|done]. rw length_drop. lia.
Qed.

Lemma records_frames ps tl :
  small ps → records (frames ps ++ tl) = (ps ++ (records tl).1, (records tl).2).
Proof.
  induction 1 as [|p ps Hp Hps IH]; simpl.
  { rw frames_nil app_nil_l. by destruct (records tl). }
  rw records_unfold frames_cons -app_assoc decode_frame // drop_app_length IH //.
Qed.

Lemma records_sound bs :
  bs = frames (records bs).1 ++ (records bs).2 ∧ small (records bs).1
  ∧ ∀ p, (decode (records bs).2).1 ≠ Entry p.
Proof.
  induction bs as [bs IH] using records_ind. rw records_unfold.
  destruct (decode bs) as [[p| | |] c] eqn:Hd.
  - destruct (IH p c eq_refl) as (Hb & Hs & Hn).
    destruct (decode_entry_inv _ _ _ Hd) as (Hbs & _ & Hp).
    destruct (records (drop c bs)) as [ps rest]. simpl in *.
    split_and!; [|by constructor|done].
    by rw frames_cons -app_assoc -Hb.
  - split_and!; [done|constructor|by rw Hd].
  - split_and!; [done|constructor|by rw Hd].
  - split_and!; [done|constructor|by rw Hd].
Qed.

Lemma records_nil : records [] = ([], []).
Proof. done. Qed.

Lemma records_torn p k :
  zlen p ≤ MAX_RECORD_LEN → (k < length (frame p))%nat →
  records (take k (frame p)) = ([], take k (frame p)).
Proof.
  intros Hp Hk. destruct k as [|k]; [done|]. rw records_unfold decode_torn //. lia.
Qed.

Lemma interior_corruption_torn p k :
  zlen p ≤ MAX_RECORD_LEN → (k < length (frame p))%nat →
  interior_corruption (take k (frame p)) = false.
Proof.
  intros Hp Hk. destruct k as [|k]; [done|]. rw /interior_corruption decode_torn //. lia.
Qed.

(** *** The loops compute the reference *)

Lemma advance_decode_sched c r : r_sched (advance c [] r) = [].
Proof. done. Qed.

Lemma rest_parses_cleanly_loop_spec fuel r :
  (length (r_rest r) < fuel)%nat → r_sched r = [] →
  (rest_parses_cleanly_loop fuel r).1 = Ok (bool_decide ((records (r_rest r)).2 = [])).
Proof.
  destruct r as [bs pos sched]. simpl. intros Hf ->. revert fuel pos Hf.
  induction bs as [bs IH] using records_ind. intros [|fuel] pos Hf; [lia|].
  simpl. rw (bind_Ok _ _ _ _ _ (read_record_decode (MkReader bs pos []) eq_refl)). simpl.
  rw records_unfold. destruct (decode bs) as [[p| | |] c] eqn:Hd; simpl.
  - pose proof (decode_entry_length _ _ _ Hd). rw /advance /= (IH p c) //.
    { rw length_drop. lia. }
    by destruct (records (drop c bs)).
  - by rw (decode_eof_inv _ _ Hd).
  - rw bool_decide_eq_false_2 //. intros ->. by rw decode_nil in Hd.
  - rw bool_decide_eq_false_2 //. intros ->. by rw decode_nil in Hd.
Qed.

Lemma zlen_take_decode bs : zlen (take (decode bs).2 bs) = Z.of_nat (decode bs).2.
Proof. rw /zlen length_take. pose proof (decode_consumed bs). lia. Qed.

Lemma u64_add_1 n : u64_add (u64 n) 1 = u64 (n + 1).
Proof. rw /u64_add /u64 Z.add_mod_idemp_l //. Qed.

(** The loop of [recover] finds the good records, or reports the interior corruption. *)
Lemma recover_loop_spec fuel p good n bs :
  (length bs < fuel)%nat →
  (recover_loop fuel p (good + zlen bs) good (u64 n) (MkReader bs good [])).1 =
    let '(ps, rest) := records bs in
    let good' := good + zlen (frames ps) in
    if interior_corruption rest then Err (ECorruption (corruption_msg p good'))
    else Ok (good', u64 (n + zlen ps)).
Proof.
  revert fuel good n. induction bs as [bs IH] using records_ind.
  intros [|fuel] good n Hf; [lia|]. cbn [recover_loop].
  rw (bind_Ok _ _ _ _ _ (read_record_decode (MkReader bs good []) eq_refl)). cbn [r_rest].
  rw records_unfold /interior_corruption. pose proof (zlen_take_decode bs) as Ht.
  destruct (decode bs) as [[q| | |] c] eqn:Hd; cbn [fst snd] in *.
  - pose proof (decode_entry_length _ _ _ Hd) as Hc.
    destruct (decode_entry_inv _ _ _ Hd) as (_ & Hcf & _).
    assert (zlen bs = Z.of_nat c + zlen (drop c bs)) as Hz by (rw /zlen length_drop; lia).
    rw /bind /gets /advance /stream_position /= Ht u64_add_1 Hz Z.add_assoc (IH q c) //.
    { rw length_drop. lia. }
    destruct (records (drop c bs)) as [ps rest].
    assert (zlen (frames (q :: ps)) = Z.of_nat c + zlen (frames ps)) as ->.
    { rw frames_cons zlen_app {1}/zlen -Hcf //. }
    rw zlen_cons !Z.add_assoc //.
  - rw Hd frames_nil zlen_nil !Z.add_0_r //.
  - rw Hd frames_nil zlen_nil !Z.add_0_r //.
  - rw Hd frames_nil zlen_nil !Z.add_0_r.
    rw /bind /gets /stream_position /advance /= Ht.
    pose proof (decode_consumed bs) as Hle. rw Hd /= in Hle.
    destruct (Z.ltb_spec (good + Z.of_nat c) (good + zlen bs)) as [Hlt|Hge].
    + rw bool_decide_eq_false_2.
      { intros Hnil%(f_equal length). rw length_drop /= in Hnil. rw /zlen in Hlt. lia. }
      pose proof (rest_parses_cleanly_loop_spec (S (length (drop c bs)))
        (MkReader (drop c bs) (good + Z.of_nat c) [])) as Hr.
      rw /rest_parses_cleanly. cbn [r_rest] in Hr |- *.
      destruct (rest_parses_cleanly_loop _ _) as [o r'].
      cbn [fst r_sched] in Hr. rw Hr //; [lia|]. by destruct (bool_decide _).
    + rw bool_decide_eq_true_2 //. apply drop_ge. rw /zlen in Hge. lia.
Qed.

End records.

(** ** The operations on a state without faults *)

(** Segment [s] holds the records [ps]: its file and then its buffer spell their
    frames, and its counters agree. *)
Record seg_rep `{Crc32} (σ : fs) (s : Segment) (ps : list (list byte)) : Prop := {
  rep_name : fs_names σ !! seg_path s = Some (bw_file (seg_writer s));
  rep_inode : is_Some (fs_inodes σ !! bw_file (seg_writer s));
  rep_data : file_data σ (bw_file (seg_writer s)) ++ bw_buf (seg_writer s) = frames ps;
  rep_bytes : seg_bytes s = u64 (zlen (frames ps));
  rep_count : seg_count s = u64 (zlen ps);
  rep_small : small ps
}.

(** Nothing is left in the buffer; everything is on disk. *)
Definition seg_flushed (s : Segment) : Prop := bw_buf (seg_writer s) = [].
Definition seg_synced (σ : fs) (s : Segment) : Prop :=
  seg_flushed s ∧ file_durable σ (bw_file (seg_writer s)) = file_data σ (bw_file (seg_writer s)).

Section segment_ops.
Context `{Crc32}.
Implicit Types (ps qs : list (list byte)) (s : Segment).

Lemma segment_create_ok p base σ :
  fault_free σ → parent_exists p σ = true → fs_names σ !! p = None →
  segment_create p base σ = (Ok (MkSegment base p (bw_new (fs_next σ)) 0 0), add_file p σ).
Proof. intros. rw /segment_create (bind_Ok _ _ _ _ _ (open_create_new_ok _ _ _ _ _)) //. Qed.

Lemma add_file_rep p base σ :
  seg_rep (add_file p σ) (MkSegment base p (bw_new (fs_next σ)) 0 0) [].
Proof.
  split; simpl; try done.
  - by rw lookup_insert_eq.
  - rw lookup_insert_eq. eauto.
  - by rw /file_data /= lookup_insert_eq frames_nil.
  - by constructor.
Qed.

Lemma write_record_buf p w σ :
  fault_free σ →
  ∃ out buf, write_record p (w, σ) =
      (Ok (8 + zlen p), (MkBufWriter (bw_file w) buf, append_data (bw_file w) out σ))
    ∧ out ++ buf = bw_buf w ++ frame p.
Proof.
  intros Hs. rw /write_record /write_all /write_buf_writer.
  destruct (bw_write_all_ok (to_le_bytes 4 (record_crc p)) w σ Hs) as (o1 & b1 & E1 & H1).
  rw (bind_Ok _ _ _ _ _ E1).
  destruct (bw_write_all_ok (to_le_bytes 4 (u32 (zlen p))) (MkBufWriter (bw_file w) b1)
              (append_data (bw_file w) o1 σ) Hs) as (o2 & b2 & E2 & H2).
  rw (bind_Ok _ _ _ _ _ E2). cbn [bw_file].
  destruct (bw_write_all_ok p (MkBufWriter (bw_file w) b2)
              (append_data (bw_file w) o2 (append_data (bw_file w) o1 σ)) Hs)
    as (o3 & b3 & E3 & H3).
  rw (bind_Ok _ _ _ _ _ E3). cbn [bw_file bw_buf] in *.
  exists (o1 ++ o2 ++ o3), b3. rw !append_data_app. split; [done|].
  Transparent frame. rw /frame. Opaque frame.
  by rw -!app_assoc H3 (app_assoc o2) H2 -app_assoc (app_assoc o1) H1 -!app_assoc.
Qed.

Lemma segment_append_ok p s σ :
  fault_free σ →
  ∃ out buf, segment_append p (s, σ) =
      (Ok tt, (MkSegment (seg_base_index s) (seg_path s) (MkBufWriter (bw_file (seg_writer s)) buf)
                 (u64_add (seg_bytes s) (8 + zlen p)) (u64_add (seg_count s) 1),
               append_data (bw_file (seg_writer s)) out σ))
    ∧ out ++ buf = bw_buf (seg_writer s) ++ frame p.
Proof.
  intros Hs. destruct (write_record_buf p (seg_writer s) σ Hs) as (out & buf & E & Ho).
  exists out, buf. split; [|done].
  rw /segment_append /bind /on_writer /zoom E //.
Qed.

Lemma segment_sync_ok s σ :
  fault_free σ →
  let fd := bw_file (seg_writer s) in
  segment_sync (s, σ) =
    (Ok tt, (set_writer (bw_new fd) s, make_durable fd (append_data fd (bw_buf (seg_writer s)) σ))).
Proof.
  intros Hs fd. rw /segment_sync /bind /on_writer /zoom bw_flush_ok // /on_fs /zoom /=.
  by rw sync_all_ok.
Qed.

(** The outcome of recovery as a function of the bytes of the file. *)
Lemma segment_recover_ok p base fd σ :
  fault_free σ → fs_names σ !! p = Some fd →
  let '(ps, rest) := records (file_data σ fd) in
  let good := zlen (frames ps) in
  segment_recover p base σ =
    if interior_corruption rest
    then (Err (ECorruption (corruption_msg p good)), σ)
    else (Ok (MkSegment base p (bw_new fd) good (u64 (zlen ps))),
          make_durable fd (cut_data fd good σ)).
Proof.
  intros Hs Hn.
  pose proof (recover_loop_spec (S (length (file_data σ fd))) p 0 0 (file_data σ fd)
                ltac:(lia)) as Hl.
  destruct (records (file_data σ fd)) as [ps rest]. intros good.
  rw /segment_recover (bind_Ok _ _ _ _ _ (open_existing_ok _ _ _ Hs Hn)).
  rw (bind_Ok _ _ _ _ _ (metadata_len_ok _ _ Hs)) (bind_Ok _ _ _ _ _ (read_file_ok _ _ Hs)).
  rw /reader_of /lift /bind -{1}(Z.add_0_l (zlen (file_data σ fd))) Hl.
  destruct (interior_corruption rest); [done|]. cbn [fst snd].
  rw (open_existing_ok _ _ _ Hs Hn) set_len_ok // sync_all_ok // /seek_end syscall_ok //.
Qed.

Lemma resize_to_prefix (bs tl : list byte) : resize_to (zlen bs) (bs ++ tl) = bs.
Proof.
  rw /resize_to /zlen Nat2Z.id take_app_length length_app.
  replace (length bs - (length bs + length tl))%nat with 0%nat by lia. by rw app_nil_r.
Qed.

Lemma cut_data_frames fd σ :
  is_Some (fs_inodes σ !! fd) →
  let ps := (records (file_data σ fd)).1 in
  file_data (make_durable fd (cut_data fd (zlen (frames ps)) σ)) fd = frames ps
  ∧ file_durable (make_durable fd (cut_data fd (zlen (frames ps)) σ)) fd = frames ps.
Proof.
  intros [i Hi] ps. destruct (records_sound (file_data σ fd)) as (Hd & _ & _).
  rw -/ps {1}/file_data Hi in Hd. cbn [from_option] in Hd.
  rw /make_durable alter_inode_data alter_inode_durable !decide_True //.
  rw /cut_data /= lookup_alter_eq Hi /= Hd. by rw resize_to_prefix.
Qed.

(** A recovered segment holds exactly the good records, all of them on disk. *)
Lemma recovered_rep p base fd σ :
  fs_names σ !! p = Some fd → is_Some (fs_inodes σ !! fd) →
  let ps := (records (file_data σ fd)).1 in
  let s := MkSegment base p (bw_new fd) (zlen (frames ps)) (u64 (zlen ps)) in
  let σ' := make_durable fd (cut_data fd (zlen (frames ps)) σ) in
  zlen (frames ps) ≤ u64_max →
  seg_rep σ' s ps ∧ seg_synced σ' s.
Proof.
  intros Hn Hi ps s σ' Hmax. destruct (cut_data_frames fd σ Hi) as [Hd Hu].
  split; [split; simpl|split; [done|]].
  - done.
  - by rw !is_Some_alter.
  - rw app_nil_r. exact Hd.
  - symmetry. apply u64_small. pose proof (zlen_nonneg (frames ps)). lia.
  - done.
  - apply records_sound.
  - simpl. etrans; [exact Hu|by symmetry].
Qed.

(** *** Representation of the other segments is untouched *)

Lemma seg_rep_frame σ σ' s ps :
  seg_rep σ s ps →
  fs_names σ' !! seg_path s = fs_names σ !! seg_path s →
  fs_inodes σ' !! bw_file (seg_writer s) = fs_inodes σ !! bw_file (seg_writer s) →
  seg_rep σ' s ps.
Proof.
  intros [Hn Hi Hd Hb Hc Hs] En Ei. split; try done.
  - by rw En.
  - by rw Ei.
  - by rw /file_data Ei.
Qed.

Lemma seg_synced_frame σ σ' s :
  seg_synced σ s →
  fs_inodes σ' !! bw_file (seg_writer s) = fs_inodes σ !! bw_file (seg_writer s) →
  seg_synced σ' s.
Proof. intros [Hf Hd] Ei. split; [done|]. by rw /file_data /file_durable Ei. Qed.

Lemma u64_add_idemp a b : u64_add (u64 a) b = u64 (a + b).
Proof. rw /u64_add /u64 Z.add_mod_idemp_l //. Qed.

Lemma segment_append_rep p s σ ps :
  fault_free σ → seg_rep σ s ps → zlen p ≤ MAX_RECORD_LEN →
  ∃ s' out, segment_append p (s, σ) = (Ok tt, (s', append_data (bw_file (seg_writer s)) out σ))
    ∧ seg_rep (append_data (bw_file (seg_writer s)) out σ) s' (ps ++ [p])
    ∧ bw_file (seg_writer s') = bw_file (seg_writer s)
    ∧ seg_path s' = seg_path s ∧ seg_base_index s' = seg_base_index s.
Proof.
  intros Hs [Hn Hi Hd Hb Hc Hsm] Hp.
  destruct (segment_append_ok p s σ Hs) as (out & buf & -> & Ho).
  eexists _, out. split; [done|]. split; [|done]. split; simpl.
  - done.
  - by rw is_Some_alter.
  - by rw file_data_append // -app_assoc Ho app_assoc Hd frames_snoc.
  - by rw Hb u64_add_idemp frames_snoc zlen_app zlen_frame.
  - by rw Hc u64_add_idemp zlen_app.
  - rw /small Forall_app. split; [done|]. by constructor.
Qed.

Lemma segment_sync_rep s σ ps :
  fault_free σ → seg_rep σ s ps →
  let fd := bw_file (seg_writer s) in
  let s' := set_writer (bw_new fd) s in
  let σ' := make_durable fd (append_data fd (bw_buf (seg_writer s)) σ) in
  segment_sync (s, σ) = (Ok tt, (s', σ')) ∧ seg_rep σ' s' ps ∧ seg_synced σ' s'
  ∧ file_durable σ' fd = frames ps.
Proof.
  intros Hs [Hn [i Hi] Hd Hb Hc Hsm] fd s' σ'.
  assert (file_data σ' fd = frames ps ∧ file_durable σ' fd = frames ps) as [Hd' Hu'].
  { revert Hd. rw /σ' /make_durable alter_inode_data alter_inode_durable !decide_True //.
    rw /append_data /= lookup_alter_eq /file_data -/fd Hi //=. }
  split; [by apply segment_sync_ok|]. split; [split; simpl|split; [split; [done|]|done]]; try done.
  - rw !is_Some_alter. eauto.
  - by rw app_nil_r.
  - simpl. by rw Hd' Hu'.
Qed.

End segment_ops.

(** ** Appends under faults *)

Section segment_faults.
Context `{Crc32}.

Lemma write_record_op p : writer_op (write_record p).
Proof.
  rw /write_record /write_all /write_buf_writer.
  repeat (apply writer_op_bind; [apply bw_write_all_op|intros _]). apply writer_op_ret.
Qed.

(** Whatever happens during an append, the segment keeps its file, and the file only
    grows. *)
Lemma segment_append_grows p s σ :
  let s' := (segment_append p (s, σ)).2.1 in
  bw_file (seg_writer s') = bw_file (seg_writer s) ∧ seg_path s' = seg_path s
  ∧ grows (bw_file (seg_writer s)) σ (segment_append p (s, σ)).2.2.
Proof.
  rw /segment_append /bind /on_writer /zoom. destruct (write_record_op p (seg_writer s) σ) as [Hf Hg].
  by destruct (write_record p (seg_writer s, σ)) as [[z|e|] [w' σ']].
Qed.

Lemma segment_appends_grow ps s σ :
  let s' := (for_each segment_append ps (s, σ)).2.1 in
  bw_file (seg_writer s') = bw_file (seg_writer s) ∧ seg_path s' = seg_path s
  ∧ grows (bw_file (seg_writer s)) σ (for_each segment_append ps (s, σ)).2.2.
Proof.
  revert s σ. induction ps as [|p ps IH]; intros s σ; simpl.
  { split_and!; [done|done|apply grows_refl]. }
  rw /bind. destruct (segment_append_grows p s σ) as (Hf & Hp & Hg).
  destruct (segment_append p (s, σ)) as [[[]|e|] [s1 σ1]]; simpl in *; [|done..].
  destruct (IH s1 σ1) as (Hf' & Hp' & Hg'). split_and!; [congruence..|].
  rw Hf in Hg'. by eapply grows_trans.
Qed.

(** Syncing a segment does not touch the durable directory entries. *)
Lemma segment_sync_dnames s σ q :
  fs_dnames (segment_sync (s, σ)).2.2 !! q = fs_dnames σ !! q.
Proof.
  rw /segment_sync /bind /on_writer /zoom.
  destruct (bw_flush_buf_op (seg_writer s) σ) as [_ Hg]. rw -/bw_flush in Hg.
  destruct (bw_flush (seg_writer s, σ)) as [[[]|e|] [w1 σ1]]; simpl in *.
  - destruct Hg as (out & sched & ->). rw /on_fs /zoom /sync_all /syscall /=.
    by destruct sched as [|[k|] sched].
  - by destruct Hg as (out & sched & ->).
  - by destruct Hg as (out & sched & ->).
Qed.

End segment_faults.

(** ** Reading a segment back *)

Section segment_reads.
Context `{Crc32}.
Implicit Types (ps qs : list (list byte)) (s : Segment).

Lemma length_frames ps : (length ps ≤ length (frames ps))%nat.
Proof.
  induction ps as [|p ps IH]; [by rw frames_nil|].
  rw frames_cons length_app length_frame /HEADER_LEN /=. lia.
Qed.

Definition iter_at (bs : list byte) (pos : Z) : SegmentIter :=
  MkSegmentIter (MkReader bs pos []) false.

Lemma iter_next_cons p bs pos :
  zlen p ≤ MAX_RECORD_LEN →
  iter_next (iter_at (frame p ++ bs) pos) = (Some (Ok p), iter_at bs (pos + zlen (frame p))).
Proof.
  intros Hp. rw /iter_next /iter_at. cbn [it_done it_reader].
  rw read_record_decode // /= decode_frame // /advance /= drop_app_length take_app_length //.
Qed.

Lemma iter_next_nil pos : (iter_next (iter_at [] pos)).1 = None.
Proof. rw /iter_next /iter_at. cbn [it_done it_reader]. rw read_record_decode //= decode_nil //. Qed.

Lemma iter_collect_frames fuel ps pos :
  (length ps < fuel)%nat → small ps → iter_collect fuel (iter_at (frames ps) pos) = Ok ps.
Proof.
  intros Hf Hs. revert fuel pos Hf. induction Hs as [|p ps Hp Hps IH]; intros [|fuel] pos Hf;
    simpl in Hf; try lia; cbn [iter_collect].
  - rw frames_nil. pose proof (iter_next_nil pos).
    destruct (iter_next (iter_at [] pos)) as [[]]; simplify_eq/=. done.
  - rw frames_cons iter_next_cons // IH //. lia.
Qed.

Lemma segment_collect_ok s σ ps :
  fault_free σ → seg_rep σ s ps → seg_flushed s → segment_collect s σ = (Ok ps, σ).
Proof.
  intros Hs Hr Hb. pose proof (rep_data _ _ _ Hr) as Hd. rw Hb app_nil_r in Hd.
  rw /segment_collect /segment_iter /bind (open_existing_ok _ _ _ Hs (rep_name _ _ _ Hr)).
  rw read_file_ok // Hd /ret /lift /iter_fuel. cbn [it_reader reader_of r_rest].
  f_equal. apply iter_collect_frames; [|apply Hr]. pose proof (length_frames ps). lia.
Qed.

Lemma segment_appends_rep qs s σ ps :
  fault_free σ → seg_rep σ s ps → small qs →
  ∃ s' σ', for_each segment_append qs (s, σ) = (Ok tt, (s', σ'))
    ∧ seg_rep σ' s' (ps ++ qs) ∧ grows (bw_file (seg_writer s)) σ σ' ∧ fault_free σ'
    ∧ bw_file (seg_writer s') = bw_file (seg_writer s) ∧ seg_path s' = seg_path s
    ∧ seg_base_index s' = seg_base_index s ∧ only_files [bw_file (seg_writer s)] σ σ'.
Proof.
  intros Hs Hr Hq. revert s σ ps Hs Hr. induction Hq as [|q qs Hq Hqs IH]; intros s σ ps Hs Hr.
  { exists s, σ. rw app_nil_r. split_and!; try done. apply grows_refl. }
  destruct (segment_append_rep q s σ ps Hs Hr Hq) as (s1 & out & E & Hr1 & Hf & Hp & Hb).
  destruct (IH s1 _ _ (Hs : fault_free (append_data _ out σ)) Hr1)
    as (s2 & σ2 & E2 & Hr2 & Hg & Hs2 & Hf2 & Hp2 & Hb2 & Ho).
  exists s2, σ2. cbn [for_each]. rw (bind_Ok _ _ _ _ _ E) E2 -app_assoc in Hr2 |- *.
  split_and!; try done; try congruence; rw Hf in Hg Ho.
  - eapply grows_trans; [|done]. exists out, (fs_sched σ). by destruct σ.
  - apply (only_files_mono ([bw_file (seg_writer s)] ++ [bw_file (seg_writer s)])); [set_solver|].
    eapply only_files_trans; [apply only_files_alter|exact Ho].
Qed.

End segment_reads.

(** ** Properties *)

Section segment_properties.
Context `{Crc32}.
Implicit Types (ps qs : list (list byte)) (s : Segment).

(** [Segment::recover] on any file: it keeps exactly the longest run of valid records
    at the start of the file, cuts the rest away durably and counts them; it refuses the
    file, leaving it alone, exactly when a bad record is followed by good ones to the end. *)
Theorem recover_functional p base fd σ :
  fault_free σ → fs_names σ !! p = Some fd → is_Some (fs_inodes σ !! fd) →
  zlen (file_data σ fd) ≤ u64_max →
  let '(ps, rest) := records (file_data σ fd) in
  if interior_corruption rest
  then segment_recover p base σ = (Err (ECorruption (corruption_msg p (zlen (frames ps)))), σ)
  else ∃ s' σ', segment_recover p base σ = (Ok s', σ') ∧ seg_rep σ' s' ps ∧ seg_synced σ' s'
         ∧ seg_base_index s' = base ∧ seg_path s' = p ∧ fs_names σ' = fs_names σ.
Proof.
  intros Hs Hn Hi Hmax. pose proof (segment_recover_ok p base fd σ Hs Hn) as Hr.
  pose proof (recovered_rep p base fd σ Hn Hi) as Hrep.
  destruct (records_sound (file_data σ fd)) as (Hd & _ & _).
  destruct (records (file_data σ fd)) as [ps rest]. cbn [fst snd] in *.
  destruct (interior_corruption rest); [done|].
  rw Hd zlen_app in Hmax. pose proof (zlen_nonneg rest).
  destruct Hrep as [H1 H2]; [lia|]. rw Hr. eexists _, _. split_and!; done.
Qed.

(** A crash in the middle of one append leaves whole records and a proper prefix of
    the next one; recovery drops that prefix and nothing else. *)
Theorem recover_torn_tail p base fd σ ps q k :
  fault_free σ → fs_names σ !! p = Some fd → is_Some (fs_inodes σ !! fd) →
  small ps → zlen q ≤ MAX_RECORD_LEN → (k < length (frame q))%nat →
  file_data σ fd = frames ps ++ take k (frame q) → zlen (file_data σ fd) ≤ u64_max →
  ∃ s' σ', segment_recover p base σ = (Ok s', σ') ∧ seg_rep σ' s' ps ∧ seg_synced σ' s'.
Proof.
  intros Hs Hn Hi Hps Hq Hk Hd Hmax. pose proof (segment_recover_ok p base fd σ Hs Hn) as Hr.
  pose proof (recovered_rep p base fd σ Hn Hi) as Hrep.
  rw Hd records_frames // records_torn // app_nil_r in Hr Hrep. cbn [fst snd] in *.
  rw interior_corruption_torn // in Hr. rw Hd zlen_app in Hmax.
  pose proof (zlen_nonneg (take k (frame q))). destruct Hrep as [H1 H2]; [lia|].
  rw Hr. eexists _, _. done.
Qed.

(** No acknowledged record is lost: once [ps] are synced, run any further appends with
    any faults on the way, crash at any point and recover the file: recovery either keeps
    [ps] as the first records of the segment or reports corruption; it never drops one. *)
Theorem acknowledged_records_survive s ps qs σ σc base :
  seg_rep σ s ps → seg_synced σ s →
  crash (for_each segment_append qs (s, σ)).2.2 σc →
  fs_names σc !! seg_path s = Some (bw_file (seg_writer s)) →
  zlen (file_data σc (bw_file (seg_writer s))) ≤ u64_max →
  (∃ s' σ' rs, segment_recover (seg_path s) base σc = (Ok s', σ')
     ∧ seg_rep σ' s' (ps ++ rs) ∧ seg_synced σ' s')
  ∨ (∃ msg, segment_recover (seg_path s) base σc = (Err (ECorruption msg), σc)).
Proof.
  intros Hr [Hb Hsy] Hcr Hn Hmax. set (fd := bw_file (seg_writer s)) in *.
  destruct (segment_appends_grow qs s σ) as (_ & _ & Hg). fold fd in Hg.
  pose proof (rep_data _ _ _ Hr) as Hd. rw Hb app_nil_r in Hd. fold fd in Hd.
  destruct (grows_data _ _ _ Hg) as [out Hout].
  pose proof (grows_durable _ fd _ _ Hg) as Hdur. rw Hsy in Hdur.
  rw -Hdur in Hout. destruct (crash_grown _ _ fd out Hcr Hout) as [g Hc].
  rw Hdur Hd in Hc. assert (is_Some (fs_inodes σc !! fd)) as Hi.
  { apply (crash_is_Some _ _ _ Hcr), (grows_inode _ _ _ _ Hg), Hr. }
  pose proof (segment_recover_ok (seg_path s) base fd σc (crash_sched _ _ Hcr) Hn) as Hrec.
  pose proof (recovered_rep (seg_path s) base fd σc Hn Hi) as Hrep.
  destruct (records_sound (file_data σc fd)) as (Hds & _ & _).
  pose proof (rep_small _ _ _ Hr) as Hsm.
  rw Hc records_frames // in Hrec Hrep Hds. cbn [fst snd] in *.
  destruct (interior_corruption _); [right; by eauto|left].
  rw Hc Hds zlen_app in Hmax. pose proof (zlen_nonneg (records g).2).
  destruct Hrep as [H1 H2]; [lia|]. rw Hrec. eexists _, _, _. done.
Qed.

(** A fresh segment, appended to and synced, iterates over exactly the payloads that
    were appended, in order, and everything it holds is on disk. *)
Theorem append_sync_iterate p base ps σ :
  fault_free σ → parent_exists p σ = true → fs_names σ !! p = None → small ps →
  ∃ s σ', (let! s := segment_create p base in
           λ σ, let '(r, (s, σ)) := (do! for_each segment_append ps then segment_sync) (s, σ) in
                (match r with Ok _ => Ok s | Err e => Err e | Panic => Panic end, σ)) σ = (Ok s, σ')
    ∧ segment_collect s σ' = (Ok ps, σ') ∧ seg_count s = u64 (zlen ps)
    ∧ seg_synced σ' s ∧ file_durable σ' (bw_file (seg_writer s)) = frames ps.
Proof.
  intros Hs Hp Hn Hps. rw (bind_Ok _ _ _ _ _ (segment_create_ok p base σ Hs Hp Hn)).
  destruct (segment_appends_rep ps _ (add_file p σ) [] Hs (add_file_rep p base σ) Hps)
    as (s1 & σ1 & E1 & Hr1 & _ & Hs1 & _).
  rw /bind E1. destruct (segment_sync_rep s1 σ1 ps Hs1 Hr1) as (E2 & Hr2 & Hsy & Hdu).
  rw E2. eexists _, _. split_and!; [done| |apply Hr2|done|exact Hdu].
  apply segment_collect_ok; [exact Hs1|done|apply Hsy].
Qed.

(** Recovery is idempotent: recovering a recovered segment changes nothing more. *)
Theorem recover_idempotent p base s σ σ' :
  fault_free σ → fs_wf σ → zlen (from_option (file_data σ) [] (fs_names σ !! p)) ≤ u64_max →
  segment_recover p base σ = (Ok s, σ') →
  ∃ σ'', segment_recover p base σ' = (Ok s, σ'')
    ∧ ∀ fd, file_data σ'' fd = file_data σ' fd.
Proof.
  intros Hs Hwf Hmax Hrec. destruct (fs_names σ !! p) as [fd|] eqn:Hn; last first.
  { rw /segment_recover (bind_Err _ _ _ _ _ (open_existing_missing _ _ Hs Hn)) // in Hrec. }
  pose proof (wf_names _ Hwf _ _ Hn) as Hi. simpl in Hmax.
  pose proof (segment_recover_ok p base fd σ Hs Hn) as Hr.
  destruct (cut_data_frames fd σ Hi) as [Hc _].
  destruct (records_sound (file_data σ fd)) as (_ & Hsm & _).
  destruct (records (file_data σ fd)) as [ps rest]. cbn [fst snd] in *.
  destruct (interior_corruption rest); [congruence|].
  rw Hr in Hrec. injection Hrec as <- <-. set (σ1 := make_durable _ _) in *.
  pose proof (segment_recover_ok p base fd σ1 Hs Hn) as Hr1.
  assert (records (file_data σ1 fd) = (ps, [])) as E.
  { rw Hc -(app_nil_r (frames ps)) records_frames // records_nil app_nil_r //. }
  rw E /interior_corruption decode_nil in Hr1. rw Hr1. eexists. split; [done|].
  intros fd'. destruct (decide (fd' = fd)) as [->|Hne].
  - assert (is_Some (fs_inodes σ1 !! fd)) as Hi1 by (by rw !is_Some_alter).
    destruct (cut_data_frames fd σ1 Hi1) as [Hc1 _]. rw E /= in Hc1. by rw Hc1.
  - by rw /make_durable /cut_data !alter_inode_data !decide_False.
Qed.

(** The record [p] with its payload bytes replaced on disk by [q]. *)
Definition bad_record (p q : list byte) : list byte := take HEADER_LEN (frame p) ++ q.

Lemma records_bad p q tl :
  length q = length p → zlen p ≤ MAX_RECORD_LEN → record_crc q ≠ record_crc p →
  records (bad_record p q ++ tl) = ([], bad_record p q ++ tl)
  ∧ interior_corruption (bad_record p q ++ tl) =
      negb (bool_decide (tl = [])) && bool_decide ((records tl).2 = []).
Proof.
  intros Hl Hp Hc%Z.eqb_neq. rw records_unfold /interior_corruption /bad_record -app_assoc.
  rw decode_tampered // Hc. split; [done|].
  assert (drop (HEADER_LEN + length q) (take HEADER_LEN (frame p) ++ q ++ tl) = tl) as ->; [|done].
  rw -drop_drop drop_app_length'; [|by rw drop_app_length].
  rw length_take length_frame. lia.
Qed.

(** Corruption behind which only good records follow is refused: recovery reports the
    offset of the damaged record and leaves the file as it is. *)
Theorem interior_corruption_refused p base fd σ ps b b' q qs :
  fault_free σ → fs_names σ !! p = Some fd → small ps → small (q :: qs) →
  length b' = length b → zlen b ≤ MAX_RECORD_LEN → record_crc b' ≠ record_crc b →
  file_data σ fd = frames ps ++ bad_record b b' ++ frames (q :: qs) →
  segment_recover p base σ = (Err (ECorruption (corruption_msg p (zlen (frames ps)))), σ).
Proof.
  intros Hs Hn Hps Hqs Hl Hb Hc Hd. pose proof (segment_recover_ok p base fd σ Hs Hn) as Hr.
  destruct (records_bad b b' (frames (q :: qs)) Hl Hb Hc) as [Hrec Hic].
  rw Hd records_frames // Hrec app_nil_r Hic in Hr. rw Hr.
  rw -(app_nil_r (frames (q :: qs))) records_frames // records_nil app_nil_r.
Qed.

(** The same damage with a torn record at the very end of the file is taken for a torn
    tail: recovery succeeds and silently drops the good records behind the damage. *)
Theorem corruption_before_torn_tail_drops_records p base fd σ ps b b' qs t k :
  fault_free σ → fs_names σ !! p = Some fd → is_Some (fs_inodes σ !! fd) →
  small ps → small qs → length b' = length b → zlen b ≤ MAX_RECORD_LEN →
  record_crc b' ≠ record_crc b → zlen t ≤ MAX_RECORD_LEN → (0 < k < length (frame t))%nat →
  file_data σ fd = frames ps ++ bad_record b b' ++ frames qs ++ take k (frame t) →
  zlen (file_data σ fd) ≤ u64_max →
  ∃ s' σ', segment_recover p base σ = (Ok s', σ') ∧ seg_rep σ' s' ps.
Proof.
  intros Hs Hn Hi Hps Hqs Hl Hb Hc Ht Hk Hd Hmax.
  pose proof (segment_recover_ok p base fd σ Hs Hn) as Hr.
  pose proof (recovered_rep p base fd σ Hn Hi) as Hrep.
  destruct (records_bad b b' (frames qs ++ take k (frame t)) Hl Hb Hc) as [Hrec Hic].
  rw Hd records_frames // Hrec app_nil_r in Hr Hrep. cbn [fst snd] in *.
  rw Hic records_frames // records_torn // in Hr; [lia|].
  rw andb_comm bool_decide_eq_false_2 /= in Hr.
  { intros Hnil%(f_equal length). rw length_take /= in Hnil. lia. }
  rw Hd zlen_app in Hmax.
  destruct Hrep as [H1 H2]; [|rw Hr; eexists _, _; done].
  pose proof (zlen_nonneg (bad_record b b' ++ frames qs ++ take k (frame t))). lia.
Qed.

(** [Segment::sync] fsyncs the file but nobody fsyncs the directory a new segment was
    created in: a power cut after a successful create, append and sync can leave no file
    at all, and recovery fails with [NotFound]. *)
Theorem fresh_segment_lost_on_power_loss p base ps σ s σ' :
  fault_free σ → fs_dnames σ !! p = None →
  (let! s := segment_create p base in
   λ σ, let '(r, (s, σ)) := (do! for_each segment_append ps then segment_sync) (s, σ) in
        (match r with Ok _ => Ok s | Err e => Err e | Panic => Panic end, σ)) σ = (Ok s, σ') →
  crash σ' (power_loss σ')
  ∧ segment_recover p base (power_loss σ') = (Err (EIo NotFound), power_loss σ').
Proof.
  intros Hs Hn Hrun. split; [apply power_loss_crash|].
  apply bind_Ok_inv in Hrun as (s0 & σ0 & Hcreate & Hrun).
  assert (fs_dnames σ0 !! p = None ∧ fault_free σ0) as [Hn0 Hs0].
  { revert Hcreate. rw /segment_create /bind /open_create_new syscall_ok //.
    destruct (parent_exists p σ); [|done]. destruct (fs_names σ !! p); [done|].
    by intros [= _ <-]. }
  assert (∀ q, fs_dnames σ' !! q = fs_dnames σ0 !! q) as Hd.
  { intros q. destruct (segment_appends_grow ps s0 σ0) as (_ & _ & Hg).
    revert Hrun. rw /bind. destruct (for_each segment_append ps (s0, σ0)) as [[[]|e|] [s1 σ1]];
      [|done..]. simpl in Hg. destruct Hg as (out & sched & ->).
    pose proof (segment_sync_dnames s1 (set_sched sched
      (append_data (bw_file (seg_writer s0)) out σ0)) q) as Hsd.
    destruct (segment_sync _) as [[[]|e|] [s2 σ2]]; intros [= _ <-]; done. }
  assert (fs_names (power_loss σ') !! p = None) as Hnp by (by rw /= Hd).
  by rw /segment_recover (bind_Err _ _ _ _ _ (open_existing_missing _ _ _ Hnp)).
Qed.

End segment_properties.

(** ** Witnesses *)

#[local] Existing Instance crc32fast.

Definition one : list byte := [x6f; x6e; x65].
Definition two : list byte := [x74; x77; x6f].

Lemma recover_functional_witness :
  ∃ s' σ', segment_recover demo_path 1 (file_fs (frames [one] ++ [x00; x01])) = (Ok s', σ')
    ∧ seg_rep σ' s' [one] ∧ seg_synced σ' s' ∧ seg_base_index s' = 1
    ∧ seg_path s' = demo_path ∧ fs_names σ' = fs_names (file_fs (frames [one] ++ [x00; x01])).
Proof.
  pose proof (recover_functional demo_path 1 0 (file_fs (frames [one] ++ [x00; x01]))
    ltac:(evaluate) ltac:(evaluate) ltac:(evaluate) ltac:(evaluate)) as Hr.
  assert (records (file_data (file_fs (frames [one] ++ [x00; x01])) 0) = ([one], [x00; x01]))
    as E by (vm_compute; reflexivity).
  rw E in Hr. exact Hr.
Defined.

Lemma recover_torn_tail_witness :
  ∃ s' σ', segment_recover demo_path 1 (file_fs (frames [one] ++ take 5 (frame two))) = (Ok s', σ')
    ∧ seg_rep σ' s' [one] ∧ seg_synced σ' s'.
Proof.
  apply (recover_torn_tail demo_path 1 0 _ [one] two 5); evaluate.
Defined.

Definition demo_segment : Segment := MkSegment 1 demo_path (bw_new 0) (zlen (frames [one])) 1.

Lemma demo_rep : seg_rep (file_fs (frames [one])) demo_segment [one].
Proof. split; evaluate. Qed.

Lemma acknowledged_records_survive_witness :
  let σc := power_loss (for_each segment_append [two] (demo_segment, file_fs (frames [one]))).2.2 in
  (∃ s' σ' rs, segment_recover demo_path 1 σc = (Ok s', σ')
     ∧ seg_rep σ' s' ([one] ++ rs) ∧ seg_synced σ' s')
  ∨ (∃ msg, segment_recover demo_path 1 σc = (Err (ECorruption msg), σc)).
Proof.
  intros σc. apply (acknowledged_records_survive demo_segment [one] [two] (file_fs (frames [one]))).
  - apply demo_rep.
  - split; evaluate.
  - apply power_loss_crash.
  - evaluate.
  - evaluate.
Defined.

Lemma append_sync_iterate_witness :
  ∃ s σ', (let! s := segment_create demo_path 1 in
           λ σ, let '(r, (s, σ)) := (do! for_each segment_append [one; two] then segment_sync) (s, σ) in
                (match r with Ok _ => Ok s | Err e => Err e | Panic => Panic end, σ)) empty_fs
          = (Ok s, σ')
    ∧ segment_collect s σ' = (Ok [one; two], σ') ∧ seg_count s = u64 (zlen [one; two])
    ∧ seg_synced σ' s ∧ file_durable σ' (bw_file (seg_writer s)) = frames [one; two].
Proof. apply (append_sync_iterate demo_path 1 [one; two] empty_fs); evaluate. Defined.

Lemma recover_idempotent_witness :
  let σ := file_fs (frames [one] ++ [x00; x01]) in
  let s := MkSegment 1 demo_path (bw_new 0) 11 1 in
  ∃ σ'', segment_recover demo_path 1 (segment_recover demo_path 1 σ).2 = (Ok s, σ'')
    ∧ ∀ fd, file_data σ'' fd = file_data (segment_recover demo_path 1 σ).2 fd.
Proof.
  intros σ s. apply (recover_idempotent demo_path 1 s σ).
  - evaluate.
  - apply file_fs_wf.
  - evaluate.
  - evaluate.
Defined.

Lemma interior_corruption_refused_witness :
  let σ := file_fs (frames [one] ++ bad_record two [x74; x77; x6e] ++ frames [one]) in
  segment_recover demo_path 1 σ =
    (Err (ECorruption (corruption_msg demo_path (zlen (frames [one])))), σ).
Proof.
  intros σ.
  apply (interior_corruption_refused demo_path 1 0 σ [one] two [x74; x77; x6e] one []); evaluate.
Defined.

Lemma corruption_before_torn_tail_drops_records_witness :
  let σ := file_fs (frames [one] ++ bad_record two [x74; x77; x6e] ++ frames [one; two]
                    ++ take 3 (frame one)) in
  ∃ s' σ', segment_recover demo_path 1 σ = (Ok s', σ') ∧ seg_rep σ' s' [one].
Proof.
  intros σ. apply (corruption_before_torn_tail_drops_records demo_path 1 0 σ [one] two
    [x74; x77; x6e] [one; two] one 3); evaluate.
Defined.

Lemma fresh_segment_lost_on_power_loss_witness :
  let run := (let! s := segment_create demo_path 1 in
      λ σ, let '(r, (s, σ)) := (do! for_each segment_append [one] then segment_sync) (s, σ) in
           (match r with Ok _ => Ok s | Err e => Err e | Panic => Panic end, σ)) empty_fs in
  crash run.2 (power_loss run.2)
  ∧ segment_recover demo_path 1 (power_loss run.2) = (Err (EIo NotFound), power_loss run.2).
Proof.
  intros run. eapply (fresh_segment_lost_on_power_loss demo_path 1 [one] empty_fs); evaluate.
Defined.
