(* ===== verification/WalLog.v ===== *)
(** * WalLog: the segmented log (src/wal/log.rs).

    [Log] strings segments together into one sequence of records with consecutive
    indices.  Its contract is the abstract log [alog]: the index of the first record
    and the list of payloads; [log_rep] relates the two, and every operation of the
    code is shown to implement the abstract one. *)

From Corelib Require Import ssreflect.
From stdpp Require Import base gmap strings list sorting pretty sets.
From S2P Require Import Prelude Text Fs Crc Record Segment.

Record Log := MkLog {
  log_dir : path;
  log_max_segment_bytes : Z;
  log_segments : list Segment;
  log_first_index : Z;
  log_last_index : Z
}.

Definition set_segments (segs : list Segment) (l : Log) : Log :=
  MkLog (log_dir l) (log_max_segment_bytes l) segs (log_first_index l) (log_last_index l).
Definition set_first_index (i : Z) (l : Log) : Log :=
  MkLog (log_dir l) (log_max_segment_bytes l) (log_segments l) i (log_last_index l).
Definition set_last_index (i : Z) (l : Log) : Log :=
  MkLog (log_dir l) (log_max_segment_bytes l) (log_segments l) (log_first_index l) i.

Definition SEGMENT_PREFIX : string := "wal-".
Definition SEGMENT_SUFFIX : string := ".log".

(** [segment_path]. *)
Definition segment_name (base : Z) : string :=
  SEGMENT_PREFIX +:+ fmt_020 base +:+ SEGMENT_SUFFIX.
Definition segment_path (dir : path) (base : Z) : path := join dir (segment_name base).

(** What [discover_segments] makes of a file name: not a segment, a malformed one, or
    the base index it encodes. *)
Definition segment_of_name (name : string) : option (option Z) :=
  match strip_prefix SEGMENT_PREFIX name with
  | None => None
  | Some rest =>
      match strip_suffix SEGMENT_SUFFIX rest with
      | None => None
      | Some digits => Some (parse_u64 digits)
      end
  end.

Fixpoint discover_loop (names : list string) (bases : list Z) : outcome (list Z) :=
  match names with
  | [] => Ok bases
  | name :: names =>
      match segment_of_name name with
      | None => discover_loop names bases
      | Some (Some base) => discover_loop names (bases ++ [base])
      | Some None => Err (error_wal ("malformed segment file name: " +:+ name))
      end
  end.

Definition discover_segments (dir : path) : M fs (list Z) :=
  let! names := read_dir dir in lift (discover_loop names []).

(** [Vec::pop] and access to the last element. *)
Definition vec_pop {A} (l : list A) : option (list A * A) :=
  match last l with Some a => Some (removelast l, a) | None => None end.

Section log.
Context `{Crc32}.

Fixpoint recover_all (dir : path) (bases : list Z) : M fs (list Segment) :=
  match bases with
  | [] => ret []
  | base :: bases =>
      let! s := segment_recover (segment_path dir base) base in
      let! ss := recover_all dir bases in
      ret (s :: ss)
  end.

(** [Log::open]. *)
Definition log_open (dir : path) (max_segment_bytes : Z) : M fs Log :=
  do! create_dir_all dir then
  let! bases := discover_segments dir in
  let bases := merge_sort Z.le bases in
  let! segments :=
    match bases with
    | [] => let! s := segment_create (segment_path dir 1) 1 in ret [s]
    | _ => recover_all dir bases
    end in
  let! first := unwrap (head segments) in
  let! last := unwrap (last segments) in
  let last_index :=
    if seg_count last =? 0 then u64_sub (seg_base_index last) 1
    else u64_sub (u64_add (seg_base_index last) (seg_count last)) 1 in
  ret (MkLog dir max_segment_bytes segments (seg_base_index first) last_index).

(** Run an operation on [self.segments.last_mut().unwrap()]. *)
Definition on_active {A} (m : M (Segment * fs) A) : M (Log * fs) A := λ '(l, σ),
  match vec_pop (log_segments l) with
  | None => (Panic, (l, σ))
  | Some (init, s) =>
      let '(r, (s', σ')) := m (s, σ) in
      (r, (set_segments (init ++ [s']) l, σ'))
  end.

(** The rotation at the head of [Log::append]. *)
Definition log_rotate : M (Log * fs) unit :=
  let! l := gets fst in
  let! active := unwrap (last (log_segments l)) in
  if (log_max_segment_bytes l <=? seg_bytes active) && (0 <? seg_count active) then
    let base := u64_add (log_last_index l) 1 in
    let! fresh := on_fs (segment_create (segment_path (log_dir l) base) base) in
    modify (λ '(l, σ), (set_segments (log_segments l ++ [fresh]) l, σ))
  else ret tt.

(** [Log::append]. *)
Definition log_append (payload : list byte) : M (Log * fs) Z :=
  do! log_rotate then
  do! on_active (segment_append payload) then
  do! modify (λ '(l, σ), (set_last_index (u64_add (log_last_index l) 1) l, σ)) then
  gets (λ s, log_last_index s.1).

(** The loop of [Log::sync]: segments before a failing one are updated. *)
Fixpoint sync_segments (segs : list Segment) (σ : fs) : outcome unit * (list Segment * fs) :=
  match segs with
  | [] => (Ok tt, ([], σ))
  | s :: segs =>
      let '(r, (s', σ')) := segment_sync (s, σ) in
      match r with
      | Ok _ => let '(r', (segs', σ'')) := sync_segments segs σ' in (r', (s' :: segs', σ''))
      | _ => (r, (s' :: segs, σ'))
      end
  end.

(** [Log::sync]. *)
Definition log_sync : M (Log * fs) unit := λ '(l, σ),
  let '(r, (segs, σ')) := sync_segments (log_segments l) σ in (r, (set_segments segs l, σ')).

(** [Log::read_all]: the inner loop numbers the records of one segment. *)
Fixpoint read_segment (fuel : nat) (idx : Z) (it : SegmentIter) : outcome (list (Z * list byte)) :=
  match fuel with
  | O => Panic
  | S fuel =>
      match iter_next it with
      | (None, _) => Ok []
      | (Some (Ok p), it') =>
          match read_segment fuel (u64_add idx 1) it' with
          | Ok out => Ok ((idx, p) :: out)
          | o => o
          end
      | (Some (Err e), _) => Err e
      | (Some Panic, _) => Panic
      end
  end.

Fixpoint read_segments (segs : list Segment) : M fs (list (Z * list byte)) :=
  match segs with
  | [] => ret []
  | s :: segs =>
      let! it := segment_iter s in
      let! out := lift (read_segment (iter_fuel it) (seg_base_index s) it) in
      let! rest := read_segments segs in
      ret (out ++ rest)
  end.

Definition log_read_all (l : Log) : M fs (list (Z * list byte)) :=
  read_segments (log_segments l).

(** The loop of [Log::truncate_prefix]: remove leading segments, never the last one. *)
Fixpoint remove_leading (up_to_index : Z) (segs : list Segment) (σ : fs)
    : outcome unit * (list Segment * fs) :=
  match segs with
  | s :: ((_ :: _) as rest) =>
      let seg_last := u64_sub (u64_add (seg_base_index s) (Z.max (seg_count s) 1)) 1 in
      if seg_last <? up_to_index then
        let '(r, σ') := segment_remove s σ in
        match r with
        | Ok _ => remove_leading up_to_index rest σ'
        | _ => (r, (rest, σ'))
        end
      else (Ok tt, (segs, σ))
  | _ => (Ok tt, (segs, σ))
  end.

(** [Log::truncate_prefix]. *)
Definition log_truncate_prefix (up_to_index : Z) : M (Log * fs) unit :=
  do! (λ '(l, σ), let '(r, (segs, σ')) := remove_leading up_to_index (log_segments l) σ in
                  (r, (set_segments segs l, σ'))) then
  let! first := let! l := gets fst in unwrap (head (log_segments l)) in
  modify (λ '(l, σ), (set_first_index (seg_base_index first) l, σ)).

(** The first loop of [Log::truncate_suffix], on the reversed vector: remove trailing
    segments that start past the cut. *)
Fixpoint remove_trailing (keep_last : Z) (rsegs : list Segment) (σ : fs)
    : outcome unit * (list Segment * fs) :=
  match rsegs with
  | s :: ((_ :: _) as rest) =>
      if keep_last <? seg_base_index s then
        let '(r, σ') := segment_remove s σ in
        match r with
        | Ok _ => remove_trailing keep_last rest σ'
        | _ => (r, (rest, σ'))
        end
      else (Ok tt, (rsegs, σ))
  | _ => (Ok tt, (rsegs, σ))
  end.

(** Its second loop: the payloads of the straddling segment up to [keep_last]. *)
Fixpoint survivors (fuel : nat) (keep_last idx : Z) (it : SegmentIter)
    : outcome (list (list byte)) :=
  match fuel with
  | O => Panic
  | S fuel =>
      match iter_next it with
      | (None, _) => Ok []
      | (Some rec, it') =>
          if keep_last <? idx then Ok []
          else match rec with
               | Ok p =>
                   match survivors fuel keep_last (u64_add idx 1) it' with
                   | Ok out => Ok (p :: out)
                   | o => o
                   end
               | Err e => Err e
               | Panic => Panic
               end
      end
  end.

Definition suffix_error (keep_last first_index : Z) : Error :=
  error_wal ("cannot truncate to " +:+ pretty keep_last +:+
             ": below compacted prefix at " +:+ pretty first_index).

(** The tail of [Log::truncate_suffix]: replace the straddling segment by a fresh one
    that holds the survivors. *)
Definition rewrite_active (keep_last : Z) : M (Log * fs) unit :=
  let! l := gets fst in
  let! seg := unwrap (last (log_segments l)) in
  let base := seg_base_index seg in
  let path := seg_path seg in
  let! it := on_fs (segment_iter seg) in
  let! keep := lift (survivors (iter_fuel it) keep_last base it) in
  do! modify (λ '(l, σ), (set_segments (removelast (log_segments l)) l, σ)) then
  do! on_fs (segment_remove seg) then
  let! fresh := on_fs (segment_create path base) in
  λ '(l, σ),
    let '(r, (fresh', σ')) :=
      (do! for_each segment_append keep then segment_sync) (fresh, σ) in
    match r with
    | Ok _ => (Ok tt, (set_last_index keep_last
                         (set_segments (log_segments l ++ [fresh']) l), σ'))
    | _ => (r, (l, bw_drop (seg_writer fresh') σ'))
    end.

(** [Log::truncate_suffix]. *)
Definition log_truncate_suffix (keep_last : Z) : M (Log * fs) unit :=
  let! l := gets fst in
  if log_last_index l <=? keep_last then ret tt
  else if u64_add keep_last 1 <? log_first_index l then
    throw (suffix_error keep_last (log_first_index l))
  else
    do! (λ '(l, σ),
           let '(r, (rsegs, σ')) := remove_trailing keep_last (rev (log_segments l)) σ in
           (r, (set_segments (rev rsegs) l, σ'))) then
    rewrite_active keep_last.

(** [Log::len] and [Log::is_empty]. *)
Definition log_len (l : Log) : Z :=
  if log_first_index l <=? log_last_index l
  then u64_add (u64_sub (log_last_index l) (log_first_index l)) 1
  else 0.
Definition log_is_empty (l : Log) : bool := log_len l =? 0.

End log.

(** ** File names *)

Lemma segment_of_name_name base :
  0 ≤ base ≤ u64_max → segment_of_name (segment_name base) = Some (Some base).
Proof.
  intros Hb. rw /segment_of_name /segment_name strip_prefix_app strip_suffix_app.
  by rw parse_u64_fmt_020.
Qed.

Lemma segment_path_inj dir a b :
  0 ≤ a ≤ u64_max → 0 ≤ b ≤ u64_max → segment_path dir a = segment_path dir b → a = b.
Proof.
  intros Ha Hb [_ Hn]%app_inj_2; [|done].
  apply (f_equal (λ ns, n ← head ns; segment_of_name n)) in Hn. simpl in Hn.
  rw (segment_of_name_name a) // (segment_of_name_name b) // in Hn. by injection Hn.
Qed.

(** ** The abstract log *)

Record alog := MkALog { al_first : Z; al_records : list (list byte) }.

Definition al_last (a : alog) : Z := al_first a + zlen (al_records a) - 1.

(** The records with their indices. *)
Definition al_entries (a : alog) : list (Z * list byte) :=
  imap (λ i p, (al_first a + Z.of_nat i, p)) (al_records a).

(** ** Consecutive segments *)

Implicit Types (ps : list (list byte)) (pss : list (list (list byte))).

Fixpoint bases_from (b : Z) (pss : list (list (list byte))) : list Z :=
  match pss with
  | [] => []
  | ps :: pss => b :: bases_from (b + zlen ps) pss
  end.

Lemma bases_from_app b pss1 pss2 :
  bases_from b (pss1 ++ pss2) = bases_from b pss1 ++ bases_from (b + zlen (concat pss1)) pss2.
Proof.
  revert b. induction pss1 as [|ps pss1 IH]; intros b; simpl.
  - by rw zlen_nil Z.add_0_r.
  - by rw IH zlen_app Z.add_assoc.
Qed.

Lemma bases_from_ge b pss x : x ∈ bases_from b pss → b ≤ x.
Proof.
  revert b. induction pss as [|ps pss IH]; intros b; simpl; [by intros ?%elem_of_nil|].
  intros [->|Hx%IH]%elem_of_cons; [done|]. pose proof (zlen_nonneg ps). lia.
Qed.

Lemma zlen_pos {A} (l : list A) : l ≠ [] → 0 < zlen l.
Proof. destruct l; [done|]. rw zlen_cons. pose proof (zlen_nonneg l). lia. Qed.

(** A base index is at most the next index, and below it if no segment is empty. *)
Lemma bases_from_le b pss x : x ∈ bases_from b pss → x ≤ b + zlen (concat pss).
Proof.
  revert b. induction pss as [|ps pss IH]; intros b; simpl; [by intros ?%elem_of_nil|].
  pose proof (zlen_nonneg ps). pose proof (zlen_nonneg (concat pss)).
  rw zlen_app. intros [->|Hx%IH]%elem_of_cons; lia.
Qed.
Lemma bases_from_lt b pss x :
  Forall (λ ps, ps ≠ []) pss → x ∈ bases_from b pss → x < b + zlen (concat pss).
Proof.
  intros Hne. revert b. induction Hne as [|ps pss Hps Hne IH]; intros b; simpl;
    [by intros ?%elem_of_nil|].
  apply zlen_pos in Hps. pose proof (zlen_nonneg (concat pss)).
  rw zlen_app. intros [->|Hx%IH]%elem_of_cons; lia.
Qed.

Definition interior_nonempty (pss : list (list (list byte))) : Prop :=
  ∀ ipss aps, pss = ipss ++ [aps] → Forall (λ ps, ps ≠ []) ipss.

Lemma interior_snoc ipss aps :
  interior_nonempty (ipss ++ [aps]) ↔ Forall (λ ps, ps ≠ []) ipss.
Proof.
  split; [by intros Hi; eapply Hi|]. intros Hi i a [-> _]%app_inj_2; done.
Qed.

Lemma NoDup_bases_from b pss : interior_nonempty pss → NoDup (bases_from b pss).
Proof.
  revert b. induction pss as [|aps ipss _] using rev_ind; intros b; [constructor|].
  rw interior_snoc bases_from_app /=. intros Hne.
  apply NoDup_app. split_and!; [| |apply NoDup_singleton].
  - induction Hne as [|ps pss Hps Hne IH] in b |- *; simpl; constructor; [|done].
    intros Hx%bases_from_ge. apply zlen_pos in Hps. lia.
  - intros x Hx%bases_from_lt ?%list_elem_of_singleton; [lia|done].
Qed.

(** ** Representation *)

Definition seg_file (s : Segment) : nat := bw_file (seg_writer s).

Record log_rep `{Crc32} (σ : fs) (l : Log) (pss : list (list (list byte))) : Prop := {
  lr_wf : fs_wf σ;
  lr_dir : log_dir l ∈ fs_dirs σ;
  lr_segs : Forall2 (seg_rep σ) (log_segments l) pss;
  lr_nonempty : pss ≠ [];
  lr_interior : interior_nonempty pss;
  lr_bases : seg_base_index <$> log_segments l = bases_from (log_first_index l) pss;
  lr_paths : Forall (λ s, seg_path s = segment_path (log_dir l) (seg_base_index s)) (log_segments l);
  lr_files : NoDup (seg_file <$> log_segments l);
  lr_first : 1 ≤ log_first_index l;
  lr_last : log_last_index l = log_first_index l + zlen (concat pss) - 1;
  lr_bound : log_last_index l < u64_max;
  lr_only n fd : fs_names σ !! join (log_dir l) n = Some fd → segment_of_name n ≠ None →
                 join (log_dir l) n ∈ seg_path <$> log_segments l
}.

Definition log_flushed (l : Log) : Prop := Forall seg_flushed (log_segments l).
Definition log_synced (σ : fs) (l : Log) : Prop := Forall (seg_synced σ) (log_segments l).

Section log_rep_facts.
Context `{Crc32}.

Lemma log_rep_base_range σ l pss s :
  log_rep σ l pss → s ∈ log_segments l →
  log_first_index l ≤ seg_base_index s ≤ log_last_index l + 1.
Proof.
  intros Hr Hs. assert (seg_base_index s ∈ bases_from (log_first_index l) pss) as Hb.
  { rw -(lr_bases _ _ _ Hr). by apply list_elem_of_fmap_2. }
  pose proof (bases_from_ge _ _ _ Hb). pose proof (bases_from_le _ _ _ Hb).
  rw (lr_last _ _ _ Hr). lia.
Qed.

Lemma log_rep_paths_NoDup σ l pss : log_rep σ l pss → NoDup (seg_path <$> log_segments l).
Proof.
  intros Hr. pose proof (NoDup_bases_from (log_first_index l) pss (lr_interior _ _ _ Hr)) as Hnd.
  rw -(lr_bases _ _ _ Hr) in Hnd.
  apply NoDup_fmap_1 in Hnd as Hnd'.
  apply NoDup_alt. intros i j p Hi Hj.
  apply list_lookup_fmap_Some in Hi as (s1 & -> & Hs1).
  apply list_lookup_fmap_Some in Hj as (s2 & Hp & Hs2).
  pose proof (proj1 (Forall_lookup _ _) (lr_paths _ _ _ Hr) _ _ Hs1) as Hp1.
  pose proof (proj1 (Forall_lookup _ _) (lr_paths _ _ _ Hr) _ _ Hs2) as Hp2. simpl in *.
  apply list_elem_of_lookup_2 in Hs1 as He1, Hs2 as He2.
  pose proof (log_rep_base_range _ _ _ _ Hr He1). pose proof (log_rep_base_range _ _ _ _ Hr He2).
  pose proof (lr_first _ _ _ Hr). pose proof (lr_bound _ _ _ Hr).
  assert (seg_base_index s1 = seg_base_index s2) as E.
  { eapply (segment_path_inj (log_dir l)); [lia..|congruence]. }
  eapply (proj1 (NoDup_alt _) Hnd i j (seg_base_index s1)).
  - by rw list_lookup_fmap Hs1.
  - by rw list_lookup_fmap Hs2 /= E.
Qed.

(** The active segment. *)
Lemma log_rep_snoc σ l pss :
  log_rep σ l pss →
  ∃ init act ipss aps, log_segments l = init ++ [act] ∧ pss = ipss ++ [aps]
    ∧ Forall2 (seg_rep σ) init ipss ∧ seg_rep σ act aps
    ∧ Forall (λ ps, ps ≠ []) ipss
    ∧ seg_base_index <$> init = bases_from (log_first_index l) ipss
    ∧ seg_base_index act = log_first_index l + zlen (concat ipss).
Proof.
  intros Hr. destruct (exists_last (lr_nonempty _ _ _ Hr)) as (ipss & aps & ->).
  pose proof (lr_segs _ _ _ Hr) as Hs.
  apply Forall2_app_inv_r in Hs as (init & acts & Hi & Ha & Eq).
  apply Forall2_cons_inv_r in Ha as (act & ? & Ha & Hn & ->).
  apply Forall2_nil_inv_r in Hn as ->.
  pose proof (lr_bases _ _ _ Hr) as Hb. rw Eq fmap_app bases_from_app in Hb.
  apply app_inj_2 in Hb as [Hb [= Hb']]; [|done].
  exists init, act, ipss, aps. split_and!; try done.
  apply (interior_snoc ipss aps), Hr.
Qed.

(** *** Changing the active segment *)

Lemma seg_reps_frame σ σ' segs pss :
  Forall2 (seg_rep σ) segs pss →
  (∀ s, s ∈ segs → fs_names σ' !! seg_path s = fs_names σ !! seg_path s
                 ∧ fs_inodes σ' !! seg_file s = fs_inodes σ !! seg_file s) →
  Forall2 (seg_rep σ') segs pss.
Proof.
  induction 1 as [|s ps segs pss Hs _ IH]; intros Hf; constructor.
  - destruct (Hf s) as [Hn Hi]; [set_solver|]. by eapply seg_rep_frame.
  - apply IH. set_solver.
Qed.

Lemma log_rep_update_active σ σ' l init act act' ipss aps aps' :
  log_rep σ l (ipss ++ [aps]) → log_segments l = init ++ [act] →
  only_files [seg_file act] σ σ' → seg_rep σ' act' aps' →
  seg_base_index act' = seg_base_index act → seg_path act' = seg_path act →
  seg_file act' = seg_file act →
  let last' := log_first_index l + zlen (concat (ipss ++ [aps'])) - 1 in
  last' < u64_max →
  log_rep σ' (set_last_index last' (set_segments (init ++ [act']) l)) (ipss ++ [aps']).
Proof.
  intros Hr Es Ho Ha Hb Hp Hf last' Hlast.
  destruct Hr as [Hwf Hdir Hsegs Hne Hint Hbs Hps Hfs Hfst Hls Hbd Hon].
  rw Es in Hsegs Hbs Hps Hfs Hon. rw fmap_app /= in Hbs. rw fmap_app /= in Hfs. rw fmap_app /= in Hon.
  apply NoDup_app in Hfs as (Hnd & Hdis & Hnd1).
  apply Forall2_app_inv in Hsegs as [Hi _]; last first.
  { apply Forall2_length in Hsegs. rw !length_app /= in Hsegs. lia. }
  split; simpl.
  - by eapply of_wf.
  - by rw (of_dirs _ _ _ Ho).
  - apply Forall2_app; [|constructor; [done|constructor]].
    eapply seg_reps_frame; [exact Hi|]. intros s Hs. rw (of_names _ _ _ Ho). split; [done|].
    apply (of_inodes _ _ _ Ho), Hdis. by apply list_elem_of_fmap_2.
  - by destruct ipss.
  - by rw interior_snoc -(interior_snoc _ aps).
  - rw fmap_app /= Hb Hbs !bases_from_app //.
  - rw Forall_app Forall_singleton Hp Hb. rw Forall_app Forall_singleton in Hps. done.
  - rw fmap_app /= Hf. apply NoDup_app. done.
  - done.
  - done.
  - done.
  - intros n fd. rw (of_names _ _ _ Ho) fmap_app /= Hp. apply Hon.
Qed.

Lemma vec_pop_snoc {A} (l : list A) a : vec_pop (l ++ [a]) = Some (l, a).
Proof. by rw /vec_pop last_snoc removelast_last. Qed.

Lemma on_active_run {A} (m : M (Segment * fs) A) l σ init act r act' σ' :
  log_segments l = init ++ [act] → m (act, σ) = (r, (act', σ')) →
  on_active m (l, σ) = (r, (set_segments (init ++ [act']) l, σ')).
Proof. intros Es Hm. by rw /on_active Es vec_pop_snoc Hm. Qed.

(** *** Rotation *)

Lemma seg_rep_file_lt σ s ps : fs_wf σ → seg_rep σ s ps → (seg_file s < fs_next σ)%nat.
Proof. intros Hwf Hr. apply (wf_fresh _ Hwf), Hr. Qed.

Lemma log_rep_seg σ l pss :
  log_rep σ l pss → ∀ s, s ∈ log_segments l → ∃ ps, seg_rep σ s ps.
Proof.
  intros Hr s [i Hi]%list_elem_of_lookup.
  destruct (Forall2_lookup_l _ _ _ _ _ (lr_segs _ _ _ Hr) Hi) as (ps & _ & Hps). eauto.
Qed.

(** The name of the next segment is free. *)
Lemma log_rep_next_free σ l pss :
  log_rep σ l pss → Forall (λ ps, ps ≠ []) pss →
  fs_names σ !! segment_path (log_dir l) (log_last_index l + 1) = None.
Proof.
  intros Hr Hne. set (base := log_last_index l + 1).
  destruct (fs_names σ !! segment_path (log_dir l) base) as [fd|] eqn:E; [exfalso|done].
  pose proof (lr_first _ _ _ Hr). pose proof (lr_bound _ _ _ Hr). pose proof (lr_last _ _ _ Hr).
  pose proof (zlen_nonneg (concat pss)).
  pose proof (lr_only _ _ _ Hr _ _ E) as Hin. rw segment_of_name_name in Hin; [lia|].
  specialize (Hin ltac:(done)). apply list_elem_of_fmap in Hin as (s & Hp & Hs).
  pose proof (proj1 (Forall_forall _ _) (lr_paths _ _ _ Hr) s Hs) as Hp'. simpl in Hp'.
  pose proof (log_rep_base_range _ _ _ _ Hr Hs).
  assert (seg_base_index s = base) as Eb.
  { eapply (segment_path_inj (log_dir l)); [lia|lia|]. rw -Hp'. symmetry. exact Hp. }
  assert (seg_base_index s ∈ bases_from (log_first_index l) pss) as Hb.
  { rw -(lr_bases _ _ _ Hr). by apply list_elem_of_fmap_2. }
  apply bases_from_lt in Hb; [|done]. lia.
Qed.

(** A fresh segment behind a non-empty active one. *)
Lemma log_rep_push σ l pss :
  log_rep σ l pss → Forall (λ ps, ps ≠ []) pss →
  let base := log_last_index l + 1 in
  let p := segment_path (log_dir l) base in
  let fresh := MkSegment base p (bw_new (fs_next σ)) 0 0 in
  log_rep (add_file p σ) (set_segments (log_segments l ++ [fresh]) l) (pss ++ [[]]).
Proof.
  intros Hr Hne base p fresh.
  pose proof (log_rep_next_free _ _ _ Hr Hne) as Hfree. fold base p in Hfree.
  pose proof (log_rep_seg _ _ _ Hr) as Hreps.
  pose proof (lr_wf _ _ _ Hr) as Hwf.
  destruct Hr as [_ Hdir Hsegs Hne' Hint Hbs Hps Hfs Hfst Hls Hbd Hon].
  split; simpl.
  - by apply add_file_wf.
  - done.
  - apply Forall2_app; [|constructor; [apply add_file_rep|constructor]].
    eapply seg_reps_frame; [exact Hsegs|]. intros s Hs. destruct (Hreps s Hs) as [ps Hsp].
    simpl. split.
    + rw lookup_insert_ne //. intros E. by rw E (rep_name _ _ _ Hsp) in Hfree.
    + rw lookup_insert_ne //. pose proof (seg_rep_file_lt _ _ _ Hwf Hsp). lia.
  - by destruct pss.
  - by rw interior_snoc.
  - rw fmap_app Hbs bases_from_app /=. do 2 f_equal. rw /base Hls. lia.
  - rw Forall_app Forall_singleton. done.
  - rw fmap_app /=. apply NoDup_app. split_and!; [done| |apply NoDup_singleton].
    intros fd (s & -> & Hs)%list_elem_of_fmap. destruct (Hreps s Hs) as [ps Hsp].
    pose proof (seg_rep_file_lt _ _ _ Hwf Hsp). rw list_elem_of_singleton /seg_file /=. 
    unfold seg_file in *. lia.
  - done.
  - rw concat_app /= app_nil_r. done.
  - done.
  - intros n fd. rw lookup_insert fmap_app /=. case_decide as E.
    + intros _ _. rw -E. set_solver.
    + intros Hn Hseg. pose proof (Hon _ _ Hn Hseg). set_solver.
Qed.

(** *** Append *)

(** A count of a represented segment is its number of records. *)
Lemma log_rep_count σ l pss s ps :
  log_rep σ l pss → (s, ps) ∈ zip (log_segments l) pss → seg_count s = zlen ps.
Proof.
  intros Hr [i Hi]%list_elem_of_lookup.
  apply lookup_zip_Some in Hi as [Hs Hp]. simpl in *.
  destruct (Forall2_lookup_l _ _ _ _ _ (lr_segs _ _ _ Hr) Hs) as (ps' & Hp' & Hrep).
  simplify_eq. rw (rep_count _ _ _ Hrep). apply u64_small.
  assert (zlen ps ≤ zlen (concat pss)) as Hle.
  { rw -(take_drop_middle _ _ _ Hp) concat_app /= !zlen_app.
    pose proof (zlen_nonneg (concat (take i pss))).
    pose proof (zlen_nonneg (concat (drop (S i) pss))). lia. }
  pose proof (lr_last _ _ _ Hr). pose proof (lr_bound _ _ _ Hr). pose proof (lr_first _ _ _ Hr).
  pose proof (zlen_nonneg ps). lia.
Qed.

Lemma log_rotate_rep l σ pss :
  fault_free σ → log_rep σ l pss →
  ∃ l' σ' pss', log_rotate (l, σ) = (Ok tt, (l', σ')) ∧ log_rep σ' l' pss' ∧ fault_free σ'
    ∧ concat pss' = concat pss ∧ log_first_index l' = log_first_index l
    ∧ log_last_index l' = log_last_index l ∧ log_dir l' = log_dir l
    ∧ log_max_segment_bytes l' = log_max_segment_bytes l.
Proof.
  intros Hs Hr. destruct (log_rep_snoc _ _ _ Hr) as (init & act & ipss & aps & Es & -> & Hrest).
  destruct Hrest as (_ & Ha & Hne & _ & _).
  rw /log_rotate /bind /gets /= Es last_snoc /=.
  destruct ((log_max_segment_bytes l <=? seg_bytes act) && (0 <? seg_count act)) eqn:E; last first.
  { exists l, σ, (ipss ++ [aps]). done. }
  apply andb_true_iff in E as [_ Hc%Z.ltb_lt].
  assert (Forall (λ ps, ps ≠ []) (ipss ++ [aps])) as Hall.
  { rw Forall_app Forall_singleton. split; [done|]. intros ->.
    rw (rep_count _ _ _ Ha) in Hc. done. }
  pose proof (lr_first _ _ _ Hr). pose proof (lr_bound _ _ _ Hr). pose proof (lr_last _ _ _ Hr).
  pose proof (zlen_nonneg (concat (ipss ++ [aps]))).
  rw u64_add_small; [lia|].
  rw /on_fs /zoom /= segment_create_ok //.
  { apply parent_exists_join, Hr. }
  { by eapply log_rep_next_free. }
  eexists _, _, ((ipss ++ [aps]) ++ [[]]). split; [done|]. split; [|split_and!; try done].
  - by apply log_rep_push.
  - by rw concat_app /= app_nil_r.
Qed.

Lemma log_append_rep p l σ pss :
  fault_free σ → log_rep σ l pss → zlen p ≤ MAX_RECORD_LEN → log_last_index l + 1 < u64_max →
  ∃ l' σ' pss', log_append p (l, σ) = (Ok (log_last_index l + 1), (l', σ'))
    ∧ log_rep σ' l' pss' ∧ fault_free σ' ∧ concat pss' = concat pss ++ [p]
    ∧ log_first_index l' = log_first_index l ∧ log_last_index l' = log_last_index l + 1
    ∧ log_dir l' = log_dir l ∧ log_max_segment_bytes l' = log_max_segment_bytes l.
Proof.
  intros Hs Hr Hp Hb.
  destruct (log_rotate_rep l σ pss Hs Hr)
    as (l1 & σ1 & pss1 & E1 & Hr1 & Hs1 & Hc1 & Hf1 & Hl1 & Hd1 & Hm1).
  rw /log_append (bind_Ok _ _ _ _ _ E1).
  destruct (log_rep_snoc _ _ _ Hr1) as (init & act & ipss & aps & Es & -> & _ & Ha & _).
  destruct (segment_append_rep p act σ1 aps Hs1 Ha Hp) as (act' & out & E2 & Ha' & Hf & Hpa & Hba).
  rw (bind_Ok _ _ _ _ _ (on_active_run _ _ _ _ _ _ _ _ Es E2)).
  pose proof (lr_first _ _ _ Hr1). pose proof (lr_last _ _ _ Hr1). pose proof (lr_last _ _ _ Hr).
  pose proof (zlen_nonneg (concat pss)). rw Hc1 Hf1 in H1.
  rw /bind /modify /gets /= Hl1 u64_add_small; [lia|].
  assert (concat (ipss ++ [aps ++ [p]]) = concat pss ++ [p]) as Ec.
  { rw -Hc1 !concat_app /= !app_nil_r app_assoc //. }
  eexists _, _, (ipss ++ [aps ++ [p]]). split; [done|].
  split; [|split_and!; try done].
  replace (log_last_index l + 1) with
    (log_first_index l1 + zlen (concat (ipss ++ [aps ++ [p]])) - 1).
  - eapply log_rep_update_active; try done.
    + apply only_files_alter.
    + rw Ec zlen_app zlen_cons zlen_nil. lia.
  - rw Ec zlen_app zlen_cons zlen_nil. lia.
Qed.

(** *** Sync *)

Lemma sync_segments_rep segs pss σ :
  fault_free σ → Forall2 (seg_rep σ) segs pss → NoDup (seg_file <$> segs) →
  ∃ segs' σ', sync_segments segs σ = (Ok tt, (segs', σ'))
    ∧ Forall2 (seg_rep σ') segs' pss ∧ Forall (seg_synced σ') segs'
    ∧ only_files (seg_file <$> segs) σ σ'
    ∧ segs' = (λ s, set_writer (bw_new (seg_file s)) s) <$> segs.
Proof.
  intros Hs Hr. revert σ Hs Hr. revert pss. induction segs as [|s segs IH]; intros pss σ Hs Hr Hnd.
  { apply Forall2_nil_inv_l in Hr as ->. exists [], σ. split_and!; try done. }
  apply Forall2_cons_inv_l in Hr as (ps & pss' & Hr1 & Hr2 & ->).
  rw fmap_cons in Hnd. apply NoDup_cons in Hnd as [Hnin Hnd].
  destruct (segment_sync_rep s σ ps Hs Hr1) as (E & Hr1' & Hsy & _).
  set (σ1 := make_durable _ _) in *. set (s1 := set_writer _ s) in *.
  assert (only_files [seg_file s] σ σ1) as Ho.
  { apply (only_files_mono ([seg_file s] ++ [seg_file s])); [set_solver|].
    eapply only_files_trans; apply only_files_alter. }
  destruct (IH pss' σ1) as (segs' & σ2 & E2 & Hr2' & Hsy2 & Ho2 & Heq).
  - by eapply only_files_fault_free.
  - eapply seg_reps_frame; [exact Hr2|]. intros t Ht. rw (of_names _ _ _ Ho). split; [done|].
    apply (of_inodes _ _ _ Ho), not_elem_of_cons. split; [|apply not_elem_of_nil].
    intros Et. apply Hnin. rw -Et. by apply list_elem_of_fmap_2.
  - done.
  - exists (s1 :: segs'), σ2. cbn [sync_segments]. rw E E2.
    pose proof (of_inodes _ _ _ Ho2 _ Hnin) as Hsame.
    split_and!; [done| | | |by rw fmap_cons -Heq].
    + constructor; [|done]. eapply seg_rep_frame; [exact Hr1'|by rw (of_names _ _ _ Ho2)|exact Hsame].
    + constructor; [|done]. by eapply seg_synced_frame.
    + rw fmap_cons. apply (only_files_trans [seg_file s] _ _ σ1 _ Ho Ho2).
Qed.

Lemma log_sync_rep l σ pss :
  fault_free σ → log_rep σ l pss →
  ∃ l' σ', log_sync (l, σ) = (Ok tt, (l', σ')) ∧ log_rep σ' l' pss ∧ log_synced σ' l'
    ∧ fault_free σ' ∧ only_files (seg_file <$> log_segments l) σ σ'
    ∧ l' = set_segments ((λ s, set_writer (bw_new (seg_file s)) s) <$> log_segments l) l.
Proof.
  intros Hs Hr.
  destruct (sync_segments_rep _ _ _ Hs (lr_segs _ _ _ Hr) (lr_files _ _ _ Hr))
    as (segs & σ' & E & Hsr & Hsy & Ho & Heq).
  exists (set_segments segs l), σ'. rw /log_sync E.
  split_and!; [done| |done|by eapply only_files_fault_free|done|by rw Heq].
  destruct Hr as [Hwf Hdir Hsegs Hne Hint Hbs Hps Hfs Hfst Hls Hbd Hon].
  split; simpl; try done.
  - by eapply of_wf.
  - by rw (of_dirs _ _ _ Ho).
  - by rw Heq -list_fmap_compose.
  - by rw Heq Forall_fmap.
  - by rw Heq -list_fmap_compose.
  - intros n fd. rw (of_names _ _ _ Ho) Heq -list_fmap_compose. apply Hon.
Qed.

(** *** Reading everything back *)

Definition numbered (b : Z) (ps : list (list byte)) : list (Z * list byte) :=
  imap (λ i p, (b + Z.of_nat i, p)) ps.

Lemma numbered_cons b p ps : numbered b (p :: ps) = (b, p) :: numbered (b + 1) ps.
Proof.
  rw /numbered /= Z.add_0_r. f_equal. apply imap_ext. intros i x _. simpl. f_equal. lia.
Qed.
Lemma numbered_app b ps qs :
  numbered b (ps ++ qs) = numbered b ps ++ numbered (b + zlen ps) qs.
Proof.
  revert b. induction ps as [|p ps IH]; intros b.
  - by rw zlen_nil Z.add_0_r.
  - rw -app_comm_cons !numbered_cons IH zlen_cons /=. do 3 f_equal. lia.
Qed.

Lemma read_segment_frames fuel b ps pos :
  (length ps < fuel)%nat → small ps → 0 ≤ b → b + zlen ps ≤ u64_max →
  read_segment fuel b (iter_at (frames ps) pos) = Ok (numbered b ps).
Proof.
  intros Hf Hs. revert fuel b pos Hf.
  induction Hs as [|p ps Hp Hps IH]; intros [|fuel] b pos Hf Hb Hm; simpl in Hf; try lia;
    cbn [read_segment].
  - rw frames_nil. pose proof (iter_next_nil pos).
    by destruct (iter_next (iter_at [] pos)) as [[]]; simplify_eq/=.
  - rw zlen_cons in Hm. pose proof (zlen_nonneg ps).
    rw frames_cons iter_next_cons // u64_add_small; [lia|]. rw IH; [lia..|].
    by rw numbered_cons.
Qed.

Lemma segment_iter_ok s σ ps :
  fault_free σ → seg_rep σ s ps → seg_flushed s →
  segment_iter s σ = (Ok (iter_at (frames ps) 0), σ)
  ∧ (length ps < iter_fuel (iter_at (frames ps) 0))%nat.
Proof.
  intros Hs Hr Hb. pose proof (rep_data _ _ _ Hr) as Hd. rw Hb app_nil_r in Hd.
  rw /segment_iter /bind (open_existing_ok _ _ _ Hs (rep_name _ _ _ Hr)).
  rw read_file_ok // Hd. split; [done|]. rw /iter_fuel /=. pose proof (length_frames ps). lia.
Qed.

Lemma read_segments_rep segs pss b σ :
  fault_free σ → Forall2 (seg_rep σ) segs pss → Forall seg_flushed segs →
  seg_base_index <$> segs = bases_from b pss → 0 ≤ b → b + zlen (concat pss) ≤ u64_max →
  read_segments segs σ = (Ok (numbered b (concat pss)), σ).
Proof.
  intros Hs Hr. revert b. induction Hr as [|s ps segs pss Hr Hrs IH]; intros b Hf Hb H0 Hm.
  { done. }
  rw fmap_cons /= in Hb. injection Hb as Hb Hbs. apply Forall_cons in Hf as [Hf Hfs].
  rw /= zlen_app in Hm. pose proof (zlen_nonneg ps). pose proof (zlen_nonneg (concat pss)).
  destruct (segment_iter_ok _ _ _ Hs Hr Hf) as [E Hfu].
  cbn [read_segments]. rw (bind_Ok _ _ _ _ _ E) /bind /lift Hb read_segment_frames //; [apply Hr|lia|].
  rw (IH (b + zlen ps)) //; [lia..|]. by rw /ret /= numbered_app.
Qed.

Lemma log_read_all_rep l σ pss :
  fault_free σ → log_rep σ l pss → log_flushed l →
  log_read_all l σ = (Ok (numbered (log_first_index l) (concat pss)), σ).
Proof.
  intros Hs Hr Hf. pose proof (lr_first _ _ _ Hr). pose proof (lr_last _ _ _ Hr).
  pose proof (lr_bound _ _ _ Hr).
  apply read_segments_rep; try done; [apply Hr|apply Hr|lia|lia].
Qed.

Lemma log_synced_flushed σ l : log_synced σ l → log_flushed l.
Proof. intros Hs. eapply Forall_impl; [exact Hs|]. by intros s [Hf _]. Qed.

(** *** Removing a segment at either end *)

Definition removed (s : Segment) (σ : fs) : fs :=
  append_data (seg_file s) (bw_buf (seg_writer s)) (set_names (delete (seg_path s)) σ).

Lemma segment_remove_ok s σ ps :
  fault_free σ → seg_rep σ s ps → segment_remove s σ = (Ok tt, removed s σ).
Proof.
  intros Hs Hr. rw /segment_remove (remove_file_ok _ _ _ Hs (rep_name _ _ _ Hr)).
  by rw bw_drop_ok.
Qed.

Lemma removed_wf s σ : fs_wf σ → fs_wf (removed s σ).
Proof.
  intros [Hn Hd Hf]. apply set_inodes_alter_wf. split; simpl; [|done|done].
  intros p fd [_ Hp]%lookup_delete_Some. eauto.
Qed.

Lemma removed_reps s σ segs pss :
  Forall2 (seg_rep σ) segs pss → seg_path s ∉ seg_path <$> segs → seg_file s ∉ seg_file <$> segs →
  Forall2 (seg_rep (removed s σ)) segs pss.
Proof.
  intros Hr Hp Hf. eapply seg_reps_frame; [exact Hr|]. intros t Ht. split.
  - rw /= lookup_delete_ne //. intros E. apply Hp. rw E. by apply list_elem_of_fmap_2.
  - rw /= lookup_alter_ne //. intros E. apply Hf. rw E. by apply list_elem_of_fmap_2.
Qed.

Lemma log_rep_remove_first σ l s segs ps pss :
  log_rep σ l (ps :: pss) → log_segments l = s :: segs → pss ≠ [] →
  log_rep (removed s σ) (set_first_index (log_first_index l + zlen ps) (set_segments segs l)) pss.
Proof.
  intros Hr Es Hne. pose proof (log_rep_paths_NoDup _ _ _ Hr) as Hnp.
  destruct Hr as [Hwf Hdir Hsegs _ Hint Hbs Hps Hfs Hfst Hls Hbd Hon].
  rw Es in Hsegs Hbs Hps Hfs Hon Hnp.
  rw fmap_cons in Hbs. rw fmap_cons in Hfs. rw fmap_cons in Hnp. rw fmap_cons in Hon.
  apply NoDup_cons in Hfs as [Hf1 Hf2]. apply NoDup_cons in Hnp as [Hp1 Hp2].
  apply Forall2_cons in Hsegs as [_ Hsegs]. apply Forall_cons in Hps as [_ Hps].
  injection Hbs as Hb Hbs. pose proof (zlen_nonneg ps). split; simpl; try done.
  - by apply removed_wf.
  - by apply removed_reps.
  - intros ipss aps ->. specialize (Hint (ps :: ipss) aps eq_refl). by apply Forall_cons in Hint as [_ ?].
  - lia.
  - rw Hls /= zlen_app. lia.
  - intros n fd [Hne' Hn]%lookup_delete_Some Hseg.
    pose proof (Hon _ _ Hn Hseg) as [E|?]%elem_of_cons; [|done]. by rw E in Hne'.
Qed.

Lemma log_rep_remove_last σ l s segs ps pss :
  log_rep σ l (pss ++ [ps]) → log_segments l = segs ++ [s] → pss ≠ [] →
  log_rep (removed s σ)
    (set_last_index (log_first_index l + zlen (concat pss) - 1) (set_segments segs l)) pss.
Proof.
  intros Hr Es Hne. pose proof (log_rep_paths_NoDup _ _ _ Hr) as Hnp.
  destruct Hr as [Hwf Hdir Hsegs _ Hint Hbs Hps Hfs Hfst Hls Hbd Hon].
  rw Es in Hsegs Hbs Hps Hfs Hon Hnp.
  rw fmap_app in Hbs. rw fmap_app in Hfs. rw fmap_app in Hnp. rw fmap_app in Hon.
  apply NoDup_app in Hfs as (Hf1 & Hf2 & _). apply NoDup_app in Hnp as (Hp1 & Hp2 & _).
  apply Forall2_app_inv in Hsegs as [Hsegs _]; last first.
  { apply Forall2_length in Hsegs. rw !length_app /= in Hsegs. lia. }
  apply Forall_app in Hps as [Hps _]. rw bases_from_app in Hbs.
  apply app_inj_2 in Hbs as [Hbs Hb]; [|done].
  rw interior_snoc in Hint. rw concat_app zlen_app in Hls.
  pose proof (zlen_nonneg (concat [ps])). split; simpl; try done.
  - by apply removed_wf.
  - apply removed_reps; [done| |].
    + intros Hin. apply (Hp2 _ Hin). simpl. set_solver.
    + intros Hin. apply (Hf2 _ Hin). simpl. set_solver.
  - intros ipss aps ->. by apply Forall_app in Hint as [? _].
  - lia.
  - intros n fd [Hne' Hn]%lookup_delete_Some Hseg.
    pose proof (Hon _ _ Hn Hseg) as [?|E]%elem_of_app; [done|].
    simpl in E. apply list_elem_of_singleton in E. by rw E in Hne'.
Qed.

Lemma removed_synced s σ segs :
  Forall (seg_synced σ) segs → seg_file s ∉ seg_file <$> segs →
  Forall (seg_synced (removed s σ)) segs.
Proof.
  intros Hs Hf. apply Forall_forall. intros t Ht.
  eapply seg_synced_frame; [by eapply Forall_forall in Hs|].
  rw /= lookup_alter_ne //. intros E. apply Hf. rw E. exact (list_elem_of_fmap_2 seg_file _ _ Ht).
Qed.

(** *** Prefix compaction *)

(** How many segments the compaction drops, and why it stops there. *)
Definition leading_cut (up_to first : Z) (pss : list (list (list byte))) (d : nat) : Prop :=
  (d < length pss)%nat
  ∧ ((0 < d)%nat → first + zlen (concat (take d pss)) ≤ up_to)
  ∧ ((S d < length pss)%nat → up_to ≤ first + zlen (concat (take (S d) pss)) - 1).

Lemma seg_last_value σ l s segs ps pss :
  log_rep σ l (ps :: pss) → log_segments l = s :: segs → pss ≠ [] →
  u64_sub (u64_add (seg_base_index s) (Z.max (seg_count s) 1)) 1 = log_first_index l + zlen ps - 1.
Proof.
  intros Hr Es Hne. destruct (exists_last Hne) as (ipss & aps & ->).
  pose proof (lr_interior _ _ _ Hr (ps :: ipss) aps eq_refl) as [Hps%zlen_pos _]%Forall_cons.
  pose proof (lr_bases _ _ _ Hr) as Hb. rw Es fmap_cons /= in Hb. injection Hb as Hb _.
  rw (log_rep_count _ _ _ s ps Hr). { rw Es /=. set_solver. }
  pose proof (lr_first _ _ _ Hr). pose proof (lr_last _ _ _ Hr) as Hl. pose proof (lr_bound _ _ _ Hr).
  rw /= zlen_app in Hl. pose proof (zlen_nonneg (concat (ipss ++ [aps]))).
  rw Z.max_l; [lia|]. rw Hb u64_add_small; [lia|]. rw u64_sub_small; lia.
Qed.

Lemma remove_leading_rep up_to segs pss σ l :
  fault_free σ → log_rep σ l pss → log_segments l = segs →
  ∃ d σ', remove_leading up_to segs σ = (Ok tt, (drop d segs, σ'))
    ∧ log_rep σ' (set_first_index (log_first_index l + zlen (concat (take d pss)))
                    (set_segments (drop d segs) l)) (drop d pss)
    ∧ fault_free σ' ∧ leading_cut up_to (log_first_index l) pss d
    ∧ (Forall (seg_synced σ) segs → Forall (seg_synced σ') (drop d segs)).
Proof.
  revert pss σ l. induction segs as [|s segs IH]; intros pss σ l Hs Hr Es.
  { pose proof (lr_segs _ _ _ Hr) as Hf. rw Es in Hf. apply Forall2_nil_inv_l in Hf.
    by destruct (lr_nonempty _ _ _ Hr). }
  pose proof (lr_segs _ _ _ Hr) as Hf. rw Es in Hf.
  apply Forall2_cons_inv_l in Hf as (ps & pss' & Hsr & Hf & ->).
  assert (log_rep σ (set_first_index (log_first_index l + zlen (concat (take 0 (ps :: pss'))))
            (set_segments (drop 0 (s :: segs)) l)) (ps :: pss')) as Hr0.
  { rw /= zlen_nil Z.add_0_r -Es. by destruct l. }
  cbn [remove_leading]. destruct segs as [|s2 segs].
  { exists 0%nat, σ. apply Forall2_nil_inv_l in Hf as ->. rw /leading_cut /=.
    split_and!; try done; try lia. }
  assert (pss' ≠ []) as Hne by (intros ->; by apply Forall2_nil_inv_r in Hf).
  rw (seg_last_value _ _ _ _ _ _ Hr Es Hne).
  destruct (Z.ltb_spec (log_first_index l + zlen ps - 1) up_to) as [Hlt|Hge]; last first.
  { exists 0%nat, σ. rw /leading_cut /= app_nil_r. destruct pss'; [done|]. simpl.
    split_and!; try done; try lia. }
  rw (segment_remove_ok _ _ _ Hs Hsr).
  pose proof (log_rep_remove_first _ _ _ _ _ _ Hr Es Hne) as Hr1.
  destruct (IH pss' (removed s σ) _ Hs Hr1 eq_refl) as (d & σ' & E & Hr' & Hs' & (Hd & Hc & Hm) & Hsy).
  exists (S d), σ'. split_and!; [exact E| |done| |].
  - move: Hr'. by rw /= zlen_app Z.add_assoc.
  - rw /leading_cut /= in Hc Hm |- *. split_and!; [lia| |].
    + intros _. rw zlen_app. destruct d; [rw /= zlen_nil; lia|]. specialize (Hc ltac:(lia)). lia.
    + intros ?. specialize (Hm ltac:(lia)). rw zlen_app. lia.
  - intros [_ Hsegs]%Forall_cons. apply Hsy, removed_synced; [done|].
    pose proof (lr_files _ _ _ Hr) as Hnd. rw Es fmap_cons in Hnd. by apply NoDup_cons in Hnd as [? _].
Qed.

Lemma log_truncate_prefix_rep up_to l σ pss :
  fault_free σ → log_rep σ l pss →
  ∃ d l' σ', log_truncate_prefix up_to (l, σ) = (Ok tt, (l', σ'))
    ∧ log_rep σ' l' (drop d pss) ∧ fault_free σ' ∧ leading_cut up_to (log_first_index l) pss d
    ∧ l' = set_first_index (log_first_index l + zlen (concat (take d pss)))
             (set_segments (drop d (log_segments l)) l)
    ∧ (log_synced σ l → log_synced σ' l').
Proof.
  intros Hs Hr. destruct (remove_leading_rep up_to _ _ _ _ Hs Hr eq_refl) as (d & σ' & E & Hr' & Hs' & Hc & Hsy).
  rw /log_truncate_prefix /bind /gets /= E.
  pose proof (lr_bases _ _ _ Hr') as Hb. pose proof (lr_nonempty _ _ _ Hr') as Hne.
  destruct (drop d pss) as [|ps pss'] eqn:Ed; [done|].
  simpl in Hb. destruct (drop d (log_segments l)) as [|s segs] eqn:Es; [done|].
  injection Hb as Hb _. simpl. rw Hb. exists d. eexists _, σ'.
  split; [done|]. rw Ed Es. by split_and!.
Qed.

(** *** Suffix truncation *)

(** How many segments the cut at [keep] leaves. *)
Definition trailing_cut (keep first : Z) (pss : list (list (list byte))) (k : nat) : Prop :=
  (0 < k ≤ length pss)%nat
  ∧ ((k < length pss)%nat → keep < first + zlen (concat (take k pss)))
  ∧ ((1 < k)%nat → first + zlen (concat (take (pred k) pss)) ≤ keep).

Lemma remove_trailing_rep keep rsegs pss σ l :
  fault_free σ → log_rep σ l pss → log_segments l = rev rsegs →
  ∃ k σ', remove_trailing keep rsegs σ = (Ok tt, (rev (take k (rev rsegs)), σ'))
    ∧ log_rep σ' (set_last_index (log_first_index l + zlen (concat (take k pss)) - 1)
                    (set_segments (take k (rev rsegs)) l)) (take k pss)
    ∧ fault_free σ' ∧ trailing_cut keep (log_first_index l) pss k
    ∧ (log_synced σ l → Forall (seg_synced σ') (take k (rev rsegs))).
Proof.
  revert pss σ l. induction rsegs as [|s rest IH]; intros pss σ l Hs Hr Es.
  { pose proof (lr_segs _ _ _ Hr) as Hf. rw Es in Hf. apply Forall2_nil_inv_l in Hf.
    by destruct (lr_nonempty _ _ _ Hr). }
  destruct (log_rep_snoc _ _ _ Hr) as (init & act & ipss & aps & Es' & -> & Hi & Ha & Hne & _ & Hb).
  simpl in Es. rw Es in Es'. apply app_inj_2 in Es' as [<- [= <-]]; [|done].
  assert (length (rev rest) = length ipss) as Hlen by (by eapply Forall2_length).
  assert (trailing_cut keep (log_first_index l) (ipss ++ [aps]) (length (ipss ++ [aps])) →
    (Ok tt, (s :: rest, σ)) = (Ok tt, (rev (take (length (ipss ++ [aps])) (rev (s :: rest))), σ)) ∧
    log_rep σ (set_last_index (log_first_index l +
        zlen (concat (take (length (ipss ++ [aps])) (ipss ++ [aps]))) - 1)
      (set_segments (take (length (ipss ++ [aps])) (rev (s :: rest))) l))
      (take (length (ipss ++ [aps])) (ipss ++ [aps])) ∧ fault_free σ ∧
    trailing_cut keep (log_first_index l) (ipss ++ [aps]) (length (ipss ++ [aps])) ∧
    (log_synced σ l → Forall (seg_synced σ) (take (length (ipss ++ [aps])) (rev (s :: rest)))))
    as Hstop.
  { intros Hc. rw (take_ge (ipss ++ [aps])) // -(lr_last _ _ _ Hr) take_ge /=.
    { rw !length_app Hlen /=. lia. }
    rw rev_app_distr rev_involutive /= /log_synced -Es. split_and!; try done. by destruct l. }
  cbn [remove_trailing]. destruct rest as [|s2 rest].
  { eexists _, σ. apply Hstop. apply Forall2_nil_inv_l in Hi as ->. rw /trailing_cut /=. lia. }
  destruct (Z.ltb_spec keep (seg_base_index s)) as [Hlt|Hge]; last first.
  { eexists _, σ. apply Hstop. rw /trailing_cut length_app /= Nat.add_1_r.
    split; [lia|split; [lia|]]. intros _. rw /= take_app_length. lia. }
  assert (ipss ≠ []) as Hne'.
  { intros ->. rw /= length_app /= in Hlen. lia. }
  rw (segment_remove_ok _ _ _ Hs Ha).
  pose proof (log_rep_remove_last _ _ _ _ _ _ Hr Es Hne') as Hr1.
  destruct (IH ipss (removed s σ) _ Hs Hr1 eq_refl) as (k & σ' & E & Hr' & Hs' & (Hk & Hc & Hm) & Hsy).
  exists k, σ'. change (rev (s :: s2 :: rest)) with (rev (s2 :: rest) ++ [s]).
  rw (take_app_le (rev (s2 :: rest))); [rw Hlen; lia|].
  rw (take_app_le ipss); [lia|].
  split_and!; [exact E|exact Hr'|done| |].
  - rw /trailing_cut length_app /=. split; [lia|]. rw take_app_le; [lia|]. split.
    + intros _. destruct (decide (k < length ipss)%nat) as [Hk'|]; [by apply Hc|].
      rw take_ge; [lia|]. simpl in Hc. lia.
    + intros Hk1. rw take_app_le; [lia|]. by apply Hm.
  - intros Hsyn. apply Hsy. simpl. rw /log_synced Es in Hsyn. apply Forall_app in Hsyn as [Hsyn _].
    apply removed_synced; [done|]. pose proof (lr_files _ _ _ Hr) as Hnd.
    rw Es fmap_app in Hnd. apply NoDup_app in Hnd as (_ & Hdis & _).
    intros Hin. apply (Hdis _ Hin). simpl. set_solver.
Qed.

(** *** Rewriting the straddling segment *)

Lemma survivors_frames fuel keep b ps pos :
  (length ps < fuel)%nat → small ps → 0 ≤ b → b + zlen ps ≤ u64_max → b - 1 ≤ keep →
  survivors fuel keep b (iter_at (frames ps) pos) = Ok (take (Z.to_nat (keep - b + 1)) ps).
Proof.
  intros Hf Hs. revert fuel b pos Hf.
  induction Hs as [|p ps Hp Hps IH]; intros [|fuel] b pos Hf Hb Hm Hk; simpl in Hf; try lia;
    cbn [survivors].
  - rw frames_nil. pose proof (iter_next_nil pos).
    destruct (iter_next (iter_at [] pos)) as [[]]; simplify_eq/=. by rw take_nil.
  - rw zlen_cons in Hm. pose proof (zlen_nonneg ps). rw frames_cons iter_next_cons //.
    destruct (Z.ltb_spec keep b) as [Hlt|Hge].
    { by replace (Z.to_nat (keep - b + 1)) with 0%nat by lia. }
    rw u64_add_small; [lia|]. rw IH; [lia..|].
    by replace (Z.to_nat (keep - b + 1)) with (S (Z.to_nat (keep - (b + 1) + 1))) by lia.
Qed.

#[local] Arguments survivors : simpl never.

(** An empty fresh segment in place of the active one. *)
Lemma log_rep_fresh_active σ l init act ipss aps :
  log_rep σ l (ipss ++ [aps]) → log_segments l = init ++ [act] →
  let σ1 := removed act σ in
  let fresh := MkSegment (seg_base_index act) (seg_path act) (bw_new (fs_next σ1)) 0 0 in
  log_rep (add_file (seg_path act) σ1)
    (set_last_index (log_first_index l + zlen (concat (ipss ++ [[]])) - 1)
       (set_segments (init ++ [fresh]) l)) (ipss ++ [[]]).
Proof.
  intros Hr Es σ1 fresh. pose proof (log_rep_paths_NoDup _ _ _ Hr) as Hnp.
  pose proof (log_rep_seg _ _ _ Hr) as Hreps.
  destruct Hr as [Hwf Hdir Hsegs _ Hint Hbs Hps Hfs Hfst Hls Hbd Hon].
  rw Es in Hsegs Hbs Hps Hfs Hon Hnp Hreps.
  rw fmap_app in Hbs. rw fmap_app in Hfs. rw fmap_app in Hnp. rw fmap_app in Hon.
  apply NoDup_app in Hfs as (Hf1 & Hf2 & _). apply NoDup_app in Hnp as (Hp1 & Hp2 & _).
  apply Forall2_app_inv in Hsegs as [Hsegs _]; last first.
  { apply Forall2_length in Hsegs. rw !length_app /= in Hsegs. lia. }
  assert (seg_path act ∉ seg_path <$> init) as Hpa.
  { intros Hin. apply (Hp2 _ Hin). simpl. set_solver. }
  assert (seg_file act ∉ seg_file <$> init) as Hfa.
  { intros Hin. apply (Hf2 _ Hin). simpl. set_solver. }
  assert (∀ s, s ∈ init → (seg_file s < fs_next σ)%nat) as Hlt.
  { intros s Hs. destruct (Hreps s) as [ps Hsp]; [set_solver|]. by eapply seg_rep_file_lt. }
  rw concat_app zlen_app in Hls. rw concat_app zlen_app /=.
  rw /= app_nil_r in Hls. pose proof (zlen_nonneg aps). rw zlen_nil. split; simpl; try done.
  - by apply add_file_wf, removed_wf.
  - apply Forall2_app; [|constructor; [apply add_file_rep|constructor]].
    eapply seg_reps_frame; [by eapply removed_reps|]. intros s Hs. simpl. split.
    + rw lookup_insert_ne //. intros E. apply Hpa. rw E. by apply list_elem_of_fmap_2.
    + rw lookup_insert_ne //. pose proof (Hlt s Hs). lia.
  - by destruct ipss.
  - by rw interior_snoc -(interior_snoc _ aps).
  - rw fmap_app /= bases_from_app /=. rw bases_from_app in Hbs. exact Hbs.
  - rw Forall_app Forall_singleton. rw Forall_app Forall_singleton in Hps. done.
  - rw fmap_app /=. apply NoDup_app. split_and!; [done| |apply NoDup_singleton].
    intros fd (s & -> & Hs)%list_elem_of_fmap. pose proof (Hlt s Hs).
    rw list_elem_of_singleton /seg_file /=. unfold seg_file in *. lia.
  - rw concat_app zlen_app /= zlen_nil. lia.
  - lia.
  - intros n fd. rw lookup_insert fmap_app /=. case_decide as E.
    + intros _ _. rw -E. set_solver.
    + intros [Hne' Hn]%lookup_delete_Some Hseg. pose proof (Hon _ _ Hn Hseg). set_solver.
Qed.

Lemma rewrite_active_rep keep l σ init act ipss aps :
  fault_free σ → log_rep σ l (ipss ++ [aps]) → log_segments l = init ++ [act] →
  seg_flushed act → seg_base_index act - 1 ≤ keep ≤ log_last_index l →
  let aps' := take (Z.to_nat (keep - seg_base_index act + 1)) aps in
  ∃ act' σ', (∀ i, rewrite_active keep (set_last_index i l, σ) =
      (Ok tt, (set_last_index keep (set_segments (init ++ [act']) l), σ')))
    ∧ log_rep σ' (set_last_index keep (set_segments (init ++ [act']) l)) (ipss ++ [aps'])
    ∧ fault_free σ' ∧ seg_synced σ' act'
    ∧ (Forall (seg_synced σ) init → Forall (seg_synced σ') init).
Proof.
  intros Hs Hr Es Hfl Hk aps'.
  destruct (log_rep_snoc _ _ _ Hr) as (init_ & act_ & ipss_ & aps_ & Es_ & Ep_ & _ & Ha & _ & _ & Hb).
  rw Es in Es_. apply app_inj_2 in Es_ as [<- [= <-]]; [|done].
  apply app_inj_2 in Ep_ as [<- [= <-]]; [|done].
  pose proof (lr_first _ _ _ Hr) as Hfst. pose proof (lr_last _ _ _ Hr) as Hl.
  pose proof (lr_bound _ _ _ Hr) as Hbd.
  rw concat_app zlen_app /= app_nil_r in Hl. pose proof (zlen_nonneg (concat ipss)).
  destruct (segment_iter_ok _ _ _ Hs Ha Hfl) as [Eit Hfu].
  assert (small aps) as Hsm by apply Ha.
  pose proof (log_rep_fresh_active _ _ _ _ _ _ Hr Es) as Hr2.
  cbn zeta in Hr2. set (σ1 := removed act σ) in *. set (σ2 := add_file (seg_path act) σ1) in *.
  set (fresh := MkSegment (seg_base_index act) (seg_path act) (bw_new (fs_next σ1)) 0 0) in *.
  destruct (segment_appends_rep aps' fresh σ2 [] Hs (add_file_rep _ _ _))
    as (act1 & σ3 & E3 & Hr3 & _ & Hs3 & Hf3 & Hp3 & Hb3 & Ho3); [by apply Forall_take|].
  destruct (segment_sync_rep act1 σ3 aps' Hs3 Hr3) as (E4 & Hr4 & Hsy4 & _).
  set (act' := set_writer _ act1) in *. set (σ4 := make_durable _ _) in *.
  exists act', σ4.
  assert (only_files [seg_file fresh] σ2 σ4) as Ho.
  { apply (only_files_mono ([seg_file fresh] ++ [seg_file fresh])); [set_solver|].
    eapply only_files_trans; [exact Ho3|].
    apply (only_files_mono ([seg_file fresh] ++ [seg_file fresh])); [set_solver|].
    rw /seg_file -Hf3. eapply only_files_trans; apply only_files_alter. }
  assert (log_first_index l + zlen (concat (ipss ++ [aps'])) - 1 = keep) as Hkeep.
  { rw concat_app zlen_app /= app_nil_r /aps' /zlen length_take. unfold zlen in *. lia. }
  split_and!; [| |exact Hs3|exact Hsy4|].
  - intros i. rw /rewrite_active /bind /gets /= Es last_snoc /= /on_fs /zoom /= Eit /= /lift.
    rw survivors_frames //; [lia..|]. rw /modify /= (segment_remove_ok _ _ _ Hs Ha) -/σ1.
    rw segment_create_ok //.
    { rw (proj1 (Forall_forall _ _) (lr_paths _ _ _ Hr) act); [rw Es; set_solver|].
      apply parent_exists_join, Hr. }
    { apply lookup_delete_eq. }
    rw E3 E4 Es removelast_last //.
  - rw -Hkeep. pose proof (log_rep_update_active σ2 σ4 _ init fresh act' ipss [] aps' Hr2 eq_refl)
      as Hfin. apply Hfin; try done. simpl. lia.
  - intros Hsi. apply Forall_forall. intros t Ht.
    eapply seg_synced_frame; [by eapply Forall_forall in Hsi|].
    pose proof (lr_files _ _ _ Hr) as Hnd. rw Es fmap_app in Hnd.
    apply NoDup_app in Hnd as (_ & Hdis & _).
    assert (seg_file t < fs_next σ)%nat as Hlt.
    { destruct (log_rep_seg _ _ _ Hr t) as [ps Hps]; [rw Es; set_solver|].
      by eapply seg_rep_file_lt; [apply Hr|]. }
    rw (of_inodes _ _ _ Ho). { rw list_elem_of_singleton /seg_file /=. unfold seg_file in Hlt. lia. }
    rw /= lookup_insert_ne; [unfold seg_file in Hlt; lia|]. rw lookup_alter_ne //.
    intros E. apply (Hdis (seg_file t)); [by apply list_elem_of_fmap_2|]. rw /seg_file -E /=.
    set_solver.
Qed.

Lemma take_snoc_pred {A} k (l l1 : list A) a :
  (k ≤ length l)%nat → take k l = l1 ++ [a] → take (pred k) l = l1.
Proof.
  intros Hk E. pose proof (f_equal length E) as El. rw length_take length_app /= in El.
  replace (pred k) with (length l1) by lia.
  trans (take (length l1) (take k l)); [rw take_take; f_equal; lia|by rw E take_app_length].
Qed.

Lemma log_truncate_suffix_rep keep l σ pss :
  fault_free σ → log_rep σ l pss → log_flushed l →
  log_first_index l - 1 ≤ keep < log_last_index l →
  ∃ l' σ' pss', log_truncate_suffix keep (l, σ) = (Ok tt, (l', σ'))
    ∧ log_rep σ' l' pss' ∧ fault_free σ'
    ∧ concat pss' = take (Z.to_nat (keep - log_first_index l + 1)) (concat pss)
    ∧ log_first_index l' = log_first_index l ∧ log_last_index l' = keep
    ∧ log_dir l' = log_dir l ∧ log_max_segment_bytes l' = log_max_segment_bytes l
    ∧ (log_synced σ l → log_synced σ' l').
Proof.
  intros Hs Hr Hfl Hk.
  pose proof (lr_first _ _ _ Hr) as Hfst. pose proof (lr_last _ _ _ Hr) as Hl.
  pose proof (lr_bound _ _ _ Hr) as Hbd.
  destruct (remove_trailing_rep keep (rev (log_segments l)) pss σ l Hs Hr)
    as (k & σ1 & E1 & Hr1 & Hs1 & (Hk1 & Hk2 & Hk3) & Hsy1); [by rw rev_involutive|].
  rw !rev_involutive in E1 Hr1 Hsy1.
  destruct (log_rep_snoc _ _ _ Hr1) as (init & act & ipss & aps & Ei & Ep & _ & _ & _ & _ & Hb).
  cbn [log_segments set_last_index set_segments log_first_index] in Ei, Hb.
  pose proof (take_snoc_pred k pss ipss aps ltac:(lia) Ep) as Epred. rw Epred in Hk3.
  assert (first_le : seg_base_index act - 1 ≤ keep).
  { rw Hb. destruct (decide (1 < k)%nat) as [Hgt|]; [specialize (Hk3 Hgt); lia|].
    assert (ipss = []) as ->; [|rw /= zlen_nil; lia].
    rw -Epred. by replace k with 1%nat by lia. }
  assert (keep ≤ log_first_index l + zlen (concat (take k pss)) - 1) as Hle.
  { destruct (decide (k < length pss)%nat) as [Hlt|]; [specialize (Hk2 Hlt); lia|].
    rw take_ge; lia. }
  rw Ep in Hr1 Hle. 
  destruct (rewrite_active_rep keep _ _ init act ipss aps Hs1 Hr1 Ei)
    as (act' & σ2 & E2 & Hr2 & Hs2 & Hsy2 & Hsy3); [|simpl; lia|].
  { apply (proj1 (Forall_forall _ _) Hfl). apply list_elem_of_In.
    rw -(take_drop k (log_segments l)) Ei. apply list_elem_of_In. set_solver. }
  set (aps' := take _ aps) in *. rw concat_app zlen_app /= app_nil_r in Hle.
  eexists _, σ2, (ipss ++ [aps']). split; [|split; [exact Hr2|split; [exact Hs2|]]].
  { rw /log_truncate_suffix /bind /gets. cbn [fst].
    destruct (Z.leb_spec (log_last_index l) keep); [lia|]. rw u64_add_small; [lia|].
    destruct (Z.ltb_spec (keep + 1) (log_first_index l)); [lia|].
    rw E1. rw rev_involutive. exact (E2 (log_last_index l)). }
  split; [|split_and!; try done].
  - rw -(take_drop k pss) Ep !concat_app /= !app_nil_r -app_assoc.
    rw (take_app_ge (concat ipss)). { unfold zlen in *. lia. }
    f_equal. rw take_app_le. { unfold zlen in *. lia. }
    rw /aps'. f_equal. unfold zlen in *. lia.
  - intros Hsy. specialize (Hsy1 Hsy). rw Ei in Hsy1. apply Forall_app in Hsy1 as [Hi _].
    rw /log_synced /=. apply Forall_app. split; [by apply Hsy3|]. by constructor.
Qed.

(** *** Opening a log *)

(** File sizes fit [u64]. *)
Definition files_bounded (σ : fs) : Prop := ∀ fd, zlen (file_data σ fd) ≤ u64_max.

Lemma files_bounded_alt σ :
  map_Forall (λ _ i, zlen (i_data i) ≤ u64_max) (fs_inodes σ) → files_bounded σ.
Proof.
  intros Hm fd. rw /file_data. destruct (fs_inodes σ !! fd) as [i|] eqn:E; simpl; [|done].
  by apply (Hm fd).
Qed.

(** The segment that recovery makes of a flushed one. *)
Definition reopened (s : Segment) : Segment := set_writer (bw_new (seg_file s)) s.

Lemma segment_recover_rep s ps σ :
  fault_free σ → seg_rep σ s ps → seg_flushed s → zlen (file_data σ (seg_file s)) ≤ u64_max →
  ∃ σ', segment_recover (seg_path s) (seg_base_index s) σ = (Ok (reopened s), σ')
    ∧ seg_rep σ' (reopened s) ps ∧ seg_synced σ' (reopened s) ∧ only_files [seg_file s] σ σ'.
Proof.
  intros Hs Hr Hf Hmax. pose proof (rep_data _ _ _ Hr) as Hd. rw Hf app_nil_r -/(seg_file s) in Hd.
  pose proof (segment_recover_ok _ (seg_base_index s) _ _ Hs (rep_name _ _ _ Hr)) as E.
  pose proof (recovered_rep (seg_path s) (seg_base_index s) _ σ (rep_name _ _ _ Hr)
                (rep_inode _ _ _ Hr)) as Hrep.
  assert (records (frames ps) = (ps, [])) as Er.
  { rw -{1}(app_nil_r (frames ps)) records_frames; [apply Hr|]. by rw records_nil /= app_nil_r. }
  rw -/(seg_file s) Hd Er in E, Hrep. cbn [fst] in Hrep. rw Hd in Hmax.
  assert (MkSegment (seg_base_index s) (seg_path s) (bw_new (seg_file s)) (zlen (frames ps))
            (u64 (zlen ps)) = reopened s) as Es.
  { rw /reopened /set_writer (rep_count _ _ _ Hr) (rep_bytes _ _ _ Hr) (u64_small (zlen (frames ps))) //.
    pose proof (zlen_nonneg (frames ps)). lia. }
  cbn zeta in E. rw Es in E, Hrep. eexists. split; [exact E|]. destruct Hrep as [H1 H2]; [done|].
  split_and!; [done..|].
  apply (only_files_mono ([seg_file s] ++ [seg_file s])); [set_solver|].
  eapply only_files_trans; apply only_files_alter.
Qed.

Lemma recover_all_rep dir segs pss σ :
  fault_free σ → Forall2 (seg_rep σ) segs pss → Forall seg_flushed segs →
  NoDup (seg_file <$> segs) → Forall (λ s, zlen (file_data σ (seg_file s)) ≤ u64_max) segs →
  Forall (λ s, seg_path s = segment_path dir (seg_base_index s)) segs →
  ∃ σ', recover_all dir (seg_base_index <$> segs) σ = (Ok (reopened <$> segs), σ')
    ∧ Forall2 (seg_rep σ') (reopened <$> segs) pss ∧ Forall (seg_synced σ') (reopened <$> segs)
    ∧ only_files (seg_file <$> segs) σ σ'.
Proof.
  intros Hs Hr. revert σ Hs Hr. revert pss.
  induction segs as [|s segs IH]; intros pss σ Hs Hr Hfl Hnd Hmax Hp.
  { apply Forall2_nil_inv_l in Hr as ->. by exists σ. }
  apply Forall2_cons_inv_l in Hr as (ps & pss' & Hr1 & Hr2 & ->).
  rw fmap_cons in Hnd. apply NoDup_cons in Hnd as [Hnin Hnd].
  apply Forall_cons in Hfl as [Hf1 Hf2]. apply Forall_cons in Hmax as [Hm1 Hm2].
  apply Forall_cons in Hp as [Hp1 Hp2].
  destruct (segment_recover_rep s ps σ Hs Hr1 Hf1 Hm1) as (σ1 & E1 & Hr1' & Hsy1 & Ho).
  assert (∀ t, t ∈ segs → fs_inodes σ1 !! seg_file t = fs_inodes σ !! seg_file t) as Hsame.
  { intros t Ht. apply (of_inodes _ _ _ Ho), not_elem_of_cons. split; [|apply not_elem_of_nil].
    intros Et. apply Hnin. rw -Et. by apply list_elem_of_fmap_2. }
  destruct (IH pss' σ1) as (σ2 & E2 & Hr2' & Hsy2 & Ho2); try done.
  - by eapply only_files_fault_free.
  - eapply seg_reps_frame; [exact Hr2|]. intros t Ht. rw (of_names _ _ _ Ho). auto.
  - apply Forall_forall. intros t Ht. rw /file_data Hsame //.
    by apply (proj1 (Forall_forall _ _) Hm2 t).
  - exists σ2. rw !fmap_cons. cbn [recover_all].
    rw -Hp1 (bind_Ok _ _ _ _ _ E1) (bind_Ok _ _ _ _ _ E2).
    pose proof (of_inodes _ _ _ Ho2 _ Hnin) as Hs2.
    split_and!; [done| | |].
    + constructor; [|done]. eapply seg_rep_frame; [exact Hr1'|by rw (of_names _ _ _ Ho2)|exact Hs2].
    + constructor; [|done]. by eapply seg_synced_frame.
    + apply (only_files_trans [seg_file s] _ _ σ1 _ Ho Ho2).
Qed.

(** [discover_segments] when no name is malformed. *)
Definition base_of_name (n : string) : option Z := mjoin (segment_of_name n).

Lemma discover_loop_ok names acc :
  Forall (λ n, segment_of_name n ≠ Some None) names →
  discover_loop names acc = Ok (acc ++ omap base_of_name names).
Proof.
  intros Hn. revert acc. induction Hn as [|n names Hn _ IH]; intros acc; [by rw app_nil_r|].
  cbn [discover_loop omap list_omap]. rw /base_of_name.
  destruct (segment_of_name n) as [[b|]|]; [|done|]; rw IH //= -app_assoc //.
Qed.

Lemma log_rep_names σ l pss n :
  log_rep σ l pss → n ∈ dir_entries (log_dir l) (fs_names σ) → segment_of_name n ≠ None →
  ∃ s, s ∈ log_segments l ∧ n = segment_name (seg_base_index s)
     ∧ segment_of_name n = Some (Some (seg_base_index s)).
Proof.
  intros Hr [fd Hfd]%elem_of_dir_entries Hn.
  pose proof (lr_only _ _ _ Hr _ _ Hfd Hn) as (s & Ep & Hs)%list_elem_of_fmap.
  rw (proj1 (Forall_forall _ _) (lr_paths _ _ _ Hr) s Hs) in Ep. apply join_inj in Ep as ->.
  exists s. split_and!; [done..|]. apply segment_of_name_name.
  pose proof (log_rep_base_range _ _ _ _ Hr Hs). pose proof (lr_first _ _ _ Hr).
  pose proof (lr_bound _ _ _ Hr). lia.
Qed.

Lemma StronglySorted_bases_from b pss : StronglySorted Z.le (bases_from b pss).
Proof.
  revert b. induction pss as [|ps pss IH]; intros b; simpl; constructor; [done|].
  apply Forall_forall. intros x Hx%bases_from_ge. pose proof (zlen_nonneg ps). lia.
Qed.

(** [discover_segments] in a directory whose segment files are named after [bs]. *)
Lemma discover_bases dir bs σ :
  fault_free σ → dir ∈ fs_dirs σ → NoDup bs → StronglySorted Z.le bs →
  Forall (λ b, 0 ≤ b ≤ u64_max) bs →
  (∀ n fd, fs_names σ !! join dir n = Some fd → segment_of_name n ≠ None →
           ∃ b, b ∈ bs ∧ n = segment_name b) →
  (∀ b, b ∈ bs → is_Some (fs_names σ !! segment_path dir b)) →
  ∃ bases, discover_segments dir σ = (Ok bases, σ) ∧ merge_sort Z.le bases = bs.
Proof.
  intros Hs Hdir Hnd Hso Hrg Hof Hin.
  assert (∀ n, n ∈ dir_entries dir (fs_names σ) → segment_of_name n ≠ None →
            ∃ b, b ∈ bs ∧ n = segment_name b ∧ segment_of_name n = Some (Some b)) as Hnames.
  { intros n [fd Hfd]%elem_of_dir_entries Hn. destruct (Hof n fd Hfd Hn) as (b & Hb & ->).
    exists b. split_and!; [done..|]. by apply segment_of_name_name, (proj1 (Forall_forall _ _) Hrg). }
  exists (omap base_of_name (dir_entries dir (fs_names σ))). split.
  { rw /discover_segments /read_dir /bind syscall_ok // bool_decide_eq_true_2 //.
    rw /lift discover_loop_ok //. apply Forall_forall. intros n Hn E.
    destruct (Hnames n Hn) as (s & _ & _ & E'); [by rw E|]. by rw E in E'. }
  apply (StronglySorted_unique Z.le); [apply StronglySorted_merge_sort; apply _|done|].
  rw merge_sort_Permutation. apply NoDup_Permutation; [|done|].
  - pose proof (NoDup_dir_entries dir (fs_names σ)) as Hnd'. clear Hin Hof.
    induction Hnd' as [|n ns Hn Hnd' IH]; [by constructor|]. simpl.
    assert (∀ b m, base_of_name m = Some b → m ∈ n :: ns → m = segment_name b) as Hinv.
    { intros b m Hb Hm. rw /base_of_name in Hb.
      destruct (Hnames m Hm) as (b' & _ & -> & E); [by intros E; rw E in Hb|].
      rw E in Hb. by injection Hb as ->. }
    destruct (base_of_name n) as [b|] eqn:Eb; [|apply IH; set_solver].
    constructor; [|apply IH; set_solver].
    intros (m & Hm & Em)%list_elem_of_omap. apply Hn.
    assert (m = n) as <-; [|done]. rw (Hinv b n Eb); [set_solver|]. apply Hinv; set_solver.
  - intros b. rw list_elem_of_omap. split.
    + intros (n & Hn & Hb). destruct (Hnames n Hn) as (b' & Hin' & -> & E).
      { intros E. by rw /base_of_name E in Hb. }
      rw /base_of_name E in Hb. by injection Hb as <-.
    + intros Hb. exists (segment_name b). split; [apply elem_of_dir_entries, Hin, Hb|].
      rw /base_of_name segment_of_name_name //. by apply (proj1 (Forall_forall _ _) Hrg).
Qed.

(** The bases that [discover_segments] finds, once sorted, are those of the log. *)
Lemma log_rep_discover σ l pss :
  fault_free σ → log_rep σ l pss →
  ∃ bases, discover_segments (log_dir l) σ = (Ok bases, σ)
    ∧ merge_sort Z.le bases = seg_base_index <$> log_segments l.
Proof.
  intros Hs Hr. pose proof (lr_first _ _ _ Hr). pose proof (lr_bound _ _ _ Hr).
  apply discover_bases; [done|apply Hr|rw (lr_bases _ _ _ Hr); apply NoDup_bases_from, Hr| | | |].
  - rw (lr_bases _ _ _ Hr). apply StronglySorted_bases_from.
  - apply Forall_forall. intros b (s & -> & Hin)%list_elem_of_fmap.
    pose proof (log_rep_base_range _ _ _ _ Hr Hin). lia.
  - intros n fd Hfd Hn. destruct (log_rep_names _ _ _ n Hr) as (s & Hin & -> & E); [|done|].
    + apply elem_of_dir_entries. eauto.
    + exists (seg_base_index s). split; [by apply list_elem_of_fmap_2|done].
  - intros b (s & -> & Hin)%list_elem_of_fmap. destruct (log_rep_seg _ _ _ Hr s Hin) as [ps Hps].
    rw -(proj1 (Forall_forall _ _) (lr_paths _ _ _ Hr) s Hin) (rep_name _ _ _ Hps). eauto.
Qed.

Lemma with_dir_rep d σ l pss : log_rep σ l pss → log_rep (with_dir d σ) l pss.
Proof.
  intros [[Hn Hdn Hf] Hdir Hsegs Hne Hint Hbs Hps Hfs Hfst Hls Hbd Hon].
  split; try done; [by apply elem_of_union_r|].
  eapply seg_reps_frame; [exact Hsegs|done].
Qed.

Lemma log_open_fresh_rep dir max σ :
  fault_free σ → fs_wf σ →
  (∀ n fd, fs_names σ !! join dir n = Some fd → segment_of_name n = None) →
  ∃ l σ', log_open dir max σ = (Ok l, σ') ∧ log_rep σ' l [[]] ∧ fault_free σ'
    ∧ log_synced σ' l ∧ log_dir l = dir ∧ log_max_segment_bytes l = max
    ∧ log_first_index l = 1 ∧ log_last_index l = 0
    ∧ ∀ p, p ≠ segment_path dir 1 → fs_names σ' !! p = fs_names σ !! p.
Proof.
  intros Hs Hwf Hno. set (σ1 := with_dir dir σ).
  assert (discover_segments dir σ1 = (Ok [], σ1)) as Ed.
  { rw /discover_segments /read_dir /bind syscall_ok // bool_decide_eq_true_2;
      [apply with_dir_elem|].
    rw /lift discover_loop_ok; [apply Forall_forall; intros n [fd Hn%Hno]%elem_of_dir_entries E;
      by rw E in Hn|]. f_equal. f_equal. cbn [app].
    destruct (omap base_of_name _) as [|b bs] eqn:E; [done|exfalso].
    assert (b ∈ b :: bs) as Hb by set_solver. rw -E in Hb.
    apply list_elem_of_omap in Hb as (n & [fd Hn%Hno]%elem_of_dir_entries & Hb).
    by rw /base_of_name Hn in Hb. }
  assert (fs_names σ !! segment_path dir 1 = None) as Hfree.
  { destruct (fs_names σ !! segment_path dir 1) as [fd|] eqn:E; [exfalso|done].
    by apply Hno in E. }
  rw /log_open (bind_Ok _ _ _ _ _ (create_dir_all_ok _ _ Hs)) -/σ1 (bind_Ok _ _ _ _ _ Ed) /=.
  rw /bind segment_create_ok //; [apply parent_exists_join, (with_dir_elem dir σ)|].
  rw /ret /=. eexists _, _. split; [done|]. split; [|split_and!; try done].
  - split; simpl; try done.
    + apply add_file_wf. destruct Hwf. by split.
    + exact (with_dir_elem dir σ).
    + constructor; [exact (add_file_rep _ _ σ1)|constructor].
    + intros ipss aps E. destruct ipss as [|? [|]]; done.
    + by repeat constructor.
    + apply NoDup_singleton.
    + intros n fd. rw lookup_insert. case_decide as E; [rw -E; set_solver|].
      by intros Hn%Hno.
  - constructor; [|done]. split; [done|]. by rw /file_data /file_durable /= lookup_insert_eq.
  - intros p Hp. by rw /= lookup_insert_ne.
Qed.

Lemma log_reopen_rep l σ pss max :
  fault_free σ → log_rep σ l pss → log_flushed l → files_bounded σ →
  ∃ l' σ', log_open (log_dir l) max σ = (Ok l', σ') ∧ log_rep σ' l' pss ∧ fault_free σ'
    ∧ log_synced σ' l'
    ∧ l' = MkLog (log_dir l) max (reopened <$> log_segments l) (log_first_index l) (log_last_index l)
    ∧ fs_names σ' = fs_names σ
    ∧ ∀ fd, fd ∉ seg_file <$> log_segments l → fs_inodes σ' !! fd = fs_inodes σ !! fd.
Proof.
  intros Hs Hr Hfl Hmax. pose proof (with_dir_rep (log_dir l) _ _ _ Hr) as Hr1.
  set (σ1 := with_dir (log_dir l) σ) in *. assert (fault_free σ1) as Hs1 by done.
  destruct (log_rep_discover σ1 l pss Hs1 Hr1) as (bases & Ed & Esort).
  destruct (recover_all_rep (log_dir l) _ pss σ1 Hs1 (lr_segs _ _ _ Hr1) Hfl
    (lr_files _ _ _ Hr1)) as (σ2 & Er & Hr2 & Hsy2 & Ho); [|apply Hr1|].
  { apply Forall_forall. intros s _. apply Hmax. }
  set (l' := MkLog _ _ _ _ _). exists l', σ2.
  destruct (log_rep_snoc _ _ _ Hr1) as (init & act & ipss & aps & Es & -> & Hrest).
  destruct Hrest as (_ & Ha & Hne & Hbi & Hb).
  assert (head (seg_base_index <$> log_segments l) = Some (log_first_index l)) as Hhd.
  { rw (lr_bases _ _ _ Hr) bases_from_app. destruct ipss; simpl; [|done].
    by rw zlen_nil Z.add_0_r. }
  assert (seg_count act = zlen aps) as Hc.
  { apply (log_rep_count _ _ _ _ _ Hr1). rw Es zip_with_app /=; [|set_solver].
    pose proof (Forall2_length _ _ _ (lr_segs _ _ _ Hr1)) as Hlen.
    rw Es !length_app /= in Hlen. lia. }
  split_and!; [| |by eapply only_files_fault_free|done|done|by rw (of_names _ _ _ Ho)
    |intros fd; apply (of_inodes _ _ _ Ho)].
  - rw /log_open (bind_Ok _ _ _ _ _ (create_dir_all_ok _ _ Hs)) -/σ1 (bind_Ok _ _ _ _ _ Ed) Esort.
    destruct (log_segments l) as [|s0 segs] eqn:El; [by destruct init|].
    rw fmap_cons -fmap_cons (bind_Ok _ _ _ _ _ Er) Es fmap_app last_snoc.
    injection Hhd as Hhd. rw -fmap_app -Es /= /bind /ret /= /l' fmap_cons. do 3 f_equal; [done|].
    pose proof (lr_first _ _ _ Hr). pose proof (lr_bound _ _ _ Hr). rw (lr_last _ _ _ Hr) in H1 |- *.
    rw concat_app zlen_app /= app_nil_r in H1 |- *. rw Hc Hb.
    pose proof (zlen_nonneg aps). pose proof (zlen_nonneg (concat ipss)).
    destruct (Z.eqb_spec (zlen aps) 0) as [E0|]; [rw u64_sub_small; lia|].
    rw u64_add_small; [lia|]. rw u64_sub_small; lia.
  - destruct Hr1 as [Hwf Hdir Hsegs Hne0 Hint Hbs Hps Hfs Hfst Hls Hbd Hon].
    split; simpl; try done.
    + by eapply of_wf.
    + by rw (of_dirs _ _ _ Ho).
    + by rw -list_fmap_compose.
    + by rw Forall_fmap.
    + by rw -list_fmap_compose.
    + intros n fd. rw (of_names _ _ _ Ho) -list_fmap_compose. apply Hon.
Qed.

End log_rep_facts.

(** *** Crashes *)

Lemma log_rep_crash `{Crc32} σ σc l pss :
  log_rep σ l pss → log_synced σ l → crash σ σc → entries_kept (log_dir l) σ σc →
  log_rep σc l pss ∧ fault_free σc.
Proof.
  intros Hr Hsy Hcr Hn. split; [|apply Hcr].
  destruct Hr as [Hwf Hdir Hsegs Hne Hint Hbs Hps Hfs Hfst Hls Hbd Hon].
  split; try done; [by eapply crash_wf|by rw (crash_dirs _ _ Hcr)| |].
  - rw /log_synced in Hsy. clear Hbs Hfs Hon Hne Hint Hls.
    induction Hsegs as [|s ps segs pss Hs _ IH]; constructor.
    + apply Forall_cons in Hsy as [[Hb Hd] _]. apply Forall_cons in Hps as [Hp _].
      destruct Hs as [H1 H2 H3 H4 H5 H6]. split; try done.
      * rw Hp Hn -/(segment_path (log_dir l) (seg_base_index s)) -Hp //.
      * by apply (crash_is_Some _ _ _ Hcr).
      * by rw (crash_synced _ _ _ Hcr).
    + apply Forall_cons in Hsy as [_ Hsy]. apply Forall_cons in Hps as [_ Hps]. by apply IH.
  - intros n fd. rw Hn. apply Hon.
Qed.

(** ** The contract *)

(** [l] on disk [σ] implements the abstract log [a]. *)
Definition log_abs `{Crc32} (σ : fs) (l : Log) (a : alog) : Prop :=
  ∃ pss, log_rep σ l pss ∧ a = MkALog (log_first_index l) (concat pss).

(** The abstract operations. *)
Definition al_append (p : list byte) (a : alog) : alog :=
  MkALog (al_first a) (al_records a ++ [p]).
Definition al_drop (i : Z) (a : alog) : alog :=
  MkALog (al_first a + i) (drop (Z.to_nat i) (al_records a)).
Definition al_keep (keep : Z) (a : alog) : alog :=
  MkALog (al_first a) (take (Z.to_nat (keep - al_first a + 1)) (al_records a)).

Lemma log_abs_range `{Crc32} σ l a :
  log_abs σ l a →
  al_first a = log_first_index l ∧ al_last a = log_last_index l
  ∧ 1 ≤ al_first a ≤ al_last a + 1 ∧ al_last a < u64_max.
Proof.
  intros (pss & Hr & ->). rw /al_last /=. pose proof (lr_first _ _ _ Hr).
  pose proof (lr_last _ _ _ Hr). pose proof (lr_bound _ _ _ Hr).
  pose proof (zlen_nonneg (concat pss)). lia.
Qed.

Lemma al_entries_numbered a : al_entries a = numbered (al_first a) (al_records a).
Proof. done. Qed.

Section log_properties.
Context `{Crc32}.
Implicit Types (l : Log) (a : alog).

(** Append a batch. *)
Definition log_append_all (ps : list (list byte)) : M (Log * fs) unit :=
  for_each (λ p, let! _ := log_append p in ret tt) ps.

Lemma log_append_all_rep ps l σ pss :
  fault_free σ → log_rep σ l pss → small ps → log_last_index l + zlen ps < u64_max →
  ∃ l' σ' pss', log_append_all ps (l, σ) = (Ok tt, (l', σ'))
    ∧ log_rep σ' l' pss' ∧ fault_free σ' ∧ concat pss' = concat pss ++ ps
    ∧ log_first_index l' = log_first_index l.
Proof.
  intros Hs Hr Hps. revert l σ pss Hs Hr. induction Hps as [|p ps Hp Hps IH]; intros l σ pss Hs Hr Hb.
  { exists l, σ, pss. rw app_nil_r. split_and!; done. }
  rw zlen_cons in Hb. pose proof (zlen_nonneg ps).
  destruct (log_append_rep p l σ pss Hs Hr Hp ltac:(lia))
    as (l1 & σ1 & pss1 & E & Hr1 & Hs1 & Hc1 & Hf1 & Hl1 & _).
  destruct (IH l1 σ1 pss1 Hs1 Hr1 ltac:(lia)) as (l2 & σ2 & pss2 & E2 & Hr2 & Hs2 & Hc2 & Hf2).
  exists l2, σ2, pss2. rw /log_append_all in E2 |- *. cbn [for_each].
  rw {1}/bind (bind_Ok _ _ _ _ _ E) /ret E2. rw Hc1 -app_assoc in Hc2.
  split_and!; [done..|congruence].
Qed.

(** C21: [Log::append] (rotation included) implements the abstract append, when no system
    call fails, the payload is within the ceiling of a record and the index below the limit
    of [u64]: it returns the next index, adds the payload behind the records, and moves
    nothing else. *)
Theorem log_append_refines p l σ a :
  fault_free σ → log_abs σ l a → zlen p ≤ MAX_RECORD_LEN → al_last a + 1 < u64_max →
  ∃ l' σ', log_append p (l, σ) = (Ok (al_last a + 1), (l', σ'))
    ∧ log_abs σ' l' (al_append p a) ∧ fault_free σ'
    ∧ log_len l' = log_len l + 1 ∧ log_dir l' = log_dir l.
Proof.
  intros Hs Ha Hp Hb. destruct (log_abs_range _ _ _ Ha) as (Hf & Hl & Hr & _).
  destruct Ha as (pss & Hrep & ->). rw Hl in Hr Hb |- *.
  destruct (log_append_rep p l σ pss Hs Hrep Hp Hb)
    as (l' & σ' & pss' & E & Hrep' & Hs' & Hc & Hf' & Hl' & Hd & _).
  exists l', σ'. simpl in Hr. split_and!; try done.
  - exists pss'. by rw /al_append /= Hf' Hc.
  - rw /log_len Hf' Hl'. destruct (Z.leb_spec (log_first_index l) (log_last_index l + 1)); [|lia].
    rw u64_sub_small; [lia|]. rw u64_add_small; [lia|].
    destruct (Z.leb_spec (log_first_index l) (log_last_index l)); [|lia].
    rw u64_sub_small; [lia|]. rw u64_add_small; lia.
Qed.

(** What is appended and synced is what is read back: after any batch of appends
    (over any number of rotations) and a sync, [Log::read_all] returns the old records
    and the batch in order with consecutive indices, and all of it is on disk. *)
Theorem log_append_sync_read ps l σ a :
  fault_free σ → log_abs σ l a → small ps → al_last a + zlen ps < u64_max →
  ∃ l' σ', (do! log_append_all ps then log_sync) (l, σ) = (Ok tt, (l', σ'))
    ∧ log_read_all l' σ' =
        (Ok (al_entries a ++ al_entries (MkALog (al_last a + 1) ps)), σ')
    ∧ log_abs σ' l' (MkALog (al_first a) (al_records a ++ ps)) ∧ log_synced σ' l'.
Proof.
  intros Hs Ha Hps Hb. destruct (log_abs_range _ _ _ Ha) as (_ & Hl & _ & _).
  destruct Ha as (pss & Hr & ->). rw Hl in Hb.
  destruct (log_append_all_rep ps l σ pss Hs Hr Hps Hb) as (l1 & σ1 & pss1 & E1 & Hr1 & Hs1 & Hc & Hf).
  destruct (log_sync_rep l1 σ1 pss1 Hs1 Hr1) as (l2 & σ2 & E2 & Hr2 & Hsy & Hs2 & _ & El2).
  exists l2, σ2. rw (bind_Ok _ _ _ _ _ E1) E2.
  assert (log_first_index l2 = log_first_index l) as Hf2 by by rw El2.
  split_and!; [done| | |done].
  - rw (log_read_all_rep _ _ _ Hs2 Hr2 (log_synced_flushed _ _ Hsy)) Hf2 Hc !al_entries_numbered.
    rw numbered_app /al_last /=. do 4 f_equal. lia.
  - exists pss1. by rw Hf2 Hc.
Qed.

Lemma log_truncate_prefix_abs up_to l σ a :
  fault_free σ → log_abs σ l a →
  ∃ d l' σ', log_truncate_prefix up_to (l, σ) = (Ok tt, (l', σ'))
    ∧ log_abs σ' l' (al_drop d a) ∧ fault_free σ'
    ∧ 0 ≤ d ≤ zlen (al_records a) ∧ (0 < d → al_first a + d ≤ up_to)
    ∧ log_last_index l' = log_last_index l
    ∧ (∀ s s2 rest, log_segments l' = s :: s2 :: rest → up_to < seg_base_index s2)
    ∧ (log_synced σ l → log_synced σ' l').
Proof.
  intros Hs (pss & Hr & ->).
  destruct (log_truncate_prefix_rep up_to l σ pss Hs Hr)
    as (d & l' & σ' & E & Hr' & Hs' & (Hd & Hc & Hm) & -> & Hsy).
  exists (zlen (concat (take d pss))). eexists _, σ'. split; [exact E|]. simpl.
  assert (concat pss = concat (take d pss) ++ concat (drop d pss)) as Es.
  { by rw -concat_app take_drop. }
  pose proof (zlen_nonneg (concat (take d pss))).
  split_and!; try done.
  - exists (drop d pss). split; [done|]. rw /al_drop /=. f_equal.
    rw {1}Es /zlen Nat2Z.id drop_app_length //.
  - rw Es zlen_app. pose proof (zlen_nonneg (concat (drop d pss))). lia.
  - intros Hpos. apply Hc. destruct d; [|lia]. by rw /= zlen_nil in Hpos.
  - intros s s2 rest Er. pose proof (lr_bases _ _ _ Hr') as Hb. rw /= Er in Hb.
    destruct (drop d pss) as [|ps1 [|ps2 pss']] eqn:Ed; [done..|]. injection Hb as _ -> _.
    apply (f_equal length) in Ed as El. rw length_drop /= in El.
    specialize (Hm ltac:(lia)). rw (take_S_r _ _ ps1) in Hm.
    { rw -(take_drop d pss) Ed lookup_app_r length_take; [lia|].
      by replace (d - d `min` length pss)%nat with 0%nat by lia. }
    rw concat_app zlen_app /= app_nil_r in Hm. lia.
Qed.

(** [Log::truncate_prefix] drops whole leading segments only: every record at or
    above [up_to_index] is kept, the last index does not move, and no segment that ends
    below [up_to_index] is left in front of another one. *)
Theorem log_truncate_prefix_keeps up_to l σ a :
  fault_free σ → log_abs σ l a →
  ∃ d l' σ', log_truncate_prefix up_to (l, σ) = (Ok tt, (l', σ'))
    ∧ log_abs σ' l' (al_drop d a) ∧ fault_free σ'
    ∧ 0 ≤ d ≤ zlen (al_records a) ∧ (0 < d → al_first a + d ≤ up_to)
    ∧ log_last_index l' = log_last_index l
    ∧ ∀ s s2 rest, log_segments l' = s :: s2 :: rest → up_to < seg_base_index s2.
Proof.
  intros Hs Ha. destruct (log_truncate_prefix_abs up_to l σ a Hs Ha)
    as (d & l' & σ' & E & Ha' & Hs' & Hd & Hc & Hl & Hseg & _). by exists d, l', σ'.
Qed.

(** C24: [Log::truncate_suffix] on a log without buffered records and a disk on which no
    system call fails: a cut at or above the last index changes nothing; a cut below the
    compacted prefix is refused and changes nothing; any other cut keeps exactly the records
    up to it, whether it falls on a segment boundary or inside a segment, and leaves a
    synced log synced. (A call that fails, or a crash, in the middle can lose the kept
    records, see [Losses.truncation_crash_breaks_safety].) *)
Theorem log_truncate_suffix_functional keep l σ a :
  fault_free σ → log_abs σ l a → log_flushed l → 0 ≤ keep < u64_max →
  (al_last a ≤ keep → log_truncate_suffix keep (l, σ) = (Ok tt, (l, σ)))
  ∧ (keep < al_last a → keep + 1 < al_first a →
       log_truncate_suffix keep (l, σ) = (Err (suffix_error keep (al_first a)), (l, σ)))
  ∧ (keep < al_last a → al_first a ≤ keep + 1 →
       ∃ l' σ', log_truncate_suffix keep (l, σ) = (Ok tt, (l', σ'))
         ∧ log_abs σ' l' (al_keep keep a) ∧ log_last_index l' = keep
         ∧ (log_synced σ l → log_synced σ' l')).
Proof.
  intros Hs Ha Hfl Hk. destruct (log_abs_range _ _ _ Ha) as (Hf & Hl & _ & _).
  destruct Ha as (pss & Hr & ->). rw Hl. simpl in *.
  rw /log_truncate_suffix /bind /gets. cbn [fst]. rw u64_add_small; [lia|]. split_and!.
  - intros Hle. by destruct (Z.leb_spec (log_last_index l) keep); [|lia].
  - intros H1 H2. destruct (Z.leb_spec (log_last_index l) keep); [lia|].
    by destruct (Z.ltb_spec (keep + 1) (log_first_index l)); [|lia].
  - intros H1 H2. destruct (log_truncate_suffix_rep keep l σ pss Hs Hr Hfl ltac:(lia))
      as (l' & σ' & pss' & E & Hr' & _ & Hc & Hf' & Hl' & _ & _ & Hsy).
    exists l', σ'. split_and!; [|by exists pss'; rw /al_keep /= Hc Hf'|done|done].
    move: E. rw /log_truncate_suffix /bind /gets. cbn [fst]. by rw u64_add_small; [lia|].
Qed.

Lemma log_reopen_crash_full l σ σc a max :
  log_abs σ l a → log_synced σ l → crash σ σc → entries_kept (log_dir l) σ σc → files_bounded σc →
  ∃ l' σ', log_open (log_dir l) max σc = (Ok l', σ')
    ∧ log_abs σ' l' a ∧ log_last_index l' = log_last_index l
    ∧ log_read_all l' σ' = (Ok (al_entries a), σ')
    ∧ fault_free σ' ∧ fs_names σ' = fs_names σc
    ∧ (∀ fd, fd ∉ seg_file <$> log_segments l → fs_inodes σ' !! fd = fs_inodes σc !! fd)
    ∧ log_synced σ' l'.
Proof.
  intros (pss & Hr & ->) Hsy Hcr Hdn Hmax.
  destruct (log_rep_crash _ _ _ _ Hr Hsy Hcr Hdn) as [Hr1 Hs1].
  destruct (log_reopen_rep l σc pss max Hs1 Hr1 (log_synced_flushed _ _ Hsy) Hmax)
    as (l' & σ' & E & Hr2 & Hs2 & Hsy2 & -> & Hn & Hi).
  eexists _, σ'. split; [exact E|]. split_and!; [by exists pss|done| |done..].
  rw (log_read_all_rep _ _ _ Hs2 Hr2 (log_synced_flushed _ _ Hsy2)) //.
Qed.

Lemma log_reopen_crash_abs l σ σc a max :
  log_abs σ l a → log_synced σ l → crash σ σc → entries_kept (log_dir l) σ σc → files_bounded σc →
  ∃ l' σ', log_open (log_dir l) max σc = (Ok l', σ')
    ∧ log_abs σ' l' a ∧ log_last_index l' = log_last_index l
    ∧ log_read_all l' σ' = (Ok (al_entries a), σ').
Proof.
  intros Ha Hsy Hcr Hdn Hmax.
  destruct (log_reopen_crash_full l σ σc a max Ha Hsy Hcr Hdn Hmax) as (l' & σ' & E & ? & ? & ? & _).
  by exists l', σ'.
Qed.

(** Reopening after a crash: if the log was synced, [Log::open] after any crash that the
    directory entries of the log survived finds the same records under the same indices. *)
Theorem log_reopen_after_crash l σ σc a max :
  log_abs σ l a → log_synced σ l → crash σ σc → entries_kept (log_dir l) σ σc → files_bounded σc →
  ∃ l' σ', log_open (log_dir l) max σc = (Ok l', σ')
    ∧ log_abs σ' l' a ∧ log_last_index l' = log_last_index l
    ∧ log_read_all l' σ' = (Ok (al_entries a), σ').
Proof. intros ? ? ? ? ?. by eapply log_reopen_crash_abs. Qed.

(** Segment file names: [discover_segments] reads back the base index that
    [segment_path] encoded, and the zero padding makes the lexicographic order of the
    names the order of the indices. *)
Theorem segment_names_ordered (a b : Z) :
  0 ≤ a ≤ u64_max → 0 ≤ b ≤ u64_max →
  discover_loop [segment_name a; segment_name b] [] = Ok [a; b]
  ∧ String.compare (segment_name a) (segment_name b) = (a ?= b).
Proof.
  intros Ha Hb. split.
  { cbn [discover_loop]. rw (segment_of_name_name a Ha) (segment_of_name_name b Hb). reflexivity. }
  rw /segment_name string_compare_app string_compare_app_r; [by rw !length_dec_fixed|].
  by apply fmt_020_compare.
Qed.

End log_properties.

(** ** Witnesses *)

#[local] Existing Instance crc32fast.

(** A log in an empty directory with small segments, after a batch of synced appends. *)
Definition log_at (max : Z) (ps : list (list byte)) : Log * fs :=
  match log_open demo_dir max empty_fs with
  | (Ok l, σ) => ((do! log_append_all ps then log_sync) (l, σ)).2
  | (_, σ) => (MkLog demo_dir max [] 1 0, σ)
  end.
Definition log_after (ps : list (list byte)) : Log * fs := log_at 20 ps.

Lemma empty_fs_wf : fs_wf empty_fs.
Proof. split; simpl; [done..|]. by intros fd [? ?]. Qed.

Lemma log_at_abs max ps :
  small ps → zlen ps < u64_max →
  log_abs (log_at max ps).2 (log_at max ps).1 (MkALog 1 ps) ∧ fault_free (log_at max ps).2
  ∧ log_synced (log_at max ps).2 (log_at max ps).1.
Proof.
  intros Hps Hb.
  destruct (log_open_fresh_rep demo_dir max empty_fs) as (l & σ & E & Hr & Hs & _ & _ & _ & Hf & Hl & _);
    [done|apply empty_fs_wf|done|].
  destruct (log_append_all_rep ps l σ [[]] Hs Hr Hps) as (l1 & σ1 & pss1 & E1 & Hr1 & Hs1 & Hc & Hf1).
  { rw Hl. lia. }
  destruct (log_sync_rep l1 σ1 pss1 Hs1 Hr1) as (l2 & σ2 & E2 & Hr2 & Hsy & Hs2 & _ & El2).
  rw /log_at E (bind_Ok _ _ _ _ _ E1) E2 /=. split_and!; try done.
  exists pss1. split; [done|]. by rw Hc El2 /= Hf1 Hf.
Qed.

Lemma log_after_abs ps :
  small ps → zlen ps < u64_max →
  log_abs (log_after ps).2 (log_after ps).1 (MkALog 1 ps) ∧ fault_free (log_after ps).2
  ∧ log_synced (log_after ps).2 (log_after ps).1.
Proof. apply log_at_abs. Qed.

Definition demo_records : list (list byte) := [one; two; one; two; one].
Definition demo_log : Log := (log_after demo_records).1.
Definition demo_disk : fs := (log_after demo_records).2.

Lemma demo_log_abs :
  log_abs demo_disk demo_log (MkALog 1 demo_records) ∧ fault_free demo_disk
  ∧ log_synced demo_disk demo_log.
Proof. apply log_after_abs; evaluate. Qed.

Lemma log_append_refines_witness :
  ∃ l' σ', log_append two (demo_log, demo_disk) = (Ok 6, (l', σ'))
    ∧ log_abs σ' l' (MkALog 1 (demo_records ++ [two])) ∧ fault_free σ'
    ∧ log_len l' = log_len demo_log + 1 ∧ log_dir l' = log_dir demo_log.
Proof.
  apply (log_append_refines two demo_log demo_disk (MkALog 1 demo_records));
    [apply demo_log_abs|apply demo_log_abs|evaluate|evaluate].
Defined.

Lemma log_append_sync_read_witness :
  ∃ l' σ', (do! log_append_all [two; one] then log_sync) (demo_log, demo_disk) = (Ok tt, (l', σ'))
    ∧ log_read_all l' σ' =
        (Ok (al_entries (MkALog 1 demo_records) ++ al_entries (MkALog 6 [two; one])), σ')
    ∧ log_abs σ' l' (MkALog 1 (demo_records ++ [two; one])) ∧ log_synced σ' l'.
Proof.
  apply (log_append_sync_read [two; one] demo_log demo_disk (MkALog 1 demo_records));
    [apply demo_log_abs|apply demo_log_abs|evaluate|evaluate].
Defined.

Lemma log_truncate_prefix_keeps_witness :
  ∃ d l' σ', log_truncate_prefix 4 (demo_log, demo_disk) = (Ok tt, (l', σ'))
    ∧ log_abs σ' l' (al_drop d (MkALog 1 demo_records)) ∧ fault_free σ'
    ∧ 0 ≤ d ≤ 5 ∧ (0 < d → 1 + d ≤ 4) ∧ log_last_index l' = log_last_index demo_log
    ∧ ∀ s s2 rest, log_segments l' = s :: s2 :: rest → 4 < seg_base_index s2.
Proof.
  apply (log_truncate_prefix_keeps 4 demo_log demo_disk (MkALog 1 demo_records)); apply demo_log_abs.
Defined.

Lemma log_truncate_suffix_functional_witness :
  log_truncate_suffix 5 (demo_log, demo_disk) = (Ok tt, (demo_log, demo_disk))
  ∧ ∃ l' σ', log_truncate_suffix 3 (demo_log, demo_disk) = (Ok tt, (l', σ'))
      ∧ log_abs σ' l' (MkALog 1 [one; two; one]) ∧ log_last_index l' = 3
      ∧ (log_synced demo_disk demo_log → log_synced σ' l').
Proof.
  destruct demo_log_abs as (Ha & Hs & Hsy). pose proof (log_synced_flushed _ _ Hsy) as Hf. split.
  - apply (log_truncate_suffix_functional 5 demo_log demo_disk (MkALog 1 demo_records) Hs Ha Hf
             ltac:(evaluate)). evaluate.
  - apply (log_truncate_suffix_functional 3 demo_log demo_disk (MkALog 1 demo_records) Hs Ha Hf
             ltac:(evaluate)); evaluate.
Defined.

(** The same disk with its directory entries written back. *)
Definition names_durable (σ : fs) : fs := set_dnames (λ _, fs_names σ) σ.

Lemma names_durable_kept d σ : entries_kept d (names_durable σ) (power_loss (names_durable σ)).
Proof. by apply crash_entries_kept; [apply power_loss_crash|]. Qed.

Lemma names_durable_abs σ l a : log_abs σ l a → log_abs (names_durable σ) l a.
Proof.
  intros (pss & [[Hn Hdn Hf] Hdir Hsegs] & ->). exists pss. split; [|done].
  split; try done. eapply seg_reps_frame; [exact Hsegs|done].
Qed.

Lemma log_reopen_after_crash_witness :
  let σ := names_durable demo_disk in
  ∃ l' σ', log_open (log_dir demo_log) 20 (power_loss σ) = (Ok l', σ')
    ∧ log_abs σ' l' (MkALog 1 demo_records) ∧ log_last_index l' = log_last_index demo_log
    ∧ log_read_all l' σ' = (Ok (al_entries (MkALog 1 demo_records)), σ').
Proof.
  intros σ. destruct demo_log_abs as (Ha & Hs & Hsy).
  apply (log_reopen_after_crash demo_log σ (power_loss σ) (MkALog 1 demo_records) 20).
  - by apply names_durable_abs.
  - exact Hsy.
  - apply power_loss_crash.
  - apply names_durable_kept.
  - apply files_bounded_alt. evaluate.
Defined.

Lemma segment_names_ordered_witness :
  discover_loop [segment_name 9; segment_name 10] [] = Ok [9; 10]
  ∧ String.compare (segment_name 9) (segment_name 10) = Lt.
Proof. apply (segment_names_ordered 9 10); evaluate. Defined.

(** ** Two behaviours at the edge of the contract *)

(** [log_flushed] is needed in [log_truncate_suffix_functional]: the cut reads the
    straddling segment through its file, so records still in the writer's buffer are lost
    although [last_index] counts them. *)
Example truncate_suffix_drops_buffered_records :
  let run := match log_open demo_dir 1000 empty_fs with
             | (Ok l, σ) => (do! log_append_all [one; two; one] then log_truncate_suffix 2) (l, σ)
             | (_, σ) => (Panic, (demo_log, σ))
             end in
  run.1 = Ok tt ∧ log_last_index run.2.1 = 2 ∧ log_read_all run.2.1 run.2.2 = (Ok [], run.2.2).
Proof. split_and!; vm_compute; reflexivity. Qed.

(** A torn tail is dropped in every segment, not only the last one: the log then opens with
    a hole in its indices. *)
Definition torn_interior : fs := cut_data 0 (zlen (frames [one]) + 3) demo_disk.

Example open_accepts_torn_interior_segment :
  match log_open demo_dir 20 torn_interior with
  | (Ok l, σ) => log_first_index l = 1 ∧ log_last_index l = 5 ∧
                 (log_read_all l σ).1 = Ok [(1, one); (3, one); (4, two); (5, one)]
  | _ => False
  end.
Proof. vm_compute. split_and!; reflexivity. Qed.
