(* ===== verification/LogCrash.v ===== *)
(** * LogCrash: the segmented log across a crash in the middle of appending.

    WalLog.log_reopen_after_crash is about a log with nothing left to sync.  Here records
    were appended behind the last [Log::sync], rotations included, when the machine
    stops: the tail of the active segment may be torn or overwritten with anything, new
    segments may be damaged or have no directory entry.  [recover_all_found] says what
    [Log::open] makes of such a directory, [read_segments_wrap] what reading it back
    yields, and [acknowledged_appends_survive] that everything acknowledged by the sync is
    still there under its index. *)

From Corelib Require Import ssreflect.
From stdpp Require Import base gmap strings list sorting sets.
From S2P Require Import Prelude Text Fs Crc Record Segment WalLog.

(** ** Sublists given by a filter *)

Lemma StronglySorted_fmap_filter {A B} (R : relation B) (f : A → B) P `{!∀ x, Decision (P x)} l :
  StronglySorted R (f <$> l) → StronglySorted R (f <$> filter P l).
Proof.
  induction l as [|a l IH]; [done|]. rw fmap_cons. intros [Hs Ha]%StronglySorted_inv.
  rw filter_cons. case_decide; [|by apply IH]. rw fmap_cons. constructor; [by apply IH|].
  apply Forall_fmap, Forall_forall. intros x [_ Hx]%list_elem_of_filter.
  rw Forall_fmap in Ha. by apply (proj1 (Forall_forall _ _) Ha x).
Qed.

Lemma NoDup_fmap_filter {A B} (f : A → B) P `{!∀ x, Decision (P x)} l :
  NoDup (f <$> l) → NoDup (f <$> filter P l).
Proof.
  induction l as [|a l IH]; [done|]. rw fmap_cons. intros [Ha Hs]%NoDup_cons.
  rw filter_cons. case_decide; [|by apply IH]. rw fmap_cons. apply NoDup_cons. split; [|by apply IH].
  intros (x & E & [_ Hx]%list_elem_of_filter)%list_elem_of_fmap. apply Ha. rw E.
  by apply list_elem_of_fmap_2.
Qed.

Lemma filter_all {A} P `{!∀ x : A, Decision (P x)} l : Forall P l → filter P l = l.
Proof. induction 1 as [|a l Ha _ IH]; [done|]. by rw filter_cons decide_True // IH. Qed.

Section log_crash.
Context `{Crc32}.

(** ** Recovering whatever is there *)

(** The records in the file of [s], and the segment recovery makes of it. *)
Definition held (σ : fs) (s : Segment) : list (list byte) := (records (file_data σ (seg_file s))).1.
Definition recovered (σ : fs) (s : Segment) : Segment :=
  MkSegment (seg_base_index s) (seg_path s) (bw_new (seg_file s)) (zlen (frames (held σ s)))
    (u64 (zlen (held σ s))).

(** The file of [s] is in the directory. *)
Definition in_place (dir : path) (σ : fs) (s : Segment) : Prop :=
  fs_names σ !! seg_path s = Some (seg_file s) ∧ is_Some (fs_inodes σ !! seg_file s)
  ∧ seg_path s = segment_path dir (seg_base_index s).

(** Some file has good records behind a bad one. *)
Definition damaged (σ : fs) : Prop :=
  ∃ fd, interior_corruption (records (file_data σ fd)).2 = true.

Lemma segment_recover_found dir s σ :
  fault_free σ → files_bounded σ → in_place dir σ s →
  (∃ σ', segment_recover (segment_path dir (seg_base_index s)) (seg_base_index s) σ
           = (Ok (recovered σ s), σ')
     ∧ seg_rep σ' (recovered σ s) (held σ s) ∧ seg_flushed (recovered σ s)
     ∧ only_files [seg_file s] σ σ' ∧ fs_dnames σ' = fs_dnames σ)
  ∨ (∃ msg, segment_recover (segment_path dir (seg_base_index s)) (seg_base_index s) σ
             = (Err (ECorruption msg), σ) ∧ damaged σ).
Proof.
  intros Hs Hb (Hn & Hi & Hp). rw -Hp.
  pose proof (segment_recover_ok _ (seg_base_index s) _ _ Hs Hn) as E.
  pose proof (recovered_rep _ (seg_base_index s) _ _ Hn Hi) as Hrep.
  destruct (records_sound (file_data σ (seg_file s))) as (Hd & _ & _).
  rw /recovered /held /damaged. specialize (Hb (seg_file s)).
  destruct (records (file_data σ (seg_file s))) as [ps rest] eqn:Er. cbn [fst snd] in *.
  destruct (interior_corruption rest) eqn:Ec; [right|left].
  - eexists. split; [exact E|]. exists (seg_file s). by rw Er.
  - rw Hd zlen_app in Hb. pose proof (zlen_nonneg rest). destruct Hrep as [H1 H2]; [lia|].
    eexists. split_and!; [exact E|done|done| |done].
    apply (only_files_mono ([seg_file s] ++ [seg_file s])); [set_solver|].
    eapply only_files_trans; apply only_files_alter.
Qed.

(** Segments whose files [σ1] has not touched. *)
Lemma in_place_frame dir fd σ σ1 s :
  only_files [fd] σ σ1 → seg_file s ≠ fd → in_place dir σ s →
  in_place dir σ1 s ∧ held σ1 s = held σ s ∧ file_data σ1 (seg_file s) = file_data σ (seg_file s).
Proof.
  intros Ho Hne (Hn & Hi & Hp). rw /in_place /held /file_data (of_names _ _ _ Ho).
  rw (of_inodes _ _ _ Ho); [set_solver|]. done.
Qed.

Lemma recover_all_found dir segs σ :
  fault_free σ → files_bounded σ → NoDup (seg_file <$> segs) → Forall (in_place dir σ) segs →
  (∃ σ', recover_all dir (seg_base_index <$> segs) σ = (Ok (recovered σ <$> segs), σ')
     ∧ fault_free σ' ∧ Forall2 (seg_rep σ') (recovered σ <$> segs) (held σ <$> segs)
     ∧ only_files (seg_file <$> segs) σ σ')
  ∨ (∃ msg σ', recover_all dir (seg_base_index <$> segs) σ = (Err (ECorruption msg), σ')
       ∧ damaged σ).
Proof.
  revert σ. induction segs as [|s segs IH]; intros σ Hs Hb Hnd Hin.
  { left. by exists σ. }
  rw fmap_cons in Hnd. apply NoDup_cons in Hnd as [Hnin Hnd]. apply Forall_cons in Hin as [Hs1 Hin].
  rw !fmap_cons. cbn [recover_all].
  destruct (segment_recover_found dir s σ Hs Hb Hs1) as [(σ1 & E & Hr & Hf & Ho & _)|(msg & E & Hd)];
    last first.
  { right. exists msg, σ. by rw /bind E. }
  assert (file_data σ1 (seg_file s) = frames (held σ s)) as Hd1.
  { pose proof (rep_data _ _ _ Hr) as Hd. rw Hf app_nil_r in Hd. exact Hd. }
  assert (∀ t, t ∈ segs → seg_file t ≠ seg_file s) as Hne.
  { intros t Ht E'. apply Hnin. rw -E'. by apply list_elem_of_fmap_2. }
  assert (∀ fd, fd ≠ seg_file s → file_data σ1 fd = file_data σ fd) as Hsame.
  { intros fd Hfd. rw /file_data (of_inodes _ _ _ Ho) //. set_solver. }
  assert (∀ t, t ∈ segs → held σ1 t = held σ t) as Hheld.
  { intros t Ht. by rw /held (Hsame _ (Hne t Ht)). }
  destruct (IH σ1) as [(σ2 & E2 & Hs2 & Hr2 & Ho2)|(msg & σ2 & E2 & (fd & Hc))].
  - by eapply only_files_fault_free.
  - intros fd. destruct (decide (fd = seg_file s)) as [->|Hfd]; [|by rw Hsame].
    specialize (Hb (seg_file s)). destruct (records_sound (file_data σ (seg_file s))) as (Hd & _ & _).
    rw Hd1. rw Hd zlen_app in Hb. pose proof (zlen_nonneg (records (file_data σ (seg_file s))).2).
    rw /held. lia.
  - done.
  - apply Forall_forall. intros t Ht.
    by apply (in_place_frame dir _ σ σ1 t Ho (Hne t Ht)), (proj1 (Forall_forall _ _) Hin).
  - left. exists σ2.
    assert (recovered σ1 <$> segs = recovered σ <$> segs) as Er.
    { apply list_fmap_ext. intros i t Ht%list_elem_of_lookup_2. by rw /recovered (Hheld t Ht). }
    assert (held σ1 <$> segs = held σ <$> segs) as Eh.
    { apply list_fmap_ext. intros i t Ht%list_elem_of_lookup_2. by apply Hheld. }
    rw Er in E2, Hr2. rw Eh in Hr2.
    rw (bind_Ok _ _ _ _ _ E) (bind_Ok _ _ _ _ _ E2). split_and!; [done|done| |].
    + constructor; [|done]. eapply seg_rep_frame; [exact Hr|by rw (of_names _ _ _ Ho2)|].
      by apply (of_inodes _ _ _ Ho2).
    + apply (only_files_trans [seg_file s] _ _ σ1 _ Ho Ho2).
  - right. exists msg, σ2. rw (bind_Ok _ _ _ _ _ E) /bind E2. split; [done|]. exists fd.
    destruct (decide (fd = seg_file s)) as [->|Hfd]; [exfalso|by rw -Hsame].
    rw Hd1 -(app_nil_r (frames _)) records_frames in Hc; [apply Hr|]. by rw records_nil in Hc.
Qed.

(** ** Reading whatever was recovered *)

(** The records of a segment with the indices [Log::read_all] gives them, modulo [u64]. *)
Definition wnumbered (b : Z) (ps : list (list byte)) : list (Z * list byte) :=
  imap (λ i p, (u64 (b + Z.of_nat i), p)) ps.

Lemma wnumbered_cons b p ps : wnumbered b (p :: ps) = (u64 b, p) :: wnumbered (b + 1) ps.
Proof.
  rw /wnumbered /= Z.add_0_r. f_equal. apply imap_ext. intros i x _. simpl. do 2 f_equal. lia.
Qed.
Lemma wnumbered_app b ps qs :
  wnumbered b (ps ++ qs) = wnumbered b ps ++ wnumbered (b + zlen ps) qs.
Proof.
  revert b. induction ps as [|p ps IH]; intros b.
  - by rw zlen_nil Z.add_0_r.
  - rw -app_comm_cons !wnumbered_cons IH zlen_cons /=. do 3 f_equal. lia.
Qed.
Lemma wnumbered_small b ps : 0 ≤ b → b + zlen ps ≤ u64_max → wnumbered b ps = numbered b ps.
Proof.
  intros Hb Hm. apply imap_ext. intros i p Hi%lookup_lt_Some. simpl. f_equal.
  apply u64_small. rw /zlen in Hm. lia.
Qed.

Lemma read_segment_wrap fuel b ps pos :
  (length ps < fuel)%nat → small ps →
  read_segment fuel (u64 b) (iter_at (frames ps) pos) = Ok (wnumbered b ps).
Proof.
  intros Hf Hs. revert fuel b pos Hf.
  induction Hs as [|p ps Hp Hps IH]; intros [|fuel] b pos Hf; simpl in Hf; try lia; cbn [read_segment].
  - rw frames_nil. pose proof (iter_next_nil pos).
    by destruct (iter_next (iter_at [] pos)) as [[]]; simplify_eq/=.
  - rw frames_cons iter_next_cons // u64_add_idemp IH; [lia|]. by rw wnumbered_cons.
Qed.

(** The entries that a list of segments with their records spells. *)
Definition spelled (bs : list Z) (pss : list (list (list byte))) : list (Z * list byte) :=
  concat (zip_with wnumbered bs pss).

Lemma read_segments_wrap segs pss σ :
  fault_free σ → Forall2 (seg_rep σ) segs pss → Forall seg_flushed segs →
  Forall (λ b, 0 ≤ b ≤ u64_max) (seg_base_index <$> segs) →
  read_segments segs σ = (Ok (spelled (seg_base_index <$> segs) pss), σ).
Proof.
  intros Hs Hr. induction Hr as [|s ps segs pss Hr Hrs IH]; intros Hf Hb; [done|].
  apply Forall_cons in Hf as [Hf Hfs]. rw fmap_cons in Hb. apply Forall_cons in Hb as [Hb Hbs].
  destruct (segment_iter_ok _ _ _ Hs Hr Hf) as [E Hfu].
  cbn [read_segments]. rw (bind_Ok _ _ _ _ _ E) /bind /lift.
  rw -{1}(u64_small (seg_base_index s)) // read_segment_wrap //; [apply Hr|].
  by rw (IH Hfs Hbs).
Qed.

(** Consecutive segments spell consecutive entries. *)
Lemma spelled_consecutive b pss :
  0 ≤ b → b + zlen (concat pss) ≤ u64_max → spelled (bases_from b pss) pss = numbered b (concat pss).
Proof.
  revert b. induction pss as [|ps pss IH]; intros b Hb Hm; [done|].
  rw /= zlen_app in Hm. pose proof (zlen_nonneg ps). pose proof (zlen_nonneg (concat pss)).
  rw /spelled /=. rw /spelled in IH. rw IH; [lia..|]. by rw wnumbered_small ?numbered_app //; lia.
Qed.

Lemma spelled_app bs1 bs2 pss1 pss2 :
  length bs1 = length pss1 → spelled (bs1 ++ bs2) (pss1 ++ pss2) = spelled bs1 pss1 ++ spelled bs2 pss2.
Proof. intros Hl. by rw /spelled zip_with_app // concat_app. Qed.

(** ** What appending leaves alone *)

Lemma nil_or_snoc {A} (l : list A) : l = [] ∨ ∃ l' z, l = l' ++ [z].
Proof. destruct l as [|z l' _] using rev_ind; eauto. Qed.

(** From [(l, σ)] to [(l', σ')] records were only added: the segments before the active one
    are as they were, the file of the active one has at most grown, no directory entry was
    changed. *)
Record extended (l : Log) (σ : fs) (l' : Log) (σ' : fs) : Prop := {
  ex_dir : log_dir l' = log_dir l;
  ex_segments : ∃ init act act' news, log_segments l = init ++ [act]
    ∧ log_segments l' = init ++ act' :: news
    ∧ seg_path act' = seg_path act ∧ seg_base_index act' = seg_base_index act
    ∧ seg_file act' = seg_file act
    ∧ (∀ s, s ∈ init → fs_inodes σ' !! seg_file s = fs_inodes σ !! seg_file s)
    ∧ file_durable σ' (seg_file act) = file_durable σ (seg_file act)
    ∧ ∃ out, file_data σ' (seg_file act) = file_data σ (seg_file act) ++ out;
  ex_names p fd : fs_names σ !! p = Some fd → fs_names σ' !! p = Some fd;
  ex_dnames : fs_dnames σ' = fs_dnames σ
}.

Lemma extended_refl l σ pss : log_rep σ l pss → extended l σ l σ.
Proof.
  intros Hr. destruct (log_rep_snoc _ _ _ Hr) as (init & act & _ & _ & Es & _).
  split; try done. exists init, act, act, []. split_and!; try done. exists []. by rw app_nil_r.
Qed.

Lemma extended_trans l1 l2 l3 σ1 σ2 σ3 :
  extended l1 σ1 l2 σ2 → extended l2 σ2 l3 σ3 → extended l1 σ1 l3 σ3.
Proof.
  intros [D1 (init & act & act2 & news & S1 & S2 & P1 & B1 & F1 & I1 & U1 & out1 & O1) N1 DN1].
  intros [D2 (init2 & act2' & act3 & news3 & S2' & S3 & P2 & B2 & F2 & I2 & U2 & out2 & O2) N2 DN2].
  split; [congruence| |auto|congruence].
  rw S2 in S2'. destruct (nil_or_snoc news) as [->|(news' & z & ->)].
  - apply app_inj_tail in S2' as [<- <-]. exists init, act, act3, news3.
    split_and!; [done|done|congruence|congruence|congruence| | |].
    + intros s Hs. rw (I2 s Hs). by apply I1.
    + by rw -F1 U2 F1.
    + exists (out1 ++ out2). rw app_assoc -O1 -F1 O2 //.
  - assert (init2 = init ++ act2 :: news' ∧ act2' = z) as [-> ->].
    { rw app_comm_cons app_assoc in S2'. by apply app_inj_tail in S2' as [<- <-]. }
    exists init, act, act2, (news' ++ act3 :: news3). split_and!; try done.
    + by rw S3 -app_assoc.
    + intros s Hs. rw I2; [set_solver|]. by apply I1.
    + rw /file_durable -F1 (I2 act2); [set_solver|]. rw F1. exact U1.
    + exists out1. rw -O1 /file_data -F1 (I2 act2) //. set_solver.
Qed.

Lemma log_rotate_extends l σ pss :
  fault_free σ → log_rep σ l pss → extended l σ (log_rotate (l, σ)).2.1 (log_rotate (l, σ)).2.2.
Proof.
  intros Hs Hr. destruct (log_rep_snoc _ _ _ Hr) as (init & act & ipss & aps & Es & -> & Hrest).
  destruct Hrest as (Hi & Ha & Hne & _ & _). pose proof (lr_wf _ _ _ Hr) as Hwf.
  rw /log_rotate /bind /gets /= Es last_snoc /=.
  destruct ((log_max_segment_bytes l <=? seg_bytes act) && (0 <? seg_count act)) eqn:E;
    [|by eapply extended_refl].
  apply andb_true_iff in E as [_ Hc%Z.ltb_lt].
  assert (Forall (λ ps, ps ≠ []) (ipss ++ [aps])) as Hall.
  { rw Forall_app Forall_singleton. split; [done|]. intros ->. by rw (rep_count _ _ _ Ha) in Hc. }
  pose proof (lr_first _ _ _ Hr). pose proof (lr_bound _ _ _ Hr). pose proof (lr_last _ _ _ Hr).
  pose proof (zlen_nonneg (concat (ipss ++ [aps]))).
  pose proof (log_rep_next_free _ _ _ Hr Hall) as Hfree.
  rw u64_add_small; [lia|]. rw /on_fs /zoom /= segment_create_ok //.
  { apply parent_exists_join, Hr. }
  assert (∀ s, s ∈ log_segments l → seg_file s ≠ fs_next σ) as Hfresh.
  { intros s Hin. destruct (log_rep_seg _ _ _ Hr s Hin) as [ps Hps].
    pose proof (seg_rep_file_lt _ _ _ Hwf Hps). lia. }
  rw /modify /ret /= Es. split; try done.
  - eexists init, act, act, [_]. split_and!; try done.
    + by rw /= -app_assoc.
    + intros s Hin. rw lookup_insert_ne //. intros E. apply (Hfresh s); [|done]. rw Es. set_solver.
    + rw /file_durable /= lookup_insert_ne //. intros E. apply (Hfresh act); [|done]. rw Es. set_solver.
    + exists []. rw /file_data /= lookup_insert_ne ?app_nil_r //.
      intros E. apply (Hfresh act); [|done]. rw Es. set_solver.
  - intros p fd Hp. rw /= lookup_insert_ne //. intros E. by rw E Hp in Hfree.
Qed.

Lemma log_append_extends p l σ pss :
  fault_free σ → log_rep σ l pss → zlen p ≤ MAX_RECORD_LEN → log_last_index l + 1 < u64_max →
  extended l σ (log_append p (l, σ)).2.1 (log_append p (l, σ)).2.2.
Proof.
  intros Hs Hr Hp Hb. pose proof (log_rotate_extends _ _ _ Hs Hr) as Hx.
  destruct (log_rotate_rep l σ pss Hs Hr) as (l1 & σ1 & pss1 & E1 & Hr1 & Hs1 & _).
  rw E1 in Hx. eapply extended_trans; [exact Hx|]. cbn [fst snd].
  rw /log_append (bind_Ok _ _ _ _ _ E1).
  destruct (log_rep_snoc _ _ _ Hr1) as (init & act & ipss & aps & Es & -> & _ & Ha & _).
  destruct (segment_append_rep p act σ1 aps Hs1 Ha Hp) as (act' & out & E2 & Ha' & Hf & Hpa & Hba).
  rw (bind_Ok _ _ _ _ _ (on_active_run _ _ _ _ _ _ _ _ Es E2)) /bind /modify /gets /=.
  pose proof (lr_files _ _ _ Hr1) as Hnd. rw Es fmap_app in Hnd.
  apply NoDup_app in Hnd as (_ & Hdis & _).
  split; try done. exists init, act, act', []. split_and!; try done.
  - intros s Hin. rw /= lookup_alter_ne //. intros E.
    apply (Hdis (seg_file s)); [by apply list_elem_of_fmap_2|]. rw -E. by apply list_elem_of_singleton.
  - apply file_durable_append.
  - exists out. rw file_data_append //. apply Ha.
Qed.

Lemma log_append_all_extends qs l σ pss :
  fault_free σ → log_rep σ l pss → small qs → log_last_index l + zlen qs < u64_max →
  extended l σ (log_append_all qs (l, σ)).2.1 (log_append_all qs (l, σ)).2.2.
Proof.
  intros Hs Hr Hqs. revert l σ pss Hs Hr.
  induction Hqs as [|q qs Hq Hqs IH]; intros l σ pss Hs Hr Hb; [by eapply extended_refl|].
  rw zlen_cons in Hb. pose proof (zlen_nonneg qs).
  destruct (log_append_rep q l σ pss Hs Hr Hq ltac:(lia))
    as (l1 & σ1 & pss1 & E & Hr1 & Hs1 & _ & _ & Hl1 & _).
  pose proof (log_append_extends q l σ pss Hs Hr Hq ltac:(lia)) as Hx. rw E in Hx.
  assert (log_append_all (q :: qs) (l, σ) = log_append_all qs (l1, σ1)) as ->.
  { rw /log_append_all. cbn [for_each]. rw {1}/bind (bind_Ok _ _ _ _ _ E) //. }
  eapply extended_trans; [exact Hx|]. apply (IH l1 σ1 pss1); [done..|lia].
Qed.

(** ** The crash *)

Lemma held_rep σ σ' s ps :
  seg_rep σ s ps → seg_flushed s → fs_inodes σ' !! seg_file s = fs_inodes σ !! seg_file s →
  held σ' s = ps.
Proof.
  intros Hs Hfl Hin. pose proof (rep_data _ _ _ Hs) as Hd. rw Hfl app_nil_r -/(seg_file s) in Hd.
  rw /held /file_data Hin -/(file_data σ (seg_file s)) Hd -(app_nil_r (frames ps)) records_frames;
    [apply Hs|]. by rw records_nil /= app_nil_r.
Qed.

(** The segments of [l] after a crash that follows on unsynced appends: they are in the
    directory, the sealed ones hold what they held, the active one at least that. *)
Lemma extended_crash l σ pss l' σ' σc :
  log_rep σ l pss → log_synced σ l → fs_dnames σ = fs_names σ →
  extended l σ l' σ' → crash σ' σc →
  ∃ A news rs, log_segments l' = A ++ news ∧ seg_base_index <$> A = bases_from (log_first_index l) pss
    ∧ Forall (λ s, is_Some (fs_names σc !! seg_path s)) A
    ∧ spelled (seg_base_index <$> A) (held σc <$> A)
      = numbered (log_first_index l) (concat pss) ++ rs.
Proof.
  intros Hr Hsy Hdn [Hd (init & act & act' & news & S1 & S2 & P & B & F & I & U & out & O) N DN] Hcr.
  destruct (log_rep_snoc _ _ _ Hr) as (init' & act0 & ipss & aps & Es & -> & Hi & Ha & _ & Hbi & Hba).
  rw S1 in Es. apply app_inj_tail in Es as [<- <-].
  rw /log_synced S1 Forall_app Forall_singleton in Hsy. destruct Hsy as [Hsi [Hfa Hsa]].
  assert (∀ s ps, seg_rep σ s ps → is_Some (fs_names σc !! seg_path s)) as Hnames.
  { intros s ps Hs. destruct (crash_names _ _ Hcr (seg_path s)) as [-> | ->].
    - rw DN Hdn (rep_name _ _ _ Hs). eauto.
    - rw (N _ _ (rep_name _ _ _ Hs)). eauto. }
  assert (held σc <$> init = ipss) as Ehi.
  { clear -Hi Hsi I Hcr. induction Hi as [|s ps init ipss Hs Hi IH]; [done|].
    apply Forall_cons in Hsi as [[Hfl Hsy] Hsi]. rw fmap_cons. f_equal; [|apply IH; set_solver].
    assert (fs_inodes σ' !! seg_file s = fs_inodes σ !! seg_file s) as Hin by (apply I; set_solver).
    rw -(held_rep σ σ' s ps Hs Hfl Hin) /held (crash_synced _ _ _ Hcr) //.
    by rw /file_data /file_durable Hin -/(file_data σ _) -/(file_durable σ _) Hsy. }
  assert (∃ rs, held σc act' = aps ++ rs) as [rs Eha].
  { pose proof (rep_data _ _ _ Ha) as Hda. rw Hfa app_nil_r -/(seg_file act) in Hda, Hsa.
    rw -Hsa -U in O. destruct (crash_grown _ _ _ _ Hcr O) as [g Hg].
    rw U Hsa Hda in Hg. rw /held F Hg records_frames; [apply Ha|]. eauto. }
  exists (init ++ [act']), news. eexists. split_and!.
  - by rw S2 -app_assoc.
  - by rw bases_from_app fmap_app /= Hbi B Hba.
  - rw Forall_app Forall_singleton P. split; [|by apply (Hnames act aps)].
    clear -Hi Hnames. induction Hi; constructor; eauto.
  - pose proof (lr_first _ _ _ Hr). pose proof (lr_bound _ _ _ Hr). pose proof (lr_last _ _ _ Hr) as Hl.
    rw concat_app /= app_nil_r zlen_app in Hl. rw concat_app /= app_nil_r numbered_app.
    pose proof (zlen_nonneg (concat ipss)). pose proof (zlen_nonneg aps).
    rw !fmap_app /= spelled_app ?length_fmap // Ehi Hbi spelled_consecutive; [lia..|].
    rw Eha B Hba /spelled /= app_nil_r wnumbered_app wnumbered_small; [lia..|].
    by rw -app_assoc.
Qed.

(** The names after the crash are among those before it, for the same files. *)
Lemma crash_names_sub σ σc p fd :
  (∀ p fd, fs_dnames σ !! p = Some fd → fs_names σ !! p = Some fd) → crash σ σc →
  fs_names σc !! p = Some fd → fs_names σ !! p = Some fd.
Proof. intros Hsub Hcr. destruct (crash_names _ _ Hcr p) as [-> | ->]; auto. Qed.

(** Opening the log on a disk that kept some of its names finds those segments, and reads
    back the records in their files. *)
Lemma log_open_found l σ pss σc max :
  let F := filter (λ s, is_Some (fs_names σc !! seg_path s)) (log_segments l) in
  log_rep σ l pss → fault_free σc →
  (∀ p fd, fs_names σc !! p = Some fd → fs_names σ !! p = Some fd) →
  (∀ fd, is_Some (fs_inodes σ !! fd) → is_Some (fs_inodes σc !! fd)) → files_bounded σc → F ≠ [] →
  (∃ l' σ', log_open (log_dir l) max σc = (Ok l', σ')
     ∧ log_read_all l' σ' = (Ok (spelled (seg_base_index <$> F) (held σc <$> F)), σ'))
  ∨ (∃ msg σ', log_open (log_dir l) max σc = (Err (ECorruption msg), σ') ∧ damaged σc).
Proof.
  intros F Hr Hs Hsub Hino Hb HF. set (σ1 := with_dir (log_dir l) σc).
  assert (fault_free σ1) as Hs1 by done.
  pose proof (lr_first _ _ _ Hr). pose proof (lr_bound _ _ _ Hr).
  assert (∀ s, s ∈ F → s ∈ log_segments l ∧ in_place (log_dir l) σ1 s) as Hin.
  { intros s [[fd Hfd] Hs']%list_elem_of_filter. split; [done|].
    destruct (log_rep_seg _ _ _ Hr s Hs') as [ps Hps].
    pose proof (Hsub _ _ Hfd) as Hfd'. rw (rep_name _ _ _ Hps) in Hfd'.
    injection Hfd' as <-. split_and!; [done|by apply Hino, Hps|].
    by apply (proj1 (Forall_forall _ _) (lr_paths _ _ _ Hr)). }
  assert (Forall (λ b, 0 ≤ b ≤ u64_max) (seg_base_index <$> F)) as Hrange.
  { apply Forall_forall. intros b (s & -> & [Hs' _]%Hin)%list_elem_of_fmap.
    pose proof (log_rep_base_range _ _ _ _ Hr Hs'). lia. }
  destruct (discover_bases (log_dir l) (seg_base_index <$> F) σ1) as (bases & Ed & Esort).
  { done. }
  { apply with_dir_elem. }
  { apply NoDup_fmap_filter. rw (lr_bases _ _ _ Hr). apply NoDup_bases_from, Hr. }
  { apply StronglySorted_fmap_filter. rw (lr_bases _ _ _ Hr). apply StronglySorted_bases_from. }
  { done. }
  { intros n fd Hfd Hn. pose proof (Hsub _ _ Hfd) as Hfd'.
    destruct (log_rep_names _ _ _ n Hr) as (s & Hs' & -> & _); [apply elem_of_dir_entries; eauto|done|].
    exists (seg_base_index s). split; [|done]. apply list_elem_of_fmap_2, list_elem_of_filter.
    rw (proj1 (Forall_forall _ _) (lr_paths _ _ _ Hr) s Hs'). split; [by exists fd|done]. }
  { intros b (s & -> & [_ (Hn & _ & Hp)]%Hin)%list_elem_of_fmap. rw -Hp Hn. eauto. }
  rw /log_open (bind_Ok _ _ _ _ _ (create_dir_all_ok _ _ Hs)) -/σ1 (bind_Ok _ _ _ _ _ Ed) Esort.
  destruct (recover_all_found (log_dir l) F σ1 Hs1 Hb) as [(σ2 & E & Hs2 & Hreps & _)|(msg & σ2 & E & Hd)].
  { apply NoDup_fmap_filter, Hr. }
  { apply Forall_forall. intros s Hs'. by apply Hin. }
  - left. destruct F as [|s0 F0] eqn:EF; [done|]. rw fmap_cons -fmap_cons (bind_Ok _ _ _ _ _ E).
    destruct (nil_or_snoc (s0 :: F0)) as [|(F1 & z & Ez)]; [done|].
    rw Ez fmap_app last_snoc -fmap_app -Ez. eexists _, σ2. split; [done|].
    rw /log_read_all. cbn [log_segments]. rw (read_segments_wrap _ _ _ Hs2 Hreps).
    + apply Forall_fmap, Forall_forall. done.
    + by rw -list_fmap_compose.
    + by rw -list_fmap_compose.
  - right. exists msg, σ2. split; [|done]. destruct F; [done|]. by rw fmap_cons -fmap_cons /bind E.
Qed.

(** C17: acknowledged writes survive a crash in the middle of appending: as long as no
    system call fails, [Log::sync] succeeds; once it has, append any records within the
    ceiling (rotating as often as it takes), and stop the machine before the next sync, with
    any damage to what was not synced and any of the new directory entries lost (those of
    the log at the sync being on disk). [Log::open] then reads back every entry of the log
    at the sync under its index, possibly with more behind them; it refuses only a file in
    which good records follow a bad one. *)
Theorem acknowledged_appends_survive l σ a qs σc max :
  let synced := (log_sync (l, σ)).2 in
  fault_free σ → log_abs σ l a → fs_dnames synced.2 = fs_names synced.2 →
  small qs → log_last_index l + zlen qs < u64_max →
  crash (log_append_all qs synced).2.2 σc → files_bounded σc →
  (log_sync (l, σ)).1 = Ok tt
  ∧ ((∃ l' σ' more, log_open (log_dir l) max σc = (Ok l', σ')
        ∧ log_read_all l' σ' = (Ok (al_entries a ++ more), σ'))
     ∨ (∃ msg σ', log_open (log_dir l) max σc = (Err (ECorruption msg), σ') ∧ damaged σc)).
Proof.
  intros synced Hs (pss & Hr & ->) Hdn Hqs Hb Hcr Hmax.
  destruct (log_sync_rep l σ pss Hs Hr) as (l0 & σ0 & Esy & Hr0 & Hsy & Hs0 & _ & El).
  rw /synced Esy in Hdn, Hcr |- *. cbn [fst snd] in *. split; [done|].
  assert (log_dir l0 = log_dir l ∧ log_last_index l0 = log_last_index l
          ∧ log_first_index l0 = log_first_index l) as (Ed & Eli & Ef) by by rw El.
  rw -Eli in Hb. pose proof (log_append_all_extends qs l0 σ0 pss Hs0 Hr0 Hqs Hb) as Hx.
  destruct (log_append_all_rep qs l0 σ0 pss Hs0 Hr0 Hqs Hb) as (l1 & σ1 & pss1 & E & Hr1 & _).
  rw E in Hcr, Hx. cbn [fst snd] in Hcr, Hx.
  destruct (extended_crash _ _ _ _ _ _ Hr0 Hsy Hdn Hx Hcr) as (A & news & rs & Es & HbA & HA & Hsp).
  destruct (log_open_found l1 σ1 pss1 σc max Hr1) as [(l' & σ' & Eo & Er)|(msg & σ' & Eo & Hd)];
    [apply Hcr| | |done| | |].
  - intros p fd. apply crash_names_sub; [|done]. intros p' fd'. rw (ex_dnames _ _ _ _ Hx) Hdn.
    apply (ex_names _ _ _ _ Hx).
  - intros fd. apply (crash_is_Some _ _ _ Hcr).
  - rw Es filter_app (filter_all _ A HA). pose proof (lr_nonempty _ _ _ Hr).
    destruct A; [by destruct pss|done].
  - left. rw (ex_dir _ _ _ _ Hx) Ed in Eo. exists l', σ'. eexists. split; [done|].
    rw Er Es filter_app (filter_all _ A HA) !fmap_app spelled_app ?length_fmap // Hsp.
    by rw al_entries_numbered /= Ef -app_assoc.
  - right. rw (ex_dir _ _ _ _ Hx) Ed in Eo. eauto.
Qed.

(** Damage behind the end of a synced log, as tests/fault_injection.rs makes it: whatever
    bytes [g] are at the end of the active segment's file, opening the log reads back its
    entries and then the records that [g] happens to start with. *)
Theorem scribbled_tail_survives l σ a init act g σg max :
  fault_free σ → log_abs σ l a → log_synced σ l → log_segments l = init ++ [act] →
  only_files [seg_file act] σ σg →
  file_data σg (seg_file act) = file_data σ (seg_file act) ++ g → is_Some (fs_inodes σg !! seg_file act) →
  files_bounded σg →
  (∃ l' σ', log_open (log_dir l) max σg = (Ok l', σ')
     ∧ log_read_all l' σ'
       = (Ok (al_entries a ++ wnumbered (log_last_index l + 1) (records g).1), σ'))
  ∨ (∃ msg σ', log_open (log_dir l) max σg = (Err (ECorruption msg), σ') ∧ damaged σg).
Proof.
  intros Hs (pss & Hr & ->) Hsy Es Ho Hg Hin Hmax.
  destruct (log_rep_snoc _ _ _ Hr) as (init' & act' & ipss & aps & Es' & -> & Hi & Ha & _ & Hbi & Hba).
  rw Es in Es'. apply app_inj_tail in Es' as [<- <-].
  pose proof (lr_files _ _ _ Hr) as Hnd. rw Es fmap_app in Hnd. apply NoDup_app in Hnd as (_ & Hdis & _).
  assert (∀ s, s ∈ init → fs_inodes σg !! seg_file s = fs_inodes σ !! seg_file s) as Hsame.
  { intros s Hs'. apply (of_inodes _ _ _ Ho), Hdis. by apply list_elem_of_fmap_2. }
  rw /log_synced Es Forall_app Forall_singleton in Hsy. destruct Hsy as [Hsi [Hfa _]].
  assert (held σg <$> log_segments l = ipss ++ [aps ++ (records g).1]) as Eh.
  { rw Es fmap_app /=. f_equal.
    - clear -Hi Hsi Hsame. induction Hi as [|s ps init ipss Hs' Hi IH]; [done|].
      apply Forall_cons in Hsi as [[Hfl _] Hsi]. rw fmap_cons. f_equal; [|apply IH; set_solver].
      eapply held_rep; [exact Hs'|done|apply Hsame; set_solver].
    - pose proof (rep_data _ _ _ Ha) as Hda. rw Hfa app_nil_r -/(seg_file act) in Hda.
      by rw /held Hg Hda records_frames; [apply Ha|]. }
  assert (filter (λ s, is_Some (fs_names σg !! seg_path s)) (log_segments l) = log_segments l) as EF.
  { apply filter_all, Forall_forall. intros s Hs'. destruct (log_rep_seg _ _ _ Hr s Hs') as [ps Hps].
    rw (of_names _ _ _ Ho) (rep_name _ _ _ Hps). eauto. }
  pose proof (lr_first _ _ _ Hr). pose proof (lr_bound _ _ _ Hr). pose proof (lr_last _ _ _ Hr) as Hl.
  rw concat_app /= app_nil_r zlen_app in Hl.
  pose proof (zlen_nonneg (concat ipss)). pose proof (zlen_nonneg aps).
  destruct (log_open_found l σ _ σg max Hr) as [(l' & σ' & Eo & Er)|(msg & σ' & Eo & Hd)];
    [by eapply only_files_fault_free|by rw (of_names _ _ _ Ho)| |done| | |right; eauto].
  - intros fd Hfd. destruct (decide (fd = seg_file act)) as [->|]; [done|].
    rw (of_inodes _ _ _ Ho) //. set_solver.
  - rw EF Es. by destruct init.
  - left. exists l', σ'. split; [done|]. rw Er EF Eh Es fmap_app /=.
    rw spelled_app ?length_fmap ?(Forall2_length _ _ _ Hi) // Hbi spelled_consecutive; [lia..|].
    rw Hba /spelled /= app_nil_r wnumbered_app wnumbered_small; [lia..|].
    rw al_entries_numbered /= concat_app /= app_nil_r numbered_app -!app_assoc.
    do 5 f_equal. lia.
Qed.

End log_crash.

(** ** Witness *)

#[local] Existing Instance crc32fast.

(** The demo log with its directory entries on disk, once more synced; three more appends
    and a power loss. *)
Definition synced_demo : Log * fs := (log_sync (demo_log, names_durable demo_disk)).2.
Definition crashed_appends : fs := power_loss (log_append_all [one; two; one] synced_demo).2.2.

Lemma acknowledged_appends_survive_witness :
  (log_sync (demo_log, names_durable demo_disk)).1 = Ok tt
  ∧ ((∃ l' σ' more, log_open (log_dir demo_log) 20 crashed_appends = (Ok l', σ')
        ∧ log_read_all l' σ' = (Ok (al_entries (MkALog 1 demo_records) ++ more), σ'))
     ∨ (∃ msg σ', log_open (log_dir demo_log) 20 crashed_appends = (Err (ECorruption msg), σ')
          ∧ damaged crashed_appends)).
Proof.
  destruct demo_log_abs as (Ha & Hs & _).
  apply (acknowledged_appends_survive demo_log (names_durable demo_disk) (MkALog 1 demo_records)
           [one; two; one] crashed_appends 20).
  - exact Hs.
  - by apply names_durable_abs.
  - evaluate.
  - evaluate.
  - evaluate.
  - apply power_loss_crash.
  - apply files_bounded_alt. evaluate.
Defined.
