(* ===== verification/AtomicFile.v ===== *)
(** * AtomicFile: replacing a file atomically.

    The snapshot writer (src/store/snapshot.rs) and the hard-state writer
    (src/raft/state.rs) publish a file the same way: write a temporary file, [fsync] it,
    rename it into place, [fsync] the directory.  This file has those steps as one
    operation and the states a run of them can end in, whatever system call fails. *)

From Corelib Require Import ssreflect.
From stdpp Require Import base gmap strings list.
From S2P Require Import Prelude Text Fs.

(** The steps the two writers share. *)
Definition replace_file (tmp final : path) (bs : list byte) : M fs unit :=
  let! fd := open_truncate tmp in
  do! file_write fd bs then
  do! sync_all fd then
  rename tmp final.
Definition publish (tmp final dir : path) (bs : list byte) : M fs unit :=
  do! replace_file tmp final bs then sync_dir dir.

(** The directory entries after [sync_dir]. *)
Definition synced_names (d : path) (names dn : gmap path nat) : gmap path nat :=
  filter (λ '(p, _), in_dir d p) names ∪ filter (λ '(p, _), ¬ in_dir d p) dn.

Lemma lookup_synced_names_in d names dn p :
  in_dir d p → synced_names d names dn !! p = names !! p.
Proof.
  intros Hd. rw /synced_names. destruct (names !! p) as [fd|] eqn:E.
  - apply lookup_union_Some_l, map_lookup_filter_Some. done.
  - apply lookup_union_None. split; apply map_lookup_filter_None; [by left|right].
    intros fd _. simpl. naive_solver.
Qed.

(** How a run can end, [fd] being the file it writes: before the rename, the names in
    use have not changed, the temporary one aside; after it, the new contents are on disk
    under the new name, and the directory entry is too once the run succeeds. *)
Inductive published (tmp final dir : path) (bs : list byte) (σ : fs) (fd : nat)
    : outcome unit → fs → Prop :=
| published_not r σ' :
    r ≠ Ok tt → fs_dnames σ' = fs_dnames σ →
    (∀ p, p ≠ tmp → fs_names σ' !! p = fs_names σ !! p) →
    fs_names σ' !! tmp = fs_names σ !! tmp ∨ fs_names σ' !! tmp = Some fd →
    published tmp final dir bs σ fd r σ'
| published_renamed r σ' :
    r ≠ Ok tt → fs_dnames σ' = fs_dnames σ →
    (∀ p, p ≠ tmp → p ≠ final → fs_names σ' !! p = fs_names σ !! p) →
    fs_names σ' !! tmp = None → fs_names σ' !! final = Some fd → fs_inodes σ' !! fd = Some (Inode bs bs) →
    published tmp final dir bs σ fd r σ'
| published_ok σ' :
    fs_dnames σ' = synced_names dir (fs_names σ') (fs_dnames σ) →
    (∀ p, p ≠ tmp → p ≠ final → fs_names σ' !! p = fs_names σ !! p) →
    fs_names σ' !! tmp = None → fs_names σ' !! final = Some fd → fs_inodes σ' !! fd = Some (Inode bs bs) →
    published tmp final dir bs σ fd (Ok tt) σ'.

(** The file a run writes: the one the temporary name already has, or a new one. *)
Definition tmp_fd (tmp : path) (σ : fs) : nat := default (fs_next σ) (fs_names σ !! tmp).

(** ** One system call under a fault schedule *)

Lemma syscall_cases {A} partial (m : M fs A) σ :
  (∃ k s, syscall partial m σ = (Err (EIo OtherIo), partial k (set_sched s σ)))
  ∨ ∃ s, syscall partial m σ = m (set_sched s σ).
Proof.
  rw /syscall. destruct (fs_sched σ) as [|[k|] s] eqn:E; [right|left|right]; [|by eauto..].
  exists []. by destruct σ; simplify_eq/=.
Qed.

(** Split on the next slot of the schedule. *)
Ltac split_syscall :=
  match goal with |- context [syscall ?f ?m ?σ] =>
    let k := fresh "k" in let s := fresh "s" in
    destruct (syscall_cases f m σ) as [(k & s & ->)|[s ->]]
  end.

(** A call that fails leaves the names alone. *)
Lemma open_truncate_cases p σ :
  fs_wf σ →
  (∃ e σ', open_truncate p σ = (Err e, σ') ∧ fs_names σ' = fs_names σ
     ∧ fs_dnames σ' = fs_dnames σ ∧ fs_dirs σ' = fs_dirs σ ∧ fs_inodes σ' = fs_inodes σ)
  ∨ (∃ σ' i, open_truncate p σ = (Ok (tmp_fd p σ), σ')
       ∧ fs_names σ' = <[p := tmp_fd p σ]> (fs_names σ) ∧ fs_dnames σ' = fs_dnames σ
       ∧ fs_dirs σ' = fs_dirs σ
       ∧ fs_inodes σ' = <[tmp_fd p σ := Inode [] i]> (fs_inodes σ)).
Proof.
  intros Hwf. rw /open_truncate /tmp_fd.
  split_syscall; [left; eauto 10|].
  change (parent_exists p (set_sched s σ)) with (parent_exists p σ).
  destruct (parent_exists p σ); [right|left; eauto 10].
  cbn [fs_names set_sched]. destruct (fs_names σ !! p) as [fd|] eqn:En.
  - destruct (wf_names _ Hwf _ _ En) as [i Hi]. eexists _, (i_durable i). split; [done|].
    cbn [fs_names fs_dnames fs_dirs fs_inodes set_sched set_inodes default].
    split_and!; [by rw insert_id|done|done|].
    by rw (alter_alt_Some _ _ _ i).
  - eexists _, []. split; [done|]. done.
Qed.

(** ** A run of the publication *)

Lemma publish_cases tmp final dir bs σ :
  fs_wf σ → tmp ≠ final →
  let '(r, σ') := publish tmp final dir bs σ in
  published tmp final dir bs σ (tmp_fd tmp σ) r σ' ∧ fs_dirs σ' = fs_dirs σ
  ∧ ∀ fd, fd ≠ tmp_fd tmp σ → fs_inodes σ' !! fd = fs_inodes σ !! fd.
Proof.
  intros Hwf Hne. rw /publish /replace_file. set (fd := tmp_fd tmp σ).
  destruct (open_truncate_cases tmp σ Hwf)
    as [(e & σ1 & E & Hn & Hd & Hdi & Hi)|(σ1 & i & E & Hn & Hd & Hdi & Hi)].
  { rw /bind E. split_and!; [|done|by rw Hi].
    apply published_not; [done|done|by rw Hn|by rw Hn; left]. }
  rw /bind E -/fd. rw -/fd in Hn Hi.
  (* nothing but the temporary file has changed so far *)
  assert (∀ r σ', r ≠ Ok tt → fs_names σ' = fs_names σ1 → fs_dnames σ' = fs_dnames σ1 →
    fs_dirs σ' = fs_dirs σ1 → (∀ fd', fd' ≠ fd → fs_inodes σ' !! fd' = fs_inodes σ1 !! fd') →
    published tmp final dir bs σ fd r σ' ∧ fs_dirs σ' = fs_dirs σ
    ∧ ∀ fd', fd' ≠ fd → fs_inodes σ' !! fd' = fs_inodes σ !! fd') as Hstop.
  { intros r σ' Hr Hn' Hd' Hdi' Hi'. split_and!; [|congruence|].
    - apply published_not; [done|congruence| |].
      + intros p Hp. rw Hn' Hn lookup_insert_ne //.
      + right. by rw Hn' Hn lookup_insert_eq.
    - intros fd' Hfd. rw Hi' // Hi lookup_insert_ne //. }
  rw /file_write /sync_all /rename /sync_dir. split_syscall.
  { apply Hstop; try done. intros fd' Hfd. by rw /= lookup_alter_ne. }
  rw /modify. split_syscall.
  { apply Hstop; try done. intros fd' Hfd. by rw /= lookup_alter_ne. }
  split_syscall.
  { apply Hstop; try done. intros fd' Hfd. by rw /= !lookup_alter_ne. }
  cbn [fs_names set_sched set_inodes]. rw Hn lookup_insert_eq.
  assert (fs_inodes (set_inodes (alter (λ i0, Inode (i_data i0) (i_data i0)) fd)
            (append_data fd bs σ1)) !! fd = Some (Inode bs bs)) as Hnew.
  { by rw /= !lookup_alter_eq Hi lookup_insert_eq. }
  assert (∀ p, p ≠ tmp → p ≠ final →
    <[final:=fd]> (delete tmp (<[tmp:=fd]> (fs_names σ))) !! p = fs_names σ !! p) as Hnames.
  { intros p Hp Hf. rw lookup_insert_ne // lookup_delete_ne // lookup_insert_ne //. }
  assert (∀ fd', fd' ≠ fd → alter (λ i0, Inode (i_data i0) (i_data i0)) fd
    (alter (set_data (λ d, d ++ bs)) fd (fs_inodes σ1)) !! fd' = fs_inodes σ !! fd') as Hoth.
  { intros fd' Hfd. rw !lookup_alter_ne // Hi lookup_insert_ne //. }
  split_syscall; [|cbn [fs_dirs set_sched set_names set_inodes]; case_bool_decide].
  - split_and!; [|done|exact Hoth]. apply published_renamed; try done.
    + by rw /= Hn.
    + by rw /= Hn lookup_insert_ne // lookup_delete_eq.
    + by rw /= Hn lookup_insert_eq.
  - split_and!; [|done|exact Hoth]. apply published_ok; try done.
    + by rw /= Hd Hn.
    + by rw /= Hn.
    + by rw /= Hn lookup_insert_ne // lookup_delete_eq.
    + by rw /= Hn lookup_insert_eq.
  - split_and!; [|done|exact Hoth]. apply published_renamed; try done.
    + by rw /= Hn.
    + by rw /= Hn lookup_insert_ne // lookup_delete_eq.
    + by rw /= Hn lookup_insert_eq.
Qed.

(** Computations that never panic. *)
Definition no_panic {S A} (m : M S A) : Prop := ∀ s, (m s).1 ≠ Panic.

Lemma no_panic_bind {S A B} (m : M S A) (k : A → M S B) :
  no_panic m → (∀ a, no_panic (k a)) → no_panic (bind m k).
Proof.
  intros Hm Hk s. rw /bind. specialize (Hm s). destruct (m s) as [[a| |] s']; [apply Hk|done..].
Qed.

Lemma no_panic_syscall {A} partial (m : M fs A) : no_panic m → no_panic (syscall partial m).
Proof. intros Hm σ. destruct (syscall_cases partial m σ) as [(k & s & ->)|[s ->]]; [done|apply Hm]. Qed.

Lemma publish_no_panic tmp final dir bs : no_panic (publish tmp final dir bs).
Proof.
  repeat (apply no_panic_bind; [|intros ?]); apply no_panic_syscall; intros σ; simpl;
    repeat case_match; done.
Qed.

(** Computations that keep the state well-formed, whatever fails. *)
Definition keeps_wf {A} (m : M fs A) : Prop := ∀ σ, fs_wf σ → fs_wf (m σ).2.

Lemma keeps_wf_bind {A B} (m : M fs A) (k : A → M fs B) :
  keeps_wf m → (∀ a, keeps_wf (k a)) → keeps_wf (bind m k).
Proof.
  intros Hm Hk σ Hwf. specialize (Hm σ Hwf). rw /bind.
  destruct (m σ) as [[a| |] σ']; [by apply Hk|done..].
Qed.

Lemma keeps_wf_syscall {A} partial (m : M fs A) :
  (∀ k σ, fs_wf σ → fs_wf (partial k σ)) → keeps_wf m → keeps_wf (syscall partial m).
Proof.
  intros Hp Hm σ Hwf. assert (∀ s, fs_wf (set_sched s σ)) as Hs by (intros s; by destruct Hwf).
  destruct (syscall_cases partial m σ) as [(k & s & ->)|[s ->]]; [by apply Hp|by apply Hm].
Qed.

Lemma set_names_wf f σ :
  fs_wf σ → (∀ p fd, f (fs_names σ) !! p = Some fd → is_Some (fs_inodes σ !! fd)) →
  fs_wf (set_names f σ).
Proof. intros [_ Hd Hf] Hn. by split. Qed.

Lemma publish_wf tmp final dir bs : keeps_wf (publish tmp final dir bs).
Proof.
  repeat (apply keeps_wf_bind; [|intros ?]); (apply keeps_wf_syscall; [done || (by intros; apply set_inodes_alter_wf)|]);
    intros σ Hwf; simpl; repeat case_match; simpl; try done;
    try (by apply set_inodes_alter_wf); try (by apply add_file_wf).
  - apply set_names_wf; [done|]. intros p fd. rw lookup_insert. case_decide; [intros [= <-]|].
    + by eapply (wf_names _ Hwf).
    + intros [_ Hp]%lookup_delete_Some. by eapply (wf_names _ Hwf).
  - destruct Hwf as [Hn Hd Hf]. split; [done| |done]. simpl. intros p fd.
    rw lookup_union_Some_raw !map_lookup_filter_Some. intros [[Hp _]|[_ [Hp _]]]; eauto.
Qed.

(** ** Crashes *)

(** What a path holds: nothing, or a file with these contents. *)
Definition contents (σ : fs) (p : path) : option (list byte) := file_data σ <$> fs_names σ !! p.

(** [p] holds its contents durably: the entry and the bytes are on disk. *)
Definition durable_at (σ : fs) (p : path) : Prop :=
  fs_dnames σ !! p = fs_names σ !! p
  ∧ ∀ fd, fs_names σ !! p = Some fd → file_durable σ fd = file_data σ fd.

(** After a reboot everything that is there is on disk. *)
Lemma crash_all_durable σ σc p : crash σ σc → durable_at σc p.
Proof.
  intros Hcr. split; [by rw (crash_dnames _ _ Hcr)|].
  intros fd _. pose proof (crash_inodes _ _ Hcr fd) as Hi. rw /file_durable /file_data.
  by destruct Hi as [i i' [E _]|]; simpl.
Qed.

Lemma crash_durable_at σ σc p : crash σ σc → durable_at σ p → contents σc p = contents σ p.
Proof.
  intros Hcr [Hn Hd]. assert (fs_names σc !! p = fs_names σ !! p) as En.
  { destruct (crash_names _ _ Hcr p) as [-> | ->]; by rw ?Hn. }
  rw /contents En. destruct (fs_names σ !! p) as [fd|] eqn:E; [|done]. simpl. f_equal.
  apply (crash_synced _ _ _ Hcr). by rw Hd.
Qed.

(** The temporary name does not share its file with [p]. *)
Definition no_alias (tmp p : path) (σ : fs) : Prop :=
  ∀ fd, fs_names σ !! tmp = Some fd → fs_names σ !! p ≠ Some fd.

Lemma tmp_fd_ne tmp p σ fd :
  fs_wf σ → no_alias tmp p σ → fs_names σ !! p = Some fd → fd ≠ tmp_fd tmp σ.
Proof.
  intros Hwf Hal Hp. rw /tmp_fd. destruct (fs_names σ !! tmp) as [fd'|] eqn:E; simpl.
  - intros ->. by eapply Hal.
  - pose proof (wf_fresh _ Hwf _ (wf_names _ Hwf _ _ Hp)). lia.
Qed.

Lemma published_crash_inode σ' σc fd bs :
  crash σ' σc → fs_inodes σ' !! fd = Some (Inode bs bs) → file_data σc fd = bs.
Proof.
  intros Hcr Hi. rw (crash_synced _ _ _ Hcr); rw /file_data /file_durable Hi //.
Qed.

(** Atomicity: whatever call fails and wherever the machine stops, the path holds the old
    contents or the new ones, and the new ones once the publication has succeeded. *)
Lemma publish_atomic tmp final dir bs σ σc :
  fs_wf σ → tmp ≠ final → in_dir dir final → no_alias tmp final σ → durable_at σ final →
  crash (publish tmp final dir bs σ).2 σc →
  (contents σc final = contents σ final ∨ contents σc final = Some bs)
  ∧ ((publish tmp final dir bs σ).1 = Ok tt → contents σc final = Some bs).
Proof.
  intros Hwf Hne Hin Hal [Hdn Hdur] Hcr. pose proof (publish_cases tmp final dir bs σ Hwf Hne) as Hp.
  destruct (publish tmp final dir bs σ) as [r σ']. cbn [fst snd] in *.
  destruct Hp as (Hp & Hdirs & Hoth).
  (* a view in which the entry is the old one *)
  assert (fs_names σc !! final = fs_names σ !! final → contents σc final = contents σ final) as Hold.
  { intros En. rw /contents En. destruct (fs_names σ !! final) as [fd|] eqn:E; [|done]. simpl.
    f_equal. pose proof (Hoth fd (tmp_fd_ne _ _ _ _ Hwf Hal E)) as Hsame.
    assert (file_data σ' fd = file_data σ fd) as Hd' by by rw /file_data Hsame.
    rw -Hd'. apply (crash_synced _ _ _ Hcr). rw Hd' -Hdur // /file_durable Hsame //. }
  assert (fs_names σc !! final = Some (tmp_fd tmp σ) →
          fs_inodes σ' !! tmp_fd tmp σ = Some (Inode bs bs) → contents σc final = Some bs) as Hnew.
  { intros En Hi. by rw /contents En /= (published_crash_inode _ _ _ _ Hcr Hi). }
  pose proof (crash_names _ _ Hcr final) as Hcn.
  destruct Hp as [r σ' Hr Hd Hn _|r σ' Hr Hd Hn _ Hf Hi|σ' Hd Hn _ Hf Hi].
  - split; [|done]. left. apply Hold. destruct Hcn as [-> | ->]; [by rw Hd|by rw Hn].
  - split; [|done]. destruct Hcn as [E|E]; [left; apply Hold; by rw E Hd|right].
    apply Hnew; [by rw E|done].
  - assert (contents σc final = Some bs) as Hc; [|by split; [right|]].
    apply Hnew; [|done]. destruct Hcn as [E|E]; rw E //.
    by rw Hd lookup_synced_names_in.
Qed.

(** Without faults the publication succeeds. *)
Lemma publish_ok tmp final dir bs σ :
  fault_free σ → fs_wf σ → tmp ≠ final → in_dir dir tmp → dir ∈ fs_dirs σ →
  (publish tmp final dir bs σ).1 = Ok tt ∧ fault_free (publish tmp final dir bs σ).2.
Proof.
  intros Hs Hwf Hne Htmp Hdir. 
  rw /publish /replace_file /bind /open_truncate /file_write /sync_all /rename /sync_dir /fault_free.
  rw (syscall_ok _ _ _ Hs) /parent_exists Htmp bool_decide_eq_true_2 //.
  destruct (fs_names σ !! tmp) as [fd|] eqn:E; do 2 (rw syscall_ok // /modify);
    rw syscall_ok //; cbn [fs_names set_inodes append_data add_file];
    rw ?E ?lookup_insert_eq syscall_ok //= bool_decide_eq_true_2 //.
Qed.

(** ** Any number of failed attempts

    After a failed publication the entry on disk and the entry in use may differ.  A reader
    is safe if both of them, and so whatever a reboot finds, satisfy what it expects. *)

Definition view_fd (σ : fs) (p : path) (fd : nat) : Prop :=
  fs_names σ !! p = Some fd ∨ fs_dnames σ !! p = Some fd.

Record views_ok (σ : fs) (p : path) (Q : option (list byte) → Prop) : Prop := {
  vo_none : fs_names σ !! p = None ∨ fs_dnames σ !! p = None → Q None;
  vo_some fd : view_fd σ p fd → file_durable σ fd = file_data σ fd ∧ Q (Some (file_data σ fd))
}.

(** The file of the temporary name cannot be reached under [p]. *)
Definition unaliased (tmp p : path) (σ : fs) : Prop :=
  ∀ fd, fs_names σ !! tmp = Some fd → ¬ view_fd σ p fd.

Lemma views_ok_crash σ σc p Q : crash σ σc → views_ok σ p Q → views_ok σc p Q.
Proof.
  intros Hcr [Hnone Hsome]. pose proof (crash_names _ _ Hcr p) as Hcn. split.
  - rw (crash_dnames _ _ Hcr). intros Hv. apply Hnone. destruct Hcn as [E|E]; rw E in Hv; tauto.
  - intros fd Hv. rw /view_fd (crash_dnames _ _ Hcr) in Hv.
    assert (view_fd σ p fd) as Hv' by (rw /view_fd; destruct Hcn as [E|E]; rw E in Hv; tauto).
    destruct (Hsome fd Hv') as [Hd HQ]. rw (crash_synced _ _ _ Hcr); [done|]. split; [|done].
    pose proof (crash_synced _ _ fd Hcr (eq_sym Hd)) as Hd'. rw -Hd'.
    apply (crash_all_durable σ σc p Hcr). tauto.
Qed.

Lemma views_ok_impl σ p (Q Q' : option (list byte) → Prop) :
  views_ok σ p Q → (∀ o, Q o → Q' o) → views_ok σ p Q'.
Proof.
  intros [Hn Hs] Himp. split; [by intros Hv; apply Himp, Hn|].
  intros fd Hv. destruct (Hs fd Hv). auto.
Qed.

Lemma tmp_fd_view tmp p σ fd :
  fs_wf σ → unaliased tmp p σ → view_fd σ p fd → fd ≠ tmp_fd tmp σ.
Proof.
  intros Hwf Hal Hv. rw /tmp_fd. destruct (fs_names σ !! tmp) as [fd'|] eqn:E; simpl.
  - intros ->. by eapply Hal.
  - assert (is_Some (fs_inodes σ !! fd)) as Hi.
    { destruct Hv as [Hv|Hv]; [by eapply wf_names|by eapply wf_dnames]. }
    pose proof (wf_fresh _ Hwf _ Hi). lia.
Qed.

Lemma publish_views tmp final dir bs σ Q :
  fs_wf σ → tmp ≠ final → in_dir dir final → unaliased tmp final σ → views_ok σ final Q →
  Q (Some bs) →
  let '(r, σ') := publish tmp final dir bs σ in
  unaliased tmp final σ' ∧ views_ok σ' final Q
  ∧ (r = Ok tt → views_ok σ' final (λ o, o = Some bs)).
Proof.
  intros Hwf Hne Hin Hal [Hnone Hsome] HQ.
  pose proof (publish_cases tmp final dir bs σ Hwf Hne) as Hp.
  destruct (publish tmp final dir bs σ) as [r σ']. destruct Hp as (Hp & _ & Hoth).
  assert (∀ fd, view_fd σ final fd → file_durable σ' fd = file_data σ' fd ∧ Q (Some (file_data σ' fd)))
    as Hold.
  { intros fd Hv. pose proof (Hoth fd (tmp_fd_view _ _ _ _ Hwf Hal Hv)) as E.
    rw /file_durable /file_data E. by apply Hsome. }
  assert (∀ P : option (list byte) → Prop, P (Some bs) →
    fs_inodes σ' !! tmp_fd tmp σ = Some (Inode bs bs) →
    file_durable σ' (tmp_fd tmp σ) = file_data σ' (tmp_fd tmp σ) ∧ P (Some (file_data σ' (tmp_fd tmp σ))))
    as Hnew by (intros P HP Hi; by rw /file_durable /file_data Hi).
  destruct Hp as [r σ' Hr Hd Hn Ht|r σ' Hr Hd Hn Ht Hf Hi|σ' Hd Hn Ht Hf Hi].
  - assert (∀ fd, view_fd σ' final fd → view_fd σ final fd) as Hv by (intros fd; by rw /view_fd Hd Hn).
    split_and!; [|split; [by rw Hd Hn|by eauto]|done].
    intros fd Htmp Hx%Hv. pose proof (tmp_fd_view _ _ _ _ Hwf Hal Hx).
    destruct Ht as [Ht|Ht]; rw Ht in Htmp; [by eapply Hal|by simplify_eq].
  - split_and!; [by intros fd; rw Ht| |done]. split.
    + rw Hd Hf. intros [?|E]; [done|]. apply Hnone. by right.
    + intros fd [E|E]; [rw Hf in E; simplify_eq; auto|]. apply Hold. right. by rw -Hd.
  - assert (fs_dnames σ' !! final = Some (tmp_fd tmp σ)) as Hdf.
    { by rw Hd lookup_synced_names_in. }
    assert (∀ P : option (list byte) → Prop, P (Some bs) → views_ok σ' final P) as Hviews.
    { intros P HP. split; [rw Hf Hdf; by intros [|]|].
      intros fd [E|E]; rw ?Hf ?Hdf in E; simplify_eq; auto. }
    split_and!; [by intros fd; rw Ht|by apply Hviews|by intros _; apply Hviews].
Qed.
