(* ===== verification/Codec.v ===== *)
(** * Codec: what the program relies on from [bincode].

    [bincode] is a dependency, so its encoding is a parameter of the model: the class
    [Bincode A] has the two functions the sources call and the round trip its
    documentation promises.  The second half gives one concrete instance, with the
    fixed-width little-endian layout of [bincode] 1.3, on which examples can be run. *)

From Corelib Require Import ssreflect.
From stdpp Require Import base gmap strings list.
From S2P Require Import Prelude.

#[local] Unset Program Cases.

Class Bincode (A : Type) := {
  serialize : A → option (list byte);
  deserialize : list byte → option A;
  (** the values of the Rust type: integers in range, lengths that fit [u64] *)
  representable : A → Prop;
  serialize_representable a : representable a → is_Some (serialize a);
  deserialize_serialize a bs : representable a → serialize a = Some bs → deserialize bs = Some a
}.

(** [bincode::serialize(&a)?] and [bincode::deserialize(&bs)?]. *)
Definition bincode_serialize `{Bincode A} (a : A) : outcome (list byte) :=
  match serialize a with Some bs => Ok bs | None => Err (EEncode "serialize") end.
Definition bincode_deserialize `{Bincode A} (bs : list byte) : outcome A :=
  match deserialize bs with Some a => Ok a | None => Err (EEncode "deserialize") end.

Lemma bincode_serialize_ok `{Bincode A} (a : A) :
  representable a →
  ∃ bs, bincode_serialize a = Ok bs ∧ bincode_deserialize bs = Ok a.
Proof.
  intros Ha. destruct (serialize_representable a Ha) as [bs E]. exists bs.
  by rw /bincode_serialize /bincode_deserialize E (deserialize_serialize a bs Ha E).
Qed.

Lemma bincode_deserialize_ok `{Bincode A} (a : A) bs :
  representable a → bincode_serialize a = Ok bs → bincode_deserialize bs = Ok a.
Proof.
  rw /bincode_serialize /bincode_deserialize. intros Ha. destruct (serialize a) eqn:E; [|done].
  intros [= <-]. by rw (deserialize_serialize a _ Ha E).
Qed.

(** ** A concrete encoding *)

(** An encoding that can be followed by more bytes. *)
Class Codec (A : Type) := {
  put : A → list byte;
  get : list byte → option (A * list byte);
  valid : A → Prop;
  get_put a rest : valid a → get (put a ++ rest) = Some (a, rest)
}.

(** A reader of the first [n] bytes. *)
Definition get_bytes (n : nat) (bs : list byte) : option (list byte * list byte) :=
  if decide (n ≤ length bs)%nat then Some (take n bs, drop n bs) else None.

Lemma get_bytes_app bs rest : get_bytes (length bs) (bs ++ rest) = Some (bs, rest).
Proof.
  rw /get_bytes decide_True; [rw length_app; lia|]. by rw take_app_length drop_app_length.
Qed.

(** An [n]-byte little-endian integer. *)
Definition get_int (n : nat) (bs : list byte) : option (Z * list byte) :=
  '(x, rest) ← get_bytes n bs; Some (from_le_bytes x, rest).

Lemma get_int_put n z rest :
  0 ≤ z < 256 ^ Z.of_nat n → get_int n (to_le_bytes n z ++ rest) = Some (z, rest).
Proof.
  intros Hz. rw /get_int -{1}(length_to_le_bytes n z) get_bytes_app /=. by rw from_to_le_bytes.
Qed.

#[global] Program Instance codec_u64 : Codec Z := {
  put := to_le_bytes 8; get := get_int 8; valid z := 0 ≤ z ≤ u64_max }.
Next Obligation. intros z rest Hz. apply get_int_put. rw /u64_max in Hz. lia. Qed.

(** [Vec<u8>]: its length, then its bytes. *)
#[global] Program Instance codec_bytes : Codec (list byte) := {
  put bs := put (zlen bs) ++ bs;
  get bs := '(n, rest) ← get bs; get_bytes (Z.to_nat n) rest;
  valid bs := zlen bs ≤ u64_max }.
Next Obligation.
  intros bs rest Hb. rw -app_assoc get_put; [split; [apply zlen_nonneg|done]|]. simpl.
  by rw /zlen Nat2Z.id get_bytes_app.
Qed.

#[global] Program Instance codec_prod `{Codec A, Codec B} : Codec (A * B) := {
  put '(a, b) := put a ++ put b;
  get bs := '(a, rest) ← get bs; '(b, rest) ← get rest; Some ((a, b), rest);
  valid '(a, b) := valid a ∧ valid b }.
Next Obligation. intros A ? B ? [a b] rest [Ha Hb]. rw -app_assoc get_put //= get_put //. Qed.

(** [Option]: a tag byte, then the value. *)
Definition put_option `{Codec A} (o : option A) : list byte :=
  match o with None => to_le_bytes 1 0 | Some a => to_le_bytes 1 1 ++ put a end.
Definition get_option `{Codec A} (bs : list byte) : option (option A * list byte) :=
  '(tag, rest) ← get_int 1 bs;
  if tag =? 0 then Some (None, rest)
  else if tag =? 1 then '(a, rest) ← get rest; Some (Some a, rest)
  else None.

#[global] Program Instance codec_option `{Codec A} : Codec (option A) := {
  put := put_option; get := get_option;
  valid o := match o with None => True | Some a => valid a end }.
Next Obligation.
  intros A ? [a|] rest Ha; rw /get_option /put_option; [rw -app_assoc|]; rw get_int_put //=.
  by rw get_put.
Qed.

(** A sequence of [n] items, and a [Vec] or map: the number of items first. *)
Fixpoint get_items `{Codec A} (n : nat) (bs : list byte) : option (list A * list byte) :=
  match n with
  | O => Some ([], bs)
  | S n => '(a, rest) ← get bs; '(l, rest) ← get_items n rest; Some (a :: l, rest)
  end.

Lemma get_items_put `{Codec A} (l : list A) rest :
  Forall valid l → get_items (length l) (concat (put <$> l) ++ rest) = Some (l, rest).
Proof.
  induction 1 as [|a l Ha Hl IH]; [done|]. rw /= -app_assoc get_put //= IH //.
Qed.

Definition put_seq `{Codec A} (l : list A) : list byte := put (zlen l) ++ concat (put <$> l).
Definition get_seq `{Codec A} (bs : list byte) : option (list A * list byte) :=
  '(n, rest) ← get bs; get_items (Z.to_nat n) rest.

Lemma get_seq_put `{Codec A} (l : list A) rest :
  zlen l ≤ u64_max → Forall valid l → get_seq (put_seq l ++ rest) = Some (l, rest).
Proof.
  intros Hn Hl. rw /get_seq /put_seq -app_assoc get_put; [split; [apply zlen_nonneg|done]|].
  rw /= /zlen Nat2Z.id get_items_put //.
Qed.

Section codec_map.
Context `{Countable K} {V : Type} {codec_K : Codec K} {codec_V : Codec V}.

Definition put_map (m : gmap K V) : list byte := put_seq (A := K * V) (map_to_list m).
Definition get_map (bs : list byte) : option (gmap K V * list byte) :=
  '(l, rest) ← get_seq (A := K * V) bs; Some (list_to_map l, rest).

#[global] Program Instance codec_map : Codec (gmap K V) := {
  put := put_map; get := get_map;
  valid m := zlen (map_to_list m) ≤ u64_max ∧ Forall (valid (A := K * V)) (map_to_list m) }.
Next Obligation.
  intros m rest [Hn Hl]. rw /get_map /put_map get_seq_put //= list_to_map_to_list //.
Qed.
End codec_map.

(** [bincode::deserialize] accepts trailing bytes. *)
Program Definition bincode_codec `{Codec A} : Bincode A := {|
  serialize a := Some (put a);
  deserialize bs := fst <$> get bs;
  representable := valid |}.
Next Obligation. intros. eauto. Qed.
Next Obligation.
  intros A ? a bs Ha [= <-]. pose proof (get_put a [] Ha) as E. rw app_nil_r in E. by rw E.
Qed.

(** An encoding through an isomorphic type. *)
Section codec_iso.
Context {A B : Type} {codec_B : Codec B} (f : A → B) (g : B → A) (gf : ∀ a, g (f a) = a).

Program Definition codec_iso : Codec A := {|
  put a := put (A := B) (f a);
  get bs := '(b, rest) ← get (A := B) bs; Some (g b, rest);
  valid a := valid (A := B) (f a) |}.
Next Obligation. intros a rest Ha. cbn beta. rw get_put //=. by rw gf. Qed.
End codec_iso.
