(* ===== verification/Config.v ===== *)
(** * Config: node configuration (src/config.rs, and the peer argument of src/main.rs).

    [validate] is what the rest of the system assumes of a cluster: distinct node ids, so
    that two quorums share a node, and timeouts in the right order. *)

From Corelib Require Import ssreflect.
From Stdlib Require Import Ascii.
From stdpp Require Import base gmap strings list sorting sets.
From S2P Require Import Prelude Text.

Record Peer := MkPeer { peer_id : Z; peer_addr : string }.

(** Durations are in nanoseconds. *)
Definition from_millis (ms : Z) : Z := ms * 1000000.

(** The address type and its parser come from [std::net]; nothing here looks inside. *)
Section config.
Context {SocketAddr : Type}.

Record Config := MkConfig {
  cfg_id : Z;
  cfg_listen_addr : SocketAddr;
  cfg_peers : list Peer;
  cfg_data_dir : path;
  cfg_heartbeat_interval : Z;
  cfg_election_timeout : Z * Z;
  cfg_segment_max_bytes : Z;
  cfg_snapshot_threshold : Z
}.

(** [Config::new] and [Config::with_peers]. *)
Definition config_new (id : Z) (listen_addr : SocketAddr) (data_dir : path) : Config :=
  MkConfig id listen_addr [] data_dir (from_millis 50) (from_millis 150, from_millis 300)
    (64 * 1024 * 1024) 10000.
Definition with_peers (peers : list Peer) (cfg : Config) : Config :=
  MkConfig (cfg_id cfg) (cfg_listen_addr cfg) peers (cfg_data_dir cfg)
    (cfg_heartbeat_interval cfg) (cfg_election_timeout cfg) (cfg_segment_max_bytes cfg)
    (cfg_snapshot_threshold cfg).

Definition wal_dir (cfg : Config) : path := join (cfg_data_dir cfg) "wal".
Definition snapshot_dir (cfg : Config) : path := join (cfg_data_dir cfg) "snapshots".
Definition hard_state_path (cfg : Config) : path := join (cfg_data_dir cfg) "hard_state".

Definition cluster_size (cfg : Config) : Z := zlen (cfg_peers cfg) + 1.
Definition quorum (cfg : Config) : Z := cluster_size cfg / 2 + 1.

(** [ids.windows(2).any(|w| w[0] == w[1])]. *)
Fixpoint adjacent_equal (ids : list Z) : bool :=
  match ids with
  | a :: ((b :: _) as rest) => (a =? b) || adjacent_equal rest
  | _ => false
  end.

(** [Config::validate]. *)
Definition validate (cfg : Config) : outcome unit :=
  if cfg_id cfg =? 0 then Err (EConfig "node id must be non-zero")
  else if (cfg_election_timeout cfg).1 <=? cfg_heartbeat_interval cfg then
    Err (EConfig "election timeout must be larger than the heartbeat interval")
  else if (cfg_election_timeout cfg).2 <=? (cfg_election_timeout cfg).1 then
    Err (EConfig "election timeout range must be non-empty (start < end)")
  else
    let ids := (peer_id <$> cfg_peers cfg) ++ [cfg_id cfg] in
    let ids := merge_sort Z.le ids in
    if adjacent_equal ids then Err (EConfig "duplicate node id in cluster")
    else Ok tt.

(** [FileConfig] and [FileConfig::into_config]. *)
Record FileConfig := MkFileConfig {
  fc_id : Z;
  fc_listen_addr : string;
  fc_peers : list Peer;
  fc_data_dir : path;
  fc_heartbeat_ms : Z;
  fc_election_min_ms : Z;
  fc_election_max_ms : Z;
  fc_segment_max_bytes : Z;
  fc_snapshot_threshold : Z
}.

Context (parse_addr : string → SocketAddr + string).

Definition into_config (fc : FileConfig) : outcome Config :=
  match parse_addr (fc_listen_addr fc) with
  | inr e => Err (EConfig ("invalid listen_addr: " +:+ e))
  | inl listen_addr =>
      let cfg := MkConfig (fc_id fc) listen_addr (fc_peers fc) (fc_data_dir fc)
        (from_millis (fc_heartbeat_ms fc))
        (from_millis (fc_election_min_ms fc), from_millis (fc_election_max_ms fc))
        (fc_segment_max_bytes fc) (fc_snapshot_threshold fc) in
      match validate cfg with
      | Ok _ => Ok cfg
      | Err e => Err e
      | Panic => Panic
      end
  end.

(** The ids of a cluster. *)
Definition members (cfg : Config) : list Z := cfg_id cfg :: (peer_id <$> cfg_peers cfg).

Record valid_config (cfg : Config) : Prop := {
  vc_id : cfg_id cfg ≠ 0;
  vc_members : NoDup (members cfg);
  vc_heartbeat : cfg_heartbeat_interval cfg < (cfg_election_timeout cfg).1;
  vc_range : (cfg_election_timeout cfg).1 < (cfg_election_timeout cfg).2
}.

(** ** Facts *)

Lemma adjacent_equal_sorted ids :
  StronglySorted Z.le ids → adjacent_equal ids = false ↔ NoDup ids.
Proof.
  induction 1 as [|a ids Hs IH Ha]; [split; [constructor|done]|].
  destruct ids as [|b ids]; [split; [intros _; apply NoDup_singleton|done]|].
  cbn [adjacent_equal]. rw orb_false_iff IH Z.eqb_neq (NoDup_cons a (b :: ids)). split;
    [|by rw not_elem_of_cons; naive_solver].
  intros [Hne Hnd]. split; [|done]. intros [->|Hin]%elem_of_cons; [done|].
  apply Forall_cons in Ha as [Hab _].
  apply StronglySorted_inv in Hs as [_ Hb].
  pose proof (proj1 (Forall_forall _ _) Hb a Hin) as Hba. simpl in Hba. lia.
Qed.

Lemma validate_spec cfg : validate cfg = Ok tt ↔ valid_config cfg.
Proof.
  assert (adjacent_equal (merge_sort Z.le ((peer_id <$> cfg_peers cfg) ++ [cfg_id cfg])) = false
          ↔ NoDup (members cfg)) as Hids.
  { rw adjacent_equal_sorted; [apply StronglySorted_merge_sort; apply _|].
    rw merge_sort_Permutation /members. by rw Permutation_app_comm. }
  rw /validate. split.
  - destruct (Z.eqb_spec (cfg_id cfg) 0); [done|].
    destruct (Z.leb_spec (cfg_election_timeout cfg).1 (cfg_heartbeat_interval cfg)); [done|].
    destruct (Z.leb_spec (cfg_election_timeout cfg).2 (cfg_election_timeout cfg).1); [done|].
    destruct (adjacent_equal _) eqn:E; [done|]. intros _. split; [done| |lia|lia]. by apply Hids.
  - intros [Hid Hnd Hh Hr]. destruct (Z.eqb_spec (cfg_id cfg) 0); [done|].
    destruct (Z.leb_spec (cfg_election_timeout cfg).1 (cfg_heartbeat_interval cfg)); [lia|].
    destruct (Z.leb_spec (cfg_election_timeout cfg).2 (cfg_election_timeout cfg).1); [lia|].
    by rw (proj2 Hids Hnd).
Qed.

(** Two lists without repetition, drawn from one list, that are long enough, share an
    element. *)
Lemma pigeonhole `{EqDecision A} (l l1 l2 : list A) :
  NoDup l1 → NoDup l2 → l1 ⊆ l → l2 ⊆ l → (length l < length l1 + length l2)%nat →
  ∃ x, x ∈ l1 ∧ x ∈ l2.
Proof.
  intros H1 H2 S1 S2 Hlen.
  destruct (decide (Exists (λ x, x ∈ l2) l1)) as [(x & ? & ?)%Exists_exists|Hn]; [eauto|exfalso].
  rw -length_app in Hlen. apply (Nat.lt_irrefl (length l)). eapply Nat.lt_le_trans; [exact Hlen|].
  apply submseteq_length, NoDup_submseteq.
  - apply NoDup_app. split_and!; [done| |done]. intros x Hx Hx2. apply Hn, Exists_exists. eauto.
  - set_solver.
Qed.

Lemma quorum_intersect cfg (q1 q2 : list Z) :
  NoDup q1 → NoDup q2 → q1 ⊆ members cfg → q2 ⊆ members cfg →
  quorum cfg ≤ zlen q1 → quorum cfg ≤ zlen q2 → ∃ n, n ∈ q1 ∧ n ∈ q2.
Proof.
  intros H1 H2 S1 S2 L1 L2. apply (pigeonhole (members cfg)); try done.
  rw /quorum /cluster_size /zlen in L1 L2. rw /members /= length_fmap.
  pose proof (Z.div_mod (Z.of_nat (length (cfg_peers cfg)) + 1) 2 ltac:(lia)).
  pose proof (Z.mod_pos_bound (Z.of_nat (length (cfg_peers cfg)) + 1) 2 ltac:(lia)). lia.
Qed.

(** [validate] accepts exactly the configurations with a non-zero id, pairwise distinct
    node ids and heartbeat < election minimum < election maximum, and every configuration
    that [into_config] lets through is one of them. *)
Theorem validate_exact cfg fc :
  (validate cfg = Ok tt ↔ valid_config cfg) ∧ (into_config fc = Ok cfg → valid_config cfg).
Proof.
  split; [apply validate_spec|]. rw /into_config.
  destruct (parse_addr _) as [addr|e]; [|done].
  destruct (validate _) as [[]| |] eqn:E; [|done..]. intros [= <-]. by apply validate_spec.
Qed.

End config.
Arguments Config : clear implicits.

(** [parse_peer] of src/main.rs. *)
Definition parse_peer (s : string) : Peer + string :=
  match split_once "="%char s with
  | None => inr ("expected `id=host:port`, got `" +:+ s +:+ "`")
  | Some (id, addr) =>
      match parse_u64 id with
      | None => inr ("invalid peer id in `" +:+ s +:+ "`")
      | Some id => inl (MkPeer id addr)
      end
  end.

(** ** Witness *)

Lemma validate_exact_witness :
  let parse (s : string) : unit + string := inl tt in
  let fc := MkFileConfig 1 "127.0.0.1:6001" [MkPeer 2 "b:1"; MkPeer 3 "c:1"] ["data"%string]
              50 150 300 1048576 10000 in
  let cfg := MkConfig 1 tt [MkPeer 2 "b:1"; MkPeer 3 "c:1"] ["data"%string] (from_millis 50)
               (from_millis 150, from_millis 300) 1048576 10000 in
  into_config parse fc = Ok cfg ∧ valid_config cfg.
Proof.
  intros parse fc cfg. assert (into_config parse fc = Ok cfg) as E by (vm_compute; reflexivity).
  split; [exact E|]. exact (proj2 (validate_exact parse cfg fc) E).
Defined.
