(* ===== verification/MemTable.v ===== *)
(** * MemTable: the state machine (src/store/memtable.rs).

    A map and the index of the last command folded into it.  The contract is that the
    table reached from index 0 depends only on the committed sequence, however often a
    prefix of it is replayed. *)

From Corelib Require Import ssreflect.
From stdpp Require Import base gmap strings list.
From S2P Require Import Prelude Codec.

Inductive Command :=
| Put (key value : list byte)
| Delete (key : list byte)
| Noop.

#[global] Instance Command_eq_dec : EqDecision Command.
Proof. solve_decision. Defined.

(** [BTreeMap<Vec<u8>, Vec<u8>>]: only the snapshot encoding looks at its order. *)
Abbreviation kv_map := (gmap (list byte) (list byte)) (only parsing).

Record MemTable := MkMemTable { mt_map : kv_map; mt_last_applied : Z }.

#[global] Instance MemTable_eq_dec : EqDecision MemTable.
Proof. solve_decision. Defined.

(** [MemTable::new] and [MemTable::from_parts]. *)
Definition memtable_new : MemTable := MkMemTable ∅ 0.
Definition from_parts (map : kv_map) (last_applied : Z) : MemTable := MkMemTable map last_applied.

(** [MemTable::apply], as compiled without debug assertions. *)
Definition memtable_apply (index : Z) (command : Command) (m : MemTable) : MemTable :=
  if index <=? mt_last_applied m then m
  else
    let map :=
      match command with
      | Put key value => <[key := value]> (mt_map m)
      | Delete key => delete key (mt_map m)
      | Noop => mt_map m
      end in
    MkMemTable map index.

(** What its [debug_assert_eq!] requires. *)
Definition apply_in_order (index : Z) (m : MemTable) : bool :=
  (index <=? mt_last_applied m) || (index =? u64_add (mt_last_applied m) 1).

Definition memtable_get (key : list byte) (m : MemTable) : option (list byte) := mt_map m !! key.
Definition memtable_len (m : MemTable) : Z := Z.of_nat (size (mt_map m)).
Definition memtable_is_empty (m : MemTable) : bool := memtable_len m =? 0.

(** ** The specification: the table after the first [n] commands *)

Definition effect (m : kv_map) (c : Command) : kv_map :=
  match c with
  | Put k v => <[k := v]> m
  | Delete k => delete k m
  | Noop => m
  end.

Definition state_at (cs : list Command) (n : nat) : MemTable :=
  MkMemTable (foldl effect ∅ (take n cs)) (Z.of_nat n).

(** The committed entries numbered [i], ..., [j]. *)
Definition slice (cs : list Command) (i j : nat) : list (Z * Command) :=
  imap (λ k c, (Z.of_nat (i + k), c)) (drop (pred i) (take j cs)).

(** Apply a sequence of entries, as recovery and the apply loop do. *)
Definition apply_all (es : list (Z * Command)) (m : MemTable) : MemTable :=
  foldl (λ m '(i, c), memtable_apply i c m) m es.

(** All the assertions of [apply] hold on the way. *)
Fixpoint all_in_order (es : list (Z * Command)) (m : MemTable) : bool :=
  match es with
  | [] => true
  | (i, c) :: es => apply_in_order i m && all_in_order es (memtable_apply i c m)
  end.

(** ** Facts *)

Lemma state_at_S cs n c :
  cs !! n = Some c →
  memtable_apply (Z.of_nat (S n)) c (state_at cs n) = state_at cs (S n).
Proof.
  intros Hc. rw /memtable_apply /state_at /=. destruct (Z.leb_spec (Z.of_nat (S n)) (Z.of_nat n)); [lia|].
  by rw (take_S_r _ _ _ Hc) foldl_snoc.
Qed.

Lemma memtable_apply_old i c m : i ≤ mt_last_applied m → memtable_apply i c m = m.
Proof. rw /memtable_apply. intros Hi. by destruct (Z.leb_spec i (mt_last_applied m)); [|lia]. Qed.

Lemma slice_cons cs i j c :
  (0 < i ≤ j)%nat → cs !! pred i = Some c →
  slice cs i j = (Z.of_nat i, c) :: slice cs (S i) j.
Proof.
  intros Hij Hc. rw /slice. assert (take j cs !! pred i = Some c) as Hc'.
  { rw lookup_take_lt; [lia|done]. }
  rw (drop_S _ _ _ Hc') /= Nat.add_0_r. f_equal.
  replace (S (pred i)) with i by lia. apply imap_ext. intros k x _. simpl. f_equal. lia.
Qed.

Lemma slice_nil cs i j : (j < i)%nat → slice cs i j = [].
Proof. intros Hij. rw /slice drop_ge //. rw length_take. lia. Qed.

(** Replaying a slice that starts at or below the next index. *)
Lemma replay_slice cs i n j :
  (0 < i ≤ S n)%nat → (n ≤ j ≤ length cs)%nat → Z.of_nat j ≤ u64_max →
  apply_all (slice cs i j) (state_at cs n) = state_at cs j
  ∧ all_in_order (slice cs i j) (state_at cs n) = true.
Proof.
  intros Hi Hj Hm. remember (S j - i)%nat as d eqn:Ed. revert i n Hi Hj Ed.
  induction d as [|d IH]; intros i n Hi Hj Ed.
  { rw slice_nil; [lia|]. by replace n with j by lia. }
  destruct (lookup_lt_is_Some_2 cs (pred i)) as [c Hc]; [lia|].
  rw (slice_cons _ _ _ c) //; [lia|]. cbn [apply_all foldl all_in_order]. rw /apply_in_order.
  cbn [mt_last_applied state_at].
  destruct (decide (i = S n)) as [->|Hne].
  - rw (state_at_S _ _ _ Hc). rw /u64_add u64_small; [lia|].
    destruct (IH (S (S n)) (S n)) as [E1 E2]; [lia..|]. split; [exact E1|].
    rw E2 andb_true_r orb_true_iff Z.eqb_eq. right. lia.
  - rw memtable_apply_old /=; [lia|]. destruct (IH (S i) n) as [E1 E2]; [lia..|].
    split; [exact E1|]. rw E2 andb_true_r orb_true_iff Z.leb_le. left. lia.
Qed.

(** Recovery converges: whatever prefix [n] of the committed commands the table already
    reflects (a snapshot, say), replaying the log from any index at or below the next one
    up to [j] gives exactly the table that applying commands 1 to [j] once gives, and the
    out-of-order assertion of [apply] never fires. *)
Theorem replay_idempotent cs i n j :
  (0 < i ≤ S n)%nat → (n ≤ j ≤ length cs)%nat → Z.of_nat j ≤ u64_max →
  apply_all (slice cs i j) (state_at cs n) = apply_all (slice cs 1 j) memtable_new
  ∧ mt_last_applied (apply_all (slice cs i j) (state_at cs n)) = Z.of_nat j
  ∧ all_in_order (slice cs i j) (state_at cs n) = true.
Proof.
  intros Hi Hj Hm. destruct (replay_slice cs i n j Hi Hj Hm) as [E1 E2].
  destruct (replay_slice cs 1 0 j) as [E3 _]; [lia..|].
  rw E1. split_and!; [by rw -E3|done|done].
Qed.

Lemma replay_idempotent_witness :
  let cs := [Put [x61] [x31]; Put [x62] [x32]; Delete [x61]; Noop] in
  apply_all (slice cs 2 4) (state_at cs 3) = apply_all (slice cs 1 4) memtable_new
  ∧ mt_last_applied (apply_all (slice cs 2 4) (state_at cs 3)) = 4
  ∧ all_in_order (slice cs 2 4) (state_at cs 3) = true.
Proof. intros cs. apply (replay_idempotent cs 2 3 4); simpl; [lia..|]. vm_compute. discriminate. Defined.

(** A new index takes effect once; reads see the last write of a key. *)
Lemma memtable_get_apply i c m k :
  mt_last_applied m < i →
  memtable_get k (memtable_apply i c m) =
    match c with
    | Put k' v => if decide (k = k') then Some v else memtable_get k m
    | Delete k' => if decide (k = k') then None else memtable_get k m
    | Noop => memtable_get k m
    end.
Proof.
  intros Hi. rw /memtable_get /memtable_apply. destruct (Z.leb_spec i (mt_last_applied m)); [lia|].
  destruct c as [k' v|k'|]; simpl; [| |done].
  - case_decide; [by subst; rw lookup_insert_eq|by rw lookup_insert_ne].
  - case_decide; [by subst; rw lookup_delete_eq|by rw lookup_delete_ne].
Qed.

(** ** A concrete encoding of commands, for examples: the tag of the variant, then its
    fields *)

Definition command_sum (c : Command) : Z * (list byte * list byte) :=
  match c with Put k v => (0, (k, v)) | Delete k => (1, (k, [])) | Noop => (2, ([], [])) end.
Definition sum_command (s : Z * (list byte * list byte)) : Command :=
  match s with
  | (0, (k, v)) => Put k v
  | (1, (k, _)) => Delete k
  | _ => Noop
  end.
#[global] Instance codec_command : Codec Command :=
  codec_iso command_sum sum_command ltac:(by intros []).
