(* ===== verification/Snapshot.v ===== *)
(** * Snapshot: writing and loading snapshots (src/store/snapshot.rs).

    The contract is atomicity: whatever call of [write] fails, and wherever the machine
    stops, the next [load_latest] finds the previous snapshot or the new one. *)

From Corelib Require Import ssreflect.
From stdpp Require Import base gmap strings list.
From S2P Require Import Prelude Text Fs AtomicFile Codec MemTable.

Record SnapshotMeta := MkSnapshotMeta { last_included_index : Z; last_included_term : Z }.
Definition default_meta : SnapshotMeta := MkSnapshotMeta 0 0.

Record SnapshotFile := MkSnapshotFile { sf_meta : SnapshotMeta; sf_data : kv_map }.

Definition SNAPSHOT_PREFIX : string := "snapshot-".
Definition SNAPSHOT_SUFFIX : string := ".snap".

Definition snapshot_name (index : Z) : string :=
  SNAPSHOT_PREFIX +:+ fmt_020 index +:+ SNAPSHOT_SUFFIX.
Definition snapshot_path (dir : path) (index : Z) : path := join dir (snapshot_name index).
Definition with_extension (p : path) (ext : string) : path := push_os_str p ("." +:+ ext).

(** The index in the name of a snapshot file; any other name is skipped. *)
Definition snapshot_of_name (name : string) : option Z :=
  rest ← strip_prefix SNAPSHOT_PREFIX name;
  digits ← strip_suffix SNAPSHOT_SUFFIX rest;
  parse_u64 digits.

(** [discover]. *)
Definition discover (dir : path) : M fs (list (Z * path)) :=
  let! exists_ := dir_exists dir in
  if exists_ then
    let! names := read_dir dir in
    ret (omap (λ name, index ← snapshot_of_name name; Some (index, join dir name)) names)
  else ret [].

(** [iter.max_by_key(|(idx, _)| *idx)]: the last one of the largest. *)
Definition max_by_key (l : list (Z * path)) : option (Z * path) :=
  foldl (λ acc x, match acc with
                  | Some y => if x.1 <? y.1 then Some y else Some x
                  | None => Some x
                  end) None l.

Section snapshot.
Context `{Bincode SnapshotFile}.

(** [write]. *)
Definition snapshot_write (dir : path) (meta : SnapshotMeta) (table : MemTable) : M fs path :=
  do! create_dir_all dir then
  let! bytes := lift (bincode_serialize (MkSnapshotFile meta (mt_map table))) in
  let final_path := snapshot_path dir (last_included_index meta) in
  let tmp_path := with_extension final_path "tmp" in
  do! publish tmp_path final_path dir bytes then
  let! found := discover dir in
  do! for_each (λ '(index, p),
        if index =? last_included_index meta then ret tt else ignore (remove_file p)) found then
  ret final_path.

(** [load_latest]. *)
Definition load_latest (dir : path) : M fs (option (SnapshotMeta * MemTable)) :=
  let! found := discover dir in
  match max_by_key found with
  | None => ret None
  | Some (_, p) =>
      let! bytes := fs_read p in
      let! file := lift (bincode_deserialize bytes) in
      let table := from_parts (sf_data file) (last_included_index (sf_meta file)) in
      ret (Some (sf_meta file, table))
  end.

(** ** Names *)

Lemma snapshot_of_name_name index :
  0 ≤ index ≤ u64_max → snapshot_of_name (snapshot_name index) = Some index.
Proof.
  intros Hi. rw /snapshot_of_name /snapshot_name strip_prefix_app. cbn [mbind option_bind].
  rw strip_suffix_app. cbn [mbind option_bind]. by apply parse_u64_fmt_020.
Qed.

Lemma tmp_name dir index :
  with_extension (snapshot_path dir index) "tmp" =
    join dir (snapshot_name index +:+ ".tmp").
Proof. rw /with_extension /push_os_str /snapshot_path /join last_snoc removelast_last //. Qed.

(** A temporary name is not the name of a snapshot. *)
Lemma snapshot_of_tmp s : snapshot_of_name (SNAPSHOT_PREFIX +:+ s +:+ ".tmp") = None.
Proof.
  rw /snapshot_of_name strip_prefix_app. cbn [mbind option_bind].
  assert (strip_suffix SNAPSHOT_SUFFIX (s +:+ ".tmp") = None) as ->; [|done].
  induction s as [|c s IH]; [done|].
  change (String c s +:+ ".tmp") with (String c (s +:+ ".tmp")). cbn [strip_suffix].
  destruct (String.eqb_spec (String c (s +:+ ".tmp")) SNAPSHOT_SUFFIX) as [E|_].
  - exfalso. pose proof (f_equal String.length E) as Hl.
    cbn [String.length] in Hl. rw string_length_app /= in Hl.
    destruct s; simpl in *; [done|lia].
  - by rw IH.
Qed.

(** ** What a directory of snapshots holds *)

(** [file] is the newest snapshot, durably; all names that a reboot can find are
    well-formed and no newer. *)
Definition index_of (file : SnapshotFile) : Z := last_included_index (sf_meta file).
Definition snapshot_value (file : SnapshotFile) : SnapshotMeta * MemTable :=
  (sf_meta file, from_parts (sf_data file) (index_of file)).

Record latest_is (σ : fs) (dir : path) (latest : option SnapshotFile) : Prop := {
  li_names n fd idx :
    fs_names σ !! join dir n = Some fd ∨ fs_dnames σ !! join dir n = Some fd →
    snapshot_of_name n = Some idx →
    n = snapshot_name idx ∧ from_option (λ file, idx ≤ index_of file) False latest;
  li_file file :
    latest = Some file →
    dir ∈ fs_dirs σ ∧ 0 ≤ index_of file ≤ u64_max ∧
    ∃ bs, contents σ (snapshot_path dir (index_of file)) = Some bs
        ∧ bincode_deserialize bs = Ok file
        ∧ durable_at σ (snapshot_path dir (index_of file))
}.

Lemma discover_ok dir σ :
  fault_free σ →
  ∃ found, discover dir σ = (Ok found, σ)
    ∧ ∀ idx p, (idx, p) ∈ found ↔
        dir ∈ fs_dirs σ ∧ ∃ n, p = join dir n ∧ is_Some (fs_names σ !! p) ∧ snapshot_of_name n = Some idx.
Proof.
  intros Hs. rw /discover /dir_exists /bind /gets. case_bool_decide as Hd.
  - rw /read_dir syscall_ok // bool_decide_eq_true_2 //. eexists. split; [done|].
    intros idx p. rw list_elem_of_omap. split.
    + intros (n & [fd Hn]%elem_of_dir_entries & Hx). split; [done|].
      destruct (snapshot_of_name n) as [i|] eqn:En; simplify_eq/=. exists n. rw Hn. eauto.
    + intros (_ & n & -> & Hn & Hi). exists n. rw elem_of_dir_entries Hi. done.
  - exists []. split; [done|]. intros idx p. split; [by intros ?%elem_of_nil|by intros [??]].
Qed.

Lemma max_by_key_spec l :
  match max_by_key l with
  | None => l = []
  | Some x => x ∈ l ∧ ∀ y, y ∈ l → y.1 ≤ x.1
  end.
Proof.
  induction l as [|x l IH] using rev_ind; [done|].
  rw /max_by_key foldl_snoc -/(max_by_key l). destruct (max_by_key l) as [y|].
  - destruct IH as [Hin Hmax]. destruct (Z.ltb_spec x.1 y.1); (split; [set_solver|]);
      intros z [Hz%Hmax|Hz%list_elem_of_singleton]%elem_of_app; subst; lia.
  - subst. split; [set_solver|]. by intros z Hz%list_elem_of_singleton; subst.
Qed.

Lemma load_latest_is σ dir latest :
  fault_free σ → latest_is σ dir latest →
  load_latest dir σ = (Ok (snapshot_value <$> latest), σ).
Proof.
  intros Hs [Hnames Hfile]. destruct (discover_ok dir σ Hs) as (found & E & Hfound).
  rw /load_latest (bind_Ok _ _ _ _ _ E).
  pose proof (max_by_key_spec found) as Hmax. destruct latest as [file|].
  - destruct (Hfile file eq_refl) as (Hd & Hr & bs & Hc & Hb & _).
    rw /contents in Hc. apply fmap_Some in Hc as (fd & Hn & ->).
    assert ((index_of file, snapshot_path dir (index_of file)) ∈ found) as Hin.
    { apply Hfound. split; [done|]. exists (snapshot_name (index_of file)). 
      split; [done|]. rw Hn. split; [eauto|]. by apply snapshot_of_name_name. }
    destruct (max_by_key found) as [[i p]|]; [|by subst; apply elem_of_nil in Hin].
    destruct Hmax as [Hip Hmax]. specialize (Hmax _ Hin). simpl in Hmax.
    apply Hfound in Hip as (_ & n & -> & [fd' Hn'] & Hi).
    destruct (Hnames n fd' i (or_introl Hn') Hi) as [-> Hle]. simpl in Hle.
    assert (i = index_of file) as -> by lia.
    rw /fs_read /bind (open_existing_ok _ _ _ Hs Hn) read_file_ok // /lift Hb //.
  - destruct (max_by_key found) as [[i p]|]; [exfalso|done].
    destruct Hmax as [Hip _]. apply Hfound in Hip as (_ & n & -> & [fd' Hn'] & Hi).
    by destruct (Hnames n fd' i (or_introl Hn') Hi) as [_ []].
Qed.

Lemma latest_is_crash σ σc dir latest :
  crash σ σc → latest_is σ dir latest → latest_is σc dir latest.
Proof.
  intros Hcr [Hnames Hfile]. split.
  - intros n fd idx Hn. apply (Hnames n fd idx). rw (crash_dnames _ _ Hcr) in Hn.
    destruct (crash_names _ _ Hcr (join dir n)) as [E|E]; rw E in Hn; tauto.
  - intros file Hf. destruct (Hfile file Hf) as (Hd & Hr & bs & Hc & Hb & Hdu).
    split; [by rw (crash_dirs _ _ Hcr)|]. split; [done|]. exists bs.
    rw (crash_durable_at _ _ _ Hcr Hdu). eauto using crash_all_durable.
Qed.

(** *** The publication step *)

Section publication.
Context (dir : path) (file : SnapshotFile) (bs : list byte) (latest : option SnapshotFile).
Context (Hbs : bincode_deserialize bs = Ok file) (Hidx : 0 ≤ index_of file ≤ u64_max).
Context (Hnewer : from_option (λ old, index_of old ≤ index_of file) True latest).

Let final := snapshot_path dir (index_of file).
Let tmp := with_extension final "tmp".

(** The temporary name is no alias of a snapshot. *)
Definition tmp_free (σ : fs) : Prop :=
  ∀ n idx, snapshot_of_name n = Some idx → no_alias tmp (join dir n) σ.

Lemma tmp_free_none σ : fs_names σ !! tmp = None → tmp_free σ.
Proof. intros E n idx _ fd Hfd. by rw E in Hfd. Qed.

Lemma tmp_not_snapshot n idx : snapshot_of_name n = Some idx → join dir n ≠ tmp.
Proof.
  rw /tmp /final tmp_name. intros Hn ->%join_inj. move: Hn.
  change (snapshot_name (index_of file) +:+ ".tmp") with
    (SNAPSHOT_PREFIX +:+ (fmt_020 (index_of file) +:+ SNAPSHOT_SUFFIX) +:+ ".tmp").
  by rw snapshot_of_tmp.
Qed.

Lemma tmp_ne_final : tmp ≠ final.
Proof.
  intros E. by apply (tmp_not_snapshot _ _ (snapshot_of_name_name _ Hidx)).
Qed.

(** A reboot that finds only old entries. *)
Lemma latest_old σ σ' σc :
  fs_wf σ → tmp_free σ → latest_is σ dir latest → crash σ' σc → fs_dirs σ' = fs_dirs σ →
  (∀ fd, fd ≠ tmp_fd tmp σ → fs_inodes σ' !! fd = fs_inodes σ !! fd) →
  (∀ n idx, snapshot_of_name n = Some idx →
     fs_names σc !! join dir n = fs_names σ !! join dir n
     ∨ fs_names σc !! join dir n = fs_dnames σ !! join dir n) →
  latest_is σc dir latest.
Proof.
  intros Hwf Htmp [Hnames Hfile] Hcr Hdirs Hoth Hview. split.
  - intros n fd idx Hn Hi. apply (Hnames n fd idx); [|done]. rw (crash_dnames _ _ Hcr) in Hn.
    destruct (Hview n idx Hi) as [E|E]; rw E in Hn; tauto.
  - intros old Hold. destruct (Hfile old Hold) as (Hd & Hr & bs0 & Hc & Hb & [Hdn Hdu]).
    split; [by rw (crash_dirs _ _ Hcr) Hdirs|]. split; [done|]. exists bs0.
    split; [|by eauto using crash_all_durable].
    pose proof (snapshot_of_name_name _ Hr) as Hname.
    assert (fs_names σc !! snapshot_path dir (index_of old)
            = fs_names σ !! snapshot_path dir (index_of old)) as En.
    { destruct (Hview _ _ Hname) as [E|E]; [exact E|etrans; [exact E|exact Hdn]]. }
    rw -Hc /contents En. destruct (fs_names σ !! snapshot_path _ _) as [fd|] eqn:E; [|done].
    simpl. f_equal. pose proof (Hoth fd (tmp_fd_ne _ _ _ _ Hwf (Htmp _ _ Hname) E)) as Hsame.
    assert (file_data σ' fd = file_data σ fd) as Hd' by by rw /file_data Hsame.
    rw -Hd'. apply (crash_synced _ _ _ Hcr). rw Hd' -Hdu // /file_durable Hsame //.
Qed.

(** A state in which the new entry is in place, on disk or not. *)
Lemma latest_new σ σ' :
  latest_is σ dir latest → dir ∈ fs_dirs σ' →
  (∀ n idx fd, snapshot_of_name n = Some idx → join dir n ≠ final →
     fs_names σ' !! join dir n = Some fd ∨ fs_dnames σ' !! join dir n = Some fd →
     fs_names σ !! join dir n = Some fd ∨ fs_dnames σ !! join dir n = Some fd) →
  contents σ' final = Some bs → durable_at σ' final →
  latest_is σ' dir (Some file).
Proof.
  intros [Hnames _] Hdir Hview Hc Hdu. split.
  - intros n fd idx Hn Hi. destruct (decide (join dir n = final)) as [E|Hne].
    + rw /final in E. apply join_inj in E as ->. rw snapshot_of_name_name // in Hi.
      by simplify_eq/=.
    + destruct (Hnames n fd idx (Hview _ _ _ Hi Hne Hn) Hi) as [En Hle]. split; [done|].
      destruct latest as [old|]; simpl in *; [lia|done].
  - intros f [= <-]. eauto 10.
Qed.

Lemma publish_latest σ :
  fs_wf σ → tmp_free σ → latest_is σ dir latest → dir ∈ fs_dirs σ →
  let '(r, σ') := publish tmp final dir bs σ in
  dir ∈ fs_dirs σ' ∧
  if decide (r = Ok tt) then latest_is σ' dir (Some file)
  else ∀ σc, crash σ' σc → latest_is σc dir latest ∨ latest_is σc dir (Some file).
Proof.
  intros Hwf Htmp Hli Hdir. pose proof (publish_cases tmp final dir bs σ Hwf tmp_ne_final) as Hp.
  destruct (publish tmp final dir bs σ) as [r σ']. destruct Hp as (Hp & Hdirs & Hoth).
  split; [by rw Hdirs|].
  destruct Hp as [r σ' Hr Hd Hn _|r σ' Hr Hd Hn _ Hf Hi|σ' Hd Hn _ Hf Hi].
  - rw decide_False //. intros σc Hcr. left. eapply latest_old; try done.
    intros n idx Hx. pose proof (tmp_not_snapshot _ _ Hx).
    destruct (crash_names _ _ Hcr (join dir n)) as [-> | ->]; [right; by rw Hd|left; by rw Hn].
  - rw decide_False //. intros σc Hcr.
    destruct (crash_names _ _ Hcr final) as [E|E]; [left|right].
    + eapply latest_old; try done. intros n idx Hx. pose proof (tmp_not_snapshot _ _ Hx).
      destruct (decide (join dir n = final)) as [En|Hne]; [right; by rw En E Hd|].
      destruct (crash_names _ _ Hcr (join dir n)) as [-> | ->]; [right; by rw Hd|left; by rw Hn].
    + eapply latest_new; [done|by rw (crash_dirs _ _ Hcr) Hdirs| | |by eapply crash_all_durable].
      * intros n idx fd Hx Hne Hv. pose proof (tmp_not_snapshot _ _ Hx).
        rw (crash_dnames _ _ Hcr) in Hv.
        destruct (crash_names _ _ Hcr (join dir n)) as [E'|E']; rw E' ?Hd ?Hn // in Hv; tauto.
      * by rw /contents E Hf /= (published_crash_inode _ _ _ _ Hcr Hi).
  - case_decide as Hr; [|by destruct Hr].
    assert (∀ n, fs_dnames σ' !! join dir n = fs_names σ' !! join dir n) as Hsame.
    { intros n. rw Hd. apply lookup_synced_names_in, parent_join. }
    eapply latest_new; [done|by rw Hdirs| | |].
    + intros n idx fd Hx Hne Hv. pose proof (tmp_not_snapshot _ _ Hx).
      rw Hsame Hn // in Hv. tauto.
    + by rw /contents Hf /= /file_data Hi.
    + split; [apply Hsame|]. intros fd. rw Hf. intros [= <-]. by rw /file_durable /file_data Hi.
Qed.

End publication.

(** *** Removing superseded snapshots *)

Definition remove_superseded (index : Z) (found : list (Z * path)) : M fs unit :=
  for_each (λ '(i, p), if i =? index then ret tt else ignore (remove_file p)) found.

(** [σ'] is [σ] less some entries in use. *)
Record fewer_names (keep : path) (σ σ' : fs) : Prop := {
  fn_names p fd : fs_names σ' !! p = Some fd → fs_names σ !! p = Some fd;
  fn_keep : fs_names σ' !! keep = fs_names σ !! keep;
  fn_dnames : fs_dnames σ' = fs_dnames σ;
  fn_inodes : fs_inodes σ' = fs_inodes σ;
  fn_dirs : fs_dirs σ' = fs_dirs σ
}.

Lemma fewer_names_refl keep σ s : fewer_names keep σ (set_sched s σ).
Proof. by split. Qed.

Lemma fewer_names_trans keep σ1 σ2 σ3 :
  fewer_names keep σ1 σ2 → fewer_names keep σ2 σ3 → fewer_names keep σ1 σ3.
Proof. intros [H1 H2 H3 H4 H5] [G1 G2 G3 G4 G5]. split; [eauto|congruence..]. Qed.

Lemma remove_file_fewer keep p σ :
  p ≠ keep → fewer_names keep σ (remove_file p σ).2 ∧ (remove_file p σ).1 ≠ Panic.
Proof.
  intros Hp. rw /remove_file. split_syscall; [by split; [apply fewer_names_refl|]|].
  cbn [fs_names set_sched]. destruct (fs_names σ !! p) eqn:E; split; try done; split; try done.
  - simpl. by intros q fd [_ Hq]%lookup_delete_Some.
  - by rw /= lookup_delete_ne.
Qed.

Lemma remove_superseded_fewer keep index found σ :
  (∀ i p, (i, p) ∈ found → i ≠ index → p ≠ keep) →
  fewer_names keep σ (remove_superseded index found σ).2
  ∧ (remove_superseded index found σ).1 = Ok tt.
Proof.
  revert σ. induction found as [|[i p] found IH]; intros σ Hf.
  { split; [|done]. destruct σ. apply (fewer_names_refl keep (Fs _ _ _ _ _ _)). }
  rw /remove_superseded. cbn [for_each]. rw -/(remove_superseded index found) /bind.
  assert (∀ i p, (i, p) ∈ found → i ≠ index → p ≠ keep) as Hf' by set_solver.
  destruct (Z.eqb_spec i index) as [->|Hne]; [by apply IH|].
  destruct (remove_file_fewer keep p σ) as [Hrm Hnp]; [by eapply Hf; [left|]|].
  rw /ignore. destruct (remove_file p σ) as [[| |] σ1]; [| |done]; simpl in Hrm |- *;
    destruct (IH σ1 Hf') as [H1 H2]; (split; [by eapply fewer_names_trans|done]).
Qed.

(** Without faults every superseded snapshot goes. *)
Lemma remove_superseded_all index found σ :
  fault_free σ →
  ∃ σ', remove_superseded index found σ = (Ok tt, σ') ∧ fault_free σ'
    ∧ (∀ p fd, fs_names σ' !! p = Some fd → fs_names σ !! p = Some fd)
    ∧ ∀ i p, (i, p) ∈ found → i ≠ index → fs_names σ' !! p = None.
Proof.
  revert σ. induction found as [|[i p] found IH]; intros σ Hs.
  { exists σ. split_and!; try done. by intros i p ?%elem_of_nil. }
  assert (∃ σ1, (if i =? index then ret tt else ignore (remove_file p)) σ = (Ok tt, σ1)
    ∧ fault_free σ1 ∧ (∀ q fd, fs_names σ1 !! q = Some fd → fs_names σ !! q = Some fd)
    ∧ (i ≠ index → fs_names σ1 !! p = None)) as (σ1 & E1 & Hs1 & Hsub1 & Hgone1).
  { destruct (Z.eqb_spec i index) as [->|Hne]; [by exists σ|].
    rw /ignore /remove_file syscall_ok //. destruct (fs_names σ !! p) as [fd|] eqn:E.
    - eexists. split_and!; [done|done| |by rw /= lookup_delete_eq].
      simpl. by intros q fd' [_ Hq]%lookup_delete_Some.
    - by exists σ. }
  destruct (IH σ1 Hs1) as (σ2 & E2 & Hs2 & Hsub2 & Hgone2). exists σ2.
  rw /remove_superseded in E2 |- *. cbn [for_each]. rw (bind_Ok _ _ _ _ _ E1) E2.
  split_and!; [done..|eauto|]. intros i' p' [[= -> ->]|Hin]%elem_of_cons Hne; [|eauto].
  destruct (fs_names σ2 !! p) as [fd|] eqn:E; [|done]. apply Hsub2 in E. by rw Hgone1 in E.
Qed.

Lemma latest_is_fewer σ σ' dir file :
  latest_is σ dir (Some file) → fewer_names (snapshot_path dir (index_of file)) σ σ' →
  latest_is σ' dir (Some file).
Proof.
  intros [Hnames Hfile] [H1 H2 H3 H4 H5]. split.
  - intros n fd idx [Hn|Hn]; apply (Hnames n fd idx); [left; by apply H1|right; by rw -H3].
  - intros f Hf. destruct (Hfile f Hf) as (Hd & Hr & bs & Hc & Hb & Hdn & Hdu). simplify_eq.
    split; [by rw H5|]. split; [done|]. exists bs. split_and!; [|done|split].
    + rw -Hc /contents H2 /file_data H4 //.
    + by rw H2 H3.
    + intros fd. rw H2 /file_durable /file_data H4. apply Hdu.
Qed.

(** Under any faults, [discover] changes nothing and lists well-formed entries. *)
Lemma discover_any dir σ :
  ∃ s, (discover dir σ).2 = set_sched s σ ∧ (discover dir σ).1 ≠ Panic
    ∧ ∀ found, (discover dir σ).1 = Ok found →
        ∀ i p, (i, p) ∈ found → ∃ n, p = join dir n ∧ snapshot_of_name n = Some i.
Proof.
  rw /discover /dir_exists /bind /gets. case_bool_decide as Hd; last first.
  { exists (fs_sched σ). destruct σ. split_and!; [done..|].
    intros found [= <-] i p ?%elem_of_nil. done. }
  rw /read_dir. split_syscall; [exists s; done|].
  rw bool_decide_eq_true_2 //. exists s. split_and!; [done..|].
  intros found [= <-] i p (n & _ & Hn)%list_elem_of_omap. exists n.
  by destruct (snapshot_of_name n); simplify_eq/=.
Qed.

(** ** Properties *)

Section snapshot_write.
Context (dir : path) (meta : SnapshotMeta) (table : MemTable) (latest : option SnapshotFile).

Let file := MkSnapshotFile meta (mt_map table).

(** What a write starts from: a valid index no older than the newest snapshot, values that
    [bincode] can represent, and a temporary name that is not a second name of a snapshot. *)
Record write_pre (σ : fs) : Prop := {
  wp_wf : fs_wf σ;
  wp_latest : latest_is σ dir latest;
  wp_tmp : tmp_free dir file σ;
  wp_repr : representable file;
  wp_index : 0 ≤ last_included_index meta ≤ u64_max;
  wp_newer : from_option (λ old, index_of old ≤ last_included_index meta) True latest
}.

Lemma with_dir_latest σ : latest_is σ dir latest → latest_is (with_dir dir σ) dir latest.
Proof.
  intros [Hn Hf]. split; [exact Hn|]. intros f E. destruct (Hf f E) as (Hd & Hrest).
  split; [by apply elem_of_union_r|exact Hrest].
Qed.

(** The states a write can end in. *)
Lemma snapshot_write_cases σ :
  write_pre σ →
  let '(r, σ') := snapshot_write dir meta table σ in
  r ≠ Panic ∧
  ((latest_is σ' dir (Some file))
   ∨ ((∀ p, r ≠ Ok p) ∧
      ∀ σc, crash σ' σc → latest_is σc dir latest ∨ latest_is σc dir (Some file))).
Proof.
  intros [Hwf Hli Htmp Hrep Hidx Hnew]. rw /snapshot_write /bind /create_dir_all.
  split_syscall.
  { split; [done|]. right. split; [done|]. intros σc Hcr. left.
    eapply latest_is_crash; [exact Hcr|]. destruct Hli. by split. }
  rw /modify. fold (with_dir dir (set_sched s σ)). set (σ1 := with_dir dir (set_sched s σ)).
  assert (latest_is σ1 dir latest) as Hli1.
  { pose proof (with_dir_latest σ Hli) as [? ?]. by split. }
  destruct (bincode_serialize_ok file Hrep) as (bs & Ebs & Hbs). rw /lift Ebs.
  assert (fs_wf σ1) as Hwf1 by (destruct Hwf; by split).
  pose proof (publish_latest dir file bs latest Hbs Hidx Hnew σ1 Hwf1 Htmp Hli1
                (with_dir_elem dir (set_sched s σ))) as Hpub.
  rw /index_of /= in Hpub.
  pose proof (publish_no_panic (with_extension (snapshot_path dir (last_included_index meta)) "tmp")
    (snapshot_path dir (last_included_index meta)) dir bs σ1) as Hnp1.
  destruct (publish _ _ dir bs σ1) as [r σ2]. destruct Hpub as [Hd2 Hpub].
  case_decide as Er; [subst r|destruct r as [[]| |]; [done|by split; [|right]|done]].
  destruct (discover_any dir σ2) as (s2 & E2 & Hnp & Hfound).
  destruct (discover dir σ2) as [[found|e|] σ3]; cbn [fst snd] in *; subst σ3; [| |done].
  + destruct (remove_superseded_fewer (snapshot_path dir (last_included_index meta))
      (last_included_index meta) found (set_sched s2 σ2)) as [Hfew Hok].
    { intros i p Hin Hne ->. destruct (Hfound found eq_refl _ _ Hin) as (n & <-%join_inj & Hx).
      rw snapshot_of_name_name // in Hx. by simplify_eq. }
    rw /remove_superseded in Hfew Hok.
    destruct (for_each _ found (set_sched s2 σ2)) as [r3 σ3]. cbn [fst snd] in *. subst r3.
    split; [done|]. left. eapply latest_is_fewer; [exact Hpub|].
    eapply fewer_names_trans; [apply (fewer_names_refl _ _ s2)|exact Hfew].
  + split; [done|]. left. destruct Hpub. by split.
Qed.

Lemma snapshot_write_ok σ :
  write_pre σ → fault_free σ →
  ∃ σ', snapshot_write dir meta table σ = (Ok (snapshot_path dir (last_included_index meta)), σ')
    ∧ fault_free σ'
    ∧ ∀ n fd idx, fs_names σ' !! join dir n = Some fd → snapshot_of_name n = Some idx →
        idx = last_included_index meta.
Proof.
  intros [Hwf Hli Htmp Hrep Hidx Hnew] Hs. rw /snapshot_write (bind_Ok _ _ _ _ _ (create_dir_all_ok _ _ Hs)).
  destruct (bincode_serialize_ok file Hrep) as (bs & Ebs & Hbs). rw {1}/bind /lift Ebs.
  set (final := snapshot_path dir (last_included_index meta)). set (σ1 := with_dir dir σ).
  assert (fs_wf σ1) as Hwf1 by (destruct Hwf; by split).
  destruct (publish_ok (with_extension final "tmp") final dir bs σ1 Hs Hwf1
    (tmp_ne_final dir file Hidx)) as [Hok Hs2].
  { rw /final tmp_name. apply parent_join. }
  { apply (with_dir_elem dir σ). }
  pose proof (publish_cases (with_extension final "tmp") final dir bs σ1 Hwf1
    (tmp_ne_final dir file Hidx)) as Hcases.
  rw /bind. destruct (publish _ final dir bs σ1) as [r σ2]. cbn [fst snd] in *. subst r.
  destruct Hcases as (_ & Hdirs & _).
  destruct (discover_ok dir σ2 Hs2) as (found & -> & Hfound).
  destruct (remove_superseded_all (last_included_index meta) found σ2 Hs2) as (σ3 & Hrm & Hs3 & Hsub & Hgone).
  rw /remove_superseded in Hrm. rw Hrm. exists σ3. split_and!; [done..|].
  intros n fd idx Hn Hx. destruct (decide (idx = last_included_index meta)) as [|Hne]; [done|exfalso].
  pose proof (Hsub _ _ Hn) as Hn2. rw (Hgone idx (join dir n)) // in Hn. apply Hfound.
  split; [rw Hdirs; apply (with_dir_elem dir σ)|]. exists n. rw Hn2. by eauto.
Qed.

(** The entries of the directory are then those of before, less the removed ones, and the new
    one; the temporary name is gone. *)
Lemma snapshot_write_names σ n fd :
  write_pre σ → fault_free σ → view_fd (snapshot_write dir meta table σ).2 (join dir n) fd →
  view_fd σ (join dir n) fd ∨ n = snapshot_name (last_included_index meta).
Proof.
  intros [Hwf Hli Htmp Hrep Hidx Hnew] Hs. rw /snapshot_write (bind_Ok _ _ _ _ _ (create_dir_all_ok _ _ Hs)).
  destruct (bincode_serialize_ok file Hrep) as (bs & Ebs & Hbs). rw {1}/bind /lift Ebs.
  set (final := snapshot_path dir (last_included_index meta)). set (σ1 := with_dir dir σ).
  assert (fs_wf σ1) as Hwf1 by (destruct Hwf; by split).
  destruct (publish_ok (with_extension final "tmp") final dir bs σ1 Hs Hwf1
    (tmp_ne_final dir file Hidx)) as [Hok Hs2].
  { rw /final tmp_name. apply parent_join. }
  { apply (with_dir_elem dir σ). }
  pose proof (publish_cases (with_extension final "tmp") final dir bs σ1 Hwf1
    (tmp_ne_final dir file Hidx)) as Hcases.
  rw /bind. destruct (publish _ final dir bs σ1) as [r σ2]. cbn [fst snd] in *. subst r.
  destruct Hcases as (Hp & _ & _). inversion Hp as [| |σ' Hd Hn Ht Hf Hi]; simplify_eq.
  destruct (discover_ok dir σ2 Hs2) as (found & -> & Hfound).
  destruct (remove_superseded_fewer final (last_included_index meta) found σ2) as [[H1 _ H3 _ _] Hrm].
  { intros i p Hin Hne ->. apply Hfound in Hin as (_ & m & E%join_inj & _ & Hx). subst m.
    rw snapshot_of_name_name // in Hx. by simplify_eq. }
  rw /remove_superseded in H1, H3, Hrm. destruct (for_each _ found σ2) as [r σ3]. cbn [fst snd] in *. subst r.
  assert (view_fd σ3 (join dir n) fd → fs_names σ2 !! join dir n = Some fd) as Hv.
  { rw /view_fd H3 Hd lookup_synced_names_in; [apply parent_join|]. intros []; auto. }
  intros Hn2%Hv. destruct (decide (join dir n = final)) as [E|Hne]; [by right; apply join_inj in E|left].
  destruct (decide (join dir n = with_extension final "tmp")) as [E|Hne']; [by rw E Ht in Hn2|].
  left. by rw Hn in Hn2.
Qed.

(** A snapshot can be read back: without faults [write] succeeds, [load_latest] then
    returns the metadata and the table that were written, and no other snapshot is left. *)
Theorem snapshot_roundtrip σ :
  write_pre σ → fault_free σ →
  ∃ σ', snapshot_write dir meta table σ = (Ok (snapshot_path dir (last_included_index meta)), σ')
    ∧ load_latest dir σ' =
        (Ok (Some (meta, from_parts (mt_map table) (last_included_index meta))), σ')
    ∧ ∀ n fd idx, fs_names σ' !! join dir n = Some fd → snapshot_of_name n = Some idx →
        idx = last_included_index meta.
Proof.
  intros Hpre Hs. destruct (snapshot_write_ok σ Hpre Hs) as (σ' & E & Hs' & Hgone).
  pose proof (snapshot_write_cases σ Hpre) as Hc. rw E in Hc.
  destruct Hc as [_ [Hli|[Hno _]]]; [|by destruct (Hno (snapshot_path dir (last_included_index meta)))].
  exists σ'. split_and!; [done| |done]. by rw (load_latest_is _ _ _ Hs' Hli).
Qed.

(** C23: snapshots are replaced atomically: when a snapshot no older than the newest one is
    written, for every way the calls of [write] can fail and every crash (a directory, once
    created, is taken to survive), [load_latest] after the reboot succeeds and returns the
    previous newest snapshot (none if there was none) or the new one, and the new one once
    [write] has returned. *)
Theorem snapshot_atomic σ σc :
  write_pre σ → crash (snapshot_write dir meta table σ).2 σc →
  let new := (Ok (Some (meta, from_parts (mt_map table) (last_included_index meta))), σc) in
  (load_latest dir σc = (Ok (snapshot_value <$> latest), σc) ∨ load_latest dir σc = new)
  ∧ (∀ p, (snapshot_write dir meta table σ).1 = Ok p → load_latest dir σc = new).
Proof.
  intros Hpre Hcr new. pose proof (snapshot_write_cases σ Hpre) as Hc.
  destruct (snapshot_write dir meta table σ) as [r σ']. cbn [fst snd] in *.
  pose proof (crash_sched _ _ Hcr : fault_free σc) as Hs.
  destruct Hc as [_ [Hli|[Hno Hc]]].
  - pose proof (latest_is_crash _ _ _ _ Hcr Hli) as Hli'. rw (load_latest_is _ _ _ Hs Hli').
    split; [by right|done].
  - split; [|intros p Hp; by destruct (Hno p)].
    destruct (Hc σc Hcr) as [Hli|Hli]; rw (load_latest_is _ _ _ Hs Hli); auto.
Qed.

End snapshot_write.

End snapshot.

(** ** Witnesses *)

#[global] Instance codec_snapshot_file : Codec SnapshotFile :=
  codec_iso (B := (Z * Z) * kv_map)
    (λ f, ((last_included_index (sf_meta f), last_included_term (sf_meta f)), sf_data f))
    (λ '((i, t), d), MkSnapshotFile (MkSnapshotMeta i t) d) ltac:(by intros [[]]).
#[local] Existing Instance bincode_codec.

Definition demo_table (n : Z) : MemTable := MkMemTable {[ [x61] := [x31]; [x62] := [x32] ]} n.
Definition demo_meta (n : Z) : SnapshotMeta := MkSnapshotMeta n 1.
Definition demo_file (n : Z) : SnapshotFile := MkSnapshotFile (demo_meta n) (mt_map (demo_table n)).

(** A disk with one snapshot, and the same disk with a full disk ahead. *)
Definition one_snapshot : fs := (snapshot_write demo_dir (demo_meta 2) (demo_table 2) empty_fs).2.

Lemma demo_file_representable n : 0 ≤ n ≤ u64_max → representable (demo_file n).
Proof.
  intros Hn. split; [split; [done|evaluate]|].
  change (zlen (map_to_list (mt_map (demo_table 0))) ≤ u64_max
          ∧ Forall (valid (A := list byte * list byte)) (map_to_list (mt_map (demo_table 0)))).
  split; [evaluate|].
  apply (Forall_impl (λ kv, zlen kv.1 ≤ u64_max ∧ zlen kv.2 ≤ u64_max)); [evaluate|by intros []].
Qed.

Lemma first_write_pre : write_pre demo_dir (demo_meta 2) (demo_table 2) None empty_fs.
Proof.
  split; [apply fs_wf_check; evaluate| | |by apply demo_file_representable|evaluate|done].
  - split; [|done]. intros n fd idx [Hn|Hn]; by rw lookup_empty in Hn.
  - intros n idx _ fd Hfd. by rw lookup_empty in Hfd.
Qed.

Lemma second_write_pre s :
  write_pre demo_dir (demo_meta 5) (demo_table 5) (Some (demo_file 2)) (set_sched s one_snapshot).
Proof.
  assert (latest_is one_snapshot demo_dir (Some (demo_file 2))) as Hli.
  { pose proof (snapshot_write_cases _ _ _ _ _ first_write_pre) as Hc.
    destruct (snapshot_write_ok _ _ _ _ _ first_write_pre) as (σ' & E & _); [done|].
    rw /one_snapshot. rw E in Hc |- *. destruct Hc as [_ [Hli|[Hno _]]]; [exact Hli|].
    by destruct (Hno (snapshot_path demo_dir 2)). }
  split; [apply (fs_wf_check (set_sched s one_snapshot)); evaluate| | 
         |by apply demo_file_representable|evaluate|evaluate].
  - destruct Hli. by split.
  - apply tmp_free_none. vm_compute. reflexivity.
Qed.

Lemma snapshot_roundtrip_witness :
  ∃ σ', snapshot_write demo_dir (demo_meta 5) (demo_table 5) (set_sched [] one_snapshot)
          = (Ok (snapshot_path demo_dir 5), σ')
    ∧ load_latest demo_dir σ' = (Ok (Some (demo_meta 5, demo_table 5)), σ')
    ∧ ∀ n fd idx, fs_names σ' !! join demo_dir n = Some fd → snapshot_of_name n = Some idx → idx = 5.
Proof.
  apply (snapshot_roundtrip demo_dir (demo_meta 5) (demo_table 5) (Some (demo_file 2)));
    [apply second_write_pre|done].
Defined.

(** The write of the temporary file fails half way. *)
Lemma snapshot_atomic_witness :
  let σ := set_sched [None; None; Some 7%nat] one_snapshot in
  let run := snapshot_write demo_dir (demo_meta 5) (demo_table 5) σ in
  run.1 = Err (EIo OtherIo) ∧
  (load_latest demo_dir (power_loss run.2)
     = (Ok (Some (demo_meta 2, demo_table 2)), power_loss run.2)
   ∨ load_latest demo_dir (power_loss run.2)
     = (Ok (Some (demo_meta 5, demo_table 5)), power_loss run.2)).
Proof.
  intros σ run. split; [vm_compute; reflexivity|].
  destruct (snapshot_atomic demo_dir (demo_meta 5) (demo_table 5) (Some (demo_file 2)) σ
    (power_loss run.2) (second_write_pre _) (power_loss_crash _)) as [H _]. exact H.
Defined.
