(* ===== verification/Store.v ===== *)
(** * Store: the state machine and its snapshots together (src/store/mod.rs). *)

From Corelib Require Import ssreflect.
From stdpp Require Import base gmap strings list.
From S2P Require Import Prelude Text Fs AtomicFile Codec Config MemTable Snapshot.

Record Store := MkStore {
  st_snapshot_dir : path;
  st_memtable : MemTable;
  st_snapshot_threshold : Z;
  st_last_snapshot : SnapshotMeta
}.

Definition set_memtable (m : MemTable) (st : Store) : Store :=
  MkStore (st_snapshot_dir st) m (st_snapshot_threshold st) (st_last_snapshot st).
Definition set_last_snapshot (meta : SnapshotMeta) (st : Store) : Store :=
  MkStore (st_snapshot_dir st) (st_memtable st) (st_snapshot_threshold st) meta.

Section store.
Context `{Bincode SnapshotFile} {SocketAddr : Type}.

(** [Store::open]. *)
Definition store_open (cfg : Config SocketAddr) : M fs Store :=
  let dir := snapshot_dir cfg in
  let! loaded := load_latest dir in
  let '(last_snapshot, memtable) :=
    match loaded with
    | Some (meta, table) => (meta, table)
    | None => (default_meta, memtable_new)
    end in
  ret (MkStore dir memtable (cfg_snapshot_threshold cfg) last_snapshot).

(** [Store::apply], [Store::get], [Store::last_applied], [Store::len]. *)
Definition store_apply (index : Z) (command : Command) (st : Store) : Store :=
  set_memtable (memtable_apply index command (st_memtable st)) st.
Definition store_get (key : list byte) (st : Store) : option (list byte) :=
  memtable_get key (st_memtable st).
Definition store_last_applied (st : Store) : Z := mt_last_applied (st_memtable st).
Definition store_len (st : Store) : Z := memtable_len (st_memtable st).

(** [Store::should_snapshot]. *)
Definition should_snapshot (st : Store) : bool :=
  st_snapshot_threshold st <=?
    saturating_sub (store_last_applied st) (last_included_index (st_last_snapshot st)).

(** [Store::snapshot]. *)
Definition store_snapshot (term : Z) : M (Store * fs) SnapshotMeta := λ '(st, σ),
  let meta := MkSnapshotMeta (mt_last_applied (st_memtable st)) term in
  let '(r, σ') := snapshot_write (st_snapshot_dir st) meta (st_memtable st) σ in
  match r with
  | Ok _ => (Ok meta, (set_last_snapshot meta st, σ'))
  | Err e => (Err e, (st, σ'))
  | Panic => (Panic, (st, σ'))
  end.

(** ** Properties *)

(** The commands a snapshot file reflects. *)
Definition reflects (cs : list Command) (latest : option SnapshotFile) (k : nat) : Prop :=
  match latest with
  | Some file => (snapshot_value file).2 = state_at cs k
  | None => k = 0%nat
  end.

Lemma store_open_latest (cfg : Config SocketAddr) σ latest cs k :
  fault_free σ → latest_is σ (snapshot_dir cfg) latest → reflects cs latest k →
  ∃ st, store_open cfg σ = (Ok st, σ) ∧ st_memtable st = state_at cs k
    ∧ store_last_applied st = Z.of_nat k ∧ last_included_index (st_last_snapshot st) = Z.of_nat k.
Proof.
  intros Hs Hli Hk. rw /store_open (bind_Ok _ _ _ _ _ (load_latest_is _ _ _ Hs Hli)).
  destruct latest as [file|]; simpl in *.
  - pose proof (f_equal mt_last_applied Hk) as Hi. by eexists.
  - subst k. by eexists.
Qed.

(** C16: a crash around a snapshot loses nothing the log still has: for every failure of
    [Store::snapshot] and every crash (a directory, once created, is taken to survive),
    [Store::open] comes back with the table of the previous snapshot or of the new one, and
    replaying the committed log from any index the older one allows gives the table of all
    commands up to [j]. *)
Theorem store_crash_recovery (cfg : Config SocketAddr) st term σ σc cs n k latest i j :
  let meta := MkSnapshotMeta (Z.of_nat n) term in
  st_snapshot_dir st = snapshot_dir cfg → st_memtable st = state_at cs n →
  write_pre (snapshot_dir cfg) meta (state_at cs n) latest σ → reflects cs latest k →
  crash (store_snapshot term (st, σ)).2.2 σc →
  (0 < i ≤ S k)%nat → (k ≤ n ≤ j)%nat → (j ≤ length cs)%nat → Z.of_nat j ≤ u64_max →
  ∃ st' m, store_open cfg σc = (Ok st', σc) ∧ (m = k ∨ m = n)
    ∧ st_memtable st' = state_at cs m
    ∧ apply_all (slice cs i j) (st_memtable st') = state_at cs j
    ∧ ((store_snapshot term (st, σ)).1 = Ok meta → m = n).
Proof.
  intros meta Hdir Hmt Hpre Hrefl Hcr Hi Hkn Hj Hmax.
  pose proof (snapshot_write_cases _ _ _ _ _ Hpre) as Hc.
  assert ((store_snapshot term (st, σ)).2.2 = (snapshot_write (snapshot_dir cfg) meta (state_at cs n) σ).2
    ∧ ((store_snapshot term (st, σ)).1 = Ok meta →
       ∃ p, (snapshot_write (snapshot_dir cfg) meta (state_at cs n) σ).1 = Ok p)) as [E2 E1].
  { rw /store_snapshot Hdir Hmt. cbn [mt_last_applied state_at]. fold meta.
    destruct (snapshot_write _ meta _ σ) as [[p|e|] σ']; split; eauto; done. }
  rw E2 in Hcr. pose proof (crash_sched _ _ Hcr : fault_free σc) as Hs.
  destruct (snapshot_write (snapshot_dir cfg) meta (state_at cs n) σ) as [r σ'].
  cbn [fst snd] in *. destruct Hc as [_ Hc].
  assert (reflects cs (Some (MkSnapshotFile meta (mt_map (state_at cs n)))) n) as Hnew by done.
  assert (∃ m latest', latest_is σc (snapshot_dir cfg) latest' ∧ reflects cs latest' m
    ∧ (m = k ∨ m = n) ∧ ((∃ p, r = Ok p) → m = n)) as (m & latest' & Hli & Hm & Hor & Hok).
  { destruct Hc as [Hli|[Hno Hc]].
    - exists n. eexists. split_and!; [by eapply latest_is_crash|exact Hnew|by right|done].
    - assert ((∃ p, r = Ok p) → False) as Hno' by (intros [p Hp]; by apply (Hno p)).
      destruct (Hc σc Hcr) as [Hli|Hli]; [exists k|exists n]; eexists;
        (split_and!; [exact Hli|done|by auto|by intros []%Hno']). }
  destruct (store_open_latest cfg σc latest' cs m Hs Hli Hm) as (st' & E & Hst & _).
  exists st', m. rw Hst. split_and!; [done..| |auto].
  apply replay_slice; [lia|lia|done].
Qed.

End store.

(** ** Witness *)

#[local] Existing Instance bincode_codec.

Definition demo_config : Config unit := config_new 1 tt ["data"%string].
Definition demo_commands : list Command :=
  [Put [x61] [x31]; Put [x62] [x32]; Delete [x61]; Put [x63] [x33]].
Definition demo_store : Store :=
  MkStore (snapshot_dir demo_config) (state_at demo_commands 3) 3 default_meta.

Lemma demo_store_pre s :
  write_pre (snapshot_dir demo_config) (MkSnapshotMeta 3 1) (state_at demo_commands 3) None
    (set_sched s empty_fs).
Proof.
  split; [apply fs_wf_check; evaluate| | | |evaluate|done].
  - split; [|done]. intros n fd idx [Hn|Hn]; by rw lookup_empty in Hn.
  - by apply tmp_free_none.
  - split; [split; evaluate|].
    change (zlen (map_to_list (mt_map (state_at demo_commands 3))) ≤ u64_max ∧
      Forall (valid (A := list byte * list byte)) (map_to_list (mt_map (state_at demo_commands 3)))).
    split; [evaluate|].
    apply (Forall_impl (λ kv, zlen kv.1 ≤ u64_max ∧ zlen kv.2 ≤ u64_max)); [evaluate|by intros []].
Qed.

(** The rename of the temporary file fails. *)
Lemma store_crash_recovery_witness :
  let σ := set_sched [None; None; None; None; Some 0%nat] empty_fs in
  let σc := power_loss (store_snapshot 1 (demo_store, σ)).2.2 in
  ∃ st' m, store_open demo_config σc = (Ok st', σc) ∧ (m = 0 ∨ m = 3)%nat
    ∧ st_memtable st' = state_at demo_commands m
    ∧ apply_all (slice demo_commands 1 4) (st_memtable st') = state_at demo_commands 4
    ∧ ((store_snapshot 1 (demo_store, σ)).1 = Ok (MkSnapshotMeta 3 1) → m = 3%nat).
Proof.
  intros σ σc. apply (store_crash_recovery demo_config demo_store 1 σ σc demo_commands 3 0 None 1 4).
  - done.
  - done.
  - apply demo_store_pre.
  - done.
  - apply power_loss_crash.
  - lia.
  - lia.
  - simpl. lia.
  - evaluate.
Defined.
