(* ===== verification/RaftState.v ===== *)
(** * RaftState: roles, log entries and the durable hard state (src/raft/state.rs). *)

From Corelib Require Import ssreflect.
From stdpp Require Import base gmap strings list.
From S2P Require Import Prelude Text Fs AtomicFile Codec MemTable.

Inductive Role := Follower | Candidate | Leader.
#[global] Instance Role_eq_dec : EqDecision Role.
Proof. solve_decision. Defined.

Record LogEntry := MkLogEntry { e_term : Z; e_index : Z; e_command : Command }.
#[global] Instance LogEntry_eq_dec : EqDecision LogEntry.
Proof. solve_decision. Defined.

Record HardState := MkHardState { current_term : Z; voted_for : option Z }.
Definition default_hard : HardState := MkHardState 0 None.

Definition tmp_path (p : path) : path := push_os_str p ".tmp".

Section hard_state.
Context `{Bincode HardState}.

(** [HardState::load]. *)
Definition hard_load (p : path) : M fs HardState := λ σ,
  match fs_read p σ with
  | (Ok bytes, σ') => (bincode_deserialize bytes, σ')
  | (Err (EIo NotFound), σ') => (Ok default_hard, σ')
  | (Err e, σ') => (Err e, σ')
  | (Panic, σ') => (Panic, σ')
  end.

(** [HardState::persist]. *)
Definition hard_persist (p : path) (hs : HardState) : M fs unit :=
  do! (match parent p with Some d => create_dir_all d | None => ret tt end) then
  let! bytes := lift (bincode_serialize hs) in
  do! replace_file (tmp_path p) p bytes then
  match parent p with Some d => sync_dir d | None => ret tt end.

(** ** What the file holds *)

(** [hs] is the hard state that [p] stands for, durably. *)
Definition hard_stored (σ : fs) (p : path) (hs : HardState) : Prop :=
  durable_at σ p ∧
  match contents σ p with None => hs = default_hard | Some bs => bincode_deserialize bs = Ok hs end.

Lemma hard_load_stored σ p hs :
  fault_free σ → hard_stored σ p hs → hard_load p σ = (Ok hs, σ).
Proof.
  intros Hs [_ Hc]. rw /hard_load /fs_read /bind. rw /contents in Hc.
  destruct (fs_names σ !! p) as [fd|] eqn:E.
  - rw (open_existing_ok _ _ _ Hs E) read_file_ok //. by rw Hc.
  - rw (open_existing_missing _ _ Hs E). by rw Hc.
Qed.

Lemma hard_stored_crash σ σc p hs : crash σ σc → hard_stored σ p hs → hard_stored σc p hs.
Proof.
  intros Hcr [Hd Hc]. split; [by eapply crash_all_durable|]. by rw (crash_durable_at _ _ _ Hcr Hd).
Qed.

Lemma tmp_path_join d n : tmp_path (join d n) = join d (n +:+ ".tmp").
Proof. by rw /tmp_path /push_os_str /join last_snoc removelast_last. Qed.

Lemma tmp_path_ne d n : tmp_path (join d n) ≠ join d n.
Proof.
  rw tmp_path_join. intros E%join_inj%(f_equal String.length). rw string_length_app /= in E. lia.
Qed.

(** The steps after the encoding. *)
Lemma hard_persist_publish d n hs bs σ :
  bincode_serialize hs = Ok bs →
  hard_persist (join d n) hs σ =
    (do! create_dir_all d then publish (tmp_path (join d n)) (join d n) d bs) σ.
Proof.
  intros E. rw /hard_persist parent_join /bind. destruct (create_dir_all d σ) as [[[]| |] σ1]; [|done..].
  by rw /lift E.
Qed.

(** What [persist] leaves alone. *)
Record hard_frame (p : path) (σ σ' : fs) : Prop := {
  hf_names q : q ≠ p → q ≠ tmp_path p → fs_names σ' !! q = fs_names σ !! q;
  hf_inodes fd : fd ≠ tmp_fd (tmp_path p) σ → fs_inodes σ' !! fd = fs_inodes σ !! fd;
  hf_dirs : fs_dirs σ ⊆ fs_dirs σ';
  hf_wf : fs_wf σ'
}.

Lemma published_names tmp final dir bs σ fd r σ' q :
  published tmp final dir bs σ fd r σ' → q ≠ final → q ≠ tmp →
  fs_names σ' !! q = fs_names σ !! q.
Proof. intros [] ? ?; auto. Qed.

Lemma hard_persist_frame d n hs σ :
  let p := join d n in
  fs_wf σ → representable hs → hard_frame p σ (hard_persist p hs σ).2.
Proof.
  intros p Hwf Hrep. destruct (bincode_serialize_ok hs Hrep) as (bs & Ebs & Hbs).
  rw /p (hard_persist_publish d n hs bs σ Ebs) -/p /bind /create_dir_all. split_syscall.
  { split; try done. by destruct Hwf. }
  rw /modify -/(with_dir d (set_sched s σ)). set (σ1 := with_dir d (set_sched s σ)).
  assert (fs_wf σ1) as Hwf1 by (by destruct Hwf).
  pose proof (publish_cases (tmp_path p) p d bs σ1 Hwf1 (tmp_path_ne d n)) as Hcases.
  pose proof (publish_wf (tmp_path p) p d bs σ1 Hwf1) as Hwf2.
  destruct (publish _ p d bs σ1) as [r σ2]. cbn [fst snd] in *.
  destruct Hcases as (Hp & Hdirs & Hin). split; [|exact Hin| |done].
  - intros q Hq Ht. by rw (published_names _ _ _ _ _ _ _ _ _ Hp).
  - rw Hdirs. apply union_subseteq_r.
Qed.

(** How [persist] can end. *)
Lemma hard_persist_cases d n hs old σ :
  let p := join d n in
  fs_wf σ → representable hs → hard_stored σ p old → no_alias (tmp_path p) p σ →
  let '(r, σ') := hard_persist p hs σ in
  r ≠ Panic ∧ (r = Ok tt → hard_stored σ' p hs)
  ∧ ∀ σc, crash σ' σc → hard_stored σc p old ∨ hard_stored σc p hs.
Proof.
  intros p Hwf Hrep [Hdur Hold] Hal.
  destruct (bincode_serialize_ok hs Hrep) as (bs & Ebs & Hbs).
  rw /p (hard_persist_publish d n hs bs σ Ebs) -/p /bind /create_dir_all. split_syscall.
  { assert (hard_stored (set_sched s σ) p old) as Hst by done.
    split_and!; [done|done|by eauto using hard_stored_crash]. }
  rw /modify -/(with_dir d (set_sched s σ)). set (σ1 := with_dir d (set_sched s σ)).
  assert (fs_wf σ1) as Hwf1 by (by destruct Hwf).
  pose proof (publish_cases (tmp_path p) p d bs σ1 Hwf1 (tmp_path_ne d n)) as Hcases.
  pose proof (publish_no_panic (tmp_path p) p d bs σ1) as Hnp.
  pose proof (λ σc, publish_atomic (tmp_path p) p d bs σ1 σc Hwf1 (tmp_path_ne d n)
                      (parent_join d n) Hal Hdur) as Hat.
  destruct (publish _ p d bs σ1) as [r σ2]. cbn [fst snd] in *.
  destruct Hcases as (Hp & _ & _). split_and!; [done| |].
  - intros ->. inversion Hp as [| |σ' Hd Hn Ht Hf Hi]; simplify_eq. split.
    + split; [rw Hd; apply lookup_synced_names_in, parent_join|].
      intros fd. rw Hf. intros [= <-]. by rw /file_durable /file_data Hi.
    + by rw /contents Hf /= /file_data Hi.
  - intros σc Hcr. destruct (Hat σc Hcr) as [[E|E] _]; [left|right];
      (split; [by eapply crash_all_durable|]).
    + rw E. exact Hold.
    + by rw E.
Qed.

Lemma hard_persist_ok d n hs σ :
  let p := join d n in
  fs_wf σ → fault_free σ → representable hs →
  (hard_persist p hs σ).1 = Ok tt ∧ fault_free (hard_persist p hs σ).2.
Proof.
  intros p Hwf Hs Hrep. destruct (bincode_serialize_ok hs Hrep) as (bs & Ebs & _).
  rw /p (hard_persist_publish d n hs bs σ Ebs) (bind_Ok _ _ _ _ _ (create_dir_all_ok _ _ Hs)).
  apply publish_ok; [done|by destruct Hwf|apply tmp_path_ne| |apply (with_dir_elem d σ)].
  rw tmp_path_join. apply parent_join.
Qed.

(** Once [persist] has returned, no directory entry has the temporary name. *)
Lemma hard_persist_tmp d n hs σ fd :
  let p := join d n in
  fs_wf σ → representable hs → (hard_persist p hs σ).1 = Ok tt →
  ¬ view_fd (hard_persist p hs σ).2 (tmp_path p) fd.
Proof.
  intros p Hwf Hrep. destruct (bincode_serialize_ok hs Hrep) as (bs & Ebs & _).
  rw /p (hard_persist_publish d n hs bs σ Ebs) -/p /bind /create_dir_all. split_syscall; [done|].
  rw /modify -/(with_dir d (set_sched s σ)). set (σ1 := with_dir d (set_sched s σ)).
  assert (fs_wf σ1) as Hwf1 by (by destruct Hwf).
  pose proof (publish_cases (tmp_path p) p d bs σ1 Hwf1 (tmp_path_ne d n)) as Hcases.
  destruct (publish _ p d bs σ1) as [r σ2]. cbn [fst snd] in *. intros ->.
  destruct Hcases as (Hp & _). inversion Hp as [| |σ' Hd Hn Ht Hf Hi]; simplify_eq.
  rw /view_fd Ht Hd lookup_synced_names_in; [rw /p tmp_path_join; apply parent_join|]. rw Ht. by intros [].
Qed.

(** *** After failed attempts *)

(** Every hard state that a reboot can find satisfies [P]. *)
Definition hard_views (σ : fs) (p : path) (P : HardState → Prop) : Prop :=
  views_ok σ p (λ o, match o with
                     | None => P default_hard
                     | Some bs => ∃ hs, bincode_deserialize bs = Ok hs ∧ P hs
                     end).

Lemma hard_views_impl σ p (P P' : HardState → Prop) :
  hard_views σ p P → (∀ hs, P hs → P' hs) → hard_views σ p P'.
Proof.
  intros Hv Himp. eapply views_ok_impl; [exact Hv|]. intros [bs|]; [|by apply Himp].
  intros (hs & E & Hp). eauto.
Qed.

Lemma hard_load_views σ p P :
  fault_free σ → hard_views σ p P → ∃ hs, hard_load p σ = (Ok hs, σ) ∧ P hs.
Proof.
  intros Hs [Hnone Hsome]. rw /hard_load /fs_read /bind. destruct (fs_names σ !! p) as [fd|] eqn:E.
  - destruct (Hsome fd (or_introl E)) as [_ (hs & Eb & HP)].
    rw (open_existing_ok _ _ _ Hs E) read_file_ok // Eb. eauto.
  - rw (open_existing_missing _ _ Hs E). eauto.
Qed.

Lemma hard_persist_views d n hs σ (P : HardState → Prop) :
  let p := join d n in
  fs_wf σ → representable hs → unaliased (tmp_path p) p σ → hard_views σ p P → P hs →
  let '(r, σ') := hard_persist p hs σ in
  fs_wf σ' ∧ unaliased (tmp_path p) p σ' ∧ hard_views σ' p P
  ∧ (r = Ok tt → hard_views σ' p (λ x, x = hs)) ∧ r ≠ Panic.
Proof.
  intros p Hwf Hrep Hal Hv HP. destruct (bincode_serialize_ok hs Hrep) as (bs & Ebs & Hbs).
  rw /p (hard_persist_publish d n hs bs σ Ebs) -/p /bind /create_dir_all. split_syscall.
  { split_and!; try done; [by destruct Hwf|by destruct Hv]. }
  rw /modify -/(with_dir d (set_sched s σ)). set (σ1 := with_dir d (set_sched s σ)).
  assert (fs_wf σ1) as Hwf1 by (by destruct Hwf).
  assert (hard_views σ1 p P) as Hv1 by (by destruct Hv).
  pose proof (publish_wf (tmp_path p) p d bs σ1 Hwf1) as Hwf2.
  pose proof (publish_no_panic (tmp_path p) p d bs σ1) as Hnp.
  pose proof (publish_views (tmp_path p) p d bs σ1 _ Hwf1 (tmp_path_ne d n) (parent_join d n) Hal Hv1
    (ex_intro _ hs (conj Hbs HP))) as Hpub.
  destruct (publish _ p d bs σ1) as [r σ2]. cbn [fst snd] in *. destruct Hpub as (Hal2 & Hv2 & Hok).
  split_and!; try done. intros Hr. eapply views_ok_impl; [by apply Hok|]. intros o ->. eauto.
Qed.

(** C22: the hard state is replaced atomically: for every failure of [persist] and every
    crash (a directory, once created, is taken to survive), [load] succeeds and returns the
    previous term and vote or the new ones, and the new ones once [persist] has returned: a
    vote that was acknowledged is never forgotten. *)
Theorem hard_state_atomic d n hs old σ σc :
  let p := join d n in
  fs_wf σ → representable hs → hard_stored σ p old → no_alias (tmp_path p) p σ →
  crash (hard_persist p hs σ).2 σc →
  (hard_load p σc = (Ok old, σc) ∨ hard_load p σc = (Ok hs, σc))
  ∧ ((hard_persist p hs σ).1 = Ok tt → hard_load p σc = (Ok hs, σc)).
Proof.
  intros p Hwf Hrep Hst Hal Hcr. pose proof (hard_persist_cases d n hs old σ Hwf Hrep Hst Hal) as Hc.
  pose proof (crash_sched _ _ Hcr : fault_free σc) as Hs. fold p in Hc.
  destruct (hard_persist p hs σ) as [r σ']. cbn [fst snd] in *. destruct Hc as (_ & Hok & Hc).
  split.
  - destruct (Hc σc Hcr); [left|right]; by apply hard_load_stored.
  - intros Hr. apply hard_load_stored; [done|]. eapply hard_stored_crash; eauto.
Qed.

End hard_state.

(** ** Concrete encodings, and a witness *)

#[global] Instance codec_hard_state : Codec HardState :=
  codec_iso (λ h, (current_term h, voted_for h)) (λ '(t, v), MkHardState t v) ltac:(by intros []).
#[global] Instance codec_log_entry : Codec LogEntry :=
  codec_iso (λ e, (e_term e, (e_index e, e_command e))) (λ '(t, (i, c)), MkLogEntry t i c)
    ltac:(by intros []).
#[local] Existing Instance bincode_codec.

(** The file system fills up while a vote for node 3 is written over one for node 2. *)
Definition voted_disk : fs := (hard_persist (join demo_dir "hard_state") (MkHardState 4 (Some 2)) empty_fs).2.

Lemma hard_state_atomic_witness :
  let p := join demo_dir "hard_state" in
  let run := hard_persist p (MkHardState 5 (Some 3)) (set_sched [None; None; Some 4%nat] voted_disk) in
  run.1 = Err (EIo OtherIo) ∧
  (hard_load p (power_loss run.2) = (Ok (MkHardState 4 (Some 2)), power_loss run.2)
   ∨ hard_load p (power_loss run.2) = (Ok (MkHardState 5 (Some 3)), power_loss run.2)).
Proof.
  intros p run. split; [vm_compute; reflexivity|].
  apply (hard_state_atomic demo_dir "hard_state" (MkHardState 5 (Some 3)) (MkHardState 4 (Some 2))
    (set_sched [None; None; Some 4%nat] voted_disk) (power_loss run.2)).
  - apply fs_wf_check; evaluate.
  - repeat split; evaluate.
  - split; [split; [evaluate|]|vm_compute; reflexivity].
    intros fd E. assert (fd = 0%nat) as ->; [|vm_compute; reflexivity].
    vm_compute in E. by injection E.
  - intros fd E. vm_compute in E. done.
  - apply power_loss_crash.
Defined.
