(* ===== verification/Wal.v ===== *)
(** * Wal: the log as the consensus core sees it.

    The class [Wal] has the operations of [crate::wal::Log] that src/raft/ calls, and
    [WalLaws] what they promise while no system call fails; the segmented log of file
    WalLog is an instance of both. *)

From Corelib Require Import ssreflect.
From stdpp Require Import base gmap strings list.
From S2P Require Import Prelude Text Fs AtomicFile Crc Record Segment WalLog RaftState.

Class Wal (L : Type) := {
  wal_append : list byte → M (L * fs) Z;
  wal_sync : M (L * fs) unit;
  wal_read_all : L → M fs (list (Z * list byte));
  wal_truncate_prefix : Z → M (L * fs) unit;
  wal_truncate_suffix : Z → M (L * fs) unit
}.

#[global] Instance wal_log `{Crc32} : Wal Log := {
  wal_append := log_append;
  wal_sync := log_sync;
  wal_read_all := log_read_all;
  wal_truncate_prefix := log_truncate_prefix;
  wal_truncate_suffix := log_truncate_suffix
}.

(** ** What the log promises *)

Class WalLaws (L : Type) {wal : Wal L} := {
  (** the log [l] on disk [σ] holds the abstract log *)
  wal_rep : fs → L → alog → Prop;
  (** and all of it is on disk *)
  wal_clean : fs → L → Prop;
  (** the file [p] and its temporary file are no part of it *)
  wal_away : path → fs → L → Prop;
  wal_rep_range σ l a :
    wal_rep σ l a → 1 ≤ al_first a ≤ al_last a + 1 ∧ al_last a < u64_max;
  wal_append_spec p l σ a :
    fault_free σ → wal_rep σ l a → zlen p ≤ MAX_RECORD_LEN → al_last a + 1 < u64_max →
    ∃ l' σ', wal_append p (l, σ) = (Ok (al_last a + 1), (l', σ'))
      ∧ wal_rep σ' l' (al_append p a) ∧ fault_free σ';
  wal_sync_spec l σ a :
    fault_free σ → wal_rep σ l a →
    ∃ l' σ', wal_sync (l, σ) = (Ok tt, (l', σ'))
      ∧ wal_rep σ' l' a ∧ wal_clean σ' l' ∧ fault_free σ';
  wal_truncate_suffix_spec keep l σ a :
    fault_free σ → wal_rep σ l a → wal_clean σ l → al_first a - 1 ≤ keep < al_last a →
    ∃ l' σ', wal_truncate_suffix keep (l, σ) = (Ok tt, (l', σ'))
      ∧ wal_rep σ' l' (al_keep keep a) ∧ wal_clean σ' l' ∧ fault_free σ';
  wal_truncate_prefix_spec up_to l σ a :
    fault_free σ → wal_rep σ l a →
    ∃ d l' σ', wal_truncate_prefix up_to (l, σ) = (Ok tt, (l', σ'))
      ∧ wal_rep σ' l' (al_drop d a) ∧ fault_free σ'
      ∧ 0 ≤ d ≤ zlen (al_records a) ∧ (0 < d → al_first a + d ≤ up_to)
      ∧ (wal_clean σ l → wal_clean σ' l');
  wal_read_all_spec l σ a :
    fault_free σ → wal_rep σ l a → wal_clean σ l → wal_read_all l σ = (Ok (al_entries a), σ);
  wal_frame p l σ σ' a :
    wal_rep σ l a → wal_away p σ l → hard_frame p σ σ' →
    wal_rep σ' l a ∧ (wal_clean σ l → wal_clean σ' l)
}.

(** ** The segmented log keeps the promises *)

Section wal_log.
Context `{Crc32}.

Definition log_away (p : path) (σ : fs) (l : Log) : Prop :=
  (∀ n, join (log_dir l) n ≠ p ∧ join (log_dir l) n ≠ tmp_path p)
  ∧ tmp_fd (tmp_path p) σ ∉ seg_file <$> log_segments l.

Lemma log_hard_frame p l σ σ' pss :
  log_rep σ l pss → log_away p σ l → hard_frame p σ σ' →
  log_rep σ' l pss ∧ (log_synced σ l → log_synced σ' l).
Proof.
  intros Hr [Haway Hfd] [Hn Hi Hd Hwf].
  assert (∀ n, fs_names σ' !! join (log_dir l) n = fs_names σ !! join (log_dir l) n) as Hnames.
  { intros n. destruct (Haway n). by apply Hn. }
  assert (∀ s, s ∈ log_segments l → fs_inodes σ' !! seg_file s = fs_inodes σ !! seg_file s) as Hin.
  { intros s Hs. apply Hi. intros E. apply Hfd. rw -E. by apply list_elem_of_fmap_2. }
  split.
  - destruct Hr as [_ Hdir Hsegs Hne Hint Hbs Hps Hfs Hfst Hls Hbd Hon].
    split; try done; [set_solver| |].
    + eapply seg_reps_frame; [exact Hsegs|]. intros s Hs. split; [|by apply Hin].
      rw (proj1 (Forall_forall _ _) Hps s Hs). apply Hnames.
    + intros n fd. rw Hnames. apply Hon.
  - intros Hsy. apply Forall_forall. intros s Hs. eapply seg_synced_frame; [|by apply Hin].
    by eapply Forall_forall in Hsy.
Qed.

#[global] Program Instance wal_log_laws : WalLaws Log := {
  wal_rep := log_abs; wal_clean := log_synced; wal_away := log_away }.
Next Obligation. intros σ l a Ha. destruct (log_abs_range _ _ _ Ha) as (_ & _ & ? & ?). done. Qed.
Next Obligation.
  intros p l σ a Hs Ha Hp Hb. destruct (log_abs_range _ _ _ Ha) as (_ & Hl & _ & _).
  destruct Ha as (pss & Hr & ->). rw Hl in Hb |- *.
  destruct (log_append_rep p l σ pss Hs Hr Hp Hb) as (l' & σ' & pss' & E & Hr' & Hs' & Hc & Hf & _).
  exists l', σ'. split_and!; [done| |done]. exists pss'. by rw /al_append /= Hf Hc.
Qed.
Next Obligation.
  intros l σ a Hs (pss & Hr & ->).
  destruct (log_sync_rep l σ pss Hs Hr) as (l' & σ' & E & Hr' & Hsy & Hs' & _ & El).
  exists l', σ'. split_and!; try done. exists pss. split; [done|]. by rw El.
Qed.
Next Obligation.
  intros keep l σ a Hs Ha Hsy Hk. destruct (log_abs_range _ _ _ Ha) as (Hf & Hl & _ & _).
  destruct Ha as (pss & Hr & ->). rw Hl in Hk. simpl in Hk.
  destruct (log_truncate_suffix_rep keep l σ pss Hs Hr (log_synced_flushed _ _ Hsy) Hk)
    as (l' & σ' & pss' & E & Hr' & Hs' & Hc & Hf' & _ & _ & _ & Hsy').
  exists l', σ'. split_and!; [done| |by apply Hsy'|done]. exists pss'. by rw /al_keep /= Hc Hf'.
Qed.
Next Obligation.
  intros up_to l σ a Hs Ha. destruct (log_truncate_prefix_abs up_to l σ a Hs Ha)
    as (d & l' & σ' & E & Ha' & Hs' & Hd & Hc & _ & _ & Hsy). by exists d, l', σ'.
Qed.
Next Obligation.
  intros l σ a Hs (pss & Hr & ->) Hsy. exact (log_read_all_rep _ _ _ Hs Hr (log_synced_flushed _ _ Hsy)).
Qed.
Next Obligation.
  intros p l σ σ' a (pss & Hr & ->) Haw Hf. destruct (log_hard_frame p l σ σ' pss Hr Haw Hf) as [Hr' Hsy].
  split; [by exists pss|done].
Qed.

End wal_log.
