(* ===== verification/RaftCore.v ===== *)
(** * RaftCore: the state of one node and its log helpers (src/raft/mod.rs, the passive
    half, and src/raft/lease.rs).

    The core is written against the interface [Wal] of the write-ahead log.  A method that
    reads the clock or draws a random number takes the reading and the draw as arguments. *)

From Corelib Require Import ssreflect.
From stdpp Require Import base gmap strings list.
From S2P Require Import Prelude Text Fs AtomicFile Crc WalLog Codec.
From S2P Require Import Config MemTable Snapshot RaftState Wal.

(** ** Leader leases (src/raft/lease.rs); times in nanoseconds *)
Record LeaderLease := MkLeaderLease { lease_duration : Z; lease_expiry : option Z }.

Definition lease_new (duration : Z) : LeaderLease := MkLeaderLease duration None.
Definition lease_renew (now : Z) (l : LeaderLease) : LeaderLease :=
  MkLeaderLease (lease_duration l) (Some (now + lease_duration l)).
Definition lease_is_valid (now : Z) (l : LeaderLease) : bool :=
  match lease_expiry l with Some deadline => now <? deadline | None => false end.
Definition lease_invalidate (l : LeaderLease) : LeaderLease :=
  MkLeaderLease (lease_duration l) None.

(** ** The state *)
Record RaftCore (L : Type) := MkRaftCore {
  rc_id : Z;
  rc_peers : list Z;
  rc_cluster_size : Z;
  rc_election_timeout : Z * Z;
  rc_hard : HardState;
  rc_hard_path : path;
  rc_log : L;
  rc_entries : list LogEntry;
  rc_snapshot : SnapshotMeta;
  rc_role : Role;
  rc_commit_index : Z;
  rc_last_applied : Z;
  rc_leader_id : option Z;
  rc_election_deadline : Z;
  rc_next_index : gmap Z Z;
  rc_match_index : gmap Z Z;
  rc_lease : LeaderLease
}.
Arguments MkRaftCore {L}.
Arguments rc_id {L}. Arguments rc_peers {L}. Arguments rc_cluster_size {L}.
Arguments rc_election_timeout {L}. Arguments rc_hard {L}. Arguments rc_hard_path {L}.
Arguments rc_log {L}. Arguments rc_entries {L}. Arguments rc_snapshot {L}.
Arguments rc_role {L}. Arguments rc_commit_index {L}. Arguments rc_last_applied {L}.
Arguments rc_leader_id {L}. Arguments rc_election_deadline {L}. Arguments rc_next_index {L}.
Arguments rc_match_index {L}. Arguments rc_lease {L}.

(** Field updates. *)
Section setters.
Context {L : Type}.
Implicit Types c : RaftCore L.

Definition set_hard v c : RaftCore L := MkRaftCore (rc_id c) (rc_peers c) (rc_cluster_size c)
  (rc_election_timeout c) v (rc_hard_path c) (rc_log c) (rc_entries c) (rc_snapshot c) (rc_role c)
  (rc_commit_index c) (rc_last_applied c) (rc_leader_id c) (rc_election_deadline c)
  (rc_next_index c) (rc_match_index c) (rc_lease c).
Definition set_log v c : RaftCore L := MkRaftCore (rc_id c) (rc_peers c) (rc_cluster_size c)
  (rc_election_timeout c) (rc_hard c) (rc_hard_path c) v (rc_entries c) (rc_snapshot c) (rc_role c)
  (rc_commit_index c) (rc_last_applied c) (rc_leader_id c) (rc_election_deadline c)
  (rc_next_index c) (rc_match_index c) (rc_lease c).
Definition set_entries v c : RaftCore L := MkRaftCore (rc_id c) (rc_peers c) (rc_cluster_size c)
  (rc_election_timeout c) (rc_hard c) (rc_hard_path c) (rc_log c) v (rc_snapshot c) (rc_role c)
  (rc_commit_index c) (rc_last_applied c) (rc_leader_id c) (rc_election_deadline c)
  (rc_next_index c) (rc_match_index c) (rc_lease c).
Definition set_snapshot v c : RaftCore L := MkRaftCore (rc_id c) (rc_peers c) (rc_cluster_size c)
  (rc_election_timeout c) (rc_hard c) (rc_hard_path c) (rc_log c) (rc_entries c) v (rc_role c)
  (rc_commit_index c) (rc_last_applied c) (rc_leader_id c) (rc_election_deadline c)
  (rc_next_index c) (rc_match_index c) (rc_lease c).
Definition set_role v c : RaftCore L := MkRaftCore (rc_id c) (rc_peers c) (rc_cluster_size c)
  (rc_election_timeout c) (rc_hard c) (rc_hard_path c) (rc_log c) (rc_entries c) (rc_snapshot c) v
  (rc_commit_index c) (rc_last_applied c) (rc_leader_id c) (rc_election_deadline c)
  (rc_next_index c) (rc_match_index c) (rc_lease c).
Definition set_commit_index v c : RaftCore L := MkRaftCore (rc_id c) (rc_peers c) (rc_cluster_size c)
  (rc_election_timeout c) (rc_hard c) (rc_hard_path c) (rc_log c) (rc_entries c) (rc_snapshot c)
  (rc_role c) v (rc_last_applied c) (rc_leader_id c) (rc_election_deadline c)
  (rc_next_index c) (rc_match_index c) (rc_lease c).
Definition set_last_applied v c : RaftCore L := MkRaftCore (rc_id c) (rc_peers c) (rc_cluster_size c)
  (rc_election_timeout c) (rc_hard c) (rc_hard_path c) (rc_log c) (rc_entries c) (rc_snapshot c)
  (rc_role c) (rc_commit_index c) v (rc_leader_id c) (rc_election_deadline c)
  (rc_next_index c) (rc_match_index c) (rc_lease c).
Definition set_leader_id v c : RaftCore L := MkRaftCore (rc_id c) (rc_peers c) (rc_cluster_size c)
  (rc_election_timeout c) (rc_hard c) (rc_hard_path c) (rc_log c) (rc_entries c) (rc_snapshot c)
  (rc_role c) (rc_commit_index c) (rc_last_applied c) v (rc_election_deadline c)
  (rc_next_index c) (rc_match_index c) (rc_lease c).
Definition set_election_deadline v c : RaftCore L := MkRaftCore (rc_id c) (rc_peers c) (rc_cluster_size c)
  (rc_election_timeout c) (rc_hard c) (rc_hard_path c) (rc_log c) (rc_entries c) (rc_snapshot c)
  (rc_role c) (rc_commit_index c) (rc_last_applied c) (rc_leader_id c) v
  (rc_next_index c) (rc_match_index c) (rc_lease c).
Definition set_next_index v c : RaftCore L := MkRaftCore (rc_id c) (rc_peers c) (rc_cluster_size c)
  (rc_election_timeout c) (rc_hard c) (rc_hard_path c) (rc_log c) (rc_entries c) (rc_snapshot c)
  (rc_role c) (rc_commit_index c) (rc_last_applied c) (rc_leader_id c) (rc_election_deadline c)
  v (rc_match_index c) (rc_lease c).
Definition set_match_index v c : RaftCore L := MkRaftCore (rc_id c) (rc_peers c) (rc_cluster_size c)
  (rc_election_timeout c) (rc_hard c) (rc_hard_path c) (rc_log c) (rc_entries c) (rc_snapshot c)
  (rc_role c) (rc_commit_index c) (rc_last_applied c) (rc_leader_id c) (rc_election_deadline c)
  (rc_next_index c) v (rc_lease c).
Definition set_lease v c : RaftCore L := MkRaftCore (rc_id c) (rc_peers c) (rc_cluster_size c)
  (rc_election_timeout c) (rc_hard c) (rc_hard_path c) (rc_log c) (rc_entries c) (rc_snapshot c)
  (rc_role c) (rc_commit_index c) (rc_last_applied c) (rc_leader_id c) (rc_election_deadline c)
  (rc_next_index c) (rc_match_index c) v.
End setters.

Abbreviation snap_index c := (last_included_index (rc_snapshot c)).

Section core.
Context {L : Type} {wal : Wal L} {bin_hard : Bincode HardState} {bin_entry : Bincode LogEntry}.
Implicit Types c : RaftCore L.

(** Run an operation of the log, change the core in memory, look at it. *)
Definition on_log {A} (m : M (L * fs) A) : M (RaftCore L * fs) A := λ '(c, σ),
  let '(r, (l', σ')) := m (rc_log c, σ) in (r, (set_log l' c, σ')).
Definition update (f : RaftCore L → RaftCore L) : M (RaftCore L * fs) unit :=
  modify (λ '(c, σ), (f c, σ)).
Definition self {A} (f : RaftCore L → A) : M (RaftCore L * fs) A := gets (λ s, f s.1).

(** ** The election timer (src/raft/election.rs) *)

(** [rand::thread_rng().gen_range(lo..hi)]: some value of the range, picked by [draw]; an
    empty range panics. *)
Definition gen_range (lo hi draw : Z) : outcome Z :=
  if lo <? hi then Ok (lo + draw mod (hi - lo)) else Panic.

(** [duration.as_millis() as u64]. *)
Definition as_millis (d : Z) : Z := u64 (d / 1000000).

Definition reset_election_timer (now draw : Z) : M (RaftCore L * fs) unit :=
  let! timeout := self rc_election_timeout in
  let! ms := lift (gen_range (as_millis timeout.1) (as_millis timeout.2) draw) in
  update (set_election_deadline (now + from_millis ms)).

Definition election_timed_out (now : Z) c : bool := rc_election_deadline c <=? now.

(** ** Log helpers *)

Definition core_quorum c : Z := rc_cluster_size c / 2 + 1.
Definition is_leader c : bool := bool_decide (rc_role c = Leader).
Definition base_index c : Z := u64_add (last_included_index (rc_snapshot c)) 1.

Definition last_log_index c : Z :=
  match last (rc_entries c) with
  | Some e => e_index e
  | None => last_included_index (rc_snapshot c)
  end.
Definition last_log_term c : Z :=
  match last (rc_entries c) with
  | Some e => e_term e
  | None => last_included_term (rc_snapshot c)
  end.

Definition term_at (index : Z) c : option Z :=
  if index =? last_included_index (rc_snapshot c) then Some (last_included_term (rc_snapshot c))
  else if index <? base_index c then None
  else e_term <$> zget (rc_entries c) (u64_sub index (base_index c)).

Definition entry_at (index : Z) c : option LogEntry :=
  if index <? base_index c then None
  else zget (rc_entries c) (u64_sub index (base_index c)).

Definition entries_from (from : Z) c : list LogEntry :=
  if from <? base_index c then rc_entries c
  else default [] (zget_from (rc_entries c) (u64_sub from (base_index c))).

(** ** Restart *)

(** The loop of [RaftCore::restore] over the records of the log. *)
Fixpoint load_entries (snapshot_index : Z) (recs : list (Z * list byte)) : outcome (list LogEntry) :=
  match recs with
  | [] => Ok []
  | (index, bytes) :: recs =>
      if index <=? snapshot_index then load_entries snapshot_index recs
      else match bincode_deserialize bytes with
           | Ok e => match load_entries snapshot_index recs with
                     | Ok es => Ok (e :: es)
                     | o => o
                     end
           | Err e => Err e
           | Panic => Panic
           end
  end.

(** [RaftCore::restore]. *)
Definition restore {A} (cfg : Config A) (snapshot : SnapshotMeta) (log : L) (now draw : Z)
    : M fs (RaftCore L) :=
  let hard_path := hard_state_path cfg in
  let! hard := hard_load hard_path in
  let! recs := wal_read_all log in
  let! entries := lift (load_entries (last_included_index snapshot) recs) in
  let core := MkRaftCore (cfg_id cfg) (peer_id <$> cfg_peers cfg) (cluster_size cfg)
    (cfg_election_timeout cfg) hard hard_path log entries snapshot Follower
    (last_included_index snapshot) (last_included_index snapshot) None now ∅ ∅
    (lease_new ((cfg_election_timeout cfg).1 / 2)) in
  λ σ, let '(r, (core', σ')) := reset_election_timer now draw (core, σ) in
       (match r with Ok _ => Ok core' | Err e => Err e | Panic => Panic end, σ').

(** ** Appending as leader *)

(** [RaftCore::append_command]. *)
Definition append_command (command : Command) : M (RaftCore L * fs) LogEntry :=
  let! role := self rc_role in
  if negb (bool_decide (role = Leader)) then throw (error_raft "only the leader may append commands")
  else
    let! index := self (λ c, u64_add (last_log_index c) 1) in
    let! term := self (λ c, current_term (rc_hard c)) in
    let entry := MkLogEntry term index command in
    let! bytes := lift (bincode_serialize entry) in
    let! wal_index := on_log (wal_append bytes) in
    do! update (λ c, set_entries (rc_entries c ++ [entry]) c) then
    ret entry.

(** [RaftCore::sync] and [RaftCore::persist_hard]. *)
Definition core_sync : M (RaftCore L * fs) unit := on_log wal_sync.
Definition persist_hard : M (RaftCore L * fs) unit := λ '(c, σ),
  let '(r, σ') := hard_persist (rc_hard_path c) (rc_hard c) σ in (r, (c, σ')).

(** ** Commit and apply *)

(** The loop of [RaftCore::take_committed]. *)
Fixpoint take_loop (fuel : nat) c : list LogEntry * RaftCore L :=
  match fuel with
  | O => ([], c)
  | S fuel =>
      if rc_last_applied c <? rc_commit_index c then
        let next := u64_add (rc_last_applied c) 1 in
        match entry_at next c with
        | Some entry =>
            let '(out, c') := take_loop fuel (set_last_applied next c) in (entry :: out, c')
        | None => ([], c)
        end
      else ([], c)
  end.
Definition take_committed c : list LogEntry * RaftCore L :=
  take_loop (Z.to_nat (rc_commit_index c - rc_last_applied c)) c.

(** [RaftCore::compact]. *)
Definition compact (meta : SnapshotMeta) : M (RaftCore L * fs) unit :=
  let! snapshot := self rc_snapshot in
  if last_included_index meta <=? last_included_index snapshot then ret tt
  else
    do! update (λ c, set_entries
          (filter (λ e, last_included_index meta < e_index e) (rc_entries c)) c) then
    do! on_log (wal_truncate_prefix (u64_add (last_included_index meta) 1)) then
    update (set_snapshot meta).

(** ** Lease reads (src/raft/lease.rs) *)

Definition renew_lease (now : Z) c : RaftCore L :=
  if is_leader c then set_lease (lease_renew now (rc_lease c)) c else c.
Definition can_serve_local_read (now : Z) c : bool :=
  is_leader c && lease_is_valid now (rc_lease c).

(** ** The in-memory log *)

(** The entries are numbered consecutively from the snapshot on, within [u64]. *)
Record log_wf c : Prop := {
  lw_base : 0 ≤ snap_index c;
  lw_entries i e : rc_entries c !! i = Some e → e_index e = snap_index c + 1 + Z.of_nat i;
  lw_bound : snap_index c + zlen (rc_entries c) < u64_max
}.

Lemma last_log_index_wf c : log_wf c → last_log_index c = snap_index c + zlen (rc_entries c).
Proof.
  intros Hw. rw /last_log_index. destruct (last (rc_entries c)) as [e|] eqn:E.
  - apply last_Some in E as [es E]. rw E zlen_app zlen_cons zlen_nil.
    rw (lw_entries c Hw (length es) e); [by rw E lookup_app_r // Nat.sub_diag|]. rw /zlen. lia.
  - apply last_None in E as ->. by rw zlen_nil Z.add_0_r.
Qed.

Lemma base_index_wf c : log_wf c → base_index c = snap_index c + 1.
Proof.
  intros Hw. rw /base_index u64_add_small //. pose proof (lw_base _ Hw). pose proof (lw_bound _ Hw).
  pose proof (zlen_nonneg (rc_entries c)). lia.
Qed.

(** Position of index [i] in the vector. *)
Definition pos c (i : Z) : nat := Z.to_nat (i - snap_index c - 1).

Lemma entry_at_wf c i :
  log_wf c → snap_index c < i ≤ u64_max → entry_at i c = rc_entries c !! pos c i.
Proof.
  intros Hw Hi. pose proof (lw_base _ Hw). rw /entry_at base_index_wf //.
  destruct (Z.ltb_spec i (snap_index c + 1)); [lia|].
  rw u64_sub_small; [lia|]. rw zget_Some; [lia|]. rw /pos. do 2 f_equal. lia.
Qed.

Lemma entry_at_low c i : log_wf c → i ≤ snap_index c → entry_at i c = None.
Proof.
  intros Hw Hi. rw /entry_at base_index_wf //. by destruct (Z.ltb_spec i (snap_index c + 1)); [|lia].
Qed.

Lemma entry_at_index c i e :
  log_wf c → 0 ≤ i ≤ u64_max → entry_at i c = Some e → e_index e = i ∧ snap_index c < i ≤ last_log_index c.
Proof.
  intros Hw Hi He. destruct (decide (snap_index c < i)) as [Hlt|]; last first.
  { by rw entry_at_low // in He; lia. }
  rw entry_at_wf // in He; [lia|]. pose proof (lw_entries _ Hw _ _ He) as Hidx.
  apply lookup_lt_Some in He. rw last_log_index_wf // /zlen. rw /pos in He Hidx. lia.
Qed.

Lemma entry_at_is_Some c i :
  log_wf c → snap_index c < i ≤ last_log_index c → is_Some (entry_at i c).
Proof.
  intros Hw Hi. pose proof (lw_bound _ Hw). rw last_log_index_wf // in Hi.
  rw entry_at_wf //; [lia|]. apply lookup_lt_is_Some. rw /pos /zlen in Hi |- *. lia.
Qed.

Lemma term_at_entry c i :
  log_wf c → snap_index c < i ≤ u64_max → term_at i c = e_term <$> entry_at i c.
Proof.
  intros Hw Hi. rw /term_at /entry_at. destruct (Z.eqb_spec i (snap_index c)); [lia|].
  by destruct (i <? base_index c).
Qed.

Lemma term_at_snapshot c : term_at (snap_index c) c = Some (last_included_term (rc_snapshot c)).
Proof. by rw /term_at Z.eqb_refl. Qed.

Lemma term_at_low c i : log_wf c → i < snap_index c → term_at i c = None.
Proof.
  intros Hw Hi. rw /term_at base_index_wf //. destruct (Z.eqb_spec i (snap_index c)); [lia|].
  by destruct (Z.ltb_spec i (snap_index c + 1)); [|lia].
Qed.

Lemma term_at_last c :
  log_wf c → term_at (last_log_index c) c = Some (last_log_term c).
Proof.
  intros Hw. rw /last_log_term. destruct (last (rc_entries c)) as [e|] eqn:E.
  - apply last_Some in E as [es E]. assert (rc_entries c !! length es = Some e) as He.
    { by rw E lookup_app_r // Nat.sub_diag. }
    pose proof (lw_bound _ Hw) as Hb. pose proof (last_log_index_wf _ Hw) as Hl.
    rw E zlen_app zlen_cons zlen_nil in Hl. rw E zlen_app zlen_cons zlen_nil in Hb.
    pose proof (zlen_nonneg es). rw term_at_entry //; [lia|]. rw entry_at_wf //; [lia|].
    rw /pos Hl. replace (Z.to_nat _) with (length es) by (rw /zlen; lia). by rw He.
  - apply last_None in E. rw last_log_index_wf // E zlen_nil Z.add_0_r. apply term_at_snapshot.
Qed.

(** ** Taking committed entries *)

Lemma set_last_applied_wf v c : log_wf c → log_wf (set_last_applied v c).
Proof. by intros [? ? ?]. Qed.

Lemma take_loop_spec fuel c :
  log_wf c → snap_index c ≤ rc_last_applied c ≤ last_log_index c →
  (Z.to_nat (rc_commit_index c - rc_last_applied c) ≤ fuel)%nat →
  let upto := Z.max (rc_last_applied c) (Z.min (rc_commit_index c) (last_log_index c)) in
  take_loop fuel c =
    (take (Z.to_nat (upto - rc_last_applied c)) (drop (Z.to_nat (rc_last_applied c - snap_index c))
       (rc_entries c)), set_last_applied upto c).
Proof.
  revert c. induction fuel as [|fuel IH]; intros c Hw Ha Hf upto.
  { replace upto with (rc_last_applied c) by lia. rw Z.sub_diag /=. by destruct c. }
  cbn [take_loop]. destruct (Z.ltb_spec (rc_last_applied c) (rc_commit_index c)) as [Hlt|Hge];
    last first.
  { replace upto with (rc_last_applied c) by lia. rw Z.sub_diag /=. by destruct c. }
  pose proof (lw_bound _ Hw) as Hb. pose proof (lw_base _ Hw) as H0.
  pose proof (last_log_index_wf _ Hw) as Hl. rw u64_add_small; [lia|].
  rw entry_at_wf //; [lia|].
  destruct (decide (rc_last_applied c = last_log_index c)) as [Heq|Hne].
  { rw lookup_ge_None_2; [rw /pos; rw /zlen in Hl; lia|].
    replace upto with (rc_last_applied c) by lia. rw Z.sub_diag /=. by destruct c. }
  destruct (lookup_lt_is_Some_2 (rc_entries c) (pos c (rc_last_applied c + 1))) as [e He].
  { rw /pos. rw /zlen in Hl. lia. }
  rw He. pose proof (IH (set_last_applied (rc_last_applied c + 1) c)) as IH'.
  cbn [rc_last_applied rc_commit_index rc_snapshot set_last_applied rc_entries] in IH'.
  change (last_log_index (set_last_applied (rc_last_applied c + 1) c)) with (last_log_index c) in IH'.
  rw IH'; [by apply set_last_applied_wf|lia|lia|]. clear IH IH'.
  assert (Z.max (rc_last_applied c + 1) (Z.min (rc_commit_index c) (last_log_index c)) = upto) as ->
    by lia.
  rw /pos in He. replace (Z.to_nat (rc_last_applied c + 1 - snap_index c - 1)) with
    (Z.to_nat (rc_last_applied c - snap_index c)) in He by lia.
  rw (drop_S _ _ _ He). replace (Z.to_nat (upto - rc_last_applied c)) with
    (S (Z.to_nat (upto - (rc_last_applied c + 1)))) by lia.
  replace (Z.to_nat (rc_last_applied c + 1 - snap_index c)) with
    (S (Z.to_nat (rc_last_applied c - snap_index c))) by lia. done.
Qed.

(** [take_committed] hands out every entry from [last_applied + 1] to the commit index
    (bounded by the log), in order, each with its own index, and moves [last_applied] past
    them, so that an immediate second call hands out nothing. *)
Theorem take_committed_exact c :
  log_wf c → snap_index c ≤ rc_last_applied c ≤ last_log_index c →
  let upto := Z.max (rc_last_applied c) (Z.min (rc_commit_index c) (last_log_index c)) in
  let out := (take_committed c).1 in
  zlen out = upto - rc_last_applied c
  ∧ (∀ k e, out !! k = Some e →
       e_index e = rc_last_applied c + 1 + Z.of_nat k ∧ entry_at (e_index e) c = Some e)
  ∧ (take_committed c).2 = set_last_applied upto c
  ∧ take_committed (take_committed c).2 = ([], (take_committed c).2).
Proof.
  intros Hw Ha upto out. pose proof (last_log_index_wf _ Hw) as Hl.
  pose proof (lw_bound _ Hw) as Hb. pose proof (lw_base _ Hw) as H0.
  assert (take_committed c = (out, set_last_applied upto c) ∧
    out = take (Z.to_nat (upto - rc_last_applied c))
            (drop (Z.to_nat (rc_last_applied c - snap_index c)) (rc_entries c))) as [E Eo].
  { rw /out /take_committed take_loop_spec //. }
  rw E. split_and!; [| |done|].
  - rw Eo /zlen length_take length_drop. unfold zlen in Hl. lia.
  - rw Eo. intros k e [Hk Hlt]%lookup_take_Some. rw lookup_drop in Hk.
    pose proof (lw_entries _ Hw _ _ Hk) as Hi. pose proof (lookup_lt_Some _ _ _ Hk).
    split; [lia|]. rw entry_at_wf //; [rw /zlen in Hb; lia|]. rw -Hk /pos. f_equal. lia.
  - rw /take_committed /= (take_loop_spec _ (set_last_applied upto c)).
    + by apply set_last_applied_wf.
    + change (last_log_index (set_last_applied upto c)) with (last_log_index c). simpl. lia.
    + done.
    + change (last_log_index (set_last_applied upto c)) with (last_log_index c). cbn [rc_last_applied
        set_last_applied rc_commit_index rc_entries rc_snapshot].
      replace (Z.max upto _) with upto by lia. by rw Z.sub_diag.
Qed.

(** ** Compaction *)

Lemma filter_above (es : list LogEntry) (b m : Z) :
  (∀ i e, es !! i = Some e → e_index e = b + 1 + Z.of_nat i) →
  filter (λ e, m < e_index e) es = drop (Z.to_nat (m - b)) es.
Proof.
  revert b. induction es as [|e es IH]; intros b Hi; [by rw drop_nil|].
  pose proof (Hi 0%nat e eq_refl) as He. rw filter_cons (IH (b + 1)).
  { intros i e' Hi'. rw (Hi (S i) e' Hi'). lia. }
  destruct (decide (m < e_index e)) as [Hlt|Hge].
  - replace (Z.to_nat (m - b)) with 0%nat by lia. by replace (Z.to_nat (m - (b + 1))) with 0%nat by lia.
  - by replace (Z.to_nat (m - b)) with (S (Z.to_nat (m - (b + 1)))) by lia.
Qed.

Lemma filter_below (es : list LogEntry) (b m : Z) :
  (∀ i e, es !! i = Some e → e_index e = b + 1 + Z.of_nat i) →
  filter (λ e, e_index e < m) es = take (Z.to_nat (m - b - 1)) es.
Proof.
  revert b. induction es as [|e es IH]; intros b Hi; [by rw take_nil|].
  pose proof (Hi 0%nat e eq_refl) as He. rw filter_cons (IH (b + 1)).
  { intros i e' Hi'. rw (Hi (S i) e' Hi'). lia. }
  destruct (decide (e_index e < m)) as [Hlt|Hge].
  - by replace (Z.to_nat (m - b - 1)) with (S (Z.to_nat (m - (b + 1) - 1))) by lia.
  - replace (Z.to_nat (m - b - 1)) with 0%nat by lia. by replace (Z.to_nat (m - (b + 1) - 1)) with 0%nat by lia.
Qed.

(** The core after a compaction in memory. *)
Definition compacted (meta : SnapshotMeta) c : RaftCore L :=
  set_snapshot meta (set_entries
    (drop (Z.to_nat (last_included_index meta - snap_index c)) (rc_entries c)) c).

Lemma compacted_wf meta c :
  log_wf c → snap_index c ≤ last_included_index meta ≤ last_log_index c → log_wf (compacted meta c).
Proof.
  intros Hw Hm. rw last_log_index_wf // in Hm. destruct Hw as [Hb He Hx]. split; simpl.
  - lia.
  - intros i e. rw lookup_drop. intros Hi%He. lia.
  - rw /zlen length_drop. rw /zlen in Hx Hm. lia.
Qed.

Lemma compacted_entry_at meta c i :
  log_wf c → snap_index c ≤ last_included_index meta ≤ last_log_index c →
  last_included_index meta < i ≤ u64_max → entry_at i (compacted meta c) = entry_at i c.
Proof.
  intros Hw Hm Hi. rw (entry_at_wf (compacted meta c)) //; [by apply compacted_wf|].
  rw entry_at_wf //; [lia|]. rw /pos /= lookup_drop. f_equal. lia.
Qed.

Lemma compact_run meta c σ :
  log_wf c → snap_index c < last_included_index meta ≤ last_log_index c →
  compact meta (c, σ) =
    let c1 := set_entries (drop (Z.to_nat (last_included_index meta - snap_index c)) (rc_entries c)) c in
    let '(r, (l', σ')) := wal_truncate_prefix (last_included_index meta + 1) (rc_log c, σ) in
    match r with
    | Ok _ => (Ok tt, (set_log l' (compacted meta c), σ'))
    | Err e => (Err e, (set_log l' c1, σ'))
    | Panic => (Panic, (set_log l' c1, σ'))
    end.
Proof.
  intros Hw Hm. pose proof (lw_bound _ Hw). pose proof (lw_base _ Hw). rw last_log_index_wf // in Hm.
  rw /compact /bind /self /gets. cbn [fst].
  destruct (Z.leb_spec (last_included_index meta) (snap_index c)); [lia|].
  rw u64_add_small; [lia|]. rw /update /modify /on_log. cbn [rc_log set_entries].
  rw (filter_above _ (snap_index c)); [apply Hw|].
  by destruct (wal_truncate_prefix _ (rc_log c, σ)) as [[| |] [l' σ']].
Qed.

(** [compact] up to a snapshot keeps the log readable: the entry and the term at every
    index above the snapshot are what they were, the term at the snapshot is the one of its
    metadata, and the entries stay consecutively numbered; an older snapshot changes
    nothing. *)
Theorem compact_keeps_suffix meta c σ c' σ' :
  log_wf c → last_included_index meta ≤ last_log_index c →
  compact meta (c, σ) = (Ok tt, (c', σ')) →
  log_wf c' ∧ last_log_index c' = last_log_index c
  ∧ (∀ i, Z.max (snap_index c) (last_included_index meta) < i ≤ u64_max → entry_at i c' = entry_at i c)
  ∧ (last_included_index meta ≤ snap_index c → c' = c ∧ σ' = σ)
  ∧ (snap_index c < last_included_index meta →
       term_at (last_included_index meta) c' = Some (last_included_term meta)).
Proof.
  intros Hw Hm E. destruct (decide (snap_index c < last_included_index meta)) as [Hlt|Hge]; last first.
  { rw /compact /bind /self /gets in E. cbn [fst] in E.
    destruct (Z.leb_spec (last_included_index meta) (snap_index c)); [|lia].
    injection E as <- <-. split_and!; [done..|by intros; lia]. }
  rw compact_run // in E. cbn zeta in E.
  destruct (wal_truncate_prefix _ (rc_log c, σ)) as [[| |] [l' σ1]]; simplify_eq.
  assert (log_wf (compacted meta c)) as Hw' by (apply compacted_wf; [done|lia]).
  assert (log_wf (set_log l' (compacted meta c))) as Hw2 by (by destruct Hw').
  split_and!; [done| | |lia|].
  - rw !last_log_index_wf // /= /zlen length_drop. rw last_log_index_wf // /zlen in Hm. lia.
  - intros i Hi. change (entry_at i (set_log l' (compacted meta c))) with (entry_at i (compacted meta c)).
    apply compacted_entry_at; [done|lia|lia].
  - intros _. by rw /term_at /= Z.eqb_refl.
Qed.

(** On the error path of [compact] the core is left inconsistent: when the log fails to
    drop its prefix, the entries are gone from memory but the snapshot marker has not
    moved, so the first index after the old snapshot names an entry of another index. *)
Theorem compact_error_misaligns meta c σ c' σ' e :
  log_wf c → snap_index c < last_included_index meta < last_log_index c →
  compact meta (c, σ) = (Err e, (c', σ')) →
  ∃ x, entry_at (snap_index c + 1) c' = Some x ∧ e_index x = last_included_index meta + 1.
Proof.
  intros Hw Hm E. pose proof (lw_bound _ Hw). pose proof (lw_base _ Hw).
  rw compact_run // in E; [lia|]. cbn zeta in E.
  destruct (wal_truncate_prefix _ (rc_log c, σ)) as [[| |] [l' σ1]]; simplify_eq.
  rw last_log_index_wf // in Hm.
  destruct (lookup_lt_is_Some_2 (rc_entries c) (Z.to_nat (last_included_index meta - snap_index c)))
    as [x Hx]; [rw /zlen in Hm; lia|].
  exists x. rw (lw_entries _ Hw _ _ Hx). split; [|lia].
  rw /entry_at /base_index /=. rw u64_add_small; [lia|].
  destruct (Z.ltb_spec (snap_index c + 1) (snap_index c + 1)); [lia|].
  rw u64_sub_small; [lia|]. rw zget_Some; [lia|]. rw lookup_drop -Hx. f_equal. lia.
Qed.

(** ** Appending as leader *)

(** An entry at the end. *)
Definition pushed (e : LogEntry) c : RaftCore L := set_entries (rc_entries c ++ [e]) c.

Lemma pushed_wf e c :
  log_wf c → e_index e = last_log_index c + 1 → last_log_index c + 1 < u64_max → log_wf (pushed e c).
Proof.
  intros Hw He Hb. rw last_log_index_wf // in He Hb. destruct Hw as [Hb0 Hi Hx]. split; simpl; [done| |].
  - intros i x [Hl|[Hl Hx']]%lookup_app_Some; [by apply Hi|].
    apply list_lookup_singleton_Some in Hx' as [E <-]. rw He /zlen. lia.
  - rw zlen_app zlen_cons zlen_nil. lia.
Qed.

End core.

(** ** Witnesses *)

#[local] Existing Instance crc32fast.
#[local] Existing Instance bincode_codec.

(** Node 1 of three, over an empty log. *)
Definition demo_core (role : Role) (es : list LogEntry) (snap : SnapshotMeta) (commit applied : Z)
    : RaftCore Log :=
  MkRaftCore 1 [2; 3] 3 (from_millis 150, from_millis 300) default_hard
    (join ["data"%string] "hard_state") (log_after []).1 es snap role commit applied None 0 ∅ ∅
    (lease_new (from_millis 75)).

Definition demo_entries (terms : list Z) (from : Z) : list LogEntry :=
  imap (λ k t, MkLogEntry t (from + Z.of_nat k) Noop) terms.

Lemma demo_core_wf role terms snap commit applied :
  0 ≤ last_included_index snap → last_included_index snap + zlen terms < u64_max →
  log_wf (demo_core role (demo_entries terms (last_included_index snap + 1)) snap commit applied).
Proof.
  intros H0 Hb. split; simpl; [done| |].
  - intros i e. rw /demo_entries list_lookup_imap fmap_Some. by intros (t & _ & ->).
  - by rw /demo_entries /zlen length_imap.
Qed.

Lemma take_committed_exact_witness :
  let c := demo_core Follower (demo_entries [1; 1; 2] 4) (MkSnapshotMeta 3 1) 6 4 in
  let out := (take_committed c).1 in
  out = demo_entries [1; 2] 5 ∧
  (zlen out = 6 - 4
   ∧ (∀ k e, out !! k = Some e → e_index e = 4 + 1 + Z.of_nat k ∧ entry_at (e_index e) c = Some e)
   ∧ (take_committed c).2 = set_last_applied 6 c
   ∧ take_committed (take_committed c).2 = ([], (take_committed c).2)).
Proof.
  intros c out. split; [vm_compute; reflexivity|]. apply (take_committed_exact c).
  - apply (demo_core_wf Follower [1; 1; 2] (MkSnapshotMeta 3 1) 6 4); evaluate.
  - evaluate.
Defined.

Lemma compact_keeps_suffix_witness :
  let c := demo_core Leader (demo_entries [1; 1; 2] 1) default_meta 3 3 in
  let c' := (compact (MkSnapshotMeta 2 1) (c, (log_after []).2)).2.1 in
  log_wf c' ∧ last_log_index c' = last_log_index c
  ∧ (∀ i, 2 < i ≤ u64_max → entry_at i c' = entry_at i c)
  ∧ term_at 2 c' = Some 1.
Proof.
  intros c c'. set (σ' := (compact (MkSnapshotMeta 2 1) (c, (log_after []).2)).2.2).
  destruct (compact_keeps_suffix (MkSnapshotMeta 2 1) c (log_after []).2 c' σ')
    as (H1 & H2 & H3 & _ & H5).
  - apply (demo_core_wf Leader [1; 1; 2] default_meta 3 3); evaluate.
  - evaluate.
  - evaluate.
  - split_and!; [exact H1|exact H2|exact H3|]. apply H5. evaluate.
Defined.

(** The removal of the first segment file fails. *)
Lemma compact_error_misaligns_witness :
  let c := set_log demo_log (demo_core Leader (demo_entries [1; 1; 1; 2; 2] 1) default_meta 5 5) in
  let run := compact (MkSnapshotMeta 3 1) (c, set_sched [Some 0%nat] demo_disk) in
  run.1 = Err (EIo OtherIo)
  ∧ ∃ x, entry_at 1 run.2.1 = Some x ∧ e_index x = 4.
Proof.
  intros c run. split; [vm_compute; reflexivity|].
  apply (compact_error_misaligns (MkSnapshotMeta 3 1) c (set_sched [Some 0%nat] demo_disk)
    run.2.1 run.2.2 (EIo OtherIo)).
  - destruct (demo_core_wf Leader [1; 1; 1; 2; 2] default_meta 5 5) as [H1 H2 H3]; [evaluate..|by split].
  - evaluate.
  - vm_compute. reflexivity.
Defined.
