(* ===== verification/Election.v ===== *)
(** * Election: role transitions and RequestVote (src/raft/election.rs).

    Besides what each handler decides, this file shows what elections rest on: over any
    run of a node (requests, elections, failed writes, crashes and restarts) it votes for
    at most one candidate per term, so that a cluster elects at most one leader per term. *)

From Corelib Require Import ssreflect.
From stdpp Require Import base gmap strings list sets.
From S2P Require Import Prelude Text Fs AtomicFile Crc WalLog Codec.
From S2P Require Import Config MemTable Snapshot RaftState Wal RaftCore.

Record RequestVoteArgs := MkRequestVoteArgs {
  rv_term : Z; rv_candidate_id : Z; rv_last_log_index : Z; rv_last_log_term : Z }.
Record RequestVoteReply := MkRequestVoteReply { rvr_term : Z; rvr_vote_granted : bool }.

Section election.
Context {L : Type} {wal : Wal L} {bin_hard : Bincode HardState}.
Implicit Types c : RaftCore L.

(** [RaftCore::become_follower]. *)
Definition become_follower (term : Z) (leader : option Z) : M (RaftCore L * fs) unit :=
  let! hard := self rc_hard in
  do! (if current_term hard <? term then
         do! update (λ c, set_hard (MkHardState term (voted_for (rc_hard c))) c) then
         do! update (λ c, set_hard (MkHardState (current_term (rc_hard c)) None) c) then
         persist_hard
       else ret tt) then
  do! update (set_role Follower) then
  do! update (set_leader_id leader) then
  update (λ c, set_lease (lease_invalidate (rc_lease c)) c).

(** [RaftCore::become_candidate]. *)
Definition become_candidate (now draw : Z) : M (RaftCore L * fs) RequestVoteArgs :=
  do! update (set_role Candidate) then
  do! update (λ c, set_hard (MkHardState (u64_add (current_term (rc_hard c)) 1)
                              (voted_for (rc_hard c))) c) then
  do! update (λ c, set_hard (MkHardState (current_term (rc_hard c)) (Some (rc_id c))) c) then
  do! persist_hard then
  do! update (set_leader_id None) then
  do! reset_election_timer now draw then
  self (λ c, MkRequestVoteArgs (current_term (rc_hard c)) (rc_id c) (last_log_index c)
               (last_log_term c)).

(** [RaftCore::become_leader]. *)
Definition become_leader (c : RaftCore L) : RaftCore L :=
  let next := u64_add (last_log_index c) 1 in
  set_match_index (foldl (λ m peer, <[peer := 0]> m) ∅ (rc_peers c))
    (set_next_index (foldl (λ m peer, <[peer := next]> m) ∅ (rc_peers c))
       (set_leader_id (Some (rc_id c)) (set_role Leader c))).

(** [theirs >= ours] on pairs. *)
Definition log_up_to_date (theirs ours : Z * Z) : bool :=
  (ours.1 <? theirs.1) || ((ours.1 =? theirs.1) && (ours.2 <=? theirs.2)).

(** The third step of [handle_request_vote]: the vote, once the terms agree. *)
Definition decide_vote (args : RequestVoteArgs) (now draw : Z)
    : M (RaftCore L * fs) RequestVoteReply :=
  let! ours := self (λ c, (last_log_term c, last_log_index c)) in
  let theirs := (rv_last_log_term args, rv_last_log_index args) in
  let log_ok := log_up_to_date theirs ours in
  let! voted := self (λ c, voted_for (rc_hard c)) in
  let free_to_vote := bool_decide (voted = None) || bool_decide (voted = Some (rv_candidate_id args)) in
  let vote_granted := log_ok && free_to_vote in
  do! (if vote_granted then
         do! update (λ c, set_hard (MkHardState (current_term (rc_hard c))
                                      (Some (rv_candidate_id args))) c) then
         do! persist_hard then
         reset_election_timer now draw
       else ret tt) then
  let! term := self (λ c, current_term (rc_hard c)) in
  ret (MkRequestVoteReply term vote_granted).

(** [RaftCore::handle_request_vote]. *)
Definition handle_request_vote (args : RequestVoteArgs) (now draw : Z)
    : M (RaftCore L * fs) RequestVoteReply :=
  let! term := self (λ c, current_term (rc_hard c)) in
  if rv_term args <? term then ret (MkRequestVoteReply term false)
  else
    do! (if term <? rv_term args then become_follower (rv_term args) None else ret tt) then
    decide_vote args now draw.

(** ** What the handlers do in memory *)

(** A step down that succeeds. *)
Lemma become_follower_run term leader c σ c' σ' :
  become_follower term leader (c, σ) = (Ok tt, (c', σ')) →
  let h := if current_term (rc_hard c) <? term then MkHardState term None else rc_hard c in
  c' = set_lease (lease_invalidate (rc_lease c)) (set_leader_id leader (set_role Follower (set_hard h c))).
Proof.
  rw /become_follower /bind /self /gets /update /modify. cbn [fst].
  destruct (current_term (rc_hard c) <? term).
  - rw /persist_hard. destruct (hard_persist _ _ σ) as [[[]| |] σ1]; by intros [= <- _].
  - rw /ret. intros [= <- _]. by destruct c.
Qed.

Lemma reset_timer_run now draw c σ r c' σ' :
  reset_election_timer now draw (c, σ) = (r, (c', σ')) →
  σ' = σ ∧ ∃ t, c' = set_election_deadline t c.
Proof.
  rw /reset_election_timer /bind /self /gets /lift /gen_range /update /modify. cbn [fst].
  case_zb; intros [= _ <- <-]; (split; [done|]); [by eexists|].
  exists (rc_election_deadline c). by destruct c.
Qed.

(** What a vote depends on: a reply carries the node's term, which only ever moves up to
    the candidate's; the vote is granted exactly if the candidate's term is not behind, its
    log is at least as up to date as the voter's, and the voter has not voted for anyone
    else in that term; and a granted vote is recorded before the reply. *)
Theorem vote_decision args now draw c σ reply c' σ' :
  handle_request_vote args now draw (c, σ) = (Ok reply, (c', σ')) →
  rvr_term reply = current_term (rc_hard c')
  ∧ current_term (rc_hard c') = Z.max (current_term (rc_hard c)) (rv_term args)
  ∧ (rvr_vote_granted reply = true ↔
       current_term (rc_hard c) ≤ rv_term args
       ∧ log_up_to_date (rv_last_log_term args, rv_last_log_index args)
           (last_log_term c, last_log_index c) = true
       ∧ (rv_term args = current_term (rc_hard c) →
            voted_for (rc_hard c) = None ∨ voted_for (rc_hard c) = Some (rv_candidate_id args)))
  ∧ (rvr_vote_granted reply = true → voted_for (rc_hard c') = Some (rv_candidate_id args))
  ∧ rc_entries c' = rc_entries c ∧ rc_commit_index c' = rc_commit_index c.
Proof.
  rw /handle_request_vote {1}/bind /self /gets. cbn [fst].
  destruct (Z.ltb_spec (rv_term args) (current_term (rc_hard c))) as [Hlt|Hge].
  { intros [= <- <- <-]. simpl. split_and!; try done; [lia|]. split; [done|lia]. }
  intros ([] & [c1 σ1] & E1 & E2)%bind_Ok_inv.
  assert (current_term (rc_hard c1) = rv_term args ∧ rc_entries c1 = rc_entries c
    ∧ rc_snapshot c1 = rc_snapshot c ∧ rc_commit_index c1 = rc_commit_index c
    ∧ (voted_for (rc_hard c1) = if rv_term args =? current_term (rc_hard c)
                                then voted_for (rc_hard c) else None)) as (Ht & He & Hs & Hci & Hv).
  { destruct (Z.ltb_spec (current_term (rc_hard c)) (rv_term args)) as [Hlt|Hle].
    - apply become_follower_run in E1 as ->. simpl.
      destruct (Z.ltb_spec (current_term (rc_hard c)) (rv_term args)); [|lia].
      destruct (Z.eqb_spec (rv_term args) (current_term (rc_hard c))); [lia|done].
    - injection E1 as <- <-. destruct (Z.eqb_spec (rv_term args) (current_term (rc_hard c))); [|lia].
      split_and!; done || lia. }
  move: E2. rw /decide_vote {1 2}/bind /self /gets. cbn [fst].
  rw /last_log_term /last_log_index He Hs -/(last_log_term c) -/(last_log_index c).
  set (ok := log_up_to_date _ _). set (free := _ || _).
  assert (free = true ↔ (rv_term args = current_term (rc_hard c) →
    voted_for (rc_hard c) = None ∨ voted_for (rc_hard c) = Some (rv_candidate_id args))) as Hfree.
  { rw /free orb_true_iff !bool_decide_eq_true Hv.
    destruct (Z.eqb_spec (rv_term args) (current_term (rc_hard c))); naive_solver. }
  intros ([] & [c2 σ2] & E2 & E3)%bind_Ok_inv. injection E3 as <- <- <-. cbn [fst rvr_term rvr_vote_granted].
  assert (current_term (rc_hard c2) = current_term (rc_hard c1) ∧ rc_entries c2 = rc_entries c1
    ∧ rc_commit_index c2 = rc_commit_index c1
    ∧ (ok && free = true → voted_for (rc_hard c2) = Some (rv_candidate_id args))) as (Ht2 & He2 & Hci2 & Hv2).
  { destruct (ok && free); [|by injection E2 as <- <-].
    move: E2. rw /update /modify {1 2}/bind /persist_hard.
    destruct (hard_persist _ _ σ1) as [[[]| |] σ3]; [|done..].
    by intros (_ & t & ->)%reset_timer_run. }
  split_and!; [done|rw Ht2 Ht; lia| |exact Hv2|congruence..]. rw andb_true_iff Hfree. naive_solver lia.
Qed.

(** ** What the handlers do to the durable state *)

(** Integers of the Rust types. *)
Definition hard_in_range (h : HardState) : Prop :=
  0 ≤ current_term h ≤ u64_max ∧ ∀ x, voted_for h = Some x → 0 ≤ x ≤ u64_max.

(** [h] remembers all the votes of [G]. *)
Definition covers (G : list (Z * Z)) (h : HardState) : Prop :=
  ∀ t x, (t, x) ∈ G → t < current_term h ∨ (t = current_term h ∧ voted_for h = Some x).

Definition one_per_term (G : list (Z * Z)) : Prop :=
  ∀ t x y, (t, x) ∈ G → (t, y) ∈ G → x = y.

(** [bincode] encodes every hard state of the Rust type. *)
Context (hard_representable : ∀ h, hard_in_range h → representable h).

Record node_inv (p : path) (id : Z) (c : RaftCore L) (σ : fs) (G : list (Z * Z)) : Prop := {
  ni_path : rc_hard_path c = p;
  ni_id : rc_id c = id ∧ 0 ≤ id ≤ u64_max;
  ni_range : hard_in_range (rc_hard c);
  ni_covers : covers G (rc_hard c);
  ni_unique : one_per_term G;
  ni_wf : fs_wf σ;
  ni_alias : unaliased (tmp_path p) p σ;
  ni_disk : hard_views σ p (λ h, covers G h ∧ hard_in_range h)
}.

Lemma node_inv_core p id c c' σ G :
  node_inv p id c σ G → rc_hard c' = rc_hard c → rc_hard_path c' = rc_hard_path c →
  rc_id c' = rc_id c → node_inv p id c' σ G.
Proof. intros [] Eh Ep Ei. split; rw ?Eh ?Ep ?Ei //. Qed.

(** Writing a hard state that remembers every vote. *)
Lemma persist_hard_inv d n id c σ G h :
  let p := join d n in
  node_inv p id c σ G → covers G h → hard_in_range h →
  let '(r, (c', σ')) := persist_hard (set_hard h c, σ) in
  c' = set_hard h c ∧ node_inv p id c' σ' G ∧ r ≠ Panic
  ∧ (r = Ok tt → hard_views σ' p (λ x, x = h)).
Proof.
  intros p [Hp Hid Hr Hc Hu Hwf Hal Hd] Hcov Hrange. rw /persist_hard.
  cbn [rc_hard_path rc_hard set_hard]. rw Hp.
  pose proof (hard_persist_views d n h σ (λ h, covers G h ∧ hard_in_range h) Hwf
    (hard_representable h Hrange) Hal Hd (conj Hcov Hrange)) as Hv. fold p in Hv.
  destruct (hard_persist p h σ) as [r σ']. destruct Hv as (Hwf' & Hal' & Hd' & Hok & Hnp).
  split_and!; [done|by split|done|done].
Qed.

(** Recording a vote for [x] in term [t]. *)
Lemma persist_vote_inv d n id c σ G t x :
  let p := join d n in
  node_inv p id c σ G → current_term (rc_hard c) ≤ t ≤ u64_max → 0 ≤ x ≤ u64_max →
  (t = current_term (rc_hard c) → voted_for (rc_hard c) = None ∨ voted_for (rc_hard c) = Some x) →
  let h := MkHardState t (Some x) in
  let '(r, (c', σ')) := persist_hard (set_hard h c, σ) in
  c' = set_hard h c ∧ node_inv p id c' σ' G ∧ r ≠ Panic
  ∧ (r = Ok tt → node_inv p id c' σ' ((t, x) :: G)).
Proof.
  intros p Hinv Ht Hx Hfree h.
  assert (covers G h) as Hcov.
  { intros t0 y Hy. destruct (ni_covers _ _ _ _ _ Hinv t0 y Hy) as [?|[-> Hv]]; simpl; [lia|].
    destruct (decide (t = current_term (rc_hard c))) as [E|]; [right|left; lia].
    split; [done|]. destruct (Hfree E); congruence. }
  assert (hard_in_range h) as Hrange.
  { destruct (ni_range _ _ _ _ _ Hinv) as [? _]. split; simpl; [lia|]. by intros ? [= <-]. }
  pose proof (persist_hard_inv d n id c σ G h Hinv Hcov Hrange) as Hp. fold p in Hp.
  destruct (persist_hard (set_hard h c, σ)) as [r [c' σ']]. destruct Hp as (-> & Hinv' & Hnp & Hok).
  split_and!; [done..|]. intros Hr. destruct Hinv' as [? ? ? ? Hu ? ? ?]. split; try done.
  - intros t0 y [[= -> ->]|Hy]%elem_of_cons; [by right|by apply Hcov].
  - intros t0 y z [E1|Hy]%elem_of_cons [E2|Hz]%elem_of_cons; simplify_eq; [done| | |by eapply Hu].
    + destruct (Hcov _ _ Hz) as [|[_ E]]; simpl in *; [lia|congruence].
    + destruct (Hcov _ _ Hy) as [|[_ E]]; simpl in *; [lia|congruence].
  - eapply hard_views_impl; [by apply Hok|]. intros ? ->. split; [|done].
    intros t0 y [[= -> ->]|Hy]%elem_of_cons; [by right|by apply Hcov].
Qed.

(** Running the timer does not touch the durable state. *)
Lemma reset_timer_inv p id c σ G now draw :
  node_inv p id c σ G →
  let '(r, (c', σ')) := reset_election_timer now draw (c, σ) in
  node_inv p id c' σ' G ∧ rc_hard c' = rc_hard c.
Proof.
  intros Hinv. rw /reset_election_timer /bind /self /gets /lift /gen_range /update /modify.
  cbn [fst]. case_zb; simpl; (split; [|done]); by eapply node_inv_core.
Qed.

Lemma become_follower_inv d n id c σ G term leader :
  let p := join d n in
  node_inv p id c σ G → term ≤ u64_max →
  let '(r, (c', σ')) := become_follower term leader (c, σ) in
  node_inv p id c' σ' G ∧ r ≠ Panic ∧ rc_entries c' = rc_entries c ∧ rc_snapshot c' = rc_snapshot c
  ∧ rc_hard c' = (if current_term (rc_hard c) <? term then MkHardState term None else rc_hard c).
Proof.
  intros p Hinv Ht. rw /become_follower /bind /self /gets. cbn [fst].
  destruct (Z.ltb_spec (current_term (rc_hard c)) term) as [Hlt|Hge].
  - rw /update /modify.
    assert (covers G (MkHardState term None)) as Hcov.
    { intros t0 y Hy. left. simpl. destruct (ni_covers _ _ _ _ _ Hinv t0 y Hy) as [?|[-> _]]; lia. }
    assert (hard_in_range (MkHardState term None)) as Hrange.
    { destruct (ni_range _ _ _ _ _ Hinv) as [? _]. split; simpl; [lia|done]. }
    pose proof (persist_hard_inv d n id c σ G _ Hinv Hcov Hrange) as Hp. fold p in Hp.
    change (set_hard _ (set_hard _ c)) with (set_hard (MkHardState term None) c).
    destruct (persist_hard _) as [[[]|e|] [c' σ']]; destruct Hp as (-> & Hinv' & Hnp & _).
    + split_and!; try done. by eapply node_inv_core.
    + done.
    + done.
  - rw /ret /update /modify. split_and!; try done. by eapply node_inv_core.
Qed.

(** The vote a handler gives away by returning [r]. *)
Definition vote_given (args : RequestVoteArgs) (r : outcome RequestVoteReply) : list (Z * Z) :=
  match r with
  | Ok reply => if rvr_vote_granted reply then [(rv_term args, rv_candidate_id args)] else []
  | _ => []
  end.
Definition vote_for_self (r : outcome RequestVoteArgs) : list (Z * Z) :=
  match r with Ok args => [(rv_term args, rv_candidate_id args)] | _ => [] end.

Definition args_in_range (args : RequestVoteArgs) : Prop :=
  0 ≤ rv_term args ≤ u64_max ∧ 0 ≤ rv_candidate_id args ≤ u64_max.

Lemma decide_vote_inv d n id c σ G args now draw :
  let p := join d n in
  node_inv p id c σ G → args_in_range args → current_term (rc_hard c) = rv_term args →
  let '(r, (c', σ')) := decide_vote args now draw (c, σ) in
  node_inv p id c' σ' (vote_given args r ++ G).
Proof.
  intros p Hinv [Ht Hx] Heq. rw /decide_vote /bind /self /gets. cbn [fst].
  set (granted := _ && _). destruct granted eqn:Eg; [|by rw /ret].
  apply andb_true_iff in Eg as [_ Hfree]. rw orb_true_iff !bool_decide_eq_true in Hfree.
  rw /update /modify Heq. cbn [rc_hard].
  pose proof (persist_vote_inv d n id c σ G (rv_term args) (rv_candidate_id args) Hinv
    ltac:(lia) Hx (λ _, Hfree)) as Hp. cbn zeta in Hp. fold p in Hp.
  destruct (persist_hard _) as [[[]|e|] [c1 σ1]]; destruct Hp as (-> & Hinv1 & Hnp & Hok); [|done..].
  set (c1 := set_hard _ c) in *.
  pose proof (reset_timer_inv p id c1 σ1 _ now draw (Hok eq_refl)) as Hr.
  pose proof (reset_timer_inv p id c1 σ1 _ now draw Hinv1) as Hr'.
  destruct (reset_election_timer now draw (c1, σ1)) as [[[]|e|] [c2 σ2]];
    destruct Hr as [Hr _], Hr' as [Hr' _]; done.
Qed.

Lemma handle_request_vote_inv d n id c σ G args now draw :
  let p := join d n in
  node_inv p id c σ G → args_in_range args →
  let '(r, (c', σ')) := handle_request_vote args now draw (c, σ) in
  node_inv p id c' σ' (vote_given args r ++ G).
Proof.
  intros p Hinv Hargs. rw /handle_request_vote {1}/bind /self /gets.
  cbn [fst]. destruct (Z.ltb_spec (rv_term args) (current_term (rc_hard c))) as [Hlt|Hge]; [done|].
  rw {1}/bind. destruct (Z.ltb_spec (current_term (rc_hard c)) (rv_term args)) as [Hlt|Hle].
  - pose proof (become_follower_inv d n id c σ G (rv_term args) None Hinv ltac:(apply Hargs)) as Hf.
    fold p in Hf. destruct (become_follower _ None (c, σ)) as [[[]|e|] [c1 σ1]];
      destruct Hf as (Hinv1 & _ & _ & _ & Hh); [|done..].
    apply (decide_vote_inv d n); try done. rw Hh. by destruct (Z.ltb_spec (current_term (rc_hard c)) (rv_term args)); [|lia].
  - apply (decide_vote_inv d n); try done. lia.
Qed.

Lemma become_candidate_inv d n id c σ G now draw :
  let p := join d n in
  node_inv p id c σ G → current_term (rc_hard c) < u64_max →
  let '(r, (c', σ')) := become_candidate now draw (c, σ) in
  node_inv p id c' σ' (vote_for_self r ++ G).
Proof.
  intros p Hinv Hmax. destruct (ni_range _ _ _ _ _ Hinv) as [Hr _].
  destruct (ni_id _ _ _ _ _ Hinv) as [Hid Hidr].
  rw /become_candidate /bind /update /modify. cbn [rc_hard set_role current_term].
  rw u64_add_small; [lia|].
  assert (node_inv p id (set_role Candidate c) σ G) as Hinv0 by (by eapply node_inv_core).
  pose proof (persist_vote_inv d n id _ σ G (current_term (rc_hard c) + 1) (rc_id c) Hinv0
    ltac:(simpl; lia) ltac:(by rw Hid) ltac:(simpl; lia)) as Hp. cbn zeta in Hp. fold p in Hp.
  change (set_hard (MkHardState _ (Some (rc_id _))) (set_hard _ (set_role Candidate c))) with
    (set_hard (MkHardState (current_term (rc_hard c) + 1) (Some (rc_id c))) (set_role Candidate c)).
  destruct (persist_hard _) as [[[]|e|] [c1 σ1]]; destruct Hp as (-> & Hinv1 & Hnp & Hok); [|done..].
  set (c2 := set_leader_id None _).
  assert (node_inv p id c2 σ1 ((current_term (rc_hard c) + 1, rc_id c) :: G)) as Hok2.
  { eapply node_inv_core; [by apply Hok|done..]. }
  assert (node_inv p id c2 σ1 G) as Hinv2 by (by eapply node_inv_core).
  pose proof (reset_timer_inv p id c2 σ1 _ now draw Hok2) as Hr1.
  pose proof (reset_timer_inv p id c2 σ1 _ now draw Hinv2) as Hr2.
  destruct (reset_election_timer now draw _) as [[[]|e|] [c3 σ3]];
    destruct Hr1 as [Hr1 Hh], Hr2 as [Hr2 _]; [|done..].
  rw /self /gets. cbn [fst vote_for_self app rv_term rv_candidate_id].
  assert (rc_id c3 = rc_id c) as Ei by (rw Hid; apply (ni_id _ _ _ _ _ Hr1)).
  rw Hh Ei. exact Hr1.
Qed.

(** ** Runs of a node *)

(** Other work of the node leaves the hard state file alone. *)
Record hard_untouched (p : path) (σ σ' : fs) : Prop := {
  hu_names q : q = p ∨ q = tmp_path p →
    fs_names σ' !! q = fs_names σ !! q ∧ fs_dnames σ' !! q = fs_dnames σ !! q;
  hu_inodes fd : view_fd σ p fd → fs_inodes σ' !! fd = fs_inodes σ !! fd;
  hu_wf : fs_wf σ'
}.

(** One step, with the votes it gives away: a RequestVote from a peer, an election of its
    own, a step down, anything that leaves the hard state alone, or a crash and a restart
    that reloads it.  After a crash a renamed file does not keep its old name. *)
Inductive node_step (p : path) : RaftCore L * fs → list (Z * Z) → RaftCore L * fs → Prop :=
| step_request_vote c σ args now draw r s' :
    args_in_range args → handle_request_vote args now draw (c, σ) = (r, s') →
    node_step p (c, σ) (vote_given args r) s'
| step_candidate c σ now draw r s' :
    current_term (rc_hard c) < u64_max → become_candidate now draw (c, σ) = (r, s') →
    node_step p (c, σ) (vote_for_self r) s'
| step_follower c σ term leader r s' :
    term ≤ u64_max → become_follower term leader (c, σ) = (r, s') →
    node_step p (c, σ) [] s'
| step_other c σ c' σ' :
    rc_hard c' = rc_hard c → rc_hard_path c' = rc_hard_path c → rc_id c' = rc_id c →
    hard_untouched p σ σ' → node_step p (c, σ) [] (c', σ')
| step_crash c σ σc hs c' :
    crash σ σc → fs_wf σc → unaliased (tmp_path p) p σc → hard_load p σc = (Ok hs, σc) →
    rc_hard c' = hs → rc_hard_path c' = rc_hard_path c → rc_id c' = rc_id c →
    node_step p (c, σ) [] (c', σc).

(** A run and all the votes given away on it. *)
Inductive node_run (p : path) : RaftCore L * fs → list (Z * Z) → RaftCore L * fs → Prop :=
| run_nil s : node_run p s [] s
| run_step s1 G s2 V s3 : node_run p s1 G s2 → node_step p s2 V s3 → node_run p s1 (V ++ G) s3.

Lemma node_step_inv d n id s G V s' :
  let p := join d n in
  node_step p s V s' → node_inv p id s.1 s.2 G → node_inv p id s'.1 s'.2 (V ++ G).
Proof.
  intros p Hstep Hinv.
  destruct Hstep as [c σ args now draw r s' Ha E|c σ now draw r s' Hm E|c σ term leader r s' Hm E
    |c σ c' σ' Eh Ep Ei [Hn Hi Hwf]|c σ σc hs c' Hcr Hwf Hal E Eh Ep Ei]; simpl in Hinv |- *.
  - pose proof (handle_request_vote_inv d n id c σ G args now draw Hinv Ha) as Hx. rw E in Hx.
    by destruct s'.
  - pose proof (become_candidate_inv d n id c σ G now draw Hinv Hm) as Hx. rw E in Hx. by destruct s'.
  - pose proof (become_follower_inv d n id c σ G term leader Hinv Hm) as Hx. rw E in Hx.
    destruct s'. by destruct Hx.
  - eapply node_inv_core; [|done..]. destruct Hinv as [? ? ? ? ? _ Hal [Hnone Hsome]].
    destruct (Hn p (or_introl eq_refl)) as [En1 En2].
    destruct (Hn (tmp_path p) (or_intror eq_refl)) as [Et1 _].
    assert (∀ fd, view_fd σ' p fd ↔ view_fd σ p fd) as Hv by (intros fd; by rw /view_fd En1 En2).
    split; try done.
    + intros fd. rw Et1 Hv. apply Hal.
    + split; [by rw En1 En2|]. intros fd Hfd%Hv. rw /file_durable /file_data Hi //. by apply Hsome.
  - destruct Hinv as [? [Hid Hidr] ? ? ? _ _ Hd]. pose proof (views_ok_crash _ _ _ _ Hcr Hd) as Hd'.
    destruct (hard_load_views σc p _ (crash_sched _ _ Hcr) Hd') as (h & E' & Hcov & Hrange).
    rw E' in E. simplify_eq. split; try congruence; done.
Qed.

Lemma node_run_inv d n id s G s' :
  let p := join d n in
  node_run p s G s' → node_inv p id s.1 s.2 [] → node_inv p id s'.1 s'.2 G.
Proof.
  intros p Hrun Hinv. induction Hrun as [|s1 G s2 V s3 _ IH Hs]; [done|].
  by eapply node_step_inv; [|apply IH].
Qed.

(** One vote per term: over any run of a node, across failed writes, crashes and
    restarts, all the votes it gives away in a term (its own candidacies included) go to the
    same candidate. *)
Theorem one_vote_per_term d n id s G s' t x y :
  let p := join d n in
  node_inv p id s.1 s.2 [] → node_run p s G s' → (t, x) ∈ G → (t, y) ∈ G → x = y.
Proof.
  intros p Hinv Hrun. apply (ni_unique _ _ _ _ _ (node_run_inv d n id s G s' Hrun Hinv)).
Qed.

(** ** Elections in a cluster *)

(** The votes each node gave away on its run so far. *)
Definition cluster_votes {A} (cfg : Config A) (votes : Z → list (Z * Z)) : Prop :=
  ∀ i, i ∈ members cfg → ∃ d n s s', node_inv (join d n) i s.1 s.2 [] ∧ node_run (join d n) s (votes i) s'.

(** [x] has the votes of a majority in term [t]. *)
Definition elected {A} (cfg : Config A) (votes : Z → list (Z * Z)) (t x : Z) : Prop :=
  ∃ q, NoDup q ∧ q ⊆ members cfg ∧ quorum cfg ≤ zlen q ∧ ∀ i, i ∈ q → (t, x) ∈ votes i.

(** However the nodes of a cluster run, fail and restart, at most one candidate collects the
    votes of a majority in a term. *)
Lemma elected_unique {A} (cfg : Config A) votes t x y :
  cluster_votes cfg votes → elected cfg votes t x → elected cfg votes t y → x = y.
Proof.
  intros Hc (q1 & N1 & S1 & L1 & V1) (q2 & N2 & S2 & L2 & V2).
  destruct (quorum_intersect cfg q1 q2 N1 N2 S1 S2 L1 L2) as (i & H1 & H2).
  destruct (Hc i (S1 i H1)) as (d & n & s & s' & Hinv & Hrun).
  exact (ni_unique _ _ _ _ _ (node_run_inv d n i s _ s' Hrun Hinv) t x y (V1 i H1) (V2 i H2)).
Qed.

End election.

(** ** Witnesses *)

#[local] Existing Instance crc32fast.
#[local] Existing Instance bincode_codec.

Lemma codec_representable h : hard_in_range h → representable h.
Proof.
  destruct h as [t v]. intros [Ht Hv]. split; [exact Ht|].
  destruct v as [x|]; [|exact I]. by apply Hv.
Qed.

Lemma vote_decision_witness :
  let c := demo_core Follower (demo_entries [1; 1] 1) default_meta 0 0 in
  let run := handle_request_vote (MkRequestVoteArgs 2 3 2 1) 0 0 (c, empty_fs) in
  run.1 = Ok (MkRequestVoteReply 2 true)
  ∧ current_term (rc_hard run.2.1) = 2 ∧ voted_for (rc_hard run.2.1) = Some 3.
Proof.
  intros c run. assert (run = (Ok (MkRequestVoteReply 2 true), (run.2.1, run.2.2))) as E
    by (vm_compute; reflexivity).
  destruct (vote_decision (MkRequestVoteArgs 2 3 2 1) 0 0 c empty_fs
    (MkRequestVoteReply 2 true) run.2.1 run.2.2 E) as (H1 & H2 & _ & H4 & _).
  split_and!; [vm_compute; reflexivity|exact H2|by apply H4].
Defined.

(** Node [id] on an empty disk. *)
Definition demo_node (id : Z) : RaftCore Log :=
  MkRaftCore id (filter (λ p, p ≠ id) [1; 2; 3]) 3 (from_millis 150, from_millis 300) default_hard
    (join ["data"%string] "hard_state") (log_after []).1 [] default_meta Follower 0 0 None 0 ∅ ∅
    (lease_new (from_millis 75)).
Definition demo_hard_path : path := join ["data"%string] "hard_state".

Lemma demo_node_inv id :
  0 ≤ id ≤ u64_max → node_inv demo_hard_path id (demo_node id) empty_fs [].
Proof.
  intros Hid. split; try done.
  - by intros t x ?%elem_of_nil.
  - by intros t x y ?%elem_of_nil.
  - apply fs_wf_check; evaluate.
  - split; simpl.
    + intros _. split; [by intros t x ?%elem_of_nil|]. split; [evaluate|done].
    + by intros fd [Hn|Hn]; rw lookup_empty in Hn.
Qed.

(** Node 2 votes for node 1, crashes, restarts, and is asked again. *)
Definition ask : RequestVoteArgs := MkRequestVoteArgs 1 1 0 0.
Lemma ask_in_range : args_in_range ask.
Proof. by split. Qed.
Definition voted_once := handle_request_vote ask 0 0 (demo_node 2, empty_fs).
Definition restarted : RaftCore Log :=
  set_hard (MkHardState 1 (Some 1)) (demo_node 2).
Definition voted_twice := handle_request_vote ask 0 0 (restarted, power_loss voted_once.2.2).

Lemma demo_run :
  node_run demo_hard_path (demo_node 2, empty_fs) [(1, 1); (1, 1)] voted_twice.2.
Proof.
  apply (run_step _ _ [(1, 1)] (restarted, power_loss voted_once.2.2) [(1, 1)] voted_twice.2).
  - apply (run_step _ _ [(1, 1)] (voted_once.2.1, voted_once.2.2) []
             (restarted, power_loss voted_once.2.2)).
    + apply (run_step _ _ [] (demo_node 2, empty_fs) [(1, 1)]); [constructor|].
      apply (step_request_vote _ (demo_node 2) empty_fs ask 0 0 (Ok (MkRequestVoteReply 1 true)));
        [apply ask_in_range|]. vm_compute. reflexivity.
    + apply (step_crash _ voted_once.2.1 voted_once.2.2 _ (MkHardState 1 (Some 1))).
      * exact (power_loss_crash voted_once.2.2).
      * apply fs_wf_check; evaluate.
      * intros fd E. exfalso. vm_compute in E. discriminate.
      * vm_compute. reflexivity.
      * done.
      * vm_compute. reflexivity.
      * vm_compute. reflexivity.
  - apply (step_request_vote _ restarted (power_loss voted_once.2.2) ask 0 0
      (Ok (MkRequestVoteReply 1 true))); [apply ask_in_range|]. vm_compute. reflexivity.
Qed.

Lemma one_vote_per_term_witness : (1, 1) ∈ [(1, 1); (1, 1)] ∧ 1 = 1.
Proof.
  split; [set_solver|].
  apply (one_vote_per_term codec_representable ["data"%string] "hard_state" 2
    (demo_node 2, empty_fs) [(1, 1); (1, 1)] voted_twice.2 1).
  - apply demo_node_inv. evaluate.
  - apply demo_run.
  - set_solver.
  - set_solver.
Defined.

(** Node 1 is elected by itself and node 2. *)
Definition demo_cluster : Config unit :=
  with_peers [MkPeer 2 "b:1"; MkPeer 3 "c:1"] (config_new 1 tt ["data"%string]).
Definition demo_votes (i : Z) : list (Z * Z) := if i =? 3 then [] else [(1, 1)].

Lemma demo_cluster_votes : cluster_votes (L := Log) demo_cluster demo_votes.
Proof.
  intros i Hi. exists ["data"%string], "hard_state"%string, (demo_node i, empty_fs).
  assert (i = 1 ∨ i = 2 ∨ i = 3) as Hcase by (move: Hi; rw /members /=; set_solver).
  destruct Hcase as [-> | [-> | ->]].
  - exists (become_candidate 0 0 (demo_node 1, empty_fs)).2. split; [by apply demo_node_inv|].
    apply (run_step _ _ [] (demo_node 1, empty_fs) [(1, 1)]); [constructor|].
    apply (step_candidate _ (demo_node 1) empty_fs 0 0 (Ok (MkRequestVoteArgs 1 1 0 0)));
      [evaluate|]. vm_compute. reflexivity.
  - exists voted_once.2. split; [by apply demo_node_inv|].
    apply (run_step _ _ [] (demo_node 2, empty_fs) [(1, 1)]); [constructor|].
    apply (step_request_vote _ (demo_node 2) empty_fs ask 0 0 (Ok (MkRequestVoteReply 1 true)));
      [apply ask_in_range|]. vm_compute. reflexivity.
  - exists (demo_node 3, empty_fs). split; [by apply demo_node_inv|]. constructor.
Qed.
