(* ===== verification/Replication.v ===== *)
(** * Replication: both sides of AppendEntries and the commit rule (src/raft/replication.rs). *)

From Corelib Require Import ssreflect.
From stdpp Require Import base gmap strings list sorting.
From S2P Require Import Prelude Text Fs AtomicFile Crc WalLog Codec Config.
From S2P Require Import MemTable Snapshot RaftState Wal RaftCore Election.

Record AppendEntriesArgs := MkAppendEntriesArgs {
  ae_term : Z; ae_leader_id : Z; ae_prev_log_index : Z; ae_prev_log_term : Z;
  ae_entries : list LogEntry; ae_leader_commit : Z }.
Record AppendEntriesReply := MkAppendEntriesReply {
  aer_term : Z; aer_success : bool; aer_conflict_index : Z }.

Section replication.
Context {L : Type} {wal : Wal L} {bin_hard : Bincode HardState} {bin_entry : Bincode LogEntry}.
Implicit Types c : RaftCore L.

(** [RaftCore::build_append_entries]. *)
Definition build_append_entries (peer : Z) c : AppendEntriesArgs :=
  let next := default (u64_add (last_log_index c) 1) (rc_next_index c !! peer) in
  let prev_log_index := saturating_sub next 1 in
  let prev_log_term := default (last_included_term (rc_snapshot c)) (term_at prev_log_index c) in
  MkAppendEntriesArgs (current_term (rc_hard c)) (rc_id c) prev_log_index prev_log_term
    (entries_from next c) (rc_commit_index c).

(** [RaftCore::reject]. *)
Definition reject (conflict_index : Z) c : AppendEntriesReply :=
  MkAppendEntriesReply (current_term (rc_hard c)) false conflict_index.

(** [RaftCore::truncate_from]. *)
Definition truncate_from (index : Z) : M (RaftCore L * fs) unit :=
  do! update (λ c, set_entries (filter (λ e, e_index e < index) (rc_entries c)) c) then
  on_log (wal_truncate_suffix (saturating_sub index 1)).

(** [RaftCore::append_replicated]. *)
Definition append_replicated (entry : LogEntry) : M (RaftCore L * fs) unit :=
  let! bytes := lift (bincode_serialize entry) in
  let! wal_index := on_log (wal_append bytes) in
  update (λ c, set_entries (rc_entries c ++ [entry]) c).

(** The body of the loop of [handle_append_entries], and the loop. *)
Definition splice_entry (entry : LogEntry) : M (RaftCore L * fs) unit :=
  let! base := self base_index in
  if e_index entry <? base then ret tt
  else
    let! known := self (term_at (e_index entry)) in
    match known with
    | Some t =>
        if t =? e_term entry then ret tt
        else do! truncate_from (e_index entry) then append_replicated entry
    | None => append_replicated entry
    end.
Definition splice (entries : list LogEntry) : M (RaftCore L * fs) unit :=
  for_each splice_entry entries.

(** The log-matching check of [handle_append_entries]: the hint of a rejection, or [None]
    to go on. *)
Definition matching_conflict (args : AppendEntriesArgs) c : option Z :=
  if last_log_index c <? ae_prev_log_index args then Some (u64_add (last_log_index c) 1)
  else match term_at (ae_prev_log_index args) c with
       | Some local_term =>
           if local_term =? ae_prev_log_term args then None else Some (ae_prev_log_index args)
       | None => None
       end.

(** [RaftCore::handle_append_entries]. *)
Definition handle_append_entries (args : AppendEntriesArgs) (now draw : Z)
    : M (RaftCore L * fs) AppendEntriesReply :=
  let! term := self (λ c, current_term (rc_hard c)) in
  if ae_term args <? term then self (reject 0)
  else
    do! (if term <? ae_term args then become_follower (ae_term args) (Some (ae_leader_id args))
         else do! update (set_role Follower) then
              update (set_leader_id (Some (ae_leader_id args)))) then
    do! reset_election_timer now draw then
    let! conflict := self (matching_conflict args) in
    match conflict with
    | Some hint => self (reject hint)
    | None =>
        do! splice (ae_entries args) then
        do! core_sync then
        do! update (λ c, if rc_commit_index c <? ae_leader_commit args
                         then set_commit_index (Z.min (ae_leader_commit args) (last_log_index c)) c
                         else c) then
        self (λ c, MkAppendEntriesReply (current_term (rc_hard c)) true 0)
    end.

(** [RaftCore::advance_commit_index]. *)
Definition match_indices c : list Z :=
  ((λ p, default 0 (rc_match_index c !! p)) <$> rc_peers c) ++ [last_log_index c].
Definition advance_commit_index : M (RaftCore L * fs) unit :=
  let! matches := self (λ c, merge_sort Z.ge (match_indices c)) in
  let! quorum := self core_quorum in
  let! candidate := unwrap (zget matches (u64_sub quorum 1)) in
  update (λ c, if (rc_commit_index c <? candidate)
                  && bool_decide (term_at candidate c = Some (current_term (rc_hard c)))
               then set_commit_index candidate c else c).

(** [RaftCore::on_append_entries_reply]. *)
Definition on_append_entries_reply (peer last_sent : Z) (reply : AppendEntriesReply)
    : M (RaftCore L * fs) unit :=
  let! role := self rc_role in
  if negb (bool_decide (role = Leader)) then ret tt
  else if aer_success reply then
    do! update (λ c, set_match_index (<[peer := last_sent]> (rc_match_index c)) c) then
    do! update (λ c, set_next_index (<[peer := u64_add last_sent 1]> (rc_next_index c)) c) then
    advance_commit_index
  else
    update (λ c,
      let current := default 1 (rc_next_index c !! peer) in
      let hint := if 0 <? aer_conflict_index reply then aer_conflict_index reply
                  else saturating_sub current 1 in
      let backed_off := Z.max (Z.min hint (saturating_sub current 1)) 1 in
      set_next_index (<[peer := backed_off]> (rc_next_index c)) c).

(** ** The commit rule *)

(** How many of the match indices have reached [v]. *)
Definition reached (v : Z) (l : list Z) : nat := length (filter (λ m, v ≤ m) l).

Lemma reached_app v l1 l2 : reached v (l1 ++ l2) = (reached v l1 + reached v l2)%nat.
Proof. by rw /reached filter_app length_app. Qed.

Lemma reached_all v l : Forall (λ m, v ≤ m) l → reached v l = length l.
Proof.
  rw /reached. induction 1 as [|m l Hm _ IH]; [done|]. rw filter_cons decide_True //=. by rw IH.
Qed.
Lemma reached_none v l : Forall (λ m, m < v) l → reached v l = 0%nat.
Proof.
  rw /reached. induction 1 as [|m l Hm _ IH]; [done|]. rw filter_cons decide_False //. lia.
Qed.

Lemma StronglySorted_lookup {A} (R : relation A) l i j x y :
  StronglySorted R l → (i < j)%nat → l !! i = Some x → l !! j = Some y → R x y.
Proof.
  intros Hs. revert i j. induction Hs as [|a l Hs IH Ha]; intros [|i] [|j] Hij Hi Hj; simplify_eq/=; try lia.
  - by eapply Forall_lookup_1 in Ha.
  - eapply (IH i j); [lia|done..].
Qed.

(** In a descending list, the element at position [k] is the largest value that [k + 1]
    elements reach. *)
Lemma descending_reached l k x :
  StronglySorted Z.ge l → l !! k = Some x →
  (k < reached x l)%nat ∧ ∀ v, (k < reached v l)%nat → v ≤ x.
Proof.
  intros Hs Hk. pose proof (lookup_lt_Some _ _ _ Hk) as Hlt.
  assert (Forall (λ m, x ≤ m) (take (S k) l) ∧ Forall (λ m, m ≤ x) (drop k l)) as [Hge Hle].
  { split; apply Forall_lookup; intros i m Hm.
    - apply lookup_take_Some in Hm as [Hm Hi]. destruct (decide (i = k)) as [->|]; [by simplify_eq|].
      apply Z.ge_le. eapply (StronglySorted_lookup Z.ge l i k); [done|lia|done..].
    - rw lookup_drop in Hm. destruct i as [|i]; [rw Nat.add_0_r in Hm; by simplify_eq|].
      apply Z.ge_le. eapply (StronglySorted_lookup Z.ge l k (k + S i)); [done|lia|done..]. }
  split.
  - rw -{1}(take_drop (S k) l) reached_app reached_all // length_take. lia.
  - intros v Hv. destruct (decide (v ≤ x)) as [|Hgt]; [done|exfalso].
    rw -{1}(take_drop k l) reached_app (reached_none v (drop k l)) in Hv.
    { eapply Forall_impl; [exact Hle|]. simpl. lia. }
    rw /reached in Hv. pose proof (length_filter (λ m, v ≤ m) (take k l)) as Hx.
    rw length_take in Hx. lia.
Qed.

Lemma advance_commit_run c σ :
  rc_cluster_size c = zlen (rc_peers c) + 1 → rc_cluster_size c ≤ u64_max →
  ∃ candidate c', advance_commit_index (c, σ) = (Ok tt, (c', σ))
    ∧ core_quorum c ≤ Z.of_nat (reached candidate (match_indices c))
    ∧ (∀ v, core_quorum c ≤ Z.of_nat (reached v (match_indices c)) → v ≤ candidate)
    ∧ c' = set_commit_index (rc_commit_index c') c
    ∧ rc_commit_index c' =
        (if decide (rc_commit_index c < candidate
                    ∧ term_at candidate c = Some (current_term (rc_hard c)))
         then candidate else rc_commit_index c).
Proof.
  intros Hn Hmax. pose proof (zlen_nonneg (rc_peers c)).
  assert (1 ≤ core_quorum c ≤ rc_cluster_size c) as Hq.
  { rw /core_quorum. pose proof (Z.div_mod (rc_cluster_size c) 2 ltac:(lia)).
    pose proof (Z.mod_pos_bound (rc_cluster_size c) 2 ltac:(lia)). lia. }
  set (ms := merge_sort Z.ge (match_indices c)).
  assert (ms ≡ₚ match_indices c) as Hperm by apply merge_sort_Permutation.
  assert (StronglySorted Z.ge ms) as Hs.
  { apply StronglySorted_merge_sort; [intros x y z; lia|intros x y; lia]. }
  assert (∀ v, reached v ms = reached v (match_indices c)) as Hr.
  { intros v. by rw /reached Hperm. }
  destruct (lookup_lt_is_Some_2 ms (Z.to_nat (core_quorum c - 1))) as [cand Hc].
  { rw Hperm /match_indices length_app length_fmap /=. rw /zlen in Hn. lia. }
  destruct (descending_reached ms _ cand Hs Hc) as [H1 H2].
  exists cand. rw /advance_commit_index /bind /self /gets. cbn [fst]. rw -/ms.
  rw u64_sub_small; [lia|]. rw zget_Some; [lia|]. rw Hc /= /update /modify.
  eexists. split; [done|]. rw -Hr. split_and!; [lia| | |].
  - intros v. rw -Hr. intros Hv. apply H2. lia.
  - destruct (_ && _); [done|by destruct c].
  - case_decide as Hd.
    + destruct Hd as [Hlt Ht]. rw bool_decide_eq_true_2 //. by destruct (Z.ltb_spec (rc_commit_index c) cand); [|lia].
    + destruct (Z.ltb_spec (rc_commit_index c) cand) as [Hlt|]; [|done]. simpl.
      case_bool_decide; [|done]. by destruct Hd.
Qed.

(** The commit rule: the commit index never moves back; when it moves, a majority of the
    cluster (the leader's own log included) holds every entry up to it and the entry there
    is of the leader's current term; and the index considered is the largest that a
    majority has reached. *)
Theorem commit_rule c σ :
  rc_cluster_size c = zlen (rc_peers c) + 1 → rc_cluster_size c ≤ u64_max →
  ∃ candidate c', advance_commit_index (c, σ) = (Ok tt, (c', σ))
    ∧ core_quorum c ≤ Z.of_nat (reached candidate (match_indices c))
    ∧ (∀ v, core_quorum c ≤ Z.of_nat (reached v (match_indices c)) → v ≤ candidate)
    ∧ c' = set_commit_index (rc_commit_index c') c
    ∧ rc_commit_index c' =
        (if decide (rc_commit_index c < candidate
                    ∧ term_at candidate c = Some (current_term (rc_hard c)))
         then candidate else rc_commit_index c).
Proof. apply advance_commit_run. Qed.

(** ** Backing off *)

(** A rejection always makes progress: the leader's next index for that peer moves
    strictly down until it is 1, never below 1, and never above the follower's hint, so a
    matching point is reached after finitely many rejections. *)
Theorem backoff_progress peer last_sent reply c σ :
  rc_role c = Leader → aer_success reply = false →
  let current := default 1 (rc_next_index c !! peer) in
  1 ≤ current →
  ∃ next', on_append_entries_reply peer last_sent reply (c, σ) =
      (Ok tt, (set_next_index (<[peer := next']> (rc_next_index c)) c, σ))
    ∧ 1 ≤ next' ∧ (1 < current → next' < current) ∧ (current = 1 → next' = 1)
    ∧ (0 < aer_conflict_index reply → next' ≤ aer_conflict_index reply).
Proof.
  intros Hl Hr current Hc. rw /on_append_entries_reply /bind /self /gets. cbn [fst]. rw Hl Hr /=.
  rw /update /modify. eexists. split; [done|]. rw -/current /saturating_sub.
  destruct (Z.ltb_spec 0 (aer_conflict_index reply)); lia.
Qed.

(** ** What a leader sends *)

Lemma entries_from_wf from c :
  log_wf c → snap_index c < from ≤ u64_max →
  entries_from from c = drop (pos c from) (rc_entries c).
Proof.
  intros Hw Hf. pose proof (lw_base _ Hw). rw /entries_from base_index_wf //.
  destruct (Z.ltb_spec from (snap_index c + 1)); [lia|]. rw u64_sub_small; [lia|].
  rw /zget_from /pos. replace (from - (snap_index c + 1)) with (from - snap_index c - 1) by lia.
  destruct (Z.leb_spec 0 (from - snap_index c - 1)); [|lia]. simpl.
  destruct (Z.leb_spec (from - snap_index c - 1) (zlen (rc_entries c))) as [|Hgt]; [done|].
  rw /= drop_ge //. rw /zlen in Hgt. lia.
Qed.

(** The message to a peer whose next index the leader still has: the entries are numbered
    consecutively from [prev_log_index + 1] to the end of the leader's log, the previous
    term is the one in the leader's log, and the commit index lies within what is sent. *)
Theorem build_append_entries_contiguous peer c :
  log_wf c → rc_commit_index c ≤ last_log_index c →
  let next := default (u64_add (last_log_index c) 1) (rc_next_index c !! peer) in
  snap_index c < next ≤ last_log_index c + 1 →
  let args := build_append_entries peer c in
  (∀ k e, ae_entries args !! k = Some e → e_index e = ae_prev_log_index args + 1 + Z.of_nat k)
  ∧ ae_prev_log_index args + zlen (ae_entries args) = last_log_index c
  ∧ term_at (ae_prev_log_index args) c = Some (ae_prev_log_term args)
  ∧ ae_leader_commit args ≤ ae_prev_log_index args + zlen (ae_entries args).
Proof.
  intros Hw Hci next Hn args. pose proof (lw_base _ Hw). pose proof (lw_bound _ Hw).
  pose proof (last_log_index_wf _ Hw) as Hl.
  assert (ae_prev_log_index args = next - 1) as Ep.
  { rw /args /build_append_entries /= -/next /saturating_sub. lia. }
  assert (ae_entries args = drop (pos c next) (rc_entries c)) as Ee.
  { rw /args /build_append_entries /= -/next. apply entries_from_wf; [done|lia]. }
  assert (ae_prev_log_index args + zlen (ae_entries args) = last_log_index c) as Hend.
  { rw Ep Ee /zlen length_drop /pos. unfold zlen in *. lia. }
  split_and!; [|done| |rw Hend; exact Hci].
  - rw Ep Ee. intros k e. rw lookup_drop. intros ->%(lw_entries _ Hw). rw /pos. lia.
  - assert (is_Some (term_at (ae_prev_log_index args) c)) as [t Ht].
    { rw Ep. destruct (decide (next - 1 = snap_index c)) as [->|]; [rw term_at_snapshot; eauto|].
      rw term_at_entry //; [lia|]. apply fmap_is_Some, entry_at_is_Some; [done|lia]. }
    rw Ht. f_equal. rw /args /build_append_entries /= -/next in Ht |- *. by rw Ht.
Qed.

(** A peer that needs compacted entries is sent a message with a hole: the entries start
    at the first index in memory, not at [prev_log_index + 1]. *)
Theorem build_append_entries_gap peer c next e es :
  log_wf c → rc_next_index c !! peer = Some next → 1 ≤ next ≤ snap_index c →
  rc_entries c = e :: es →
  let args := build_append_entries peer c in
  head (ae_entries args) = Some e ∧ ae_prev_log_index args + 1 < e_index e.
Proof.
  intros Hw Hn Hlt He args. pose proof (lw_entries _ Hw 0 e ltac:(by rw He)) as Hi.
  rw /args /build_append_entries Hn /=. rw /entries_from base_index_wf //.
  destruct (Z.ltb_spec next (snap_index c + 1)); [|lia]. rw He. split; [done|].
  rw /saturating_sub. lia.
Qed.

(** ** What a follower does to its log *)

(** Only the log, in memory and on disk, has changed. *)
Definition log_only c c' : Prop := ∃ l es, c' = set_log l (set_entries es c).

Lemma log_only_refl c : log_only c c.
Proof. exists (rc_log c), (rc_entries c). by destruct c. Qed.
Lemma log_only_trans c1 c2 c3 : log_only c1 c2 → log_only c2 c3 → log_only c1 c3.
Proof. intros (l & es & ->) (l' & es' & ->). by exists l', es'. Qed.

Lemma append_replicated_run e c σ c' σ' :
  append_replicated e (c, σ) = (Ok tt, (c', σ')) → ∃ l, c' = set_log l (pushed e c).
Proof.
  rw /append_replicated /bind /lift /on_log. destruct (bincode_serialize e) as [bs| |]; [|done..].
  destruct (wal_append bs (rc_log c, σ)) as [[i| |] [l σ1]]; [|done..]. intros [= <- _]. by exists l.
Qed.

Lemma truncate_from_run i c σ c' σ' :
  log_wf c → truncate_from i (c, σ) = (Ok tt, (c', σ')) →
  ∃ l, c' = set_log l (set_entries (take (pos c i) (rc_entries c)) c).
Proof.
  intros Hw. rw /truncate_from /bind /update /modify /on_log. cbn [rc_log set_entries].
  rw (filter_below _ (snap_index c)); [apply Hw|]. rw /pos.
  replace (i - snap_index c - 1) with (i - snap_index c - 1) by done.
  destruct (wal_truncate_suffix _ (rc_log c, σ)) as [[[]| |] [l σ1]]; [|done..].
  intros [= <- _]. by exists l.
Qed.

Lemma log_wf_entries es l c :
  log_wf (set_entries es c) → log_wf (set_log l (set_entries es c)).
Proof. by intros [? ? ?]. Qed.

(** The log cut before [i], with [e] at [i]. *)
Lemma overwrite_wf c e :
  log_wf c → snap_index c < e_index e ≤ last_log_index c + 1 → e_index e < u64_max →
  let es := take (pos c (e_index e)) (rc_entries c) ++ [e] in
  log_wf (set_entries es c) ∧ last_log_index (set_entries es c) = e_index e
  ∧ (∀ i, i < e_index e → entry_at i (set_entries es c) = entry_at i c)
  ∧ entry_at (e_index e) (set_entries es c) = Some e.
Proof.
  intros Hw He Hb es. pose proof (last_log_index_wf _ Hw) as Hl. pose proof (lw_base _ Hw) as Hbase.
  assert (length (take (pos c (e_index e)) (rc_entries c)) = pos c (e_index e)) as Hlen.
  { rw length_take /pos. rw /zlen in Hl. lia. }
  assert (log_wf (set_entries es c)) as Hw'.
  { destruct Hw as [_ Hi Hx]. split; simpl; [done| |].
    - intros i x [Hx'|[Hge Hx']]%lookup_app_Some.
      + apply lookup_take_Some in Hx' as [Hx' _]. by apply Hi.
      + apply list_lookup_singleton_Some in Hx' as [E <-].
        rw Hlen in E Hge. rw /pos in E Hge. lia.
    - rw /es zlen_app zlen_cons zlen_nil /zlen Hlen /pos. lia. }
  assert (∀ i, snap_index c < i → i < e_index e →
    entry_at i (set_entries es c) = entry_at i c) as Hlow.
  { intros i Hi Hlt. rw !entry_at_wf //; [simpl; lia|simpl; lia|].
    change (pos (set_entries es c) i) with (pos c i). simpl. rw /es lookup_app_l.
    { rw Hlen /pos. lia. }
    rw lookup_take_lt //. rw /pos. lia. }
  split_and!; [done| | |].
  - rw last_log_index_wf // /= /es zlen_app zlen_cons zlen_nil /zlen Hlen /pos. lia.
  - intros i Hi. destruct (decide (snap_index c < i)); [by apply Hlow|].
    rw !entry_at_low //; simpl; lia.
  - rw entry_at_wf //; [simpl; lia|]. change (pos (set_entries es c) (e_index e)) with (pos c (e_index e)).
    rw /= /es lookup_app_r Hlen // Nat.sub_diag //.
Qed.

(** One round of the loop. *)
Lemma splice_entry_run e c σ c' σ' :
  log_wf c → 0 ≤ e_index e ≤ last_log_index c + 1 → e_index e < u64_max →
  splice_entry e (c, σ) = (Ok tt, (c', σ')) →
  log_wf c' ∧ log_only c c'
  ∧ (∀ i, i < e_index e → entry_at i c' = entry_at i c)
  ∧ (snap_index c < e_index e → term_at (e_index e) c' = Some (e_term e))
  ∧ e_index e ≤ last_log_index c'
  ∧ (e_index e ≤ snap_index c ∨ term_at (e_index e) c = Some (e_term e) → c' = c ∧ σ' = σ).
Proof.
  intros Hw He Hb. pose proof (last_log_index_wf _ Hw) as Hl. pose proof (zlen_nonneg (rc_entries c)) as Hz.
  pose proof (lw_bound _ Hw) as Hbd.
  rw /splice_entry {1 2}/bind /self /gets. cbn [fst]. rw base_index_wf //.
  destruct (Z.ltb_spec (e_index e) (snap_index c + 1)) as [Hlow|Hhigh].
  { intros [= <- <-]. split_and!; try done; [apply log_only_refl|lia|lia]. }
  assert (snap_index c < e_index e ≤ last_log_index c + 1) as Hr by lia.
  destruct (overwrite_wf c e Hw Hr Hb) as (Hw1 & Hl1 & Hlt1 & He1).
  assert (∀ l, let c1 := set_log l (set_entries (take (pos c (e_index e)) (rc_entries c) ++ [e]) c) in
    term_at (e_index e) c ≠ Some (e_term e) →
    log_wf c1 ∧ log_only c c1 ∧ (∀ i, i < e_index e → entry_at i c1 = entry_at i c)
    ∧ (snap_index c < e_index e → term_at (e_index e) c1 = Some (e_term e))
    ∧ e_index e ≤ last_log_index c1
    ∧ (e_index e ≤ snap_index c ∨ term_at (e_index e) c = Some (e_term e) → c1 = c ∧ σ' = σ)) as Hover.
  { intros l c1 Hne. split_and!; [by apply log_wf_entries|by exists l; eexists|exact Hlt1| | |].
    - intros _. change (term_at (e_index e) c1) with (term_at (e_index e)
        (set_entries (take (pos c (e_index e)) (rc_entries c) ++ [e]) c)).
      rw term_at_entry //; [simpl; lia|]. by rw He1.
    - change (last_log_index c1) with (last_log_index
        (set_entries (take (pos c (e_index e)) (rc_entries c) ++ [e]) c)). rw Hl1. lia.
    - intros [?|?]; [lia|done]. }
  cbn [fst]. destruct (term_at (e_index e) c) as [t|] eqn:Et.
  - destruct (Z.eqb_spec t (e_term e)) as [->|Hne].
    + intros [= <- <-]. split_and!; try done; [apply log_only_refl|].
      rw term_at_entry // in Et; [lia|]. apply fmap_Some in Et as (x & Hx & _).
      by apply entry_at_index in Hx as [_ ?]; [lia|done|lia].
    + intros ([] & [c1 σ1] & E1 & E2)%(bind_Ok_inv (truncate_from (e_index e))).
      apply truncate_from_run in E1 as [l ->]; [|done]. apply append_replicated_run in E2 as [l' ->].
      apply (Hover l'). congruence.
  - intros E. assert (rc_entries c = take (pos c (e_index e)) (rc_entries c)) as Etake.
    { symmetry. apply take_ge. rw term_at_entry // in Et; [lia|]. apply fmap_None in Et.
      rw entry_at_wf // in Et; [lia|]. by apply lookup_ge_None in Et. }
    apply append_replicated_run in E as [l ->]. 
    assert (pushed e c = set_entries (take (pos c (e_index e)) (rc_entries c) ++ [e]) c) as ->
      by (by rw /pushed -Etake).
    by apply (Hover l).
Qed.

(** Entries numbered consecutively from [prev + 1]. *)
Definition consecutive (prev : Z) (es : list LogEntry) : Prop :=
  ∀ k e, es !! k = Some e → e_index e = prev + 1 + Z.of_nat k.

Lemma consecutive_cons prev e es :
  consecutive prev (e :: es) → e_index e = prev + 1 ∧ consecutive (prev + 1) es.
Proof.
  intros Hc. split; [rw (Hc 0%nat e eq_refl); lia|].
  intros k x Hk. rw (Hc (S k) x Hk). lia.
Qed.

(** All of [es] above the snapshot are in the log with their terms. *)
Definition holds_entries c (es : list LogEntry) : Prop :=
  ∀ e, e ∈ es → snap_index c < e_index e → term_at (e_index e) c = Some (e_term e).

Lemma log_only_snapshot c c' : log_only c c' → rc_snapshot c' = rc_snapshot c.
Proof. by intros (l & es & ->). Qed.

Lemma term_at_same c c' i :
  log_wf c → log_wf c' → rc_snapshot c' = rc_snapshot c → i ≤ u64_max →
  entry_at i c' = entry_at i c → term_at i c' = term_at i c.
Proof.
  intros Hw Hw' Es Hi Ee. destruct (Z.lt_trichotomy i (snap_index c)) as [Hlt|[->|Hgt]].
  - rw !term_at_low // Es //.
  - by rw -{1}Es !term_at_snapshot Es.
  - rw !term_at_entry // ?Ee // Es //.
Qed.

Lemma splice_run es c σ c' σ' prev :
  log_wf c → consecutive prev es → 0 ≤ prev ≤ last_log_index c → prev + zlen es < u64_max →
  splice es (c, σ) = (Ok tt, (c', σ')) →
  log_wf c' ∧ log_only c c' ∧ (∀ i, i ≤ prev → entry_at i c' = entry_at i c)
  ∧ holds_entries c' es ∧ prev + zlen es ≤ last_log_index c'
  ∧ (holds_entries c es → c' = c ∧ σ' = σ).
Proof.
  revert c σ prev. induction es as [|e es IH]; intros c σ prev Hw Hc Hp Hb.
  { intros [= <- <-]. rw zlen_nil. split_and!; try done; [apply log_only_refl| |lia].
    by intros e ?%elem_of_nil. }
  rw zlen_cons in Hb. pose proof (zlen_nonneg es) as Hz.
  apply consecutive_cons in Hc as [He Hc]. rw /splice. cbn [for_each]. rw -/(splice es).
  intros ([] & [c1 σ1] & E1 & E2)%bind_Ok_inv.
  apply splice_entry_run in E1 as (Hw1 & Hlo1 & Hlt1 & Ht1 & Hl1 & Hsame1); [|done|lia..].
  rw He in Hl1. pose proof (log_only_snapshot _ _ Hlo1) as Es1.
  destruct (IH c1 σ1 (prev + 1) Hw1 Hc ltac:(lia) ltac:(lia) E2)
    as (Hw2 & Hlo2 & Hlt2 & Hh2 & Hl2 & Hsame2).
  pose proof (log_only_snapshot _ _ Hlo2) as Es2.
  split_and!; [done|by eapply log_only_trans| | |rw zlen_cons; lia|].
  - intros i Hi. rw Hlt2; [lia|]. apply Hlt1. lia.
  - intros x [->|Hx]%elem_of_cons Hsn; [|by apply Hh2].
    rw (term_at_same c1) //; [lia|apply Hlt2; lia|]. apply Ht1. by rw -Es1 -Es2.
  - intros Hh. destruct Hsame1 as [-> ->].
    { destruct (decide (e_index e ≤ snap_index c)); [by left|right]. apply Hh; [set_solver|lia]. }
    apply Hsame2. intros x Hx. apply Hh. set_solver.
Qed.

(** The state in which the log-matching check is made. *)
Lemma matching_conflict_log args c c' :
  rc_entries c' = rc_entries c → rc_snapshot c' = rc_snapshot c →
  matching_conflict args c' = matching_conflict args c.
Proof.
  intros Ee Es. by rw /matching_conflict /last_log_index /term_at /base_index Ee Es.
Qed.

Lemma log_wf_same c c' :
  log_wf c → rc_entries c' = rc_entries c → rc_snapshot c' = rc_snapshot c → log_wf c'.
Proof. intros [H1 H2 H3] Ee Es. split; rw ?Ee ?Es //. Qed.

Lemma matching_conflict_prev args c :
  matching_conflict args c = None → ae_prev_log_index args ≤ last_log_index c.
Proof. rw /matching_conflict. by destruct (Z.ltb_spec (last_log_index c) (ae_prev_log_index args)). Qed.

(** The hint of a rejection. *)
Lemma matching_conflict_hint args c hint : log_wf c → matching_conflict args c = Some hint →
  hint = if last_log_index c <? ae_prev_log_index args then last_log_index c + 1 else ae_prev_log_index args.
Proof.
  intros Hw. rw /matching_conflict. destruct (_ <? _).
  - rw u64_add_small; [|by intros [= <-]]. pose proof (lw_base _ Hw). pose proof (lw_bound _ Hw).
    pose proof (zlen_nonneg (rc_entries c)). rw last_log_index_wf //. lia.
  - destruct (term_at _ c) as [t|]; [|done]. destruct (_ =? _); [done|]. by intros [= <-].
Qed.

(** Recognising the leader changes neither the log nor the commit index. *)
Lemma adopt_leader_run args c σ c' σ' :
  current_term (rc_hard c) ≤ ae_term args →
  (if current_term (rc_hard c) <? ae_term args
   then become_follower (ae_term args) (Some (ae_leader_id args))
   else do! update (set_role Follower) then
        update (set_leader_id (Some (ae_leader_id args)))) (c, σ) = (Ok tt, (c', σ')) →
  current_term (rc_hard c') = ae_term args ∧ rc_entries c' = rc_entries c
  ∧ rc_snapshot c' = rc_snapshot c ∧ rc_commit_index c' = rc_commit_index c
  ∧ rc_role c' = Follower ∧ rc_leader_id c' = Some (ae_leader_id args).
Proof.
  intros Hge. destruct (Z.ltb_spec (current_term (rc_hard c)) (ae_term args)) as [Hlt|Hle].
  - intros ->%become_follower_run. simpl.
    by destruct (Z.ltb_spec (current_term (rc_hard c)) (ae_term args)); [|lia].
  - intros [= <- <-]. simpl. split_and!; done || lia.
Qed.

(** The node has the entry before the new ones, or something its snapshot covers stands for
    it: the log reaches [prev_log_index]; above the snapshot the entry there has the leader's
    term, at the snapshot the snapshot has; below it nothing is compared. *)
Definition previous_agrees (args : AppendEntriesArgs) c : Prop :=
  let i := ae_prev_log_index args in
  i ≤ last_log_index c
  ∧ (snap_index c < i → ∃ e, entry_at i c = Some e ∧ e_term e = ae_prev_log_term args)
  ∧ (i = snap_index c → last_included_term (rc_snapshot c) = ae_prev_log_term args).

Lemma matching_conflict_agrees args c : log_wf c →
  ae_prev_log_index args ≤ u64_max → matching_conflict args c = None ↔ previous_agrees args c.
Proof.
  intros Hw Hi. rw /matching_conflict /previous_agrees. set (i := ae_prev_log_index args) in *. cbn zeta.
  destruct (Z.ltb_spec (last_log_index c) i); [split; [done|]; intros []; lia|].
  destruct (Z.lt_trichotomy i (snap_index c)) as [Hlt|[Heq|Hgt]].
  - rw term_at_low //. split; [|done]. intros _. split_and!; [done|lia|lia].
  - rw Heq term_at_snapshot. destruct (Z.eqb_spec (last_included_term (rc_snapshot c)) (ae_prev_log_term args)).
    + split; [|done]. intros _. split_and!; [lia|lia|done].
    + split; [done|]. intros (_ & _ & H'). by specialize (H' eq_refl).
  - rw term_at_entry //. destruct (entry_at i c) as [e|] eqn:E.
    + simpl. destruct (Z.eqb_spec (e_term e) (ae_prev_log_term args)).
      * split; [|done]. intros _. split_and!; [done| |lia]. intros _. by exists e.
      * split; [done|]. intros (_ & H' & _). destruct (H' Hgt) as (e' & [= <-] & ?). done.
    + exfalso. rw entry_at_wf // in E. apply lookup_ge_None in E. rw last_log_index_wf // in H.
      pose proof (lw_base _ Hw). rw /pos in E. rw /zlen in H. lia.
Qed.

(** C18: what AppendEntries does to a follower whose log is numbered from its snapshot on, on
    every branch that replies to a message whose entries are numbered from [prev_log_index]
    on and fit [u64]: the term moves to the leader's; the request is accepted exactly if the
    leader is current, the log reaches [prev_log_index], and what the node has there (an
    entry, or the end of its snapshot; below that nothing is compared) has the term of the
    message; a rejection leaves log and commit index alone and, if the leader is current,
    hints at the end of the log or at [prev_log_index]; an acceptance keeps the log up to
    [prev_log_index], afterwards holds every sent entry (above the snapshot) with its term,
    keeps the numbering consecutive, changes nothing if all of them were there already, and
    moves the commit index to the leader's, bounded by the end of the log. *)
Theorem append_entries_functional args now draw c σ reply c' σ' :
  log_wf c → consecutive (ae_prev_log_index args) (ae_entries args) →
  0 ≤ ae_prev_log_index args → ae_prev_log_index args + zlen (ae_entries args) < u64_max →
  handle_append_entries args now draw (c, σ) = (Ok reply, (c', σ')) →
  aer_term reply = current_term (rc_hard c')
  ∧ current_term (rc_hard c') = Z.max (current_term (rc_hard c)) (ae_term args)
  ∧ (aer_success reply = true ↔
       current_term (rc_hard c) ≤ ae_term args ∧ previous_agrees args c)
  ∧ (aer_success reply = false →
       rc_entries c' = rc_entries c ∧ rc_commit_index c' = rc_commit_index c
       ∧ (current_term (rc_hard c) ≤ ae_term args → aer_conflict_index reply =
            if last_log_index c <? ae_prev_log_index args then last_log_index c + 1 else ae_prev_log_index args))
  ∧ (aer_success reply = true →
       log_wf c' ∧ rc_role c' = Follower ∧ rc_leader_id c' = Some (ae_leader_id args)
       ∧ (∀ i, i ≤ ae_prev_log_index args → entry_at i c' = entry_at i c)
       ∧ holds_entries c' (ae_entries args)
       ∧ ae_prev_log_index args + zlen (ae_entries args) ≤ last_log_index c'
       ∧ (holds_entries c (ae_entries args) → rc_entries c' = rc_entries c)
       ∧ rc_commit_index c' =
           (if rc_commit_index c <? ae_leader_commit args
            then Z.min (ae_leader_commit args) (last_log_index c') else rc_commit_index c)).
Proof.
  intros Hw Hc Hp Hb. pose proof (zlen_nonneg (ae_entries args)).
  rw -(matching_conflict_agrees args c Hw); [lia|]. rw /handle_append_entries {1}/bind {1}/self /gets. cbn [fst].
  destruct (Z.ltb_spec (ae_term args) (current_term (rc_hard c))) as [Hlt|Hge].
  { rw /self /gets. intros [= <- <- <-]. simpl. split_and!; try done; [lia|split; [done|lia]|].
    intros _. split_and!; [done..|lia]. }
  intros ([] & [c1 σ1] & E1 & E2)%bind_Ok_inv.
  apply adopt_leader_run in E1 as (Ht & He & Hs & Hci & Hro & Hle); [|done].
  destruct (bind_Ok_inv _ _ _ _ _ E2) as ([] & [c2 σ2] & E3 & E4).
  apply reset_timer_run in E3 as (-> & t & ->). cbn zeta in E4.
  set (c2 := set_election_deadline t c1) in *.
  move: E4. rw {1}/bind {1}/self /gets. cbn [fst].
  rw (matching_conflict_log args c c2) //. destruct (matching_conflict args c) as [hint|] eqn:Em.
  { rw /self /gets. intros [= <- <- <-]. simpl. rw Ht. split_and!; try done; [lia|split; [done|]; by intros [_ ?]|].
    intros _. split_and!; [done..|]. intros _. by eapply matching_conflict_hint. }
  intros ([] & [c3 σ3] & E5 & E6)%bind_Ok_inv.
  assert (log_wf c2) as Hw2 by (by eapply log_wf_same).
  assert (ae_prev_log_index args ≤ last_log_index c2) as Hprev.
  { apply matching_conflict_prev in Em. by rw /last_log_index /= He Hs. }
  apply (splice_run _ _ _ _ _ (ae_prev_log_index args)) in E5
    as (Hw3 & (l & es & ->) & Hlt3 & Hh3 & Hl3 & Hsame3); [|done..].
  move: E6. rw /core_sync /bind /on_log.
  destruct (wal_sync _) as [[[]| |] [l4 σ4]]; [|done..]. rw /update /modify /self /gets.
  cbn [fst]. set (c4 := set_log l4 _). intros [= <- Ec <-].
  assert (∀ v, log_wf (set_commit_index v c4)) as Hw4 by (intros v; by destruct Hw3).
  assert (∀ i, entry_at i c2 = entry_at i c) as Hent by (intros i; by rw /entry_at /base_index /= He Hs).
  assert (∀ i, term_at i c2 = term_at i c) as Hterm by (intros i; by rw /term_at /base_index /= He Hs).
  assert (holds_entries c (ae_entries args) → rc_entries c4 = rc_entries c) as Hsame.
  { intros Hh. destruct Hsame3 as [E _].
    - intros e Hin. rw Hterm /= Hs. by apply Hh.
    - pose proof (f_equal rc_entries E) as E'. simpl in E'. by rw /= E' He. }
  set (v := if rc_commit_index c <? ae_leader_commit args
            then Z.min (ae_leader_commit args) (last_log_index c4) else rc_commit_index c).
  assert (c' = set_commit_index v c4) as ->.
  { rw -Ec. change (rc_commit_index c4) with (rc_commit_index c1). rw Hci /v.
    destruct (rc_commit_index c <? ae_leader_commit args); [done|].
    rw -Hci. by change (rc_commit_index c1) with (rc_commit_index c4); destruct c4. }
  rw Ec. cbn [aer_term aer_success]. split_and!; [done| | |done|].
  - simpl. rw Ht. lia.
  - done.
  - intros _. split_and!; [apply Hw4|exact Hro|exact Hle| |exact Hh3|exact Hl3|exact Hsame|done].
    intros i Hi. rw -(Hent i) -(Hlt3 i Hi). done.
Qed.

End replication.

(** ** Witnesses *)

#[local] Existing Instance crc32fast.
#[local] Existing Instance bincode_codec.

(** A leader of three nodes with five entries, one peer up to date and one behind. *)
Definition demo_leader : RaftCore Log :=
  set_next_index {[ 2 := 6; 3 := 3 ]} (set_match_index {[ 2 := 5; 3 := 2 ]}
    (set_hard (MkHardState 2 (Some 1))
       (demo_core Leader (demo_entries [1; 1; 2; 2; 2] 1) default_meta 2 2))).

Lemma demo_leader_wf : log_wf demo_leader.
Proof.
  destruct (demo_core_wf Leader [1; 1; 2; 2; 2] default_meta 2 2) as [H1 H2 H3]; [evaluate..|by split].
Qed.

Lemma commit_rule_witness :
  ∃ candidate c', advance_commit_index (demo_leader, empty_fs) = (Ok tt, (c', empty_fs))
    ∧ core_quorum demo_leader ≤ Z.of_nat (reached candidate (match_indices demo_leader))
    ∧ (∀ v, core_quorum demo_leader ≤ Z.of_nat (reached v (match_indices demo_leader)) → v ≤ candidate)
    ∧ c' = set_commit_index (rc_commit_index c') demo_leader
    ∧ rc_commit_index c' =
        (if decide (rc_commit_index demo_leader < candidate
                    ∧ term_at candidate demo_leader = Some (current_term (rc_hard demo_leader)))
         then candidate else rc_commit_index demo_leader).
Proof. apply (commit_rule demo_leader empty_fs); evaluate. Defined.

Lemma backoff_progress_witness :
  ∃ next', on_append_entries_reply 3 5 (MkAppendEntriesReply 2 false 2) (demo_leader, empty_fs) =
      (Ok tt, (set_next_index (<[3 := next']> (rc_next_index demo_leader)) demo_leader, empty_fs))
    ∧ 1 ≤ next' ∧ (1 < 3 → next' < 3) ∧ (3 = 1 → next' = 1) ∧ (0 < 2 → next' ≤ 2).
Proof.
  apply (backoff_progress 3 5 (MkAppendEntriesReply 2 false 2) demo_leader empty_fs); [done|done|evaluate].
Defined.

Lemma build_append_entries_contiguous_witness :
  let args := build_append_entries 3 demo_leader in
  (∀ k e, ae_entries args !! k = Some e → e_index e = ae_prev_log_index args + 1 + Z.of_nat k)
  ∧ ae_prev_log_index args + zlen (ae_entries args) = last_log_index demo_leader
  ∧ term_at (ae_prev_log_index args) demo_leader = Some (ae_prev_log_term args)
  ∧ ae_leader_commit args ≤ ae_prev_log_index args + zlen (ae_entries args).
Proof.
  apply (build_append_entries_contiguous 3 demo_leader); [apply demo_leader_wf|evaluate|evaluate].
Defined.

(** The same leader after a compaction that peer 3 has not seen. *)
Definition demo_compacted : RaftCore Log :=
  set_next_index {[ 3 := 3 ]}
    (demo_core Leader (demo_entries [2; 2] 5) (MkSnapshotMeta 4 2) 6 6).

Lemma build_append_entries_gap_witness :
  head (ae_entries (build_append_entries 3 demo_compacted)) = Some (MkLogEntry 2 5 Noop)
  ∧ ae_prev_log_index (build_append_entries 3 demo_compacted) + 1 < 5.
Proof.
  apply (build_append_entries_gap 3 demo_compacted 3 (MkLogEntry 2 5 Noop) [MkLogEntry 2 6 Noop]).
  - destruct (demo_core_wf Leader [2; 2] (MkSnapshotMeta 4 2) 6 6) as [H1 H2 H3]; [evaluate..|by split].
  - vm_compute. reflexivity.
  - evaluate.
  - vm_compute. reflexivity.
Defined.

(** A follower whose second and third entries diverge; the log on disk has the same three. *)
Definition demo_replica_records : list (list byte) := put <$> demo_entries [1; 1; 1] 1.
Definition demo_replica : RaftCore Log :=
  set_log (log_after demo_replica_records).1
    (demo_core Follower (demo_entries [1; 1; 1] 1) default_meta 0 0).
Definition demo_replica_disk : fs := (log_after demo_replica_records).2.
Definition demo_append : AppendEntriesArgs := MkAppendEntriesArgs 2 2 1 1 (demo_entries [2; 2] 2) 2.

Lemma demo_append_consecutive : consecutive 1 (ae_entries demo_append).
Proof. intros [|[|k]] e Hk; simplify_eq/=; done. Qed.

Lemma append_entries_functional_witness :
  let run := handle_append_entries demo_append 0 0 (demo_replica, demo_replica_disk) in
  run.1 = Ok (MkAppendEntriesReply 2 true 0)
  ∧ log_wf run.2.1 ∧ (∀ i, i ≤ 1 → entry_at i run.2.1 = entry_at i demo_replica)
  ∧ holds_entries run.2.1 (demo_entries [2; 2] 2).
Proof.
  intros run. assert (run = (Ok (MkAppendEntriesReply 2 true 0), (run.2.1, run.2.2))) as E
    by (vm_compute; reflexivity).
  destruct (append_entries_functional demo_append 0 0 demo_replica demo_replica_disk
    (MkAppendEntriesReply 2 true 0) run.2.1 run.2.2) as (_ & _ & _ & _ & H).
  - destruct (demo_core_wf Follower [1; 1; 1] default_meta 0 0) as [H1 H2 H3]; [evaluate..|by split].
  - apply demo_append_consecutive.
  - evaluate.
  - evaluate.
  - exact E.
  - destruct (H eq_refl) as (H1 & _ & _ & H2 & H3 & _).
    split_and!; [vm_compute; reflexivity|exact H1|exact H2|exact H3].
Defined.
