(* ===== verification/Mirror.v ===== *)
(** * Mirror: the write-ahead log holds the entries of the core.

    [RaftCore] keeps its entries in memory and in the log.  This file relates the two and
    shows that AppendEntries, which promises durability before it acknowledges, leaves on
    disk exactly the entries that a restart has to read back. *)

From Corelib Require Import ssreflect.
From stdpp Require Import base gmap strings list.
From S2P Require Import Prelude Text Fs AtomicFile Crc Record Segment WalLog Codec.
From S2P Require Import Config MemTable Snapshot RaftState Wal RaftCore Election Replication.

Section mirror.
Context {L : Type} {wal : Wal L} {laws : WalLaws L}.
Context {bin_hard : Bincode HardState} {bin_entry : Bincode LogEntry}.
Implicit Types c : RaftCore L.

Definition decodes (bs : list byte) (e : LogEntry) : Prop := bincode_deserialize bs = Ok e.

(** An entry that fits one record of the log. *)
Definition storable (e : LogEntry) : Prop :=
  representable e ∧ ∀ bs, bincode_serialize e = Ok bs → zlen bs ≤ MAX_RECORD_LEN.

(** The records of the abstract log above the snapshot are the entries in memory. *)
Record mirror (σ : fs) c (a : alog) : Prop := {
  mi_wf : log_wf c;
  mi_rep : wal_rep σ (rc_log c) a;
  mi_first : al_first a ≤ snap_index c + 1;
  mi_last : al_last a = last_log_index c;
  mi_entries : Forall2 decodes (drop (Z.to_nat (snap_index c + 1 - al_first a)) (al_records a))
                 (rc_entries c)
}.

Lemma mirror_core σ c c' a :
  mirror σ c a → rc_log c' = rc_log c → rc_entries c' = rc_entries c →
  rc_snapshot c' = rc_snapshot c → mirror σ c' a.
Proof.
  intros [Hw Hr Hf Hl He] El Ee Es. split; rw ?El ?Es ?Ee //; [by eapply log_wf_same|].
  by rw Hl /last_log_index Ee Es.
Qed.

(** ** Reading back *)

Lemma load_entries_above snap first bss es :
  snap < first → Forall2 decodes bss es → load_entries snap (numbered first bss) = Ok es.
Proof.
  intros Hf He. revert first Hf. induction He as [|bs e bss es Hd _ IH]; intros first Hf; [done|].
  rw numbered_cons. cbn [load_entries]. destruct (Z.leb_spec first snap); [lia|].
  rw Hd IH //. lia.
Qed.

Lemma load_entries_drop snap first bss es :
  first ≤ snap + 1 →
  Forall2 decodes (drop (Z.to_nat (snap + 1 - first)) bss) es →
  load_entries snap (numbered first bss) = Ok es.
Proof.
  revert first. induction bss as [|bs bss IH]; intros first Hf He.
  { rw drop_nil in He. by apply Forall2_nil_inv_l in He as ->. }
  destruct (decide (first ≤ snap)) as [Hle|Hgt].
  - rw numbered_cons. cbn [load_entries]. destruct (Z.leb_spec first snap); [|lia].
    apply IH; [lia|]. by replace (Z.to_nat (snap + 1 - first)) with
      (S (Z.to_nat (snap + 1 - (first + 1)))) in He by lia.
  - apply load_entries_above; [lia|]. by replace (Z.to_nat (snap + 1 - first)) with 0%nat in He by lia.
Qed.

(** What [restore] reads from a clean log is what the core holds. *)
Lemma mirror_reload σ c a :
  fault_free σ → mirror σ c a → wal_clean σ (rc_log c) →
  (let! recs := wal_read_all (rc_log c) in lift (load_entries (snap_index c) recs)) σ
    = (Ok (rc_entries c), σ).
Proof.
  intros Hs [Hw Hr Hf Hl He] Hcl. rw (bind_Ok _ _ _ _ _ (wal_read_all_spec _ _ _ Hs Hr Hcl)) /lift.
  by rw al_entries_numbered (load_entries_drop _ _ _ (rc_entries c)).
Qed.

(** ** Changing the log *)

Lemma append_replicated_mirror e c σ a :
  fault_free σ → mirror σ c a → storable e → e_index e = last_log_index c + 1 → e_index e < u64_max →
  ∃ c' σ' a', append_replicated e (c, σ) = (Ok tt, (c', σ')) ∧ mirror σ' c' a' ∧ fault_free σ'
    ∧ log_only c c' ∧ last_log_index c' = e_index e.
Proof.
  intros Hs [Hw Hr Hf Hl He] [Hrep Hsz] Hi Hb.
  destruct (bincode_serialize_ok e Hrep) as (bs & Ebs & Hbs).
  destruct (wal_rep_range _ _ _ Hr) as [Hrange _].
  destruct (wal_append_spec bs (rc_log c) σ a Hs Hr (Hsz bs Ebs) ltac:(lia)) as (l' & σ' & E & Hr' & Hs').
  exists (set_log l' (pushed e c)), σ', (al_append bs a).
  assert (log_wf (pushed e c)) as Hw' by (apply pushed_wf; [done|done|lia]).
  assert (log_wf (set_log l' (pushed e c))) as Hw2 by (by destruct Hw').
  assert (last_log_index (set_log l' (pushed e c)) = e_index e) as Hlast.
  { rw last_log_index_wf // /= zlen_app zlen_cons zlen_nil Hi last_log_index_wf //. lia. }
  split_and!; [|split; try done| done|by exists l'; eexists|done].
  - by rw /append_replicated /bind /lift Ebs /on_log E.
  - rw Hlast. rw /al_last /al_append /= zlen_app zlen_cons zlen_nil. rw /al_last in Hl. lia.
  - simpl. rw drop_app_le.
    { rw /al_last in Hl. rw last_log_index_wf // in Hl. pose proof (zlen_nonneg (rc_entries c)).
      rw /zlen in Hl. unfold zlen in *. lia. }
    apply Forall2_app; [done|]. by repeat constructor.
Qed.

Lemma truncate_from_mirror i c σ a :
  fault_free σ → mirror σ c a → wal_clean σ (rc_log c) → snap_index c < i ≤ last_log_index c →
  ∃ c' σ' a', truncate_from i (c, σ) = (Ok tt, (c', σ')) ∧ mirror σ' c' a' ∧ fault_free σ'
    ∧ log_only c c' ∧ last_log_index c' = i - 1 ∧ wal_clean σ' (rc_log c').
Proof.
  intros Hs [Hw Hr Hf Hl He] Hcl Hi. pose proof (lw_base _ Hw) as H0. pose proof (lw_bound _ Hw) as Hbd.
  destruct (wal_truncate_suffix_spec (i - 1) (rc_log c) σ a Hs Hr Hcl ltac:(lia))
    as (l' & σ' & E & Hr' & Hcl' & Hs').
  set (es := take (pos c i) (rc_entries c)).
  pose proof (last_log_index_wf _ Hw) as Hll.
  assert (zlen es = i - 1 - snap_index c) as Hlen.
  { rw /es /zlen length_take /pos. unfold zlen in *. lia. }
  assert (log_wf (set_entries es c)) as Hw'.
  { destruct Hw as [? Hix ?]. split; simpl; [done| |lia].
    intros k x [Hx _]%lookup_take_Some. by apply Hix. }
  exists (set_log l' (set_entries es c)), σ', (al_keep (i - 1) a).
  assert (log_wf (set_log l' (set_entries es c))) as Hw2 by (by destruct Hw').
  assert (last_log_index (set_log l' (set_entries es c)) = i - 1) as Hlast.
  { rw last_log_index_wf // /=. lia. }
  split_and!; [|split; try done|done|by exists l', es|done|done].
  - rw /truncate_from /bind /update /modify /on_log. cbn [rc_log set_entries].
    rw (filter_below _ (snap_index c)); [apply Hw|]. rw /saturating_sub Z.max_r; [lia|].
    by rw E.
  - rw Hlast /al_last /al_keep /= /zlen length_take. rw /al_last in Hl. unfold zlen in *. lia.
  - simpl. set (n := Z.to_nat (snap_index c + 1 - al_first a)) in *.
    replace (Z.to_nat (i - 1 - al_first a + 1)) with (n + pos c i)%nat by (rw /n /pos; lia).
    rw -take_drop_commute. by apply Forall2_take.
Qed.

(** One round of the loop: as long as nothing has been appended the log is clean, and after
    that the next entry goes to the end. *)
Lemma splice_entry_mirror e c σ a :
  fault_free σ → mirror σ c a → storable e → 0 ≤ e_index e ≤ last_log_index c + 1 →
  e_index e < u64_max → wal_clean σ (rc_log c) ∨ e_index e = last_log_index c + 1 →
  ∃ c' σ' a', splice_entry e (c, σ) = (Ok tt, (c', σ')) ∧ mirror σ' c' a' ∧ fault_free σ'
    ∧ log_only c c' ∧ e_index e ≤ last_log_index c'
    ∧ (wal_clean σ' (rc_log c') ∨ e_index e = last_log_index c').
Proof.
  intros Hs Hm Hst Hi Hb Hcl. pose proof (mi_wf _ _ _ Hm) as Hw.
  pose proof (last_log_index_wf _ Hw) as Hll. pose proof (zlen_nonneg (rc_entries c)) as Hz.
  rw /splice_entry {1 2}/bind /self /gets. cbn [fst]. rw base_index_wf //.
  destruct (Z.ltb_spec (e_index e) (snap_index c + 1)) as [Hlow|Hhigh].
  { exists c, σ, a. split_and!; try done; [apply log_only_refl|lia|].
    destruct Hcl; [by left|lia]. }
  cbn [fst]. destruct (decide (e_index e = last_log_index c + 1)) as [Hend|Hne].
  - assert (term_at (e_index e) c = None) as ->.
    { rw term_at_entry //; [lia|]. rw entry_at_wf //; [lia|].
      rw lookup_ge_None_2 //. rw /pos. unfold zlen in *. lia. }
    destruct (append_replicated_mirror e c σ a Hs Hm Hst Hend Hb) as (c' & σ' & a' & E & Hm' & Hs' & Hlo & Hl).
    exists c', σ', a'. split_and!; try done; [lia|by right].
  - destruct Hcl as [Hcl|]; [|done].
    assert (snap_index c < e_index e ≤ last_log_index c) as Hr by lia.
    destruct (entry_at_is_Some c (e_index e) Hw Hr) as [x Hx].
    rw (term_at_entry c) //; [lia|]. rw Hx. cbn [fmap option_fmap option_map].
    destruct (Z.eqb_spec (e_term x) (e_term e)) as [Heq|Hdiff].
    { exists c, σ, a. split_and!; try done; [apply log_only_refl|lia|by left]. }
    destruct (truncate_from_mirror (e_index e) c σ a Hs Hm Hcl Hr)
      as (c1 & σ1 & a1 & E1 & Hm1 & Hs1 & Hlo1 & Hl1 & Hcl1).
    destruct (append_replicated_mirror e c1 σ1 a1 Hs1 Hm1 Hst ltac:(lia) Hb)
      as (c2 & σ2 & a2 & E2 & Hm2 & Hs2 & Hlo2 & Hl2).
    exists c2, σ2, a2. rw (bind_Ok _ _ _ _ _ E1).
    split_and!; [done..|by eapply log_only_trans|lia|by right].
Qed.

Lemma splice_mirror es c σ a prev :
  fault_free σ → mirror σ c a → Forall storable es → consecutive prev es →
  0 ≤ prev ≤ last_log_index c → prev + zlen es < u64_max →
  wal_clean σ (rc_log c) ∨ prev = last_log_index c →
  ∃ c' σ' a', splice es (c, σ) = (Ok tt, (c', σ')) ∧ mirror σ' c' a' ∧ fault_free σ' ∧ log_only c c'.
Proof.
  revert c σ a prev. induction es as [|e es IH]; intros c σ a prev Hs Hm Hst Hc Hp Hb Hcl.
  { exists c, σ, a. split_and!; try done. apply log_only_refl. }
  apply Forall_cons in Hst as [Hst Hsts]. apply consecutive_cons in Hc as [Hi Hc].
  rw zlen_cons in Hb. pose proof (zlen_nonneg es).
  destruct (splice_entry_mirror e c σ a Hs Hm Hst ltac:(lia) ltac:(lia))
    as (c1 & σ1 & a1 & E1 & Hm1 & Hs1 & Hlo1 & Hl1 & Hcl1); [destruct Hcl; [by left|right; lia]|].
  destruct (IH c1 σ1 a1 (prev + 1) Hs1 Hm1 Hsts Hc ltac:(lia) ltac:(lia))
    as (c2 & σ2 & a2 & E2 & Hm2 & Hs2 & Hlo2); [destruct Hcl1; [by left|right; lia]|].
  exists c2, σ2, a2. rw /splice. cbn [for_each]. rw (bind_Ok _ _ _ _ _ E1).
  split_and!; [exact E2|done|done|by eapply log_only_trans].
Qed.

(** A step down does not reach the log. *)
Lemma become_follower_mirror d n term leader c σ a :
  fault_free σ → fs_wf σ → mirror σ c a → rc_hard_path c = join d n →
  wal_away (rc_hard_path c) σ (rc_log c) → representable (MkHardState term None) →
  ∃ c' σ', become_follower term leader (c, σ) = (Ok tt, (c', σ')) ∧ mirror σ' c' a ∧ fault_free σ'
    ∧ rc_log c' = rc_log c ∧ rc_election_timeout c' = rc_election_timeout c
    ∧ (wal_clean σ (rc_log c) → wal_clean σ' (rc_log c')).
Proof.
  intros Hs Hwf Hm Hpath Haw Hrep. rw /become_follower /bind /self /gets /update /modify. cbn [fst].
  destruct (current_term (rc_hard c) <? term).
  - rw /persist_hard. cbn [rc_hard_path set_hard rc_hard current_term]. rw Hpath.
    destruct (hard_persist_ok d n (MkHardState term None) σ Hwf Hs Hrep) as [Hok Hs'].
    pose proof (hard_persist_frame d n (MkHardState term None) σ Hwf Hrep) as Hfr.
    destruct (hard_persist _ _ σ) as [r σ']. cbn [fst snd] in *. subst r.
    eexists _, σ'. split; [done|]. rw Hpath in Haw.
    destruct (wal_frame (join d n) (rc_log c) σ σ' a (mi_rep _ _ _ Hm) Haw Hfr) as [Hr' Hcl'].
    split_and!; try done. eapply (mirror_core σ' c); try done.
    destruct Hm as [Hw _ ? ? ?]. by split.
  - rw /ret. eexists _, σ. split; [done|]. split_and!; try done. by eapply mirror_core.
Qed.

(** The election timer can be armed. *)
Definition timer_ok c : Prop :=
  as_millis (rc_election_timeout c).1 < as_millis (rc_election_timeout c).2.

Lemma reset_timer_ok now draw c σ :
  timer_ok c → ∃ t, reset_election_timer now draw (c, σ) = (Ok tt, (set_election_deadline t c, σ)).
Proof.
  intros Ht. rw /reset_election_timer /bind /self /gets /lift /gen_range /update /modify. cbn [fst].
  rw /timer_ok in Ht. destruct (Z.ltb_spec (as_millis (rc_election_timeout c).1)
    (as_millis (rc_election_timeout c).2)); [|lia]. by eexists.
Qed.

Lemma append_entries_mirror d n args now draw c σ a :
  fault_free σ → fs_wf σ → mirror σ c a → wal_clean σ (rc_log c) →
  rc_hard_path c = join d n → wal_away (rc_hard_path c) σ (rc_log c) →
  representable (MkHardState (ae_term args) None) → timer_ok c →
  Forall storable (ae_entries args) → consecutive (ae_prev_log_index args) (ae_entries args) →
  0 ≤ ae_prev_log_index args → ae_prev_log_index args + zlen (ae_entries args) < u64_max →
  ∃ reply c' σ' a', handle_append_entries args now draw (c, σ) = (Ok reply, (c', σ'))
    ∧ mirror σ' c' a' ∧ wal_clean σ' (rc_log c') ∧ fault_free σ'.
Proof.
  intros Hs Hwf Hm Hcl Hpath Haw Hrep Htm Hst Hc Hp Hb.
  rw /handle_append_entries {1}/bind {1}/self /gets. cbn [fst].
  destruct (ae_term args <? current_term (rc_hard c)).
  { eexists _, c, σ, a. split; [done|]. done. }
  assert (∃ c1 σ1, (if current_term (rc_hard c) <? ae_term args
                    then become_follower (ae_term args) (Some (ae_leader_id args))
                    else do! update (set_role Follower) then
                         update (set_leader_id (Some (ae_leader_id args)))) (c, σ) = (Ok tt, (c1, σ1))
    ∧ mirror σ1 c1 a ∧ fault_free σ1 ∧ rc_election_timeout c1 = rc_election_timeout c
    ∧ wal_clean σ1 (rc_log c1)) as (c1 & σ1 & E1 & Hm1 & Hs1 & Ht1 & Hcl1).
  { destruct (current_term (rc_hard c) <? ae_term args).
    - destruct (become_follower_mirror d n (ae_term args) (Some (ae_leader_id args)) c σ a Hs Hwf Hm
        Hpath Haw Hrep) as (c1 & σ1 & E & Hm1 & Hs1 & El & Et & Hcl1). exists c1, σ1. auto 10.
    - eexists _, σ. split; [done|]. split_and!; try done. by eapply mirror_core. }
  rw (bind_Ok _ _ _ _ _ E1).
  destruct (reset_timer_ok now draw c1 σ1) as [t E2]; [by rw /timer_ok Ht1|].
  rw (bind_Ok _ _ _ _ _ E2). set (c2 := set_election_deadline t c1).
  assert (mirror σ1 c2 a) as Hm2 by (by eapply mirror_core).
  rw {1}/bind {1}/self /gets. cbn [fst].
  destruct (matching_conflict args c2) as [hint|] eqn:Em.
  { eexists _, c2, σ1, a. split; [done|]. done. }
  assert (ae_prev_log_index args ≤ last_log_index c2) as Hprev.
  { rw /matching_conflict in Em. by destruct (Z.ltb_spec (last_log_index c2) (ae_prev_log_index args)). }
  destruct (splice_mirror (ae_entries args) c2 σ1 a (ae_prev_log_index args) Hs1 Hm2 Hst Hc
    ltac:(lia) Hb) as (c3 & σ3 & a3 & E3 & Hm3 & Hs3 & Hlo); [by left|].
  rw (bind_Ok _ _ _ _ _ E3).
  destruct (wal_sync_spec (rc_log c3) σ3 a3 Hs3 (mi_rep _ _ _ Hm3)) as (l4 & σ4 & E4 & Hr4 & Hcl4 & Hs4).
  rw /core_sync /bind /on_log E4 /update /modify /self /gets.
  eexists _, _, σ4, a3. split; [done|]. split_and!; [|by case_zb|done].
  apply (mirror_core σ4 (set_log l4 c3)); [|by case_zb..].
  destruct Hm3 as [Hw3 _ Hf3 Hl3 He3]. split; try done. by destruct Hw3.
Qed.

(** Durability before acknowledgement: as long as no system call fails, AppendEntries
    always replies, keeps the log on disk equal to the entries in memory, and has everything
    on disk before it does; reading the log back as a restart does gives exactly the
    entries of the core. *)
Theorem append_entries_durable d n args now draw c σ a :
  fault_free σ → fs_wf σ → mirror σ c a → wal_clean σ (rc_log c) →
  rc_hard_path c = join d n → wal_away (rc_hard_path c) σ (rc_log c) →
  representable (MkHardState (ae_term args) None) → timer_ok c →
  Forall storable (ae_entries args) → consecutive (ae_prev_log_index args) (ae_entries args) →
  0 ≤ ae_prev_log_index args → ae_prev_log_index args + zlen (ae_entries args) < u64_max →
  ∃ reply c' σ' a', handle_append_entries args now draw (c, σ) = (Ok reply, (c', σ'))
    ∧ mirror σ' c' a' ∧ wal_clean σ' (rc_log c')
    ∧ (let! recs := wal_read_all (rc_log c') in lift (load_entries (snap_index c') recs)) σ'
      = (Ok (rc_entries c'), σ').
Proof.
  intros Hs Hwf Hm Hcl Hpath Haw Hrep Htm Hst Hc Hp Hb.
  destruct (append_entries_mirror d n args now draw c σ a Hs Hwf Hm Hcl Hpath Haw Hrep Htm Hst Hc Hp Hb)
    as (reply & c' & σ' & a' & E & Hm' & Hcl' & Hs').
  exists reply, c', σ', a'. split_and!; try done. by eapply mirror_reload.
Qed.

End mirror.

(** ** With the segmented log *)

Section mirror_log.
Context {crc : Crc32} {bin_hard : Bincode HardState} {bin_entry : Bincode LogEntry}.

(** C12: acknowledged entries survive a crash: on a node whose log on disk is synced and
    holds the entries of its core, if no system call fails, the message has consecutive
    entries that fit a record, indices and sizes fit u64, and the hard state is not kept
    among the files of the log, AppendEntries replies, and after any crash that then finds
    the directory entries of the log, reopening the log and reading it back gives exactly
    the entries the node held when it replied. *)
Theorem acknowledged_entries_survive_crash d n args now draw (c c' : RaftCore Log) σ σ' a r σc max :
  fault_free σ → fs_wf σ → mirror σ c a → log_synced σ (rc_log c) →
  rc_hard_path c = join d n → log_away (rc_hard_path c) σ (rc_log c) →
  representable (MkHardState (ae_term args) None) → timer_ok c →
  Forall storable (ae_entries args) → consecutive (ae_prev_log_index args) (ae_entries args) →
  0 ≤ ae_prev_log_index args → ae_prev_log_index args + zlen (ae_entries args) < u64_max →
  handle_append_entries args now draw (c, σ) = (r, (c', σ')) →
  crash σ' σc → entries_kept (log_dir (rc_log c')) σ' σc → files_bounded σc →
  (∃ reply, r = Ok reply) ∧
  ∃ l σ'', log_open (log_dir (rc_log c')) max σc = (Ok l, σ'')
    ∧ (let! recs := log_read_all l in lift (load_entries (snap_index c') recs)) σ''
      = (Ok (rc_entries c'), σ'').
Proof.
  intros Hs Hwf Hm Hcl Hpath Haw Hrep Htm Hst Hc Hp Hb.
  destruct (append_entries_mirror d n args now draw c σ a Hs Hwf Hm Hcl Hpath Haw Hrep Htm Hst Hc Hp Hb)
    as (reply & c1 & σ1 & a' & E1 & [Hw' Hr' Hf' Hl' He'] & Hcl' & Hs').
  rw E1. intros [= <- <- <-] Hcr Hdn Hmax. split; [eauto|].
  destruct (log_reopen_crash_abs (rc_log c1) σ1 σc a' max Hr' Hcl' Hcr Hdn Hmax)
    as (l & σ'' & E & _ & _ & Eread).
  exists l, σ''. split; [done|]. rw (bind_Ok _ _ _ _ _ Eread) /lift.
  by rw al_entries_numbered (load_entries_drop _ _ _ (rc_entries c1)).
Qed.

End mirror_log.

(** ** Witnesses *)

#[local] Existing Instance crc32fast.
#[local] Existing Instance bincode_codec.

Lemma demo_entries_storable terms from :
  Forall (λ t, 0 ≤ t ≤ u64_max) terms → 0 ≤ from → from + zlen terms ≤ u64_max →
  Forall storable (demo_entries terms from).
Proof.
  intros Ht Hf Hb. apply Forall_lookup. intros k e. rw /demo_entries list_lookup_imap fmap_Some.
  intros (t & Hk & ->). pose proof (proj1 (Forall_lookup _ _) Ht k t Hk) as Hr. simpl in Hr.
  apply lookup_lt_Some in Hk. rw /zlen in Hb. split.
  - split; [exact Hr|]. split; [simpl; lia|]. split; [evaluate|split; evaluate].
  - intros bs [= <-]. vm_compute. discriminate.
Qed.

Lemma demo_replica_mirror : mirror demo_replica_disk demo_replica (MkALog 1 demo_replica_records).
Proof.
  split.
  - destruct (demo_core_wf Follower [1; 1; 1] default_meta 0 0) as [H1 H2 H3]; [evaluate..|by split].
  - apply log_after_abs; evaluate.
  - evaluate.
  - evaluate.
  - repeat constructor; vm_compute; reflexivity.
Qed.

Lemma demo_replica_clean : log_synced demo_replica_disk (rc_log demo_replica).
Proof. apply (log_after_abs demo_replica_records); evaluate. Qed.

Lemma demo_replica_away :
  log_away (rc_hard_path demo_replica) demo_replica_disk (rc_log demo_replica).
Proof.
  split; [|evaluate].
  intros n. assert (log_dir (rc_log demo_replica) = demo_dir) as -> by (vm_compute; reflexivity). done.
Qed.

Lemma append_entries_durable_witness :
  ∃ reply c' σ' a', handle_append_entries demo_append 0 0 (demo_replica, demo_replica_disk)
      = (Ok reply, (c', σ'))
    ∧ mirror σ' c' a' ∧ wal_clean σ' (rc_log c')
    ∧ (let! recs := wal_read_all (rc_log c') in lift (load_entries (snap_index c') recs)) σ'
      = (Ok (rc_entries c'), σ').
Proof.
  apply (append_entries_durable ["data"%string] "hard_state" demo_append 0 0 demo_replica
    demo_replica_disk (MkALog 1 demo_replica_records)).
  - apply log_after_abs; evaluate.
  - apply fs_wf_check; evaluate.
  - apply demo_replica_mirror.
  - apply demo_replica_clean.
  - done.
  - apply demo_replica_away.
  - by split.
  - evaluate.
  - apply demo_entries_storable; evaluate.
  - apply demo_append_consecutive.
  - evaluate.
  - evaluate.
Defined.

(** A follower with one large segment, all of it on disk, receives one more entry. *)
Definition demo_large : RaftCore Log := set_log (log_at 1000 demo_replica_records).1 demo_replica.
Definition demo_large_disk : fs := names_durable (log_at 1000 demo_replica_records).2.
Definition demo_extend : AppendEntriesArgs := MkAppendEntriesArgs 2 2 3 1 (demo_entries [2] 4) 3.
Definition demo_extended := handle_append_entries demo_extend 0 0 (demo_large, demo_large_disk).

Lemma demo_large_mirror : mirror demo_large_disk demo_large (MkALog 1 demo_replica_records).
Proof.
  destruct demo_replica_mirror as [Hw _ Hf Hl He]. split; try done.
  - by destruct Hw.
  - apply names_durable_abs, (log_at_abs 1000 demo_replica_records); evaluate.
Qed.

Lemma acknowledged_entries_survive_crash_witness :
  (∃ reply, demo_extended.1 = Ok reply) ∧
  ∃ l σ'', log_open (log_dir (rc_log demo_extended.2.1)) 1000 (power_loss demo_extended.2.2) = (Ok l, σ'')
    ∧ (let! recs := log_read_all l in
       lift (load_entries (snap_index demo_extended.2.1) recs)) σ''
      = (Ok (rc_entries demo_extended.2.1), σ'').
Proof.
  apply (acknowledged_entries_survive_crash ["data"%string] "hard_state" demo_extend 0 0
    demo_large demo_extended.2.1 demo_large_disk demo_extended.2.2 (MkALog 1 demo_replica_records)
    demo_extended.1 (power_loss demo_extended.2.2) 1000).
  - apply (log_at_abs 1000 demo_replica_records); evaluate.
  - apply fs_wf_check; evaluate.
  - apply demo_large_mirror.
  - apply (log_at_abs 1000 demo_replica_records); evaluate.
  - done.
  - split; [|evaluate]. intros n.
    assert (log_dir (rc_log demo_large) = demo_dir) as -> by (vm_compute; reflexivity). done.
  - by split.
  - evaluate.
  - apply (demo_entries_storable [2] 4); evaluate.
  - intros [|k] e Hk; simplify_eq/=; done.
  - evaluate.
  - evaluate.
  - vm_compute. reflexivity.
  - apply power_loss_crash.
  - assert (fs_dnames demo_extended.2.2 = fs_names demo_extended.2.2) as E by (vm_compute; reflexivity).
    apply crash_entries_kept; [apply power_loss_crash|]. intros n. by rw E.
  - apply files_bounded_alt. evaluate.
Defined.
