(* ===== verification/Footprint.v ===== *)
(** * Footprint: which files an operation can reach.

    A node keeps its log, its snapshots and its hard state in three directories.  This file
    shows that each of them is left alone by the operations on the others, whatever system
    call fails: [works d pre m val Q] says that [m] changes entries and files of the directory
    [d] only, provided that the files it is handed ([pre], and those of its state) belong
    there, that the files of the value it returns ([val]) do, and [Q] of that value. *)

From Corelib Require Import ssreflect.
From stdpp Require Import base gmap strings list sorting.
From S2P Require Import Prelude Text Fs AtomicFile Crc Record Segment WalLog Codec MemTable Snapshot RaftState.

Lemma Forall_subset {A} (P : A → Prop) (l l' : list A) : l ⊆ l' → Forall P l' → Forall P l.
Proof. rw !Forall_forall. set_solver. Qed.

Lemma list_fmap_subset {A B} (f : A → B) (l l' : list A) : l ⊆ l' → f <$> l ⊆ f <$> l'.
Proof. intros H x (y & -> & Hy)%list_elem_of_fmap. by apply list_elem_of_fmap_2, H. Qed.

#[export] Hint Resolve list_subseteq_nil : core.

(** ** Directories and files *)

(** All names of a file are in one directory. *)
Definition one_home (σ : fs) : Prop :=
  ∀ p q fd, view_fd σ p fd → view_fd σ q fd → parent p = parent q.
Record tidy (σ : fs) : Prop := { ti_wf : fs_wf σ; ti_home : one_home σ }.

(** The file [fd] has no name outside of [d]. *)
Definition homed (d : path) (σ : fs) (fd : nat) : Prop := ∀ p, view_fd σ p fd → in_dir d p.

(** Nothing outside of [d] has changed. *)
Record confined (d : path) (σ σ' : fs) : Prop := {
  cf_names p : ¬ in_dir d p → fs_names σ' !! p = fs_names σ !! p;
  cf_dnames p : ¬ in_dir d p → fs_dnames σ' !! p = fs_dnames σ !! p;
  cf_files p fd : ¬ in_dir d p → view_fd σ p fd → fs_inodes σ' !! fd = fs_inodes σ !! fd;
  cf_dirs : fs_dirs σ ⊆ fs_dirs σ'
}.

#[global] Instance confined_preorder d : PreOrder (confined d).
Proof.
  split; [by intros σ|]. intros σ1 σ2 σ3 [N1 D1 F1 S1] [N2 D2 F2 S2].
  split; [by intros p Hp; rw N2 // N1|by intros p Hp; rw D2 // D1| |by etrans].
  intros p fd Hp Hv. rw (F2 p fd Hp) ?(F1 p fd Hp) //. by rw /view_fd N1 // D1.
Qed.

Lemma confined_view d σ σ' p fd : confined d σ σ' → ¬ in_dir d p → view_fd σ' p fd ↔ view_fd σ p fd.
Proof. intros [N D _ _] Hp. by rw /view_fd N // D. Qed.

Lemma homed_confined d σ σ' fd : confined d σ σ' → homed d σ fd → homed d σ' fd.
Proof.
  intros C H p Hv. destruct (decide (in_dir d p)) as [|Hp]; [done|]. by apply H, (confined_view _ _ _ _ _ C Hp).
Qed.
Lemma homed_confined_all d σ σ' fds :
  confined d σ σ' → Forall (homed d σ) fds → Forall (homed d σ') fds.
Proof. intros C H. eapply Forall_impl; [exact H|]. intros fd. by apply homed_confined. Qed.

Lemma homed_view d σ p fd : one_home σ → in_dir d p → view_fd σ p fd → homed d σ fd.
Proof. intros H Hp Hv q Hq. rw /in_dir (H q p fd Hq Hv). exact Hp. Qed.

Lemma homed_fresh d σ fd : fs_wf σ → (fs_next σ ≤ fd)%nat → homed d σ fd.
Proof.
  intros Hwf Hfd p Hv. assert (is_Some (fs_inodes σ !! fd)) as Hi.
  { destruct Hv; [by eapply wf_names|by eapply wf_dnames]. }
  apply (wf_fresh _ Hwf) in Hi. lia.
Qed.

(** A reboot keeps files where they are. *)
Lemma crash_view σ σc p fd : crash σ σc → view_fd σc p fd → view_fd σ p fd.
Proof.
  intros Hcr. rw /view_fd (crash_dnames _ _ Hcr).
  destruct (crash_names _ _ Hcr p) as [-> | ->]; tauto.
Qed.

Lemma crash_tidy σ σc : crash σ σc → tidy σ → tidy σc.
Proof.
  intros Hcr [Hwf Ho]. split; [|by intros p q fd Hp%(crash_view σ) Hq%(crash_view σ); eauto].
  assert (∀ p fd, view_fd σc p fd → is_Some (fs_inodes σc !! fd)) as Hv.
  { intros p fd Hv. apply (crash_is_Some _ _ _ Hcr).
    destruct (crash_view _ _ _ _ Hcr Hv); [by eapply wf_names|by eapply wf_dnames]. }
  split; [by intros p fd Hp; apply (Hv p); left|by intros p fd Hp; apply (Hv p); right|].
  intros fd Hi. rw (crash_next _ _ Hcr). by apply (wf_fresh _ Hwf), (crash_is_Some _ _ _ Hcr).
Qed.

(** ** Changes of the state *)

Lemma set_sched_tidy s σ : tidy σ → tidy (set_sched s σ).
Proof. by intros [[] ?]. Qed.
Lemma set_sched_confined d s σ : confined d σ (set_sched s σ).
Proof. done. Qed.

(** A file is written, cut or synced. *)
Lemma alter_inode_footprint d f fd σ :
  tidy σ → homed d σ fd →
  tidy (set_inodes (alter f fd) σ) ∧ confined d σ (set_inodes (alter f fd) σ).
Proof.
  intros [Hwf Ho] Hh. split; [split; [by apply set_inodes_alter_wf|exact Ho]|].
  split; try done. intros p fd' Hp Hv. simpl. rw lookup_alter_ne //. intros ->. by apply Hp, Hh.
Qed.

(** Entries of [d] change; the files they now have already belong there. *)
Lemma set_names_footprint (d : path) (f : gmap path nat → gmap path nat) σ :
  tidy σ → (∀ p fd, f (fs_names σ) !! p = Some fd → fs_names σ !! p = Some fd
            ∨ in_dir d p ∧ homed d σ fd ∧ is_Some (fs_inodes σ !! fd)) →
  (∀ p, ¬ in_dir d p → f (fs_names σ) !! p = fs_names σ !! p) →
  tidy (set_names f σ) ∧ confined d σ (set_names f σ).
Proof.
  intros [Hwf Ho] Hf Hout. split; [|by split].
  assert (∀ p fd, view_fd (set_names f σ) p fd → view_fd σ p fd ∨ in_dir d p ∧ homed d σ fd) as Hv.
  { intros p fd [Hp|Hp]; [|by left; right]. destruct (Hf p fd Hp) as [?|(? & ? & _)]; [by left; left|by right]. }
  split.
  - apply set_names_wf; [done|]. intros p fd Hp.
    destruct (Hf p fd Hp) as [?|(_ & _ & ?)]; [by eapply wf_names|done].
  - intros p q fd Hp%Hv Hq%Hv. destruct Hp as [Hp|[Hp Hh]], Hq as [Hq|[Hq Hh']].
    + by eapply Ho.
    + rw (Hh' p Hp) Hq //.
    + rw Hp (Hh q Hq) //.
    + by rw Hp Hq.
Qed.

Lemma add_file_footprint d p σ :
  tidy σ → in_dir d p → tidy (add_file p σ) ∧ confined d σ (add_file p σ) ∧ homed d (add_file p σ) (fs_next σ).
Proof.
  intros [Hwf Ho] Hp. pose proof (λ fd, homed_fresh d σ fd Hwf) as Hfr.
  assert (∀ q fd, view_fd (add_file p σ) q fd → q = p ∧ fd = fs_next σ ∨ view_fd σ q fd) as Hv.
  { intros q fd [Hq|Hq]; [|by right; right]. move: Hq. rw /= lookup_insert.
    case_decide; [by intros [= <-]; left|by right; left]. }
  assert (∀ q fd, view_fd σ q fd → fd ≠ fs_next σ) as Hne.
  { intros q fd Hq ->. assert (is_Some (fs_inodes σ !! fs_next σ)) as Hi.
    { destruct Hq; [by eapply wf_names|by eapply wf_dnames]. }
    apply (wf_fresh _ Hwf) in Hi. lia. }
  split_and!.
  - split; [by apply add_file_wf|]. intros q q' fd Hq%Hv Hq'%Hv.
    destruct Hq as [[-> ->]|Hq], Hq' as [[-> ?]|Hq']; [done| | |by eapply Ho].
    + by apply Hne in Hq'.
    + by apply Hne in Hq.
  - split; try done.
    + intros q Hq. rw /= lookup_insert_ne //. by intros ->.
    + intros q fd Hq Hx. rw /= lookup_insert_ne //. apply not_eq_sym. by eapply Hne.
  - intros q Hq%Hv. destruct Hq as [[-> _]|Hq]; [done|]. by apply Hne in Hq.
Qed.

(** ** Footprints of computations *)

Section works.
Context {T : Type} (disk : T → fs) (own : T → list nat) (I : T → Prop).

(** [own] are the files that the state has open, [I] an invariant of it. *)
Definition works {A} (d : path) (pre : list nat) (m : M T A) (val : A → list nat) (Q : A → Prop) : Prop :=
  ∀ t, tidy (disk t) → Forall (homed d (disk t)) (pre ++ own t) → I t →
  let '(r, t') := m t in
  tidy (disk t') ∧ confined d (disk t) (disk t') ∧ Forall (homed d (disk t')) (own t') ∧ I t'
  ∧ match r with Ok a => Forall (homed d (disk t')) (val a) ∧ Q a | _ => True end.

Lemma works_ret {A} d pre (a : A) val (Q : A → Prop) : val a ⊆ pre → Q a → works d pre (ret a) val Q.
Proof.
  intros Hv HQ t Ht Hh HI. apply Forall_app in Hh as [Hp Ho]. split_and!; try done.
  by eapply Forall_subset.
Qed.

Lemma works_weaken {A} d pre pre' (m : M T A) val val' (Q Q' : A → Prop) :
  works d pre m val Q → pre ⊆ pre' → (∀ a, val' a ⊆ val a) → (∀ a, Q a → Q' a) → works d pre' m val' Q'.
Proof.
  intros Hm Hp Hv HQ t Ht Hh HI. assert (Forall (homed d (disk t)) (pre ++ own t)) as Hh'.
  { eapply Forall_subset; [|exact Hh]. intros fd. rw !elem_of_app. set_solver. }
  specialize (Hm t Ht Hh' HI). destruct (m t) as [r t']. destruct Hm as (? & ? & ? & ? & Hr).
  split_and!; try done. destruct r as [a| |]; [|done..]. destruct Hr as [Hr ?].
  split; [|by apply HQ]. eapply Forall_subset; [apply Hv|exact Hr].
Qed.

Lemma works_bind {A B} d pre (m : M T A) val Q (k : A → M T B) val' Q' :
  works d pre m val Q → (∀ a, Q a → works d (val a ++ pre) (k a) val' Q') →
  works d pre (bind m k) val' Q'.
Proof.
  intros Hm Hk t Ht Hh HI. specialize (Hm t Ht Hh HI). rw /bind. destruct (m t) as [r t1].
  destruct Hm as (Ht1 & C1 & Ho1 & HI1 & Hr). destruct r as [a|e|]; [|done..]. destruct Hr as [Hr HQ].
  assert (Forall (homed d (disk t1)) ((val a ++ pre) ++ own t1)) as Hh1.
  { apply Forall_app in Hh as [Hh _]. rw !Forall_app. split_and!; [done|by eapply homed_confined_all|done]. }
  specialize (Hk a HQ t1 Ht1 Hh1 HI1). destruct (k a t1) as [r2 t2]. destruct Hk as (? & C2 & ? & ? & ?).
  split_and!; try done. by etrans.
Qed.

(** When nothing is to be known of the value. *)
Lemma works_seq {A B} d pre (m : M T A) (k : A → M T B) val' Q' :
  works d pre m (λ _, []) (λ _, True) → (∀ a, works d pre (k a) val' Q') → works d pre (bind m k) val' Q'.
Proof. intros Hm Hk. eapply works_bind; [exact Hm|]. intros a _. apply Hk. Qed.

(** Looking at the state and stopping. *)
Lemma works_lift {A} d pre (o : outcome A) : works d pre (lift o) (λ _, []) (λ _, True).
Proof. intros t Ht Hh. apply Forall_app in Hh as [_ Ho]. rw /lift. by destruct o. Qed.
Lemma works_throw {A} d pre e val Q : works (A := A) d pre (throw e) val Q.
Proof. intros t Ht Hh. by apply Forall_app in Hh as [_ Ho]. Qed.
Lemma works_gets {A} d pre (f : T → A) val (Q : A → Prop) :
  (∀ t, I t → val (f t) ⊆ own t ∧ Q (f t)) → works d pre (gets f) val Q.
Proof.
  intros Hf t Ht Hh HI. apply Forall_app in Hh as [_ Ho]. destruct (Hf t HI).
  split_and!; try done. by eapply Forall_subset.
Qed.
Lemma works_unwrap {A} d pre (o : option A) val (Q : A → Prop) :
  (∀ a, o = Some a → val a ⊆ pre ∧ Q a) → works d pre (unwrap o) val Q.
Proof.
  intros Ho t Ht Hh HI. apply Forall_app in Hh as [Hp Hh]. destruct o as [a|]; [|done].
  destruct (Ho a eq_refl). split_and!; try done. by eapply Forall_subset.
Qed.

(** Changes of the state that leave the disk alone and take no files but known ones. *)
Lemma works_modify d pre (f : T → T) :
  (∀ t, I t → disk (f t) = disk t ∧ own (f t) ⊆ pre ++ own t ∧ I (f t)) →
  works d pre (modify f) (λ _, []) (λ _, True).
Proof.
  intros Hf t Ht Hh HI. destruct (Hf t HI) as (Hd & Ho & HI'). rw /modify Hd. split_and!; try done.
  eapply Forall_subset; [exact Ho|exact Hh].
Qed.

Lemma works_for_each {X} d pre (f : X → M T unit) l :
  Forall (λ x, works d pre (f x) (λ _, []) (λ _, True)) l → works d pre (for_each f l) (λ _, []) (λ _, True).
Proof.
  induction 1 as [|x l Hx _ IH]; simpl; [apply works_ret; [apply list_subseteq_nil|done]|].
  eapply works_bind; [exact Hx|]. intros [] _. exact IH.
Qed.

Lemma works_ignore {A} d pre (m : M T A) val Q :
  works d pre m val Q → works d pre (ignore m) (λ _, []) (λ _, True).
Proof.
  intros Hm t Ht Hh HI. specialize (Hm t Ht Hh HI). rw /ignore.
  destruct (m t) as [[a|e|] t']; destruct Hm as (? & ? & ? & ? & _); by split_and!.
Qed.

End works.

(** Computations on the file system. *)
Abbreviation fs_works := (works id (λ _, []) (λ _, True)).

(** ** System calls *)

Lemma works_syscall {A} d pre partial (m : M fs A) val Q :
  (∀ k σ, tidy σ → Forall (homed d σ) pre → tidy (partial k σ) ∧ confined d σ (partial k σ)) →
  fs_works d pre m val Q → fs_works d pre (syscall partial m) val Q.
Proof.
  intros Hp Hm σ Ht Hh _. rw app_nil_r /= in Ht Hh.
  destruct (syscall_cases partial m σ) as [(k & s & ->)|[s ->]].
  - destruct (Hp k (set_sched s σ) (set_sched_tidy s σ Ht) Hh) as [? [? ? ? ?]]. by split_and!.
  - specialize (Hm (set_sched s σ) (set_sched_tidy s σ Ht)). rw app_nil_r in Hm. specialize (Hm Hh Logic.I).
    destruct (m (set_sched s σ)) as [r σ']. destruct Hm as (? & [? ? ? ?] & ? & ? & ?). by split_and!.
Qed.

(** A call that does nothing when it fails. *)
Lemma works_call {A} d pre (m : M fs A) val Q :
  fs_works d pre m val Q → fs_works d pre (syscall no_effect m) val Q.
Proof. by apply works_syscall. Qed.

(** The state in which a call leaves the disk, and what it returns. *)
Ltac call_footprint :=
  apply works_call; intros σ Ht Hh _; rw app_nil_r /= in Ht Hh;
  cbn [id] in *; try (progress (rw /gets /modify); cbn [fst snd]).

Lemma works_create_dir_all d d' pre : fs_works d pre (create_dir_all d') (λ _, []) (λ _, True).
Proof.
  call_footprint. split_and!; [by destruct Ht as [[] ?]| |done..]. split; try done. simpl. set_solver.
Qed.
Lemma works_dir_exists d d' pre : fs_works d pre (dir_exists d') (λ _, []) (λ _, True).
Proof. by apply works_gets. Qed.
Lemma works_read_dir d d' pre : fs_works d pre (read_dir d') (λ _, []) (λ _, True).
Proof. call_footprint. by case_bool_decide. Qed.
Lemma works_metadata_len d fd pre : fs_works d pre (metadata_len fd) (λ _, []) (λ _, True).
Proof. by call_footprint. Qed.
Lemma works_read_file d fd pre : fs_works d pre (read_file fd) (λ _, []) (λ _, True).
Proof. by call_footprint. Qed.
Lemma works_seek_end d fd pre : fs_works d pre (seek_end fd) (λ _, []) (λ _, True).
Proof. by call_footprint. Qed.

Lemma works_open_existing d p pre : in_dir d p → fs_works d pre (open_existing p) (λ fd, [fd]) (λ _, True).
Proof.
  intros Hp. call_footprint. destruct (fs_names σ !! p) as [fd|] eqn:E; [|done].
  split_and!; try done. constructor; [|done]. apply (homed_view d σ p); [apply Ht|done|by left].
Qed.

Lemma works_open_create_new d p pre : in_dir d p → fs_works d pre (open_create_new p) (λ fd, [fd]) (λ _, True).
Proof.
  intros Hp. call_footprint. destruct (parent_exists p σ); [|done].
  destruct (fs_names σ !! p) as [fd|] eqn:E; [done|].
  destruct (add_file_footprint d p σ Ht Hp) as (? & ? & ?). split_and!; try done. by constructor.
Qed.

Lemma works_open_truncate d p pre : in_dir d p → fs_works d pre (open_truncate p) (λ fd, [fd]) (λ _, True).
Proof.
  intros Hp. call_footprint. destruct (parent_exists p σ); [|done].
  destruct (fs_names σ !! p) as [fd|] eqn:E.
  - assert (homed d σ fd) as Hfd by (apply (homed_view d σ p); [apply Ht|done|by left]).
    destruct (alter_inode_footprint d (set_data (λ _, [])) fd σ Ht Hfd) as [? C].
    split_and!; try done. constructor; [|done]. by eapply homed_confined.
  - destruct (add_file_footprint d p σ Ht Hp) as (? & ? & ?). split_and!; try done. by constructor.
Qed.

Lemma works_alter d f fd pre : fd ∈ pre →
  fs_works d pre (modify (set_inodes (alter f fd))) (λ _, []) (λ _, True).
Proof.
  intros Hfd σ Ht Hh _. rw app_nil_r /= in Ht Hh. rw /modify.
  destruct (alter_inode_footprint d f fd σ Ht) as [? C]; [by eapply Forall_forall in Hh|]. done.
Qed.

Lemma works_set_len d fd n pre : fd ∈ pre → fs_works d pre (set_len fd n) (λ _, []) (λ _, True).
Proof. intros Hfd. by apply works_call, works_alter. Qed.
Lemma works_sync_all d fd pre : fd ∈ pre → fs_works d pre (sync_all fd) (λ _, []) (λ _, True).
Proof. intros Hfd. by apply works_call, works_alter. Qed.
Lemma works_file_write d fd bs pre : fd ∈ pre → fs_works d pre (file_write fd bs) (λ _, []) (λ _, True).
Proof.
  intros Hfd. apply works_syscall; [|by apply works_alter]. intros k σ Ht Hh.
  apply alter_inode_footprint; [done|]. by eapply Forall_forall in Hh.
Qed.

Lemma works_remove_file d p pre : in_dir d p → fs_works d pre (remove_file p) (λ _, []) (λ _, True).
Proof.
  intros Hp. call_footprint. destruct (fs_names σ !! p) as [fd|] eqn:E; [|done].
  destruct (set_names_footprint d (delete p) σ Ht) as [? ?]; [| |done].
  - intros q fd' [_ Hq]%lookup_delete_Some. by left.
  - intros q Hq. rw lookup_delete_ne //. by intros ->.
Qed.

Lemma works_rename d a b pre : in_dir d a → in_dir d b → fs_works d pre (rename a b) (λ _, []) (λ _, True).
Proof.
  intros Ha Hb. call_footprint. destruct (fs_names σ !! a) as [fd|] eqn:E; [|done].
  destruct (set_names_footprint d (λ ns, <[b := fd]> (delete a ns)) σ Ht) as [? ?]; [| |done].
  - intros q fd'. rw lookup_insert. case_decide as Hq; [intros [= <-]; right; subst q|].
    + split_and!; [done| |by eapply wf_names; [apply Ht|]]. by apply (homed_view d σ a); [apply Ht|done|left].
    + intros [_ ?]%lookup_delete_Some. by left.
  - intros q Hq. rw lookup_insert_ne; [by intros ->|]. rw lookup_delete_ne //. by intros ->.
Qed.

Lemma works_sync_dir d pre : fs_works d pre (sync_dir d) (λ _, []) (λ _, True).
Proof.
  call_footprint. case_bool_decide; [|done].
  assert (∀ p fd, synced_names d (fs_names σ) (fs_dnames σ) !! p = Some fd → view_fd σ p fd) as Hv.
  { intros p fd. rw /synced_names lookup_union_Some_raw !map_lookup_filter_Some. rw /view_fd. tauto. }
  destruct Ht as [Hwf Ho]. split_and!; [|split; try done|done..].
  - split; [|by intros p q fd Hp Hq; apply (Ho p q fd); [destruct Hp as [|?%Hv]|destruct Hq as [|?%Hv]]; try by left].
    destruct Hwf as [W1 W2 W3]. split; [done| |done]. intros p fd Hp%Hv. destruct Hp; eauto.
  - intros p Hp. simpl. destruct (fs_dnames σ !! p) as [fd|] eqn:E.
    + apply lookup_union_Some_raw. right. split; [|by apply map_lookup_filter_Some].
      apply map_lookup_filter_None. right. by intros fd' _ ?.
    + apply lookup_union_None. split; apply map_lookup_filter_None; [right|by left]. by intros fd' _ ?.
Qed.

Create HintDb footprint.
#[export] Hint Resolve works_create_dir_all works_dir_exists works_read_dir works_metadata_len
  works_read_file works_seek_end works_open_existing works_open_create_new works_open_truncate
  works_set_len works_sync_all works_file_write works_remove_file works_rename works_sync_dir
  works_lift works_throw works_gets works_unwrap : footprint.

(** ** The writers of snapshots and of the hard state *)

(** One step of a computation whose footprint the database knows. *)
Ltac step_footprint :=
  eapply works_bind; [solve [eauto with footprint]|]; intros ? _; cbn [app].

Lemma works_publish d tmp final bs pre :
  in_dir d tmp → in_dir d final → fs_works d pre (publish tmp final d bs) (λ _, []) (λ _, True).
Proof.
  intros Ht Hf. rw /publish /replace_file. apply works_seq; [|intros _; apply works_sync_dir].
  step_footprint. apply works_seq; [apply works_file_write; set_solver|intros _].
  apply works_seq; [apply works_sync_all; set_solver|intros _]. by apply works_rename.
Qed.

Lemma works_hard_persist `{Bincode HardState} d n hs pre :
  fs_works d pre (hard_persist (join d n) hs) (λ _, []) (λ _, True).
Proof.
  rw /hard_persist parent_join. step_footprint. step_footprint.
  assert (in_dir d (tmp_path (join d n))) as Ht by (rw tmp_path_join; apply parent_join).
  pose proof (works_publish d (tmp_path (join d n)) (join d n) a0 pre Ht (parent_join d n)) as Hp.
  exact Hp.
Qed.

Lemma works_discover d pre :
  fs_works d pre (discover d) (λ _, []) (λ found, Forall (λ x, in_dir d x.2) found).
Proof.
  rw /discover. step_footprint. destruct a; [|by apply works_ret; [apply list_subseteq_nil|]].
  step_footprint. apply works_ret; [apply list_subseteq_nil|].
  apply Forall_forall. intros [i p] (n & _ & E)%list_elem_of_omap.
  destruct (snapshot_of_name n); simplify_eq/=. apply parent_join.
Qed.

Lemma works_snapshot_write `{Bincode SnapshotFile} d meta table pre :
  fs_works d pre (snapshot_write d meta table) (λ _, []) (λ _, True).
Proof.
  rw /snapshot_write. step_footprint. step_footprint.
  assert (∀ i, in_dir d (with_extension (snapshot_path d i) "tmp")) as Ht.
  { intros i. rw tmp_name. apply parent_join. }
  apply works_seq; [apply works_publish; [apply Ht|apply parent_join]|intros _].
  eapply works_bind; [apply works_discover|intros found Hf].
  apply works_seq; [|intros _; by apply works_ret; [apply list_subseteq_nil|]].
  apply works_for_each. eapply Forall_impl; [exact Hf|]. intros [i p] Hp. simpl in Hp.
  destruct (i =? _); [by apply works_ret; [apply list_subseteq_nil|]|].
  eapply works_ignore, works_remove_file, Hp.
Qed.

(** ** Segments *)

(** A segment of a log in [d]. *)
Definition seg_in (d : path) (s : Segment) : Prop := in_dir d (seg_path s).

Abbreviation seg_works d := (works snd (λ t, [seg_file t.1]) (λ t, seg_in d t.1) d).
Abbreviation bw_works d := (works snd (λ t, [bw_file t.1]) (λ _, True) d).

Lemma grows_footprint d fd σ σ' : tidy σ → homed d σ fd → grows fd σ σ' → tidy σ' ∧ confined d σ σ'.
Proof.
  intros Ht Hh (out & s & ->). destruct (alter_inode_footprint d (set_data (λ x, x ++ out)) fd σ Ht Hh) as [T1 [? ? ? ?]].
  split; [by apply (set_sched_tidy s) in T1|by split].
Qed.

Lemma works_writer {A} d pre (m : M (BufWriter * fs) A) :
  writer_op m → bw_works d pre m (λ _, []) (λ _, True).
Proof.
  intros Hm [w σ] Ht Hh _. apply Forall_app in Hh as [Hp Hw]. simpl in *.
  apply Forall_cons in Hw as [Hw _]. destruct (Hm w σ) as [Hf Hg].
  destruct (m (w, σ)) as [r [w' σ']]. simpl in *.
  destruct (grows_footprint d _ _ _ Ht Hw Hg) as [? C].
  split_and!; [done|done| |done|by destruct r]. constructor; [|done]. rw Hf. by eapply homed_confined.
Qed.

Lemma works_on_writer {A} d pre (m : M (BufWriter * fs) A) :
  writer_op m → seg_works d pre (on_writer m) (λ _, []) (λ _, True).
Proof.
  intros Hm [s σ] Ht Hh HI. pose proof (works_writer d pre m Hm (seg_writer s, σ) Ht Hh Logic.I) as W.
  rw /on_writer /zoom. destruct (m (seg_writer s, σ)) as [r [w' σ']].
  destruct W as (? & ? & ? & _ & ?). by split_and!.
Qed.

(** A computation on the file system next to the state. *)
Lemma works_on_fs {S A} (own : S → list nat) (I : S → Prop) d pre (m : M fs A) val Q :
  fs_works d pre m val Q →
  works snd (λ t, own t.1) (λ t, I t.1) d pre (on_fs m) val Q.
Proof.
  intros Hm [s σ] Ht Hh HI. apply Forall_app in Hh as [Hp Ho].
  pose proof (Hm σ Ht ltac:(by rw app_nil_r) Logic.I) as W. rw /on_fs /zoom. simpl in *.
  destruct (m σ) as [r σ']. destruct W as (? & ? & _ & _ & ?). split_and!; try done.
  by eapply homed_confined_all.
Qed.

Section log_works.
Context `{Crc32}.

Lemma works_segment_create d p base pre :
  in_dir d p → fs_works d pre (segment_create p base) (λ s, [seg_file s]) (seg_in d).
Proof.
  intros Hp. rw /segment_create. eapply works_bind; [by apply works_open_create_new|intros fd _].
  by apply works_ret; [set_solver|].
Qed.

Lemma works_segment_append d payload pre :
  seg_works d pre (segment_append payload) (λ _, []) (λ _, True).
Proof.
  apply works_seq; [apply works_on_writer, write_record_op|intros w]. apply works_modify.
  intros [s σ] HI. split_and!; [done|set_solver|done].
Qed.

Lemma works_segment_sync d pre : seg_works d pre segment_sync (λ _, []) (λ _, True).
Proof.
  apply works_seq; [apply works_on_writer, bw_flush_buf_op|intros _].
  apply (works_bind _ _ _ _ _ _ (λ fd, [fd]) (λ _, True)).
  - by apply works_gets.
  - intros fd _. apply (works_on_fs (λ s, [seg_file s])), works_sync_all. set_solver.
Qed.

Lemma works_segment_iter d s pre : seg_in d s → fs_works d pre (segment_iter s) (λ _, []) (λ _, True).
Proof.
  intros Hs. rw /segment_iter. eapply works_bind; [by apply works_open_existing|intros fd _].
  apply works_seq; [apply works_read_file|intros bs]. by apply works_ret; [apply list_subseteq_nil|].
Qed.

Lemma bw_drop_footprint d w σ : tidy σ → homed d σ (bw_file w) → tidy (bw_drop w σ) ∧ confined d σ (bw_drop w σ).
Proof. intros Ht Hw. destruct (bw_flush_buf_op w σ) as [_ Hg]. by eapply grows_footprint. Qed.

Lemma works_segment_remove d s pre :
  seg_in d s → seg_file s ∈ pre → fs_works d pre (segment_remove s) (λ _, []) (λ _, True).
Proof.
  intros Hs Hin σ Ht Hh _. pose proof (works_remove_file d (seg_path s) pre Hs σ Ht Hh Logic.I) as W.
  rw /segment_remove. destruct (remove_file (seg_path s) σ) as [r σ1]. destruct W as (T1 & C1 & _ & _ & _).
  rw app_nil_r in Hh. assert (homed d σ1 (seg_file s)) as Hf.
  { eapply homed_confined; [exact C1|]. by eapply Forall_forall in Hh. }
  destruct (bw_drop_footprint d (seg_writer s) σ1 T1 Hf) as [T2 C2].
  split_and!; [done|by etrans|done|done|by destruct r].
Qed.

(** ** The log *)

(** A log in [d]; the files it has open. *)
Definition log_in (d : path) (l : Log) : Prop := log_dir l = d ∧ Forall (seg_in d) (log_segments l).
Definition log_files (l : Log) : list nat := seg_file <$> log_segments l.

Abbreviation log_works d := (works snd (λ t, log_files t.1) (λ t, log_in d t.1) d).

Lemma works_on_active {A} d pre (m : M (Segment * fs) A) :
  seg_works d pre m (λ _, []) (λ _, True) → log_works d pre (on_active m) (λ _, []) (λ _, True).
Proof.
  intros Hm [l σ] Ht Hh [Hd Hs]. rw /on_active /vec_pop. simpl in *.
  destruct (last (log_segments l)) as [s|] eqn:El; [|by apply Forall_app in Hh as [? ?]].
  apply last_Some in El as [init El]. rw El removelast_last. rw /log_files El fmap_app in Hh.
  rw El in Hs. apply Forall_app in Hs as [Hi Hs]. apply Forall_cons in Hs as [Hs _].
  rw app_assoc in Hh. apply Forall_app in Hh as [Hh Ha]. apply Forall_app in Hh as [Hp Hh].
  specialize (Hm (s, σ) Ht ltac:(by apply Forall_app) Hs). destruct (m (s, σ)) as [r [s' σ']]. simpl in *.
  destruct Hm as (T & C & Ho & HI & _). split_and!; [done|done| |split; [done|]|by destruct r].
  - rw /log_files /= fmap_app. apply Forall_app. split; [by eapply homed_confined_all|done].
  - simpl. apply Forall_app. by split; [|constructor].
Qed.

Lemma segment_path_in d base : in_dir d (segment_path d base).
Proof. apply parent_join. Qed.

(** Looking at the log. *)
Lemma works_log_state d pre : log_works d pre (gets fst) log_files (log_in d).
Proof. by apply works_gets. Qed.

Lemma log_segment_in d l s : log_in d l → s ∈ log_segments l → seg_in d s ∧ seg_file s ∈ log_files l.
Proof. intros [_ Hs] Hin. split; [by eapply Forall_forall in Hs|by apply list_elem_of_fmap_2]. Qed.

Lemma works_log_rotate d pre : log_works d pre log_rotate (λ _, []) (λ _, True).
Proof.
  eapply works_bind; [apply works_log_state|intros l HI].
  apply (works_bind _ _ _ _ _ _ (λ _, []) (λ _, True)); [by apply works_unwrap|]. intros s _.
  destruct (_ && _); [|by apply works_ret; [apply list_subseteq_nil|]].
  apply (works_bind _ _ _ _ _ _ (λ s, [seg_file s]) (seg_in d)).
  - apply (works_on_fs log_files), works_segment_create. rw (proj1 HI). apply segment_path_in.
  - intros fresh Hf. apply works_modify. intros [l1 σ] [Hd Hs]. split_and!; [done| |split; [done|]].
    + rw /log_files /= fmap_app. set_solver.
    + simpl. apply Forall_app. by split; [|constructor].
Qed.

Lemma works_log_append d payload pre : log_works d pre (log_append payload) (λ _, []) (λ _, True).
Proof.
  apply works_seq; [apply works_log_rotate|intros _].
  apply works_seq; [apply works_on_active, works_segment_append|intros _].
  apply works_seq; [|intros _; by apply works_gets].
  apply works_modify. intros [l σ] [Hd Hs]. split_and!; [done|set_solver|by split].
Qed.

Lemma sync_segments_footprint d segs σ :
  tidy σ → Forall (seg_in d) segs → Forall (homed d σ) (seg_file <$> segs) →
  let '(r, (segs', σ')) := sync_segments segs σ in
  tidy σ' ∧ confined d σ σ' ∧ Forall (seg_in d) segs' ∧ Forall (homed d σ') (seg_file <$> segs').
Proof.
  revert σ. induction segs as [|s segs IH]; intros σ Ht Hs Hh; [done|]. simpl in *.
  apply Forall_cons in Hs as [Hs Hss]. apply Forall_cons in Hh as [Hh Hhs].
  pose proof (works_segment_sync d [] (s, σ) Ht ltac:(by constructor) Hs) as W.
  destruct (segment_sync (s, σ)) as [r [s' σ1]]. destruct W as (T1 & C1 & Ho & HI & _). simpl in *.
  apply Forall_cons in Ho as [Ho _].
  assert (Forall (homed d σ1) (seg_file <$> segs)) as Hhs1 by by eapply homed_confined_all.
  destruct r as [[]| |]; [|by split_and!; [done|done|constructor|constructor]..].
  specialize (IH σ1 T1 Hss Hhs1). destruct (sync_segments segs σ1) as [r [segs' σ2]].
  destruct IH as (T2 & C2 & ? & ?). split_and!; [done|by etrans|by constructor|].
  constructor; [|done]. by eapply homed_confined.
Qed.

Lemma works_log_sync d pre : log_works d pre log_sync (λ _, []) (λ _, True).
Proof.
  intros [l σ] Ht Hh [Hd Hs]. apply Forall_app in Hh as [_ Ho]. simpl in *.
  pose proof (sync_segments_footprint d (log_segments l) σ Ht Hs Ho) as W. rw /log_sync.
  destruct (sync_segments _ σ) as [r [segs σ']]. destruct W as (? & ? & ? & ?).
  split_and!; [done..|by split|by destruct r].
Qed.

(** Both loops that remove segments. *)
Lemma works_remove_segment d s σ :
  tidy σ → seg_in d s → homed d σ (seg_file s) →
  let '(r, σ') := segment_remove s σ in tidy σ' ∧ confined d σ σ'.
Proof.
  intros Ht Hs Hh.
  pose proof (works_segment_remove d s [seg_file s] Hs ltac:(set_solver) σ Ht ltac:(by constructor) Logic.I) as W.
  destruct (segment_remove s σ) as [r σ']. by destruct W as (? & ? & _).
Qed.

Lemma remove_leading_footprint d up_to segs σ :
  tidy σ → Forall (seg_in d) segs → Forall (homed d σ) (seg_file <$> segs) →
  let '(r, (segs', σ')) := remove_leading up_to segs σ in
  tidy σ' ∧ confined d σ σ' ∧ segs' ⊆ segs.
Proof.
  revert σ. induction segs as [|s [|s' segs] IH]; intros σ Ht Hs Hh; [by split_and!..|].
  apply Forall_cons in Hs as [Hs Hss]. rw fmap_cons in Hh. apply Forall_cons in Hh as [Hh Hhs].
  assert (remove_leading up_to (s :: s' :: segs) σ =
    if u64_sub (u64_add (seg_base_index s) (Z.max (seg_count s) 1)) 1 <? up_to then
      let '(r, σ') := segment_remove s σ in
      match r with Ok _ => remove_leading up_to (s' :: segs) σ' | _ => (r, (s' :: segs, σ')) end
    else (Ok tt, (s :: s' :: segs, σ))) as -> by done.
  destruct (_ <? up_to); [|by split_and!].
  pose proof (works_remove_segment d s σ Ht Hs Hh) as W. destruct (segment_remove s σ) as [r σ1].
  destruct W as [T1 C1]. destruct r as [[]| |]; [|by split_and!; [..|apply list_subseteq_cons]..].
  specialize (IH σ1 T1 Hss (homed_confined_all _ _ _ _ C1 Hhs)).
  destruct (remove_leading up_to (s' :: segs) σ1) as [r [segs' σ2]]. destruct IH as (? & ? & ?).
  split_and!; [done|by etrans|]. by apply list_subseteq_cons.
Qed.

Lemma remove_trailing_footprint d keep segs σ :
  tidy σ → Forall (seg_in d) segs → Forall (homed d σ) (seg_file <$> segs) →
  let '(r, (segs', σ')) := remove_trailing keep segs σ in
  tidy σ' ∧ confined d σ σ' ∧ segs' ⊆ segs.
Proof.
  revert σ. induction segs as [|s [|s' segs] IH]; intros σ Ht Hs Hh; [by split_and!..|].
  apply Forall_cons in Hs as [Hs Hss]. rw fmap_cons in Hh. apply Forall_cons in Hh as [Hh Hhs].
  assert (remove_trailing keep (s :: s' :: segs) σ =
    if keep <? seg_base_index s then
      let '(r, σ') := segment_remove s σ in
      match r with Ok _ => remove_trailing keep (s' :: segs) σ' | _ => (r, (s' :: segs, σ')) end
    else (Ok tt, (s :: s' :: segs, σ))) as -> by done.
  destruct (keep <? _); [|by split_and!].
  pose proof (works_remove_segment d s σ Ht Hs Hh) as W. destruct (segment_remove s σ) as [r σ1].
  destruct W as [T1 C1]. destruct r as [[]| |]; [|by split_and!; [..|apply list_subseteq_cons]..].
  specialize (IH σ1 T1 Hss (homed_confined_all _ _ _ _ C1 Hhs)).
  destruct (remove_trailing keep (s' :: segs) σ1) as [r [segs' σ2]]. destruct IH as (? & ? & ?).
  split_and!; [done|by etrans|]. by apply list_subseteq_cons.
Qed.

(** A log that is left with some of its segments. *)
Lemma works_fewer {A} d pre (r : outcome A) (f : list Segment → list Segment) l σ segs σ' :
  Forall (homed d σ) (pre ++ log_files l) → log_in d l →
  tidy σ' → confined d σ σ' → f segs ⊆ log_segments l →
  tidy σ' ∧ confined d σ σ' ∧ Forall (homed d σ') (log_files (set_segments (f segs) l))
  ∧ log_in d (set_segments (f segs) l)
  ∧ match r with Ok _ => Forall (homed d σ') [] ∧ True | _ => True end.
Proof.
  intros Hh [Hd Hs] T C Hsub. apply Forall_app in Hh as [_ Hh]. split_and!; [done|done| |split; [done|]|by destruct r].
  - eapply Forall_subset; [by apply list_fmap_subset|]. by eapply homed_confined_all.
  - by eapply Forall_subset.
Qed.

Lemma works_log_truncate_prefix d up_to pre :
  log_works d pre (log_truncate_prefix up_to) (λ _, []) (λ _, True).
Proof.
  apply works_seq; [|intros _].
  - intros [l σ] Ht Hh HI. simpl in *.
    pose proof (remove_leading_footprint d up_to (log_segments l) σ Ht (proj2 HI)
      (proj2 (proj1 (Forall_app _ _ _) Hh))) as W.
    destruct (remove_leading up_to _ σ) as [r [segs σ']]. destruct W as (? & ? & ?).
    by apply (works_fewer d pre r id l σ segs σ').
  - apply works_seq; [|intros first].
    + eapply works_bind; [apply works_log_state|intros l HI]. by apply works_unwrap.
    + apply works_modify. intros [l σ] [Hd Hs]. split_and!; [done|set_solver|by split].
Qed.

(** The segment that replaces the straddling one. *)
Lemma works_refill d keep pre :
  seg_works d pre (do! for_each segment_append keep then segment_sync) (λ _, []) (λ _, True).
Proof.
  apply works_seq; [|intros _; apply works_segment_sync]. apply works_for_each, Forall_true.
  intros p. apply works_segment_append.
Qed.

Lemma works_rewrite_active d keep pre : log_works d pre (rewrite_active keep) (λ _, []) (λ _, True).
Proof.
  eapply works_bind; [apply works_log_state|intros l HI].
  apply (works_bind _ _ _ _ _ _ (λ s, [seg_file s]) (seg_in d)).
  { apply works_unwrap. intros s Hs%last_Some_elem_of. destruct (log_segment_in d l s HI Hs).
    split; [set_solver|done]. }
  intros seg Hseg. apply works_seq; [by apply (works_on_fs log_files), works_segment_iter|intros it].
  apply works_seq; [apply works_lift|intros ps]. apply works_seq; [|intros _].
  { apply works_modify. intros [l1 σ] [Hd Hs].
    assert (removelast (log_segments l1) ⊆ log_segments l1) as Hsub.
    { destruct (log_segments l1) as [|s segs _] using rev_ind; [done|]. rw removelast_last. set_solver. }
    split_and!; [done| |split; [done|by eapply Forall_subset]].
    intros fd Hfd. apply elem_of_app. right. move: fd Hfd. by apply list_fmap_subset. }
  apply works_seq; [apply (works_on_fs log_files), works_segment_remove; [done|set_solver]|intros _].
  apply (works_bind _ _ _ _ _ _ (λ s, [seg_file s]) (seg_in d)).
  { by apply (works_on_fs log_files), works_segment_create. }
  intros fresh Hf [l1 σ] Ht Hh [Hd Hs]. simpl in *. apply Forall_cons in Hh as [Hh Hl].
  apply Forall_cons in Hl as [_ Hl]. apply Forall_app in Hl as [Hl Hown]. apply Forall_app in Hl as [_ Hpre].
  pose proof (works_refill d ps [] (fresh, σ) Ht ltac:(by constructor) Hf) as W.
  destruct ((do! for_each segment_append ps then segment_sync) (fresh, σ)) as [r [s' σ1]]. simpl in *.
  destruct W as (T1 & C1 & Ho & HI1 & _). apply Forall_cons in Ho as [Ho _].
  destruct r as [[]| |].
  - split_and!; [done|done| |split; [done|]|done|done].
    + rw /log_files /= fmap_app. apply Forall_app. split; [by eapply homed_confined_all|by constructor].
    + simpl. apply Forall_app. by split; [|constructor].
  - destruct (bw_drop_footprint d (seg_writer s') σ1 T1 Ho) as [T2 C2].
    split_and!; [done|by etrans| |done|done]. eapply homed_confined_all; [|exact Hown]. by etrans.
  - destruct (bw_drop_footprint d (seg_writer s') σ1 T1 Ho) as [T2 C2].
    split_and!; [done|by etrans| |done|done]. eapply homed_confined_all; [|exact Hown]. by etrans.
Qed.

Lemma works_log_truncate_suffix d keep pre :
  log_works d pre (log_truncate_suffix keep) (λ _, []) (λ _, True).
Proof.
  eapply works_bind; [apply works_log_state|intros l0 _].
  destruct (_ <=? _); [by apply works_ret|]. destruct (_ <? _); [apply works_throw|].
  apply works_seq; [|intros _; apply works_rewrite_active].
  intros [l σ] Ht Hh HI. simpl in *.
  assert (∀ segs : list Segment, rev segs ⊆ segs) as Hrev.
  { intros segs s. rw !list_elem_of_In. apply in_rev. }
  pose proof (remove_trailing_footprint d keep (rev (log_segments l)) σ Ht) as W.
  destruct (remove_trailing keep _ σ) as [r [segs σ']]. destruct W as (? & ? & Hsub).
  - eapply Forall_subset; [apply Hrev|apply HI].
  - eapply Forall_subset; [apply list_fmap_subset, Hrev|]. by apply Forall_app in Hh as [_ Hh].
  - apply (works_fewer d (log_files l0 ++ pre) r (@rev Segment) l σ segs σ'); try done.
    etrans; [apply Hrev|]. etrans; [exact Hsub|apply Hrev].
Qed.

Lemma works_segment_recover d p base pre :
  in_dir d p → fs_works d pre (segment_recover p base) (λ s, [seg_file s]) (seg_in d).
Proof.
  intros Hp. rw /segment_recover. eapply works_bind; [by apply works_open_existing|intros fd0 _].
  do 2 (apply works_seq; [by eauto with footprint|intros ?]). apply works_seq; [apply works_lift|intros found].
  eapply works_bind; [by apply works_open_existing|intros fd _].
  apply works_seq; [apply works_set_len; set_solver|intros _].
  apply works_seq; [apply works_sync_all; set_solver|intros _].
  apply works_seq; [apply works_seek_end|intros _]. by apply works_ret; [set_solver|].
Qed.

Lemma works_recover_all d bases pre :
  fs_works d pre (recover_all d bases) (λ ss, seg_file <$> ss) (Forall (seg_in d)).
Proof.
  revert pre. induction bases as [|base bases IH]; intros pre; simpl; [by apply works_ret|].
  eapply works_bind; [apply works_segment_recover, segment_path_in|intros s Hs].
  eapply works_bind; [apply IH|intros ss Hss]. apply works_ret; [|by constructor].
  rw fmap_cons. set_solver.
Qed.

(** Opening a log gives one whose files are in its directory. *)
Lemma works_log_open d max pre : fs_works d pre (log_open d max) log_files (log_in d).
Proof.
  rw /log_open. step_footprint. apply works_seq; [|intros bases].
  { rw /discover_segments. apply works_seq; [apply works_read_dir|intros names; apply works_lift]. }
  apply (works_bind _ _ _ _ _ _ (λ ss, seg_file <$> ss) (Forall (seg_in d))).
  - destruct (merge_sort _ _) as [|b bs]; [|apply works_recover_all].
    eapply works_bind; [apply works_segment_create, segment_path_in|intros s Hs].
    apply works_ret; [rw /=; set_solver|by constructor].
  - intros ss Hss. do 2 (apply works_seq; [by apply works_unwrap|intros ?]).
    by apply works_ret; [rw /log_files /=; set_solver|].
Qed.

End log_works.
