(* ===== verification/Task.v ===== *)
(** * Task: asynchronous code.

    An [async fn] of the driver (src/raft/mod.rs) and of the services (src/rpc/service.rs)
    is a sequence of sections, each of which runs while it holds the locks it needs; other
    tasks run in between.  A task is such a sequence, [run] executes one task alone, [pool]
    interleaves several, and [trace] runs one task with arbitrary interference. *)

From Corelib Require Import ssreflect.
From stdpp Require Import base list relations.
From S2P Require Import Prelude.

(** The next section of a task: the message it receives or sends if there is one, the
    condition under which it can get its locks, and what it does. *)
Inductive task (E S A : Type) : Type :=
| Done (r : outcome A)
| Atomic (event : option E) (ready : S → bool) (f : S → task E S A * S).
Arguments Done {E S A} _.
Arguments Atomic {E S A} _ _ _.

Section task.
Context {E S : Type}.

(** [.await] followed by [?]. *)
Fixpoint await {A B} (t : task E S A) (k : A → task E S B) : task E S B :=
  match t with
  | Done (Ok a) => k a
  | Done (Err e) => Done (Err e)
  | Done Panic => Done Panic
  | Atomic event ready f => Atomic event ready (λ s, let '(t', s') := f s in (await t' k, s'))
  end.

(** [let _ = task.await;]. *)
Fixpoint discard {A} (t : task E S A) : task E S unit :=
  match t with
  | Done Panic => Done Panic
  | Done _ => Done (Ok tt)
  | Atomic event ready f => Atomic event ready (λ s, let '(t', s') := f s in (discard t', s'))
  end.

(** One section, which waits for [ready], and one that has a message to do with. *)
Definition section_on {A} (event : option E) (ready : S → bool) (m : M S A) : task E S A :=
  Atomic event ready (λ s, let '(r, s') := m s in (Done r, s')).
Definition section_when {A} (ready : S → bool) (m : M S A) : task E S A := section_on None ready m.
Definition section {A} (m : M S A) : task E S A := section_when (λ _, true) m.

(** ** Running a task alone; [None] if it waits for a lock forever *)
Fixpoint run {A} (t : task E S A) (s : S) : option (outcome A * S) :=
  match t with
  | Done r => Some (r, s)
  | Atomic _ ready f => if ready s then let '(t', s') := f s in run t' s' else None
  end.

(** ** Interleaving *)

(** A pool of tasks; a step runs the next section of one of them. *)
Inductive pool_step {A} : S * list (task E S A) → S * list (task E S A) → Prop :=
| step_section s ts i event ready f t' s' :
    ts !! i = Some (Atomic event ready f) → ready s = true → f s = (t', s') →
    pool_step (s, ts) (s', <[i := t']> ts).

(** The same, following a schedule. *)
Fixpoint pool_run {A} (sched : list nat) (p : S * list (task E S A)) : option (S * list (task E S A)) :=
  match sched with
  | [] => Some p
  | i :: sched =>
      match p.2 !! i with
      | Some (Atomic event ready f) =>
          if ready p.1 then let '(t', s') := f p.1 in pool_run sched (s', <[i := t']> p.2) else None
      | _ => None
      end
  end.

(** A run of one task amid others: the states before and after each of its sections, and
    what is left of it. *)
Inductive trace {A} : task E S A → list (S * S) → task E S A → Prop :=
| trace_nil t : trace t [] t
| trace_cons event ready f s t' s' tr t'' :
    ready s = true → f s = (t', s') → trace t' tr t'' →
    trace (Atomic event ready f) ((s, s') :: tr) t''.

(** ** Equality of tasks

    Two tasks are the same if their sections are, one after the other, and do the same to
    every state. *)
Inductive task_equiv {A} : Equiv (task E S A) :=
| same_done r : Done r ≡ Done r
| same_section event ready f g :
    (∀ s, (f s).1 ≡ (g s).1 ∧ (f s).2 = (g s).2) → Atomic event ready f ≡ Atomic event ready g.
#[global] Existing Instance task_equiv.

(** ** Facts *)

(** Induction over the sections of a task. *)
Lemma task_sections_ind {A} (P : task E S A → Prop) :
  (∀ r, P (Done r)) → (∀ event ready f, (∀ s, P (f s).1) → P (Atomic event ready f)) → ∀ t, P t.
Proof.
  intros HD HA. fix IH 1. intros [r|event ready f]; [apply HD|apply HA].
  intros s. destruct (f s) as [t' s']. apply IH.
Qed.

#[global] Instance task_equivalence {A} : Equivalence (≡@{task E S A}).
Proof.
  split.
  - intros t. induction t as [r|event ready f IH] using task_sections_ind; by constructor.
  - intros t. induction t as [r|event ready f IH] using task_sections_ind; intros t' H; inversion H as [|? ? ? g Hg]; simplify_eq.
    all: constructor. intros s. destruct (Hg s). by split; [apply IH|].
  - intros t. induction t as [r|event ready f IH] using task_sections_ind; intros t1 t2 H; inversion H as [|? ? ? g Hg]; simplify_eq.
    { done. }
    intros H2. inversion H2 as [|? ? ? h Hh]; simplify_eq. constructor. intros s. destruct (Hg s), (Hh s).
    split; [by eapply IH|congruence].
Qed.

(** Equal tasks go through the same states and end alike, alone and amid others. *)
Lemma run_same {A} (t t' : task E S A) s : t ≡ t' → run t s = run t' s.
Proof.
  revert s t'. induction t as [r|event ready f IH] using task_sections_ind; intros s t' H;
    inversion H as [|? ? ? g Hg]; simplify_eq; [done|]. simpl. destruct (ready s); [|done].
  destruct (Hg s) as [Ht Hs]. specialize (IH s (f s).2 _ Ht). destruct (f s), (g s). by simplify_eq/=.
Qed.

Lemma trace_same {A} (t t' u : task E S A) tr : t ≡ t' → trace t tr u → ∃ u', trace t' tr u' ∧ u ≡ u'.
Proof.
  intros H Ht. revert t' H. induction Ht as [t|event ready f s t1 s1 tr u Hr Ef Ht IH]; intros t' H.
  - exists t'. by split; [constructor|].
  - inversion H as [|? ? ? g Hg]; simplify_eq. destruct (Hg s) as [H1 H2]. rw Ef /= in H1, H2.
    destruct (IH _ H1) as (u' & Hu & Hq). exists u'. split; [|done].
    econstructor; [done| |exact Hu]. rw H2. by destruct (g s).
Qed.

Lemma await_same {A B} (t : task E S A) (k k' : A → task E S B) :
  (∀ a, k a ≡ k' a) → await t k ≡ await t k'.
Proof.
  intros Hk. induction t as [[a|e|]|event ready f IH] using task_sections_ind; simpl; [apply Hk|done..|].
  constructor. intros s. specialize (IH s). by destruct (f s).
Qed.

Lemma pool_run_steps {A} sched (p p' : S * list (task E S A)) :
  pool_run sched p = Some p' → rtc pool_step p p'.
Proof.
  revert p. induction sched as [|i sched IH]; intros [s ts] Er0; simplify_eq/=; [done|].
  destruct (ts !! i) as [[|event ready f]|] eqn:Ei; [done| |done].
  destruct (ready s) eqn:Er; [|done]. destruct (f s) as [t' s'] eqn:Ef.
  eapply rtc_l; [by econstructor|]. by apply IH.
Qed.

Lemma run_await {A B} (t : task E S A) (k : A → task E S B) s :
  run (await t k) s =
    match run t s with
    | Some (Ok a, s') => run (k a) s'
    | Some (Err e, s') => Some (Err e, s')
    | Some (Panic, s') => Some (Panic, s')
    | None => None
    end.
Proof.
  revert s. induction t as [[a|e|]|event ready f IH] using task_sections_ind; intros s; simpl; try done.
  destruct (ready s); [|done]. specialize (IH s). destruct (f s) as [t' s']. apply IH.
Qed.

Lemma run_discard {A} (t : task E S A) s :
  run (discard t) s =
    match run t s with
    | Some (Panic, s') => Some (Panic, s')
    | Some (_, s') => Some (Ok tt, s')
    | None => None
    end.
Proof.
  revert s. induction t as [[a|e|]|event ready f IH] using task_sections_ind; intros s; simpl; try done.
  destruct (ready s); [|done]. specialize (IH s). destruct (f s) as [t' s']. apply IH.
Qed.

Lemma run_section_on {A} event ready (m : M S A) s :
  run (section_on event ready m) s = if ready s then Some (m s) else None.
Proof. rw /section_on /=. by destruct (ready s), (m s). Qed.
Lemma run_section_when {A} ready (m : M S A) s :
  run (section_when ready m) s = if ready s then Some (m s) else None.
Proof. by rw /section_when run_section_on. Qed.
Lemma run_section {A} (m : M S A) s : run (section m) s = Some (m s).
Proof. by rw /section run_section_when. Qed.

(** The trace of a task that runs alone for [n] sections. *)
Fixpoint solo {A} (n : nat) (t : task E S A) (s : S) : list (S * S) * task E S A :=
  match n, t with
  | Datatypes.S n, Atomic _ ready f =>
      if ready s then
        let '(t', s') := f s in let '(tr, t'') := solo n t' s' in ((s, s') :: tr, t'')
      else ([], t)
  | _, _ => ([], t)
  end.

Lemma solo_trace {A} n (t : task E S A) s : trace t (solo n t s).1 (solo n t s).2.
Proof.
  revert t s. induction n as [|n IH]; intros t s; [constructor|]. destruct t as [r|event ready f]; [constructor|].
  cbn [solo]. destruct (ready s) eqn:Er; [|constructor]. destruct (f s) as [t' s'] eqn:Ef.
  specialize (IH t' s'). destruct (solo n t' s') as [tr t'']. by econstructor.
Qed.

(** A section at the head of a task. *)
Lemma trace_section_inv {A B} event ready (m : M S A) (k : A → task E S B) tr t' :
  trace (await (section_on event ready m) k) tr t' →
  tr = [] ∨ ∃ s r s' tr', tr = (s, s') :: tr' ∧ m s = (r, s')
    ∧ match r with Ok a => trace (k a) tr' t' | _ => tr' = [] end.
Proof.
  rw /section_on /=. inversion 1 as [|? ? ? s t1 s' tr' ? Hr Ef Ht]; subst; [by left|right].
  destruct (m s) as [r s1] eqn:Em. injection Ef as <- <-. exists s, r, s1, tr'. split_and!; [done..|].
  by destruct r as [a|e|]; [|inversion Ht..].
Qed.

(** ** Invariants of interleavings *)

(** Every section of the task keeps [P], and a result it returns satisfies [Q]. *)
Fixpoint keeps {A} (P : S → Prop) (Q : A → Prop) (t : task E S A) : Prop :=
  match t with
  | Done (Ok a) => Q a
  | Done _ => True
  | Atomic _ _ f => ∀ s, P s → let '(t', s') := f s in P s' ∧ keeps P Q t'
  end.

Lemma keeps_await {A B} P Q R (t : task E S A) (k : A → task E S B) :
  keeps P Q t → (∀ a, Q a → keeps P R (k a)) → keeps P R (await t k).
Proof.
  intros Ht Hk. induction t as [[a|e|]|event ready f IH] using task_sections_ind; simpl; try done; [by apply Hk|].
  intros s Hs. specialize (Ht s Hs). specialize (IH s). destruct (f s) as [t' s'].
  destruct Ht as [Hs' Ht']. split; [done|]. by apply IH.
Qed.

Lemma keeps_discard {A} P Q (t : task E S A) : keeps P Q t → keeps P (λ _, True) (discard t).
Proof.
  intros Ht. induction t as [[a|e|]|event ready f IH] using task_sections_ind; simpl; try done.
  intros s Hs. specialize (Ht s Hs). specialize (IH s). destruct (f s) as [t' s'].
  destruct Ht as [Hs' Ht']. split; [done|]. by apply IH.
Qed.

Lemma keeps_section {A} (P : S → Prop) (Q : A → Prop) event ready (m : M S A) :
  (∀ s, P s → P (m s).2 ∧ ∀ a, (m s).1 = Ok a → Q a) → keeps P Q (section_on event ready m).
Proof.
  intros Hm s Hs. specialize (Hm s Hs). destruct (m s) as [[a|e|] s']; simpl in *; naive_solver.
Qed.

Lemma pool_keeps {A} P (Q : A → Prop) (p p' : S * list (task E S A)) :
  rtc pool_step p p' → P p.1 → Forall (keeps P Q) p.2 → P p'.1 ∧ Forall (keeps P Q) p'.2.
Proof.
  induction 1 as [|p1 p2 p3 Hstep _ IH]; [done|]. intros Hp Hts.
  destruct Hstep as [s ts i event ready f t' s' Hi _ Ef]. simpl in *.
  pose proof (Forall_lookup_1 _ _ _ _ Hts Hi s Hp) as Hk. rw Ef in Hk. destruct Hk as [Hs' Ht'].
  apply IH; simpl; [done|]. by apply Forall_insert.
Qed.

End task.

Notation "'await!' x ':=' t 'in' k" := (await t (λ x, k))
  (at level 10, x binder, t at level 100, k at level 200) : kv_scope.
Notation "'wait!' t 'then' k" := (await t (λ _, k))
  (at level 10, t at level 100, k at level 200) : kv_scope.
