(* ===== verification/Driver.v ===== *)
(** * Driver: the asynchronous half of a node (src/raft/mod.rs, [Raft]).

    The driver shares the core and the store with the services, each behind a lock.  Its
    methods are tasks (file Task): a block that holds a lock is one section.  A method that
    reads the clock or draws a random number takes the reading and the draw as arguments,
    and a method that calls peers takes the completions of its calls, in the order in which
    they come in; a call that never completes, fails or panics yields no reply.  A section that
    builds a message for a peer or treats a peer's reply says so ([message]). *)

From Corelib Require Import ssreflect.
From stdpp Require Import base gmap strings list.
From S2P Require Import Prelude Text Fs AtomicFile Crc WalLog Codec Config MemTable Snapshot Store.
From S2P Require Import RaftState Wal RaftCore Election Replication Task.

(** The state the tasks of a node share: the core, the store and whether some task holds its
    lock across sections, the value of the commit channel, and the disk. *)
Record Node (L : Type) := MkNode {
  nd_core : RaftCore L;
  nd_store : Store;
  nd_store_held : bool;
  nd_commit : Z;
  nd_disk : fs
}.
Arguments MkNode {L}.
Arguments nd_core {L}. Arguments nd_store {L}. Arguments nd_store_held {L}.
Arguments nd_commit {L}. Arguments nd_disk {L}.

(** Take one occurrence of [x] out of a list: the call to peer [x] has completed. *)
Fixpoint list_remove (x : Z) (l : list Z) : option (list Z) :=
  match l with
  | [] => None
  | y :: l => if x =? y then Some l else cons y <$> list_remove x l
  end.

(** The messages that sections have to do with: a peer's reply to a request for its vote in a
    term; an AppendEntries message to a peer; a peer's reply to one, with the index of the
    last entry it carried and the term of the round. *)
Inductive message :=
| VoteReply (peer term : Z) (reply : RequestVoteReply)
| AppendRequest (peer : Z)
| AppendReply (peer last_sent term : Z) (reply : AppendEntriesReply).

(** What [tick] decides while it holds the lock. *)
Inductive Action := Elect | Replicate | Idle.

Section driver.
Context {L : Type} {wal : Wal L}.
Context {bin_hard : Bincode HardState} {bin_entry : Bincode LogEntry} {bin_snap : Bincode SnapshotFile}.
Implicit Types (nd : Node L) (c : RaftCore L).

Definition with_core c σ nd : Node L :=
  MkNode c (nd_store nd) (nd_store_held nd) (nd_commit nd) σ.
Definition with_store st σ nd : Node L :=
  MkNode (nd_core nd) st (nd_store_held nd) (nd_commit nd) σ.
Definition with_held b nd : Node L :=
  MkNode (nd_core nd) (nd_store nd) b (nd_commit nd) (nd_disk nd).
Definition with_commit v nd : Node L :=
  MkNode (nd_core nd) (nd_store nd) (nd_store_held nd) v (nd_disk nd).

(** Work on the core or on the store. *)
Definition on_core {A} (m : M (RaftCore L * fs) A) : M (Node L) A := λ nd,
  let '(r, (c, σ)) := m (nd_core nd, nd_disk nd) in (r, with_core c σ nd).
Definition on_store {A} (m : M (Store * fs) A) : M (Node L) A := λ nd,
  let '(r, (st, σ)) := m (nd_store nd, nd_disk nd) in (r, with_store st σ nd).

(** Give the store lock back, always or when an error ends its scope. *)
Definition releasing {A} (m : M (Node L) A) : M (Node L) A := λ nd,
  let '(r, nd') := m nd in (r, with_held false nd').
Definition releasing_on_error {A} (m : M (Node L) A) : M (Node L) A := λ nd,
  let '(r, nd') := m nd in (r, match r with Ok _ => nd' | _ => with_held false nd' end).

(** A section that holds the core's lock, also one that has a message to do with, and one that
    takes the store's lock. *)
Definition core_section_on {A} (event : option message) (m : M (RaftCore L * fs) A)
    : task message (Node L) A := section_on event (λ _, true) (on_core m).
Definition core_section {A} (m : M (RaftCore L * fs) A) : task message (Node L) A :=
  section (on_core m).
Definition store_free nd : bool := negb (nd_store_held nd).

(** ** Elections *)

(** What [start_election] does with one reply while it holds the core: [None] ends the
    campaign, otherwise the votes counted so far. *)
Definition count_vote (reply : RequestVoteReply) (term votes : Z) : M (RaftCore L * fs) (option Z) :=
  let! current := self (λ c, current_term (rc_hard c)) in
  let! role := self rc_role in
  if current <? rvr_term reply then
    do! become_follower (rvr_term reply) None then ret None
  else if negb (bool_decide (role = Candidate)) || negb (current =? term) then ret None
  else if rvr_vote_granted reply then
    let votes := votes + 1 in
    let! quorum := self core_quorum in
    if quorum <=? votes then
      do! update become_leader then
      do! append_command Noop then
      do! core_sync then
      do! advance_commit_index then
      ret None
    else ret (Some votes)
  else ret (Some votes).

(** The loop over the replies, [pending] being the peers whose call has not completed. *)
Fixpoint collect_votes (completions : list (Z * outcome RequestVoteReply)) (pending : list Z)
    (term votes : Z) : task message (Node L) unit :=
  match completions with
  | [] => Done (Ok tt)
  | (peer, result) :: completions =>
      match list_remove peer pending with
      | None => collect_votes completions pending term votes
      | Some pending =>
          match result with
          | Ok reply =>
              await! counted := core_section_on (Some (VoteReply peer term reply)) (count_vote reply term votes) in
              match counted with
              | Some votes => collect_votes completions pending term votes
              | None => Done (Ok tt)
              end
          | _ => collect_votes completions pending term votes
          end
      end
  end.

(** [Raft::start_election]. *)
Definition start_election (now draw : Z) (completions : list (Z * outcome RequestVoteReply))
    : task message (Node L) unit :=
  await! term := core_section (do! become_candidate now draw then
                               self (λ c, current_term (rc_hard c))) in
  await! peers := core_section (self rc_peers) in
  collect_votes completions peers term 1.

(** ** Replication *)

(** The calls of a round of AppendEntries run concurrently: each builds its message under
    the lock and sends it, and completes later. *)
Inductive round_event :=
| Sent (peer : Z)
| Replied (peer : Z) (result : outcome AppendEntriesReply).

(** What [broadcast_append_entries] does with one reply while it holds the core. *)
Definition fold_reply (peer last_sent : Z) (reply : AppendEntriesReply) (term acks : Z)
    : M (RaftCore L * fs) (option Z) :=
  let! current := self (λ c, current_term (rc_hard c)) in
  let! leader := self is_leader in
  if current <? aer_term reply then
    do! become_follower (aer_term reply) None then ret None
  else if negb leader || negb (current =? term) then ret None
  else
    do! on_append_entries_reply peer last_sent reply then
    ret (Some (if aer_success reply then acks + 1 else acks)).

(** The round: [pending] are the peers not yet sent to, [sent] the calls under way with the
    last index of their message.  [None] if the node stepped down, otherwise the number of
    acknowledgements. *)
Fixpoint round (events : list round_event) (pending : list Z) (sent : gmap Z Z) (term acks : Z)
    : task message (Node L) (option Z) :=
  match events with
  | [] => Done (Ok (Some acks))
  | Sent peer :: events =>
      match list_remove peer pending with
      | None => round events pending sent term acks
      | Some pending =>
          await! args := core_section_on (Some (AppendRequest peer)) (self (build_append_entries peer)) in
          let last_sent := u64_add (ae_prev_log_index args) (zlen (ae_entries args)) in
          round events pending (<[peer := last_sent]> sent) term acks
      end
  | Replied peer result :: events =>
      match sent !! peer with
      | None => round events pending sent term acks
      | Some last_sent =>
          let sent := delete peer sent in
          match result with
          | Ok reply =>
              await! folded := core_section_on (Some (AppendReply peer last_sent term reply))
                                (fold_reply peer last_sent reply term acks) in
              match folded with
              | Some acks => round events pending sent term acks
              | None => Done (Ok None)
              end
          | _ => round events pending sent term acks
          end
      end
  end.

(** [Raft::broadcast_append_entries]; [now] is read at its end. *)
Definition broadcast_append_entries (now : Z) (events : list round_event) : task message (Node L) unit :=
  await! start := core_section (self (λ c, (rc_peers c, current_term (rc_hard c)))) in
  await! result := round events start.1 ∅ start.2 1 in
  match result with
  | None => Done (Ok tt)
  | Some acks =>
      await! quorum := core_section (self core_quorum) in
      if quorum <=? acks then core_section (update (renew_lease now)) else Done (Ok tt)
  end.

(** ** Applying *)

(** The part of [apply_committed] that fills the store: apply the entries, and if a snapshot
    is due keep the lock and say how far the store is. *)
Definition apply_entries (committed : list LogEntry) : M (Node L) (option Z) := λ nd,
  let st := foldl (λ st e, store_apply (e_index e) (e_command e) st) (nd_store nd) committed in
  let due := should_snapshot st in
  (Ok (if due then Some (store_last_applied st) else None),
   with_held due (with_store st (nd_disk nd) nd)).

(** [Raft::apply_committed]. *)
Definition apply_committed : task message (Node L) unit :=
  await! committed := core_section (λ '(c, σ), let '(out, c') := take_committed c in (Ok out, (c', σ))) in
  match last committed with
  | None => Done (Ok tt)
  | Some newest =>
      await! due := section_when store_free (apply_entries committed) in
      wait! (match due with
             | Some applied =>
                 await! term := core_section (self (λ c, default 0 (term_at applied c))) in
                 await! meta := section (releasing_on_error (on_store (store_snapshot term))) in
                 section (releasing (on_core (compact meta)))
             | None => Done (Ok tt)
             end) then
      section (modify (with_commit (e_index newest)))
  end.

(** ** The interface of the driver *)

(** The period at which [Raft::run] calls [tick]. *)
Definition tick_period (heartbeat_interval : Z) : Z := Z.max (heartbeat_interval / 2) (from_millis 5).

(** [Raft::tick]. *)
Definition tick (now now' draw : Z) (votes : list (Z * outcome RequestVoteReply))
    (events : list round_event) : task message (Node L) unit :=
  await! action := core_section (self (λ c,
    if is_leader c then Replicate
    else if election_timed_out now c then Elect else Idle)) in
  wait! (match action with
          | Elect => start_election now' draw votes
          | Replicate => broadcast_append_entries now' events
          | Idle => Done (Ok tt)
          end) then
  apply_committed.

(** [Raft::propose]. *)
Definition propose (command : Command) (now : Z) (events : list round_event) : task message (Node L) Z :=
  await! index := core_section (
    let! leader := self is_leader in
    if negb leader then throw (error_raft "not leader")
    else
      let! entry := append_command command in
      do! core_sync then
      do! advance_commit_index then
      ret (e_index entry)) in
  wait! discard (broadcast_append_entries now events) then
  wait! apply_committed then
  Done (Ok index).

(** ** Campaigns *)

Lemma list_remove_Some x l l' : list_remove x l = Some l' → l ≡ₚ x :: l'.
Proof.
  revert l'. induction l as [|y l IH]; intros l' E; simplify_eq/=.
  destruct (Z.eqb_spec x y) as [->|]; [by simplify_eq|].
  apply fmap_Some in E as (l1 & E & ->). rw (IH l1 E). apply Permutation_swap.
Qed.

Lemma list_remove_elem x l : x ∈ l → ∃ l', list_remove x l = Some l'.
Proof.
  induction l as [|y l IH]; [by intros ?%elem_of_nil|]. intros Hx. simpl.
  destruct (Z.eqb_spec x y) as [|Hne]; [by eexists|].
  destruct IH as [l' ->]; [set_solver|by eexists].
Qed.

(** One reply makes the node leader only as the last vote of a quorum in its own term. *)
Lemma count_vote_leader reply term votes c σ r c' σ' :
  count_vote reply term votes (c, σ) = (r, (c', σ')) →
  rc_role c ≠ Leader → rc_role c' = Leader →
  current_term (rc_hard c) = term ∧ rc_role c = Candidate ∧ rvr_vote_granted reply = true
  ∧ rvr_term reply ≤ term ∧ core_quorum c ≤ votes + 1.
Proof.
  rw /count_vote /bind /self /gets /ret. cbn [fst].
  destruct (Z.ltb_spec (current_term (rc_hard c)) (rvr_term reply)) as [Hlt|Hge].
  { intros E Hn Hl. exfalso. move: E. rw /become_follower /bind /self /gets /update /modify. cbn [fst].
    destruct (Z.ltb_spec (current_term (rc_hard c)) (rvr_term reply)); [|lia].
    rw /persist_hard. destruct (hard_persist _ _ σ) as [[[]| |] σ1]; intros [= _ <- _]; done. }
  destruct (bool_decide_reflect (rc_role c = Candidate)) as [Hc|]; [|by intros [= _ <- _]].
  destruct (Z.eqb_spec (current_term (rc_hard c)) term) as [Ht|]; [|by intros [= _ <- _]].
  cbn [negb orb fst]. destruct (rvr_vote_granted reply) eqn:Eg; [|by intros [= _ <- _]].
  cbn [fst]. destruct (Z.leb_spec (core_quorum c) (votes + 1)) as [Hq|]; [|by intros [= _ <- _]].
  intros _ _ _. split_and!; [done..|lia|done].
Qed.

(** Going on counts at most this vote. *)
Lemma count_vote_continue reply term votes c σ votes' c' σ' :
  count_vote reply term votes (c, σ) = (Ok (Some votes'), (c', σ')) →
  rvr_term reply ≤ term ∧ votes' = if rvr_vote_granted reply then votes + 1 else votes.
Proof.
  rw /count_vote /bind /self /gets /ret. cbn [fst].
  destruct (Z.ltb_spec (current_term (rc_hard c)) (rvr_term reply)) as [Hlt|Hge].
  { by destruct (become_follower _ _ _) as [[[]| |] ?]. }
  destruct (bool_decide_reflect (rc_role c = Candidate)) as [Hc|]; [|done].
  destruct (Z.eqb_spec (current_term (rc_hard c)) term) as [Ht|]; [|done].
  cbn [negb orb fst]. destruct (rvr_vote_granted reply) eqn:Eg; [|intros [= <- _ _]; split; [lia|done]].
  cbn [fst]. destruct (core_quorum c <=? votes + 1).
  - destruct (update become_leader (c, σ)) as [[[]| |] s1]; [|done..].
    destruct (append_command Noop s1) as [[e| |] s2]; [|done..].
    destruct (core_sync s2) as [[[]| |] s3]; [|done..].
    by destruct (advance_commit_index s3) as [[[]| |] s4].
  - intros [= <- _ _]. split; [lia|done].
Qed.

(** A peer whose reply grants the vote. *)
Definition grants (completions : list (Z * outcome RequestVoteReply)) (term p : Z) : Prop :=
  ∃ reply, (p, Ok reply) ∈ completions ∧ rvr_vote_granted reply = true ∧ rvr_term reply ≤ term.

Lemma grants_cons x completions term p : grants completions term p → grants (x :: completions) term p.
Proof. intros (reply & Hin & Hg & Ht). exists reply. split_and!; [by apply list_elem_of_further|done..]. Qed.

Lemma collect_votes_leader completions pending term votes tr t' s s' :
  NoDup pending → trace (collect_votes completions pending term votes) tr t' → (s, s') ∈ tr →
  rc_role (nd_core s) ≠ Leader → rc_role (nd_core s') = Leader →
  current_term (rc_hard (nd_core s)) = term
  ∧ ∃ voters, NoDup voters ∧ voters ⊆ pending ∧ core_quorum (nd_core s) ≤ votes + zlen voters
      ∧ ∀ p, p ∈ voters → grants completions term p.
Proof.
  revert pending votes tr. induction completions as [|[peer result] completions IH];
    intros pending votes tr Hnd Htr Hin Hn Hl; simpl in Htr.
  { inversion Htr; subst. by apply elem_of_nil in Hin. }
  assert (∀ pending' votes' tr', NoDup pending' → pending' ⊆ pending → votes' ≤ votes →
    trace (collect_votes completions pending' term votes') tr' t' → (s, s') ∈ tr' →
    current_term (rc_hard (nd_core s)) = term ∧ ∃ voters, NoDup voters ∧ voters ⊆ pending
      ∧ core_quorum (nd_core s) ≤ votes + zlen voters
      ∧ ∀ p, p ∈ voters → grants ((peer, result) :: completions) term p) as Hskip.
  { intros pending' votes' tr' Hnd' Hsub Hv Htr' Hin'.
    destruct (IH pending' votes' tr' Hnd' Htr' Hin' Hn Hl) as (Ht & voters & Hvn & Hvs & Hq & Hg).
    split; [done|]. exists voters. split_and!; [done|set_solver|lia|]. intros p Hp. by apply grants_cons, Hg. }
  destruct (list_remove peer pending) as [pending'|] eqn:Er; [|by apply (Hskip pending votes tr)].
  apply list_remove_Some in Er. assert (NoDup (peer :: pending')) as [Hpeer Hnd']%NoDup_cons by by rw -Er.
  assert (pending' ⊆ pending) as Hsub by (intros x Hx; rw Er; set_solver).
  destruct result as [reply|e|]; [|by apply (Hskip pending' votes tr)..].
  apply trace_section_inv in Htr as [->|(s1 & r & s1' & tr' & -> & E & Htr)].
  { by apply elem_of_nil in Hin. }
  move: E. rw /on_core. destruct (count_vote _ _ _ _) as [r' [c' σ']] eqn:Ec. intros [= -> <-].
  apply elem_of_cons in Hin as [E|Hin].
  - simplify_eq. destruct (count_vote_leader _ _ _ _ _ _ _ _ Ec Hn Hl) as (Ht & _ & Hg & Hrt & Hq).
    split; [done|]. exists [peer]. rw zlen_cons zlen_nil. split_and!; [apply NoDup_singleton| |lia|].
    + intros x ->%list_elem_of_singleton. rw Er. set_solver.
    + intros p ->%list_elem_of_singleton. exists reply. split_and!; [set_solver|done|done].
  - destruct r as [[votes'|]|e|]; [| |subst; by apply elem_of_nil in Hin..]; last first.
    { inversion Htr; subst; by apply elem_of_nil in Hin. }
    destruct (count_vote_continue _ _ _ _ _ _ _ _ Ec) as [Hrt Hv].
    destruct (rvr_vote_granted reply) eqn:Eg; [|apply (Hskip pending' votes' tr'); done || lia].
    destruct (IH pending' votes' tr' Hnd' Htr Hin Hn Hl) as (Ht & voters & Hvn & Hvs & Hq & Hg).
    split; [done|]. exists (peer :: voters). rw zlen_cons.
    split_and!; [|intros x Hx; rw Er; set_solver|lia|].
    + apply NoDup_cons. split; [|done]. by intros ?%Hvs.
    + intros p [->|Hp]%elem_of_cons; [|by apply grants_cons, Hg]. exists reply. split_and!; [set_solver|done|done].
Qed.

Lemma become_candidate_role now draw c σ r c' σ' :
  become_candidate now draw (c, σ) = (r, (c', σ')) → rc_role c' = Candidate.
Proof.
  rw /become_candidate /bind /update /modify /self /gets /persist_hard.
  destruct (hard_persist _ _ σ) as [[[]| |] σ1]; [|by intros [= _ <- _]..].
  destruct (reset_election_timer _ _ _) as [r2 [c2 σ2]] eqn:E.
  apply reset_timer_run in E as [_ [t ->]]. destruct r2; by intros [= _ <- _].
Qed.

Lemma become_candidate_args now draw c σ args c' σ' :
  become_candidate now draw (c, σ) = (Ok args, (c', σ')) →
  rv_term args = current_term (rc_hard c') ∧ rv_candidate_id args = rc_id c.
Proof.
  rw /become_candidate /bind /update /modify /self /gets /persist_hard.
  destruct (hard_persist _ _ σ) as [[[]| |] σ1]; [|done..].
  destruct (reset_election_timer _ _ _) as [r2 [c2 σ2]] eqn:E.
  apply reset_timer_run in E as [_ [t ->]]. by destruct r2 as [[]| |]; [|done..]; intros [= <- <- _].
Qed.

(** A campaign that makes its node leader: it opened with a candidacy in that term, and the
    replies that grant the vote make up a quorum with it. *)
Lemma start_election_leader now draw completions tr rest s s' ps :
  trace (start_election now draw completions) tr rest → (s, s') ∈ tr →
  Forall (λ x, rc_peers (nd_core x.1) = ps) tr → NoDup ps →
  rc_role (nd_core s) ≠ Leader → rc_role (nd_core s') = Leader →
  ∃ s0 args c0 σ0 voters, fst <$> head tr = Some s0
    ∧ become_candidate now draw (nd_core s0, nd_disk s0) = (Ok args, (c0, σ0))
    ∧ rv_term args = current_term (rc_hard (nd_core s)) ∧ rv_candidate_id args = rc_id (nd_core s0)
    ∧ NoDup voters ∧ voters ⊆ ps ∧ core_quorum (nd_core s) ≤ 1 + zlen voters
    ∧ ∀ p, p ∈ voters → grants completions (rv_term args) p.
Proof.
  intros Htr Hin Hps Hnd Hn Hl. rw /start_election in Htr.
  apply trace_section_inv in Htr as [->|(s0 & r & s0' & tr' & -> & E & Htr)]; [by apply elem_of_nil in Hin|].
  move: E. rw /on_core {1}/bind. destruct (become_candidate now draw _) as [r0 [c0 σ0]] eqn:Ec.
  pose proof (become_candidate_role _ _ _ _ _ _ _ Ec) as Hrole. intros E.
  assert (nd_core s0' = c0 ∧ ∀ t, r = Ok t → (∃ args, r0 = Ok args) ∧ t = current_term (rc_hard c0))
    as [Ecore Hr] by (destruct r0; simplify_eq/=; split; [done| |done| |done|]; naive_solver).
  apply elem_of_cons in Hin as [E1|Hin]; [simplify_eq; congruence|].
  destruct r as [t|e|]; [|subst; by apply elem_of_nil in Hin..].
  destruct (Hr t eq_refl) as [[args ->] ->]. apply become_candidate_args in Ec as Ha. destruct Ha as [Ha Hid].
  apply Forall_cons in Hps as [_ Hps].
  apply trace_section_inv in Htr as [->|(s1 & r & s1' & tr1 & -> & E1 & Htr)]; [by apply elem_of_nil in Hin|].
  apply Forall_cons in Hps as [Hp _]. simpl in Hp.
  rw /on_core /self /gets in E1. cbn [fst] in E1. rw Hp in E1. simplify_eq.
  apply elem_of_cons in Hin as [E1|Hin]; [by simplify_eq|].
  destruct (collect_votes_leader _ _ _ _ _ _ _ _ Hnd Htr Hin Hn Hl) as (Ht & voters & Hvn & Hvs & Hq & Hg).
  exists s0, args, (nd_core s0'), σ0, voters. rw Ha. split_and!; [done..|congruence|done|done|done|done|done].
Qed.

(** Node [x] became leader of term [t] in one of its campaigns; [votes] are the votes the
    members of the cluster gave away. *)
Definition won {A} (cfg : Config A) (votes : Z → list (Z * Z)) (t x : Z) : Prop :=
  ∃ now draw completions tr rest s s' ps,
    trace (start_election now draw completions) tr rest ∧ (s, s') ∈ tr
    ∧ rc_role (nd_core s) ≠ Leader ∧ rc_role (nd_core s') = Leader
    ∧ current_term (rc_hard (nd_core s)) = t
    ∧ x :: ps ≡ₚ members cfg
    ∧ Forall (λ n, rc_id (nd_core n.1) = x ∧ rc_peers (nd_core n.1) = ps
                   ∧ rc_cluster_size (nd_core n.1) = cluster_size cfg) tr
    ∧ (∀ s0 args n, fst <$> head tr = Some s0 →
         become_candidate now draw (nd_core s0, nd_disk s0) = (Ok args, n) →
         vote_for_self (Ok args) ⊆ votes x)
    ∧ ∀ p reply, (p, Ok reply) ∈ completions → rvr_vote_granted reply = true → (t, x) ∈ votes p.

Lemma won_elected {A} (cfg : Config A) votes t x :
  NoDup (members cfg) → won cfg votes t x → elected cfg votes t x.
Proof.
  intros Hnd (now & draw & comps & tr & rest & s & s' & ps & Htr & Hin & Hn & Hl & Ht & Hps & Hall & Hself & Hg).
  rw -Hps in Hnd. apply NoDup_cons in Hnd as [Hx Hnd].
  destruct (start_election_leader now draw comps tr rest s s' ps Htr Hin) as
    (s0 & args & c0 & σ0 & voters & H0 & E0 & Ha & Hid & Hvn & Hvs & Hq & Hgr); try done.
  { eapply Forall_impl; [exact Hall|]. naive_solver. }
  pose proof (proj1 (Forall_forall _ _) Hall _ Hin) as (_ & _ & Hsize). simpl in Hsize.
  assert (rc_id (nd_core s0) = x) as Hid0.
  { destruct tr as [|[a b] tr]; simplify_eq/=. apply Forall_cons in Hall as [H1 _]. naive_solver. }
  exists (x :: voters). split_and!.
  - apply NoDup_cons. split; [|done]. by intros ?%Hvs.
  - intros y Hy. rw -Hps. set_solver.
  - rw zlen_cons. rw /core_quorum Hsize in Hq. done.
  - intros i [->|Hi]%elem_of_cons.
    + apply (Hself s0 args _ H0 E0). simpl. rw Ha Hid Hid0 Ht. set_solver.
    + destruct (Hgr i Hi) as (reply & Hc & Hgt & _). by eapply Hg.
Qed.

(** C10: at most one leader per term: however the tasks of the nodes of a cluster interleave,
    fail, crash and restart, two nodes whose campaigns make them leader in the same term are
    the same node. *)
Theorem one_leader_per_term {A} (cfg : Config A) votes t x y :
  (∀ h, hard_in_range h → representable h) → NoDup (members cfg) →
  cluster_votes (L := L) cfg votes → won cfg votes t x → won cfg votes t y → x = y.
Proof.
  intros Hrep Hnd Hc Hx Hy. apply (elected_unique (L := L) Hrep cfg votes t); [done|by apply won_elected..].
Qed.

End driver.

(** [Raft::bootstrap]. *)
Definition bootstrap `{Crc32} `{Bincode HardState} `{Bincode LogEntry} `{Bincode SnapshotFile} {A}
    (cfg : Config A) (now draw : Z) : M fs (Node Log) :=
  let! store := store_open cfg in
  let! log := log_open (wal_dir cfg) (cfg_segment_max_bytes cfg) in
  let! core := restore cfg (st_last_snapshot store) log now draw in
  λ σ, (Ok (MkNode core store false (rc_commit_index core) σ), σ).

(** ** Witness *)

#[local] Existing Instance crc32fast.
#[local] Existing Instance bincode_codec.

(** Node 1 starts on an empty disk and campaigns; node 2 grants its vote, the call to node 3
    fails. *)
Definition fresh_store : Store := MkStore (snapshot_dir demo_cluster) memtable_new 10000 default_meta.
Definition demo_start : Node Log :=
  match bootstrap demo_cluster 0 0 empty_fs with
  | (Ok nd, _) => nd
  | (_, σ) => MkNode (demo_node 1) fresh_store false 0 σ
  end.
Definition demo_completions : list (Z * outcome RequestVoteReply) :=
  [(3, Err (ETransport "refused")); (2, Ok (MkRequestVoteReply 1 true))].
Definition demo_campaign := solo 3 (start_election (L := Log) 0 0 demo_completions) demo_start.

Definition demo_before : Node Log := default demo_start (snd <$> demo_campaign.1 !! 1%nat).
Definition demo_after : Node Log := default demo_start (snd <$> demo_campaign.1 !! 2%nat).

Lemma demo_won : won demo_cluster demo_votes 1 1.
Proof.
  exists 0, 0, demo_completions, demo_campaign.1, demo_campaign.2, demo_before, demo_after, [2; 3].
  split_and!.
  - apply solo_trace.
  - apply list_elem_of_lookup. exists 2%nat. vm_compute. reflexivity.
  - evaluate.
  - evaluate.
  - evaluate.
  - done.
  - evaluate.
  - intros s0 args n E0 E.
    assert (fst <$> head demo_campaign.1 = Some demo_start) as E1 by (vm_compute; reflexivity).
    rw E1 in E0. injection E0 as <-. apply (f_equal fst) in E.
    assert (args = ask) as ->; [|rw /demo_votes /=; set_solver].
    vm_compute in E. injection E as <-. reflexivity.
  - intros p reply Hin Hg. assert (p = 2) as ->; [|rw /demo_votes /=; set_solver].
    rw /demo_completions in Hin. set_solver.
Qed.

Lemma one_leader_per_term_witness : rc_role (nd_core demo_after) = Leader ∧ 1 = 1.
Proof.
  split; [vm_compute; reflexivity|].
  apply (one_leader_per_term (L := Log) demo_cluster demo_votes 1).
  - apply codec_representable.
  - evaluate.
  - apply demo_cluster_votes.
  - apply demo_won.
  - apply demo_won.
Defined.
