(* ===== verification/Futures.v ===== *)
(** * Futures: collecting concurrent calls (src/raft/mod.rs, [futures_shim]).

    The driver starts its calls to the peers together and takes their results as they
    complete, through a small wrapper of [tokio]'s [JoinSet].  [JoinSet] is a class with what
    its documentation promises; the wrapper and the loop of [start_election] over it are
    translated here, and shown to be what file Driver takes them for: a list of completions,
    one at most for each peer. *)

From Corelib Require Import ssreflect.
From stdpp Require Import base gmap strings list sorting.
From S2P Require Import Prelude Text Fs AtomicFile Crc WalLog Codec Config MemTable Snapshot RaftState.
From S2P Require Import Wal RaftCore Election Replication Task Store Driver.

(** [tokio::task::JoinSet].  A future is what it will come to: a value, or a panic.  [running]
    are those whose end has not been asked for; [join_next] gives one of them, whichever
    completes first, or nothing when there is none. *)
Class JoinSet (T : Type) := {
  join_set : Type;
  js_new : join_set;
  js_spawn : T + unit → join_set → join_set;
  js_join_next : join_set → option (T + unit) * join_set;
  running : join_set → list (T + unit);
  running_new : running js_new = [];
  running_spawn fut set : running (js_spawn fut set) ≡ₚ fut :: running set;
  join_next_some set r set' : js_join_next set = (Some r, set') → running set ≡ₚ r :: running set';
  join_next_none set set' : js_join_next set = (None, set') → running set = [] ∧ running set' = []
}.
Arguments join_set T {_}.

(** The values among the ends of futures. *)
Definition values {T} (rs : list (T + unit)) : list T :=
  omap (λ r, match r with inl v => Some v | inr _ => None end) rs.

#[global] Instance values_proper {T} : Proper ((≡ₚ) ==> (≡ₚ)) (@values T).
Proof. move=> rs rs' P. by rw /values P. Qed.

Section futures.
Context {T : Type} {tokio : JoinSet T}.

(** [FuturesUnordered] and [futures_unordered]. *)
Record FuturesUnordered := MkFuturesUnordered { fu_set : join_set T }.

Definition futures_unordered (iter : list (T + unit)) : FuturesUnordered :=
  MkFuturesUnordered (foldl (λ set fut, js_spawn fut set) js_new iter).

(** [FuturesUnordered::next]: the loop passes over tasks that have panicked.  [None] of the
    outer option is a loop that has not ended. *)
Fixpoint next (fuel : nat) (tasks : FuturesUnordered) : option (option T * FuturesUnordered) :=
  match fuel with
  | O => None
  | S fuel =>
      let '(joined, set) := js_join_next (fu_set tasks) in
      let tasks := MkFuturesUnordered set in
      match joined with
      | Some (inl v) => Some (Some v, tasks)
      | Some (inr _) => next fuel tasks
      | None => Some (None, tasks)
      end
  end.

(** How many calls are under way. *)
Definition alive (tasks : FuturesUnordered) : nat := length (running (fu_set tasks)).

Lemma spawn_all iter set : running (foldl (λ set fut, js_spawn fut set) set iter) ≡ₚ running set ++ iter.
Proof.
  elim: iter set => [|fut iter IH] set /=; first by rw app_nil_r.
  by rw IH running_spawn /= Permutation_middle.
Qed.

Lemma futures_unordered_running iter : running (fu_set (futures_unordered iter)) ≡ₚ iter.
Proof. by rw spawn_all running_new. Qed.

(** [next] returns, and what it gives is the value of a task it takes out of the set; it gives
    nothing only when all have been taken. *)
Lemma next_total fuel tasks : (alive tasks < fuel)%nat →
  ∃ r tasks', next fuel tasks = Some (r, tasks') ∧ (alive tasks' ≤ alive tasks)%nat
    ∧ match r with
      | Some v => values (running (fu_set tasks)) ≡ₚ v :: values (running (fu_set tasks'))
                  ∧ (alive tasks' < alive tasks)%nat
      | None => values (running (fu_set tasks)) = []
      end.
Proof.
  elim: fuel tasks => [|fuel IH] tasks Hf /=; first lia.
  case E: (js_join_next (fu_set tasks)) => [[r|] set]; last first.
  { eexists None, _. split => //. have [Hn Hn'] := join_next_none _ _ E. by rw /alive /= Hn Hn'. }
  have P := join_next_some _ _ _ E. have Hl : alive tasks = S (alive (MkFuturesUnordered set)).
  { by rw /alive (Permutation_length P). }
  have Pv : values (running (fu_set tasks)) ≡ₚ values (r :: running set) by rw P.
  destruct r as [v|[]]; first by eexists _, _; split => //; split; [lia|split; [done|lia]].
  have [r [tasks' [En [Ha Hr]]]] := IH (MkFuturesUnordered set) ltac:(lia). exists r, tasks'. split => //.
  split; first lia. destruct r as [v|].
  - destruct Hr as [Hr Hlt]. split; [by rw Pv|lia].
  - rw /= in Pv. rw /= in Hr. rw Hr in Pv. by apply Permutation_nil_r in Pv.
Qed.

(** [while let Some(v) = tasks.next().await]: what the loop gets to see. *)
Fixpoint drain (fuel : nat) (tasks : FuturesUnordered) : option (list T) :=
  match fuel with
  | O => None
  | S fuel' =>
      match next fuel tasks with
      | None => None
      | Some (None, _) => Some []
      | Some (Some v, tasks) => cons v <$> drain fuel' tasks
      end
  end.

Lemma drain_total fuel tasks : (alive tasks < fuel)%nat →
  ∃ out, drain fuel tasks = Some out ∧ out ≡ₚ values (running (fu_set tasks)).
Proof.
  elim: fuel tasks => [|fuel IH] tasks Hf; first lia. cbn [drain].
  have [r [tasks' [-> [_ Hr]]]] := next_total (S fuel) tasks Hf. destruct r as [v|].
  - destruct Hr as [P Hlt]. have [out [-> Po]] := IH tasks' ltac:(lia). exists (v :: out). split => //. by rw P Po.
  - exists []. by rw Hr.
Qed.

(** Every call is collected once: the loop over the futures ends, and has seen the value of
    each that did not panic, in some order. *)
Lemma futures_collected_once iter :
  ∃ out, drain (S (length iter)) (futures_unordered iter) = Some out ∧ out ≡ₚ values iter.
Proof.
  have P := futures_unordered_running iter. have Ha : (alive (futures_unordered iter) < S (length iter))%nat.
  { rw /alive (Permutation_length P). lia. }
  have [out [E Po]] := drain_total _ _ Ha. exists out. split => //. by rw Po P.
Qed.

End futures.

Section votes.
Context {tokio : JoinSet (Z * outcome RequestVoteReply)}.
Context {L : Type} {wal : Wal L}.
Context {bin_hard : Bincode HardState} {bin_entry : Bincode LogEntry} {bin_snap : Bincode SnapshotFile}.

(** The loop of [start_election] over the calls, each with the peer it goes to. *)
Fixpoint vote_loop (fuel : nat) (tasks : FuturesUnordered) (term votes : Z) : task message (Node L) unit :=
  match fuel with
  | O => Done Panic
  | S fuel' =>
      match next fuel tasks with
      | None => Done Panic
      | Some (None, _) => Done (Ok tt)
      | Some (Some (peer, result), tasks) =>
          match result with
          | Ok reply =>
              await! counted := core_section_on (Some (VoteReply peer term reply)) (count_vote reply term votes) in
              match counted with
              | Some votes => vote_loop fuel' tasks term votes
              | None => Done (Ok tt)
              end
          | _ => vote_loop fuel' tasks term votes
          end
      end
  end.

Lemma collect_next peer result completions pending rest term votes :
  pending ≡ₚ peer :: rest →
  ∃ pending', pending' ≡ₚ rest ∧ collect_votes (L := L) ((peer, result) :: completions) pending term votes =
    match result with
    | Ok reply =>
        await! counted := core_section_on (Some (VoteReply peer term reply)) (count_vote reply term votes) in
        match counted with
        | Some votes => collect_votes completions pending' term votes
        | None => Done (Ok tt)
        end
    | _ => collect_votes completions pending' term votes
    end.
Proof.
  move=> P. have [pending' E] := list_remove_elem peer pending ltac:(rw P; apply list_elem_of_here).
  exists pending'. split; last by rw /= E. apply (Permutation_cons_inv (a := peer)).
  by rw -(list_remove_Some _ _ _ E).
Qed.

Lemma vote_loop_collects fuel tasks : (alive tasks < fuel)%nat →
  ∃ completions, completions ≡ₚ values (running (fu_set tasks))
    ∧ ∀ pending rest term votes, pending ≡ₚ (values (running (fu_set tasks))).*1 ++ rest →
      vote_loop fuel tasks term votes ≡ collect_votes completions pending term votes.
Proof.
  elim: fuel tasks => [|fuel IH] tasks Hf; first lia. cbn [vote_loop].
  have [r [tasks' [-> [_ Hr]]]] := next_total (S fuel) tasks Hf.
  destruct r as [[peer result]|]; last by exists []; rw Hr.
  destruct Hr as [P Hlt]. have [cs [Pc H]] := IH tasks' ltac:(lia).
  exists ((peer, result) :: cs). split; first by rw P Pc.
  move=> pending rest term votes Hp. rw P /= in Hp.
  have [pending' [Pp ->]] := collect_next peer result cs _ _ term votes Hp.
  destruct result as [reply|e|]; [|by apply (H _ rest)..].
  apply await_same => -[k|] //. by apply (H _ rest).
Qed.

(** C27: collecting concurrent calls: whatever order the runtime completes them in and whichever
    of them panic, the loop of [start_election] over [FuturesUnordered] ends and is, section
    by section, the loop of file Driver over a list of completions that holds the result of
    each call that did not panic exactly once. *)
Theorem election_collects_completions (calls : list ((Z * outcome RequestVoteReply) + unit)) peers term votes :
  (values calls).*1 ⊆+ peers →
  ∃ completions, completions ≡ₚ values calls
    ∧ vote_loop (S (length calls)) (futures_unordered calls) term votes ≡ collect_votes completions peers term votes.
Proof.
  move=> Hs. apply submseteq_Permutation in Hs as [rest Hr]. have P := futures_unordered_running (tokio := tokio) calls.
  have Ha : (alive (futures_unordered calls) < S (length calls))%nat by rw /alive (Permutation_length P); lia.
  have [cs [Pc H]] := vote_loop_collects _ _ Ha. exists cs. split; first by rw Pc P. apply (H _ rest). by rw P.
Qed.

End votes.

(** ** Witness *)

#[local] Existing Instance crc32fast.
#[local] Existing Instance bincode_codec.

(** A runtime on which the call started last completes first. *)
#[local] Program Instance last_first {T} : JoinSet T := {|
  join_set := list (T + unit); js_new := []; js_spawn := cons; running := id;
  js_join_next set := match set with [] => (None, []) | r :: set => (Some r, set) end
|}.
Next Obligation. done. Qed.
Next Obligation. done. Qed.
Next Obligation. intros T [|r set] r' set' E; [done|]. by injection E as -> ->. Qed.
Next Obligation. intros T [|r set] set' E; [|done]. by injection E as <-. Qed.

(** Node 2 grants its vote, the call to node 3 panics, and node 1 wins. *)
Definition demo_calls : list ((Z * outcome RequestVoteReply) + unit) :=
  [inl (2, Ok (MkRequestVoteReply 1 true)); inr tt].

Lemma election_collects_completions_witness :
  ∃ completions, completions ≡ₚ [(2, Ok (MkRequestVoteReply 1 true))]
    ∧ vote_loop (L := Log) 3 (futures_unordered demo_calls) 1 1 ≡ collect_votes completions [2; 3] 1 1.
Proof.
  apply (election_collects_completions demo_calls [2; 3] 1 1). apply submseteq_skip, submseteq_nil_l.
Defined.
