(* ===== verification/Apply.v ===== *)
(** * Apply: from a proposal to the state machine.

    What the driver's tasks do when nothing interferes: [apply_committed] brings the store
    to the committed prefix of the log, whatever its snapshot does, and [propose] commits
    once a quorum has acknowledged.  What happens when two tasks interleave, and what a
    node without peers can do, is at the end. *)

From Corelib Require Import ssreflect.
From stdpp Require Import base gmap strings list relations.
From S2P Require Import Prelude Text Fs AtomicFile Crc Record WalLog Codec Config MemTable Snapshot Store.
From S2P Require Import RaftState Wal RaftCore Election Replication Mirror Task Driver.

Section apply.
Context {L : Type} {wal : Wal L}.
Context {bin_hard : Bincode HardState} {bin_entry : Bincode LogEntry} {bin_snap : Bincode SnapshotFile}.
Implicit Types (nd : Node L) (c : RaftCore L).

(** The log of the node holds the commands [cs] from index 1 on (those up to the snapshot
    are not in memory any more), and the store is what applying them up to [last_applied]
    gives. *)
Record aligned nd (cs : list Command) : Prop := {
  ag_wf : log_wf (nd_core nd);
  ag_commands : e_command <$> rc_entries (nd_core nd) = drop (Z.to_nat (snap_index (nd_core nd))) cs;
  ag_length : zlen cs = last_log_index (nd_core nd);
  ag_applied : snap_index (nd_core nd) ≤ rc_last_applied (nd_core nd) ≤ last_log_index (nd_core nd);
  ag_store : st_memtable (nd_store nd) = state_at cs (Z.to_nat (rc_last_applied (nd_core nd)));
  ag_snapshot : last_included_index (st_last_snapshot (nd_store nd)) = snap_index (nd_core nd);
  ag_free : nd_store_held nd = false
}.

(** How far [take_committed] goes. *)
Definition committed_upto c : Z :=
  Z.max (rc_last_applied c) (Z.min (rc_commit_index c) (last_log_index c)).

Definition numbered_command (e : LogEntry) : Z * Command := (e_index e, e_command e).

Lemma store_apply_all es st :
  foldl (λ st e, store_apply (e_index e) (e_command e) st) st es =
    set_memtable (apply_all (numbered_command <$> es) (st_memtable st)) st.
Proof.
  revert st. induction es as [|e es IH]; intros st; [by destruct st|]. cbn [foldl]. by rw IH.
Qed.

(** The entries handed out are the next slice of the commands. *)
Lemma committed_slice nd cs :
  aligned nd cs →
  let c := nd_core nd in
  numbered_command <$> (take_committed c).1 =
    slice cs (S (Z.to_nat (rc_last_applied c))) (Z.to_nat (committed_upto c))
  ∧ (take_committed c).2 = set_last_applied (committed_upto c) c.
Proof.
  intros [Hw Hc Hlen Ha _ _ _] c. fold c in Hw, Hc, Hlen, Ha. rw /take_committed take_loop_spec //. fold (committed_upto c).
  split; [|done]. cbn [fst]. pose proof (last_log_index_wf _ Hw) as Hl. pose proof (lw_base _ Hw) as H0.
  assert (rc_last_applied c ≤ committed_upto c ≤ last_log_index c) as Hu by (rw /committed_upto; lia).
  apply list_eq. intros k.
  rw list_lookup_fmap /slice list_lookup_imap. cbn [pred].
  destruct (decide (k < Z.to_nat (committed_upto c - rc_last_applied c))%nat) as [Hk|Hk].
  - rw lookup_take_lt // !lookup_drop lookup_take_lt; [lia|].
    set (a := Z.to_nat (rc_last_applied c)). set (i := (Z.to_nat (rc_last_applied c - snap_index c) + k)%nat).
    assert (e_command <$> (rc_entries c !! i) = cs !! (a + k)%nat) as <-.
    { rw -list_lookup_fmap Hc lookup_drop. f_equal. rw /a /i. lia. }
    destruct (rc_entries c !! i) as [e|] eqn:Ei; [|done]. simpl. f_equal. rw /numbered_command. f_equal.
    rw (lw_entries _ Hw _ _ Ei) /i /a. lia.
  - rw lookup_take_ge; [lia|]. rw lookup_drop lookup_take_ge //. lia.
Qed.

Lemma slice_last cs a u :
  (a ≤ u ≤ length cs)%nat →
  match last (slice cs (S a) u) with
  | None => u = a
  | Some x => (a < u)%nat ∧ x.1 = Z.of_nat u
  end.
Proof.
  intros Hu. assert (length (slice cs (S a) u) = u - a)%nat as Hlen.
  { rw /slice length_imap length_drop length_take. simpl. lia. }
  rw last_lookup Hlen /slice list_lookup_imap. cbn [pred].
  destruct (decide (u = a)) as [->|Hne].
  - by rw Nat.sub_diag lookup_drop lookup_take_ge; [lia|].
  - rw lookup_drop lookup_take_lt; [lia|].
    destruct (lookup_lt_is_Some_2 cs (a + pred (u - a))) as [x ->]; [lia|]. simpl. lia.
Qed.

Lemma committed_last nd cs :
  aligned nd cs →
  let c := nd_core nd in
  match last (take_committed c).1 with
  | None => committed_upto c = rc_last_applied c
  | Some e => rc_last_applied c < committed_upto c ∧ e_index e = committed_upto c
  end.
Proof.
  intros Hal c. destruct (committed_slice nd cs Hal) as [Hs _]. destruct Hal as [Hw _ Hlen Ha _ _ _].
  fold c in Hs, Hw, Hlen, Ha. pose proof (lw_base _ Hw) as H0.
  assert (rc_last_applied c ≤ committed_upto c ≤ last_log_index c) as Hu by (rw /committed_upto; lia).
  pose proof (slice_last cs (Z.to_nat (rc_last_applied c)) (Z.to_nat (committed_upto c))) as Hx.
  rw -Hs fmap_last in Hx. rw /zlen in Hlen. destruct (last (take_committed c).1) as [e|]; simpl in *; lia.
Qed.

(** What a section of [apply_committed] leaves of the alignment. *)
Lemma aligned_applied nd cs :
  aligned nd cs →
  let c := nd_core nd in
  st_memtable (foldl (λ st e, store_apply (e_index e) (e_command e) st) (nd_store nd) (take_committed c).1)
    = state_at cs (Z.to_nat (committed_upto c)).
Proof.
  intros Hal c. destruct (committed_slice nd cs Hal) as [Hs _]. destruct Hal as [Hw _ Hlen Ha Hst _ _].
  rw store_apply_all Hs Hst. cbn [st_memtable set_memtable]. fold c. fold c in Hw, Hlen, Ha.
  pose proof (lw_base _ Hw) as H0. pose proof (lw_bound _ Hw) as Hb.
  pose proof (last_log_index_wf _ Hw) as Hl. pose proof (zlen_nonneg (rc_entries c)).
  assert (rc_last_applied c ≤ committed_upto c ≤ last_log_index c) as Hu by (rw /committed_upto; lia).
  apply replay_slice; [lia|rw /zlen in Hlen; lia|lia].
Qed.

Lemma aligned_step nd nd' cs :
  aligned nd cs → nd_core nd' = set_last_applied (committed_upto (nd_core nd)) (nd_core nd) →
  st_memtable (nd_store nd') = state_at cs (Z.to_nat (committed_upto (nd_core nd))) →
  st_last_snapshot (nd_store nd') = st_last_snapshot (nd_store nd) → nd_store_held nd' = false →
  aligned nd' cs.
Proof.
  intros [Hw Hc Hlen Ha Hst Hsn Hf] Ec Est Es Ef. split; rw ?Ec ?Es //; [by destruct Hw|].
  change (last_log_index (set_last_applied _ (nd_core nd))) with (last_log_index (nd_core nd)).
  cbn [rc_snapshot rc_last_applied set_last_applied]. rw /committed_upto. lia.
Qed.

(** The snapshot branch: for every failure of the snapshot and of the compaction the lock is
    given back, and the store and [last_applied] are as before. *)
Lemma snapshot_branch nd applied :
  let t := await! term := core_section (self (λ c, default 0 (term_at applied c))) in
           await! meta := section (releasing_on_error (on_store (store_snapshot term))) in
           section (releasing (on_core (compact meta))) in
  ∃ r nd', run t nd = Some (r, nd') ∧ nd_store_held nd' = false
    ∧ st_memtable (nd_store nd') = st_memtable (nd_store nd)
    ∧ rc_last_applied (nd_core nd') = rc_last_applied (nd_core nd) ∧ nd_commit nd' = nd_commit nd
    ∧ (r = Ok tt → ∃ σ σ', let meta := MkSnapshotMeta (store_last_applied (nd_store nd))
                                   (default 0 (term_at applied (nd_core nd))) in
         compact meta (nd_core nd, σ) = (Ok tt, (nd_core nd', σ'))
         ∧ st_last_snapshot (nd_store nd') = meta).
Proof.
  intros t. rw /t !run_await !run_section /on_core /self /gets. cbn [fst].
  rw run_await run_section /releasing_on_error /on_store /store_snapshot.
  destruct nd as [c st held k σ]. cbn [nd_core nd_store nd_disk nd_commit with_core].
  destruct (snapshot_write _ _ _ _) as [[p|e|] σ1]; cbn beta iota zeta;
    [|eexists _, _; (split; [done|]); by split_and!..].
  rw run_section /releasing /on_core. cbn [nd_core nd_disk nd_store nd_commit with_store with_core].
  set (meta := MkSnapshotMeta _ _).
  destruct (compact meta (c, σ1)) as [r [c' σ']] eqn:Ec.
  eexists r, _. split; [done|]. cbn. split_and!; [done|done| |done|].
  - move: Ec. rw /compact /bind /self /gets /update /modify /on_log. cbn [fst].
    destruct (_ <=? _); [by intros [= _ <- _]|].
    destruct (wal_truncate_prefix _ _) as [[[]| |] [l' σ2]]; by intros [= _ <- _].
  - intros ->. by exists σ1, σ'.
Qed.

(** Compaction up to [last_applied] keeps a node aligned. *)
Lemma aligned_compact nd nd' cs meta σ σ' :
  aligned nd cs → last_included_index meta = rc_last_applied (nd_core nd) →
  snap_index (nd_core nd) < rc_last_applied (nd_core nd) →
  compact meta (nd_core nd, σ) = (Ok tt, (nd_core nd', σ')) →
  st_memtable (nd_store nd') = st_memtable (nd_store nd) → st_last_snapshot (nd_store nd') = meta →
  nd_store_held nd' = false → aligned nd' cs.
Proof.
  intros [Hw Hc Hlen Ha Hst Hsn Hf] Hm Hlt E Est Elast Hfree. pose proof (lw_base _ Hw) as H0.
  pose proof (last_log_index_wf _ Hw) as Hl.
  rw compact_run // in E; [lia|]. cbn zeta in E.
  destruct (wal_truncate_prefix _ _) as [[[]| |] [l' σ1]]; [|done..]. injection E as E _.
  assert (log_wf (compacted meta (nd_core nd))) as Hw' by (apply compacted_wf; [done|lia]).
  assert (log_wf (nd_core nd')) as Hw2 by (rw -E; by destruct Hw').
  assert (last_log_index (nd_core nd') = last_log_index (nd_core nd)) as Hl2.
  { rw !last_log_index_wf // -E /= /zlen length_drop. unfold zlen in *. lia. }
  split; try done; rw ?Hl2 ?Est ?Elast -?E /= //; [|lia].
  rw fmap_drop Hc drop_drop. f_equal. lia.
Qed.

Lemma apply_committed_run nd cs :
  aligned nd cs →
  let upto := committed_upto (nd_core nd) in
  ∃ r nd', run apply_committed nd = Some (r, nd')
    ∧ st_memtable (nd_store nd') = state_at cs (Z.to_nat upto)
    ∧ rc_last_applied (nd_core nd') = upto ∧ nd_store_held nd' = false
    ∧ (r = Ok tt → aligned nd' cs
         ∧ nd_commit nd' = if rc_last_applied (nd_core nd) <? upto then upto else nd_commit nd)
    ∧ (r ≠ Ok tt → nd_commit nd' = nd_commit nd)
    ∧ (upto - snap_index (nd_core nd) < st_snapshot_threshold (nd_store nd) →
         r = Ok tt ∧ nd_disk nd' = nd_disk nd ∧ nd_core nd' = set_last_applied upto (nd_core nd)).
Proof.
  intros Hal upto. pose proof (committed_last nd cs Hal) as Hlast.
  pose proof (aligned_applied nd cs Hal) as Hst. destruct (committed_slice nd cs Hal) as [_ Hcore].
  rw /apply_committed run_await run_section /on_core. cbn zeta in Hlast, Hst, Hcore.
  destruct (take_committed (nd_core nd)) as [out c1]. cbn [fst snd] in *. subst c1. fold upto in Hlast, Hst |- *.
  set (nd1 := with_core (set_last_applied upto (nd_core nd)) (nd_disk nd) nd).
  destruct (last out) as [newest|]; last first.
  { assert (aligned nd1 cs) as Hal1.
    { eapply aligned_step; [done..| |done|apply (ag_free _ _ Hal)].
      rw -/upto Hlast. apply (ag_store _ _ Hal). }
    exists (Ok tt), nd1. rw Hlast Z.ltb_irrefl. split; [done|]. split; [by rw /= (ag_store _ _ Hal)|].
    split; [done|]. split; [apply (ag_free _ _ Hal)|]. split_and!; [done..|]. intros _. split_and!; [done..|].
    by rw /nd1 Hlast. }
  destruct Hlast as [Hlt Hnew]. destruct (Z.ltb_spec (rc_last_applied (nd_core nd)) upto); [|lia].
  rw run_await run_section_when /store_free. cbn [nd_store_held nd1 with_core].
  rw (ag_free _ _ Hal). cbn [negb]. rw /apply_entries. cbn [nd_store nd1 with_core].
  set (st := foldl _ _ out) in *. assert (st_last_snapshot st = st_last_snapshot (nd_store nd)
    ∧ st_snapshot_threshold st = st_snapshot_threshold (nd_store nd)) as [Hsn Hth].
  { by rw /st store_apply_all. }
  set (nd2 := with_store st _ nd1). assert (aligned (with_held false nd2) cs) as Hal2.
  { by eapply aligned_step. }
  assert (store_last_applied st = upto) as Hla.
  { rw /store_last_applied Hst /=. pose proof (lw_base _ (ag_wf _ _ Hal)). pose proof (ag_applied _ _ Hal). lia. }
  destruct (should_snapshot st) eqn:Es; rw run_await.
  - assert (st_snapshot_threshold (nd_store nd) ≤ upto - snap_index (nd_core nd)) as Hdue.
    { move: Es. rw /should_snapshot Hla Hsn Hth (ag_snapshot _ _ Hal) Z.leb_le /saturating_sub.
      pose proof (ag_applied _ _ Hal). lia. }
    destruct (snapshot_branch (with_held true nd2) upto) as (r & nd' & E & Hh & Hm & Hl & Hk & Hok).
    rw Hla E. assert (st_memtable (nd_store nd') = state_at cs (Z.to_nat upto)) as Hm' by (by rw Hm).
    destruct r as [[]|e|]; cbn beta iota; [|eexists _, nd'; split_and!; done || lia..].
    rw run_section. eexists _, _. rw Hnew. split; [done|]. split_and!; try done; [|lia]. intros _. split; [|done].
    destruct (Hok eq_refl) as (σ1 & σ2 & Ecomp & Elast).
    eapply (aligned_compact (with_held false nd2)); [done| | |exact Ecomp|done..].
    + exact Hla.
    + simpl. pose proof (ag_applied _ _ Hal). lia.
  - eexists _, _. rw Hnew. split; [done|]. split_and!; try done.
    intros _. split; [|done]. by destruct Hal2.
Qed.


(** ** Rounds of AppendEntries *)

(** The leader's log ends at [N] in its own term and the peers of [q] have acknowledged that
    much; as soon as they are a quorum, [N] is committed. *)
Record acked (N term : Z) (q : list Z) c : Prop := {
  ak_wf : log_wf c;
  ak_role : rc_role c = Leader;
  ak_term : current_term (rc_hard c) = term;
  ak_last : last_log_index c = N;
  ak_last_term : term_at N c = Some term;
  ak_size : rc_cluster_size c = zlen (rc_peers c) + 1 ∧ rc_cluster_size c ≤ u64_max;
  ak_commit : rc_commit_index c ≤ N;
  ak_match p m : rc_match_index c !! p = Some m → m ≤ N;
  ak_members : NoDup q ∧ q ⊆ rc_peers c;
  ak_acked p : p ∈ q → rc_match_index c !! p = Some N;
  ak_quorum : core_quorum c ≤ 1 + zlen q → rc_commit_index c = N
}.

Lemma reached_members (f : Z → Z) v q ps :
  NoDup q → q ⊆ ps → (∀ p, p ∈ q → v ≤ f p) → (length q ≤ reached v (f <$> ps))%nat.
Proof.
  intros Hnd Hsub Hf. assert (reached v (f <$> ps) = length (filter (λ p, v ≤ f p) ps)) as ->.
  { clear. rw /reached. induction ps as [|p ps IH]; [done|]. rw fmap_cons !filter_cons.
    case_decide; simpl; by rw IH. }
  apply submseteq_length, NoDup_submseteq; [done|]. intros p Hp. apply list_elem_of_filter. auto.
Qed.

(** [advance_commit_index] commits [N] exactly when it has to. *)
Lemma acked_advance N term q c σ :
  acked N term q (set_commit_index N c) → rc_commit_index c ≤ N →
  ∃ k, advance_commit_index (c, σ) = (Ok tt, (set_commit_index k c, σ))
    ∧ acked N term q (set_commit_index k c).
Proof.
  intros [Hw Hr Ht Hl Hlt [Hsz Hmax] _ Hm [Hnd Hsub] Hq _] Hc. simpl in *.
  change (last_log_index c = N) in Hl. change (term_at N c = Some term) in Hlt.
  assert (log_wf c) as Hwc by (by destruct Hw).
  pose proof (last_log_index_wf _ Hwc) as Hll. pose proof (lw_base _ Hwc). pose proof (zlen_nonneg (rc_entries c)).
  destruct (advance_commit_run c σ Hsz Hmax) as (cand & c' & E & Hreach & Hbest & Ec & Eci).
  assert (cand ≤ N) as Hcand.
  { destruct (decide (cand ≤ N)) as [|Hgt]; [done|exfalso].
    rw /match_indices reached_app !reached_none in Hreach; [|by repeat constructor; lia|].
    - apply Forall_fmap, Forall_forall. intros p _. simpl.
      destruct (rc_match_index c !! p) as [m|] eqn:Em; simpl; [apply Hm in Em|]; lia.
    - rw /core_quorum in Hreach. pose proof (zlen_nonneg (rc_peers c)).
      pose proof (Z.div_pos (rc_cluster_size c) 2). lia. }
  exists (rc_commit_index c'). split; [by rw E Ec|]. rw Ht in Eci.
  split; try done.
  - by destruct Hw.
  - rw /= Eci. case_decide; lia.
  - rw /core_quorum /=. fold (core_quorum c). intros Hqq. assert (N ≤ cand) as HN.
    { apply Hbest. rw /match_indices reached_app. rw (reached_all N [_]); [by repeat constructor; lia|].
      assert (∀ p, p ∈ q → N ≤ default 0 (rc_match_index c !! p)) as Hge by (intros p Hp; by rw (Hq p Hp)).
      pose proof (reached_members _ N q (rc_peers c) Hnd Hsub Hge) as Hx.
      rw /zlen in Hqq. simpl. lia. }
    rw Eci. assert (cand = N) as -> by lia. case_decide as Hd; [done|].
    destruct (decide (rc_commit_index c < N)); [|lia]. by destruct Hd.
Qed.

(** What a round changes in the core. *)
Definition round_frame c c' : Prop :=
  ∃ k n m le, c' = set_lease le (set_commit_index k (set_next_index n (set_match_index m c))).

Lemma round_frame_refl c : round_frame c c.
Proof. exists (rc_commit_index c), (rc_next_index c), (rc_match_index c), (rc_lease c). by destruct c. Qed.
Lemma round_frame_trans c1 c2 c3 : round_frame c1 c2 → round_frame c2 c3 → round_frame c1 c3.
Proof. intros (k & n & m & le & ->) (k' & n' & m' & le' & ->). by exists k', n', m', le'. Qed.

(** A peer the leader can send its log to. *)
Definition reachable N c p : Prop :=
  snap_index c < default (u64_add N 1) (rc_next_index c !! p) ≤ N + 1.

Lemma last_sent_end N p c :
  log_wf c → last_log_index c = N → reachable N c p →
  let args := build_append_entries p c in u64_add (ae_prev_log_index args) (zlen (ae_entries args)) = N.
Proof.
  intros Hw <- Hr args. pose proof (lw_base _ Hw). pose proof (lw_bound _ Hw).
  pose proof (last_log_index_wf _ Hw) as Hl. rw /args /build_append_entries.
  rw /reachable in Hr. set (next := default _ _) in *. cbn [ae_prev_log_index ae_entries].
  rw entries_from_wf //; [lia|]. rw /saturating_sub /zlen length_drop /pos. unfold zlen in *.
  rw u64_add_small; lia.
Qed.

(** A peer acknowledges. *)
Lemma acked_reply N term q p t acks c σ :
  acked N term q c → p ∈ rc_peers c → p ∉ q → t ≤ term →
  ∃ c', fold_reply p N (MkAppendEntriesReply t true 0) term acks (c, σ) = (Ok (Some (acks + 1)), (c', σ))
    ∧ acked N term (p :: q) c' ∧ round_frame c c'
    ∧ ∀ p', p' ≠ p → rc_next_index c' !! p' = rc_next_index c !! p'.
Proof.
  intros [Hw Hr Ht Hl Hlt Hsz Hc Hm [Hnd Hsub] Hq Hqq] Hp Hnq Htt.
  set (c1 := set_next_index (<[p := u64_add N 1]> (rc_next_index c))
               (set_match_index (<[p := N]> (rc_match_index c)) c)).
  destruct (acked_advance N term (p :: q) c1 σ) as (k & E & Hk); [|done|].
  { split; try done; simpl.
    - by destruct Hw.
    - intros p' m [[_ <-]|[_ Hx]]%lookup_insert_Some; [done|by eapply Hm].
    - split; [by apply NoDup_cons|set_solver].
    - intros p' Hp'. destruct (decide (p' = p)) as [->|]; [by rw lookup_insert_eq|].
      rw lookup_insert_ne //. apply Hq. set_solver. }
  exists (set_commit_index k c1). split_and!; [|done| |].
  - rw /fold_reply /bind /self /gets /is_leader. cbn [fst aer_term]. rw Ht.
    destruct (Z.ltb_spec term t); [lia|]. rw bool_decide_eq_true_2 // Z.eqb_refl /=.
    rw /on_append_entries_reply /bind /self /gets. cbn [fst]. rw Hr /= /update /modify.
    by rw -/c1 E.
  - exists k, (rc_next_index c1), (rc_match_index c1), (rc_lease c). by destruct c.
  - intros p' Hne. simpl. by rw lookup_insert_ne.
Qed.

(** The round in which the peers [ps] are sent to and acknowledge, one after the other. *)
Definition ack_round (t : Z) (ps : list Z) : list round_event :=
  ps ≫= λ p, [Sent p; Replied p (Ok (MkAppendEntriesReply t true 0))].

Lemma round_acks N term t ps : ∀ q pending sent acks nd,
  t ≤ term → acked N term q (nd_core nd) → NoDup ps → ps ⊆ pending → ps ⊆ rc_peers (nd_core nd) →
  (∀ p, p ∈ ps → p ∉ q ∧ reachable N (nd_core nd) p) →
  ∃ c' q', run (round (ack_round t ps) pending sent term acks) nd =
      Some (Ok (Some (acks + zlen ps)), with_core c' (nd_disk nd) nd)
    ∧ acked N term q' c' ∧ zlen q' = zlen q + zlen ps ∧ round_frame (nd_core nd) c'.
Proof.
  induction ps as [|p ps IH]; intros q pending sent acks nd Ht Hak Hnd Hpend Hpeers Hps.
  { exists (nd_core nd), q. rw zlen_nil !Z.add_0_r. split_and!; [by destruct nd|done|done|apply round_frame_refl]. }
  apply NoDup_cons in Hnd as [Hnp Hnd].
  destruct (list_remove_elem p pending) as [pending' Er]; [set_solver|].
  destruct (Hps p) as [Hq Hreach]; [set_solver|].
  rw /ack_round bind_cons -/(ack_round t ps). cbn [app round]. rw Er run_await run_section_on /on_core /self /gets.
  cbn [fst]. rw (last_sent_end N p (nd_core nd) (ak_wf _ _ _ _ Hak) (ak_last _ _ _ _ Hak) Hreach).
  cbn [round]. rw lookup_insert_eq run_await run_section_on /on_core. cbn [nd_core nd_disk with_core].
  destruct (acked_reply N term q p t acks (nd_core nd) (nd_disk nd) Hak) as (c1 & E & Hak1 & Hf & Hnext);
    [set_solver|done..|]. rw E. cbn beta iota.
  set (nd1 := with_core c1 _ _). destruct Hf as (k & n & m & le & Ec1).
  destruct (IH (p :: q) pending' (delete p (<[p := N]> sent)) (acks + 1) nd1) as (c2 & q2 & E2 & Hak2 & Hl2 & Hf2);
    try done.
  - apply list_remove_Some in Er. intros x Hx. assert (x ∈ p :: pending') as [->|]%elem_of_cons
      by (rw -Er; set_solver); done.
  - simpl. rw Ec1 /=. set_solver.
  - intros x Hx. destruct (Hps x) as [Hxq Hxr]; [set_solver|]. split; [set_solver|].
    rw /reachable /= Hnext; [set_solver|]. by rw Ec1.
  - exists c2, q2. rw E2 zlen_cons. rw zlen_cons in Hl2. split_and!; [|done|lia|].
    + by replace (acks + (1 + zlen ps)) with (acks + 1 + zlen ps) by lia.
    + eapply round_frame_trans; [|exact Hf2]. simpl. by exists k, n, m, le.
Qed.

End apply.

(** ** Proposals *)

Section propose.
Context {L : Type} {wal : Wal L} {laws : WalLaws L}.
Context {bin_hard : Bincode HardState} {bin_entry : Bincode LogEntry} {bin_snap : Bincode SnapshotFile}.
Implicit Types (nd : Node L) (c : RaftCore L).

(** The leader appends the way a follower does. *)
Lemma append_command_replicated command c σ :
  rc_role c = Leader →
  let e := MkLogEntry (current_term (rc_hard c)) (u64_add (last_log_index c) 1) command in
  append_command command (c, σ) = (do! append_replicated e then ret e) (c, σ).
Proof.
  intros Hr e. rw /append_command /append_replicated /bind /self /gets. cbn [fst]. rw Hr /= -/e /lift.
  destruct (bincode_serialize e) as [bs| |]; [|done..]. rw /on_log.
  by destruct (wal_append bs (rc_log c, σ)) as [[i| |] [l σ1]].
Qed.

(** The first section of [propose]. *)
Lemma propose_append command c σ a :
  let N := last_log_index c + 1 in
  let e := MkLogEntry (current_term (rc_hard c)) N command in
  fault_free σ → mirror σ c a → rc_role c = Leader → storable e → N < u64_max →
  rc_cluster_size c = zlen (rc_peers c) + 1 → rc_cluster_size c ≤ u64_max →
  rc_commit_index c ≤ N → (∀ p m, rc_match_index c !! p = Some m → m ≤ N) →
  ∃ l k σ' a', let c' := set_commit_index k (set_log l (pushed e c)) in
    (let! entry := append_command command in
     do! core_sync then do! advance_commit_index then ret (e_index entry)) (c, σ) = (Ok N, (c', σ'))
    ∧ acked N (current_term (rc_hard c)) [] c' ∧ mirror σ' c' a' ∧ wal_clean σ' l ∧ fault_free σ'.
Proof.
  intros N e Hs Hm Hr Hst Hb Hsz Hmax Hc Hma. pose proof (mi_wf _ _ _ Hm) as Hw.
  pose proof (last_log_index_wf _ Hw). pose proof (lw_base _ Hw). pose proof (zlen_nonneg (rc_entries c)).
  destruct (append_replicated_mirror e c σ a Hs Hm Hst eq_refl Hb) as (c1 & σ1 & a1 & E1 & Hm1 & Hs1 & _ & Hl1).
  destruct (append_replicated_run _ _ _ _ _ E1) as [l1 Ec1].
  destruct (wal_sync_spec (rc_log c1) σ1 a1 Hs1 (mi_rep _ _ _ Hm1)) as (l2 & σ2 & E2 & Hr2 & Hcl2 & Hs2).
  set (c2 := set_log l2 (pushed e c)). assert (set_log l2 c1 = c2) as Ec2 by (by rw Ec1).
  assert (mirror σ2 c2 a1) as Hm2.
  { destruct Hm1 as [Hw1 _ Hf1 Hla1 He1]. rw -Ec2. split; try done. by destruct Hw1. }
  assert (last_log_index c2 = N) as Hl2 by (transitivity (last_log_index c1); [by rw Ec1|exact Hl1]).
  destruct (acked_advance N (current_term (rc_hard c)) [] c2 σ2) as (k & E3 & Hak); [|done|].
  { split; try done; simpl.
    - by destruct (mi_wf _ _ _ Hm2).
    - change (term_at N (set_commit_index N c2)) with (term_at N c2).
      rw -Hl2 (term_at_last _ (mi_wf _ _ _ Hm2)). by rw /last_log_term /= last_snoc.
    - split; [apply NoDup_nil_2|set_solver].
    - by intros p ?%elem_of_nil. }
  exists l2, k, σ2, a1. split_and!; [|done| |done|done].
  - rw {1}/bind append_command_replicated // u64_add_small; [lia|]. fold N e.
    rw {1}/bind E1 /ret {1}/bind /core_sync /on_log. rw E2 Ec2. by rw /bind E3.
  - by eapply mirror_core.
Qed.

Lemma state_at_app cs cs' n : (n ≤ length cs)%nat → state_at (cs ++ cs') n = state_at cs n.
Proof. intros Hn. by rw /state_at take_app_le. Qed.

(** A node with one more entry in its log is aligned with one more command. *)
Lemma aligned_push nd nd' cs e :
  aligned nd cs → log_wf (nd_core nd') → rc_entries (nd_core nd') = rc_entries (nd_core nd) ++ [e] →
  rc_snapshot (nd_core nd') = rc_snapshot (nd_core nd) →
  rc_last_applied (nd_core nd') = rc_last_applied (nd_core nd) → nd_store nd' = nd_store nd →
  nd_store_held nd' = false → aligned nd' (cs ++ [e_command e]).
Proof.
  intros [Hw Hc Hlen Ha Hst Hsn Hf] Hw' Ee Es El Est Ef. pose proof (lw_base _ Hw).
  pose proof (last_log_index_wf _ Hw) as Hl. pose proof (last_log_index_wf _ Hw') as Hl'.
  rw Ee Es zlen_app zlen_cons zlen_nil in Hl'. rw /zlen in Hlen.
  split; rw ?Es ?El ?Est //.
  - rw Ee fmap_app Hc drop_app_le //. unfold zlen in *. lia.
  - rw zlen_app zlen_cons zlen_nil Hl'. unfold zlen in *. lia.
  - unfold zlen in *. lia.
  - rw Hst state_at_app //. lia.
Qed.

(** A round that a quorum acknowledges commits the end of the log. *)
Lemma broadcast_acks N term t ps now nd :
  acked N term [] (nd_core nd) → t ≤ term → NoDup ps → ps ⊆ rc_peers (nd_core nd) →
  (∀ p, p ∈ ps → reachable N (nd_core nd) p) → core_quorum (nd_core nd) ≤ 1 + zlen ps →
  ∃ c', run (broadcast_append_entries now (ack_round t ps)) nd = Some (Ok tt, with_core c' (nd_disk nd) nd)
    ∧ round_frame (nd_core nd) c' ∧ rc_commit_index c' = N.
Proof.
  intros Hak Ht Hnd Hsub Hps Hq. rw /broadcast_append_entries run_await run_section /on_core /self /gets.
  cbn [fst snd]. rw (ak_term _ _ _ _ Hak) run_await.
  set (nd1 := with_core _ _ nd). assert (nd1 = nd) as -> by (by destruct nd).
  destruct (round_acks N term t ps [] (rc_peers (nd_core nd)) ∅ 1 nd) as (c1 & q1 & E & Hak1 & Hlq & Hf);
    [done..|by split; [set_solver|auto]|]. rw E. cbn beta iota. rw run_await run_section /on_core. cbn [nd_core nd_disk with_core].
  destruct Hf as (k & n & m & le & Ec). rw zlen_nil Z.add_0_l in Hlq.
  assert (core_quorum c1 = core_quorum (nd_core nd)) as Hqc by (by rw Ec).
  destruct (Z.leb_spec (core_quorum c1) (1 + zlen ps)); [|lia]. cbn [fst].
  destruct (Z.leb_spec (core_quorum c1) (1 + zlen ps)); [|lia].
  rw run_section /on_core /update /modify. cbn [nd_core nd_disk with_core].
  exists (renew_lease now c1). rw /renew_lease /is_leader bool_decide_eq_true_2; [apply (ak_role _ _ _ _ Hak1)|].
  split_and!; [done| |].
  - rw Ec. by exists k, n, m, (lease_renew now le).
  - apply (ak_quorum _ _ _ _ Hak1). lia.
Qed.

Lemma propose_run command now ps nd cs a :
  let c := nd_core nd in
  let N := last_log_index c + 1 in
  let term := current_term (rc_hard c) in
  aligned nd cs → fault_free (nd_disk nd) → mirror (nd_disk nd) c a → rc_role c = Leader →
  storable (MkLogEntry term N command) → N < u64_max →
  rc_cluster_size c = zlen (rc_peers c) + 1 → rc_cluster_size c ≤ u64_max →
  rc_commit_index c ≤ N → (∀ p m, rc_match_index c !! p = Some m → m ≤ N) →
  NoDup ps → ps ⊆ rc_peers c → (∀ p, p ∈ ps → reachable N c p) → core_quorum c ≤ 1 + zlen ps →
  N - snap_index c < st_snapshot_threshold (nd_store nd) →
  ∃ nd' a', run (propose command now (ack_round term ps)) nd = Some (Ok N, nd')
    ∧ aligned nd' (cs ++ [command])
    ∧ st_memtable (nd_store nd') = state_at (cs ++ [command]) (length cs + 1)
    ∧ rc_commit_index (nd_core nd') = N ∧ rc_last_applied (nd_core nd') = N ∧ nd_commit nd' = N
    ∧ rc_role (nd_core nd') = Leader
    ∧ mirror (nd_disk nd') (nd_core nd') a' ∧ wal_clean (nd_disk nd') (rc_log (nd_core nd')).
Proof.
  intros c N term Hal Hs Hm Hr Hst Hb Hsz Hmax Hc Hma Hnd Hsub Hps Hq Hth.
  destruct (propose_append command c (nd_disk nd) a Hs Hm Hr Hst Hb Hsz Hmax Hc Hma)
    as (l & k & σ1 & a1 & E1 & Hak & Hm1 & Hcl & Hs1). fold N term in E1, Hak, Hm1.
  set (c1 := set_commit_index k _) in *.
  rw /propose run_await run_section /on_core. fold c. rw {1}/bind {1}/self /gets. cbn [fst].
  rw /is_leader bool_decide_eq_true_2 //. cbn [negb]. rw E1. cbn beta iota.
  set (nd1 := with_core c1 σ1 nd). rw run_await run_discard.
  destruct (broadcast_acks N term term ps now nd1) as (c2 & E2 & Hf & Hci); [done..|]. rw E2. cbn beta iota.
  destruct Hf as (k2 & n2 & m2 & le2 & Ec2). set (nd2 := with_core c2 _ nd1).
  assert (log_wf c2) as Hw2 by (rw Ec2; by destruct (mi_wf _ _ _ Hm1)).
  assert (last_log_index c2 = N) as Hl2 by (rw Ec2; exact (ak_last _ _ _ _ Hak)).
  assert (aligned nd2 (cs ++ [command])) as Hal2.
  { eapply (aligned_push nd nd2 cs (MkLogEntry term N command) Hal); [done|by rw /= Ec2..|done|].
    exact (ag_free _ _ Hal). }
  assert (rc_last_applied c2 ≤ N ∧ 0 ≤ rc_last_applied c2 ∧ rc_last_applied c2 < N) as Hla.
  { rw Ec2 /=. fold c. pose proof (ag_applied _ _ Hal). pose proof (lw_base _ (ag_wf _ _ Hal)). fold c in H, H0. lia. }
  assert (committed_upto (nd_core nd2) = N) as Hu by (rw /committed_upto /= Hci Hl2; lia).
  destruct (apply_committed_run nd2 (cs ++ [command]) Hal2) as (r & nd3 & E3 & Hst3 & Hla3 & _ & Hok & _ & Hno).
  rw Hu in Hst3, Hla3, Hok, Hno. destruct Hno as (-> & Hd & Hc3); [by rw /= Ec2|].
  destruct (Hok eq_refl) as [Hal3 Hk3]. rw run_await E3. cbn beta iota.
  exists nd3, a1. rw Hc3 Hd. split_and!; [done|done| |done|done| |by rw /= Ec2| |].
  - rw Hst3. f_equal. pose proof (ag_length _ _ Hal). fold c in H. rw /zlen in H. lia.
  - rw Hk3 /=. by destruct (Z.ltb_spec (rc_last_applied c2) N); [|lia].
  - eapply mirror_core; [exact Hm1|by rw /= Ec2..].
  - by rw /= Ec2.
Qed.


End propose.

(** ** Witnesses *)

#[local] Existing Instance crc32fast.
#[local] Existing Instance bincode_codec.

(** Two committed entries and a snapshot that is due. *)
Definition demo_commit : Node Log :=
  MkNode (demo_core Follower (demo_entries [1; 1] 1) default_meta 2 0)
    (MkStore (snapshot_dir demo_cluster) memtable_new 2 default_meta) false 0 empty_fs.


(** The leader of a three-node cluster; node 2 acknowledges, node 3 is down. *)
Definition demo_lead : Node Log :=
  MkNode (set_hard (MkHardState 2 (Some 1)) (set_role Leader demo_replica)) fresh_store false 0
    demo_replica_disk.

Lemma demo_lead_aligned : aligned demo_lead [Noop; Noop; Noop].
Proof.
  split; try done.
  destruct (demo_core_wf Leader [1; 1; 1] default_meta 0 0) as [H1 H2 H3]; [evaluate..|by split].
Qed.

