(* ===== verification/Interleave.v ===== *)
(** * Interleave: tasks of a node running at the same time.

    What holds, and what does not, when the driver's tick, client proposals and the handlers
    of peers' calls interleave at the granularity of their locks. *)

From Corelib Require Import ssreflect.
From stdpp Require Import base gmap strings list relations.
From S2P Require Import Prelude Text Fs AtomicFile Crc Record WalLog Codec Config MemTable Snapshot Store.
From S2P Require Import RaftState Wal RaftCore Election Replication Mirror Task Driver Apply.

Section interleave.
Context {L : Type} {wal : Wal L}.
Context {bin_hard : Bincode HardState} {bin_entry : Bincode LogEntry} {bin_snap : Bincode SnapshotFile}.
Implicit Types (nd : Node L) (c : RaftCore L).

(** The tasks of a node: the ticks of its driver, the proposals of its clients, and the calls
    of its peers. *)
Inductive node_task : task message (Node L) unit → Prop :=
| task_tick now now' draw votes events : node_task (tick now now' draw votes events)
| task_propose command now events : node_task (discard (propose command now events))
| task_request_vote args now draw : node_task (discard (core_section (handle_request_vote args now draw)))
| task_append_entries args now draw :
    node_task (discard (core_section (handle_append_entries args now draw))).

(** ** Core operations that keep a property of the core *)

Definition core_keeps {A} (P : RaftCore L → Prop) (m : M (RaftCore L * fs) A) : Prop :=
  ∀ c σ, P c → P (m (c, σ)).2.1.

Lemma ck_bind {A B} P (m : M _ A) (k : A → M _ B) :
  core_keeps P m → (∀ a, core_keeps P (k a)) → core_keeps P (bind m k).
Proof.
  intros Hm Hk c σ Hc. specialize (Hm c σ Hc). rw /bind.
  destruct (m (c, σ)) as [[a|e|] [c' σ']]; [|done..]. by apply Hk.
Qed.
Lemma ck_ret {A} P (a : A) : core_keeps P (ret a).
Proof. by intros c σ. Qed.
Lemma ck_throw {A} P e : core_keeps P (throw (A := A) e).
Proof. by intros c σ. Qed.
Lemma ck_lift {A} P (o : outcome A) : core_keeps P (lift o).
Proof. by intros c σ. Qed.
Lemma ck_unwrap {A} P (o : option A) : core_keeps P (unwrap o).
Proof. by intros c σ; destruct o. Qed.
Lemma ck_self {A} P (f : RaftCore L → A) : core_keeps P (self f).
Proof. by intros c σ. Qed.
Lemma ck_update P f : (∀ c, P c → P (f c)) → core_keeps P (update f).
Proof. intros Hf c σ. apply Hf. Qed.
Lemma ck_persist P : core_keeps P persist_hard.
Proof. intros c σ Hc. rw /persist_hard. by destruct (hard_persist _ _ σ). Qed.
Lemma ck_on_log {A} P (m : M (L * fs) A) : (∀ l c, P c → P (set_log l c)) → core_keeps P (on_log m).
Proof. intros Hl c σ Hc. rw /on_log. destruct (m (rc_log c, σ)) as [r [l' σ']]. by apply Hl. Qed.
Lemma ck_for_each {A} P (f : A → M _ unit) l : (∀ a, core_keeps P (f a)) → core_keeps P (for_each f l).
Proof. intros Hf. induction l as [|a l IH]; [apply ck_ret|]. by apply ck_bind. Qed.

(** ** A node without peers *)

Definition lone c : Prop := rc_peers c = [] ∧ rc_role c ≠ Leader.

End interleave.

(** Follow the structure of an operation. *)
Ltac core_keeps :=
  repeat match goal with
  | |- core_keeps _ (bind _ _) => apply ck_bind; [|intros ?]
  | |- core_keeps _ (ret _) => apply ck_ret
  | |- core_keeps _ (throw _) => apply ck_throw
  | |- core_keeps _ (lift _) => apply ck_lift
  | |- core_keeps _ (unwrap _) => apply ck_unwrap
  | |- core_keeps _ (self _) => apply ck_self
  | |- core_keeps _ persist_hard => apply ck_persist
  | |- core_keeps _ (update _) => apply ck_update; intros ? ?
  | |- core_keeps _ (on_log _) => apply ck_on_log; intros ? ? ?
  | |- core_keeps _ (for_each _ _) => apply ck_for_each; intros ?
  | |- core_keeps _ (if ?b then _ else _) => destruct b
  | |- core_keeps _ (match ?o with Some _ => _ | None => _ end) => destruct o
  end.

Section lone.
Context {L : Type} {wal : Wal L}.
Context {bin_hard : Bincode HardState} {bin_entry : Bincode LogEntry} {bin_snap : Bincode SnapshotFile}.
Implicit Types (nd : Node L) (c : RaftCore L).

Lemma lone_follower term leader : core_keeps lone (become_follower (L := L) term leader).
Proof. rw /become_follower. core_keeps; by destruct H. Qed.
Lemma lone_candidate now draw : core_keeps lone (become_candidate (L := L) now draw).
Proof. rw /become_candidate /reset_election_timer. core_keeps; by destruct H. Qed.
Lemma lone_request_vote args now draw : core_keeps lone (handle_request_vote (L := L) args now draw).
Proof.
  rw /handle_request_vote /decide_vote /reset_election_timer.
  core_keeps; by [apply lone_follower|destruct H].
Qed.
Lemma lone_append_entries args now draw : core_keeps lone (handle_append_entries (L := L) args now draw).
Proof.
  rw /handle_append_entries /reset_election_timer /splice /splice_entry /truncate_from
    /append_replicated /core_sync.
  core_keeps; by [apply lone_follower|destruct H|case_zb; destruct H].
Qed.
Lemma lone_compact meta : core_keeps lone (compact (L := L) meta).
Proof. rw /compact. core_keeps; by destruct H. Qed.

Lemma lone_take c : lone c → lone (take_committed c).2.
Proof.
  rw /take_committed. generalize (Z.to_nat (rc_commit_index c - rc_last_applied c)) as fuel.
  intros fuel. revert c. induction fuel as [|fuel IH]; intros c Hc; [done|]. cbn [take_loop].
  destruct (_ <? _); [|done]. destruct (entry_at _ c) as [e|]; [|done].
  specialize (IH (set_last_applied (u64_add (rc_last_applied c) 1) c) Hc).
  by destruct (take_loop fuel _).
Qed.

(** A section of the core. *)
Lemma keeps_core {A} (P : RaftCore L → Prop) (Q : A → Prop) (m : M (RaftCore L * fs) A) :
  core_keeps P m → (∀ c σ a, P c → (m (c, σ)).1 = Ok a → Q a) →
  keeps (λ nd, P (nd_core nd)) Q (core_section m).
Proof.
  intros Hm HQ. apply keeps_section. intros nd Hnd. rw /on_core.
  specialize (Hm (nd_core nd) (nd_disk nd) Hnd). specialize (HQ (nd_core nd) (nd_disk nd)).
  destruct (m _) as [r [c σ]]. naive_solver.
Qed.

Abbreviation lone_node := (λ nd, lone (nd_core nd)).

Lemma lone_collect completions term votes :
  keeps lone_node (λ _, True) (collect_votes (L := L) completions [] term votes).
Proof. revert votes. by induction completions as [|[p r] completions IH]. Qed.

Lemma lone_start_election now draw completions :
  keeps lone_node (λ _, True) (start_election (L := L) now draw completions).
Proof.
  eapply keeps_await; [apply (keeps_core lone (λ _, True)); [|done]|intros term _].
  { apply ck_bind; [apply lone_candidate|intros ?]. apply ck_self. }
  eapply keeps_await; [apply (keeps_core lone (λ ps, ps = [])); [apply ck_self|]|].
  { intros c σ a [Hp _] [= <-]. exact Hp. }
  intros ps ->. apply lone_collect.
Qed.

Lemma lone_apply : keeps lone_node (λ _, True) (apply_committed (L := L)).
Proof.
  eapply keeps_await; [apply (keeps_core lone (λ _, True)); [|done]|intros committed _].
  { intros c σ Hc. pose proof (lone_take c Hc). by destruct (take_committed c). }
  destruct (last committed) as [newest|]; [|done].
  eapply keeps_await; [apply (keeps_section _ (λ _, True)); by intros nd Hnd|intros due _].
  eapply (keeps_await _ (λ _, True)); [|intros ? _; apply keeps_section; by intros nd Hnd].
  destruct due as [applied|]; [|exact I].
  eapply keeps_await; [apply (keeps_core lone (λ _, True)); [apply ck_self|done]|intros term _].
  eapply keeps_await; [apply (keeps_section _ (λ _, True))|intros meta _; apply (keeps_section _ (λ _, True))].
  - intros nd Hnd. rw /releasing_on_error /on_store. by destruct (store_snapshot _ _) as [[] [st σ]].
  - intros nd Hnd. rw /releasing /on_core. pose proof (lone_compact meta (nd_core nd) (nd_disk nd) Hnd).
    by destruct (compact _ _) as [r [c σ]].
Qed.

Lemma lone_tick now now' draw votes events :
  keeps lone_node (λ _, True) (tick (L := L) now now' draw votes events).
Proof.
  eapply keeps_await; [apply (keeps_core lone (λ a, a ≠ Replicate)); [apply ck_self|]|].
  { intros c σ a [_ Hr] [= <-]. cbn [fst]. rw /is_leader bool_decide_eq_false_2 //. by destruct (election_timed_out now c). }
  intros action Ha. eapply (keeps_await _ (λ _, True)); [|intros ? _; apply lone_apply].
  destruct action; [apply lone_start_election|done|exact I].
Qed.

Lemma lone_propose command now events :
  keeps lone_node (λ _, False) (propose (L := L) command now events).
Proof.
  eapply keeps_await; [apply (keeps_core lone (λ _, False))|done].
  - intros c σ [Hp Hr]. rw /bind /self /gets /is_leader. cbn [fst]. by rw bool_decide_eq_false_2.
  - intros c σ a [Hp Hr]. rw /bind /self /gets /is_leader. cbn [fst]. by rw bool_decide_eq_false_2.
Qed.

Lemma lone_task t : node_task t → keeps lone_node (λ _, True) t.
Proof.
  intros [].
  - apply lone_tick.
  - eapply keeps_discard, lone_propose.
  - eapply keeps_discard, (keeps_core lone (λ _, True)); [apply lone_request_vote|done].
  - eapply keeps_discard, (keeps_core lone (λ _, True)); [apply lone_append_entries|done].
Qed.

End lone.

Section single_node.
Context `{Crc32} {bin_hard : Bincode HardState} {bin_entry : Bincode LogEntry}.
Context {bin_snap : Bincode SnapshotFile} {SocketAddr : Type}.

Lemma restore_role (cfg : Config SocketAddr) snap (log : Log) now draw σ c σ' :
  restore cfg snap log now draw σ = (Ok c, σ') →
  rc_role c = Follower ∧ rc_peers c = peer_id <$> cfg_peers cfg.
Proof.
  rw /restore. intros (hard & σ1 & _ & E)%bind_Ok_inv. apply bind_Ok_inv in E as (recs & σ2 & _ & E).
  apply bind_Ok_inv in E as (entries & σ3 & _ & E).
  destruct (reset_election_timer _ _ _) as [r [c2 σ4]] eqn:Er.
  apply reset_timer_run in Er as [_ [t ->]]. by destruct r; simplify_eq.
Qed.

(** C31: a node without peers never becomes leader: whatever its driver, its clients and
    callers do, in whatever interleaving, a node started from a configuration without peers
    stays follower or candidate, and a proposal that runs is refused. *)
Theorem lone_node_never_leads (cfg : Config SocketAddr) now draw σ nd σ' ts nd' ts' command now' events :
  cfg_peers cfg = [] → bootstrap cfg now draw σ = (Ok nd, σ') →
  Forall node_task ts → rtc pool_step (nd, ts) (nd', ts') →
  rc_role (nd_core nd') ≠ Leader
  ∧ run (propose command now' events) nd' = Some (Err (ERaft "not leader"), nd').
Proof.
  intros Hp Hb Hts Hrun. move: Hb. rw /bootstrap.
  intros (st & σ1 & _ & E)%bind_Ok_inv. apply bind_Ok_inv in E as (log & σ2 & _ & E).
  apply bind_Ok_inv in E as (c & σ3 & Ec & E). injection E as <- <-.
  destruct (restore_role _ _ _ _ _ _ _ _ Ec) as [Hr Hps]. rw Hp in Hps.
  destruct (pool_keeps (λ nd, lone (nd_core nd)) (λ _, True) _ _ Hrun) as [[_ Hl] _].
  - split; [done|]. by rw /= Hr.
  - eapply Forall_impl; [exact Hts|]. apply lone_task.
  - split; [done|]. rw /propose run_await run_section /on_core /bind /self /gets /is_leader.
    cbn [fst]. rw bool_decide_eq_false_2 //. by destruct nd'.
Qed.

End single_node.

(** ** Concrete runs *)

#[local] Existing Instance crc32fast.
#[local] Existing Instance bincode_codec.

(** C38: two proposals at the same time can lose a write: on the leader of a three-node
    cluster that has just started, both proposals are committed and return success, but the
    task of the first is overtaken between taking its entries and applying them; the store
    then counts the first command as applied without having its effect. *)
Theorem concurrent_proposals_lose_write :
  let put1 := propose (L := Log) (Put [x61] [x31]) 0 (ack_round 1 [2]) in
  let put2 := propose (Put [x62] [x32]) 0 (ack_round 1 [2]) in
  ∃ nd', rtc pool_step (demo_after, [put1; put2]) (nd', [Done (Ok 2); Done (Ok 3)])
    ∧ rc_commit_index (nd_core nd') = 3
    ∧ e_command <$> entry_at 2 (nd_core nd') = Some (Put [x61] [x31])
    ∧ store_last_applied (nd_store nd') = 3
    ∧ store_get [x62] (nd_store nd') = Some [x32]
    ∧ store_get [x61] (nd_store nd') = None.
Proof.
  intros put1 put2. set (sched := replicate 7 0%nat ++ replicate 9 1%nat ++ replicate 2 0%nat).
  set (res := pool_run sched (demo_after, [put1; put2])).
  exists (from_option fst demo_after res). split_and!; [|vm_compute; reflexivity..].
  apply (pool_run_steps sched). vm_compute. reflexivity.
Qed.

(** A single-node deployment: its driver ticks once, and its election timer has run out. *)
Definition single_start : Node Log :=
  match bootstrap demo_config 0 0 empty_fs with (Ok nd, _) => nd | _ => demo_start end.
Definition single_tick : task message (Node Log) unit := tick (from_millis 500) (from_millis 500) 0 [] [].
Definition single_run := pool_run [0; 0; 0; 0]%nat (single_start, [single_tick]).

Lemma lone_node_never_leads_witness :
  let nd := from_option fst single_start single_run in
  current_term (rc_hard (nd_core nd)) = 1 ∧ rc_role (nd_core nd) ≠ Leader
  ∧ run (propose Noop 0 []) nd = Some (Err (ERaft "not leader"), nd).
Proof.
  intros nd. split; [vm_compute; reflexivity|].
  apply (lone_node_never_leads demo_config 0 0 empty_fs single_start (bootstrap demo_config 0 0 empty_fs).2
    [single_tick] nd [Done (Ok tt)]).
  - done.
  - vm_compute. reflexivity.
  - apply Forall_singleton, task_tick.
  - apply (pool_run_steps [0; 0; 0; 0]%nat). vm_compute. reflexivity.
Defined.
