(* ===== verification/Service.v ===== *)
(** * Service: the gRPC services and the peer transport (src/rpc/service.rs).

    The services are tasks over the shared node of file Driver; the messages are the ones of
    src/rpc/proto/kv.proto.  The gRPC library is a parameter: how it connects to an address,
    how a call ends, and how it prints the errors of other libraries. *)

From Corelib Require Import ssreflect.
From stdpp Require Import base gmap strings list relations pretty.
From S2P Require Import Prelude Text Fs AtomicFile Crc Record WalLog Codec Config MemTable Snapshot Store.
From S2P Require Import RaftState Wal RaftCore Election Replication Mirror Task Driver Apply.

(** ** Messages *)
Record GetResponse := MkGetResponse { gr_found : bool; gr_value : list byte; gr_leader_hint : Z }.
Record PutResponse := MkPutResponse { pr_index : Z }.
Record DeleteResponse := MkDeleteResponse { dr_index : Z }.
Record pb_LogEntry := MkPbLogEntry { pb_term : Z; pb_index : Z; pb_command : list byte }.
Record AppendEntriesRequest := MkAppendEntriesRequest {
  aq_term : Z; aq_leader_id : Z; aq_prev_log_index : Z; aq_prev_log_term : Z;
  aq_entries : list pb_LogEntry; aq_leader_commit : Z }.

(** The errors a service returns. *)
Inductive Status :=
| FailedPrecondition (msg : string)
| Internal (msg : string)
| DeadlineExceeded (msg : string).

(** A service call returns a response or a status. *)
Abbreviation served A := (A + Status)%type.

(** [normalize_url]. *)
Definition normalize_url (addr : string) : string :=
  if starts_with "http://" addr || starts_with "https://" addr then addr else "http://" +:+ addr.

Section service.
Context {L : Type} {wal : Wal L}.
Context {bin_hard : Bincode HardState} {bin_entry : Bincode LogEntry} {bin_snap : Bincode SnapshotFile}.
Context {bin_command : Bincode Command}.
(** The texts [std::io] gives to its errors. *)
Context (io_text : ErrorKind → string).
Implicit Types (nd : Node L) (c : RaftCore L).

(** ** Conversions *)

(** [Display] of [crate::Error]. *)
Definition to_string (e : Error) : string :=
  match e with
  | EIo kind => "i/o error: " +:+ io_text kind
  | EEncode msg => "serialization error: " +:+ msg
  | ECorruption msg => "corruption detected: " +:+ msg
  | EWal msg => "wal error: " +:+ msg
  | ERaft msg => "raft error: " +:+ msg
  | EConfig msg => "configuration error: " +:+ msg
  | ETransport msg => "transport error: " +:+ msg
  end.

(** [status]. *)
Definition status (e : Error) : Status :=
  match e with
  | ERaft msg => FailedPrecondition msg
  | other => Internal (to_string other)
  end.

Definition entry_to_pb (e : LogEntry) : outcome pb_LogEntry :=
  match bincode_serialize (e_command e) with
  | Ok bs => Ok (MkPbLogEntry (e_term e) (e_index e) bs)
  | Err e => Err e
  | Panic => Panic
  end.
Definition entry_from_pb (p : pb_LogEntry) : outcome LogEntry :=
  match bincode_deserialize (pb_command p) with
  | Ok command => Ok (MkLogEntry (pb_term p) (pb_index p) command)
  | Err e => Err e
  | Panic => Panic
  end.

(** The loops that convert the entries of a message, stopping at the first error. *)
Fixpoint try_map {A B} (f : A → outcome B) (l : list A) : outcome (list B) :=
  match l with
  | [] => Ok []
  | a :: l =>
      match f a with
      | Ok b => match try_map f l with Ok bs => Ok (b :: bs) | o => o end
      | Err e => Err e
      | Panic => Panic
      end
  end.

(** [.map_err(status)] on the result of a task, and what follows a success. *)
Fixpoint map_err_status {A} (t : task message (Node L) A) : task message (Node L) (served A) :=
  match t with
  | Done (Ok a) => Done (Ok (inl a))
  | Done (Err e) => Done (Ok (inr (status e)))
  | Done Panic => Done Panic
  | Atomic event ready f => Atomic event ready (λ s, let '(t', s') := f s in (map_err_status t', s'))
  end.
Definition then_serve {A B} (t : task message (Node L) (served A)) (k : A → task message (Node L) (served B))
    : task message (Node L) (served B) :=
  await! r := t in
  match r with inl a => k a | inr st => Done (Ok (inr st)) end.

(** ** The client service *)

(** What ends a wait for the commit channel. *)
Inductive wait_event := Changed | Closed | TimedOut.

(** [KvService::wait_for_commit]; [events] is how its successive waits end, and a wait that
    has not ended yet never gets on. *)
Fixpoint wait_for_commit (index : Z) (events : list wait_event) : task message (Node L) (served unit) :=
  await! published := section (gets nd_commit) in
  if index <=? published then Done (Ok (inl tt))
  else match events with
       | Changed :: events => wait_for_commit index events
       | Closed :: _ => Done (Ok (inr (Internal "commit channel closed")))
       | TimedOut :: _ => Done (Ok (inr (DeadlineExceeded "timed out waiting for commit")))
       | [] => Atomic None (λ _, false) (λ s, (Done Panic, s))
       end.

(** [KvService::get]. *)
Definition kv_get (key : list byte) : task message (Node L) (served GetResponse) :=
  await! view := core_section (self (λ c, (is_leader c, default 0 (rc_leader_id c)))) in
  let '(leader, leader_hint) := view in
  if negb leader then Done (Ok (inl (MkGetResponse false [] leader_hint)))
  else
    await! value := section_when store_free (gets (λ nd, store_get key (nd_store nd))) in
    Done (Ok (inl (match value with
                   | Some v => MkGetResponse true v leader_hint
                   | None => MkGetResponse false [] leader_hint
                   end))).

(** [KvService::put] and [KvService::delete]. *)
Definition kv_put (key value : list byte) (now : Z) (round : list round_event) (waits : list wait_event)
    : task message (Node L) (served PutResponse) :=
  then_serve (map_err_status (propose (Put key value) now round)) (λ index,
  then_serve (wait_for_commit index waits) (λ _,
  Done (Ok (inl (MkPutResponse index))))).
Definition kv_delete (key : list byte) (now : Z) (round : list round_event) (waits : list wait_event)
    : task message (Node L) (served DeleteResponse) :=
  then_serve (map_err_status (propose (Delete key) now round)) (λ index,
  then_serve (wait_for_commit index waits) (λ _,
  Done (Ok (inl (MkDeleteResponse index))))).

(** ** The service for peers *)

(** [RaftService::request_vote]; the message has the fields of [RequestVoteArgs]. *)
Definition serve_request_vote (r : RequestVoteArgs) (now draw : Z)
    : task message (Node L) (served RequestVoteReply) :=
  let args := MkRequestVoteArgs (rv_term r) (rv_candidate_id r) (rv_last_log_index r) (rv_last_log_term r) in
  then_serve (map_err_status (core_section (handle_request_vote args now draw))) (λ reply,
  Done (Ok (inl (MkRequestVoteReply (rvr_term reply) (rvr_vote_granted reply))))).

(** [RaftService::append_entries]. *)
Definition serve_append_entries (r : AppendEntriesRequest) (now draw : Z)
    : task message (Node L) (served AppendEntriesReply) :=
  then_serve (map_err_status (Done (try_map entry_from_pb (aq_entries r)))) (λ entries,
  let args := MkAppendEntriesArgs (aq_term r) (aq_leader_id r) (aq_prev_log_index r)
                (aq_prev_log_term r) entries (aq_leader_commit r) in
  then_serve (map_err_status (core_section (handle_append_entries args now draw))) (λ reply,
  Done (Ok (inl (MkAppendEntriesReply (aer_term reply) (aer_success reply) (aer_conflict_index reply)))))).

End service.

(** ** The transport *)

Section transport.
Context {bin_command : Bincode Command}.
(** The gRPC client: connecting to a URL, and the two calls; an error comes with its text. *)
Context {Client : Type} (connect : string → Client + string).
Context (call_request_vote : Client → RequestVoteArgs → RequestVoteReply + string).
Context (call_append_entries : Client → AppendEntriesRequest → AppendEntriesReply + string).

Record PeerTransport := MkPeerTransport { pt_addrs : gmap Z string; pt_clients : gmap Z Client }.

(** [PeerTransport::new]. *)
Definition transport_new (peers : list Peer) : PeerTransport :=
  MkPeerTransport (foldl (λ m p, <[peer_id p := normalize_url (peer_addr p)]> m) ∅ peers) ∅.

(** [.map_err(|e| Error::Transport(e.to_string()))?]. *)
Definition or_transport {S A} (r : A + string) : M S A :=
  match r with inl a => ret a | inr msg => throw (ETransport msg) end.

(** [PeerTransport::client]. *)
Definition client (to : Z) : M PeerTransport Client :=
  let! cached := gets (λ t, pt_clients t !! to) in
  match cached with
  | Some client => ret client
  | None =>
      let! url := gets (λ t, pt_addrs t !! to) in
      match url with
      | None => throw (ETransport ("unknown peer id " +:+ pretty to))
      | Some url =>
          let! client := or_transport (connect url) in
          do! modify (λ t, MkPeerTransport (pt_addrs t) (<[to := client]> (pt_clients t))) then
          ret client
      end
  end.

(** [PeerTransport::request_vote] and [PeerTransport::append_entries]. *)
Definition send_request_vote (to : Z) (args : RequestVoteArgs)
    : M PeerTransport RequestVoteReply :=
  let! c := client to in
  let! resp := or_transport (call_request_vote c
    (MkRequestVoteArgs (rv_term args) (rv_candidate_id args) (rv_last_log_index args)
       (rv_last_log_term args))) in
  ret (MkRequestVoteReply (rvr_term resp) (rvr_vote_granted resp)).

Definition append_entries_request (args : AppendEntriesArgs) : outcome AppendEntriesRequest :=
  match try_map entry_to_pb (ae_entries args) with
  | Ok entries => Ok (MkAppendEntriesRequest (ae_term args) (ae_leader_id args) (ae_prev_log_index args)
                        (ae_prev_log_term args) entries (ae_leader_commit args))
  | Err e => Err e
  | Panic => Panic
  end.
Definition send_append_entries (to : Z) (args : AppendEntriesArgs)
    : M PeerTransport AppendEntriesReply :=
  let! c := client to in
  let! request := lift (append_entries_request args) in
  let! resp := or_transport (call_append_entries c request) in
  ret (MkAppendEntriesReply (aer_term resp) (aer_success resp) (aer_conflict_index resp)).

End transport.

(** ** Properties *)

Section properties.
Context {L : Type} {wal : Wal L} {laws : WalLaws L}.
Context {bin_hard : Bincode HardState} {bin_entry : Bincode LogEntry} {bin_snap : Bincode SnapshotFile}.
Context {bin_command : Bincode Command} (io_text : ErrorKind → string).
Implicit Types (nd : Node L) (c : RaftCore L).

Lemma run_map_err {A} (t : task message (Node L) A) nd :
  run (map_err_status io_text t) nd =
    match run t nd with
    | Some (Ok a, nd') => Some (Ok (inl a), nd')
    | Some (Err e, nd') => Some (Ok (inr (status io_text e)), nd')
    | Some (Panic, nd') => Some (Panic, nd')
    | None => None
    end.
Proof.
  revert nd. induction t as [[a|e|]|event ready f IH] using task_sections_ind; intros nd; simpl; try done.
  destruct (ready nd); [|done]. specialize (IH nd). destruct (f nd) as [t' nd']. apply IH.
Qed.

Lemma entry_pb_roundtrip e :
  representable (e_command e) → ∃ p, entry_to_pb e = Ok p ∧ entry_from_pb p = Ok e.
Proof.
  intros He. destruct (bincode_serialize_ok _ He) as (bs & E & Ed).
  rw /entry_to_pb /entry_from_pb E. eexists. split; [done|]. simpl. rw Ed. by destruct e.
Qed.

Lemma entries_pb_roundtrip es :
  Forall (λ e, representable (e_command e)) es →
  ∃ ps, try_map entry_to_pb es = Ok ps ∧ try_map entry_from_pb ps = Ok es.
Proof.
  induction 1 as [|e es He _ IH]; [by exists []|]. destruct IH as (ps & E1 & E2).
  destruct (entry_pb_roundtrip e He) as (p & E3 & E4). exists (p :: ps). cbn [try_map].
  by rw E1 E2 E3 E4.
Qed.

(** C26: the wire is transparent: the request a leader encodes for AppendEntries is served by
    the peer exactly as if its handler had been called with the leader's arguments, with
    errors turned into statuses. *)
Theorem rpc_append_entries_transparent args now draw nd :
  Forall (λ e, representable (e_command e)) (ae_entries args) →
  ∃ request, append_entries_request args = Ok request
    ∧ run (serve_append_entries io_text request now draw) nd =
        let '(r, (c, σ)) := handle_append_entries args now draw (nd_core nd, nd_disk nd) in
        Some (match r with
              | Ok reply => Ok (inl reply)
              | Err e => Ok (inr (status io_text e))
              | Panic => Panic
              end, with_core c σ nd).
Proof.
  intros Hes. destruct (entries_pb_roundtrip _ Hes) as (ps & E1 & E2).
  rw /append_entries_request E1. eexists. split; [done|].
  rw /serve_append_entries. cbn [aq_entries aq_term aq_leader_id aq_prev_log_index aq_prev_log_term aq_leader_commit].
  rw /then_serve run_await run_map_err E2. cbn [run]. rw run_await run_map_err run_section /on_core.
  destruct args as [t l pi pt es lc]. simpl.
  by destruct (handle_append_entries _ _ _ _) as [[[]| |] [c σ]].
Qed.

(** ** The client service *)

Lemma state_at_put cs key value :
  memtable_get key (state_at (cs ++ [Put key value]) (length cs + 1)) = Some value.
Proof.
  rw /memtable_get /state_at /= take_ge; [rw length_app /=; lia|]. rw foldl_snoc /=. apply lookup_insert_eq.
Qed.


End properties.

(** ** Concrete runs *)

#[local] Existing Instance crc32fast.
#[local] Existing Instance bincode_codec.

Definition demo_io_text (kind : ErrorKind) : string := "failed".

Lemma rpc_append_entries_transparent_witness :
  let nd := MkNode demo_replica fresh_store false 0 demo_replica_disk in
  ∃ request, append_entries_request demo_append = Ok request
    ∧ run (serve_append_entries demo_io_text request 0 0) nd =
        let '(r, (c, σ)) := handle_append_entries demo_append 0 0 (demo_replica, demo_replica_disk) in
        Some (match r with
              | Ok reply => Ok (inl reply)
              | Err e => Ok (inr (status demo_io_text e))
              | Panic => Panic
              end, with_core c σ nd).
Proof.
  intros nd. apply (rpc_append_entries_transparent demo_io_text demo_append 0 0 nd).
  repeat constructor; evaluate.
Defined.


(** Node 2 has become leader of term 2 and replaces the entry at index 2 by the [Noop] that a
    new leader appends. *)
Definition overwrite : AppendEntriesArgs := MkAppendEntriesArgs 2 2 1 1 [MkLogEntry 2 2 Noop] 2.

(** C39: a client can be told that its write was committed when it was lost: the leader's round
    for it reaches nobody, a new leader replaces the entry at the same index by its [Noop] and
    commits that, and the waiting [put], which compares indices only, returns success. *)
Theorem put_acknowledges_overwritten_entry :
  let put1 := await! r := kv_put (L := Log) demo_io_text [x61] [x31] 0 [] [Changed] in Done (Ok (Some r)) in
  let replicate2 := await! r := core_section (handle_append_entries overwrite 0 0) in Done (Ok None) in
  let tick1 := await! r := tick 0 0 0 [] [] in Done (Ok None) in
  ∃ nd', rtc pool_step (demo_after, [put1; replicate2; tick1])
      (nd', [Done (Ok (Some (inl (MkPutResponse 2)))); Done (Ok None); Done (Ok None)])
    ∧ e_command <$> rc_entries (nd_core nd') = [Noop; Noop]
    ∧ rc_commit_index (nd_core nd') = 2
    ∧ store_get [x61] (nd_store nd') = None.
Proof.
  intros put1 replicate2 tick1.
  set (sched := replicate 5 0%nat ++ [1%nat] ++ replicate 4 2%nat ++ [0%nat]).
  set (res := pool_run sched (demo_after, [put1; replicate2; tick1])).
  exists (from_option fst demo_after res). split_and!; [|vm_compute; reflexivity..].
  apply (pool_run_steps sched). vm_compute. reflexivity.
Qed.
