(* ===== verification/Tests.v ===== *)
(** * Tests: the repository's own tests, run on the model.

    The unit tests of src/ (the [tests] module at the end of each file, and the helpers of
    src/raft/test_support.rs) and the deterministic integration tests of tests/ are
    translated statement by statement into programs over the file system; an assertion
    that does not hold and an [unwrap] of an error are panics.  They run with the concrete
    CRC and encoding of files Crc and Codec on a disk with an empty temporary directory,
    and with every reading of the clock and every random draw left open:
    [repository_tests_pass] says that they all end without a panic.  This is a check of the
    model against the expectations of its authors, on fixed inputs; as everywhere in the
    model, debug assertions are not executed.

    tests/fault_injection.rs draws the damage at random; LogCrash.scribbled_tail_survives
    covers all it can draw.  tests/recovery_timing.rs and benches/ measure time and are
    not translated. *)

From Corelib Require Import ssreflect.
From Stdlib Require Import Strings.String.
From stdpp Require Import base gmap strings list pretty.
From S2P Require Import Prelude Text Fs AtomicFile Crc Record Segment WalLog Codec.
From S2P Require Import Config MemTable Snapshot Store RaftState Wal RaftCore Election Replication Service.

#[local] Existing Instance crc32fast.
#[local] Existing Instance bincode_codec.
#[local] Instance HardState_eq_dec : EqDecision HardState.
Proof. solve_decision. Defined.
#[local] Instance SnapshotMeta_eq_dec : EqDecision SnapshotMeta.
Proof. solve_decision. Defined.

(** ** The language of the tests *)

(** [assert!] and [assert_eq!]. *)
Definition assert {S} (b : bool) : M S unit := if b then ret tt else panic.
Definition assert_eq {S A} `{EqDecision A} (x y : A) : M S unit := assert (bool_decide (x = y)).

(** [.unwrap()] and [.is_err()] of a result. *)
Definition unwrapped {S A} (m : M S A) : M S A := λ s,
  match m s with (Err _, s') => (Panic, s') | r => r end.
Definition is_err {S A} (m : M S A) : M S bool := λ s,
  match m s with
  | (Ok _, s') => (Ok false, s')
  | (Err _, s') => (Ok true, s')
  | (Panic, s') => (Panic, s')
  end.
#[local] Notation "'ok!' m" := (unwrapped m) (at level 9, m at level 9).
(** An operation whose value is not used. *)
#[local] Notation "'run!' m" := (bind (unwrapped m) (λ _, ret tt)) (at level 9, m at level 9).

(** A local variable that is not part of the file system. *)
Definition locally {S X A} (x : X) (m : M X A) : M S A := λ s, ((m x).1, s).

(** What dropping a value does to the disk: buffered bytes are written. *)
Class Drop (X : Type) := dropped : X → fs → fs.
#[local] Instance drop_segment : Drop Segment := λ s, bw_drop (seg_writer s).
#[local] Instance drop_log : Drop Log := λ l σ, foldl (λ σ s, dropped s σ) σ (log_segments l).
#[local] Instance drop_core : Drop (RaftCore Log) := λ c, dropped (rc_log c).
#[local] Instance drop_store : Drop Store := λ _ σ, σ.
#[local] Instance drop_list `{Drop X} : Drop (list X) := λ l σ, foldl (λ σ x, dropped x σ) σ l.

(** A block that owns [x]. *)
Definition scope `{Drop X} {A} (x : X) (m : M (X * fs) A) : M fs A := λ σ,
  let '(r, (x', σ')) := m (x, σ) in (r, dropped x' σ').

(** [b"..."], [format!("...-{i}").into_bytes()]. *)
Definition bytes (s : string) : list byte := list_byte_of_string s.
Definition numbered_text (pre : string) (i : Z) : list byte := bytes (pre +:+ pretty i).

(** [1..=n]. *)
Definition up_to (n : nat) : list Z := seqZ 1 (Z.of_nat n).

(** [tempdir()]: an empty directory on a disk with nothing else. *)
Definition tempdir : path := ["tmp"%string].
Definition temp_fs : fs := Fs ∅ ∅ ∅ {[ []; tempdir ]} 0 [].

Definition passes (t : M fs unit) : Prop := (t temp_fs).1 = Ok tt.

(** Bytes appended behind the back of the program:
    [OpenOptions::new().append(true).open(p)], [write_all], [sync_all]. *)
Definition scribble (p : path) (garbage : list byte) : M fs unit :=
  let! f := ok! (open_existing p) in
  do! ok! (file_write f garbage) then
  ok! (sync_all f).

(** ** src/wal/record.rs *)

Definition sample_payloads : list (list byte) :=
  [[]; bytes "a"; bytes "hello world"; replicate 1000 x00].

Definition roundtrip_several_records : M fs unit :=
  let! buf := locally [] (
    do! for_each (λ payload, run! (write_record payload)) sample_payloads then gets id) in
  locally (reader_of buf) (
    do! for_each (λ expected,
          let! x := ok! read_record in
          match x with Entry p => assert_eq p expected | _ => panic end) sample_payloads then
    let! x := ok! read_record in
    assert_eq x Eof).

(** What reading says of one record after [damage]. *)
Definition read_damaged (payload : list byte) (damage : M (list byte) unit) (expected : RecordRead)
    : M fs unit :=
  let! buf := locally [] (do! ok! (write_record payload) then do! damage then gets id) in
  locally (reader_of buf) (let! x := ok! read_record in assert_eq x expected).

Definition torn_header_is_truncated : M fs unit :=
  read_damaged (bytes "payload") (modify (take 3)) Truncated.

Definition torn_payload_is_truncated : M fs unit :=
  read_damaged (bytes "a longer payload") (modify (take (HEADER_LEN + 4))) Truncated.

(** [*buf.last_mut().unwrap() ^= 0xFF]. *)
Definition flip_last : M (list byte) unit := λ buf,
  match vec_pop buf with
  | None => (Panic, buf)
  | Some (init, b) => (Ok tt, init ++ [byte_of_Z (Z.lxor (Z_of_byte b) 255)])
  end.
Definition flipped_bit_is_corrupt : M fs unit :=
  read_damaged (bytes "important") flip_last Corrupt.

(** ** src/wal/segment.rs *)

Definition segment_file : path := join tempdir "000001.log".

(** [seg.iter().unwrap().collect::<Result<_>>().unwrap()]. *)
Definition collected : M (Segment * fs) (list (list byte)) :=
  let! seg := gets fst in on_fs (ok! (segment_collect seg)).

Definition append_sync_and_iterate : M fs unit :=
  let! seg := ok! (segment_create segment_file 1) in
  scope seg (
    do! ok! (segment_append (bytes "one")) then
    do! ok! (segment_append (bytes "two")) then
    do! ok! (segment_append (bytes "three")) then
    do! ok! segment_sync then
    let! count := gets (λ s, seg_count s.1) in
    do! assert_eq count 3 then
    let! got := collected in
    assert_eq got [bytes "one"; bytes "two"; bytes "three"]).

Definition recover_truncates_torn_tail : M fs unit :=
  let! seg := ok! (segment_create segment_file 1) in
  do! scope seg (
        do! ok! (segment_append (bytes "durable-one")) then
        do! ok! (segment_append (bytes "durable-two")) then
        ok! segment_sync) then
  do! scribble segment_file [xab; xcd; xef] then
  let! seg := ok! (segment_recover segment_file 1) in
  scope seg (
    let! count := gets (λ s, seg_count s.1) in
    do! assert_eq count 2 then
    let! got := collected in
    assert_eq got [bytes "durable-one"; bytes "durable-two"]).

Definition recover_then_append_more : M fs unit :=
  let! seg := ok! (segment_create segment_file 1) in
  do! scope seg (do! ok! (segment_append (bytes "first")) then ok! segment_sync) then
  let! seg := ok! (segment_recover segment_file 1) in
  scope seg (
    do! ok! (segment_append (bytes "second")) then
    do! ok! segment_sync then
    let! got := collected in
    assert_eq got [bytes "first"; bytes "second"]).

(** ** src/wal/log.rs *)

Definition test_payload (i : Z) : list byte := numbered_text "entry-" i.

(** [for i in 1..=n { log.append(&payload(i)).unwrap(); }]. *)
Definition append_payloads (n : nat) : M (Log * fs) unit :=
  for_each (λ i, run! (log_append (test_payload i))) (up_to n).
Definition read_back : M (Log * fs) (list (Z * list byte)) :=
  let! log := gets fst in on_fs (ok! (log_read_all log)).

Definition append_assigns_sequential_indices : M fs unit :=
  let! log := ok! (log_open tempdir (Z.shiftl 1 20)) in
  scope log (
    let! last := gets (λ s, log_last_index s.1) in
    do! assert_eq last 0 then
    do! for_each (λ i,
          let! index := ok! (log_append (test_payload i)) in
          assert_eq index i) (up_to 5) then
    let! log := gets fst in
    do! assert_eq (log_first_index log) 1 then
    do! assert_eq (log_last_index log) 5 then
    assert_eq (log_len log) 5).

Definition rotation_creates_multiple_segments : M fs unit :=
  let! log := ok! (log_open tempdir 32) in
  scope log (
    do! append_payloads 20 then
    do! ok! log_sync then
    let! bases := on_fs (ok! (discover_segments tempdir)) in
    do! assert (1 <? zlen bases) then
    let! all := read_back in
    do! assert_eq (length all) 20%nat then
    for_each (λ '(i, (idx, p)),
      do! assert_eq idx (i + 1) then
      assert_eq p (test_payload (i + 1))) (zip (seqZ 0 (zlen all)) all)).

Definition reopen_recovers_all_entries : M fs unit :=
  let! log := ok! (log_open tempdir 64) in
  do! scope log (do! append_payloads 10 then ok! log_sync) then
  let! log := ok! (log_open tempdir 64) in
  scope log (
    do! assert_eq (log_last_index log) 10 then
    let! all := read_back in
    assert_eq (length all) 10%nat).

Definition truncate_suffix_drops_tail : M fs unit :=
  let! log := ok! (log_open tempdir 64) in
  scope log (
    do! append_payloads 10 then
    do! ok! log_sync then
    do! ok! (log_truncate_suffix 6) then
    let! last := gets (λ s, log_last_index s.1) in
    do! assert_eq last 6 then
    let! all := read_back in
    do! assert_eq (length all) 6%nat then
    let! final := unwrap (list.last all) in
    do! assert_eq final.1 6 then
    let! index := ok! (log_append (test_payload 7)) in
    assert_eq index 7).

Definition truncate_prefix_advances_first_index : M fs unit :=
  let! log := ok! (log_open tempdir 16) in
  scope log (
    do! append_payloads 20 then
    do! ok! log_sync then
    do! ok! (log_truncate_prefix 10) then
    let! log := gets fst in
    do! assert (log_first_index log <=? 10) then
    assert_eq (log_last_index log) 20).

(** ** src/store/memtable.rs *)

Definition put_command (key value : string) : Command := Put (bytes key) (bytes value).

(** [m.apply(index, &command)] on a memtable of its own. *)
Definition applies (index : Z) (command : Command) : M MemTable unit :=
  modify (memtable_apply index command).

Definition put_get_delete : M fs unit :=
  locally memtable_new (
    do! applies 1 (put_command "a" "1") then
    do! applies 2 (put_command "b" "2") then
    let! m := gets id in
    do! assert_eq (memtable_get (bytes "a") m) (Some (bytes "1")) then
    do! assert_eq (mt_last_applied m) 2 then
    do! applies 3 (Delete (bytes "a")) then
    let! m := gets id in
    do! assert_eq (memtable_get (bytes "a") m) None then
    assert_eq (memtable_len m) 1).

Definition replay_is_idempotent : M fs unit :=
  locally memtable_new (
    do! applies 1 (put_command "k" "v") then
    do! applies 1 (put_command "k" "OTHER") then
    let! m := gets id in
    do! assert_eq (memtable_get (bytes "k") m) (Some (bytes "v")) then
    assert_eq (mt_last_applied m) 1).

Definition noop_only_advances_index : M fs unit :=
  locally memtable_new (
    do! applies 1 Noop then
    let! m := gets id in
    do! assert_eq (mt_last_applied m) 1 then
    assert (memtable_is_empty m)).

(** ** src/store/snapshot.rs *)

Definition write_then_load_roundtrips : M fs unit :=
  let table := memtable_apply 2 (put_command "b" "2")
                 (memtable_apply 1 (put_command "a" "1") memtable_new) in
  let meta := MkSnapshotMeta 2 1 in
  do! ok! (snapshot_write tempdir meta table) then
  let! latest := ok! (load_latest tempdir) in
  let! '(loaded_meta, loaded) := unwrap latest in
  do! assert_eq loaded_meta meta then
  do! assert_eq (memtable_get (bytes "a") loaded) (Some (bytes "1")) then
  do! assert_eq (memtable_get (bytes "b") loaded) (Some (bytes "2")) then
  assert_eq (mt_last_applied loaded) 2.

Definition newest_snapshot_wins_and_old_is_pruned : M fs unit :=
  let table := memtable_apply 1 (put_command "x" "1") memtable_new in
  do! ok! (snapshot_write tempdir (MkSnapshotMeta 1 1) table) then
  let table := memtable_apply 2 (put_command "x" "2") table in
  do! ok! (snapshot_write tempdir (MkSnapshotMeta 2 1) table) then
  let! found := ok! (discover tempdir) in
  do! assert_eq (length found) 1%nat then
  let! latest := ok! (load_latest tempdir) in
  let! '(meta, loaded) := unwrap latest in
  do! assert_eq (last_included_index meta) 2 then
  assert_eq (memtable_get (bytes "x") loaded) (Some (bytes "2")).

Definition empty_dir_loads_nothing : M fs unit :=
  let! latest := ok! (load_latest tempdir) in
  assert (if latest is None then true else false).

(** ** src/raft/state.rs *)

Definition hard_state_roundtrip : M fs unit :=
  let path := join tempdir "hard_state" in
  let! hs := ok! (hard_load path) in
  do! assert_eq hs default_hard then
  let hs := MkHardState 7 (Some 3) in
  do! ok! (hard_persist path hs) then
  let! loaded := ok! (hard_load path) in
  do! assert_eq loaded hs then
  let hs2 := MkHardState 8 None in
  do! ok! (hard_persist path hs2) then
  let! loaded := ok! (hard_load path) in
  assert_eq loaded hs2.

Definition log_entry_is_serializable : M fs unit :=
  let e := MkLogEntry 2 5 (put_command "k" "v") in
  let! bytes := ok! (lift (bincode_serialize e)) in
  let! back := ok! (lift (bincode_deserialize bytes)) in
  assert_eq e back.

(** ** src/rpc/service.rs *)

Definition log_entry_wire_roundtrip : M fs unit :=
  let e := MkLogEntry 3 9 (put_command "k" "v") in
  let! wire := ok! (lift (entry_to_pb e)) in
  let! back := ok! (lift (entry_from_pb wire)) in
  assert_eq e back.

Definition url_normalisation : M fs unit :=
  do! assert_eq (normalize_url "127.0.0.1:6001") "http://127.0.0.1:6001"%string then
  assert_eq (normalize_url "http://host:1") "http://host:1"%string.

(** ** Tests with an address, a clock and a random source *)

Section clocked.
(** The socket address 127.0.0.1 with a port, the reading of the clock and the random
    number at the n-th call for one. *)
Context {SocketAddr : Type} (localhost : Z → SocketAddr) (clock draw : nat → Z).

(** *** src/config.rs *)

Definition test_addr : SocketAddr := localhost 6001.
Definition test_peer (port id : Z) : Peer := MkPeer id ("127.0.0.1:" +:+ pretty (port + id)).
Definition test_dir : path := ["tmp"; "wal-kv"]%string.

Definition defaults_are_valid : M fs unit :=
  let cfg := config_new 1 test_addr test_dir in
  do! ok! (lift (validate cfg)) then
  do! assert_eq (cluster_size cfg) 1 then
  assert_eq (quorum cfg) 1.

Definition quorum_scales_with_peers : M fs unit :=
  let cfg := with_peers [test_peer 6000 2; test_peer 6000 3] (config_new 1 test_addr test_dir) in
  do! assert_eq (cluster_size cfg) 3 then
  assert_eq (quorum cfg) 2.

Definition rejects_zero_id_and_bad_timeouts : M fs unit :=
  let cfg := config_new 0 test_addr test_dir in
  let! e := is_err (lift (validate cfg)) in
  do! assert e then
  let cfg := MkConfig 1 (cfg_listen_addr cfg) (cfg_peers cfg) (cfg_data_dir cfg)
               (cfg_heartbeat_interval cfg) (from_millis 10, from_millis 20)
               (cfg_segment_max_bytes cfg) (cfg_snapshot_threshold cfg) in
  let! e := is_err (lift (validate cfg)) in
  assert e.

Definition rejects_duplicate_ids : M fs unit :=
  let cfg := with_peers [MkPeer 1 "127.0.0.1:6002"] (config_new 1 test_addr test_dir) in
  let! e := is_err (lift (validate cfg)) in
  assert e.

(** *** src/store/mod.rs *)

Definition test_config : Config SocketAddr :=
  let cfg := config_new 1 test_addr tempdir in
  MkConfig (cfg_id cfg) (cfg_listen_addr cfg) (cfg_peers cfg) (cfg_data_dir cfg)
    (cfg_heartbeat_interval cfg) (cfg_election_timeout cfg) (cfg_segment_max_bytes cfg) 3.

(** [store.apply(index, &command)]. *)
Definition stores (index : Z) (command : Command) : M (Store * fs) unit :=
  modify (λ '(st, σ), (store_apply index command st, σ)).

Definition apply_snapshot_reopen : M fs unit :=
  let! store := ok! (store_open test_config) in
  do! scope store (
        do! stores 1 (put_command "a" "1") then
        do! stores 2 (put_command "b" "2") then
        do! stores 3 (put_command "c" "3") then
        let! due := gets (λ s, should_snapshot s.1) in
        do! assert due then
        run! (store_snapshot 1)) then
  let! store := ok! (store_open test_config) in
  do! assert_eq (store_last_applied store) 3 then
  do! assert_eq (store_get (bytes "a") store) (Some (bytes "1")) then
  assert_eq (store_get (bytes "c") store) (Some (bytes "3")).

(** *** src/raft/test_support.rs *)

Definition core_with_peers (id : Z) (peers : list Z) : M fs (RaftCore Log) :=
  let addr := localhost (7000 + id) in
  let cfg := with_peers (test_peer 7000 <$> peers) (config_new id addr tempdir) in
  let! log := ok! (log_open (wal_dir cfg) (cfg_segment_max_bytes cfg)) in
  ok! (restore cfg default_meta log (clock 0) (draw 0)).

Definition single_node_core : M fs (RaftCore Log) := core_with_peers 1 [].

(** *** src/raft/election.rs *)

(** A call of [handle_request_vote] with an empty candidate log. *)
Definition asks (n : nat) (term candidate_id : Z) : M (RaftCore Log * fs) RequestVoteReply :=
  ok! (handle_request_vote (MkRequestVoteArgs term candidate_id 0 0) (clock n) (draw n)).

Definition grants_vote_to_up_to_date_candidate : M fs unit :=
  let! core := single_node_core in
  scope core (
    let! reply := asks 1 1 2 in
    do! assert (rvr_vote_granted reply) then
    assert_eq (rvr_term reply) 1).

Definition rejects_second_candidate_in_same_term : M fs unit :=
  let! core := single_node_core in
  scope core (
    do! asks 1 1 2 then
    let! reply := asks 2 1 3 in
    assert (negb (rvr_vote_granted reply))).

Definition rejects_stale_term : M fs unit :=
  let! core := single_node_core in
  scope core (
    do! ok! (become_candidate (clock 1) (draw 1)) then
    do! ok! (become_candidate (clock 2) (draw 2)) then
    let! reply := asks 3 1 2 in
    do! assert (negb (rvr_vote_granted reply)) then
    assert_eq (rvr_term reply) 2).

(** *** src/raft/replication.rs *)

Definition test_entry (term index : Z) : LogEntry := MkLogEntry term index Noop.

Definition delivers (n : nat) (args : AppendEntriesArgs) : M (RaftCore Log * fs) AppendEntriesReply :=
  ok! (handle_append_entries args (clock n) (draw n)).

Definition accepts_matching_append_and_commits : M fs unit :=
  let! core := single_node_core in
  scope core (
    let! reply := delivers 1 (MkAppendEntriesArgs 1 2 0 0 [test_entry 1 1; test_entry 1 2] 2) in
    do! assert (aer_success reply) then
    let! core := gets fst in
    do! assert_eq (last_log_index core) 2 then
    assert_eq (rc_commit_index core) 2).

Definition rejects_gap_and_hints_next_index : M fs unit :=
  let! core := single_node_core in
  scope core (
    let! reply := delivers 1 (MkAppendEntriesArgs 1 2 5 1 [test_entry 1 6] 0) in
    do! assert (negb (aer_success reply)) then
    assert_eq (aer_conflict_index reply) 1).

Definition conflicting_suffix_is_truncated : M fs unit :=
  let! core := single_node_core in
  scope core (
    do! delivers 1 (MkAppendEntriesArgs 1 2 0 0
                      [test_entry 1 1; test_entry 1 2; test_entry 1 3] 0) then
    let! reply := delivers 2 (MkAppendEntriesArgs 2 3 1 1 [test_entry 2 2] 0) in
    do! assert (aer_success reply) then
    let! core := gets fst in
    do! assert_eq (last_log_index core) 2 then
    assert_eq (term_at 2 core) (Some 2)).

(** *** src/raft/lease.rs *)

Definition lease_validity_tracks_time : M fs unit :=
  let lease := lease_new (from_millis 100) in
  let t0 := clock 0 in
  do! assert (negb (lease_is_valid t0 lease)) then
  let lease := lease_renew t0 lease in
  do! assert (lease_is_valid (t0 + from_millis 50) lease) then
  do! assert (negb (lease_is_valid (t0 + from_millis 150) lease)) then
  let lease := lease_invalidate lease in
  assert (negb (lease_is_valid t0 lease)).

Definition only_leader_can_serve_local_read : M fs unit :=
  let! core := single_node_core in
  let now := clock 1 in
  let core := become_leader core in
  do! assert (negb (can_serve_local_read now core)) then
  let core := renew_lease now core in
  assert (can_serve_local_read now core).

(** ** tests/partition.rs and tests/replication.rs *)

(** [build_core]; the two files differ in the port numbers. *)
Definition build_core (port id : Z) (peers : list Z) : M fs (RaftCore Log) :=
  let addr := localhost (port + id) in
  let data := join tempdir ("n" +:+ pretty id) in
  let cfg := with_peers (test_peer port <$> peers) (config_new id addr data) in
  let! log := ok! (log_open (wal_dir cfg) (cfg_segment_max_bytes cfg)) in
  ok! (restore cfg default_meta log (clock 0) (draw 0)).

(** [core.become_leader()], [core.take_committed()]. *)
Definition leads : M (RaftCore Log * fs) unit := update become_leader.
Definition takes : M (RaftCore Log * fs) (list LogEntry) := λ '(c, σ),
  let '(es, c') := take_committed c in (Ok es, (c', σ)).

Definition single_node_cluster_stays_available : M fs unit :=
  let! node := build_core 9100 1 [] in
  scope node (
    do! ok! (become_candidate (clock 1) (draw 1)) then
    let! q := self core_quorum in
    do! assert_eq q 1 then
    do! leads then
    let! role := self rc_role in
    do! assert_eq role Leader then
    let! entry := ok! (append_command (put_command "k" "v")) in
    do! ok! core_sync then
    do! advance_commit_index then
    let! commit := self rc_commit_index in
    do! assert_eq commit (e_index entry) then
    let! applied := takes in
    do! assert_eq (length applied) 1%nat then
    assert_eq (e_command <$> applied !! 0%nat) (Some (put_command "k" "v"))).

Definition minority_partition_cannot_commit : M fs unit :=
  let! node := build_core 9100 1 [2; 3] in
  scope node (
    do! ok! (become_candidate (clock 1) (draw 1)) then
    let! q := self core_quorum in
    do! assert_eq q 2 then
    let! role := self rc_role in
    do! assert (negb (bool_decide (role = Leader))) then
    let! e := is_err (append_command Noop) in
    do! assert e then
    let! commit := self rc_commit_index in
    assert_eq commit 0).

(** Several cores over one disk: a method call on the [i]-th. *)
Definition on_node {A} (i : nat) (m : M (RaftCore Log * fs) A) : M (list (RaftCore Log) * fs) A :=
  λ '(nodes, σ),
    match nodes !! i with
    | None => (Panic, (nodes, σ))
    | Some c => let '(r, (c', σ')) := m (c, σ) in (r, (<[i := c']> nodes, σ'))
    end.

(** [replicate_once(leader, follower, follower_id)], the [n]-th use of the clock. *)
Definition replicate_once (n leader follower : nat) (follower_id : Z)
    : M (list (RaftCore Log) * fs) unit :=
  let! args := on_node leader (self (build_append_entries follower_id)) in
  let last_sent := u64_add (ae_prev_log_index args) (zlen (ae_entries args)) in
  let! reply := on_node follower (delivers n args) in
  on_node leader (on_append_entries_reply follower_id last_sent reply).

Definition quorum_commit_and_replication : M fs unit :=
  let! n1 := build_core 9000 1 [2; 3] in
  let! n2 := build_core 9000 2 [1; 3] in
  let! n3 := build_core 9000 3 [1; 2] in
  scope [n1; n2; n3] (
    let! vote := on_node 0 (ok! (become_candidate (clock 1) (draw 1))) in
    let! r2 := on_node 1 (ok! (handle_request_vote vote (clock 2) (draw 2))) in
    let! r3 := on_node 2 (ok! (handle_request_vote vote (clock 3) (draw 3))) in
    do! assert (rvr_vote_granted r2 && rvr_vote_granted r3) then
    do! on_node 0 leads then
    let! role := on_node 0 (self rc_role) in
    do! assert_eq role Leader then
    let! entry := on_node 0 (ok! (append_command (put_command "color" "blue"))) in
    do! on_node 0 (ok! core_sync) then
    do! replicate_once 4 0 1 2 then
    do! replicate_once 5 0 2 3 then
    let! commit := on_node 0 (self rc_commit_index) in
    do! assert_eq commit (e_index entry) then
    do! for_each (λ i,
          let! t := on_node i (self (term_at (e_index entry))) in
          assert_eq t (Some (e_term entry))) [1%nat; 2%nat] then
    do! replicate_once 6 0 1 2 then
    do! replicate_once 7 0 2 3 then
    do! for_each (λ i,
          let! commit := on_node i (self rc_commit_index) in
          assert_eq commit (e_index entry)) [1%nat; 2%nat] then
    for_each (λ i,
      let! applied := on_node i takes in
      do! assert_eq (length applied) 1%nat then
      assert_eq (e_command <$> applied !! 0%nat) (Some (put_command "color" "blue")))
      [0%nat; 1%nat; 2%nat]).

Definition stale_follower_log_is_repaired : M fs unit :=
  let! leader := build_core 9000 1 [2] in
  let! follower := build_core 9000 2 [1] in
  scope [leader; follower] (
    do! on_node 0 (ok! (become_candidate (clock 1) (draw 1))) then
    do! on_node 0 leads then
    do! for_each (λ v, on_node 0 (run! (append_command (Put v v))))
          [bytes "a"; bytes "b"; bytes "c"] then
    do! on_node 0 (ok! core_sync) then
    do! for_each (λ n, replicate_once n 0 1 2) [2%nat; 3%nat; 4%nat; 5%nat; 6%nat] then
    let! theirs := on_node 1 (self last_log_index) in
    let! ours := on_node 0 (self last_log_index) in
    do! assert_eq theirs ours then
    let! commit := on_node 0 (self rc_commit_index) in
    assert_eq commit ours).

(** ** tests/recovery.rs *)

Definition recovery_wal_dir : path := join tempdir "wal".

(** [newest_segment]: the greatest segment path. *)
Definition newest_segment (dir : path) : M fs path :=
  let! names := ok! (read_dir dir) in
  let segs := filter (λ n, starts_with "wal-" n && bool_decide (is_Some (strip_suffix ".log" n))) names in
  let! newest := unwrap (foldl (λ acc n, match acc with
                                         | Some m => if String.ltb n m then Some m else Some n
                                         | None => Some n
                                         end) None segs) in
  ret (join dir newest).

Definition synced_wal_entries_survive_reopen : M fs unit :=
  let! log := ok! (log_open recovery_wal_dir (Z.shiftl 1 20)) in
  do! scope log (do! append_payloads 100 then ok! log_sync) then
  let! log := ok! (log_open recovery_wal_dir (Z.shiftl 1 20)) in
  scope log (
    do! assert_eq (log_last_index log) 100 then
    let! all := read_back in
    do! assert_eq (length all) 100%nat then
    assert_eq (snd <$> all !! 41%nat) (Some (bytes "entry-42"))).

Definition torn_tail_does_not_destroy_acknowledged_entries : M fs unit :=
  let! log := ok! (log_open recovery_wal_dir (Z.shiftl 1 20)) in
  do! scope log (do! append_payloads 10 then ok! log_sync) then
  let! active := newest_segment recovery_wal_dir in
  do! scribble active [xde; xad; xbe; xef; x00] then
  let! log := ok! (log_open recovery_wal_dir (Z.shiftl 1 20)) in
  scope log (
    do! assert_eq (log_last_index log) 10 then
    let! all := read_back in
    assert_eq (length all) 10%nat).

Definition store_state_survives_snapshot_and_reopen : M fs unit :=
  let cfg := config_new 1 test_addr tempdir in
  let! store := ok! (store_open cfg) in
  do! scope store (
        do! for_each (λ i, stores i (Put (numbered_text "key-" i) (numbered_text "val-" i)))
              (up_to 25) then
        do! stores 26 (Delete (bytes "key-1")) then
        run! (store_snapshot 3)) then
  let! store := ok! (store_open cfg) in
  do! assert_eq (store_last_applied store) 26 then
  do! assert_eq (store_get (bytes "key-10") store) (Some (bytes "val-10")) then
  assert_eq (store_get (bytes "key-1") store) None.

(** ** The suites *)

Definition unit_tests : list (M fs unit) :=
  [roundtrip_several_records; torn_header_is_truncated; torn_payload_is_truncated;
   flipped_bit_is_corrupt; append_sync_and_iterate; recover_truncates_torn_tail;
   recover_then_append_more; append_assigns_sequential_indices;
   rotation_creates_multiple_segments; reopen_recovers_all_entries;
   truncate_suffix_drops_tail; truncate_prefix_advances_first_index; put_get_delete;
   replay_is_idempotent; noop_only_advances_index; write_then_load_roundtrips;
   newest_snapshot_wins_and_old_is_pruned; empty_dir_loads_nothing; hard_state_roundtrip;
   log_entry_is_serializable; log_entry_wire_roundtrip; url_normalisation;
   defaults_are_valid; quorum_scales_with_peers; rejects_zero_id_and_bad_timeouts;
   rejects_duplicate_ids; apply_snapshot_reopen; grants_vote_to_up_to_date_candidate;
   rejects_second_candidate_in_same_term; rejects_stale_term;
   accepts_matching_append_and_commits; rejects_gap_and_hints_next_index;
   conflicting_suffix_is_truncated; lease_validity_tracks_time;
   only_leader_can_serve_local_read].

Definition integration_tests : list (M fs unit) :=
  [single_node_cluster_stays_available; minority_partition_cannot_commit;
   quorum_commit_and_replication; stale_follower_log_is_repaired;
   synced_wal_entries_survive_reopen; torn_tail_does_not_destroy_acknowledged_entries;
   store_state_survives_snapshot_and_reopen].

End clocked.

(** A test that no reading of the clock decides is run. *)
Ltac run_test := vm_compute; reflexivity.

Section runs.
Context {SocketAddr : Type} (localhost : Z → SocketAddr) (clock draw : nat → Z).

Lemma lease_test_passes : passes (lease_validity_tracks_time clock).
Proof.
  rw /passes /lease_validity_tracks_time /lease_is_valid /= /assert /from_millis /bind.
  destruct (Z.ltb_spec (clock 0%nat + 50 * 1000000) (clock 0%nat + 100 * 1000000)); [|lia].
  destruct (Z.ltb_spec (clock 0%nat + 150 * 1000000) (clock 0%nat + 100 * 1000000)); [lia|done].
Qed.

(** The core of the test's setup: its lease is as [restore] made it. *)
Lemma single_node_core_lease :
  ∃ c σ, single_node_core localhost clock draw temp_fs = (Ok c, σ)
    ∧ rc_lease c = lease_new (from_millis 75).
Proof. vm_compute. eexists _, _. split; reflexivity. Qed.

Lemma local_read_test_passes : passes (only_leader_can_serve_local_read localhost clock draw).
Proof.
  destruct single_node_core_lease as (c & σ & E & El).
  rw /passes /only_leader_can_serve_local_read (bind_Ok _ _ _ _ _ E).
  rw /can_serve_local_read /renew_lease /is_leader /= El /= /lease_is_valid /= /bind /assert /=.
  destruct (Z.ltb_spec (clock 1%nat) (clock 1%nat + from_millis 75)); [done|].
  rw /from_millis in H. lia.
Qed.

Lemma unit_tests_pass : Forall passes (unit_tests localhost clock draw).
Proof.
  rw /unit_tests.
  repeat apply Forall_cons_2; try exact lease_test_passes; try exact local_read_test_passes;
    [run_test..|apply Forall_nil_2].
Qed.

Lemma integration_tests_pass : Forall passes (integration_tests localhost clock draw).
Proof. repeat apply Forall_cons_2; [run_test..|apply Forall_nil_2]. Qed.

(** The model does what the repository's tests expect of the program: each of its 35
    unit tests and 7 deterministic integration tests, run on the model with any clock
    readings and any random draws, ends without a failed assertion or another panic. *)
Theorem repository_tests_pass :
  Forall passes (unit_tests localhost clock draw ++ integration_tests localhost clock draw).
Proof. apply Forall_app. split; [apply unit_tests_pass|apply integration_tests_pass]. Qed.

End runs.
