(* ===== verification/Sections.v ===== *)
(** * Sections: what each section of the code makes of a core, exactly.

    A node acts on its core in sections: a handler of a request, the treatment of one reply,
    the first part of a proposal.  For each section that succeeds this file gives the core it
    leaves as a term over the one it found; the log on disk and the clock stay abstract.
    File Cluster runs these sections on the nodes of a cluster. *)

From Corelib Require Import ssreflect.
From stdpp Require Import base gmap strings list sorting.
From S2P Require Import Prelude Text Fs AtomicFile Crc WalLog Codec Config.
From S2P Require Import MemTable Snapshot RaftState Wal RaftCore Election Replication Task Store Driver.

(** What the loop of [handle_append_entries] makes of the log [l] when it starts with [es] at
    position [p]: entries of the same term stay, the first other one replaces the rest. *)
Fixpoint graft (p : nat) (es l : list LogEntry) : list LogEntry :=
  match es with
  | [] => l
  | e :: es' =>
      match l !! p with
      | Some x => if e_term x =? e_term e then graft (S p) es' l else take p l ++ es
      | None => l ++ es
      end
  end.

Lemma graft_past es l : graft (length l) es l = l ++ es.
Proof. destruct es as [|e es]; simpl; [by rw app_nil_r|]. by rw lookup_ge_None_2. Qed.

(** One entry after the other. *)
Lemma graft_cons p e es l : (p ≤ length l)%nat →
  graft p (e :: es) l = graft (S p) es (graft p [e] l) ∧ (S p ≤ length (graft p [e] l))%nat.
Proof.
  intros Hp. cbn [graft]. destruct (l !! p) as [x|] eqn:Ex.
  - apply lookup_lt_Some in Ex. destruct (e_term x =? e_term e); [done|].
    have Hl : length (take p l ++ [e]) = S p by rw length_app length_take /=; lia.
    split; [|lia]. by rw -Hl graft_past -app_assoc.
  - apply lookup_ge_None in Ex. have Hl : length (l ++ [e]) = S p by rw length_app /=; lia.
    split; [|lia]. by rw -Hl graft_past -app_assoc.
Qed.

(** The part of the log before the vector. *)
Lemma graft_app h p es l : graft (length h + p) es (h ++ l) = h ++ graft p es l.
Proof.
  revert p. induction es as [|e es IH]; intros p; [done|]. cbn [graft].
  rw lookup_app_r; [lia|]. have -> : (length h + p - length h = p)%nat by lia.
  destruct (l !! p) as [x|]; [|by rw app_assoc].
  destruct (e_term x =? e_term e); [by rw -IH; f_equal; lia|].
  by rw take_app_add app_assoc.
Qed.

Section sections.
Context {L : Type} {wal : Wal L} {bin_hard : Bincode HardState} {bin_entry : Bincode LogEntry}.
Implicit Types c : RaftCore L.

(** ** The log *)

Lemma append_command_ok cmd c σ e c' σ' :
  append_command cmd (c, σ) = (Ok e, (c', σ')) →
  rc_role c = Leader
  ∧ e = MkLogEntry (current_term (rc_hard c)) (u64_add (last_log_index c) 1) cmd
  ∧ ∃ l, c' = set_log l (set_entries (rc_entries c ++ [e]) c).
Proof.
  rw /append_command {1}/bind /self /gets. cbn [fst].
  case: bool_decide_reflect => Hl //=. rw /bind /lift /on_log. cbn [fst].
  destruct (bincode_serialize _) as [bs| |]; [|done..]. cbn [fst].
  destruct (wal_append _ _) as [[i| |] [l σ1]]; [|done..]. rw /update /modify /ret.
  intros [= <- <- <-]. split_and! => //. by exists l.
Qed.

Lemma core_sync_ok c σ c' σ' : core_sync (c, σ) = (Ok tt, (c', σ')) → ∃ l, c' = set_log l c.
Proof.
  rw /core_sync /on_log. destruct (wal_sync _) as [[[]| |] [l σ1]]; [|done..].
  intros [= <- _]. by exists l.
Qed.

(** The entries that the loop makes of those of [c], from index [prev] on; entries at or below
    the snapshot are skipped. *)
Definition grafted (prev : Z) (es : list LogEntry) c : list LogEntry :=
  graft (Z.to_nat (prev - snap_index c)) (drop (Z.to_nat (snap_index c - prev)) es) (rc_entries c).

Lemma grafted_cons prev e es c : log_wf c → prev ≤ last_log_index c →
  let c1 := set_entries (grafted prev [e] c) c in
  grafted prev (e :: es) c = grafted (prev + 1) es c1 ∧ (snap_index c ≤ prev → prev + 1 ≤ snap_index c + zlen (rc_entries c1)).
Proof.
  intros Hw Hp c1. rw last_log_index_wf // /zlen in Hp. rw /c1 /grafted /=.
  destruct (decide (prev < snap_index c)) as [Hlt|Hge].
  - have -> : Z.to_nat (snap_index c - prev) = S (Z.to_nat (snap_index c - (prev + 1))) by lia.
    have -> : Z.to_nat (prev - snap_index c) = 0%nat by lia.
    have -> : Z.to_nat (prev + 1 - snap_index c) = 0%nat by lia. cbn [drop]. rw drop_nil /=.
    split; [done|lia].
  - have -> : Z.to_nat (snap_index c - prev) = 0%nat by lia.
    have -> : Z.to_nat (snap_index c - (prev + 1)) = 0%nat by lia. cbn [drop].
    have -> : Z.to_nat (prev + 1 - snap_index c) = S (Z.to_nat (prev - snap_index c)) by lia.
    destruct (graft_cons (Z.to_nat (prev - snap_index c)) e es (rc_entries c)) as [? Hl]; [lia|].
    split; [done|]. rw /zlen. lia.
Qed.

(** One entry of the loop. *)
Lemma splice_entry_ok e c σ c' σ' prev :
  log_wf c → 0 ≤ prev ≤ last_log_index c → e_index e = prev + 1 → prev + 1 < u64_max →
  splice_entry e (c, σ) = (Ok tt, (c', σ')) →
  ∃ l, c' = set_log l (set_entries (grafted prev [e] c) c).
Proof.
  intros Hw Hp He Hm. pose proof (lw_bound _ Hw) as Hb. pose proof (lw_base _ Hw) as Hb0.
  rw last_log_index_wf // in Hp. rw /zlen in Hb Hp.
  rw /splice_entry {1 2}/bind /self /gets. cbn [fst]. rw base_index_wf // /grafted.
  destruct (Z.ltb_spec (e_index e) (snap_index c + 1)) as [Hlt|Hge].
  { have -> : Z.to_nat (snap_index c - prev) = S (Z.to_nat (snap_index c - prev - 1)) by lia. simpl.
    rw drop_nil. intros [= <- <-]. exists (rc_log c). by destruct c. }
  have -> : Z.to_nat (snap_index c - prev) = 0%nat by lia. cbn [fst drop].
  rw term_at_entry //; [lia|]. rw entry_at_wf //; [lia|].
  have Hpos : pos c (e_index e) = Z.to_nat (prev - snap_index c) by rw /pos; lia.
  rw Hpos /=. destruct (rc_entries c !! _) as [x|] eqn:Ex; simpl.
  - destruct (e_term x =? e_term e).
    + intros [= <- <-]. exists (rc_log c). by destruct c.
    + intros ([] & [c1 σ1] & E1 & E2)%(bind_Ok_inv (truncate_from (e_index e))).
      apply truncate_from_run in E1 as [l ->]; [|done]. rw Hpos in E2.
      apply append_replicated_run in E2 as [l' ->]. by exists l'.
  - by intros [l ->]%append_replicated_run; exists l.
Qed.

(** The whole loop. *)
Lemma splice_ok es c σ c' σ' prev :
  log_wf c → 0 ≤ prev ≤ last_log_index c → consecutive prev es → prev + zlen es < u64_max →
  splice es (c, σ) = (Ok tt, (c', σ')) →
  ∃ l, c' = set_log l (set_entries (grafted prev es c) c).
Proof.
  revert c σ prev. induction es as [|e es IH]; intros c σ prev Hw Hp Hc Hb.
  { intros [= <- <-]. exists (rc_log c). rw /grafted drop_nil /=. by destruct c. }
  rw zlen_cons in Hb. pose proof (zlen_nonneg es) as Hz.
  apply consecutive_cons in Hc as [He Hc]. rw /splice. cbn [for_each]. rw -/(splice es).
  intros ([] & [c1 σ1] & E1 & E2)%bind_Ok_inv.
  have [Hw1 _] := splice_entry_run e c σ c1 σ1 Hw ltac:(lia) ltac:(lia) E1.
  have {E1} [l E1] := splice_entry_ok _ _ _ _ _ _ Hw Hp He ltac:(lia) E1.
  have [Eg Hl] := grafted_cons prev e es c Hw ltac:(lia).
  have Hp1 : 0 ≤ prev + 1 ≤ last_log_index c1.
  { rw last_log_index_wf // E1 /=. rw last_log_index_wf // in Hp. simpl in Hl.
    pose proof (zlen_nonneg (grafted prev [e] c)). lia. }
  have {E2} [l' ->] := IH c1 σ1 (prev + 1) Hw1 Hp1 Hc ltac:(lia) E2.
  exists l'. by rw Eg E1.
Qed.

(** ** What matters of a core

    Everything but the log on disk, the timers, the lease and the known leader. *)
Definition essence c :=
  (rc_id c, rc_peers c, rc_cluster_size c, rc_snapshot c, rc_hard c, rc_entries c, rc_role c,
   rc_commit_index c, rc_last_applied c, (rc_next_index c, rc_match_index c)).

(** The hard state after hearing of [term]. *)
Definition hard_at (term : Z) (h : HardState) : HardState :=
  if current_term h <? term then MkHardState term None else h.

Lemma become_follower_ok term leader c σ c' σ' :
  become_follower term leader (c, σ) = (Ok tt, (c', σ')) →
  essence c' = essence (set_role Follower (set_hard (hard_at term (rc_hard c)) c)).
Proof. by intros ->%become_follower_run. Qed.

Lemma reset_timer_essence now draw c σ c' σ' r :
  reset_election_timer now draw (c, σ) = (r, (c', σ')) → essence c' = essence c.
Proof. by intros (_ & t & ->)%reset_timer_run. Qed.

(** ** Elections *)

Lemma become_candidate_ok now draw c σ args c' σ' :
  0 ≤ current_term (rc_hard c) < u64_max →
  become_candidate now draw (c, σ) = (Ok args, (c', σ')) →
  let t := current_term (rc_hard c) + 1 in
  essence c' = essence (set_role Candidate (set_hard (MkHardState t (Some (rc_id c))) c))
  ∧ args = MkRequestVoteArgs t (rc_id c) (last_log_index c) (last_log_term c).
Proof.
  intros Ht. rw /become_candidate {1 2 3}/bind /update /modify. rw {1}/bind {1}/persist_hard.
  cbn [rc_hard set_hard set_role current_term rc_id rc_hard_path]. rw u64_add_small; [lia|].
  destruct (hard_persist _ _ σ) as [[[]| |] σ1]; [|done..].
  rw {1}/bind. intros ([] & [c1 σ2] & E1 & E2)%bind_Ok_inv.
  apply reset_timer_run in E1 as (_ & d & ->). move: E2. rw /self /gets. by intros [= <- <- _].
Qed.

Lemma handle_request_vote_ok args now draw c σ reply c' σ' :
  handle_request_vote args now draw (c, σ) = (Ok reply, (c', σ')) →
  let t := current_term (rc_hard c) in
  if rv_term args <? t then rvr_vote_granted reply = false ∧ essence c' = essence c
  else
    let r := if t <? rv_term args then Follower else rc_role c in
    let h := hard_at (rv_term args) (rc_hard c) in
    if rvr_vote_granted reply then
      log_up_to_date (rv_last_log_term args, rv_last_log_index args)
        (last_log_term c, last_log_index c) = true
      ∧ (voted_for h = None ∨ voted_for h = Some (rv_candidate_id args))
      ∧ essence c' = essence (set_role r
          (set_hard (MkHardState (rv_term args) (Some (rv_candidate_id args))) c))
    else essence c' = essence (set_role r (set_hard h c)).
Proof.
  rw /handle_request_vote {1}/bind /self /gets. cbn [fst].
  destruct (Z.ltb_spec (rv_term args) (current_term (rc_hard c))) as [Hlt|Hge].
  { by intros [= <- <- _]. }
  intros ([] & [c1 σ1] & E1 & E2)%bind_Ok_inv. cbn zeta.
  set (r := if current_term (rc_hard c) <? rv_term args then Follower else rc_role c).
  set (h := hard_at (rv_term args) (rc_hard c)).
  have {E1} [E1 Ht] : essence c1 = essence (set_role r (set_hard h c))
    ∧ current_term (rc_hard c1) = rv_term args.
  { rw /r /h /hard_at. destruct (Z.ltb_spec (current_term (rc_hard c)) (rv_term args)) as [Hlt|Hle].
    - apply become_follower_run in E1 as ->. simpl.
      by destruct (Z.ltb_spec (current_term (rc_hard c)) (rv_term args)); [|lia].
    - injection E1 as <- <-. split; [by destruct c|lia]. }
  case: (E1) => Ei Ep Ez Es Eh Ee Er Ek Ea En Em. move: E2.
  rw /decide_vote {1 2}/bind /self /gets. cbn [fst].
  rw /last_log_term /last_log_index Ee Es /= -/(last_log_term c) -/(last_log_index c).
  set (ok := log_up_to_date _ _). rw Eh. set (free := _ || _).
  intros ([] & [c2 σ2] & E2 & E3)%bind_Ok_inv. injection E3 as <- <- <-. cbn [rvr_vote_granted].
  destruct (ok && free) eqn:Eg; [|by injection E2 as <- <-].
  apply andb_true_iff in Eg as [? Hf]. rw /free orb_true_iff !bool_decide_eq_true in Hf.
  split_and! => //. move: E2. rw /update /modify {1 2}/bind /persist_hard.
  destruct (hard_persist _ _ σ1) as [[[]| |] σ3]; [|done..].
  intros (_ & d & ->)%reset_timer_run. rw /essence /=. by rw Ei Ep Ez Es Ee Er Ek Ea En Em Ht.
Qed.

(** ** The commit index *)

(** The commit rule lets a leader move its commit index to [k]. *)
Definition commits c (k : Z) : Prop :=
  k = rc_commit_index c
  ∨ (rc_commit_index c < k ∧ term_at k c = Some (current_term (rc_hard c))
     ∧ core_quorum c ≤ Z.of_nat (reached k (match_indices c))).

Lemma advance_commit_ok c σ c' σ' :
  rc_cluster_size c = zlen (rc_peers c) + 1 → rc_cluster_size c ≤ u64_max →
  advance_commit_index (c, σ) = (Ok tt, (c', σ')) →
  ∃ k, commits c k ∧ c' = set_commit_index k c.
Proof.
  intros Hn Hmax. destruct (advance_commit_run c σ Hn Hmax) as (cand & c1 & -> & Hq & _ & Ec & Ek).
  intros [= <- _]. exists (rc_commit_index c1). split; [|done]. rw Ek.
  case_decide as Hd; [right|by left]. destruct Hd. by split_and!.
Qed.

(** The leader appends [cmd], writes it to disk and looks at the commit index. *)
Definition append_and_commit (cmd : Command) : M (RaftCore L * fs) LogEntry :=
  let! entry := append_command cmd in
  do! core_sync then
  do! advance_commit_index then
  ret entry.

Lemma append_and_commit_then {A} cmd (f : LogEntry → A) s :
  (let! entry := append_command cmd in
   do! core_sync then do! advance_commit_index then ret (f entry)) s
  = (let! entry := append_and_commit cmd in ret (f entry)) s.
Proof.
  rw /append_and_commit /bind. destruct (append_command cmd s) as [[e| |] s1]; [|done..].
  destruct (core_sync s1) as [[[]| |] s2]; [|done..].
  by destruct (advance_commit_index s2) as [[[]| |] s3].
Qed.

(** The core after an entry has been appended. *)
Definition appended (cmd : Command) c : RaftCore L :=
  pushed (MkLogEntry (current_term (rc_hard c)) (u64_add (last_log_index c) 1) cmd) c.

Lemma append_and_commit_ok cmd c σ e c' σ' :
  rc_cluster_size c = zlen (rc_peers c) + 1 → rc_cluster_size c ≤ u64_max →
  append_and_commit cmd (c, σ) = (Ok e, (c', σ')) →
  rc_role c = Leader ∧ e_index e = u64_add (last_log_index c) 1 ∧ ∃ k, commits (appended cmd c) k
    ∧ essence c' = essence (set_commit_index k (appended cmd c)).
Proof.
  intros Hn Hmax. rw /append_and_commit. intros (e' & [c1 σ1] & E1 & E2)%bind_Ok_inv.
  apply append_command_ok in E1 as (Hl & -> & l & ->).
  destruct (bind_Ok_inv _ _ _ _ _ E2) as ([] & [c2 σ2] & E3 & E4). apply core_sync_ok in E3 as [l2 ->].
  destruct (bind_Ok_inv _ _ _ _ _ E4) as ([] & [c3 σ3] & E5 & E6).
  apply advance_commit_ok in E5 as (k & Hk & ->); [|done..]. move: E6. rw /ret. intros [= <- <- _].
  split_and! => //. by exists k.
Qed.

(** ** Counting votes *)

Lemma count_vote_ok reply term votes c σ r c' σ' :
  rc_cluster_size c = zlen (rc_peers c) + 1 → rc_cluster_size c ≤ u64_max →
  count_vote reply term votes (c, σ) = (Ok r, (c', σ')) →
  (essence c' = essence (set_role Follower (set_hard (hard_at (rvr_term reply) (rc_hard c)) c))
     ∧ current_term (rc_hard c) < rvr_term reply ∧ r = None)
  ∨ (essence c' = essence c ∧
       (r = None ∨ (r = Some votes ∧ rvr_vote_granted reply = false)
        ∨ (r = Some (votes + 1) ∧ rvr_vote_granted reply = true)))
  ∨ (rc_role c = Candidate ∧ current_term (rc_hard c) = term ∧ rvr_vote_granted reply = true
     ∧ core_quorum c ≤ votes + 1 ∧ r = None
     ∧ ∃ k, commits (appended Noop (become_leader c)) k
         ∧ essence c' = essence (set_commit_index k (appended Noop (become_leader c)))).
Proof.
  intros Hn Hmax. rw /count_vote {1 2}/bind {1 2}/self /gets. cbn [fst].
  destruct (Z.ltb_spec (current_term (rc_hard c)) (rvr_term reply)) as [Hlt|Hge].
  { intros ([] & [c1 σ1] & E1%become_follower_ok & E2)%bind_Ok_inv. move: E2. rw /ret.
    intros [= <- <- _]. by left. }
  destruct (bool_decide_reflect (rc_role c = Candidate)) as [Hc|]; last first.
  { rw /ret. intros [= <- <- _]. right; left. auto. }
  destruct (Z.eqb_spec (current_term (rc_hard c)) term) as [Ht|]; last first.
  { rw /ret. intros [= <- <- _]. right; left. auto. }
  cbn [negb orb]. destruct (rvr_vote_granted reply) eqn:Eg; last first.
  { rw /ret. intros [= <- <- _]. right; left. auto. }
  rw {1}/bind {1}/self /gets. cbn [fst]. destruct (Z.leb_spec (core_quorum c) (votes + 1)) as [Hq|]; last first.
  { rw /ret. intros [= <- <- _]. right; left. auto. }
  rw {1}/bind {1}/update /modify. intros E. right; right.
  rw (append_and_commit_then Noop (λ _, None)) in E.
  destruct (bind_Ok_inv _ _ _ _ _ E) as (e & s1 & E1 & E2). injection E2 as <- ->.
  apply append_and_commit_ok in E1 as (_ & _ & E1); [|done..]. by split_and!.
Qed.

(** ** Proposals *)

(** The section with which [propose] starts. *)
Definition propose_section (cmd : Command) : M (RaftCore L * fs) Z :=
  let! leader := self is_leader in
  if negb leader then throw (error_raft "not leader")
  else
    let! entry := append_command cmd in
    do! core_sync then
    do! advance_commit_index then
    ret (e_index entry).

Lemma propose_starts {bin_snap : Bincode SnapshotFile} cmd now events :
  propose cmd now events =
    (await! index := core_section (propose_section cmd) in
     wait! discard (broadcast_append_entries now events) then
     wait! apply_committed then
     Done (Ok index)).
Proof. done. Qed.

Lemma propose_section_ok cmd c σ i c' σ' :
  rc_cluster_size c = zlen (rc_peers c) + 1 → rc_cluster_size c ≤ u64_max →
  propose_section cmd (c, σ) = (Ok i, (c', σ')) →
  rc_role c = Leader ∧ i = u64_add (last_log_index c) 1 ∧ ∃ k, commits (appended cmd c) k
    ∧ essence c' = essence (set_commit_index k (appended cmd c)).
Proof.
  intros Hn Hmax. rw /propose_section {1}/bind /self /gets. cbn [fst].
  destruct (negb (is_leader c)); [done|]. intros E.
  rw (append_and_commit_then cmd e_index) in E.
  destruct (bind_Ok_inv _ _ _ _ _ E) as (e & s1 & E1 & E2). injection E2 as <- ->.
  by apply append_and_commit_ok in E1.
Qed.

(** ** Replies to AppendEntries *)

Lemma fold_reply_ok peer last_sent reply term acks c σ r c' σ' :
  rc_cluster_size c = zlen (rc_peers c) + 1 → rc_cluster_size c ≤ u64_max →
  fold_reply peer last_sent reply term acks (c, σ) = (Ok r, (c', σ')) →
  (essence c' = essence (set_role Follower (set_hard (hard_at (aer_term reply) (rc_hard c)) c))
     ∧ current_term (rc_hard c) < aer_term reply)
  ∨ essence c' = essence c
  ∨ (rc_role c = Leader ∧ current_term (rc_hard c) = term ∧
     if aer_success reply then
       ∃ k, let c1 := set_next_index (<[peer := u64_add last_sent 1]> (rc_next_index c))
                        (set_match_index (<[peer := last_sent]> (rc_match_index c)) c) in
         commits c1 k ∧ c' = set_commit_index k c1
     else ∃ nx, 1 ≤ nx ≤ Z.max 1 (default 1 (rc_next_index c !! peer))
         ∧ c' = set_next_index (<[peer := nx]> (rc_next_index c)) c).
Proof.
  intros Hn Hmax. rw /fold_reply {1 2}/bind {1 2}/self /gets. cbn [fst].
  destruct (Z.ltb_spec (current_term (rc_hard c)) (aer_term reply)) as [Hlt|Hge].
  { intros ([] & [c1 σ1] & E1%become_follower_ok & E2)%bind_Ok_inv. move: E2. rw /ret.
    intros [= <- <- _]. by left. }
  rw /is_leader. destruct (bool_decide_reflect (rc_role c = Leader)) as [Hl|]; last first.
  { rw /ret. intros [= <- <- _]. by right; left. }
  destruct (Z.eqb_spec (current_term (rc_hard c)) term) as [Ht|]; last first.
  { rw /ret. intros [= <- <- _]. by right; left. }
  cbn [negb orb]. intros ([] & [c1 σ1] & E1 & E2)%bind_Ok_inv. move: E2. rw /ret. intros [= _ <- _].
  right; right. split_and! => //. move: E1. rw /on_append_entries_reply {1}/bind /self /gets.
  cbn [fst]. rw bool_decide_eq_true_2 //. cbn [negb].
  destruct (aer_success reply).
  - rw {1 2}/bind /update /modify. intros E. by apply advance_commit_ok in E.
  - rw /update /modify. intros [= <- _]. eexists. split; [|done]. rw /saturating_sub.
    destruct (0 <? aer_conflict_index reply); lia.
Qed.

(** ** AppendEntries *)

(** The leader is recognised. *)
Lemma adopt_essence args c σ c' σ' :
  (if current_term (rc_hard c) <? ae_term args
   then become_follower (ae_term args) (Some (ae_leader_id args))
   else do! update (set_role Follower) then update (set_leader_id (Some (ae_leader_id args)))) (c, σ)
    = (Ok tt, (c', σ')) →
  essence c' = essence (set_role Follower (set_hard (hard_at (ae_term args) (rc_hard c)) c)).
Proof.
  rw /hard_at. destruct (current_term (rc_hard c) <? ae_term args) eqn:E.
  - intros ->%become_follower_run. by rw E.
  - rw /bind /update /modify. by intros [= <- _].
Qed.

Lemma handle_append_entries_ok args now draw c σ reply c' σ' :
  log_wf c → consecutive (ae_prev_log_index args) (ae_entries args) →
  0 ≤ ae_prev_log_index args → ae_prev_log_index args + zlen (ae_entries args) < u64_max →
  handle_append_entries args now draw (c, σ) = (Ok reply, (c', σ')) →
  let t := current_term (rc_hard c) in
  if ae_term args <? t then aer_success reply = false ∧ essence c' = essence c
  else
    let c1 := set_role Follower (set_hard (hard_at (ae_term args) (rc_hard c)) c) in
    if aer_success reply then
      matching_conflict args c = None ∧
      let c2 := set_entries (grafted (ae_prev_log_index args) (ae_entries args) c) c1 in
      essence c' = essence (set_commit_index
        (if rc_commit_index c <? ae_leader_commit args
         then Z.min (ae_leader_commit args) (last_log_index c2) else rc_commit_index c) c2)
    else essence c' = essence c1.
Proof.
  intros Hw Hc Hp Hb. rw /handle_append_entries {1}/bind {1}/self /gets. cbn [fst]. cbn zeta.
  destruct (Z.ltb_spec (ae_term args) (current_term (rc_hard c))) as [Hlt|Hge].
  { rw /self /gets. by intros [= <- <- _]. }
  set (c0 := set_role Follower _).
  intros ([] & [c1 σ1] & E1 & E2)%bind_Ok_inv.
  have {}E1 : essence c1 = essence c0 by apply: adopt_essence E1.
  destruct (bind_Ok_inv _ _ _ _ _ E2) as ([] & [c2 σ2] & E3 & E4).
  apply reset_timer_essence in E3. rw E1 in E3. clear E1 E2. cbn zeta in E4.
  case: (E3) => Ei Epe Ez Es Eh Ee Er Ek Ea En Em.
  move: E4. rw {1}/bind {1}/self /gets. cbn [fst].
  rw (matching_conflict_log args c c2) //. destruct (matching_conflict args c) as [hint|] eqn:Ec.
  { rw /self /gets. intros [= <- <- _]. done. }
  intros ([] & [c3 σ3] & E5 & E6)%bind_Ok_inv.
  apply matching_conflict_prev in Ec as Hprev. have Hw2 : log_wf c2 by eapply log_wf_same.
  apply (splice_ok _ _ _ _ _ (ae_prev_log_index args)) in E5 as [l ->] => //; last first.
  { rw last_log_index_wf // Es Ee. rw last_log_index_wf // in Hprev. }
  destruct (bind_Ok_inv _ _ _ _ _ E6) as ([] & [c4 σ4] & E7%core_sync_ok & E8).
  destruct E7 as [l4 ->]. move: E8. rw {1}/bind /update /modify /self /gets.
  intros [= <- <- _]. split; [done|]. rw /grafted Ee Es /= -/(grafted (ae_prev_log_index args) (ae_entries args) c). rw /essence /= Ek.
  have -> : ∀ es l l', last_log_index (set_log l (set_log l' (set_entries es c2)))
    = last_log_index (set_entries es c0) by move=> ???; rw /last_log_index /= Es.
  destruct (rc_commit_index c <? _); by rw /= ?Ek Ei Epe Ez Es Eh Er Ea En Em.
Qed.

(** ** Restarting *)

Lemma restore_ok {A} (cfg : Config A) snapshot log now draw σ c' σ' :
  restore cfg snapshot log now draw σ = (Ok c', σ') →
  rc_id c' = cfg_id cfg ∧ rc_peers c' = peer_id <$> cfg_peers cfg
  ∧ rc_cluster_size c' = cluster_size cfg ∧ rc_snapshot c' = snapshot ∧ rc_role c' = Follower
  ∧ rc_commit_index c' = last_included_index snapshot
  ∧ rc_last_applied c' = last_included_index snapshot.
Proof.
  rw /restore. intros (hard & σ1 & E1 & E2)%bind_Ok_inv.
  destruct (bind_Ok_inv _ _ _ _ _ E2) as (recs & σ2 & E3 & E4).
  destruct (bind_Ok_inv _ _ _ _ _ E4) as (es & σ3 & E5 & E6). move: E6. cbn zeta.
  destruct (reset_election_timer now draw _) as [r [c1 σ4]] eqn:E7.
  apply reset_timer_run in E7 as (_ & d & ->). by destruct r as [[]| |]; [|done..]; intros [= <- _].
Qed.

End sections.
