(* ===== verification/Durable.v ===== *)
(** * Durable: the state of a node is on its disk after every section.

    [on_disk] says that everything a node relies on can be read back after a crash: its log,
    its hard state and its newest snapshot.  This file shows that every section of the code
    that runs without a failing system call keeps it: the log writes only below the
    directory of the log, the hard state is replaced whole, a snapshot is in place before
    the log is cut (file Footprint keeps the three apart). *)

From Corelib Require Import ssreflect.
From stdpp Require Import base gmap strings list sorting.
From S2P Require Import Prelude Text Fs AtomicFile Crc Record Segment WalLog Codec Config MemTable Snapshot RaftState.
From S2P Require Import Wal RaftCore Election Replication Mirror Footprint Task Store Driver Apply Sections.

(** ** What a change elsewhere leaves alone *)

Lemma join_not_in d d' n : d ≠ d' → ¬ in_dir d (join d' n).
Proof. rw /in_dir parent_join. congruence. Qed.

Lemma views_ok_confined d σ σ' p Q :
  confined d σ σ' → ¬ in_dir d p → views_ok σ p Q → views_ok σ' p Q.
Proof.
  intros C Hp [Hn Hs]. split; [by rw (cf_names _ _ _ C) // (cf_dnames _ _ _ C)|].
  intros fd Hv%(confined_view _ _ _ _ _ C Hp). rw /file_durable /file_data (cf_files _ _ _ C p) //. by apply Hs.
Qed.

Lemma durable_confined d σ σ' p : confined d σ σ' → ¬ in_dir d p → durable_at σ p → durable_at σ' p.
Proof.
  intros C Hp [Hn Hs]. rw /durable_at (cf_names _ _ _ C) // (cf_dnames _ _ _ C) //. split; [done|].
  intros fd Hv. rw /file_durable /file_data (cf_files _ _ _ C p) //; [by left|]. by apply Hs.
Qed.

Lemma contents_confined d σ σ' p : confined d σ σ' → ¬ in_dir d p → contents σ' p = contents σ p.
Proof.
  intros C Hp. rw /contents (cf_names _ _ _ C) //. destruct (fs_names σ !! p) as [fd|] eqn:E; [|done].
  simpl. f_equal. rw /file_data (cf_files _ _ _ C p) //. by left.
Qed.

Lemma latest_confined `{Bincode SnapshotFile} d dir σ σ' latest :
  confined d σ σ' → d ≠ dir → latest_is σ dir latest → latest_is σ' dir latest.
Proof.
  intros C Hd [Hn Hf]. pose proof (λ n, join_not_in d dir n Hd) as Hj. split.
  - intros n fd idx. rw (cf_names _ _ _ C) // (cf_dnames _ _ _ C) //. apply Hn.
  - intros file E. destruct (Hf file E) as (H1 & H2 & bs & Hc & Hb & Hdu).
    split; [by apply (cf_dirs _ _ _ C)|]. split; [done|]. exists bs.
    rw (contents_confined _ _ _ _ C); [apply Hj|]. split_and!; [done..|].
    eapply durable_confined; [exact C|apply Hj|done].
Qed.

Section log_frame.
Context `{Crc32}.

Lemma log_abs_confined d l σ σ' a :
  confined d σ σ' → fs_wf σ' → d ≠ log_dir l → log_abs σ l a →
  log_abs σ' l a ∧ (log_synced σ l → log_synced σ' l).
Proof.
  intros C Hwf Hd (pss & Hr & ->). pose proof (λ n, join_not_in d (log_dir l) n Hd) as Hj.
  assert (∀ s, s ∈ log_segments l → ¬ in_dir d (seg_path s)) as Hp.
  { intros s Hs. rw (proj1 (Forall_forall _ _) (lr_paths _ _ _ Hr) s Hs). apply Hj. }
  assert (∀ s, s ∈ log_segments l → fs_inodes σ' !! seg_file s = fs_inodes σ !! seg_file s) as Hin.
  { intros s Hs. destruct (log_rep_seg _ _ _ Hr s Hs) as [ps Hps].
    apply (cf_files _ _ _ C (seg_path s)); [by apply Hp|]. left. apply Hps. }
  split; [exists pss; split; [|done]|].
  - destruct Hr as [_ Hdir Hsegs Hne Hint Hbs Hps Hfs Hfst Hls Hbd Hon].
    split; try done; [by apply (cf_dirs _ _ _ C)| |].
    + eapply seg_reps_frame; [exact Hsegs|]. intros s Hs. split; [|by apply Hin].
      apply (cf_names _ _ _ C). by apply Hp.
    + intros n fd. rw (cf_names _ _ _ C) //. apply Hon.
  - intros Hsy. apply Forall_forall. intros s Hs. eapply seg_synced_frame; [|by apply Hin].
    by eapply Forall_forall in Hsy.
Qed.

(** The log of a representation is in its directory, and so are its files. *)
Lemma log_abs_in σ l a : log_abs σ l a → log_in (log_dir l) l.
Proof.
  intros (pss & Hr & _). split; [done|]. eapply Forall_impl; [apply (lr_paths _ _ _ Hr)|].
  intros s Hs. rw /seg_in Hs. apply parent_join.
Qed.

Lemma log_abs_homed σ l a : one_home σ → log_abs σ l a → Forall (homed (log_dir l) σ) (log_files l).
Proof.
  intros Ho Ha. pose proof (log_abs_in _ _ _ Ha) as [_ Hin]. destruct Ha as (pss & Hr & _).
  apply Forall_forall. intros fd (s & -> & Hs)%list_elem_of_fmap.
  destruct (log_rep_seg _ _ _ Hr s Hs) as [ps Hps].
  apply (homed_view _ _ (seg_path s)); [done|by eapply Forall_forall in Hin|]. left. apply Hps.
Qed.

(** Appending never fails while no call does, however large the record. *)
Lemma log_append_total p l σ a :
  fault_free σ → log_abs σ l a → ∃ i l' σ', log_append p (l, σ) = (Ok i, (l', σ')).
Proof.
  intros Hs (pss & Hr & _). destruct (log_rotate_rep l σ pss Hs Hr) as (l1 & σ1 & pss1 & E1 & Hr1 & Hs1 & _).
  destruct (log_rep_snoc _ _ _ Hr1) as (init & act & ipss & aps & Es & _).
  destruct (segment_append_ok p act σ1 Hs1) as (out & buf & E2 & _).
  rw /log_append (bind_Ok _ _ _ _ _ E1) (bind_Ok _ _ _ _ _ (on_active_run _ _ _ _ _ _ _ _ Es E2)).
  by eexists _, _, _.
Qed.

End log_frame.

(** ** Footprints of the core's operations on the log *)

Section core_works.
Context {crc : Crc32} {bin_hard : Bincode HardState} {bin_entry : Bincode LogEntry}.
Implicit Types c : RaftCore Log.

(** What operations on the log leave as it is. *)
Definition steady (c : RaftCore Log) : HardState * path * SnapshotMeta * (Z * Z) :=
  (rc_hard c, rc_hard_path c, rc_snapshot c, rc_election_timeout c).

Abbreviation core_works d k :=
  (works snd (λ t, log_files (rc_log t.1)) (λ t, log_in d (rc_log t.1) ∧ steady t.1 = k) d []).
#[local] Abbreviation quiet m d k := (core_works d k m (λ _, []) (λ _, True)).

Lemma works_on_log {A} d k (m : M (Log * fs) A) :
  works snd (λ t, log_files t.1) (λ t, log_in d t.1) d [] m (λ _, []) (λ _, True) → quiet (on_log m) d k.
Proof.
  intros Hm [c σ] Ht Hh [HI Hk]. specialize (Hm (rc_log c, σ) Ht Hh HI). rw /on_log.
  destruct (m (rc_log c, σ)) as [r [l' σ']]. destruct Hm as (? & ? & ? & ? & ?). by split_and!.
Qed.

Lemma works_update d k (f : RaftCore Log → RaftCore Log) :
  (∀ c, rc_log (f c) = rc_log c ∧ steady (f c) = steady c) → quiet (update f) d k.
Proof.
  intros Hf. apply works_modify. intros [c σ] [HI Hk]. destruct (Hf c) as [El Es]. simpl.
  rw El Es. by split_and!.
Qed.

Lemma works_self {A} d k (f : RaftCore Log → A) : quiet (self f) d k.
Proof. apply works_gets. by intros [c σ]. Qed.

Lemma works_append_replicated d k e : quiet (append_replicated e) d k.
Proof.
  apply works_seq; [apply works_lift|intros bs].
  apply works_seq; [apply works_on_log, works_log_append|intros i]. by apply works_update.
Qed.

Lemma works_truncate_from d k i : quiet (truncate_from i) d k.
Proof.
  apply works_seq; [by apply works_update|intros _]. apply works_on_log, works_log_truncate_suffix.
Qed.

Lemma works_splice d k es : quiet (splice es) d k.
Proof.
  apply works_for_each, Forall_true. intros e. rw /splice_entry. apply works_seq; [apply works_self|intros base].
  destruct (_ <? _); [by apply works_ret|]. apply works_seq; [apply works_self|intros [t|]].
  - destruct (_ =? _); [by apply works_ret|]. apply works_seq; [apply works_truncate_from|intros _].
    apply works_append_replicated.
  - apply works_append_replicated.
Qed.

Lemma works_core_sync d k : quiet core_sync d k.
Proof. apply works_on_log, works_log_sync. Qed.

End core_works.

(** ** What a node has on disk *)

Section on_disk.
Context {crc : Crc32} {bin_hard : Bincode HardState} {bin_entry : Bincode LogEntry}.
Context {bin_snap : Bincode SnapshotFile} {A : Type}.
Context (hard_representable : ∀ h, hard_in_range h → representable h).
Implicit Types (c : RaftCore Log) (cfg : Config A) (sv : SnapshotMeta * MemTable).

(** Besides the log: the hard state is the core's whatever entry a reboot finds, the newest
    snapshot is [sv], no older than the one the log was cut to, and there are no temporary
    files. *)
Record aside cfg (σ : fs) c sv : Prop := {
  as_tidy : tidy σ;
  as_log : log_dir (rc_log c) = wal_dir cfg;
  as_timer : timer_ok c;
  as_range : hard_in_range (rc_hard c);
  as_path : rc_hard_path c = hard_state_path cfg;
  as_hard : hard_views σ (hard_state_path cfg) (λ h, h = rc_hard c);
  as_hard_tmp fd : ¬ view_fd σ (tmp_path (hard_state_path cfg)) fd;
  as_saved : ∃ latest, latest_is σ (snapshot_dir cfg) latest
    ∧ from_option snapshot_value (default_meta, memtable_new) latest = sv;
  as_snapshots n fd : view_fd σ (join (snapshot_dir cfg) n) fd → is_Some (snapshot_of_name n);
  as_above : snap_index c ≤ last_included_index sv.1
}.

(** And the log holds the entries, synced. *)
Record on_disk cfg (σ : fs) c sv (a : alog) : Prop := {
  od_aside : aside cfg σ c sv;
  od_mirror : mirror σ c a;
  od_synced : log_synced σ (rc_log c)
}.

Lemma wal_not_snapshots cfg : wal_dir cfg ≠ snapshot_dir cfg.
Proof. rw /wal_dir /snapshot_dir. by intros ?%join_inj. Qed.
Lemma data_not_sub cfg n : cfg_data_dir cfg ≠ join (cfg_data_dir cfg) n.
Proof. rw /join. intros E%(f_equal length). rw length_app /= in E. lia. Qed.

Lemma hard_not_in cfg d : d ≠ cfg_data_dir cfg → ¬ in_dir d (hard_state_path cfg).
Proof. apply join_not_in. Qed.
Lemma hard_tmp_join cfg : tmp_path (hard_state_path cfg) = join (cfg_data_dir cfg) ("hard_state" +:+ ".tmp").
Proof. apply tmp_path_join. Qed.

(** A change in one of the other directories. *)
Lemma aside_confined cfg σ σ' c c' sv d :
  aside cfg σ c sv → tidy σ' → confined d σ σ' → d ≠ cfg_data_dir cfg → d ≠ snapshot_dir cfg →
  log_dir (rc_log c') = wal_dir cfg → steady c' = steady c → aside cfg σ' c' sv.
Proof.
  intros [_ _ Htm Hr Hp Hh Ht (latest & Hl & Ev) Hs Ha] Hti C Hd1 Hd2 Hl' [= E1 E2 E3 E4].
  pose proof (λ n, join_not_in d (snapshot_dir cfg) n Hd2) as Hj.
  split; rw /timer_ok ?E1 ?E2 ?E3 ?E4; try done.
  - apply (views_ok_confined d σ); [done|by apply hard_not_in|done].
  - intros fd. rw (confined_view _ _ _ _ _ C); [|apply Ht]. rw hard_tmp_join. by apply join_not_in.
  - exists latest. split; [|done]. by eapply latest_confined.
  - intros n fd. rw (confined_view _ _ _ _ _ C); [apply Hj|apply Hs].
Qed.

(** Only these parts of the core matter. *)
Lemma on_disk_core cfg σ c c' sv a :
  on_disk cfg σ c sv a → rc_log c' = rc_log c → rc_entries c' = rc_entries c → steady c' = steady c →
  on_disk cfg σ c' sv a.
Proof.
  intros [As Mi Sy] El Ee Es. split; [|by eapply (mirror_core σ c); [done..|by injection Es]|by rw El].
  pose proof As as []. eapply (aside_confined cfg σ σ c c' sv (wal_dir cfg)); try done; [| |by rw El].
  - rw /wal_dir. apply not_eq_sym, data_not_sub.
  - apply wal_not_snapshots.
Qed.

(** Work on the log. *)
Lemma log_work {B} cfg σ c sv a (m : M (RaftCore Log * fs) B) r c' σ' :
  aside cfg σ c sv → mirror σ c a →
  works snd (λ t, log_files (rc_log t.1)) (λ t, log_in (wal_dir cfg) (rc_log t.1) ∧ steady t.1 = steady c)
    (wal_dir cfg) [] m (λ _, []) (λ _, True) →
  m (c, σ) = (r, (c', σ')) → aside cfg σ' c' sv ∧ confined (wal_dir cfg) σ σ'.
Proof.
  intros As Mi Hm E. pose proof (as_log _ _ _ _ As) as El. pose proof (as_tidy _ _ _ _ As) as Ht.
  pose proof (mi_rep _ _ _ Mi : log_abs σ (rc_log c) a) as Ha.
  pose proof (Hm (c, σ) Ht) as W. rw E in W. simpl in W.
  destruct W as (T & C & _ & [Hin Hst] & _).
  - rw -El. apply (log_abs_homed _ _ _ (ti_home _ Ht) Ha).
  - rw -El. split; [by eapply log_abs_in|done].
  - split; [|done]. eapply (aside_confined cfg σ σ' c c'); try done.
    + rw /wal_dir. apply not_eq_sym, data_not_sub.
    + apply wal_not_snapshots.
    + apply Hin.
Qed.

(** ** The hard state *)

Lemma persist_on_disk cfg σ c sv a h :
  on_disk cfg σ c sv a → fault_free σ → hard_in_range h →
  ∃ σ', hard_persist (rc_hard_path c) h σ = (Ok tt, σ') ∧ fault_free σ'
    ∧ on_disk cfg σ' (set_hard h c) sv a.
Proof.
  intros [As Mi Sy] Hs Hh. pose proof As as [[Hwf Ho] Hl Htm Hr Hp Hv Ht Hsv Hsn Hab].
  set (D := cfg_data_dir cfg). set (p := hard_state_path cfg) in *.
  assert (unaliased (tmp_path p) p σ) as Hal by (intros fd Hfd _; apply (Ht fd); by left).
  destruct (hard_persist_ok D "hard_state" h σ Hwf Hs (hard_representable h Hh)) as [Eok Hs'].
  pose proof (hard_persist_views D "hard_state" h σ (λ _, True) Hwf (hard_representable h Hh) Hal) as V.
  pose proof (works_hard_persist D "hard_state" h [] σ (Build_tidy _ Hwf Ho) ltac:(done) I) as W.
  pose proof (λ fd, hard_persist_tmp D "hard_state" h σ fd Hwf (hard_representable h Hh) Eok) as Hgone.
  rw Hp. change (join D "hard_state") with p in Eok, Hs', V, W, Hgone.
  destruct (hard_persist p h σ) as [r σ']. cbn [fst snd] in *. subst r.
  destruct W as (T & C & _). destruct V as (_ & _ & _ & V & _); [by eapply hard_views_impl|done|].
  exists σ'. split_and!; [done|done|].
  assert (D ≠ log_dir (rc_log c)) as Hd by (rw Hl; apply data_not_sub).
  destruct (log_abs_confined D (rc_log c) σ σ' a C (ti_wf _ T) Hd (mi_rep _ _ _ Mi)) as [Ha' Hsy'].
  pose proof (λ n, join_not_in D (snapshot_dir cfg) n ltac:(apply data_not_sub)) as Hj.
  split; [|destruct Mi as [Hw _ ? ? ?]; split; [by destruct Hw|done..]|by apply Hsy'].
  split; try done.
  - by apply V.
  - destruct Hsv as (latest & Hla & Ev). exists latest. split; [|done].
    eapply (latest_confined D); [done|apply data_not_sub|done].
  - intros n fd. rw (confined_view _ _ _ _ _ C); [apply Hj|apply Hsn].
Qed.

(** The section runs to its end and leaves the node's state on disk. *)
Definition settles cfg sv {B} (m : M (RaftCore Log * fs) B) c σ : Prop :=
  ∃ r c' σ' a', m (c, σ) = (Ok r, (c', σ')) ∧ fault_free σ' ∧ on_disk cfg σ' c' sv a'.

Lemma settles_ok cfg sv {B} (m : M (RaftCore Log * fs) B) c σ r c' σ' a' :
  m (c, σ) = (Ok r, (c', σ')) → fault_free σ' → on_disk cfg σ' c' sv a' → settles cfg sv m c σ.
Proof. intros. by exists r, c', σ', a'. Qed.

(** After a first part that is known. *)
Lemma settles_bind cfg sv {B B'} (m : M (RaftCore Log * fs) B) (k : B → M (RaftCore Log * fs) B') c σ r c' σ' :
  m (c, σ) = (Ok r, (c', σ')) → settles cfg sv (k r) c' σ' → settles cfg sv (bind m k) c σ.
Proof. intros E (r' & c2 & σ2 & a2 & E2 & H). exists r', c2, σ2, a2. by rw (bind_Ok _ _ _ _ _ E). Qed.

Lemma become_follower_on_disk cfg sv σ c a term leader :
  on_disk cfg σ c sv a → fault_free σ → 0 ≤ term ≤ u64_max →
  ∃ c' σ', become_follower term leader (c, σ) = (Ok tt, (c', σ')) ∧ fault_free σ' ∧ on_disk cfg σ' c' sv a.
Proof.
  intros D Hs Ht. rw /become_follower /bind /self /gets /update /modify. cbn [fst].
  destruct (current_term (rc_hard c) <? term).
  - rw /persist_hard. cbn [rc_hard_path set_hard rc_hard current_term].
    destruct (persist_on_disk cfg σ c sv a (MkHardState term None) D Hs) as (σ' & E & Hs' & D'); [by split|].
    rw E. eexists _, σ'. split_and!; [done|done|]. by eapply (on_disk_core _ _ (set_hard _ c)).
  - rw /ret. eexists _, σ. split_and!; [done|done|]. by eapply on_disk_core.
Qed.

Lemma reset_timer_on_disk cfg sv σ c a now draw :
  on_disk cfg σ c sv a →
  ∃ c', reset_election_timer now draw (c, σ) = (Ok tt, (c', σ)) ∧ on_disk cfg σ c' sv a
    ∧ rc_hard c' = rc_hard c ∧ rc_log c' = rc_log c ∧ last_log_index c' = last_log_index c.
Proof.
  intros D. destruct (reset_timer_ok now draw c σ) as [t E]; [apply D|].
  eexists. split; [exact E|]. split_and!; [by eapply on_disk_core|done..].
Qed.

Lemma become_candidate_on_disk cfg sv σ c a now draw :
  on_disk cfg σ c sv a → fault_free σ → current_term (rc_hard c) < u64_max → 0 ≤ rc_id c ≤ u64_max →
  settles cfg sv (become_candidate now draw) c σ.
Proof.
  intros D Hs Ht Hi. destruct (as_range _ _ _ _ (od_aside _ _ _ _ _ D)) as [Hr _].
  rw /become_candidate. set (h := MkHardState (current_term (rc_hard c) + 1) (Some (rc_id c))).
  destruct (persist_on_disk cfg σ c sv a h D Hs) as (σ' & E & Hs' & D').
  { rw /h. split; [simpl; lia|by intros x [= <-]]. }
  set (c1 := set_leader_id None (set_hard h (set_role Candidate c))).
  destruct (reset_timer_on_disk cfg sv σ' c1 a now draw) as (c2 & E2 & D2 & _).
  { by eapply (on_disk_core _ _ (set_hard h c)). }
  eapply settles_ok; [|exact Hs'|exact D2].
  rw /bind /update /modify /persist_hard. cbn [rc_hard_path set_hard set_role rc_hard current_term rc_id voted_for].
  rw u64_add_small; [lia|]. fold h. rw E. change (set_leader_id None _) with c1. by rw E2.
Qed.

Lemma decide_vote_on_disk cfg sv σ c a args now draw :
  on_disk cfg σ c sv a → fault_free σ → 0 ≤ rv_candidate_id args ≤ u64_max →
  settles cfg sv (decide_vote args now draw) c σ.
Proof.
  intros D Hs Hc. destruct (as_range _ _ _ _ (od_aside _ _ _ _ _ D)) as [Hr _].
  do 2 (eapply settles_bind; [done|]). cbv beta zeta. destruct (_ && _).
  - set (h := MkHardState (current_term (rc_hard c)) (Some (rv_candidate_id args))).
    destruct (persist_on_disk cfg σ c sv a h D Hs) as (σ' & E & Hs' & D').
    { split; [done|by intros x [= <-]]. }
    destruct (reset_timer_on_disk cfg sv σ' (set_hard h c) a now draw D') as (c2 & E2 & D2 & _).
    eapply settles_bind; [|eapply settles_bind; [done|by eapply settles_ok]].
    rw /bind /update /modify /persist_hard. cbn [rc_hard_path set_hard rc_hard]. fold h. by rw E E2.
  - eapply settles_bind; [done|]. eapply settles_bind; [done|]. by eapply settles_ok.
Qed.

Lemma request_vote_on_disk cfg sv σ c a args now draw :
  on_disk cfg σ c sv a → fault_free σ → 0 ≤ rv_candidate_id args ≤ u64_max → 0 ≤ rv_term args ≤ u64_max →
  settles cfg sv (handle_request_vote args now draw) c σ.
Proof.
  intros D Hs Hc Ht. eapply settles_bind; [done|]. simpl.
  destruct (_ <? _); [by eapply settles_ok|]. destruct (_ <? _).
  - destruct (become_follower_on_disk cfg sv σ c a (rv_term args) None D Hs Ht) as (c1 & σ1 & E & Hs1 & D1).
    eapply settles_bind; [exact E|]. by eapply decide_vote_on_disk.
  - eapply settles_bind; [done|]. by eapply decide_vote_on_disk.
Qed.

(** ** The log *)

(** [Log::sync] after work on the log. *)
Lemma core_sync_on_disk cfg sv σ c a :
  aside cfg σ c sv → mirror σ c a → fault_free σ →
  ∃ l σ', core_sync (c, σ) = (Ok tt, (set_log l c, σ')) ∧ fault_free σ' ∧ on_disk cfg σ' (set_log l c) sv a.
Proof.
  intros As Mi Hs. destruct (wal_sync_spec (rc_log c) σ a Hs (mi_rep _ _ _ Mi)) as (l & σ' & E & Hr & Hcl & Hs').
  assert (core_sync (c, σ) = (Ok tt, (set_log l c, σ'))) as Ec by by rw /core_sync /on_log E.
  exists l, σ'. split_and!; [done|done|].
  destruct (log_work cfg σ c sv a core_sync _ _ _ As Mi (works_core_sync _ _) Ec) as [As' _].
  split; [done| |done]. destruct Mi as [Hw _ ? ? ?]. split; [by destruct Hw|done..].
Qed.

Lemma append_entries_on_disk cfg sv σ c a args now draw :
  on_disk cfg σ c sv a → fault_free σ → 0 ≤ ae_term args ≤ u64_max →
  Forall storable (ae_entries args) → consecutive (ae_prev_log_index args) (ae_entries args) →
  0 ≤ ae_prev_log_index args → ae_prev_log_index args + zlen (ae_entries args) < u64_max →
  settles cfg sv (handle_append_entries args now draw) c σ.
Proof.
  intros D Hs Ht Hst Hco Hp Hb. eapply settles_bind; [done|]. simpl.
  destruct (_ <? _); [by eapply settles_ok|].
  assert (∃ c1 σ1, (if current_term (rc_hard c) <? ae_term args
                    then become_follower (ae_term args) (Some (ae_leader_id args))
                    else do! update (set_role Follower) then
                         update (set_leader_id (Some (ae_leader_id args)))) (c, σ) = (Ok tt, (c1, σ1))
    ∧ fault_free σ1 ∧ on_disk cfg σ1 c1 sv a) as (c1 & σ1 & E1 & Hs1 & D1).
  { destruct (_ <? _); [by apply become_follower_on_disk|].
    eexists _, σ. split_and!; [done|done|]. by eapply on_disk_core. }
  eapply settles_bind; [exact E1|].
  destruct (reset_timer_on_disk cfg sv σ1 c1 a now draw D1) as (c2 & E2 & D2 & _ & El & _).
  eapply settles_bind; [exact E2|]. eapply settles_bind; [done|]. simpl.
  destruct (matching_conflict args c2) as [hint|] eqn:Em; [by eapply settles_ok|].
  assert (ae_prev_log_index args ≤ last_log_index c2) as Hprev.
  { rw /matching_conflict in Em. by destruct (Z.ltb_spec (last_log_index c2) (ae_prev_log_index args)). }
  destruct D2 as [As2 Mi2 Sy2].
  destruct (splice_mirror (ae_entries args) c2 σ1 a (ae_prev_log_index args) Hs1 Mi2 Hst Hco
    ltac:(lia) Hb) as (c3 & σ3 & a3 & E3 & Mi3 & Hs3 & _); [by left|].
  destruct (log_work cfg σ1 c2 sv a _ _ _ _ As2 Mi2 (works_splice _ _ (ae_entries args)) E3) as [As3 _].
  destruct (core_sync_on_disk cfg sv σ3 c3 a3 As3 Mi3 Hs3) as (l4 & σ4 & E4 & Hs4 & D4).
  eapply settles_bind; [exact E3|]. eapply settles_bind; [exact E4|].
  eapply settles_bind; [done|]. eapply settles_ok; [done|exact Hs4|].
  simpl. destruct (rc_commit_index c3 <? ae_leader_commit args); [|exact D4]. by eapply on_disk_core.
Qed.

(** Appending a command as leader and syncing: it fails without a change, or it adds the
    entry; if that can be stored, it is. *)
Lemma append_command_on_disk cfg sv σ c a cmd :
  on_disk cfg σ c sv a → fault_free σ → rc_role c = Leader → last_log_index c + 1 < u64_max →
  let e := MkLogEntry (current_term (rc_hard c)) (last_log_index c + 1) cmd in
  (∃ err, append_command cmd (c, σ) = (Err err, (c, σ)) ∧ ¬ storable e)
  ∨ (∃ c' σ', append_command cmd (c, σ) = (Ok e, (c', σ')) ∧ rc_entries c' = rc_entries c ++ [e]
     ∧ (storable e → ∃ l2 σ2 a2, core_sync (c', σ') = (Ok tt, (set_log l2 c', σ2)) ∧ fault_free σ2
          ∧ on_disk cfg σ2 (set_log l2 c') sv a2)).
Proof.
  intros [As Mi Sy] Hs Hr Hb e. pose proof (mi_wf _ _ _ Mi) as Hw.
  pose proof (lw_base _ Hw). pose proof (last_log_index_wf _ Hw). pose proof (zlen_nonneg (rc_entries c)).
  rw append_command_replicated // u64_add_small; [lia|]. fold e.
  destruct (append_replicated e (c, σ)) as [r [c' σ']] eqn:E.
  pose proof E as E0. move: E0. rw {1}/append_replicated /bind /lift.
  destruct (bincode_serialize e) as [bs|err|] eqn:Es;
    [|intros [= <- <- <-]; left; exists err; split;
       [by rw E|intros [(bs & Eb & _)%bincode_serialize_ok _]; congruence]|rw /bincode_serialize in Es; by destruct (serialize e)].
  destruct (log_append_total bs (rc_log c) σ a Hs (mi_rep _ _ _ Mi)) as (i & l1 & σ1 & El).
  rw /on_log /=. rw El /update /modify. intros [= <- <- <-].
  right. eexists _, σ1. split_and!; [by rw E|done|]. intros Hst.
  destruct (append_replicated_mirror e c σ a Hs Mi Hst eq_refl Hb) as (c2 & σ2 & a2 & E2 & Mi2 & Hs2 & _).
  rw E in E2. injection E2 as <- <-.
  destruct (log_work cfg σ c sv a _ _ _ _ As Mi (works_append_replicated _ _ e) E) as [As2 _].
  destruct (core_sync_on_disk cfg sv σ1 _ a2 As2 Mi2 Hs2) as (l2 & σ3 & E3 & Hs3 & D3). by exists l2, σ3, a2.
Qed.

(** ** Compaction *)

Lemma compact_on_disk cfg sv σ c a meta :
  on_disk cfg σ c sv a → fault_free σ → last_included_index meta ≤ last_included_index sv.1 →
  last_included_index meta ≤ last_log_index c →
  settles cfg sv (compact meta) c σ.
Proof.
  intros D Hs Hm Hl. pose proof D as [As Mi Sy]. pose proof (mi_wf _ _ _ Mi) as Hw.
  destruct (decide (last_included_index meta ≤ snap_index c)) as [Hle|Hgt].
  { eapply settles_ok; [|done|exact D]. rw /compact /bind /self /gets. cbn [fst].
    by destruct (Z.leb_spec (last_included_index meta) (snap_index c)); [|lia]. }
  assert (snap_index c < last_included_index meta ≤ last_log_index c) as Hr by lia.
  destruct (wal_truncate_prefix_spec (last_included_index meta + 1) (rc_log c) σ a Hs (mi_rep _ _ _ Mi))
    as (d & l' & σ' & E & Hr' & Hs' & Hd & Hc & Hcl).
  assert (on_log (wal_truncate_prefix (last_included_index meta + 1)) (c, σ) = (Ok tt, (set_log l' c, σ'))) as Eo.
  { by rw /on_log E. }
  destruct (log_work cfg σ c sv a _ _ _ _ As Mi
    (works_on_log _ _ _ (works_log_truncate_prefix _ (last_included_index meta + 1) [])) Eo) as [As' _].
  eapply settles_ok; [by rw compact_run // E|exact Hs'|]. split; [| |by apply Hcl].
  - destruct As' as [? ? ? ? ? ? ? Hsv ? ?]. by split.
  - pose proof (compacted_wf meta c Hw ltac:(lia)) as Hw'. destruct Mi as [_ _ Hf Hla He].
    pose proof (last_log_index_wf _ Hw) as Hll.
    assert (log_wf (set_log l' (compacted meta c))) as Hw2 by (by destruct Hw').
    split; [done|done| | |].
    + rw /= /al_drop /=. lia.
    + rw last_log_index_wf //= /zlen length_drop. rw /zlen in Hll, Hd. rw /al_last /al_drop /= /zlen length_drop.
      rw /al_last /zlen in Hla. lia.
    + simpl. rw drop_drop. apply (Forall2_drop _ _ _ (Z.to_nat (last_included_index meta - snap_index c))) in He.
      rw drop_drop in He.
      replace (Z.to_nat d + Z.to_nat (last_included_index meta + 1 - (al_first a + d)))%nat with
        (Z.to_nat (snap_index c + 1 - al_first a) + Z.to_nat (last_included_index meta - snap_index c))%nat by lia.
      exact He.
Qed.

(** ** Sections that append a command *)

(** However the section ends, the node's state is on disk, provided that the entries it is
    left with can be stored. *)
Definition leaves cfg sv {B} (m : M (RaftCore Log * fs) B) c σ : Prop :=
  ∀ r c' σ', m (c, σ) = (r, (c', σ')) → Forall storable (rc_entries c') →
    fault_free σ' ∧ ∃ a', on_disk cfg σ' c' sv a'.

Lemma settles_leaves cfg sv {B} (m : M (RaftCore Log * fs) B) c σ : settles cfg sv m c σ → leaves cfg sv m c σ.
Proof. intros (r & c1 & σ1 & a1 & E & Hs & D) r' c' σ' E' _. rw E in E'. injection E' as <- <- <-. eauto. Qed.

Lemma leaves_same cfg sv {B} (m : M (RaftCore Log * fs) B) c σ r c' a' :
  m (c, σ) = (r, (c', σ)) → fault_free σ → on_disk cfg σ c' sv a' → leaves cfg sv m c σ.
Proof. intros E Hs D r1 c1 σ1 E1 _. rw E in E1. injection E1 as <- <- <-. eauto. Qed.

Lemma leaves_bind cfg sv {B B'} (m : M (RaftCore Log * fs) B) (k : B → M (RaftCore Log * fs) B') c σ r c' σ' :
  m (c, σ) = (Ok r, (c', σ')) → leaves cfg sv (k r) c' σ' → leaves cfg sv (bind m k) c σ.
Proof. intros E H r2 c2 σ2. rw (bind_Ok _ _ _ _ _ E). apply H. Qed.

(** The cluster size counts the peers and the node. *)
Definition sized c : Prop := rc_cluster_size c = zlen (rc_peers c) + 1 ∧ rc_cluster_size c ≤ u64_max.

Lemma advance_on_disk cfg sv σ c a :
  on_disk cfg σ c sv a → sized c →
  ∃ k, advance_commit_index (c, σ) = (Ok tt, (set_commit_index k c, σ))
    ∧ on_disk cfg σ (set_commit_index k c) sv a.
Proof.
  intros D [H1 H2]. destruct (advance_commit_run c σ H1 H2) as (cand & c' & E & _ & _ & Ec & _).
  exists (rc_commit_index c'). rw -Ec. split; [done|]. rw Ec. by eapply on_disk_core.
Qed.

Lemma append_sync_leaves {B} cfg sv σ c a cmd (f : LogEntry → B) :
  on_disk cfg σ c sv a → fault_free σ → rc_role c = Leader → last_log_index c + 1 < u64_max → sized c →
  leaves cfg sv (let! e := append_command cmd in
                 do! core_sync then do! advance_commit_index then ret (f e)) c σ.
Proof.
  intros D Hs Hr Hb Hz.
  destruct (append_command_on_disk cfg sv σ c a cmd D Hs Hr Hb) as [(err & E & _)|(c1 & σ1 & E & Ee & Hst)].
  { eapply leaves_same; [|done|exact D]. by rw /bind E. }
  eapply leaves_bind; [exact E|]. intros r c' σ' E' Hall.
  apply append_command_ok in E as (_ & _ & l & Ec1).
  assert (sized c1) as Hz1 by by rw Ec1.
  assert (rc_entries c' = rc_entries c1) as Ec'.
  { move: E'. rw /bind /core_sync /on_log. destruct (wal_sync _) as [[[]| |] [l2 σ2]]; [|by intros [= _ <- _]..].
    destruct (advance_commit_run (set_log l2 c1) σ2) as (cand & c3 & E3 & _ & _ & Ec & _); [apply Hz1..|].
    rw E3. intros [= _ <- _]. by rw Ec. }
  destruct Hst as (l2 & σ2 & a2 & E2 & Hs2 & D2).
  { rw Ec' Ee in Hall. apply Forall_app in Hall as [_ Hall]. by apply Forall_cons in Hall as [? _]. }
  destruct (advance_on_disk cfg sv σ2 (set_log l2 c1) a2 D2 Hz1) as (k & E3 & D3).
  move: E'. rw (bind_Ok _ _ _ _ _ E2) (bind_Ok _ _ _ _ _ E3). intros [= _ <- <-]. eauto.
Qed.

Lemma propose_on_disk cfg sv σ c a cmd :
  on_disk cfg σ c sv a → fault_free σ → last_log_index c + 1 < u64_max → sized c →
  leaves cfg sv (propose_section cmd) c σ.
Proof.
  intros D Hs Hb Hz. eapply leaves_bind; [done|]. rw /is_leader /=.
  destruct (bool_decide_reflect (rc_role c = Leader)); [by eapply append_sync_leaves|].
  by eapply leaves_same.
Qed.

(** A leader appends an entry that can be stored. *)
Lemma append_sync_settles {B} cfg sv σ c a cmd (f : LogEntry → B) :
  on_disk cfg σ c sv a → fault_free σ → rc_role c = Leader → last_log_index c + 1 < u64_max → sized c →
  storable (MkLogEntry (current_term (rc_hard c)) (last_log_index c + 1) cmd) →
  settles cfg sv (let! e := append_command cmd in
                  do! core_sync then do! advance_commit_index then ret (f e)) c σ.
Proof.
  intros D Hs Hr Hb Hz Hst.
  destruct (append_command_on_disk cfg sv σ c a cmd D Hs Hr Hb) as [(err & _ & [])|(c1 & σ1 & E & _ & H)]; [done|].
  destruct (H Hst) as (l2 & σ2 & a2 & E2 & Hs2 & D2). apply append_command_ok in E as E0. destruct E0 as (_ & _ & l & Ec1).
  destruct (advance_on_disk cfg sv σ2 (set_log l2 c1) a2 D2) as (k & E3 & D3); [by rw Ec1|].
  eapply settles_bind; [exact E|]. eapply settles_bind; [exact E2|]. eapply settles_bind; [exact E3|].
  by eapply settles_ok.
Qed.

Lemma propose_settles cfg sv σ c a cmd :
  on_disk cfg σ c sv a → fault_free σ → rc_role c = Leader → last_log_index c + 1 < u64_max → sized c →
  storable (MkLogEntry (current_term (rc_hard c)) (last_log_index c + 1) cmd) →
  settles cfg sv (propose_section cmd) c σ.
Proof.
  intros D Hs Hr Hb Hz Hst. eapply settles_bind; [done|]. rw /is_leader /= bool_decide_eq_true_2 //.
  by eapply append_sync_settles.
Qed.

Lemma count_vote_settles cfg sv σ c a reply term votes :
  on_disk cfg σ c sv a → fault_free σ → last_log_index c + 1 < u64_max → sized c → 0 ≤ rvr_term reply ≤ u64_max →
  storable (MkLogEntry (current_term (rc_hard c)) (last_log_index c + 1) Noop) →
  settles cfg sv (count_vote reply term votes) c σ.
Proof.
  intros D Hs Hb Hz Ht Hst. do 2 (eapply settles_bind; [done|]). simpl.
  destruct (_ <? _).
  { destruct (become_follower_on_disk cfg sv σ c a (rvr_term reply) None D Hs Ht) as (c1 & σ1 & E & Hs1 & D1).
    eapply settles_bind; [exact E|]. by eapply settles_ok. }
  destruct (_ || _); [by eapply settles_ok|]. destruct (rvr_vote_granted reply); [|by eapply settles_ok].
  eapply settles_bind; [done|]. simpl. destruct (_ <=? _); [|by eapply settles_ok].
  eapply settles_bind; [done|]. apply (append_sync_settles cfg sv σ (become_leader c) a Noop (λ _, None)); try done.
  by eapply on_disk_core.
Qed.

Lemma count_vote_on_disk cfg sv σ c a reply term votes :
  on_disk cfg σ c sv a → fault_free σ → last_log_index c + 1 < u64_max → sized c →
  0 ≤ rvr_term reply ≤ u64_max → leaves cfg sv (count_vote reply term votes) c σ.
Proof.
  intros D Hs Hb Hz Ht. do 2 (eapply leaves_bind; [done|]). simpl.
  destruct (_ <? _).
  { destruct (become_follower_on_disk cfg sv σ c a (rvr_term reply) None D Hs Ht) as (c1 & σ1 & E & Hs1 & D1).
    eapply leaves_bind; [exact E|]. by eapply leaves_same. }
  destruct (_ || _); [by eapply leaves_same|]. destruct (rvr_vote_granted reply); [|by eapply leaves_same].
  eapply leaves_bind; [done|]. simpl. destruct (_ <=? _); [|by eapply leaves_same].
  eapply leaves_bind; [done|]. apply (append_sync_leaves cfg sv σ (become_leader c) a Noop (λ _, None)); try done.
  by eapply on_disk_core.
Qed.

Lemma fold_reply_on_disk cfg sv σ c a peer last reply term acks :
  on_disk cfg σ c sv a → fault_free σ → sized c → 0 ≤ aer_term reply ≤ u64_max →
  settles cfg sv (fold_reply peer last reply term acks) c σ.
Proof.
  intros D Hs Hz Ht. do 2 (eapply settles_bind; [done|]). simpl. destruct (_ <? _).
  { destruct (become_follower_on_disk cfg sv σ c a (aer_term reply) None D Hs Ht) as (c1 & σ1 & E & Hs1 & D1).
    eapply settles_bind; [exact E|]. by eapply settles_ok. }
  destruct (_ || _); [by eapply settles_ok|].
  assert (∃ c', on_append_entries_reply peer last reply (c, σ) = (Ok tt, (c', σ)) ∧ on_disk cfg σ c' sv a)
    as (c' & E & D'); [|eapply settles_bind; [exact E|]; by eapply settles_ok].
  rw /on_append_entries_reply {1}/bind /self /gets. cbn [fst].
  destruct (negb _); [by exists c|]. destruct (aer_success reply).
  - rw /bind /update /modify.
    match goal with |- context [advance_commit_index (?c1, σ)] =>
      destruct (advance_on_disk cfg sv σ c1 a) as (k & E & D2); [by eapply on_disk_core|exact Hz|] end.
    eexists. split; [exact E|exact D2].
  - eexists. split; [done|]. by eapply on_disk_core.
Qed.

(** ** Snapshots *)

(** The table of a node fits a snapshot file. *)
Definition fits (st : Store) : Prop := ∀ term, 0 ≤ term ≤ u64_max →
  representable (MkSnapshotFile (MkSnapshotMeta (store_last_applied st) term) (mt_map (st_memtable st))).

Lemma snapshot_on_disk cfg sv σ c a st term :
  on_disk cfg σ c sv a → fault_free σ → st_snapshot_dir st = snapshot_dir cfg → fits st →
  0 ≤ term ≤ u64_max → 0 ≤ last_included_index sv.1 ≤ store_last_applied st → store_last_applied st ≤ u64_max →
  snap_index c ≤ store_last_applied st →
  let meta := MkSnapshotMeta (store_last_applied st) term in
  ∃ σ', store_snapshot term (st, σ) = (Ok meta, (set_last_snapshot meta st, σ')) ∧ fault_free σ'
    ∧ on_disk cfg σ' c (meta, st_memtable st) a.
Proof.
  intros [As Mi Sy] Hs Hd Hf Ht Hi Hm Hc meta. pose proof As as [Hti Hl Htm Hr Hp Hh Htmp (latest & Hla & Ev) Hsn Hab].
  set (dir := snapshot_dir cfg) in *. set (tb := st_memtable st).
  assert (write_pre dir meta tb latest σ) as Pre.
  { split; [apply Hti|done| |by apply Hf|simpl; lia|].
    - apply tmp_free_none. destruct (fs_names σ !! _) as [fd|] eqn:E; [|done]. exfalso.
      rw tmp_name in E. destruct (Hsn _ fd (or_introl E)) as [i Hi'].
      change (snapshot_name _ +:+ ".tmp") with
        (SNAPSHOT_PREFIX +:+ (fmt_020 (store_last_applied st) +:+ SNAPSHOT_SUFFIX) +:+ ".tmp") in Hi'.
      by rw snapshot_of_tmp in Hi'.
    - destruct latest as [file|]; [|done]. simpl in *. rw -Ev in Hi. simpl in Hi. rw /index_of. lia. }
  destruct (snapshot_write_ok _ _ _ _ _ Pre Hs) as (σ' & E & Hs' & _).
  pose proof (snapshot_write_cases _ _ _ _ _ Pre) as Hcs. rw E in Hcs.
  destruct Hcs as [_ [Hla'|[Hno _]]]; [|by edestruct Hno].
  pose proof (works_snapshot_write dir meta tb [] σ Hti ltac:(done) I) as W.
  pose proof (λ n fd, snapshot_write_names dir meta tb latest σ n fd Pre Hs) as Hnm. rw E in W, Hnm.
  destruct W as (T & C & _).
  exists σ'. split_and!; [|done|].
  { rw /store_snapshot Hd. fold tb. change (MkSnapshotMeta (mt_last_applied tb) term) with meta. by rw E. }
  assert (dir ≠ log_dir (rc_log c)) as Hne by (rw Hl; apply not_eq_sym, wal_not_snapshots).
  assert (dir ≠ cfg_data_dir cfg) as Hne' by (apply not_eq_sym, data_not_sub).
  destruct (log_abs_confined dir (rc_log c) σ σ' a C (ti_wf _ T) Hne (mi_rep _ _ _ Mi)) as [Ha' Hsy'].
  split; [|by destruct Mi|by apply Hsy']. split; try done.
  - apply (views_ok_confined dir σ); [done|by apply hard_not_in|done].
  - intros fd. rw (confined_view _ _ _ _ _ C); [rw hard_tmp_join; by apply join_not_in|apply Htmp].
  - exists (Some (MkSnapshotFile meta (mt_map tb))). split; [done|]. rw /= /snapshot_value /index_of /=.
    f_equal. rw /from_parts /tb /store_last_applied. by destruct (st_memtable st).
  - intros n fd Hv. destruct (Hnm n fd Hv) as [?%Hsn| ->]; [done|]. rw snapshot_of_name_name //=. lia.
Qed.

End on_disk.
