(* ===== verification/Faults.v ===== *)
(** * Faults: what a section that fails leaves of a core.

    A call to the disk can fail in the middle of a section; the section then returns an error
    (or panics) and the core stays as it was at that moment.  For each section of file
    Sections this file gives the core left behind. *)

From Corelib Require Import ssreflect.
From stdpp Require Import base gmap strings list sorting.
From S2P Require Import Prelude Text Fs AtomicFile Crc WalLog Codec Config MemTable Snapshot.
From S2P Require Import RaftState Wal RaftCore Election Replication Task Store Driver Sections.

Section faults.
Context {L : Type} {wal : Wal L} {bin_hard : Bincode HardState} {bin_entry : Bincode LogEntry}.
Implicit Types c : RaftCore L.

(** ** Stepping down and elections *)

Lemma persist_hard_core c σ r c' σ' : persist_hard (c, σ) = (r, (c', σ')) → c' = c.
Proof. rw /persist_hard. destruct (hard_persist _ _ σ) as [r1 σ1]. by intros [= _ <-]. Qed.

(** A step-down that fails has taken the new term but kept the role. *)
Lemma become_follower_failed term leader c σ r c' σ' :
  become_follower term leader (c, σ) = (r, (c', σ')) → failed r →
  current_term (rc_hard c) < term ∧ c' = set_hard (MkHardState term None) c.
Proof.
  rw /become_follower {1}/bind /self /gets /update /modify. cbn [fst].
  intros E0 Hr; destruct (bind_failed_inv _ _ _ _ _ E0 Hr) as [(r1 & E & Hf)|([] & [c1 σ1] & _ & E)]; clear E0; [|by injection E as <- _ _].
  move: E. destruct (Z.ltb_spec (current_term (rc_hard c)) term) as [Hlt|];
    [|by intros [= <- _ _]]. rw /bind. cbn [fst snd rc_hard set_hard].
  by intros ->%persist_hard_core.
Qed.

Lemma become_candidate_failed now draw c σ r c' σ' :
  0 ≤ current_term (rc_hard c) < u64_max →
  become_candidate now draw (c, σ) = (r, (c', σ')) → failed r →
  essence c' = essence (set_role Candidate
    (set_hard (MkHardState (current_term (rc_hard c) + 1) (Some (rc_id c))) c)).
Proof.
  intros Ht. rw /become_candidate {1 2 3}/bind /update /modify.
  cbn [rc_hard set_hard set_role current_term rc_id]. rw u64_add_small; [lia|].
  intros E0 Hr; destruct (bind_failed_inv _ _ _ _ _ E0 Hr) as [(r1 & E & Hf)|([] & [c1 σ1] & E1 & E)]; clear E0.
  { by apply persist_hard_core in E as ->. }
  apply persist_hard_core in E1 as ->. move: E. rw {1}/bind.
  intros E0; destruct (bind_failed_inv _ _ _ _ _ E0 Hr) as [(r1 & E & Hf)|([] & [c2 σ2] & E2 & E)]; clear E0.
  - by apply reset_timer_essence in E.
  - by injection E as <- _ _.
Qed.

Lemma handle_request_vote_failed args now draw c σ r c' σ' :
  handle_request_vote args now draw (c, σ) = (r, (c', σ')) → failed r →
  let t := current_term (rc_hard c) in
  (t < rv_term args ∧ c' = set_hard (MkHardState (rv_term args) None) c)
  ∨ (t ≤ rv_term args
     ∧ log_up_to_date (rv_last_log_term args, rv_last_log_index args)
         (last_log_term c, last_log_index c) = true
     ∧ (let h := hard_at (rv_term args) (rc_hard c) in
        voted_for h = None ∨ voted_for h = Some (rv_candidate_id args))
     ∧ essence c' = essence (set_role (if t <? rv_term args then Follower else rc_role c)
         (set_hard (MkHardState (rv_term args) (Some (rv_candidate_id args))) c))).
Proof.
  rw /handle_request_vote {1}/bind /self /gets. cbn [fst]. cbn zeta.
  destruct (Z.ltb_spec (rv_term args) (current_term (rc_hard c))) as [Hlt|Hge].
  { by intros [= <- _ _]. }
  intros E0 Hr; destruct (bind_failed_inv _ _ _ _ _ E0 Hr) as [(r1 & E & Hf)|([] & [c1 σ1] & E1 & E)]; clear E0.
  { left. destruct (current_term (rc_hard c) <? rv_term args); [|by injection E as <- _ _].
    by apply become_follower_failed in E. }
  right. split; [done|].
  set (r0 := if current_term (rc_hard c) <? rv_term args then Follower else rc_role c).
  set (h := hard_at (rv_term args) (rc_hard c)).
  have {E1} [E1 Ht] : essence c1 = essence (set_role r0 (set_hard h c))
    ∧ current_term (rc_hard c1) = rv_term args.
  { rw /r0 /h /hard_at. destruct (Z.ltb_spec (current_term (rc_hard c)) (rv_term args)) as [Hlt|Hle].
    - apply become_follower_run in E1 as ->. simpl.
      by destruct (Z.ltb_spec (current_term (rc_hard c)) (rv_term args)); [|lia].
    - injection E1 as <- <-. split; [by destruct c|lia]. }
  case: (E1) => Ei Ep Ez Es Eh Ee Er Ek Ea En Em. move: E.
  rw /decide_vote {1 2}/bind /self /gets. cbn [fst].
  rw /last_log_term /last_log_index Ee Es /= -/(last_log_term c) -/(last_log_index c).
  set (ok := log_up_to_date _ _). rw Eh. set (free := _ || _).
  intros E0; destruct (bind_failed_inv _ _ _ _ _ E0 Hr) as [(r1 & E & Hf)|([] & [c2 σ2] & _ & E)]; clear E0; [|by injection E as <- _ _].
  destruct (ok && free) eqn:Eg; [|by injection E as <- _ _].
  apply andb_true_iff in Eg as [? Hv]. rw /free orb_true_iff !bool_decide_eq_true in Hv.
  split_and! => //. move: E. rw /update /modify {1}/bind.
  have Hdone : essence (set_hard (MkHardState (current_term (rc_hard c1)) (Some (rv_candidate_id args))) c1)
    = essence (set_role r0 (set_hard (MkHardState (rv_term args) (Some (rv_candidate_id args))) c)).
  { rw /essence /=. by rw Ei Ep Ez Es Ee Er Ek Ea En Em Ht. }
  intros E0; destruct (bind_failed_inv _ _ _ _ _ E0 Hf) as [(r2 & E & _)|([] & [c2 σ2] & E2 & E)]; clear E0.
  - by apply persist_hard_core in E as ->.
  - apply persist_hard_core in E2 as ->. apply reset_timer_essence in E. by rw E.
Qed.

(** ** Appending as leader *)

Lemma append_command_failed cmd c σ r c' σ' :
  append_command cmd (c, σ) = (r, (c', σ')) → failed r → ∃ l, c' = set_log l c.
Proof.
  rw /append_command {1}/bind /self /gets. cbn [fst].
  have Hsame : ∃ l, c = set_log l c by exists (rc_log c); destruct c.
  case: bool_decide_reflect => Hl; cbn [negb]; [|by intros [= _ <- _]].
  rw /bind /lift /on_log. cbn [fst]. destruct (bincode_serialize _) as [bs| |]; [|by intros [= _ <- _]..].
  destruct (wal_append _ _) as [[i| |] [l σ1]].
  - by intros [= <- _ _].
  - intros [= _ <- _] _. by exists l.
  - intros [= _ <- _] _. by exists l.
Qed.

Lemma core_sync_failed c σ r c' σ' : core_sync (c, σ) = (r, (c', σ')) → ∃ l, c' = set_log l c.
Proof.
  rw /core_sync /on_log. destruct (wal_sync _) as [r1 [l σ1]]. intros [= _ <- _]. by exists l.
Qed.

(** Nothing has happened, or the entry is in memory. *)
Lemma append_and_commit_failed cmd c σ r c' σ' :
  rc_cluster_size c = zlen (rc_peers c) + 1 → rc_cluster_size c ≤ u64_max →
  append_and_commit cmd (c, σ) = (r, (c', σ')) → failed r →
  essence c' = essence c ∨ (rc_role c = Leader ∧ essence c' = essence (appended cmd c)).
Proof.
  intros Hn Hmax. rw /append_and_commit.
  intros E0 Hr; destruct (bind_failed_inv _ _ _ _ _ E0 Hr) as [(r1 & E & Hf)|(e & [c1 σ1] & E1 & E)]; clear E0.
  { left. by apply append_command_failed in E as [l ->]. }
  apply append_command_ok in E1 as (Hl & -> & l & ->). right. split; [done|].
  destruct (bind_failed_inv _ _ _ _ _ E Hr) as [(r1 & [l2 ->]%core_sync_failed & _)|([] & [c2 σ2] & E2 & E3)];
    [done|]. apply core_sync_ok in E2 as [l2 ->]. clear E.
  destruct (bind_failed_inv _ _ _ _ _ E3 Hr) as [(r1 & E2 & Hf)|([] & [c3 σ3] & _ & E)];
    [|by injection E as <- _ _].
  match type of E2 with advance_commit_index (?c2, ?σ2) = _ =>
    destruct (advance_commit_run c2 σ2) as (cand & c3 & E & _); [done..|] end.
  rw E in E2. by injection E2 as <- _ _.
Qed.

Lemma count_vote_failed reply term votes c σ r c' σ' :
  rc_cluster_size c = zlen (rc_peers c) + 1 → rc_cluster_size c ≤ u64_max →
  count_vote reply term votes (c, σ) = (r, (c', σ')) → failed r →
  (current_term (rc_hard c) < rvr_term reply ∧ c' = set_hard (MkHardState (rvr_term reply) None) c)
  ∨ (rc_role c = Candidate ∧ current_term (rc_hard c) = term ∧ rvr_vote_granted reply = true
     ∧ core_quorum c ≤ votes + 1
     ∧ (essence c' = essence (become_leader c)
        ∨ essence c' = essence (appended Noop (become_leader c)))).
Proof.
  intros Hn Hmax. rw /count_vote {1 2}/bind {1 2}/self /gets. cbn [fst].
  destruct (Z.ltb_spec (current_term (rc_hard c)) (rvr_term reply)) as [Hlt|Hge].
  { intros E0 Hr; destruct (bind_failed_inv _ _ _ _ _ E0 Hr) as [(r1 & E & Hf)|([] & [c1 σ1] & _ & E)]; clear E0; [|by injection E as <- _ _].
    left. by apply become_follower_failed in E. }
  destruct (bool_decide_reflect (rc_role c = Candidate)) as [Hc|]; [|by intros [= <- _ _]].
  destruct (Z.eqb_spec (current_term (rc_hard c)) term) as [Ht|]; [|by intros [= <- _ _]].
  cbn [negb orb]. destruct (rvr_vote_granted reply) eqn:Eg; [|by intros [= <- _ _]].
  rw {1}/bind {1}/self /gets. cbn [fst].
  destruct (Z.leb_spec (core_quorum c) (votes + 1)) as [Hq|]; [|by intros [= <- _ _]].
  rw {1}/bind {1}/update /modify. intros E Hr. right. split_and! => //.
  rw (append_and_commit_then Noop (λ _, None)) in E.
  destruct (bind_failed_inv _ _ _ _ _ E Hr) as [(r1 & E1 & Hf)|(e & s1 & _ & E1)]; [|by injection E1 as <- _].
  apply append_and_commit_failed in E1 as [E1|[_ E1]]; auto.
Qed.

Lemma propose_section_failed cmd c σ r c' σ' :
  rc_cluster_size c = zlen (rc_peers c) + 1 → rc_cluster_size c ≤ u64_max →
  propose_section cmd (c, σ) = (r, (c', σ')) → failed r →
  essence c' = essence c ∨ (rc_role c = Leader ∧ essence c' = essence (appended cmd c)).
Proof.
  intros Hn Hmax. rw /propose_section {1}/bind /self /gets. cbn [fst].
  destruct (negb (is_leader c)); [intros [= _ <- _]; by left|]. intros E Hr.
  rw (append_and_commit_then cmd e_index) in E.
  destruct (bind_failed_inv _ _ _ _ _ E Hr) as [(r1 & E1 & Hf)|(e & s1 & _ & E1)]; [|by injection E1 as <- _].
  by apply append_and_commit_failed in E1.
Qed.

(** ** Replies to AppendEntries *)

Lemma fold_reply_failed peer last_sent reply term acks c σ r c' σ' :
  rc_cluster_size c = zlen (rc_peers c) + 1 → rc_cluster_size c ≤ u64_max →
  fold_reply peer last_sent reply term acks (c, σ) = (r, (c', σ')) → failed r →
  current_term (rc_hard c) < aer_term reply ∧ c' = set_hard (MkHardState (aer_term reply) None) c.
Proof.
  intros Hn Hmax. rw /fold_reply {1 2}/bind {1 2}/self /gets. cbn [fst].
  destruct (Z.ltb_spec (current_term (rc_hard c)) (aer_term reply)) as [Hlt|Hge].
  { intros E Hr. destruct (bind_failed_inv _ _ _ _ _ E Hr) as [(r1 & E1 & Hf)|([] & s1 & _ & E1)];
      [|by injection E1 as <- _]. by apply become_follower_failed in E1. }
  destruct (negb (is_leader c) || _); [by intros [= <- _ _]|]. intros E Hr.
  destruct (bind_failed_inv _ _ _ _ _ E Hr) as [(r1 & E1 & Hf)|([] & s1 & _ & E1)];
    [|by injection E1 as <- _]. exfalso. move: E1. rw /on_append_entries_reply {1}/bind /self /gets.
  cbn [fst]. destruct (negb _); [by intros [= <- _ _]|]. destruct (aer_success reply).
  - rw {1 2}/bind /update /modify.
    match goal with |- advance_commit_index (?c2, ?σ2) = _ → _ =>
      destruct (advance_commit_run c2 σ2) as (cand & c3 & E3 & _); [done..|] end.
    rw E3. by intros [= <- _ _].
  - by intros [= <- _ _].
Qed.

(** ** AppendEntries *)

(** What an interrupted loop leaves of the entries of [c]: [j] entries have been treated, and
    the log may have been cut for the next one. *)
Definition interrupted (prev : Z) (es : list LogEntry) c (es' : list LogEntry) : Prop :=
  ∃ j, es' = grafted prev (take j es) c
    ∨ (grafted prev (take j es) c = rc_entries c ∧ snap_index c ≤ prev + Z.of_nat j
       ∧ let k := Z.to_nat (prev + Z.of_nat j - snap_index c) in
         es' = take k (rc_entries c)
         ∧ ∃ x e, rc_entries c !! k = Some x ∧ es !! j = Some e ∧ e_term x ≠ e_term e).

Lemma append_replicated_failed e c σ r c' σ' :
  append_replicated e (c, σ) = (r, (c', σ')) → failed r → ∃ l, c' = set_log l c.
Proof.
  rw /append_replicated /bind /lift /on_log.
  have Hsame : ∃ l, c = set_log l c by exists (rc_log c); destruct c.
  destruct (bincode_serialize e) as [bs| |]; [|by intros [= _ <- _]..].
  destruct (wal_append bs (rc_log c, σ)) as [[i| |] [l σ1]];
    [by intros [= <- _ _]|by intros [= _ <- _]; exists l..].
Qed.

Lemma truncate_from_failed i c σ r c' σ' :
  log_wf c → truncate_from i (c, σ) = (r, (c', σ')) →
  ∃ l, c' = set_log l (set_entries (take (pos c i) (rc_entries c)) c).
Proof.
  intros Hw. rw /truncate_from /bind /update /modify /on_log. cbn [rc_log set_entries].
  rw (filter_below _ (snap_index c)); [apply Hw|].
  destruct (wal_truncate_suffix _ (rc_log c, σ)) as [r1 [l σ1]]. intros [= _ <- _]. by exists l.
Qed.

Lemma splice_entry_failed e es c σ r c' σ' prev :
  log_wf c → 0 ≤ prev ≤ last_log_index c → e_index e = prev + 1 → prev + 1 < u64_max →
  splice_entry e (c, σ) = (r, (c', σ')) → failed r →
  ∃ l es', c' = set_log l (set_entries es' c) ∧ interrupted prev (e :: es) c es'.
Proof.
  intros Hw Hp He Hm. pose proof (lw_bound _ Hw) as Hb. pose proof (lw_base _ Hw) as Hb0.
  rw last_log_index_wf // in Hp. rw /zlen in Hb Hp.
  have Hsame : interrupted prev (e :: es) c (rc_entries c).
  { exists 0%nat. left. by rw /grafted take_0 drop_nil. }
  rw /splice_entry {1 2}/bind /self /gets. cbn [fst]. rw base_index_wf //.
  destruct (Z.ltb_spec (e_index e) (snap_index c + 1)) as [Hlt|Hge]; [by intros [= <- _ _]|].
  cbn [fst]. rw term_at_entry //; [lia|]. rw entry_at_wf //; [lia|].
  have Hpos : pos c (e_index e) = Z.to_nat (prev - snap_index c) by rw /pos; lia.
  rw Hpos /=. destruct (rc_entries c !! _) as [x|] eqn:Ex; simpl; last first.
  { intros E Hf. apply append_replicated_failed in E as [l ->]; [|done].
    exists l, (rc_entries c). split; [by destruct c|done]. }
  destruct (Z.eqb_spec (e_term x) (e_term e)) as [|Hne]; [by intros [= <- _ _]|]. intros E Hf.
  have {Hsame} Hcut : interrupted prev (e :: es) c (take (Z.to_nat (prev - snap_index c)) (rc_entries c)).
  { exists 0%nat. right. rw /grafted take_0 drop_nil Z.add_0_r. split_and!; [done|lia|done|].
    by exists x, e. }
  destruct (bind_failed_inv _ _ _ _ _ E Hf) as [(r1 & E1 & _)|([] & [c1 σ1] & E1 & E2)].
  - apply truncate_from_failed in E1 as [l ->]; [|done]. rw Hpos. by eexists _, _.
  - apply truncate_from_run in E1 as [l ->]; [|done]. apply append_replicated_failed in E2 as [l2 ->]; [|done].
    rw Hpos. by exists l2; eexists.
Qed.

(** The first entry has been treated. *)
Lemma interrupted_cons prev e es c es' : log_wf c → 0 ≤ prev ≤ last_log_index c →
  let c1 := set_entries (grafted prev [e] c) c in
  interrupted (prev + 1) es c1 es' → interrupted prev (e :: es) c es'.
Proof.
  intros Hw Hp c1 [j H]. exists (S j). cbn [take].
  destruct (grafted_cons prev e (take j es) c Hw ltac:(lia)) as [-> _].
  destruct H as [->|(Eg & Hj & -> & x & e' & Hx & He' & Hne)]; [by left|right]. cbn zeta in *.
  change (snap_index c1) with (snap_index c) in *.
  have Hk : prev + 1 + Z.of_nat j = prev + Z.of_nat (S j) by lia. rw Hk in Hj Hx. rw Hk.
  suff E1 : rc_entries c1 = rc_entries c.
  { rw E1 in Hx. rw E1. split_and!; [by rw Eg|done|done|]. by exists x, e'. }
  rw /c1 /= in Hx |- *. apply lookup_lt_Some in Hx. move: Hx. rw /grafted.
  destruct (decide (prev < snap_index c)) as [Hlt|Hge].
  { have -> : Z.to_nat (snap_index c - prev) = S (Z.to_nat (snap_index c - prev - 1)) by lia. simpl.
    by rw drop_nil. }
  have -> : Z.to_nat (snap_index c - prev) = 0%nat by lia. simpl.
  destruct (rc_entries c !! _) as [y|] eqn:Ey.
  - apply lookup_lt_Some in Ey. destruct (_ =? _); [done|]. rw length_app length_take /=. lia.
  - apply lookup_ge_None in Ey. rw length_app /=. rw last_log_index_wf // /zlen in Hp. lia.
Qed.

Lemma splice_failed es c σ r c' σ' prev :
  log_wf c → 0 ≤ prev ≤ last_log_index c → consecutive prev es → prev + zlen es < u64_max →
  splice es (c, σ) = (r, (c', σ')) → failed r →
  ∃ l es', c' = set_log l (set_entries es' c) ∧ interrupted prev es c es'.
Proof.
  revert c σ prev. induction es as [|e es IH]; intros c σ prev Hw Hp Hc Hb; [by intros [= <- _ _]|].
  rw zlen_cons in Hb. pose proof (zlen_nonneg es) as Hz.
  apply consecutive_cons in Hc as [He Hc]. rw /splice. cbn [for_each]. rw -/(splice es). intros E Hr.
  destruct (bind_failed_inv _ _ _ _ _ E Hr) as [(r1 & E1 & Hf)|([] & [c1 σ1] & E1 & E2)].
  { apply: (splice_entry_failed e es _ _ _ _ _ prev) E1 Hf => //. lia. }
  have [Hw1 _] := splice_entry_run e c σ c1 σ1 Hw ltac:(lia) ltac:(lia) E1.
  have {E1} [l E1] := splice_entry_ok _ _ _ _ _ _ Hw Hp He ltac:(lia) E1.
  have [_ Hl] := grafted_cons prev e es c Hw ltac:(lia).
  have Hp1 : 0 ≤ prev + 1 ≤ last_log_index c1.
  { rw last_log_index_wf // E1 /=. rw last_log_index_wf // in Hp. simpl in Hl.
    pose proof (zlen_nonneg (grafted prev [e] c)). lia. }
  have {E2} [l' [es' [-> H]]] := IH c1 σ1 (prev + 1) Hw1 Hp1 Hc ltac:(lia) E2 Hr.
  exists l', es'. split; [by rw E1|]. apply interrupted_cons; [done|done|]. by rw E1 in H.
Qed.

Lemma handle_append_entries_failed args now draw c σ r c' σ' :
  log_wf c → consecutive (ae_prev_log_index args) (ae_entries args) →
  0 ≤ ae_prev_log_index args → ae_prev_log_index args + zlen (ae_entries args) < u64_max →
  handle_append_entries args now draw (c, σ) = (r, (c', σ')) → failed r →
  let t := current_term (rc_hard c) in
  (t < ae_term args ∧ c' = set_hard (MkHardState (ae_term args) None) c)
  ∨ (t ≤ ae_term args ∧ ∃ es',
       essence c' = essence (set_entries es'
         (set_role Follower (set_hard (hard_at (ae_term args) (rc_hard c)) c)))
       ∧ (es' = rc_entries c
          ∨ matching_conflict args c = None
            ∧ interrupted (ae_prev_log_index args) (ae_entries args) c es')).
Proof.
  intros Hw Hc Hp Hb. rw /handle_append_entries {1}/bind {1}/self /gets. cbn [fst]. cbn zeta.
  destruct (Z.ltb_spec (ae_term args) (current_term (rc_hard c))) as [Hlt|Hge].
  { rw /self /gets. by intros [= <- _ _]. }
  set (c0 := set_role Follower _). intros E Hr.
  destruct (bind_failed_inv _ _ _ _ _ E Hr) as [(r1 & E1 & Hf)|([] & [c1 σ1] & E1 & E2)].
  { left. destruct (current_term (rc_hard c) <? ae_term args); [by apply become_follower_failed in E1|].
    by injection E1 as <- _ _. }
  right. split; [done|]. have {}E1 : essence c1 = essence c0 by apply: adopt_essence E1.
  have Hkeep : ∀ c2, essence c2 = essence c0 → essence c2 = essence (set_entries (rc_entries c) c0).
  { by intros c2 ->. }
  destruct (bind_failed_inv _ _ _ _ _ E2 Hr) as [(r1 & E3 & _)|([] & [c2 σ2] & E3 & E4)];
    apply reset_timer_essence in E3; rw E1 in E3.
  { exists (rc_entries c). auto. }
  clear E E1 E2. cbn zeta in E4. case: (E3) => Ei Epe Ez Es Eh Ee Er Ek Ea En Em.
  move: E4. rw {1}/bind {1}/self /gets. cbn [fst].
  rw (matching_conflict_log args c c2) //. destruct (matching_conflict args c) as [hint|] eqn:Ec.
  { rw /self /gets. by intros [= <- _ _]. }
  intros E. apply matching_conflict_prev in Ec as Hprev. have Hw2 : log_wf c2 by eapply log_wf_same.
  have Hp2 : 0 ≤ ae_prev_log_index args ≤ last_log_index c2.
  { rw last_log_index_wf // Es Ee. rw last_log_index_wf // in Hprev. }
  have Hint : ∀ es', interrupted (ae_prev_log_index args) (ae_entries args) c2 es' →
    interrupted (ae_prev_log_index args) (ae_entries args) c es'.
  { intros es'. rw /interrupted /grafted Es Ee. done. }
  have Hes : ∀ l es', essence (set_log l (set_entries es' c2)) = essence (set_entries es' c0).
  { intros. rw /essence /=. by rw Ei Epe Ez Es Eh Er Ek Ea En Em. }
  destruct (bind_failed_inv _ _ _ _ _ E Hr) as [(r1 & E5 & Hf)|([] & [c3 σ3] & E5 & E6)].
  { apply (splice_failed _ _ _ _ _ _ (ae_prev_log_index args)) in E5 as (l & es' & -> & Hi) => //.
    exists es'. auto. }
  apply (splice_ok _ _ _ _ _ (ae_prev_log_index args)) in E5 as [l ->] => //.
  set (es' := grafted _ _ c2) in E6 |- *.
  have Hi : interrupted (ae_prev_log_index args) (ae_entries args) c es'.
  { apply Hint. exists (length (ae_entries args)). left. by rw firstn_all. }
  destruct (bind_failed_inv _ _ _ _ _ E6 Hr) as [(r1 & [l4 ->]%core_sync_failed & Hf)|([] & [c4 σ4] & E7 & E8)].
  - exists es'. split; [apply Hes|auto].
  - move: E8. rw {1}/bind /update /modify /self /gets. by intros [= <- _ _].
Qed.

End faults.
