(* ===== verification/Protocol.v ===== *)
(** * Protocol: what the nodes of a cluster do together, and why it is safe.

    The abstract specification of the consensus the code implements: terms, logs, votes and
    acknowledgements of all nodes, with the history the argument needs (the log of every
    leader, who voted and acknowledged what).  A node acknowledges a prefix of the log of
    the leader of its term; an entry of a leader's own term that a quorum has acknowledged is
    committed.  The file shows that every later leader has the committed prefix, and that
    nodes agree on what is committed.  File Simulation shows that the sections of the code
    do nothing else. *)

From Corelib Require Import ssreflect.
From stdpp Require Import base list functions relations.
From S2P Require Import Prelude MemTable RaftState.

(** Any two quorums share a node. *)
Class Quorums := {
  is_quorum : list Z → Prop;
  quorum_meet q1 q2 : is_quorum q1 → is_quorum q2 → ∃ n, n ∈ q1 ∧ n ∈ q2
}.

(** Terms and logs as the handlers compare them. *)
Definition final_term (l : list LogEntry) : Z := from_option e_term 0 (last l).
Definition at_least_as_new (c l : list LogEntry) : Prop :=
  final_term l < final_term c ∨ (final_term l = final_term c ∧ (length l ≤ length c)%nat).

(** ** The state: what nodes have, and what has happened *)
Record proto := MkProto {
  p_term : Z → Z;
  p_log : Z → list LogEntry;
  p_commit : Z → nat;
  p_votes : list (Z * Z * Z);                  (* voter, term, candidate *)
  p_cands : Z → Z → option (list LogEntry);    (* the log a candidate campaigned with *)
  p_elected : Z → option (Z * list Z);         (* the leader of a term and its voters *)
  p_elog : Z → list LogEntry;                  (* the log it was elected with *)
  p_tlog : Z → list LogEntry;                  (* its log so far *)
  p_acks : list (Z * Z * nat);                 (* node, term, length of the acknowledged prefix *)
  p_committed : list (Z * nat)                 (* term, length *)
}.

Section protocol.
Context {quorums : Quorums}.
Implicit Types (s : proto) (l : list LogEntry).

(** A node takes the first [m] entries of its leader's log. *)
Definition accept (m : nat) (t l : list LogEntry) : list LogEntry :=
  if decide (take m t `prefix_of` l) then l else take m t.

Inductive proto_step : proto → proto → Prop :=
| st_term s n t :
    p_term s n ≤ t →
    proto_step s (MkProto (<[n := t]> (p_term s)) (p_log s) (p_commit s) (p_votes s) (p_cands s)
                    (p_elected s) (p_elog s) (p_tlog s) (p_acks s) (p_committed s))
| st_candidate s n t :
    t = p_term s n + 1 →
    proto_step s (MkProto (<[n := t]> (p_term s)) (p_log s) (p_commit s) ((n, t, n) :: p_votes s)
                    (<[t := <[n := Some (p_log s n)]> (p_cands s t)]> (p_cands s))
                    (p_elected s) (p_elog s) (p_tlog s) (p_acks s) (p_committed s))
| st_vote s v t x c :
    p_term s v = t → p_cands s t x = Some c → at_least_as_new c (p_log s v) →
    (∀ y, (v, t, y) ∈ p_votes s → y = x) →
    proto_step s (MkProto (p_term s) (p_log s) (p_commit s) ((v, t, x) :: p_votes s) (p_cands s)
                    (p_elected s) (p_elog s) (p_tlog s) (p_acks s) (p_committed s))
| st_win s x t q :
    p_term s x = t → p_cands s t x = Some (p_log s x) → p_elected s t = None → is_quorum q →
    (∀ v, v ∈ q → (v, t, x) ∈ p_votes s) →
    proto_step s (MkProto (p_term s) (p_log s) (p_commit s) (p_votes s) (p_cands s)
                    (<[t := Some (x, q)]> (p_elected s)) (<[t := p_log s x]> (p_elog s))
                    (<[t := p_log s x]> (p_tlog s))
                    ((x, t, length (p_log s x)) :: p_acks s) (p_committed s))
| st_append s x t q e l :
    p_term s x = t → p_elected s t = Some (x, q) → e_term e = t → l = p_log s x ++ [e] →
    proto_step s (MkProto (p_term s) (<[x := l]> (p_log s)) (p_commit s) (p_votes s) (p_cands s)
                    (p_elected s) (p_elog s) (<[t := l]> (p_tlog s))
                    ((x, t, length l) :: p_acks s) (p_committed s))
| st_accept s n t m :
    p_term s n = t → is_Some (p_elected s t) → (m ≤ length (p_tlog s t))%nat →
    proto_step s (MkProto (p_term s) (<[n := accept m (p_tlog s t) (p_log s n)]> (p_log s))
                    (p_commit s) (p_votes s) (p_cands s) (p_elected s) (p_elog s) (p_tlog s)
                    ((n, t, m) :: p_acks s) (p_committed s))
| st_cut s n t m :
    p_term s n = t → is_Some (p_elected s t) →
    (∀ p, p `prefix_of` p_tlog s t → p `prefix_of` p_log s n → p `prefix_of` take m (p_tlog s t)) →
    proto_step s (MkProto (p_term s) (<[n := take m (p_tlog s t)]> (p_log s))
                    (p_commit s) (p_votes s) (p_cands s) (p_elected s) (p_elog s) (p_tlog s)
                    (p_acks s) (p_committed s))
| st_commit s t k q e :
    is_quorum q → (∀ v, v ∈ q → ∃ j, (k < j)%nat ∧ (v, t, j) ∈ p_acks s) →
    p_tlog s t !! k = Some e → e_term e = t →
    proto_step s (MkProto (p_term s) (p_log s) (p_commit s) (p_votes s) (p_cands s) (p_elected s)
                    (p_elog s) (p_tlog s) (p_acks s) ((t, S k) :: p_committed s))
| st_learn s n t m k :
    (t, m) ∈ p_committed s → (k ≤ m)%nat → t ≤ p_term s n →
    take k (p_tlog s t) `prefix_of` p_log s n →
    proto_step s (MkProto (p_term s) (p_log s) (<[n := k]> (p_commit s)) (p_votes s) (p_cands s)
                    (p_elected s) (p_elog s) (p_tlog s) (p_acks s) (p_committed s))
| st_forget s n k :
    (k ≤ p_commit s n)%nat →
    proto_step s (MkProto (p_term s) (p_log s) (<[n := k]> (p_commit s)) (p_votes s) (p_cands s)
                    (p_elected s) (p_elog s) (p_tlog s) (p_acks s) (p_committed s)).

(** Everyone at term 0 with an empty log. *)
Definition proto_init : proto :=
  MkProto (λ _, 0) (λ _, []) (λ _, 0%nat) [] (λ _ _, None) (λ _, None) (λ _, []) (λ _, []) [] [].

(** ** Log matching *)

(** Every entry of the log comes with everything before it from the leader of its term. *)
Definition matching s l : Prop :=
  ∀ i e, l !! i = Some e →
    is_Some (p_elected s (e_term e)) ∧ take (S i) l `prefix_of` p_tlog s (e_term e).

(** The leader of [t'] was elected without the first [i] entries of the leader of [t]. *)
Definition overridden s (t : Z) (i : nat) (t' : Z) : Prop :=
  is_Some (p_elected s t') ∧ ¬ take i (p_tlog s t) `prefix_of` p_elog s t'.

(** The log [l] still has them, or such a leader came between. *)
Definition kept s (t : Z) (i : nat) l (bound : Z) : Prop :=
  take i (p_tlog s t) `prefix_of` l ∨ ∃ t', t < t' ≤ bound ∧ overridden s t i t'.

(** A log against which the candidate's was compared. *)
Definition voted_with s (v t' bound : Z) (c : list LogEntry) : Prop :=
  ∃ l, matching s l ∧ at_least_as_new c l
    ∧ ∀ t j i, (v, t, j) ∈ p_acks s → t < t' → (i ≤ j)%nat → kept s t i l bound.

Record proto_inv s : Prop := {
  pi_term n : 0 ≤ p_term s n;
  pi_cands t x c :
    p_cands s t x = Some c → matching s c ∧ (∀ e, e ∈ c → e_term e < t) ∧ t ≤ p_term s x ∧ 0 < t;
  pi_votes v t x : (v, t, x) ∈ p_votes s → t ≤ p_term s v ∧ is_Some (p_cands s t x);
  pi_vote_unique v t x y : (v, t, x) ∈ p_votes s → (v, t, y) ∈ p_votes s → x = y;
  pi_vote_log v t x c :
    (v, t, x) ∈ p_votes s → p_cands s t x = Some c → voted_with s v t t c;
  pi_elected t x q :
    p_elected s t = Some (x, q) →
    is_quorum q ∧ p_cands s t x = Some (p_elog s t) ∧ p_elog s t `prefix_of` p_tlog s t
    ∧ (∀ k e, p_tlog s t !! k = Some e → (length (p_elog s t) ≤ k)%nat → e_term e = t)
    ∧ ∀ v, v ∈ q → (v, t, x) ∈ p_votes s ∧ voted_with s v t (t - 1) (p_elog s t);
  pi_unelected t : p_elected s t = None → p_tlog s t = [];
  pi_log n : matching s (p_log s n) ∧ ∀ e, e ∈ p_log s n → e_term e ≤ p_term s n;
  pi_tlog t : matching s (p_tlog s t);
  pi_leader t x q : p_elected s t = Some (x, q) → p_term s x = t → p_log s x = p_tlog s t;
  pi_acks v t j :
    (v, t, j) ∈ p_acks s →
    t ≤ p_term s v ∧ is_Some (p_elected s t) ∧ (j ≤ length (p_tlog s t))%nat
    ∧ ∀ i, (i ≤ j)%nat → kept s t i (p_log s v) (p_term s v);
  pi_committed t m :
    (t, m) ∈ p_committed s →
    ∃ k e q, m = S k ∧ p_tlog s t !! k = Some e ∧ e_term e = t ∧ is_quorum q
      ∧ ∀ v, v ∈ q → ∃ j, (m ≤ j)%nat ∧ (v, t, j) ∈ p_acks s;
  pi_commit n :
    (0 < p_commit s n)%nat →
    ∃ t m, (t, m) ∈ p_committed s ∧ (p_commit s n ≤ m)%nat ∧ t ≤ p_term s n
      ∧ take (p_commit s n) (p_tlog s t) `prefix_of` p_log s n
}.

(** ** Prefixes *)

Lemma prefix_comparable l1 l2 l : l1 `prefix_of` l → l2 `prefix_of` l →
  l1 `prefix_of` l2 ∨ l2 `prefix_of` l1.
Proof. apply prefix_weak_total. Qed.

Lemma take_prefix_of i l l' : l `prefix_of` l' → (i ≤ length l)%nat → take i l' = take i l.
Proof. move=> [x ->] ?. by rw take_app_le. Qed.

Lemma take_of_prefix i l : take i l `prefix_of` l.
Proof. apply prefix_take. Qed.

Lemma take_shorter i j l : (i ≤ j)%nat → take i l `prefix_of` take j l.
Proof. move=> ?. have -> : take i l = take i (take j l) by rw take_take Nat.min_l. apply take_of_prefix. Qed.

Lemma prefix_shorter l1 l2 l : l1 `prefix_of` l → l2 `prefix_of` l →
  (length l1 ≤ length l2)%nat → l1 `prefix_of` l2.
Proof.
  move=> H1 H2 ?. case: (prefix_comparable _ _ _ H1 H2) => // H.
  by rw (prefix_length_eq _ _ H).
Qed.

Lemma lookup_of_prefix l l' i e : l `prefix_of` l' → l !! i = Some e → l' !! i = Some e.
Proof. move=> ??. by eapply prefix_lookup_Some. Qed.

Lemma take_lookup_prefix l l' i j e : take i l `prefix_of` l' → l !! j = Some e → (j < i)%nat →
  l' !! j = Some e.
Proof. move=> H Hj ?. apply: (lookup_of_prefix _ _ _ _ H). by rw lookup_take_lt. Qed.

(** A log cut by [accept] keeps what is comparable with its leader's log. *)
Lemma accept_has m t l : take m t `prefix_of` accept m t l.
Proof. rw /accept. by case_decide. Qed.

Lemma accept_keeps_common m t l p : p `prefix_of` t → p `prefix_of` l → p `prefix_of` accept m t l.
Proof.
  rw /accept => Ht Hl. case_decide as H => //.
  case: (prefix_comparable p (take m t) t) => //; first apply take_of_prefix.
  move=> H'. case: H. by trans p.
Qed.

Lemma accept_own m t : accept m t t = t.
Proof. rw /accept decide_True //. apply take_of_prefix. Qed.

(** ** What never changes *)
Record grows s s' : Prop := {
  g_term n : p_term s n ≤ p_term s' n;
  g_votes v t x : (v, t, x) ∈ p_votes s → (v, t, x) ∈ p_votes s';
  g_cands t x c : p_cands s t x = Some c → p_cands s' t x = Some c;
  g_elected t x : p_elected s t = Some x → p_elected s' t = Some x;
  g_elog t : is_Some (p_elected s t) → p_elog s' t = p_elog s t;
  g_tlog t : p_tlog s t `prefix_of` p_tlog s' t;
  g_acks v t j : (v, t, j) ∈ p_acks s → (v, t, j) ∈ p_acks s';
  g_committed t m : (t, m) ∈ p_committed s → (t, m) ∈ p_committed s'
}.

Lemma g_elected_some s s' t : grows s s' → is_Some (p_elected s t) → is_Some (p_elected s' t).
Proof. move=> G [x /(g_elected _ _ G) ?]. by eexists. Qed.

Lemma grows_take s s' t i : grows s s' → (i ≤ length (p_tlog s t))%nat →
  take i (p_tlog s' t) = take i (p_tlog s t).
Proof. move=> G ?. apply take_prefix_of => //. by apply g_tlog. Qed.

Lemma matching_grows s s' l : grows s s' → matching s l → matching s' l.
Proof.
  move=> G M i e /M [? ?]. split; first by eapply g_elected_some.
  trans (p_tlog s (e_term e)) => //. by apply g_tlog.
Qed.

Lemma matching_prefix s l l' : l' `prefix_of` l → matching s l → matching s l'.
Proof.
  move=> P M i e H. have [? K] := M i e (lookup_of_prefix _ _ _ _ P H). split => //.
  rw (take_prefix_of _ _ _ P) // in K. apply lookup_lt_Some in H. lia.
Qed.

(** Entries of one index and term come with the same entries before them. *)
Lemma matching_same s l1 l2 i e1 e2 : matching s l1 → matching s l2 →
  l1 !! i = Some e1 → l2 !! i = Some e2 → e_term e1 = e_term e2 → take (S i) l1 = take (S i) l2.
Proof.
  move=> M1 M2 H1 H2 Ht. have [_ P1] := M1 _ _ H1. have [_ P2] := M2 _ _ H2. rw -Ht in P2.
  apply lookup_lt_Some in H1, H2. apply: prefix_length_eq; last by rw !length_take; lia.
  apply: (prefix_shorter _ _ _ P1 P2). rw !length_take. lia.
Qed.

Lemma kept_grows s s' t i l b b' : grows s s' → (i ≤ length (p_tlog s t))%nat → b ≤ b' →
  kept s t i l b → kept s' t i l b'.
Proof.
  move=> G Hi Hb. rw /kept /overridden (grows_take _ _ _ _ G Hi).
  case=> [?|[t' [? [E N]]]]; first by left. right. exists t'. split; first lia.
  split; first by eapply g_elected_some. by rw (g_elog _ _ G).
Qed.

Lemma kept_longer s t i l l' b : l `prefix_of` l' → kept s t i l b → kept s t i l' b.
Proof. move=> ?. case=> [?|?]; [left; by trans l | by right]. Qed.

(** ** Leader completeness *)
Section invariant.
Context s (I : proto_inv s).

Lemma elected_positive t : is_Some (p_elected s t) → 0 < t.
Proof.
  move=> [[x q] H]. have [_ [C _]] := pi_elected _ I _ _ _ H.
  by have [_ [_ [_ ?]]] := pi_cands _ I _ _ _ C.
Qed.

Lemma elog_matching t : is_Some (p_elected s t) →
  matching s (p_elog s t) ∧ (∀ e, e ∈ p_elog s t → e_term e < t)
  ∧ p_elog s t `prefix_of` p_tlog s t.
Proof.
  move=> [[x q] H]. have [_ [C [P _]]] := pi_elected _ I _ _ _ H.
  by have [? [? _]] := pi_cands _ I _ _ _ C.
Qed.

(** The entries of a leader's log: older ones it was elected with, then its own. *)
Lemma tlog_terms t k e : is_Some (p_elected s t) → p_tlog s t !! k = Some e →
  ((k < length (p_elog s t))%nat ∧ e_term e < t)
  ∨ ((length (p_elog s t) ≤ k)%nat ∧ e_term e = t).
Proof.
  move=> E H. have [_ [T P]] := elog_matching t E.
  case: (decide (k < length (p_elog s t))%nat) => Hk.
  - left. split => //. apply T.
    have [e' He'] := lookup_lt_is_Some_2 _ _ Hk.
    move: (lookup_of_prefix _ _ _ _ P He'). rw H => -[->]. by eapply list_elem_of_lookup_2.
  - right. split; first lia. case: E => -[x q] E. have [_ [_ [_ [O _]]]] := pi_elected _ I _ _ _ E.
    apply: (O k) => //. lia.
Qed.

Lemma tlog_elected t k e : p_tlog s t !! k = Some e → is_Some (p_elected s t).
Proof.
  move=> H. case E: (p_elected s t) => [//|]. by rw (pi_unelected _ I _ E) in H.
Qed.

(** A log that matches comes from the leader of its last entry's term. *)
Lemma matching_final l k e : matching s l → l !! k = Some e →
  is_Some (p_elected s (final_term l)) ∧ l `prefix_of` p_tlog s (final_term l)
  ∧ p_elog s (final_term l) `prefix_of` l ∧ e_term e ≤ final_term l.
Proof.
  move=> M Hk. have Hlen := lookup_lt_Some _ _ _ Hk.
  have [el Hl] : is_Some (l !! pred (length l)) by apply lookup_lt_is_Some; lia.
  have Hf : final_term l = e_term el by rw /final_term last_lookup Hl.
  have [E P] := M _ _ Hl. rw Nat.succ_pred_pos in P; [lia|]. rw firstn_all -Hf in P. rw -Hf in E.
  split => //. split => //. have [_ [_ P']] := elog_matching _ E. split.
  - case: (tlog_terms _ _ _ E (lookup_of_prefix _ _ _ _ P Hl)) => -[? ?]; first lia.
    apply: (prefix_shorter _ _ _ P' P). lia.
  - case: (tlog_terms _ _ _ E (lookup_of_prefix _ _ _ _ P Hk)) => -[? ?]; lia.
Qed.

(** What a candidate has in common with a voter's log: everything that the leaders of the
    terms between had when they were elected. *)
Lemma newer_log_has t t' p l c k e :
  matching s l → matching s c → (∀ e, e ∈ c → e_term e < t') → at_least_as_new c l →
  (∀ u, t < u < t' → is_Some (p_elected s u) → p `prefix_of` p_elog s u) →
  p `prefix_of` l → p !! k = Some e → e_term e = t →
  p `prefix_of` c.
Proof.
  move=> Ml Mc Tc N IH P Hk He.
  have [El [Pl [_ Hle]]] := matching_final _ _ _ Ml (lookup_of_prefix _ _ _ _ P Hk).
  have Hpos := elected_positive _ El.
  have [ec Hc] : is_Some (last c).
  { case E: (last c) => [//|]. move: N. rw /at_least_as_new {2 4}/final_term E /=. lia. }
  have Hc' := Hc. rw last_lookup in Hc'.
  have [Ec [Pc [Qc _]]] := matching_final _ _ _ Mc Hc'.
  have Hfc : final_term c < t'.
  { rw {1}/final_term Hc /=. apply Tc. by eapply list_elem_of_lookup_2. }
  case: N => [N|[N ?]].
  - trans (p_elog s (final_term c)) => //. apply IH => //. lia.
  - trans l => //. rw -N in Pc. by apply: prefix_shorter Pl Pc _.
Qed.

(** Entry [k] of the leader of [t] is its own and a quorum has acknowledged it. *)
Definition chosen (t : Z) (k : nat) : Prop :=
  ∃ e q, p_tlog s t !! k = Some e ∧ e_term e = t ∧ is_quorum q
    ∧ ∀ v, v ∈ q → ∃ j, (k < j)%nat ∧ (v, t, j) ∈ p_acks s.

Lemma leader_has t k t' : chosen t k → t < t' → is_Some (p_elected s t') →
  take (S k) (p_tlog s t) `prefix_of` p_elog s t'.
Proof.
  move=> [e [q [Hk [He [Q A]]]]].
  induction t' as [t' IH] using (well_founded_induction (Z.lt_wf t)) => Ht [[x q'] E].
  have [Q' [C [_ [_ V]]]] := pi_elected _ I _ _ _ E.
  have [Mc [Tc _]] := pi_cands _ I _ _ _ C.
  have [v [Hv Hv']] := quorum_meet _ _ Q Q'.
  have [j [Hj Aj]] := A _ Hv. have [_ [l [Ml [N K]]]] := V _ Hv'.
  have {}IH : ∀ u, t < u < t' → is_Some (p_elected s u) →
    take (S k) (p_tlog s t) `prefix_of` p_elog s u.
  { move=> u Hu Eu. apply IH => //; lia. }
  have {K} [P|[u [Hu [Eu Nu]]]] := K _ _ (S k) Aj Ht ltac:(lia); last first.
  { case: Nu. apply IH => //. lia. }
  apply: (newer_log_has t t' _ l _ k e) => //. by rw lookup_take_lt; [lia|].
Qed.

Lemma committed_chosen t m : (t, m) ∈ p_committed s → ∃ k, m = S k ∧ chosen t k.
Proof.
  move=> /(pi_committed _ I) [k [e [q [-> [? [? [? A]]]]]]]. exists k. split => //.
  by exists e, q.
Qed.

(** So committed prefixes lie on one line. *)
Lemma committed_line t m t' : (t, m) ∈ p_committed s → t ≤ t' → is_Some (p_elected s t') →
  take m (p_tlog s t) `prefix_of` p_tlog s t'.
Proof.
  move=> /committed_chosen [k [-> C]] Ht E. case: (decide (t = t')) => [->|?].
  { apply take_of_prefix. }
  trans (p_elog s t'); first by (apply leader_has => //; lia).
  by have [_ [_ ?]] := elog_matching _ E.
Qed.

(** A quorum still has what is committed. *)
Lemma committed_held t m : (t, m) ∈ p_committed s →
  ∃ q, is_quorum q ∧ ∀ v, v ∈ q → take m (p_tlog s t) `prefix_of` p_log s v.
Proof.
  move=> C. have [k [Em Ch]] := committed_chosen _ _ C. have [_ [_ [q [_ [_ [_ [Q A]]]]]]] := pi_committed _ I _ _ C.
  exists q. split => // v /A [j [Hj /(pi_acks _ I) [_ [_ [_ K]]]]].
  case: (K m Hj) => [//|[t' [Ht [E N]]]]. case: N. rw Em. apply leader_has => //. lia.
Qed.

Lemma committed_elected t m : (t, m) ∈ p_committed s →
  is_Some (p_elected s t) ∧ (m ≤ length (p_tlog s t))%nat.
Proof.
  move=> /committed_chosen [k [-> [e [q [H _]]]]]. split; first by eapply tlog_elected.
  by apply lookup_lt_Some in H.
Qed.

Lemma commit_within n : (p_commit s n ≤ length (p_log s n))%nat.
Proof.
  case: (decide (p_commit s n = 0)%nat) => [->|?]; first lia.
  have [t [m [C [? [_ P]]]]] := pi_commit _ I n ltac:(lia). have [_ ?] := committed_elected _ _ C.
  apply prefix_length in P. rw length_take in P. lia.
Qed.

End invariant.

(** ** Every step keeps the invariant *)

#[local] Ltac fns := rw /insert /fn_insert /=; repeat case_decide; simplify_eq/=.

Lemma step_grows s s' : proto_inv s → proto_step s s' → grows s s'.
Proof.
  move=> I St. destruct St; split => /=; try by (intros; rw ?elem_of_cons; auto).
  all: move=> *; fns; try done.
  - lia.
  - match goal with H : p_cands s _ _ = _ |- _ => move: (pi_cands _ I _ _ _ H) => [_ [_ [? _]]] end.
    lia.
  - match goal with H : is_Some _, H' : _ = None |- _ => rw H' in H; by case: H end.
  - rw (pi_unelected _ I) //. apply prefix_nil.
  - rw -(pi_leader _ I _ _ _ H0) //. by apply prefix_app_r.
Qed.

Section step.
Context s s' (I : proto_inv s) (St : proto_step s s').

Lemma voted_with_grows v t b b' c :
  voted_with s v t b c → b ≤ b' → t ≤ p_term s v → voted_with s' v t b' c.
Proof.
  have G := step_grows _ _ I St.
  move=> [l [M [N K]]] Hb Ht. exists l. split; first by eapply matching_grows.
  split => // u j i A Hu Hi.
  have {}A : (v, u, j) ∈ p_acks s.
  { destruct St; move: A => /=; rw ?elem_of_cons => A; try done; case: A => // -[???]; subst; lia. }
  have [_ [_ [? _]]] := pi_acks _ I _ _ _ A.
  apply: (kept_grows _ _ _ _ _ _ _ G _ Hb); [lia | by eapply K].
Qed.

Lemma step_cands t x c : p_cands s' t x = Some c →
  matching s' c ∧ (∀ e, e ∈ c → e_term e < t) ∧ t ≤ p_term s' x ∧ 0 < t.
Proof.
  have G := step_grows _ _ I St. move=> H.
  have [Hc|Hc] : p_cands s t x = Some c ∨
    (c = p_log s x ∧ t = p_term s x + 1 ∧ t ≤ p_term s' x).
  { destruct St; move: H => /=; try by left. fns; auto. move=> [->]. right. by fns. }
  - have [M [T [? ?]]] := pi_cands _ I _ _ _ Hc. have ? := g_term _ _ G x.
    split_and! => //; [by eapply matching_grows | lia].
  - move: Hc => [-> [-> ?]]. have [M T] := pi_log _ I x. have ? := pi_term _ I x.
    split_and! => //; [by eapply matching_grows | move=> e /T; lia | lia].
Qed.

(** A vote is old, or it is the one the node now gives for its term. *)
Lemma step_vote v t x : (v, t, x) ∈ p_votes s' →
  (v, t, x) ∈ p_votes s ∨
  (∃ c, p_cands s' t x = Some c ∧ at_least_as_new c (p_log s v)) ∧ p_term s v ≤ t
    ∧ t = p_term s' v ∧ ∀ y, (v, t, y) ∈ p_votes s → x = y.
Proof.
  destruct St => /=; rw ?elem_of_cons; try by left.
  - case; last by left. move=> -[-> -> ->]. right. fns. split_and!; [|lia|done|].
    + exists (p_log s n). split => //. right. split => //.
    + move=> y V. have [? _] := pi_votes _ I _ _ _ V. lia.
  - case; last by left. move=> -[-> -> ->]. right. split_and! => //; [by exists c | lia |].
    move=> y /H2. done.
Qed.

(** An election is old, or it is just won. *)
Lemma step_win t x q : p_elected s' t = Some (x, q) →
  p_elected s t = Some (x, q) ∨
  p_elected s t = None ∧ t = p_term s x ∧ p_cands s' t x = Some (p_log s x) ∧ is_quorum q
    ∧ (∀ v, v ∈ q → (v, t, x) ∈ p_votes s) ∧ p_elog s' t = p_log s x ∧ p_tlog s' t = p_log s x.
Proof.
  destruct St => /=; try by left. fns; last by left. move=> [<- <-]. right. split_and! => //; by fns.
Qed.

(** A leader's log stays, gets an entry of its term, or starts with the election. *)
Lemma step_tlog t :
  p_tlog s' t = p_tlog s t
  ∨ (∃ x q e, p_elected s t = Some (x, q) ∧ t = p_term s x ∧ e_term e = t
       ∧ p_tlog s' t = p_tlog s t ++ [e])
  ∨ (∃ x q, p_elected s t = None ∧ p_elected s' t = Some (x, q) ∧ p_tlog s' t = p_log s x).
Proof.
  destruct St => /=; try by left.
  - fns; last by left. right; right. exists x, q. by fns.
  - fns; last by left. right; left. exists x, q, e. by rw (pi_leader _ I _ _ _ H0).
Qed.

(** A node's log stays, gets an entry of its own term at the leader, or takes a prefix of
    its leader's that has all they had in common. *)
Lemma step_log n :
  p_log s' n = p_log s n
  ∨ (∃ q e, p_elected s (p_term s n) = Some (n, q) ∧ e_term e = p_term s n
       ∧ p_log s' n = p_log s n ++ [e] ∧ p_tlog s' (p_term s n) = p_log s' n)
  ∨ (is_Some (p_elected s (p_term s n)) ∧ p_tlog s' = p_tlog s
     ∧ p_log s' n `prefix_of` p_tlog s (p_term s n)
     ∧ ∀ p, p `prefix_of` p_tlog s (p_term s n) → p `prefix_of` p_log s n → p `prefix_of` p_log s' n).
Proof.
  destruct St => /=; try by left.
  - fns; try by left. right; left. exists q, e. by fns.
  - fns; last by left. case: (decide (take m (p_tlog s (p_term s n)) `prefix_of` p_log s n)) => P.
    + left. by rw /accept decide_True.
    + right; right. split_and! => //; last by move=> *; apply accept_keeps_common.
      rw /accept decide_False //. apply take_of_prefix.
  - fns; last by left. right; right. split_and! => //. apply take_of_prefix.
Qed.

Lemma step_unelected t : p_elected s' t = None → p_tlog s' t = [].
Proof.
  have G := step_grows _ _ I St. move=> E.
  have E' : p_elected s t = None.
  { case E': (p_elected s t) => //. by rw (g_elected _ _ G _ _ E') in E. }
  case: (step_tlog t) => [->|[|]]; first by apply pi_unelected.
  - move=> [? [? [? [H _]]]]. by rw H in E'.
  - move=> [? [? [_ [H _]]]]. by rw H in E.
Qed.

Lemma matching_snoc l e : matching s' l → is_Some (p_elected s' (e_term e)) →
  l ++ [e] `prefix_of` p_tlog s' (e_term e) → matching s' (l ++ [e]).
Proof.
  move=> M E P i e' H. case: (decide (i < length l)%nat) => Hi.
  - rw lookup_app_l // in H. have [? ?] := M _ _ H. rw take_app_le //; lia.
  - have Hlen := lookup_lt_Some _ _ _ H. rw length_app /= in Hlen.
    have -> : S i = length (l ++ [e]) by rw length_app /=; lia.
    have ? : i = length l by lia. subst. rw list_lookup_middle // in H. case: H => <-.
    by rw firstn_all.
Qed.

Lemma step_tlog_matching t : matching s' (p_tlog s' t).
Proof.
  have G := step_grows _ _ I St.
  case: (step_tlog t) => [->|[|]].
  - eapply matching_grows => //. by apply pi_tlog.
  - move=> [x [q [e [E [_ [Ht H]]]]]]. rw H. apply matching_snoc.
    + eapply matching_grows => //. by apply pi_tlog.
    + rw Ht. by eexists; apply: g_elected G _ _ E.
    + by rw Ht H.
  - move=> [x [q [_ [_ ->]]]]. eapply matching_grows => //. by apply pi_log.
Qed.

Lemma step_log_matching n :
  matching s' (p_log s' n) ∧ ∀ e, e ∈ p_log s' n → e_term e ≤ p_term s' n.
Proof.
  have G := step_grows _ _ I St. have ? := g_term _ _ G n. have [M T] := pi_log _ I n.
  case: (step_log n) => [->|[|]].
  - split; [by eapply matching_grows | move=> e /T; lia].
  - move=> [q [e [E [Ht [H H']]]]]. split.
    + rw -H'. apply step_tlog_matching.
    + rw H => e'. rw elem_of_app list_elem_of_singleton => -[/T ?|->]; lia.
  - move=> [E [Et [P _]]]. split.
    + apply: (matching_prefix _ (p_tlog s' (p_term s n))); [by rw Et | apply step_tlog_matching].
    + move=> e He. apply list_elem_of_lookup in He as [k Hk].
      case: (tlog_terms _ I _ _ _ E (lookup_of_prefix _ _ _ _ P Hk)) => -[? ?]; lia.
Qed.

Lemma step_elected t x q : p_elected s' t = Some (x, q) →
  is_quorum q ∧ p_cands s' t x = Some (p_elog s' t) ∧ p_elog s' t `prefix_of` p_tlog s' t
  ∧ (∀ k e, p_tlog s' t !! k = Some e → (length (p_elog s' t) ≤ k)%nat → e_term e = t)
  ∧ ∀ v, v ∈ q → (v, t, x) ∈ p_votes s' ∧ voted_with s' v t (t - 1) (p_elog s' t).
Proof.
  have G := step_grows _ _ I St. case/step_win => [E|[E [Ht [C [Q [V [-> ->]]]]]]].
  - have [Q [C [P [O V]]]] := pi_elected _ I _ _ _ E.
    rw (g_elog _ _ G); first by eexists. split_and! => //.
    + by apply: g_cands G _ _ _ C.
    + trans (p_tlog s t) => //. by apply g_tlog.
    + move=> k e. case: (step_tlog t) => [->|[|]]; first by apply O.
      * move=> [x' [q' [e' [_ [_ [He ->]]]]]]. rw lookup_app_Some => -[H|[_ H]] Hk; first by eapply O.
        apply list_elem_of_lookup_2 in H. by rw list_elem_of_singleton in H; subst.
      * move=> [x' [q' [E' _]]]. by rw E in E'.
    + move=> v /V [Hv W]. have [? _] := pi_votes _ I _ _ _ Hv.
      split; [by apply: g_votes | by eapply voted_with_grows].
  - split_and! => //.
    + move=> k e Hk. apply lookup_lt_Some in Hk. lia.
    + move=> v /V Hv. have [? [c Hc]] := pi_votes _ I _ _ _ Hv. split; first by apply: g_votes.
      have := pi_vote_log _ I _ _ _ _ Hv Hc. rw (g_cands _ _ G _ _ _ Hc) in C. case: C => -> W.
      apply: (voted_with_grows _ _ (t - 1)) => //.
      move: W => [l [M [N K]]]. exists l. split_and! => // u j i A Hu Hi.
      case: (K u j i A Hu Hi) => [?|[w [Hw [[y Ew] Nw]]]]; [by left | right].
      exists w. split; last by split; [eexists|]. have ? : w ≠ t by move=> ?; subst w; rw E in Ew. lia.
Qed.

Lemma step_leader t x q : p_elected s' t = Some (x, q) → p_term s' x = t →
  p_log s' x = p_tlog s' t.
Proof.
  have G := step_grows _ _ I St. move=> E' Ht.
  have {E'} [[E {}Ht]|Hnew] :
    (p_elected s t = Some (x, q) ∧ p_term s x = t) ∨ (p_log s' x = p_tlog s' t).
  { case: (step_win _ _ _ E') => [E|[E [? _]]].
    - left. split => //. have [_ [C _]] := pi_elected _ I _ _ _ E.
      have [_ [_ [? _]]] := pi_cands _ I _ _ _ C. have := g_term _ _ G x. lia.
    - right. destruct St; simpl in *; try congruence. move: E'. fns; try congruence. }
  - have L := pi_leader _ I _ _ _ E Ht. destruct St; simpl in *; fns; try congruence.
    + by rw L accept_own.
    + apply: (anti_symm prefix); [apply take_of_prefix|]. by apply: H1; rw ?L.
  - done.
Qed.

(** A prefix shared with the leader's log outlives what the leader sends. *)
Lemma step_log_keeps n p : p `prefix_of` p_log s n →
  (is_Some (p_elected s (p_term s n)) → p `prefix_of` p_tlog s (p_term s n)) →
  p `prefix_of` p_log s' n.
Proof.
  move=> P T. case: (step_log n) => [->//|[|]].
  - move=> [q [e [_ [_ [-> _]]]]]. by apply prefix_app_r.
  - move=> [E [_ [_ K]]]. by apply K; auto.
Qed.

Lemma step_kept v t i : t ≤ p_term s v → (i ≤ length (p_tlog s t))%nat →
  kept s t i (p_log s v) (p_term s v) → kept s' t i (p_log s' v) (p_term s' v).
Proof.
  have G := step_grows _ _ I St. move=> Ht Hi. have Hb := g_term _ _ G v.
  case=> [P|K]; last by apply: kept_grows => //; right.
  case: (decide (take i (p_tlog s t) `prefix_of` p_log s' v)) => [P'|N].
  { left. by rw (grows_take _ _ _ _ G Hi). }
  apply: (kept_grows s _ _ _ _ _ _ G Hi Hb). right. exists (p_term s v).
  have Hne : t ≠ p_term s v.
  { move=> Heq. case: N. apply: step_log_keeps => // _. rw Heq. apply take_of_prefix. }
  split; first lia. split.
  - case E: (p_elected s (p_term s v)) => [//|]. case: N. apply: step_log_keeps => //. rw E. by case.
  - move=> Pe. case: N. apply: step_log_keeps => // E. have [_ [_ ?]] := elog_matching _ I _ E.
    by trans (p_elog s (p_term s v)).
Qed.

(** An acknowledgement is old, or it is of the prefix the node now has. *)
Lemma step_ack v t j : (v, t, j) ∈ p_acks s' →
  (v, t, j) ∈ p_acks s ∨
  t = p_term s' v ∧ is_Some (p_elected s' t) ∧ (j ≤ length (p_tlog s' t))%nat
    ∧ take j (p_tlog s' t) `prefix_of` p_log s' v.
Proof.
  destruct St => /=; rw ?elem_of_cons; try by left.
  all: case; last by left.
  all: move=> -[-> -> ->]; right; fns; split_and! => //.
  - by rw firstn_all.
  - by rw firstn_all.
  - apply accept_has.
Qed.

Lemma step_acks v t j : (v, t, j) ∈ p_acks s' →
  t ≤ p_term s' v ∧ is_Some (p_elected s' t) ∧ (j ≤ length (p_tlog s' t))%nat
  ∧ ∀ i, (i ≤ j)%nat → kept s' t i (p_log s' v) (p_term s' v).
Proof.
  have G := step_grows _ _ I St. case/step_ack => [A|[-> [E [Hj P]]]].
  - have [? [E [? K]]] := pi_acks _ I _ _ _ A. have ? := g_term _ _ G v.
    have ? := prefix_length _ _ (g_tlog _ _ G t).
    split_and!; [lia | by eapply g_elected_some | lia |].
    move=> i Hi. apply step_kept; [lia | lia | by apply K].
  - split_and! => // i Hi. left. trans (take j (p_tlog s' (p_term s' v))) => //.
    apply take_shorter. lia.
Qed.

Lemma step_vote_log v t x c : (v, t, x) ∈ p_votes s' → p_cands s' t x = Some c →
  voted_with s' v t t c.
Proof.
  have G := step_grows _ _ I St. case/step_vote => [V|[[c' [C N]] [Ht [Ht' _]]]] C'.
  - have [? [c0 C0]] := pi_votes _ I _ _ _ V.
    have ? : c = c0. { rw (g_cands _ _ G _ _ _ C0) in C'. by case: C'. } subst c0.
    apply: (voted_with_grows _ _ t) => //. by apply: pi_vote_log.
  - rw C in C'. case: C' => ?; subst c'. have [M _] := pi_log _ I v.
    exists (p_log s v). split_and! => //; first by eapply matching_grows.
    move=> u j i A Hu Hi. case: (step_ack _ _ _ A) => [A'|[? _]]; last lia.
    have [? [_ [? K]]] := pi_acks _ I _ _ _ A'. apply: (kept_grows _ _ _ _ _ _ _ G _ Ht); [lia|].
    by apply K.
Qed.

Lemma step_votes v t x : (v, t, x) ∈ p_votes s' →
  t ≤ p_term s' v ∧ is_Some (p_cands s' t x).
Proof.
  have G := step_grows _ _ I St. case/step_vote => [V|[[c [C _]] [_ [Ht' _]]]].
  - have [? [c C]] := pi_votes _ I _ _ _ V. have ? := g_term _ _ G v. split; first lia.
    eexists. by apply: g_cands G _ _ _ C.
  - split; [lia | by eexists].
Qed.

Lemma step_vote_unique v t x y : (v, t, x) ∈ p_votes s' → (v, t, y) ∈ p_votes s' → x = y.
Proof.
  move=> V V'. case: (step_vote _ _ _ V) => [O|[_ [? [? U]]]];
    case: (step_vote _ _ _ V') => [O'|[_ [? [? U']]]].
  - by apply: pi_vote_unique I _ _ _ _ O O'.
  - symmetry. by apply U'.
  - by apply U.
  - destruct St; move: V V' => /=; rw ?elem_of_cons; try by apply: pi_vote_unique I _ _ _ _.
    all: move=> [Hx|O] [Hy|O']; [congruence | by apply U | symmetry; by apply U' | by apply U].
Qed.

Lemma step_committed t m : (t, m) ∈ p_committed s' →
  ∃ k e q, m = S k ∧ p_tlog s' t !! k = Some e ∧ e_term e = t ∧ is_quorum q
    ∧ ∀ v, v ∈ q → ∃ j, (m ≤ j)%nat ∧ (v, t, j) ∈ p_acks s'.
Proof.
  have G := step_grows _ _ I St.
  have old : (t, m) ∈ p_committed s → _ := pi_committed _ I t m.
  have mono : (∃ k e q, m = S k ∧ p_tlog s t !! k = Some e ∧ e_term e = t ∧ is_quorum q
    ∧ ∀ v, v ∈ q → ∃ j, (m ≤ j)%nat ∧ (v, t, j) ∈ p_acks s) →
    ∃ k e q, m = S k ∧ p_tlog s' t !! k = Some e ∧ e_term e = t ∧ is_quorum q
    ∧ ∀ v, v ∈ q → ∃ j, (m ≤ j)%nat ∧ (v, t, j) ∈ p_acks s'.
  { move=> [k [e [q [? [H [? [? A]]]]]]]. exists k, e, q. split_and! => //.
    - by apply: (lookup_of_prefix _ _ _ _ (g_tlog _ _ G t)).
    - move=> v /A [j [? ?]]. exists j. split => //. by apply: g_acks. }
  move=> H. apply mono. destruct St; simpl in *; auto.
  move: H. rw elem_of_cons => -[[-> ->]|]; last by auto. exists k, e, q. split_and! => //.
Qed.

Lemma step_commit n : (0 < p_commit s' n)%nat →
  ∃ t m, (t, m) ∈ p_committed s' ∧ (p_commit s' n ≤ m)%nat ∧ t ≤ p_term s' n
    ∧ take (p_commit s' n) (p_tlog s' t) `prefix_of` p_log s' n.
Proof.
  have G := step_grows _ _ I St. move=> H.
  have {H} [[? ?]|?] : (p_commit s' n = p_commit s n ∧ (0 < p_commit s n)%nat) ∨
    ∃ t m, (t, m) ∈ p_committed s' ∧ (p_commit s' n ≤ m)%nat ∧ t ≤ p_term s' n
      ∧ take (p_commit s' n) (p_tlog s' t) `prefix_of` p_log s' n.
  { destruct St; simpl in *; try by left.
    - move: H. fns; last by left. right. by exists t, m.
    - move: H. fns; last by left. right. have [t [m [? [? [? P]]]]] := pi_commit _ I n ltac:(lia).
      exists t, m. split_and! => //; first lia. etrans; last exact P. by apply take_shorter. }
  - have [t [m [C [Hm [Ht P]]]]] := pi_commit _ I n ltac:(lia). have ? := g_term _ _ G n.
    have [_ ?] := committed_elected _ I _ _ C.
    exists t, m. split_and!; [by apply: g_committed | lia | lia |].
    rw (grows_take _ _ _ _ G); first lia.
    have -> : p_commit s' n = p_commit s n by done.
    apply: step_log_keeps => // E. trans (take m (p_tlog s t)); first by apply take_shorter.
    by apply committed_line.
  - done.
Qed.

Lemma step_inv : proto_inv s'.
Proof.
  have G := step_grows _ _ I St. split.
  - move=> n. have := pi_term _ I n. have := g_term _ _ G n. lia.
  - apply step_cands.
  - apply step_votes.
  - apply step_vote_unique.
  - apply step_vote_log.
  - apply step_elected.
  - apply step_unelected.
  - apply step_log_matching.
  - apply step_tlog_matching.
  - apply step_leader.
  - apply step_acks.
  - apply step_committed.
  - apply step_commit.
Qed.

End step.

(** ** Agreement *)

Lemma init_inv : proto_inv proto_init.
Proof.
  have nil : ∀ s, matching s [] by move=> ???; rw lookup_nil.
  split => //=; try by (intros; match goal with H : _ ∈ [] |- _ => by apply elem_of_nil in H end).
  - move=> n. split => // e /elem_of_nil. done.
  - move=> n. lia.
Qed.

Lemma steps_inv s s' : proto_inv s → rtc proto_step s s' → proto_inv s' ∧ grows s s'.
Proof.
  move=> I St. induction St as [s|s1 s2 s3 St1 _ IH].
  - done.
  - have I2 := step_inv _ _ I St1. have [? G2] := IH I2. split => //.
    have G1 := step_grows _ _ I St1. split.
    + move=> n. trans (p_term s2 n); [by apply G1 | by apply G2].
    + move=> v t x H. by apply G2, G1.
    + move=> t x c H. by apply G2, G1.
    + move=> t x H. by apply G2, G1.
    + move=> t H. rw (g_elog _ _ G2); [by eapply g_elected_some | by apply G1].
    + move=> t. trans (p_tlog s2 t); [by apply G1 | by apply G2].
    + move=> v t j H. by apply G2, G1.
    + move=> t m H. by apply G2, G1.
Qed.

Lemma committed_agree s t m t' m' k : proto_inv s →
  (t, m) ∈ p_committed s → (t', m') ∈ p_committed s → (k ≤ m)%nat → (k ≤ m')%nat →
  take k (p_tlog s t) = take k (p_tlog s t').
Proof.
  move=> I. wlog: t m t' m' / t ≤ t'.
  { move=> W ????. case: (decide (t ≤ t')) => ?; first by eapply W.
    symmetry. apply: (W t' m' t m) => //. lia. }
  move=> Ht C C' Hm Hm'. have [E _] := committed_elected _ I _ _ C'.
  have [_ ?] := committed_elected _ I _ _ C.
  have P := committed_line _ I _ _ _ C Ht E.
  rw (take_prefix_of k _ _ P); first by rw length_take; lia. by rw take_take Nat.min_l.
Qed.

(** What a node has learnt to be committed, no node ever disagrees with. *)
Lemma agreement s s' n n' k :
  proto_inv s → rtc proto_step s s' →
  (k ≤ p_commit s n)%nat → (k ≤ p_commit s' n')%nat →
  take k (p_log s n) = take k (p_log s' n').
Proof.
  move=> I /(steps_inv _ _ I) [I' G] Hk Hk'.
  case: (decide (k = 0)%nat) => [->//|?].
  have [t [m [C [? [_ P]]]]] := pi_commit _ I n ltac:(lia).
  have [t' [m' [C' [? [_ P']]]]] := pi_commit _ I' n' ltac:(lia).
  have [_ Hm] := committed_elected _ I _ _ C. have [_ Hm'] := committed_elected _ I' _ _ C'.
  have cut : ∀ c l l', take c l `prefix_of` l' → (k ≤ c ≤ length l)%nat → take k l' = take k l.
  { move=> c l l' Hp ?. rw (take_prefix_of k _ _ Hp); first by rw length_take; lia.
    rw take_take Nat.min_l //. lia. }
  rw (cut _ _ _ P); first lia. rw (cut _ _ _ P'); first lia.
  rw -(grows_take _ _ t k G); first lia.
  by apply: (committed_agree _ _ m _ m') => //; [by apply: g_committed | lia | lia].
Qed.

End protocol.
