(* ===== verification/Cluster.v ===== *)
(** * Cluster: all nodes together (src/raft/).

    A cluster is the nodes of its members (core, store and disk) and the messages ever sent.
    Each step runs one section of the code on one node: a campaign starts, a request is
    handled, a reply is folded in, a command is proposed, committed entries are taken,
    applied, saved as a snapshot and compacted away, a node restarts.  Messages may be lost,
    delayed, duplicated and reordered, and a section may fail in the middle.

    What the steps leave out, each with the counterexample that shows why: a node sends
    AppendEntries only while it is leader and only what its log still has; a leader that is
    told of a newer term manages to step down; one task at a time applies entries; a
    compaction succeeds; and a restart finds the hard state, the snapshot and the entries of
    before, which is what files RaftState, Snapshot, Mirror and Restart show of the disk. *)

From Corelib Require Import ssreflect.
From stdpp Require Import base gmap strings list sorting functions relations.
From S2P Require Import Prelude Text Fs AtomicFile Crc WalLog Codec Config MemTable Snapshot RaftState.
From S2P Require Import Wal RaftCore Election Replication Task Store Driver Sections.

(** How far the task that applies entries on a node is. *)
Inductive apply_phase :=
| Resting                        (* there is no such task *)
| Taken (out : list LogEntry)    (* it has taken entries from the core *)
| Due (applied : Z)              (* it has applied them and is to take a snapshot *)
| Termed (term : Z)              (* it knows the term of the snapshot *)
| Saved (meta : SnapshotMeta).   (* it has written the snapshot *)

Record cluster (L : Type) := MkCluster {
  cl_core : Z → RaftCore L;
  cl_store : Z → Store;
  cl_disk : Z → fs;
  cl_phase : Z → apply_phase;
  cl_saved : Z → SnapshotMeta * MemTable;           (* the snapshot on disk *)
  cl_vote_reqs : list RequestVoteArgs;
  cl_vote_reps : list (Z * RequestVoteArgs * RequestVoteReply);       (* voter *)
  cl_campaigns : list (Z * Z * list Z);             (* candidate, term, peers that granted *)
  cl_append_reqs : list (Z * AppendEntriesArgs);                      (* receiver *)
  cl_append_reps : list (Z * AppendEntriesArgs * AppendEntriesReply); (* receiver *)
  cl_applied : list (Z * LogEntry)                  (* node, entry handed to its store *)
}.
Arguments MkCluster {L}. Arguments cl_core {L}. Arguments cl_store {L}. Arguments cl_disk {L}. Arguments cl_phase {L}.
Arguments cl_saved {L}. Arguments cl_vote_reqs {L}. Arguments cl_vote_reps {L}. Arguments cl_campaigns {L}. Arguments cl_append_reqs {L}.
Arguments cl_append_reps {L}. Arguments cl_applied {L}.

Section cluster.
Context {L : Type} {wal : Wal L} {bin_hard : Bincode HardState} {bin_entry : Bincode LogEntry}.
Context {bin_snap : Bincode SnapshotFile}.
Context (members : list Z).
Implicit Types (c : RaftCore L) (γ : cluster L).

(** A node has changed; more messages are under way. *)
Definition with_state n c st σ γ : cluster L :=
  MkCluster (<[n := c]> (cl_core γ)) (<[n := st]> (cl_store γ)) (<[n := σ]> (cl_disk γ))
    (cl_phase γ) (cl_saved γ) (cl_vote_reqs γ) (cl_vote_reps γ) (cl_campaigns γ)
    (cl_append_reqs γ) (cl_append_reps γ) (cl_applied γ).
Definition with_node n c σ γ : cluster L := with_state n c (cl_store γ n) σ γ.
Definition with_phase n ph γ : cluster L :=
  MkCluster (cl_core γ) (cl_store γ) (cl_disk γ) (<[n := ph]> (cl_phase γ)) (cl_saved γ)
    (cl_vote_reqs γ) (cl_vote_reps γ) (cl_campaigns γ) (cl_append_reqs γ) (cl_append_reps γ)
    (cl_applied γ).
Definition with_saved n sv γ : cluster L :=
  MkCluster (cl_core γ) (cl_store γ) (cl_disk γ) (cl_phase γ) (<[n := sv]> (cl_saved γ))
    (cl_vote_reqs γ) (cl_vote_reps γ) (cl_campaigns γ) (cl_append_reqs γ) (cl_append_reps γ)
    (cl_applied γ).
Definition with_campaign x t vs γ : cluster L :=
  MkCluster (cl_core γ) (cl_store γ) (cl_disk γ) (cl_phase γ) (cl_saved γ) (cl_vote_reqs γ)
    (cl_vote_reps γ) ((x, t, vs) :: cl_campaigns γ) (cl_append_reqs γ) (cl_append_reps γ)
    (cl_applied γ).
Definition with_vote_req args γ : cluster L :=
  MkCluster (cl_core γ) (cl_store γ) (cl_disk γ) (cl_phase γ) (cl_saved γ)
    (args :: cl_vote_reqs γ) (cl_vote_reps γ) (cl_campaigns γ) (cl_append_reqs γ)
    (cl_append_reps γ) (cl_applied γ).
Definition with_vote_rep v args reply γ : cluster L :=
  MkCluster (cl_core γ) (cl_store γ) (cl_disk γ) (cl_phase γ) (cl_saved γ) (cl_vote_reqs γ)
    ((v, args, reply) :: cl_vote_reps γ) (cl_campaigns γ) (cl_append_reqs γ) (cl_append_reps γ)
    (cl_applied γ).
Definition with_append_req v args γ : cluster L :=
  MkCluster (cl_core γ) (cl_store γ) (cl_disk γ) (cl_phase γ) (cl_saved γ) (cl_vote_reqs γ)
    (cl_vote_reps γ) (cl_campaigns γ) ((v, args) :: cl_append_reqs γ) (cl_append_reps γ)
    (cl_applied γ).
Definition with_append_rep v args reply γ : cluster L :=
  MkCluster (cl_core γ) (cl_store γ) (cl_disk γ) (cl_phase γ) (cl_saved γ) (cl_vote_reqs γ)
    (cl_vote_reps γ) (cl_campaigns γ) (cl_append_reqs γ) ((v, args, reply) :: cl_append_reps γ)
    (cl_applied γ).
Definition with_applied n out γ : cluster L :=
  MkCluster (cl_core γ) (cl_store γ) (cl_disk γ) (cl_phase γ) (cl_saved γ) (cl_vote_reqs γ)
    (cl_vote_reps γ) (cl_campaigns γ) (cl_append_reqs γ) (cl_append_reps γ)
    (((λ e, (n, e)) <$> out) ++ cl_applied γ).

(** The section [m] succeeds on node [n] with [r] and leaves [c] and [σ]. *)
Definition runs {A} γ n (m : M (RaftCore L * fs) A) (r : A) c σ : Prop :=
  n ∈ members ∧ m (cl_core γ n, cl_disk γ n) = (Ok r, (c, σ)).

(** There is room for one more term or entry. *)
Definition term_room c : Prop := current_term (rc_hard c) < u64_max.
Definition log_room c : Prop := last_log_index c + 1 < u64_max.

(** The log of [c] still has what [peer] is to get next. *)
Definition has_next peer c : Prop :=
  snap_index c < default (u64_add (last_log_index c) 1) (rc_next_index c !! peer).

(** The entries go through [Store::apply], one by one. *)
Definition store_out (out : list LogEntry) (st : Store) : Store :=
  foldl (λ st e, store_apply (e_index e) (e_command e) st) st out.

(** The snapshot that [Store::snapshot] writes. *)
Definition image (term : Z) (st : Store) : SnapshotMeta * MemTable :=
  (MkSnapshotMeta (store_last_applied st) term, st_memtable st).

(** The index [broadcast_append_entries] remembers of a message. *)
Definition last_sent (args : AppendEntriesArgs) : Z :=
  u64_add (ae_prev_log_index args) (zlen (ae_entries args)).

(** The reply [reply] of [v] belongs to the campaign of [x] in [t]; that of [v] to [x]'s message. *)
Record answers γ x t vs v args (reply : RequestVoteReply) : Prop := {
  an_campaign : (x, t, vs) ∈ cl_campaigns γ;
  an_reply : (v, args, reply) ∈ cl_vote_reps γ;
  an_term : rv_term args = t;
  an_candidate : rv_candidate_id args = x;
  an_peer : v ∈ rc_peers (cl_core γ x);
  an_new : v ∉ vs
}.
Record acknowledges γ x v args (reply : AppendEntriesReply) (term : Z) : Prop := {
  ak_reply : (v, args, reply) ∈ cl_append_reps γ;
  ak_leader : ae_leader_id args = x;
  ak_term : term ≤ ae_term args;                  (* read before the message was built *)
  ak_peer : v ∈ rc_peers (cl_core γ x)
}.

(** The sections that node [n] may start. *)
Inductive starts γ n : ∀ {A}, M (RaftCore L * fs) A → Prop :=
| s_campaign now draw : term_room (cl_core γ n) → starts γ n (become_candidate now draw)
| s_vote args now draw : args ∈ cl_vote_reqs γ → starts γ n (handle_request_vote args now draw)
| s_count t vs v args reply :
    answers γ n t vs v args reply → log_room (cl_core γ n) →
    starts γ n (count_vote reply t (1 + zlen vs))
| s_propose cmd : log_room (cl_core γ n) → starts γ n (propose_section cmd)
| s_append args now draw : (n, args) ∈ cl_append_reqs γ → starts γ n (handle_append_entries args now draw)
| s_fold v args reply term acks :
    acknowledges γ n v args reply term → starts γ n (fold_reply v (last_sent args) reply term acks).

(** The node works on.

    The steps have guards that the code does not have; a run of the code without them may
    break what the theorems say of guarded runs, and file Conformance shows that the code
    leaves these steps in no other way:
    - a node sends AppendEntries only while it leads, and only from above its snapshot
      ([cl_send]; else [Safety.stale_round_overwrites_committed] and
      [Safety.compaction_loses_write_on_follower]);
    - a section that fails does not leave the node leading in a newer term ([cl_failed]; else
      [Safety.failed_step_down_keeps_leading]);
    - one task at a time applies entries on a node ([cl_take]; else
      [Interleave.concurrent_proposals_lose_write]);
    - a compaction succeeds ([cl_compact]; else [RaftCore.compact_error_misaligns]);
    - a restart finds the hard state, the snapshot and the entries the node had
      ([cl_restart] below; else [Safety.unsynced_entry_counts],
      [Losses.lost_directory_entry_loses_log] and [Losses.truncation_crash_breaks_safety]);
    - terms and indices stay below the limit of [u64]. *)
Inductive guarded_section : cluster L → cluster L → Prop :=
(** [start_election] until the requests are sent *)
| cl_campaign γ n now draw args c σ :
    runs γ n (become_candidate now draw) args c σ → term_room (cl_core γ n) →
    guarded_section γ (with_vote_req args (with_campaign n (rv_term args) [] (with_node n c σ γ)))
(** a peer handles a request *)
| cl_vote γ v args now draw reply c σ :
    args ∈ cl_vote_reqs γ → runs γ v (handle_request_vote args now draw) reply c σ →
    guarded_section γ (with_vote_rep v args reply (with_node v c σ γ))
(** the candidate treats a reply: the campaign ends, or goes on *)
| cl_concluded γ x t vs v args reply c σ :
    answers γ x t vs v args reply →
    runs γ x (count_vote reply t (1 + zlen vs)) None c σ → log_room (cl_core γ x) →
    guarded_section γ (with_node x c σ γ)
| cl_counted γ x t vs v args reply votes c σ :
    answers γ x t vs v args reply →
    runs γ x (count_vote reply t (1 + zlen vs)) (Some votes) c σ →
    guarded_section γ (with_campaign x t (if rvr_vote_granted reply then v :: vs else vs)
                      (with_node x c σ γ))
(** [propose] up to the broadcast *)
| cl_propose γ x cmd i c σ :
    runs γ x (propose_section cmd) i c σ → log_room (cl_core γ x) →
    guarded_section γ (with_node x c σ γ)
(** [broadcast_append_entries] builds and sends a message *)
| cl_send γ x peer :
    x ∈ members → rc_role (cl_core γ x) = Leader → has_next peer (cl_core γ x) →
    guarded_section γ (with_append_req peer (build_append_entries peer (cl_core γ x)) γ)
(** a peer handles it *)
| cl_append γ v args now draw reply c σ :
    (v, args) ∈ cl_append_reqs γ → runs γ v (handle_append_entries args now draw) reply c σ →
    guarded_section γ (with_append_rep v args reply (with_node v c σ γ))
(** [broadcast_append_entries] folds a reply in *)
| cl_fold γ x v args reply term acks r c σ :
    acknowledges γ x v args reply term →
    runs γ x (fold_reply v (last_sent args) reply term acks) r c σ →
    guarded_section γ (with_node x c σ γ)
(** a round that a quorum has acknowledged renews the lease *)
| cl_renew γ n now :
    n ∈ members → guarded_section γ (with_node n (renew_lease now (cl_core γ n)) (cl_disk γ n) γ)
(** a section fails; a node that still leads has not moved to another term *)
| cl_failed γ n {A} (m : M (RaftCore L * fs) A) r c σ :
    n ∈ members → starts γ n m → m (cl_core γ n, cl_disk γ n) = (r, (c, σ)) → failed r →
    (rc_role c = Leader → current_term (rc_hard c) = current_term (rc_hard (cl_core γ n))) →
    guarded_section γ (with_node n c σ γ)
(** [apply_committed]: the committed entries are taken, *)
| cl_take γ n out c :
    n ∈ members → cl_phase γ n = Resting → take_committed (cl_core γ n) = (out, c) →
    guarded_section γ (with_phase n (match out with [] => Resting | _ => Taken out end)
                      (with_node n c (cl_disk γ n) γ))
(** they go to the store, *)
| cl_fill γ n out st :
    n ∈ members → cl_phase γ n = Taken out → st = store_out out (cl_store γ n) →
    guarded_section γ (with_applied n out
      (with_phase n (if should_snapshot st then Due (store_last_applied st) else Resting)
        (with_state n (cl_core γ n) st (cl_disk γ n) γ)))
(** the term of a snapshot is read, *)
| cl_term γ n applied :
    n ∈ members → cl_phase γ n = Due applied →
    guarded_section γ (with_phase n (Termed (default 0 (term_at applied (cl_core γ n)))) γ)
(** it is written (or that fails, before or after the file is in place), *)
| cl_save γ n term meta st σ :
    n ∈ members → cl_phase γ n = Termed term →
    store_snapshot term (cl_store γ n, cl_disk γ n) = (Ok meta, (st, σ)) →
    guarded_section γ (with_saved n (image term (cl_store γ n))
      (with_phase n (Saved meta) (with_state n (cl_core γ n) st σ γ)))
| cl_save_failed γ n term r st σ sv :
    n ∈ members → cl_phase γ n = Termed term →
    store_snapshot term (cl_store γ n, cl_disk γ n) = (r, (st, σ)) → failed r →
    sv = cl_saved γ n ∨ sv = image term (cl_store γ n) →
    guarded_section γ (with_saved n sv (with_phase n Resting (with_state n (cl_core γ n) st σ γ)))
(** and the log is compacted *)
| cl_compact γ n meta c σ :
    cl_phase γ n = Saved meta → runs γ n (compact meta) tt c σ →
    guarded_section γ (with_phase n Resting (with_node n c σ γ)).

(** A step is a section, or a node restarts on its disk. *)
Inductive guarded_step : cluster L → cluster L → Prop :=
| cl_section γ γ' : guarded_section γ γ' → guarded_step γ γ'
| cl_restart γ n {A} (cfg : Config A) log now draw st σ c σ' :
    n ∈ members → (st_last_snapshot st, st_memtable st) = cl_saved γ n →
    restore cfg (st_last_snapshot st) log now draw σ = (Ok c, σ') →
    cfg_id cfg = n → (peer_id <$> cfg_peers cfg) ≡ₚ rc_peers (cl_core γ n) →
    rc_hard c = rc_hard (cl_core γ n) →
    rc_entries c = filter (λ e, last_included_index (st_last_snapshot st) < e_index e)
                     (rc_entries (cl_core γ n)) →
    guarded_step γ (with_phase n Resting (with_state n c st σ' γ)).

(** A node that has just been set up. *)
Record fresh n c : Prop := {
  fr_id : rc_id c = n;
  fr_peers : n :: rc_peers c ≡ₚ members;
  fr_size : rc_cluster_size c = zlen members;
  fr_hard : rc_hard c = default_hard;
  fr_entries : rc_entries c = [];
  fr_snapshot : rc_snapshot c = default_meta;
  fr_role : rc_role c = Follower;
  fr_commit : rc_commit_index c = 0;
  fr_applied : rc_last_applied c = 0
}.

(** All members are new and no message has been sent. *)
Record cluster_init γ : Prop := {
  in_nodes n : n ∈ members → fresh n (cl_core γ n);
  in_stores n : n ∈ members → st_memtable (cl_store γ n) = memtable_new;
  in_phases n : n ∈ members → cl_phase γ n = Resting;
  in_saved n : n ∈ members → cl_saved γ n = (default_meta, memtable_new);
  in_vote_reqs : cl_vote_reqs γ = [];
  in_vote_reps : cl_vote_reps γ = [];
  in_campaigns : cl_campaigns γ = [];
  in_append_reqs : cl_append_reqs γ = [];
  in_append_reps : cl_append_reps γ = [];
  in_applied : cl_applied γ = []
}.

Definition guarded_reachable γ : Prop := ∃ γ0, cluster_init γ0 ∧ rtc guarded_step γ0 γ.

(** ** Running a cluster

    The steps as a function, messages and campaigns named by their position in the lists;
    [now] is the time at which a step happens. *)
Inductive event :=
| Campaign (n : Z)
| DeliverVote (v : Z) (request : nat)
| CountVote (campaign reply : nat)
| Propose (x : Z) (cmd : Command)
| Send (x peer : Z)
| DeliverAppend (request : nat)
| Fold (x term : Z) (reply : nat)
| Renew (n : Z)
| Take (n : Z)
| Fill (n : Z)
| ReadTerm (n : Z)
| Save (n : Z)
| Compact (n : Z).

(** A section that succeeds goes on with [k]; one that fails leaves its core. *)
Definition run_section {A} γ n (m : M (RaftCore L * fs) A) (k : A → cluster L → cluster L)
    : option (cluster L) :=
  if decide (n ∈ members) then
    match m (cl_core γ n, cl_disk γ n) with
    | (Ok r, (c, σ)) => Some (k r (with_node n c σ γ))
    | (_, (c, σ)) =>
        if decide (rc_role c = Leader →
                   current_term (rc_hard c) = current_term (rc_hard (cl_core γ n)))
        then Some (with_node n c σ γ) else None
    end
  else None.

#[local] Instance vote_args_eq : EqDecision RequestVoteArgs := ltac:(solve_decision).
#[local] Instance vote_reply_eq : EqDecision RequestVoteReply := ltac:(solve_decision).
#[local] Instance append_args_eq : EqDecision AppendEntriesArgs := ltac:(solve_decision).
#[local] Instance append_reply_eq : EqDecision AppendEntriesReply := ltac:(solve_decision).

#[global] Instance has_next_dec peer c : Decision (has_next peer c) := Z.lt_dec _ _.

#[global] Instance answers_dec γ x t vs v args reply : Decision (answers γ x t vs v args reply).
Proof.
  destruct (decide ((x, t, vs) ∈ cl_campaigns γ ∧ (v, args, reply) ∈ cl_vote_reps γ
    ∧ rv_term args = t ∧ rv_candidate_id args = x ∧ v ∈ rc_peers (cl_core γ x) ∧ v ∉ vs)) as [H|H];
    [left | right].
  - by destruct_and!; constructor.
  - intros []. apply H. by split_and!.
Defined.

#[global] Instance acknowledges_dec γ x v args reply term : Decision (acknowledges γ x v args reply term).
Proof.
  destruct (decide ((v, args, reply) ∈ cl_append_reps γ ∧ ae_leader_id args = x
    ∧ term ≤ ae_term args ∧ v ∈ rc_peers (cl_core γ x))) as [H|H]; [left | right].
  - by destruct_and!; constructor.
  - intros []. apply H. by split_and!.
Defined.

Definition run_event_at (now : Z) (ev : event) γ : option (cluster L) :=
  match ev with
  | Campaign n =>
      if decide (term_room (cl_core γ n)) then
        run_section γ n (become_candidate now 0) (λ args γ',
          with_vote_req args (with_campaign n (rv_term args) [] γ'))
      else None
  | DeliverVote v i =>
      args ← cl_vote_reqs γ !! i;
      run_section γ v (handle_request_vote args now 0) (with_vote_rep v args)
  | CountVote i j =>
      '(x, t, vs) ← cl_campaigns γ !! i; '(v, args, reply) ← cl_vote_reps γ !! j;
      if decide (answers γ x t vs v args reply ∧ log_room (cl_core γ x)) then
        run_section γ x (count_vote reply t (1 + zlen vs)) (λ r γ',
          match r with
          | None => γ'
          | Some _ => with_campaign x t (if rvr_vote_granted reply then v :: vs else vs) γ'
          end)
      else None
  | Propose x cmd =>
      if decide (log_room (cl_core γ x)) then run_section γ x (propose_section cmd) (λ _ γ', γ')
      else None
  | Send x peer =>
      if decide (x ∈ members ∧ rc_role (cl_core γ x) = Leader ∧ has_next peer (cl_core γ x))
      then Some (with_append_req peer (build_append_entries peer (cl_core γ x)) γ) else None
  | DeliverAppend i =>
      '(v, args) ← cl_append_reqs γ !! i;
      run_section γ v (handle_append_entries args now 0) (with_append_rep v args)
  | Fold x term i =>
      '(v, args, reply) ← cl_append_reps γ !! i;
      if decide (acknowledges γ x v args reply term)
      then run_section γ x (fold_reply v (last_sent args) reply term 1) (λ _ γ', γ') else None
  | Renew n =>
      if decide (n ∈ members)
      then Some (with_node n (renew_lease now (cl_core γ n)) (cl_disk γ n) γ) else None
  | Take n =>
      if decide (n ∈ members) then
        match cl_phase γ n with
        | Resting =>
            let '(out, c) := take_committed (cl_core γ n) in
            Some (with_phase n (match out with [] => Resting | _ => Taken out end)
                    (with_node n c (cl_disk γ n) γ))
        | _ => None
        end
      else None
  | Fill n =>
      if decide (n ∈ members) then
        match cl_phase γ n with
        | Taken out =>
            let st := store_out out (cl_store γ n) in
            Some (with_applied n out
              (with_phase n (if should_snapshot st then Due (store_last_applied st) else Resting)
                (with_state n (cl_core γ n) st (cl_disk γ n) γ)))
        | _ => None
        end
      else None
  | ReadTerm n =>
      if decide (n ∈ members) then
        match cl_phase γ n with
        | Due applied => Some (with_phase n (Termed (default 0 (term_at applied (cl_core γ n)))) γ)
        | _ => None
        end
      else None
  | Save n =>
      if decide (n ∈ members) then
        match cl_phase γ n with
        | Termed term =>
            match store_snapshot term (cl_store γ n, cl_disk γ n) with
            | (Ok meta, (st, σ)) =>
                Some (with_saved n (image term (cl_store γ n))
                  (with_phase n (Saved meta) (with_state n (cl_core γ n) st σ γ)))
            | _ => None
            end
        | _ => None
        end
      else None
  | Compact n =>
      match cl_phase γ n with
      | Saved meta =>
          if decide (n ∈ members) then
            match compact meta (cl_core γ n, cl_disk γ n) with
            | (Ok tt, (c, σ)) => Some (with_phase n Resting (with_node n c σ γ))
            | _ => None
            end
          else None
      | _ => None
      end
  end.

Definition run_event : event → cluster L → option (cluster L) := run_event_at 0.

Fixpoint run_events_at (now : Z) (evs : list event) γ : option (cluster L) :=
  match evs with
  | [] => Some γ
  | ev :: evs => γ' ← run_event_at now ev γ; run_events_at now evs γ'
  end.
Definition run_events : list event → cluster L → option (cluster L) := run_events_at 0.

Lemma run_section_step {A} γ n (m : M (RaftCore L * fs) A) k γ' :
  run_section γ n m k = Some γ' → starts γ n m →
  (∀ r c σ, runs γ n m r c σ → guarded_section γ (k r (with_node n c σ γ))) →
  guarded_section γ γ'.
Proof.
  rw /run_section. case_decide as Hm; [|done]. intros E St H. destruct (m _) as [r [c σ]] eqn:Em.
  destruct r as [r|e|]; [by injection E as <-; apply H|..].
  all: case_decide as Hd; [|done]; injection E as <-; by apply: (cl_failed _ _ m _ _ _ _ St Em).
Qed.

(** Every event is a section. *)
Lemma run_event_section now ev γ γ' : run_event_at now ev γ = Some γ' → guarded_section γ γ'.
Proof.
  destruct ev as [n|v i|i j|x cmd|x peer|i|x term i|n|n|n|n|n|n]; cbn [run_event_at].
  - case_decide; [|done]. intros E. apply: (run_section_step _ _ _ _ _ E); [by constructor|].
    intros. by apply: cl_campaign.
  - intros (args & Ha%list_elem_of_lookup_2 & E)%bind_Some.
    apply: (run_section_step _ _ _ _ _ E); [by constructor|]. intros. by apply: cl_vote.
  - intros ([[x t] vs] & _ & E)%bind_Some. apply bind_Some in E as ([[v args] reply] & _ & E). move: E.
    case_decide as Hd; [|done]. destruct Hd as [Ha Hr]. intros E.
    apply: (run_section_step _ _ _ _ _ E); [by econstructor|].
    intros [votes|]; intros; [by apply: cl_counted | by apply: cl_concluded].
  - case_decide; [|done]. intros E. apply: (run_section_step _ _ _ _ _ E); [by constructor|].
    intros. by apply: cl_propose.
  - case_decide as Hd; [|done]. intros [= <-]. by apply: cl_send; apply Hd.
  - intros ([v args] & Ha%list_elem_of_lookup_2 & E)%bind_Some.
    apply: (run_section_step _ _ _ _ _ E); [by constructor|]. intros. by apply: cl_append.
  - intros ([[v args] reply] & _ & E)%bind_Some. move: E. case_decide as Hd; [|done]. intros E.
    apply: (run_section_step _ _ _ _ _ E); [by constructor|]. intros. by apply: cl_fold.
  - case_decide; [|done]. intros [= <-]. by apply: cl_renew.
  - case_decide; [|done]. destruct (cl_phase γ n) eqn:Ep; [|done..].
    destruct (take_committed _) as [out c] eqn:E. intros [= <-]. by apply: cl_take.
  - case_decide; [|done]. destruct (cl_phase γ n) eqn:Ep; [done| |done..]. intros [= <-].
    by apply: cl_fill.
  - case_decide; [|done]. destruct (cl_phase γ n) eqn:Ep; [done..| |done|done]. intros [= <-].
    by apply: cl_term.
  - case_decide; [|done]. destruct (cl_phase γ n) eqn:Ep; [done..| |done].
    destruct (store_snapshot term (cl_store γ n, cl_disk γ n)) as [[meta| |] [st σ]] eqn:E;
      [|done..]. intros [= <-].
    by apply: cl_save.
  - destruct (cl_phase γ n) eqn:Ep; [done..|]. case_decide; [|done].
    destruct (compact meta (cl_core γ n, cl_disk γ n)) as [[[]| |] [c σ]] eqn:E; [|done..].
    intros [= <-]. by apply: cl_compact.
Qed.

Lemma run_events_steps now evs γ γ' : run_events_at now evs γ = Some γ' → rtc guarded_step γ γ'.
Proof.
  revert γ. induction evs as [|ev evs IH]; intros γ; simpl; [by intros [= ->]|].
  intros (γ1 & St%run_event_section & R%IH)%bind_Some. by apply: rtc_l R; apply cl_section.
Qed.

End cluster.
