(* ===== verification/Simulation.v ===== *)
(** * Simulation: the cluster follows the protocol.

    Every step of file Cluster is a sequence of steps of file Protocol.  A node's log is what
    its snapshot covers followed by the entries in memory; its store, the snapshot on its
    disk and the entries a task has taken are cuts of that log. *)

From Corelib Require Import ssreflect.
From stdpp Require Import base gmap strings list sorting functions relations.
From S2P Require Import Prelude Text Fs AtomicFile Crc WalLog Codec Config MemTable Snapshot RaftState.
From S2P Require Import Wal RaftCore Election Replication Task Store Driver Sections Faults Protocol Cluster.

(** Majorities are the quorums. *)
Section majority.
Context (members : list Z).

#[local] Program Instance majority : Quorums := {|
  is_quorum q := NoDup q ∧ q ⊆ members ∧ zlen members / 2 + 1 ≤ zlen q
|}.
Next Obligation.
  intros q1 q2 (H1 & S1 & L1) (H2 & S2 & L2). apply (pigeonhole members); try done.
  rw /zlen in L1 L2. pose proof (Z.div_mod (Z.of_nat (length members)) 2 ltac:(lia)).
  pose proof (Z.mod_pos_bound (Z.of_nat (length members)) 2 ltac:(lia)). lia.
Qed.
End majority.

(** The term of the entry at a 1-based index, 0 at the start. *)
Definition prev_term (i : nat) (l : list LogEntry) : Z :=
  match i with O => 0 | S i => from_option e_term 0 (l !! i) end.

Lemma prev_term_take i l l' : take i l = take i l' → prev_term i l = prev_term i l'.
Proof.
  case: i => [//|i] E /=. rw -(lookup_take_lt l (S i)); first lia. rw E lookup_take_lt //. lia.
Qed.

Lemma prev_term_end l : prev_term (length l) l = final_term l.
Proof. rw /final_term last_lookup. by case: l. Qed.

Section simulation.
Context {L : Type} {wal : Wal L} {bin_hard : Bincode HardState} {bin_entry : Bincode LogEntry}.
Context {bin_snap : Bincode SnapshotFile}.
Context (members : list Z).
Implicit Types (c : RaftCore L) (γ : cluster L) (s : proto).

#[local] Instance members_majority : Quorums := majority members.

(** ** How a node follows the protocol *)

Record node_ok s n c : Prop := {
  ok_id : rc_id c = n;
  ok_peers : n :: rc_peers c ≡ₚ members;
  ok_size : rc_cluster_size c = zlen members;
  ok_numbers : consecutive 0 (p_log s n);
  ok_bound : zlen (p_log s n) < u64_max;
  ok_base : 0 ≤ snap_index c ≤ zlen (p_log s n);
  ok_base_term : last_included_term (rc_snapshot c) = prev_term (Z.to_nat (snap_index c)) (p_log s n);
  ok_entries : rc_entries c = drop (Z.to_nat (snap_index c)) (p_log s n);
  ok_applied : snap_index c ≤ rc_last_applied c ≤ rc_commit_index c;
  ok_term : p_term s n = current_term (rc_hard c);
  ok_commit : rc_commit_index c = Z.of_nat (p_commit s n);
  ok_voted y : (n, p_term s n, y) ∈ p_votes s → voted_for (rc_hard c) = Some y;
  ok_candidate l : rc_role c = Candidate → p_cands s (p_term s n) n = Some l →
    l = p_log s n ∧ ∀ q, p_elected s (p_term s n) ≠ Some (n, q);
  ok_elected : rc_role c = Leader → ∃ q, p_elected s (p_term s n) = Some (n, q);
  ok_own : rc_role c = Leader → (n, p_term s n, length (p_log s n)) ∈ p_acks s;
  ok_next p i : rc_role c = Leader → rc_next_index c !! p = Some i →
    1 ≤ i ≤ zlen (p_log s n) + 1;
  ok_match p i : rc_role c = Leader → rc_match_index c !! p = Some i →
    i ≤ 0 ∨ ∃ j, (p, p_term s n, j) ∈ p_acks s ∧ i ≤ Z.of_nat j
}.

(** The store holds the first commands of the log, the snapshot on disk fewer, and a task has
    what the core counts as applied and the store does not have. *)
Record store_ok (log : list LogEntry) c (st : Store) (ph : apply_phase) (sv : SnapshotMeta * MemTable)
    : Prop := {
  so_table : st_memtable st = state_at (e_command <$> log) (Z.to_nat (store_last_applied st));
  so_range : snap_index c ≤ store_last_applied st ≤ rc_last_applied c;
  so_phase :
    let a := store_last_applied st in
    match ph with
    | Taken out => out = drop (Z.to_nat a) (take (Z.to_nat (rc_last_applied c)) log)
    | Resting => a = rc_last_applied c
    | Due applied => a = rc_last_applied c ∧ applied = a
    | Termed term => a = rc_last_applied c ∧ term = prev_term (Z.to_nat a) log
    | Saved meta => a = rc_last_applied c ∧ meta = sv.1
    end;
  so_saved : sv.2 = state_at (e_command <$> log) (Z.to_nat (last_included_index sv.1));
  so_saved_range : snap_index c ≤ last_included_index sv.1 ≤ store_last_applied st;
  so_saved_term : last_included_term sv.1 = prev_term (Z.to_nat (last_included_index sv.1)) log
}.

(** What a log knows to be committed. *)
Definition known_committed s (k : Z) (t : Z) (l : list LogEntry) : Prop :=
  k ≤ 0 ∨ ∃ u m, (u, m) ∈ p_committed s ∧ k ≤ Z.of_nat m ∧ u ≤ t
    ∧ take (Z.to_nat k) (p_tlog s u) `prefix_of` l.

(** A message carries the end of the log its leader had then. *)
Record append_ok s (args : AppendEntriesArgs) : Prop := {
  ao_elected : ∃ q, p_elected s (ae_term args) = Some (ae_leader_id args, q);
  ao_log : ∃ p l, l `prefix_of` p_tlog s (ae_term args)
    ∧ ae_prev_log_index args = Z.of_nat p ∧ (p ≤ length l)%nat
    ∧ ae_prev_log_term args = prev_term p l ∧ ae_entries args = drop p l
    ∧ consecutive 0 l ∧ zlen l < u64_max
    ∧ ae_leader_commit args ≤ zlen l
    ∧ known_committed s (ae_leader_commit args) (ae_term args) l
}.

Record sim γ s : Prop := {
  sim_inv : proto_inv s;
  sim_node n : n ∈ members → node_ok s n (cl_core γ n);
  sim_store n : n ∈ members →
    store_ok (p_log s n) (cl_core γ n) (cl_store γ n) (cl_phase γ n) (cl_saved γ n);
  sim_vote_req args : args ∈ cl_vote_reqs γ →
    ∃ l, p_cands s (rv_term args) (rv_candidate_id args) = Some l
      ∧ rv_last_log_index args = zlen l ∧ rv_last_log_term args = final_term l;
  sim_vote_rep v args reply : (v, args, reply) ∈ cl_vote_reps γ → rvr_vote_granted reply = true →
    v ∈ members ∧ (v, rv_term args, rv_candidate_id args) ∈ p_votes s;
  sim_campaign x t vs : (x, t, vs) ∈ cl_campaigns γ →
    NoDup (x :: vs) ∧ x :: vs ⊆ members ∧ ∀ v, v ∈ x :: vs → (v, t, x) ∈ p_votes s;
  sim_append_req v args : (v, args) ∈ cl_append_reqs γ → append_ok s args;
  sim_append_rep v args reply : (v, args, reply) ∈ cl_append_reps γ → append_ok s args
    ∧ (aer_success reply = true → ∃ j, (v, ae_term args, j) ∈ p_acks s ∧ last_sent args = Z.of_nat j);
  sim_applied n e : (n, e) ∈ cl_applied γ →
    ∃ t m k, (t, m) ∈ p_committed s ∧ (k < m)%nat ∧ p_tlog s t !! k = Some e
      ∧ e_index e = Z.of_nat k + 1
}.

(** Node [n] acts: everything of the other nodes stays. *)
Record others n s s' : Prop := {
  ot_term m : m ≠ n → p_term s' m = p_term s m;
  ot_log m : m ≠ n → p_log s' m = p_log s m;
  ot_commit m : m ≠ n → p_commit s' m = p_commit s m;
  ot_votes m t y : m ≠ n → (m, t, y) ∈ p_votes s' → (m, t, y) ∈ p_votes s;
  ot_cands m t l : m ≠ n → p_cands s' t m = Some l → p_cands s t m = Some l;
  ot_elected m t q : m ≠ n → p_elected s' t = Some (m, q) → p_elected s t = Some (m, q)
}.
Definition acts n s s' : Prop := proto_step s s' ∧ others n s s'.

Lemma acts_once n s s' : proto_step s s' → others n s s' → rtc (acts n) s s'.
Proof. intros. by apply rtc_once. Qed.

Lemma acts_steps n s s' : rtc (acts n) s s' → rtc proto_step s s' ∧ others n s s'.
Proof.
  induction 1 as [s|s1 s2 s3 [St O1] _ [IH O2]]; [done|]. split; [by eapply rtc_l|].
  destruct O1, O2. split; intros; rw ?ot_term1 ?ot_log1 ?ot_commit1; eauto.
Qed.

Lemma acts_inv n s s' : proto_inv s → rtc (acts n) s s' → proto_inv s' ∧ grows s s'.
Proof. move=> I /acts_steps [St _]. by apply: steps_inv. Qed.

Lemma known_committed_grows s s' k t l : proto_inv s → grows s s' →
  known_committed s k t l → known_committed s' k t l.
Proof.
  move=> I G [?|[u [m [C [? [? P]]]]]]; [by left | right]. exists u, m.
  have [_ ?] := committed_elected _ I _ _ C.
  rw (grows_take _ _ _ _ G); first lia. split_and! => //. by apply: g_committed.
Qed.

Lemma append_ok_grows s s' args : proto_inv s → grows s s' → append_ok s args → append_ok s' args.
Proof.
  move=> I G [[q E] [p [l [P H]]]]. split; first by exists q; apply: g_elected.
  exists p, l. split; first by trans (p_tlog s (ae_term args)) => //; apply g_tlog.
  move: H => [? [? [? [? [? [? [? ?]]]]]]]. split_and! => //. by apply: known_committed_grows.
Qed.

(** The nodes that do not act. *)
Lemma node_ok_others s s' n m c : grows s s' → others n s s' → m ≠ n → node_ok s m c → node_ok s' m c.
Proof.
  move=> G O Hne [Hi Hp Hz Hc0 Hb0 Hb Hbt Hes Ha Ht Hk Hv Hc He Ho Hn Hm].
  have Et := ot_term _ _ _ O m Hne. have El := ot_log _ _ _ O m Hne.
  split; rw ?Et ?El //.
  - by rw (ot_commit _ _ _ O m Hne).
  - move=> y V. apply Hv. by apply: ot_votes O _ _ _ Hne V.
  - move=> l Hr C. have [? N] := Hc l Hr (ot_cands _ _ _ O _ _ _ Hne C). split => // q Q.
    apply: (N q). by apply: ot_elected O _ _ _ Hne Q.
  - move=> /He [q Q]. exists q. by apply: g_elected.
  - move=> /Ho ?. by apply: g_acks.
  - move=> p i H1 H2. case: (Hm p i H1 H2) => [?|[j [A ?]]]; [by left | right].
    exists j. split => //. by apply: g_acks.
Qed.

Lemma node_ok_essence s n c c' : essence c' = essence c → node_ok s n c → node_ok s n c'.
Proof.
  case=> Ei Ep Ez Es Eh Ee Er Ek Ea En Em [] *.
  split; rw ?Ei ?Ep ?Ez ?Es ?Eh ?Ee ?Er ?Ek ?Ea ?En ?Em //.
Qed.

(** The cluster has changed at node [n] only. *)
Record moved n γ γ' : Prop := {
  mv_core m : m ≠ n → cl_core γ' m = cl_core γ m;
  mv_store m : m ≠ n → cl_store γ' m = cl_store γ m;
  mv_phase m : m ≠ n → cl_phase γ' m = cl_phase γ m;
  mv_saved m : m ≠ n → cl_saved γ' m = cl_saved γ m;
  mv_vote_reqs : cl_vote_reqs γ' = cl_vote_reqs γ;
  mv_vote_reps : cl_vote_reps γ' = cl_vote_reps γ;
  mv_campaigns : cl_campaigns γ' = cl_campaigns γ;
  mv_append_reqs : cl_append_reqs γ' = cl_append_reqs γ;
  mv_append_reps : cl_append_reps γ' = cl_append_reps γ;
  mv_applied : cl_applied γ' = cl_applied γ
}.

(** What has been sent stays right. *)
Lemma sim_acts γ γ' s s' n : sim γ s → moved n γ γ' → rtc (acts n) s s' →
  (n ∈ members → node_ok s' n (cl_core γ' n)
     ∧ store_ok (p_log s' n) (cl_core γ' n) (cl_store γ' n) (cl_phase γ' n) (cl_saved γ' n)) →
  sim γ' s' ∧ grows s s'.
Proof.
  move=> [I N ST VQ VP CP AQ AP AD] [M1 M2 M3 M4 M5 M6 M7 M8 M9 M10] /acts_steps [St O] Hn.
  have [I' G] := steps_inv _ _ I St. split => //. split; rw ?M5 ?M6 ?M7 ?M8 ?M9 ?M10 => //.
  - move=> m Hm. case: (decide (m = n)) => [?|Hne]; first by subst; apply Hn.
    rw M1 //. by apply: node_ok_others G O _ (N m Hm).
  - move=> m Hm. case: (decide (m = n)) => [?|Hne]; first by subst; apply Hn.
    rw M1 // M2 // M3 // M4 // (ot_log _ _ _ O) //. by apply ST.
  - move=> args /VQ [c0 [? ?]]. exists c0. split => //. by apply: g_cands.
  - move=> v args reply /VP H /H [? ?]. split => //. by apply: g_votes.
  - move=> x t vs /CP [? [? V]]. split_and! => // v /V. by apply: g_votes.
  - move=> v args /AQ. by apply append_ok_grows.
  - move=> v args reply /AP [A H]. split; first by apply: (append_ok_grows s).
    move=> /H [j [? ?]]. exists j. split => //. by apply: g_acks.
  - move=> m e /AD [t [k [i [C [? [Hk ?]]]]]]. exists t, k, i. split_and! => //.
    + by apply: g_committed.
    + by apply: lookup_of_prefix (g_tlog _ _ G t) Hk.
Qed.

(** ** The log of a node *)

Lemma node_wf s n c : node_ok s n c → log_wf c.
Proof.
  move=> N. have Hb := ok_base _ _ _ N. have Hm := ok_bound _ _ _ N. rw /zlen in Hb Hm. split => //.
  - lia.
  - move=> i e. rw (ok_entries _ _ _ N) lookup_drop => /(ok_numbers _ _ _ N). lia.
  - rw (ok_entries _ _ _ N) /zlen length_drop. lia.
Qed.

Lemma node_entry s n c i : node_ok s n c → snap_index c < i ≤ u64_max →
  entry_at i c = p_log s n !! Z.to_nat (i - 1).
Proof.
  move=> N Hi. have ? := ok_base _ _ _ N. rw entry_at_wf //; first by apply: node_wf N.
  rw (ok_entries _ _ _ N) /pos lookup_drop. f_equal. lia.
Qed.
Lemma node_entry_low s n c i : node_ok s n c → i ≤ snap_index c → entry_at i c = None.
Proof. move=> N Hi. apply entry_at_low => //. by apply: node_wf N. Qed.

Lemma node_term_at s n c i : node_ok s n c → snap_index c ≤ i ≤ zlen (p_log s n) →
  term_at i c = Some (prev_term (Z.to_nat i) (p_log s n)).
Proof.
  move=> N Hi. have Hb := ok_base _ _ _ N. have Hm := ok_bound _ _ _ N.
  case: (decide (i = snap_index c)) => [->|?].
  { by rw term_at_snapshot (ok_base_term _ _ _ N). }
  rw term_at_entry; [by apply: node_wf N|lia|]. rw (node_entry _ _ _ _ N); first lia.
  have -> : Z.to_nat i = S (Z.to_nat (i - 1)) by lia. simpl.
  have [e ->] : is_Some (p_log s n !! Z.to_nat (i - 1)) by apply lookup_lt_is_Some; rw /zlen in Hi; lia.
  done.
Qed.

(** The end of the log as the requests carry it. *)
Lemma last_log_ok s n c : node_ok s n c →
  last_log_index c = zlen (p_log s n) ∧ last_log_term c = final_term (p_log s n).
Proof.
  move=> N. have Hb := ok_base _ _ _ N. have Hw := node_wf _ _ _ N.
  have Hl : last_log_index c = zlen (p_log s n).
  { rw last_log_index_wf // (ok_entries _ _ _ N) /zlen length_drop. rw /zlen in Hb. lia. }
  split => //. have := term_at_last c Hw. rw Hl (node_term_at _ _ _ _ N); first lia.
  case=> <-. by rw /zlen Nat2Z.id prev_term_end.
Qed.

(** What lies below the snapshot stays. *)
Lemma base_kept s s' n c : proto_inv s → rtc proto_step s s' → node_ok s n c →
  p_commit s' n = p_commit s n →
  (Z.to_nat (snap_index c) ≤ length (p_log s' n))%nat
  ∧ prev_term (Z.to_nat (snap_index c)) (p_log s' n) = prev_term (Z.to_nat (snap_index c)) (p_log s n).
Proof.
  move=> I R N Ek. have [I' _] := steps_inv _ _ I R.
  have Ha := ok_applied _ _ _ N. have Hk := ok_commit _ _ _ N. have Hc := commit_within _ I' n.
  split; first lia. apply prev_term_take. symmetry. apply: (agreement s s') => //; lia.
Qed.

(** What has been applied stays in the log. *)
Lemma cut_kept (l l' : list LogEntry) (a b : nat) : take b l = take b l' → (a ≤ b)%nat → take a l = take a l'.
Proof. move=> E ?. have := f_equal (take a) E. by rw !take_take Nat.min_l. Qed.

Lemma state_at_kept (l l' : list LogEntry) a : take a l = take a l' →
  state_at (e_command <$> l) a = state_at (e_command <$> l') a.
Proof. move=> E. by rw /state_at -!fmap_take E. Qed.

Lemma store_ok_kept l l' c c' st ph sv : store_ok l c st ph sv →
  rc_last_applied c' = rc_last_applied c → snap_index c' = snap_index c →
  take (Z.to_nat (rc_last_applied c)) l = take (Z.to_nat (rc_last_applied c)) l' →
  store_ok l' c' st ph sv.
Proof.
  move=> [T R P S SR ST] Ea Es E.
  have K : ∀ a, a ≤ rc_last_applied c → take (Z.to_nat a) l = take (Z.to_nat a) l'.
  { move=> a ?. apply: (cut_kept _ _ _ _ E). lia. }
  split; rw ?Ea ?Es //.
  - rw {1}T. apply state_at_kept, K. lia.
  - move: P. case: ph => //= [out|term]; first by rw E.
    by rw (prev_term_take _ _ _ (K (store_last_applied st) (proj2 R))).
  - rw {1}S. apply state_at_kept, K. lia.
  - rw ST. apply prev_term_take, K. lia.
Qed.

(** ** Terms and votes *)

#[local] Ltac fns := rw /insert /fn_insert /=; repeat case_decide; simplify_eq/=.
#[local] Ltac acting :=
  split; simpl; intros; unfold insert, fn_insert in *; repeat case_decide; simplify_eq/=; try done;
  match goal with H : _ ∈ _ :: _ |- _ => apply elem_of_cons in H as [H|H]; simplify_eq/=; done end.

Lemma node_ok_role s n c r : r = Follower ∨ r = rc_role c → node_ok s n c → node_ok s n (set_role r c).
Proof. by move=> [->|->]; last (by destruct c); move=> []. Qed.

(** A later term has no votes of the node yet, and it is no candidate of it. *)
Lemma no_later_votes s n t y : proto_inv s → p_term s n < t → (n, t, y) ∉ p_votes s.
Proof. move=> I Ht V. have [? _] := pi_votes _ I _ _ _ V. lia. Qed.
Lemma no_later_cands s n t l : proto_inv s → p_term s n < t → p_cands s t n ≠ Some l.
Proof. move=> I Ht C. have [_ [_ [? _]]] := pi_cands _ I _ _ _ C. lia. Qed.

Lemma hear_term s n c t r : proto_inv s → node_ok s n c →
  r = Follower ∨ r = rc_role c → (current_term (rc_hard c) < t → r ≠ Leader) →
  ∃ s', rtc (acts n) s s' ∧ node_ok s' n (set_role r (set_hard (hard_at t (rc_hard c)) c))
    ∧ p_log s' = p_log s.
Proof.
  move=> I N Hr Hf. rw /hard_at. case: (Z.ltb_spec (current_term (rc_hard c)) t) => Ht.
  - have Et := ok_term _ _ _ N. have {}Hf := Hf Ht. eexists. split_and!.
    + apply: acts_once; [apply: (st_term s n t); lia | acting].
    + case: N => *. split => //=; fns => //.
      * move=> y /(no_later_votes _ _ _ _ I) H. case: H. lia.
      * move=> l _ /(no_later_cands _ _ _ _ I) H. case: H. lia.
    + done.
  - exists s. split_and! => //. have -> : set_hard (rc_hard c) c = c by destruct c. by apply node_ok_role.
Qed.

(** A step-down that fails. *)
Lemma step_down_failed_acts s n c t : proto_inv s → node_ok s n c → rc_role c ≠ Leader →
  current_term (rc_hard c) < t →
  ∃ s', rtc (acts n) s s' ∧ node_ok s' n (set_hard (MkHardState t None) c).
Proof.
  move=> I N Hr Ht. have [s' [A [N' _]]] := hear_term s n c t (rc_role c) I N (or_intror eq_refl) (λ _, Hr).
  exists s'. split => //. move: N'. rw /hard_at. case: Z.ltb_spec; [|lia]. by destruct c.
Qed.

Lemma up_to_date_ok l' l :
  log_up_to_date (final_term l', zlen l') (final_term l, zlen l) = true → at_least_as_new l' l.
Proof.
  rw /log_up_to_date /at_least_as_new /zlen /= orb_true_iff andb_true_iff.
  rw Z.ltb_lt Z.eqb_eq Z.leb_le. lia.
Qed.

(** A campaign starts. *)
Lemma campaign_acts s n c c' : proto_inv s → node_ok s n c →
  let t := current_term (rc_hard c) + 1 in
  essence c' = essence (set_role Candidate (set_hard (MkHardState t (Some n)) c)) →
  ∃ s', rtc (acts n) s s' ∧ node_ok s' n c' ∧ (n, t, n) ∈ p_votes s'
    ∧ p_cands s' t n = Some (p_log s n).
Proof.
  move=> I N t E. have Et := ok_term _ _ _ N. eexists. split_and!.
  - apply: acts_once; [apply: (st_candidate s n t); lia | acting].
  - apply: node_ok_essence E _. case: (N) => *. split => /=; rw ?fn_lookup_insert //.
    + move=> y. rw elem_of_cons => -[[->] //|V]. case: (no_later_votes s n t y I) => //. lia.
    + move=> l _ [<-]. split => // q Q. have [_ [C _]] := pi_elected _ I _ _ _ Q.
      have [_ [_ [? _]]] := pi_cands _ I _ _ _ C. lia.
  - apply list_elem_of_here.
  - simpl. by fns.
Qed.

(** A vote is given. *)
Lemma vote_acts s v c c' args l : proto_inv s → node_ok s v c →
  p_cands s (rv_term args) (rv_candidate_id args) = Some l →
  current_term (rc_hard c) = rv_term args → at_least_as_new l (p_log s v) →
  voted_for (rc_hard c) = None ∨ voted_for (rc_hard c) = Some (rv_candidate_id args) →
  essence c' = essence (set_hard (MkHardState (rv_term args) (Some (rv_candidate_id args))) c) →
  ∃ s', rtc (acts v) s s' ∧ node_ok s' v c'
    ∧ (v, rv_term args, rv_candidate_id args) ∈ p_votes s'.
Proof.
  move=> I N C Ht New Free E. have Et := ok_term _ _ _ N.
  have U : ∀ y, (v, rv_term args, y) ∈ p_votes s → y = rv_candidate_id args.
  { move=> y. rw -Ht -Et => /(ok_voted _ _ _ N). case: Free => ->; congruence. }
  eexists. split_and!.
  - apply: acts_once; [apply: (st_vote s v (rv_term args) (rv_candidate_id args) l) => //; congruence|acting].
  - apply: node_ok_essence E _. case: (N) => *. split => //=; try congruence.
    move=> y. rw elem_of_cons Et Ht => -[[->] //|V]. by rw (U y V).
  - apply list_elem_of_here.
Qed.

(** The voter hears of the term and votes. *)
Lemma hear_vote_acts s v c c' args l : proto_inv s → node_ok s v c →
  p_cands s (rv_term args) (rv_candidate_id args) = Some l →
  rv_last_log_index args = zlen l → rv_last_log_term args = final_term l →
  let t := current_term (rc_hard c) in
  let h := hard_at (rv_term args) (rc_hard c) in
  t ≤ rv_term args →
  log_up_to_date (rv_last_log_term args, rv_last_log_index args)
    (last_log_term c, last_log_index c) = true →
  voted_for h = None ∨ voted_for h = Some (rv_candidate_id args) →
  essence c' = essence (set_role (if t <? rv_term args then Follower else rc_role c)
    (set_hard (MkHardState (rv_term args) (Some (rv_candidate_id args))) c)) →
  ∃ s', rtc (acts v) s s' ∧ node_ok s' v c'
    ∧ (v, rv_term args, rv_candidate_id args) ∈ p_votes s'.
Proof.
  move=> I N C Eli Elt t h Ht Hnew Hfree E. set (r := if t <? rv_term args then _ else _) in E.
  have [s1 [A1 [N1 Hlog]]] : ∃ s1, rtc (acts v) s s1 ∧ node_ok s1 v (set_role r (set_hard h c))
    ∧ p_log s1 = p_log s.
  { apply: hear_term => //; rw /r -/t; case: Z.ltb_spec => //; auto; lia. }
  have [I1 G1] := acts_inv _ _ _ I A1.
  have [s2 [A2 [N2 V]]] := vote_acts s1 v _ c' args l I1 N1 (g_cands _ _ G1 _ _ _ C)
    ltac:(rw /= /h /hard_at -/t; case: Z.ltb_spec => //=; lia)
    ltac:(rw Hlog; apply up_to_date_ok; have [<- <-] := last_log_ok _ _ _ N; by rw -Eli -Elt) Hfree E.
  exists s2. split_and! => //. by trans s1.
Qed.

(** ** Committing *)

Lemma reached_fmap (f : Z → Z) k l : reached k (f <$> l) = length (filter (λ p, k ≤ f p) l).
Proof.
  rw /reached. induction l as [|p l IH] => //=. rw !filter_cons. case_decide => /=; by rw IH.
Qed.

(** How far a leader believes each node to be. *)
Definition matched n c (p : Z) : Z :=
  if decide (p = n) then last_log_index c else default 0 (rc_match_index c !! p).

(** The nodes that a leader counts as having its log up to [k]. *)
Lemma counted_nodes s n c k : NoDup members → proto_inv s → node_ok s n c → rc_role c = Leader → 0 < k →
  core_quorum c ≤ Z.of_nat (reached k (match_indices c)) →
  ∃ q, is_quorum q ∧ ∀ v, v ∈ q → ∃ j, (v, p_term s n, j) ∈ p_acks s ∧ k ≤ Z.of_nat j.
Proof.
  move=> ND I N Hl Hk. have El := proj1 (last_log_ok _ _ _ N).
  have Hnd : NoDup (n :: rc_peers c) by rw (ok_peers _ _ _ N).
  apply NoDup_cons in Hnd as [Hn Hnd].
  set (f := matched n c).
  assert (match_indices c = f <$> (rc_peers c ++ [n])) as ->.
  { rw /match_indices fmap_app /=. f_equal; last by rw /f /matched decide_True.
    apply list_fmap_ext => i p Hp. rw /f /matched decide_False // => ?; subst p.
    by apply list_elem_of_lookup_2 in Hp. }
  rw reached_fmap => Hq. exists (filter (λ p, k ≤ f p) (rc_peers c ++ [n])). split.
  - rw /core_quorum (ok_size _ _ _ N) in Hq. split_and! => //.
    + apply NoDup_filter, NoDup_app. split_and! => //; last by apply NoDup_singleton.
      move=> x ? /list_elem_of_singleton ?. by subst.
    + move=> x. rw list_elem_of_filter elem_of_app list_elem_of_singleton -(ok_peers _ _ _ N).
      rw elem_of_cons. tauto.
  - move=> v. rw list_elem_of_filter /f /matched => -[+ _]. case_decide as Hv.
    + subst v. rw El => ?. eexists. split; [by apply: ok_own N Hl | done].
    + case E: (rc_match_index c !! v) => [i|] /= ?; last lia.
      case: (ok_match _ _ _ N _ _ Hl E) => [?|[j [? ?]]]; first lia. exists j. split => //. lia.
Qed.

Lemma quorum_inhabited q : is_quorum q → ∃ v, v ∈ q.
Proof. move=> Q. have [v [? _]] := quorum_meet _ _ Q Q. by exists v. Qed.

Lemma leader_log s n c : proto_inv s → node_ok s n c → rc_role c = Leader →
  p_log s n = p_tlog s (p_term s n).
Proof. move=> I N /(ok_elected _ _ _ N) [q E]. by apply: pi_leader I _ _ _ E _. Qed.

Lemma node_ok_commit s n c k cm : node_ok s n c → rc_commit_index c ≤ Z.of_nat k →
  node_ok (MkProto (p_term s) (p_log s) (<[n := k]> (p_commit s)) (p_votes s) (p_cands s)
             (p_elected s) (p_elog s) (p_tlog s) (p_acks s) cm) n (set_commit_index (Z.of_nat k) c).
Proof.
  move=> [] *. split => //=; [lia | by rw fn_lookup_insert].
Qed.

Lemma commit_acts s n c k : NoDup members → proto_inv s → node_ok s n c → rc_role c = Leader →
  commits c k → ∃ s', rtc (acts n) s s' ∧ node_ok s' n (set_commit_index k c).
Proof.
  move=> ND I N Hl. case=> [->|[Hlt [Ht Hq]]]; first by exists s; destruct c.
  have Hk : 0 < k by rw (ok_commit _ _ _ N) in Hlt; lia.
  have [q [Q A]] := counted_nodes _ _ _ _ ND I N Hl Hk Hq.
  have Elog := leader_log _ _ _ I N Hl.
  have Hlen : k ≤ zlen (p_log s n).
  { have [v Hv] := quorum_inhabited _ Q. have [j [Aj ?]] := A v Hv.
    have [_ [_ [? _]]] := pi_acks _ I _ _ _ Aj. rw /zlen Elog. lia. }
  have Ha := ok_applied _ _ _ N. rw (node_term_at _ _ _ _ N) in Ht; first lia.
  have Hke : S (pred (Z.to_nat k)) = Z.to_nat k by lia. rw -Hke in Ht. simpl in Ht.
  have [e He] : is_Some (p_log s n !! pred (Z.to_nat k)) by apply lookup_lt_is_Some; rw /zlen in Hlen; lia.
  rw He /= -(ok_term _ _ _ N) in Ht. case: Ht => Hte.
  pose s1 := MkProto (p_term s) (p_log s) (p_commit s) (p_votes s) (p_cands s) (p_elected s)
    (p_elog s) (p_tlog s) (p_acks s) ((p_term s n, Z.to_nat k) :: p_committed s).
  eexists. split.
  - apply: (rtc_l _ _ s1).
    + split; last acting. rw /s1 -Hke. apply: (st_commit s _ _ q e) => //.
      * move=> v /A [j [? ?]]. exists j. split => //. lia.
      * by rw -Elog.
    + apply: acts_once; [apply: (st_learn s1 n (p_term s n) (Z.to_nat k) (Z.to_nat k)) => //=|acting].
      * apply list_elem_of_here.
      * rw -Elog. apply take_of_prefix.
  - have := node_ok_commit s n c (Z.to_nat k) (p_committed s1) N ltac:(lia). rw Z2Nat.id //. lia.
Qed.

(** ** Leading *)

Lemma numbered_snoc l e : consecutive 0 l → e_index e = zlen l + 1 → consecutive 0 (l ++ [e]).
Proof.
  move=> C He k x /lookup_app_Some [/C //|[Hk Hx]]. apply list_lookup_singleton_Some in Hx as [Hk0 <-].
  rw He /zlen. lia.
Qed.

Lemma append_acts s n c cmd : proto_inv s → node_ok s n c → rc_role c = Leader → log_room c →
  ∃ s', rtc (acts n) s s' ∧ node_ok s' n (appended cmd c).
Proof.
  move=> I N Hl Hr. rw /log_room in Hr. have [El _] := last_log_ok _ _ _ N.
  have Hz := zlen_nonneg (p_log s n).
  rw /appended u64_add_small; first lia. set (e := MkLogEntry _ _ cmd).
  have [q E] := ok_elected _ _ _ N Hl. have Et := ok_term _ _ _ N.
  eexists. split.
  - apply: acts_once; [apply: (st_append s n (p_term s n) q e (p_log s n ++ [e])) => //=|acting].
  - have B := ok_base _ _ _ N. rw /zlen in B.
    have Eb : prev_term (Z.to_nat (snap_index c)) (p_log s n ++ [e]) = prev_term (Z.to_nat (snap_index c)) (p_log s n).
    { apply prev_term_take. rw take_app_le //. lia. }
    case: (N) => *. split => //=; rw ?fn_lookup_insert ?Eb //.
    + by apply: numbered_snoc; rw /e ?El.
    + rw zlen_app zlen_cons zlen_nil. lia.
    + rw zlen_app zlen_cons zlen_nil /zlen. lia.
    + rw drop_app_le; first lia. by rw (ok_entries _ _ _ N).
    + by rw Hl.
    + move=> _. apply list_elem_of_here.
    + move=> p i _ H. rw zlen_app zlen_cons zlen_nil. have := ok_next _ _ _ N p i Hl H. lia.
    + move=> p i _ H. case: (ok_match _ _ _ N p i Hl H) => [?|[j [? ?]]]; [by left | right].
      exists j. split => //. by apply list_elem_of_further.
Qed.

Lemma foldl_insert_lookup (v : Z) (l : list Z) (m : gmap Z Z) p i :
  foldl (λ m peer, <[peer := v]> m) m l !! p = Some i → i = v ∨ m !! p = Some i.
Proof.
  revert m. induction l as [|x l IH] => m /=; first by right. move=> /IH [?|]; first by left.
  case: (decide (x = p)) => [->|?]; [rw lookup_insert_eq => -[<-]; by left | rw lookup_insert_ne //; by right].
Qed.

Lemma win_acts s x c q : proto_inv s → node_ok s x c → rc_role c = Candidate → log_room c →
  is_quorum q → x ∈ q → (∀ v, v ∈ q → (v, p_term s x, x) ∈ p_votes s) →
  ∃ s', rtc (acts x) s s' ∧ node_ok s' x (become_leader c).
Proof.
  move=> I N Hc Hr Q Hx V. rw /log_room in Hr. have [_ [l C]] := pi_votes _ I _ _ _ (V x Hx).
  have [? Not] := ok_candidate _ _ _ N _ Hc C. subst l.
  have [El _] := last_log_ok _ _ _ N. have Hz := zlen_nonneg (p_log s x).
  have E : p_elected s (p_term s x) = None.
  { case E: (p_elected s (p_term s x)) => [[y q']|//]. have [Q' [_ [_ [_ V']]]] := pi_elected _ I _ _ _ E.
    have [v [Hv Hv']] := quorum_meet _ _ Q Q'. have [Vy _] := V' _ Hv'.
    have ? := pi_vote_unique _ I _ _ _ _ (V v Hv) Vy. subst y. by case: (Not q'). }
  eexists. split.
  - apply: acts_once; [apply: (st_win s x (p_term s x) q) => //|acting].
  - case: (N) => *. split => //=; rw ?fn_lookup_insert //.
    + move=> _. by exists q.
    + move=> _. apply list_elem_of_here.
    + move=> p i _ /foldl_insert_lookup [->|]; last by rw lookup_empty.
      rw u64_add_small; lia.
    + move=> p i _ /foldl_insert_lookup [->|]; last by rw lookup_empty. by left.
Qed.

(** The leader appends an entry and looks at the commit index. *)
Lemma append_commit_acts s n c cmd k : NoDup members → proto_inv s → node_ok s n c →
  rc_role c = Leader → log_room c → commits (appended cmd c) k →
  ∃ s', rtc (acts n) s s' ∧ node_ok s' n (set_commit_index k (appended cmd c)).
Proof.
  move=> ND I N Hl Hr Hk. have [s1 [A1 N1]] := append_acts _ _ _ cmd I N Hl Hr.
  have [I1 _] := acts_inv _ _ _ I A1.
  have [s2 [A2 N2]] := commit_acts _ _ _ _ ND I1 N1 Hl Hk.
  exists s2. split => //. by trans s1.
Qed.


(** ** Following *)

(** The loop of [handle_append_entries] accepts the leader's log. *)
Lemma graft_accept s old l p : matching s old → matching s l → (p ≤ length l)%nat →
  take p old = take p l → graft p (drop p l) old = if decide (l `prefix_of` old) then old else l.
Proof.
  move=> Mo Ml. move Ed : (drop p l) => d. elim: d p Ed => [|e d IH] p Ed Hp Etake /=.
  { have Hlen : length l = p. { have := f_equal length Ed. rw length_drop /=. lia. }
    rw decide_True //. rw -(firstn_all l) Hlen -Etake. apply take_of_prefix. }
  have He : l !! p = Some e. { have := lookup_drop l p 0. by rw Ed Nat.add_0_r. }
  have Hd : drop (S p) l = d. { move: (drop_S _ _ _ He). rw Ed. by case. }
  have Esplit : take p old ++ e :: d = l by rw Etake -Ed take_drop.
  case Eo : (old !! p) => [x|].
  - case: (Z.eqb_spec (e_term x) (e_term e)) => Ht.
    + apply: IH => //; first by apply lookup_lt_Some in He. by apply: matching_same Mo Ml Eo He Ht.
    + rw Esplit decide_False // => P. have := lookup_of_prefix _ _ _ _ P He. rw Eo => -[?]. by subst.
  - have Hlen : (length old ≤ p)%nat by apply lookup_ge_None. rw take_ge // in Esplit. rw Esplit.
    rw decide_False // => P. have := lookup_of_prefix _ _ _ _ P He. by rw Eo.
Qed.

(** The loop runs on the entries in memory. *)
Lemma grafted_drop s v c p l : node_ok s v c →
  let b := Z.to_nat (snap_index c) in
  let m := (p `max` b)%nat in
  grafted (Z.of_nat p) (drop p l) c = drop b (graft m (drop m l) (p_log s v)).
Proof.
  move=> N b m. have B := ok_base _ _ _ N. rw /zlen in B.
  have Eb : Z.of_nat b = snap_index c by rw /b; lia.
  have Hb : length (take b (p_log s v)) = b by rw length_take /b; lia.
  have D : ∀ q es, graft q es (drop b (p_log s v)) = drop b (graft (b + q) es (p_log s v)).
  { move=> q es. have := graft_app (take b (p_log s v)) q es (drop b (p_log s v)).
    rw Hb take_drop => ->. by rw drop_app_length'. }
  rw /grafted (ok_entries _ _ _ N) -/b D. f_equal. rw /m. case: (decide (b ≤ p)%nat) => ?.
  - rw Nat.max_l //. have -> : Z.to_nat (snap_index c - Z.of_nat p) = 0%nat by lia.
    rw drop_0. f_equal. lia.
  - rw Nat.max_r; first lia. rw drop_drop. f_equal; first lia. f_equal. lia.
Qed.

(** What is below a node's snapshot, the leader of its term has. *)
Lemma committed_prefix s v c k : proto_inv s → node_ok s v c → is_Some (p_elected s (p_term s v)) →
  (k ≤ p_commit s v)%nat → take k (p_log s v) `prefix_of` p_tlog s (p_term s v).
Proof.
  move=> I N E Hk. case: (decide (k = 0)%nat) => [->|?]; first by rw take_0; apply prefix_nil.
  have [t [m [C [Hm [Ht P]]]]] := pi_commit _ I v ltac:(lia). have [_ ?] := committed_elected _ I _ _ C.
  trans (take m (p_tlog s t)); last by apply committed_line.
  have -> : take k (p_log s v) = take k (p_tlog s t); last by apply take_shorter; lia.
  rw (take_prefix_of k _ _ P); first by rw length_take; lia. by rw take_take Nat.min_l.
Qed.

Lemma graft_node s v c p l : proto_inv s → node_ok s v c → is_Some (p_elected s (p_term s v)) →
  l `prefix_of` p_tlog s (p_term s v) → (p ≤ length l)%nat →
  let b := Z.to_nat (snap_index c) in
  ((b ≤ p)%nat → take p (p_log s v) = take p l) →
  let m := (p `max` b)%nat in
  graft m (drop m l) (p_log s v) = if decide (l `prefix_of` p_log s v) then p_log s v else l.
Proof.
  move=> I N E P Hp b Hprev m. have Mo : matching s (p_log s v) by apply pi_log.
  have Ml : matching s l by apply: (matching_prefix _ _ _ P); apply pi_tlog.
  case: (decide (b ≤ p)%nat) => Hbp.
  { have -> : m = p by rw /m; lia. apply: graft_accept Mo Ml Hp _. by apply Hprev. }
  have -> : m = b by rw /m; lia. have Ha := ok_applied _ _ _ N. have Hk := ok_commit _ _ _ N.
  have Pb := committed_prefix _ _ _ b I N E ltac:(rw /b; lia). have B := ok_base _ _ _ N. rw /zlen in B.
  have Hb : length (take b (p_log s v)) = b by rw length_take /b; lia.
  case: (decide (b ≤ length l)%nat) => Hbl.
  - apply: (graft_accept _ _ _ _ Mo Ml Hbl). have <- := take_prefix_of b _ _ P Hbl.
    have ? := prefix_length _ _ P.
    apply prefix_length_eq; last by rw Hb length_take; lia.
    apply: (prefix_shorter _ _ _ Pb (take_of_prefix _ _)). rw Hb length_take. lia.
  - rw drop_ge /=; first lia. rw decide_True //. trans (take b (p_log s v)); last apply take_of_prefix.
    apply: (prefix_shorter _ _ _ P Pb). lia.
Qed.

(** The check before the loop. *)
Lemma matching_prev s v c args p l : proto_inv s → node_ok s v c → matching s l →
  ae_prev_log_index args = Z.of_nat p → (p ≤ length l)%nat → ae_prev_log_term args = prev_term p l →
  matching_conflict args c = None → (Z.to_nat (snap_index c) ≤ p)%nat →
  take p (p_log s v) = take p l.
Proof.
  move=> I N Ml Ep Hp Et Hm Hb. have [Mc _] := pi_log _ I v. have Hlen := matching_conflict_prev _ _ Hm.
  have [El _] := last_log_ok _ _ _ N. rw El Ep in Hlen. have B := ok_base _ _ _ N.
  move: Hm. rw /matching_conflict El Ep Et. case: Z.ltb_spec => [|_]; first lia.
  rw (node_term_at _ _ _ _ N); first lia. case: Z.eqb_spec => // + _. rw Nat2Z.id.
  case: p Ep Hp Et Hlen Hb => [//|i] Ep Hp Et Hlen Hb. rw /zlen in Hlen.
  have [e He] : is_Some (l !! i) by apply lookup_lt_is_Some; lia.
  have [x Hx] : is_Some (p_log s v !! i) by apply lookup_lt_is_Some; lia.
  rw /= He Hx /=. by apply: matching_same.
Qed.

(** A follower's log has changed. *)
Lemma node_ok_log s s' n c l : proto_inv s → rtc proto_step s s' → node_ok s n c →
  rc_role c = Follower → p_log s' n = l → consecutive 0 l → zlen l < u64_max →
  p_term s' = p_term s → p_commit s' = p_commit s → p_votes s' = p_votes s →
  node_ok s' n (set_entries (drop (Z.to_nat (snap_index c)) l) c).
Proof.
  move=> I R N Hf El C Hl Et Ek Ev. have [B Bt] := base_kept _ _ _ _ I R N ltac:(by rw Ek).
  rw El in B Bt. have ? := ok_base _ _ _ N.
  case: (N) => *. split => //=; rw ?El ?Et ?Ek ?Ev ?Hf ?Bt //. rw /zlen. lia.
Qed.

(** The follower takes what the leader has sent. *)
Lemma accept_log_acts s v c t l : proto_inv s → node_ok s v c → rc_role c = Follower →
  p_term s v = t → is_Some (p_elected s t) → l `prefix_of` p_tlog s t →
  consecutive 0 l → zlen l < u64_max →
  let es := if decide (l `prefix_of` p_log s v) then p_log s v else l in
  ∃ s', rtc (acts v) s s' ∧ node_ok s' v (set_entries (drop (Z.to_nat (snap_index c)) es) c)
    ∧ p_log s' v = es ∧ l `prefix_of` es
    ∧ (v, t, length l) ∈ p_acks s' ∧ p_tlog s' = p_tlog s ∧ p_committed s' = p_committed s.
Proof.
  move=> I N Hf Ht E P C Hl es. have Hle := prefix_length _ _ P.
  have Hacc : accept (length l) (p_tlog s t) (p_log s v) = es.
  { rw /accept /es. have -> : take (length l) (p_tlog s t) = l; last done.
    by rw (take_prefix_of _ _ _ P) // firstn_all. }
  pose proof (st_accept s v t (length l) Ht E Hle) as St. rw Hacc in St. eexists. split_and!.
  - apply: acts_once; [exact St|acting].
  - apply: (node_ok_log s) => //; [by apply rtc_once | by rw /= fn_lookup_insert | |].
    + rw /es. case_decide; [by apply N | done].
    + rw /es. case_decide; [by apply N | done].
  - by rw /= fn_lookup_insert.
  - rw /es. by case_decide.
  - apply list_elem_of_here.
  - done.
  - done.
Qed.

(** The follower is interrupted while it does. *)
Lemma cut_log_acts s v c t l : proto_inv s → node_ok s v c → rc_role c = Follower →
  p_term s v = t → is_Some (p_elected s t) → l `prefix_of` p_tlog s t →
  consecutive 0 l → zlen l < u64_max →
  (∀ q, q `prefix_of` p_tlog s t → q `prefix_of` p_log s v → q `prefix_of` l) →
  ∃ s', rtc (acts v) s s' ∧ node_ok s' v (set_entries (drop (Z.to_nat (snap_index c)) l) c).
Proof.
  move=> I N Hf Ht E P C Hl K.
  have El : take (length l) (p_tlog s t) = l by rw (take_prefix_of _ _ _ P) // firstn_all.
  pose proof (st_cut s v t (length l) Ht E ltac:(by rw El)) as St. rw El in St. eexists. split.
  - apply: acts_once; [exact St|acting].
  - apply: (node_ok_log s) => //; [by apply rtc_once | by rw /= fn_lookup_insert].
Qed.

Lemma learn_acts s n c k t : node_ok s n c → p_term s n = t →
  known_committed s k t (p_log s n) → 0 < k → rc_commit_index c < k →
  ∃ s', rtc (acts n) s s' ∧ node_ok s' n (set_commit_index k c) ∧ p_acks s' = p_acks s.
Proof.
  move=> N Ht [?|[u [m [C [? [? P]]]]]] Hk Hlt; first lia. eexists. split_and!.
  - apply: acts_once; [apply: (st_learn s n u m (Z.to_nat k)) => //|acting].
    + lia.
    + lia.
  - have := node_ok_commit s n c (Z.to_nat k) (p_committed s) N ltac:(lia). rw Z2Nat.id //. lia.
  - done.
Qed.

Lemma append_sent p (l : list LogEntry) : (p ≤ length l)%nat →
  Z.of_nat p + zlen (drop p l) = zlen l.
Proof. move=> ?. rw /zlen length_drop. lia. Qed.

(** The loop puts the leader's log in place, as far as the message goes. *)
Lemma grafted_ok s v c args p l : proto_inv s → node_ok s v c → is_Some (p_elected s (p_term s v)) →
  l `prefix_of` p_tlog s (p_term s v) →
  ae_prev_log_index args = Z.of_nat p → (p ≤ length l)%nat → ae_prev_log_term args = prev_term p l →
  matching_conflict args c = None →
  grafted (ae_prev_log_index args) (drop p l) c
    = drop (Z.to_nat (snap_index c)) (if decide (l `prefix_of` p_log s v) then p_log s v else l).
Proof.
  move=> I N E P Ep Hp Et Hm. rw Ep (grafted_drop _ _ _ _ _ N). f_equal.
  apply: (graft_node _ _ _ _ _ I N E P Hp) => Hb.
  apply: (matching_prev _ _ _ _ _ _ I N _ Ep Hp Et Hm Hb). apply: (matching_prefix _ _ _ P). by apply pi_tlog.
Qed.

Lemma accept_acts s v c args : proto_inv s → node_ok s v c → append_ok s args →
  current_term (rc_hard c) = ae_term args → rc_role c = Follower → matching_conflict args c = None →
  let c2 := set_entries (grafted (ae_prev_log_index args) (ae_entries args) c) c in
  ∃ s', rtc (acts v) s s'
    ∧ node_ok s' v (set_commit_index
        (if rc_commit_index c <? ae_leader_commit args
         then Z.min (ae_leader_commit args) (last_log_index c2) else rc_commit_index c) c2)
    ∧ ∃ j, (v, ae_term args, j) ∈ p_acks s' ∧ last_sent args = Z.of_nat j.
Proof.
  move=> I N [[q E] [p [l [P [Ep [Hp [Et [Ee [C [Hl [Hlc K]]]]]]]]]]] Ht Hf Hm c2.
  have Hpt : p_term s v = ae_term args by rw (ok_term _ _ _ N).
  have Egr := grafted_ok s v c args p l I N ltac:(rw Hpt; by eexists) ltac:(by rw Hpt) Ep Hp Et Hm.
  have [s1 [A1 [N1 [El1 [Pl [Ack [Etl Ecm]]]]]]] :=
    accept_log_acts s v c _ l I N Hf Hpt (ex_intro _ _ E) P C Hl.
  rw -Egr -Ee in N1. have {}N1 : node_ok s1 v c2 by done. rw -El1 in Pl.
  have Hsent : last_sent args = Z.of_nat (length l).
  { rw /last_sent Ep Ee. have := append_sent p l Hp. rw /zlen => ?. have := zlen_nonneg l.
    rw u64_add_small; rw /zlen in Hl *; lia. }
  case: (Z.ltb_spec (rc_commit_index c) (ae_leader_commit args)) => Hlt; last first.
  { exists s1. split_and! => //. by exists (length l). }
  have -> : Z.min (ae_leader_commit args) (last_log_index c2) = ae_leader_commit args.
  { have [-> _] := last_log_ok _ _ _ N1. apply prefix_length in Pl. rw /zlen in Hlc *. lia. }
  have Hk : 0 < ae_leader_commit args by rw (ok_commit _ _ _ N) in Hlt; lia.
  have Ht1 : p_term s1 v = ae_term args by rw (ok_term _ _ _ N1).
  have K1 : known_committed s1 (ae_leader_commit args) (ae_term args) (p_log s1 v).
  { case: K => [?|[u [m [? [? [? ?]]]]]]; [by left | right]. exists u, m. rw Ecm Etl. split_and! => //.
    by trans l. }
  have [s2 [A2 [N2 Ea]]] := learn_acts _ _ _ _ _ N1 Ht1 K1 Hk Hlt.
  exists s2. split_and! => //; [by trans s1 | exists (length l); by rw Ea].
Qed.

(** Only a log that is not a prefix yet is replaced: the rest is common. *)
Lemma common_prefix (t l o q : list LogEntry) : l `prefix_of` t → ¬ l `prefix_of` o →
  q `prefix_of` t → q `prefix_of` o → q `prefix_of` l.
Proof. move=> Pl Nl Pq Po. case: (prefix_comparable _ _ _ Pq Pl) => // P. case: Nl. by trans q. Qed.

(** The loop cut off in the middle. *)
Lemma interrupted_acts s v c args es' : proto_inv s → node_ok s v c → append_ok s args →
  current_term (rc_hard c) = ae_term args → rc_role c = Follower → matching_conflict args c = None →
  interrupted (ae_prev_log_index args) (ae_entries args) c es' →
  ∃ s', rtc (acts v) s s' ∧ node_ok s' v (set_entries es' c).
Proof.
  move=> I N [[q E] [p [l [P [Ep [Hp [Et [Ee [C [Hl _]]]]]]]]]] Ht Hf Hm [j Hj].
  have Hpt : p_term s v = ae_term args by rw (ok_term _ _ _ N).
  set (l' := take (p + j) l). have Pl : l' `prefix_of` l by apply take_of_prefix.
  have P' : l' `prefix_of` p_tlog s (ae_term args) by trans l.
  have Hp' : (p ≤ length l')%nat by rw /l' length_take; lia.
  have Ed : take j (ae_entries args) = drop p l' by rw Ee /l' take_drop_commute.
  have Et' : ae_prev_log_term args = prev_term p l'.
  { rw Et. apply prev_term_take. rw /l' take_take Nat.min_l //. lia. }
  have Egr := grafted_ok s v c args p l' I N ltac:(rw Hpt; by eexists) ltac:(by rw Hpt) Ep Hp' Et' Hm.
  have C' : consecutive 0 l' by move=> k e /lookup_take_Some [/C ? _].
  have Hl' : zlen l' < u64_max by rw /zlen /l' length_take; rw /zlen in Hl; lia.
  have B := ok_base _ _ _ N. rw -Ed in Egr. rw Egr in Hj.
  have cut : ∀ K, ∃ s', rtc (acts v) s s' ∧ node_ok s' v (set_entries (drop (Z.to_nat (snap_index c)) l') c)
    := cut_log_acts s v c _ l' I N Hf Hpt (ex_intro _ _ E) P' C' Hl'.
  case: Hj => [->|[Eg [Hb [-> [x [e [Hx [He Hne]]]]]]]].
  - case_decide as Hd.
    + exists s. split => //. have <- := ok_entries _ _ _ N. by destruct c.
    + apply: cut => y Py Po. by apply: (common_prefix _ _ _ _ P' Hd Py Po).
  - rw Ep in Hb Hx *. have -> : Z.to_nat (Z.of_nat p + Z.of_nat j - snap_index c)
      = (p + j - Z.to_nat (snap_index c))%nat by lia.
    rw (ok_entries _ _ _ N) lookup_drop in Hx.
    have Ex : (Z.to_nat (snap_index c) + Z.to_nat (Z.of_nat p + Z.of_nat j - snap_index c) = p + j)%nat by lia.
    rw Ex in Hx. rw Ee lookup_drop in He. have Hlen := lookup_lt_Some _ _ _ He. have Hlx := lookup_lt_Some _ _ _ Hx.
    have Hll : length l' = (p + j)%nat by rw /l' length_take; lia.
    have Pd : l' `prefix_of` p_log s v.
    { move: Eg. rw (ok_entries _ _ _ N). case_decide => // /(f_equal length). rw !length_drop. lia. }
    have -> : take (p + j - Z.to_nat (snap_index c)) (rc_entries c) = drop (Z.to_nat (snap_index c)) l'.
    { rw (ok_entries _ _ _ N) take_drop_commute. f_equal.
      have -> : (Z.to_nat (snap_index c) + (p + j - Z.to_nat (snap_index c)) = p + j)%nat by lia.
      by rw -{1}Hll (take_prefix_of _ _ _ Pd) // firstn_all. }
    apply: cut => y Py Po. case: (prefix_comparable _ _ _ Py P') => // -[[|z r] Er].
    + rw Er app_nil_r. done.
    + exfalso. have Hy : y !! (p + j)%nat = Some z by rw Er -Hll list_lookup_middle.
      have H1 := lookup_of_prefix _ _ _ _ Po Hy. rw Hx in H1. case: H1 => ?; subst z.
      have H2 := lookup_of_prefix _ _ _ _ Py Hy. rw (lookup_of_prefix _ _ _ _ P He) in H2. by case: H2 => ?; subst.
Qed.

(** ** Sending *)

Lemma node_commit s n c : proto_inv s → node_ok s n c →
  rc_commit_index c ≤ zlen (p_log s n)
  ∧ known_committed s (rc_commit_index c) (p_term s n) (p_log s n).
Proof.
  move=> I N. have ? := commit_within _ I n. rw (ok_commit _ _ _ N). split; first by rw /zlen; lia.
  case: (decide (p_commit s n = 0)%nat) => [->|?]; first by left. right.
  have [t [m [? [? [? ?]]]]] := pi_commit _ I n ltac:(lia). exists t, m. rw Nat2Z.id.
  split_and! => //. lia.
Qed.

Lemma send_ok s x c peer : proto_inv s → node_ok s x c → rc_role c = Leader → has_next peer c →
  append_ok s (build_append_entries peer c).
Proof.
  move=> I N Hl. have [El _] := last_log_ok _ _ _ N. have Hw := node_wf _ _ _ N.
  have B := ok_base _ _ _ N. have Hb := ok_bound _ _ _ N. rw /has_next.
  set (next := default (u64_add (last_log_index c) 1) (rc_next_index c !! peer)) => Hbn.
  have Hnx : 1 ≤ next ≤ zlen (p_log s x) + 1.
  { rw /next. case En: (rc_next_index c !! peer) => [i|] /=; first by apply: ok_next N _ _ Hl En.
    rw El u64_add_small; lia. }
  have [Hc K] := node_commit _ _ _ I N. have Hsub : saturating_sub next 1 = next - 1 by rw /saturating_sub; lia.
  split => /=.
  { have [q E] := ok_elected _ _ _ N Hl. exists q. by rw -(ok_term _ _ _ N) (ok_id _ _ _ N). }
  exists (Z.to_nat (next - 1)), (p_log s x). rw -/next -(ok_term _ _ _ N) Hsub. split_and! => //.
  - by rw (leader_log _ _ _ I N Hl).
  - lia.
  - rw /zlen in Hnx. lia.
  - rw (node_term_at _ _ _ _ N) //. lia.
  - rw entries_from_wf //; first lia. rw (ok_entries _ _ _ N) drop_drop /pos. f_equal. lia.
  - by apply N.
Qed.

(** ** The steps *)

Section steps.
Context (members_distinct : NoDup members) (members_bound : zlen members ≤ u64_max).

(** What a step has to show. *)
Definition follows γ' s : Prop := ∃ s', rtc proto_step s s' ∧ sim γ' s'.

#[local] Ltac moving := by split => //= m ?; rw /insert /fn_insert /=; repeat case_decide; simplify_eq.

Lemma node_size s n c : node_ok s n c →
  rc_cluster_size c = zlen (rc_peers c) + 1 ∧ rc_cluster_size c ≤ u64_max.
Proof.
  move=> N. rw (ok_size _ _ _ N). split => //. rw /zlen -(ok_peers _ _ _ N) /=. lia.
Qed.

(** What a section leaves as it is. *)
Definition kept_applied c c' : Prop := rc_last_applied c' = rc_last_applied c ∧ rc_snapshot c' = rc_snapshot c.

Lemma essence_kept c c' : essence c' = essence c → kept_applied c c'.
Proof. by case. Qed.

(** The node has moved and applied nothing. *)
Lemma sim_moved γ s s' n c c' σ : sim γ s → n ∈ members → rtc (acts n) s s' → node_ok s' n c →
  essence c' = essence c → kept_applied (cl_core γ n) c →
  sim (with_node n c' σ γ) s' ∧ grows s s'.
Proof.
  move=> S Hm A N E [Ea Es]. have N' := node_ok_essence _ _ _ _ E N. have [Ea' Es'] := essence_kept _ _ E.
  apply: (sim_acts _ _ _ _ _ S _ A); first by moving. move=> _ /=. rw !fn_lookup_insert. split => //.
  have N0 := sim_node _ _ S _ Hm. have [St _] := acts_steps _ _ _ A.
  apply: (store_ok_kept _ _ _ _ _ _ _ (sim_store _ _ S _ Hm)); [by rw Ea' Ea | by rw Es' Es |].
  have A0 := ok_applied _ _ _ N0. have A1 := ok_applied _ _ _ N. rw Ea (ok_commit _ _ _ N) in A1.
  rw (ok_commit _ _ _ N0) in A0. apply: (agreement s s') => //; [apply S | lia | lia].
Qed.

Lemma follows_node γ s n c c' σ : sim γ s → n ∈ members → essence c' = essence c →
  kept_applied (cl_core γ n) c →
  (∃ s', rtc (acts n) s s' ∧ node_ok s' n c) → follows (with_node n c' σ γ) s.
Proof.
  move=> S Hm E K [s' [A N]]. exists s'. split; first by apply acts_steps in A as [? _].
  by apply: (proj1 (sim_moved _ _ _ _ _ _ _ S Hm A N E K)).
Qed.

(** Any section may make the node step down. *)
Lemma follows_down γ s n c' σ t : sim γ s → n ∈ members →
  essence c' = essence (set_role Follower (set_hard (hard_at t (rc_hard (cl_core γ n))) (cl_core γ n))) →
  follows (with_node n c' σ γ) s.
Proof.
  move=> S Hn E. apply: (follows_node _ _ _ _ _ _ S Hn E) => //.
  have [s' [? [? _]]] := hear_term s n _ t Follower (sim_inv _ _ S) (sim_node _ _ S n Hn) (or_introl eq_refl) (λ _, ltac:(done)).
  by exists s'.
Qed.

Lemma sim_campaign_step γ n now draw args c σ s : sim γ s →
  runs members γ n (become_candidate now draw) args c σ → term_room (cl_core γ n) →
  follows (with_vote_req args (with_campaign n (rv_term args) [] (with_node n c σ γ))) s.
Proof.
  move=> S [Hn R] Hr. have I := sim_inv _ _ S. have N := sim_node _ _ S n Hn.
  have Hpos := pi_term _ I n. rw (ok_term _ _ _ N) in Hpos.
  have [E Ea] := become_candidate_ok _ _ _ _ _ _ _ (conj Hpos Hr) R.
  rw (ok_id _ _ _ N) in E Ea. have [s' [A [N' [V C]]]] := campaign_acts _ _ _ _ I N E.
  have [[I' N0 ST VQ VP CP AQ AP AD] _] :=
    sim_moved _ _ _ _ _ _ σ S Hn A N' eq_refl (essence_kept _ _ E).
  exists s'. split; first by apply acts_steps in A as [? _]. subst args. split => //=.
  - move=> args'. rw elem_of_cons => -[->|/VQ //]. exists (p_log s n). split => //.
    have [-> ->] := last_log_ok _ _ _ N. done.
  - move=> x t vs. rw elem_of_cons => -[[-> -> ->]|/CP //]. split_and!.
    + apply NoDup_singleton.
    + by move=> y /list_elem_of_singleton ->.
    + move=> v /list_elem_of_singleton ->. done.
Qed.

Lemma sim_vote_step γ v args now draw reply c σ s : sim γ s → args ∈ cl_vote_reqs γ →
  runs members γ v (handle_request_vote args now draw) reply c σ →
  follows (with_vote_rep v args reply (with_node v c σ γ)) s.
Proof.
  move=> S Ha [Hv R]. have I := sim_inv _ _ S. have N := sim_node _ _ S v Hv.
  have [l [C [Eli Elt]]] := sim_vote_req _ _ S _ Ha.
  (* it is enough to know how the node moves, and that a granted vote is cast *)
  have post : (∃ s', rtc (acts v) s s' ∧ node_ok s' v c ∧ kept_applied (cl_core γ v) c ∧
    (rvr_vote_granted reply = true → (v, rv_term args, rv_candidate_id args) ∈ p_votes s')) →
    follows (with_vote_rep v args reply (with_node v c σ γ)) s.
  { move=> [s' [A [N' [Ea V]]]].
    have [[I' N0 ST VQ VP CP AQ AP AD] _] := sim_moved _ _ _ _ _ _ σ S Hv A N' eq_refl Ea.
    exists s'. split; first by apply acts_steps in A as [? _]. split => //=.
    move=> v' args' reply'. rw elem_of_cons => -[[-> -> ->] G|/VP //]. by auto. }
  apply: post. have := handle_request_vote_ok _ _ _ _ _ _ _ _ R. cbn zeta.
  case: Z.ltb_spec => Hlt.
  { move=> [-> E]. exists s. split_and! => //; [by apply: node_ok_essence E N | by apply: essence_kept E]. }
  case Eg : (rvr_vote_granted reply); last first.
  { move=> E. have [s1 [A1 [N1 _]]] : ∃ s1, _ := hear_term s v _ (rv_term args)
      (if current_term (rc_hard (cl_core γ v)) <? rv_term args then Follower else rc_role (cl_core γ v)) I N
      ltac:(case: Z.ltb_spec; auto) ltac:(case: Z.ltb_spec => //; lia).
    exists s1. split_and! => //; [by apply: node_ok_essence E N1 | by apply: essence_kept E]. }
  move=> [Hnew [Hfree E]].
  have [s2 [A2 [N2 V]]] := hear_vote_acts s v _ c args l I N C Eli Elt Hlt Hnew Hfree E.
  exists s2. split_and! => //. by apply: essence_kept E.
Qed.

(** The voters of a campaign, with the one whose reply is treated. *)
Lemma campaign_quorum γ s x t vs v args reply : sim γ s → x ∈ members →
  answers γ x t vs v args reply →
  rvr_vote_granted reply = true →
  NoDup (x :: v :: vs) ∧ x :: v :: vs ⊆ members ∧ ∀ y, y ∈ x :: v :: vs → (y, t, x) ∈ p_votes s.
Proof.
  move=> S Hx [/(sim_campaign _ _ S) [Hnd [Hsub V]] R Ht Hc Hv Hnv] G. subst t x.
  have [Hm Vv] := sim_vote_rep _ _ S _ _ _ R G. set (x := rv_candidate_id args) in *.
  have Hnx : v ≠ x.
  { move=> E. have N := sim_node _ _ S x Hx. have D : NoDup (x :: rc_peers (cl_core γ x)).
    - by rw (ok_peers _ _ _ N).
    - apply NoDup_cons in D as [D _]. by subst v. }
  apply NoDup_cons in Hnd as [Hxv Hnd]. split_and!.
  - rw !NoDup_cons not_elem_of_cons. by split_and!.
  - move=> y. rw !elem_of_cons => -[->|[->|Hy]] //. apply Hsub. by apply list_elem_of_further.
  - move=> y. rw !elem_of_cons => -[->|[->|Hy]] //; apply V; [apply list_elem_of_here|].
    by apply list_elem_of_further.
Qed.

(** The votes suffice. *)
Lemma elected_acts γ s x t vs v args reply : sim γ s → x ∈ members → answers γ x t vs v args reply →
  log_room (cl_core γ x) → rc_role (cl_core γ x) = Candidate → current_term (rc_hard (cl_core γ x)) = t →
  rvr_vote_granted reply = true → core_quorum (cl_core γ x) ≤ 1 + zlen vs + 1 →
  ∃ s', rtc (acts x) s s' ∧ node_ok s' x (become_leader (cl_core γ x)).
Proof.
  move=> S Hm Ha Hr Hc Ht G Hq. have N := sim_node _ _ S x Hm.
  have [Q1 [Q2 Q3]] := campaign_quorum _ _ _ _ _ _ _ _ S Hm Ha G.
  rw /core_quorum (ok_size _ _ _ N) in Hq.
  apply: (win_acts s x _ (x :: v :: vs) (sim_inv _ _ S) N Hc Hr).
  - split_and! => //. rw !zlen_cons. lia.
  - apply list_elem_of_here.
  - by rw (ok_term _ _ _ N) Ht.
Qed.

Lemma sim_concluded_step γ x t vs v args reply c σ s : sim γ s →
  answers γ x t vs v args reply →
  runs members γ x (count_vote reply t (1 + zlen vs)) None c σ → log_room (cl_core γ x) →
  follows (with_node x c σ γ) s.
Proof.
  move=> S Ha [Hm R] Hroom. have I := sim_inv _ _ S.
  have N := sim_node _ _ S x Hm. have [Hn1 Hn2] := node_size _ _ _ N.
  have [[E [_ _]]|[[E _]|W]] := count_vote_ok _ _ _ _ _ _ _ _ Hn1 Hn2 R.
  - by apply: follows_down S Hm E.
  - apply: (follows_node _ _ _ _ _ _ S Hm E (conj eq_refl eq_refl)). by exists s.
  - move: W => [Hcand [Hterm [G [Hq [_ [k [Hk E]]]]]]]. apply: (follows_node _ _ _ _ _ _ S Hm E (conj eq_refl eq_refl)).
    have [s1 [A1 N1]] := elected_acts _ _ _ _ _ _ _ _ S Hm Ha Hroom Hcand Hterm G Hq.
    have [I1 _] := acts_inv _ _ _ I A1.
    have [s2 [A2 N2]] := append_commit_acts s1 x _ Noop k members_distinct I1 N1 eq_refl Hroom Hk.
    exists s2. split => //. by trans s1.
Qed.

Lemma sim_counted_step γ x t vs v args reply votes c σ s : sim γ s →
  answers γ x t vs v args reply →
  runs members γ x (count_vote reply t (1 + zlen vs)) (Some votes) c σ →
  follows (with_campaign x t (if rvr_vote_granted reply then v :: vs else vs) (with_node x c σ γ)) s.
Proof.
  move=> S Ha [Hm R]. have I := sim_inv _ _ S.
  have N := sim_node _ _ S x Hm. have [Hn1 Hn2] := node_size _ _ _ N.
  have [[_ [_ ?]]|[[E _]|[_ [_ [_ [_ [? _]]]]]]] // := count_vote_ok _ _ _ _ _ _ _ _ Hn1 Hn2 R.
  have Hq := campaign_quorum _ _ _ _ _ _ _ _ S Hm Ha.
  have Hold := sim_campaign _ _ S _ _ _ (an_campaign _ _ _ _ _ _ _ Ha).
  have [[I' N0 ST VQ VP CP AQ AP AD] _] := sim_moved _ _ s x _ c σ S Hm (rtc_refl _ _) N E (conj eq_refl eq_refl).
  exists s. split => //. split => //= x' t' vs'. rw elem_of_cons => -[[-> -> ->]|/CP //].
  case G : (rvr_vote_granted reply); [by apply Hq | done].
Qed.

Lemma sim_propose_step γ x cmd i c σ s : sim γ s → runs members γ x (propose_section cmd) i c σ →
  log_room (cl_core γ x) → follows (with_node x c σ γ) s.
Proof.
  move=> S [Hm R] Hroom. have N := sim_node _ _ S x Hm. have [Hn1 Hn2] := node_size _ _ _ N.
  have [Hl [_ [k [Hk E]]]] := propose_section_ok _ _ _ _ _ _ Hn1 Hn2 R.
  apply: (follows_node _ _ _ _ _ _ S Hm E (conj eq_refl eq_refl)). apply: append_commit_acts => //. apply S.
Qed.

(** The consequences of what a message carries for the handler. *)
Lemma append_ok_range s args : append_ok s args →
  consecutive (ae_prev_log_index args) (ae_entries args) ∧ 0 ≤ ae_prev_log_index args
  ∧ ae_prev_log_index args + zlen (ae_entries args) < u64_max.
Proof.
  move=> [_ [p [l [P [Ep [Hp [_ [Ee [C [Hl _]]]]]]]]]]. have Hsent := append_sent p l Hp.
  rw Ep Ee. split_and!; [|lia..]. move=> k e. rw lookup_drop => /C ->. lia.
Qed.

Lemma sim_append_step γ v args now draw reply c σ s : sim γ s → (v, args) ∈ cl_append_reqs γ →
  runs members γ v (handle_append_entries args now draw) reply c σ →
  follows (with_append_rep v args reply (with_node v c σ γ)) s.
Proof.
  move=> S Ha [Hm R]. have I := sim_inv _ _ S. have N := sim_node _ _ S v Hm.
  have A := sim_append_req _ _ S _ _ Ha.
  have post : (∃ s', rtc (acts v) s s' ∧ node_ok s' v c
    ∧ kept_applied (cl_core γ v) c ∧ (aer_success reply = true →
    ∃ j, (v, ae_term args, j) ∈ p_acks s' ∧ last_sent args = Z.of_nat j)) →
    follows (with_append_rep v args reply (with_node v c σ γ)) s.
  { move=> [s' [As [N' [Ea V]]]].
    have [[I' N0 ST VQ VP CP AQ AP AD] G] := sim_moved _ _ _ _ _ _ σ S Hm As N' eq_refl Ea.
    exists s'. split; first by apply acts_steps in As as [? _]. split => //=.
    move=> v' args' reply'. rw elem_of_cons => -[[-> -> ->]|/AP //]. split => //.
    by apply: append_ok_grows I G A. }
  apply: post. have [Hc [H0 Hb]] := append_ok_range _ _ A.
  have := handle_append_entries_ok _ _ _ _ _ _ _ _ (node_wf _ _ _ N) Hc H0 Hb R. cbn zeta.
  case: Z.ltb_spec => Hlt.
  { move=> [-> E]. exists s. split_and! => //; [by apply: node_ok_essence E N | by apply: essence_kept E]. }
  have [s1 [A1 [N1 _]]] := hear_term s v _ (ae_term args) Follower I N (or_introl eq_refl) (λ _, ltac:(done)).
  set (c1 := set_role Follower _) in N1 |- *.
  have [I1 G1] := acts_inv _ _ _ I A1.
  case Es : (aer_success reply); last first.
  { move=> E. exists s1. split_and! => //; [by apply: node_ok_essence E N1 | by apply: essence_kept E]. }
  move=> [Hconf E].
  have [s2 [A2 [N2 V]]] := accept_acts s1 v c1 args I1 N1 (append_ok_grows _ _ _ I G1 A)
    ltac:(rw /= /hard_at; case: Z.ltb_spec => //=; lia) eq_refl
    ltac:(by rw (matching_conflict_log _ (cl_core γ v))).
  exists s2. split_and! => //; [by trans s1 | by apply: node_ok_essence E N2 | by apply: essence_kept E].
Qed.

(** A leader notes how far a peer is. *)
Lemma node_ok_indices s x c m nx : node_ok s x c →
  (∀ p i, m !! p = Some i → rc_role c = Leader →
     i ≤ 0 ∨ ∃ j, (p, p_term s x, j) ∈ p_acks s ∧ i ≤ Z.of_nat j) →
  (∀ p i, nx !! p = Some i → rc_role c = Leader → 1 ≤ i ≤ zlen (p_log s x) + 1) →
  node_ok s x (set_next_index nx (set_match_index m c)).
Proof.
  move=> N Hm Hn. case: (N) => *. split => //=.
  - move=> p i ? H. by apply: Hn H _.
  - move=> p i ? H. by apply: Hm H _.
Qed.

(** A message of the leader of this very term. *)
Lemma sent_this_term s x c args term : proto_inv s → node_ok s x c → append_ok s args →
  ae_leader_id args = x → term ≤ ae_term args → current_term (rc_hard c) = term →
  ae_term args = p_term s x.
Proof.
  move=> I N [[q E] _] Hx Ht Hc. rw Hx in E. have [_ [C _]] := pi_elected _ I _ _ _ E.
  have [_ [_ [Hle _]]] := pi_cands _ I _ _ _ C. have := ok_term _ _ _ N. lia.
Qed.

Lemma sim_fold_step γ x v args reply term acks r c σ s : sim γ s →
  acknowledges γ x v args reply term →
  runs members γ x (fold_reply v (last_sent args) reply term acks) r c σ → follows (with_node x c σ γ) s.
Proof.
  move=> S [Hr Hx Ht _] [Hm R]. have I := sim_inv _ _ S. have N := sim_node _ _ S x Hm.
  have [Hn1 Hn2] := node_size _ _ _ N. have [A Hack] := sim_append_rep _ _ S _ _ _ Hr.
  have [[E _]|[E|[Hl [Hc F]]]] := fold_reply_ok _ _ _ _ _ _ _ _ _ _ Hn1 Hn2 R.
  { by apply: follows_down S Hm E. }
  { apply: (follows_node _ _ _ _ _ _ S Hm E (conj eq_refl eq_refl)). by exists s. }
  have Hlog := leader_log _ _ _ I N Hl. have Hb := ok_bound _ _ _ N.
  case Es : (aer_success reply) F => F.
  - move: F => [k [Hk E]]. apply: (follows_node _ _ _ _ _ _ S Hm (f_equal essence E) (conj eq_refl eq_refl)).
    apply: commit_acts => //. have [j [Aj Ej]] := Hack Es.
    rw (sent_this_term _ _ _ _ _ I N A Hx Ht Hc) in Aj.
    have [_ [_ [Hj _]]] := pi_acks _ I _ _ _ Aj. rw -Hlog in Hj. rw /zlen in Hb.
    apply: node_ok_indices => // p i.
    + move=> H _. apply lookup_insert_Some in H as [[<- <-]|[_ H]]; last by apply: ok_match N _ _ Hl H.
      right. exists j. split => //. lia.
    + move=> H _. apply lookup_insert_Some in H as [[<- <-]|[_ H]]; last by apply: ok_next N _ _ Hl H.
      rw Ej /zlen u64_add_small; lia.
  - move: F => [nx [Hnx E]]. apply: (follows_node _ _ _ _ _ _ S Hm (f_equal essence E) (conj eq_refl eq_refl)).
    exists s. split => //.
    have -> : ∀ m, set_next_index m (cl_core γ x)
      = set_next_index m (set_match_index (rc_match_index (cl_core γ x)) (cl_core γ x)) by case: (cl_core γ x).
    apply: node_ok_indices => // p i.
    + move=> H _. by apply: ok_match N _ _ Hl H.
    + move=> H _. apply lookup_insert_Some in H as [[<- <-]|[_ H]]; last by apply: ok_next N _ _ Hl H.
      have := zlen_nonneg (p_log s x).
      case E' : (rc_next_index (cl_core γ x) !! v) Hnx => [i'|] /=; last lia.
      have := ok_next _ _ _ N _ _ Hl E'. lia.
Qed.

(** A section that fails. *)
Lemma sim_failed_step γ n {A} (m : M (RaftCore L * fs) A) r c σ s : sim γ s → n ∈ members →
  starts γ n m → m (cl_core γ n, cl_disk γ n) = (r, (c, σ)) → failed r →
  (rc_role c = Leader → current_term (rc_hard c) = current_term (rc_hard (cl_core γ n))) →
  follows (with_node n c σ γ) s.
Proof.
  move=> S Hm Hs. have I := sim_inv _ _ S. have N := sim_node _ _ S n Hm.
  have [Hn1 Hn2] := node_size _ _ _ N. have Hpos := pi_term _ I n. rw (ok_term _ _ _ N) in Hpos.
  have same : essence c = essence (cl_core γ n) → follows (with_node n c σ γ) s.
  { move=> E. apply: (follows_node _ _ _ _ _ _ S Hm E (conj eq_refl eq_refl)). by exists s. }
  have down : ∀ t, current_term (rc_hard (cl_core γ n)) < t →
    c = set_hard (MkHardState t None) (cl_core γ n) →
    (rc_role c = Leader → current_term (rc_hard c) = current_term (rc_hard (cl_core γ n))) →
    follows (with_node n c σ γ) s.
  { move=> t Ht -> Hl. apply: (follows_node _ _ _ _ _ _ S Hm eq_refl) => //.
    apply: step_down_failed_acts => // /Hl /=. lia. }
  have push : ∀ cmd, rc_role (cl_core γ n) = Leader → log_room (cl_core γ n) →
    essence c = essence (appended cmd (cl_core γ n)) → follows (with_node n c σ γ) s.
  { move=> cmd Hl Hr E. apply: (follows_node _ _ _ _ _ _ S Hm E (conj eq_refl eq_refl)).
    by apply: append_acts. }
  case: Hs r => {A m} [now draw Hr|args now draw Ha|t vs v args reply Ha Hr|cmd Hr|args now draw Ha|v args reply term acks _] r E Hf Hl.
  - have {}E := become_candidate_failed _ _ _ _ _ _ _ (conj Hpos Hr) E Hf. rw (ok_id _ _ _ N) in E.
    have [s' [? [? _]]] := campaign_acts _ _ _ _ I N E.
    apply: (follows_node _ _ _ _ _ _ S Hm eq_refl (essence_kept _ _ E)). by exists s'.
  - have [[Ht ?]|[Ht [Hnew [Hfree {}E]]]] := handle_request_vote_failed _ _ _ _ _ _ _ _ E Hf; first by apply: down Ht _ Hl.
    have [l [C [Eli Elt]]] := sim_vote_req _ _ S _ Ha.
    have [s' [? [? _]]] := hear_vote_acts s n _ c args l I N C Eli Elt Ht Hnew Hfree E.
    apply: (follows_node _ _ _ _ _ _ S Hm eq_refl (essence_kept _ _ E)). by exists s'.
  - have [[Ht ?]|[Hcand [Hterm [G [Hq W]]]]] := count_vote_failed _ _ _ _ _ _ _ _ Hn1 Hn2 E Hf; first by apply: down Ht _ Hl.
    have [s1 [A1 N1]] := elected_acts γ s n t vs v args reply S Hm Ha Hr Hcand Hterm G Hq.
    case: W => {}E; apply: (follows_node _ _ _ _ _ _ S Hm E (conj eq_refl eq_refl)); first by exists s1.
    have [I1 _] := acts_inv _ _ _ I A1.
    have [s2 [A2 N2]] := append_acts s1 n _ Noop I1 N1 eq_refl Hr. exists s2. split => //. by trans s1.
  - have [{}E|[? {}E]] := propose_section_failed _ _ _ _ _ _ Hn1 Hn2 E Hf; [by apply: same | by apply: push E].
  - have A := sim_append_req _ _ S _ _ Ha. have [Hc [H0 Hb]] := append_ok_range _ _ A.
    have [[Ht ?]|[Ht [es' [{}E Hes]]]] :=
      handle_append_entries_failed _ _ _ _ _ _ _ _ (node_wf _ _ _ N) Hc H0 Hb E Hf; first by apply: down Ht _ Hl.
    apply: (follows_node _ _ _ _ _ _ S Hm E (conj eq_refl eq_refl)).
    have [s1 [A1 [N1 _]]] := hear_term s n _ (ae_term args) Follower I N (or_introl eq_refl) (λ _, ltac:(done)).
    have [I1 G1] := acts_inv _ _ _ I A1.
    case: Hes => [->|[Hconf Hi]]; first by exists s1.
    have [s2 [A2 N2]] := interrupted_acts s1 n _ args es' I1 N1 (append_ok_grows _ _ _ I G1 A)
      ltac:(rw /= /hard_at; case: Z.ltb_spec => //=; lia) eq_refl
      ltac:(by rw (matching_conflict_log _ (cl_core γ n))) Hi.
    exists s2. split => //. by trans s1.
  - have [Ht ?] := fold_reply_failed _ _ _ _ _ _ _ _ _ _ Hn1 Hn2 E Hf. by apply: down Ht _ Hl.
Qed.


(** ** Applying, snapshots and compaction *)

(** Applying entries in order. *)
Lemma store_out_state l a k st : consecutive 0 l → (a ≤ k ≤ length l)%nat →
  st_memtable st = state_at (e_command <$> l) a →
  st_memtable (store_out (drop a (take k l)) st) = state_at (e_command <$> l) k.
Proof.
  move=> C Hk. move Em : (k - a)%nat => m. elim: m a st Hk Em => [|m IH] a st Hk Em Hst.
  { have ? : a = k by lia. subst a. by rw drop_ge /=; [rw length_take; lia|]. }
  have [e He] : is_Some (l !! a) by apply lookup_lt_is_Some; lia.
  have He' : take k l !! a = Some e by rw lookup_take_lt //; lia.
  rw (drop_S _ _ _ He') /=. apply IH; [lia..|].
  rw /= Hst (C _ _ He). have -> : 0 + 1 + Z.of_nat a = Z.of_nat (S a) by lia.
  rw state_at_S //. by rw list_lookup_fmap He.
Qed.

(** What a node takes to apply. *)
Lemma take_node s n c : proto_inv s → node_ok s n c →
  let a := Z.to_nat (rc_last_applied c) in
  (a ≤ p_commit s n ≤ length (p_log s n))%nat
  ∧ take_committed c = (drop a (take (p_commit s n) (p_log s n)), set_last_applied (rc_commit_index c) c).
Proof.
  move=> I N a. have [Hc _] := node_commit _ _ _ I N. have Ha := ok_applied _ _ _ N.
  have Hk := ok_commit _ _ _ N. have [El _] := last_log_ok _ _ _ N. have B := ok_base _ _ _ N.
  have ? := commit_within _ I n. split; first lia.
  rw /take_committed take_loop_spec; [by apply: node_wf N | lia | done |]. rw El.
  have -> : Z.max (rc_last_applied c) (Z.min (rc_commit_index c) (zlen (p_log s n))) = rc_commit_index c by lia.
  rw (ok_entries _ _ _ N) drop_drop take_drop_commute. f_equal.
  have -> : (Z.to_nat (snap_index c) + Z.to_nat (rc_last_applied c - snap_index c) = a)%nat by lia.
  f_equal. f_equal. lia.
Qed.

(** The node stays where it is; its store, its phase or its snapshot move. *)
Lemma sim_still γ γ' s n : sim γ s → n ∈ members → moved n γ γ' → node_ok s n (cl_core γ' n) →
  store_ok (p_log s n) (cl_core γ' n) (cl_store γ' n) (cl_phase γ' n) (cl_saved γ' n) → sim γ' s.
Proof. move=> S Hm M N O. by apply: (proj1 (sim_acts _ _ _ _ _ S M (rtc_refl _ _) _)). Qed.

Lemma follows_still γ γ' s n : sim γ s → n ∈ members → moved n γ γ' → node_ok s n (cl_core γ' n) →
  store_ok (p_log s n) (cl_core γ' n) (cl_store γ' n) (cl_phase γ' n) (cl_saved γ' n) → follows γ' s.
Proof. move=> *. exists s. split => //. by apply: sim_still. Qed.

Lemma sim_take_step γ n out c s : sim γ s → n ∈ members → cl_phase γ n = Resting →
  take_committed (cl_core γ n) = (out, c) →
  follows (with_phase n (match out with [] => Resting | _ => Taken out end)
             (with_node n c (cl_disk γ n) γ)) s.
Proof.
  move=> S Hm Ep R. have I := sim_inv _ _ S. have N := sim_node _ _ S n Hm.
  have [Ha E] := take_node _ _ _ I N. rw R in E. case: E => Eout Ec.
  have N' : node_ok s n c.
  { rw Ec. case: (N) => *. split => //=. lia. }
  apply: (follows_still _ _ _ n S Hm); [by moving | by rw /= fn_lookup_insert |].
  rw /= !fn_lookup_insert. have A := ok_applied _ _ _ N. have B := ok_base _ _ _ N. have Hk := ok_commit _ _ _ N.
  case: (sim_store _ _ S _ Hm) => T Ra P SV SR ST. rw Ep /= in P.
  split; rw ?Ec //=; first lia. have Hk' : Z.to_nat (rc_commit_index (cl_core γ n)) = p_commit s n by lia.
  rw -P in Eout Ha. case: out Eout {R} => [|e out'] Eout; last by rw Hk'.
  have := f_equal length Eout. rw length_drop length_take /=. lia.
Qed.

Lemma sim_fill_step γ n out s : sim γ s → n ∈ members → cl_phase γ n = Taken out →
  let st := store_out out (cl_store γ n) in
  follows (with_applied n out
    (with_phase n (if should_snapshot st then Due (store_last_applied st) else Resting)
      (with_state n (cl_core γ n) st (cl_disk γ n) γ))) s.
Proof.
  move=> S Hm Ep st. have I := sim_inv _ _ S. have N := sim_node _ _ S n Hm.
  have A := ok_applied _ _ _ N. have B := ok_base _ _ _ N. have Hk := ok_commit _ _ _ N.
  have Hw := commit_within _ I n. have C := ok_numbers _ _ _ N.
  case: (sim_store _ _ S _ Hm) => T Ra P SV SR ST. rw Ep /= in P.
  set (a := Z.to_nat (store_last_applied (cl_store γ n))) in T, P |- *.
  set (k := Z.to_nat (rc_last_applied (cl_core γ n))) in P.
  have Ea : Z.of_nat a = store_last_applied (cl_store γ n) by rw /a; lia.
  have Ek : Z.of_nat k = rc_last_applied (cl_core γ n) by rw /k; lia.
  have T' : st_memtable st = state_at (e_command <$> p_log s n) k.
  { rw /st P. apply: store_out_state C _ T. lia. }
  have La : store_last_applied st = rc_last_applied (cl_core γ n) by rw /store_last_applied T' /=; lia.
  have S' : sim (with_phase n (if should_snapshot st then Due (store_last_applied st) else Resting)
      (with_state n (cl_core γ n) st (cl_disk γ n) γ)) s.
  { apply: (sim_still _ _ _ n S Hm); [by moving | by rw /= fn_lookup_insert |].
    rw /= !fn_lookup_insert. split; rw ?La -/k //; [lia | by case: (should_snapshot st) | lia]. }
  exists s. split => //. case: S' => I' N' ST' VQ VP CP AQ AP AD. split => //= m e.
  rw elem_of_app list_elem_of_fmap. case=> [[e' [[_ ->] He]]|/AD //]. rw P in He.
  apply list_elem_of_lookup in He as [i Hi]. rw lookup_drop in Hi. apply lookup_take_Some in Hi as [Hi Hlt].
  have [t [j [Cj [Hj [_ Pj]]]]] := pi_commit _ I n ltac:(lia).
  have [_ Hlen] := committed_elected _ I _ _ Cj. exists t, j, (a + i)%nat.
  have [x Hx] : is_Some (p_tlog s t !! (a + i)%nat) by apply lookup_lt_is_Some; lia.
  have Hx' := take_lookup_prefix _ _ _ _ _ Pj Hx ltac:(lia). rw Hi in Hx'. case: Hx' => ?; subst x.
  split_and! => //; [lia | rw (C _ _ Hi); lia].
Qed.

Lemma sim_term_step γ n applied s : sim γ s → n ∈ members → cl_phase γ n = Due applied →
  follows (with_phase n (Termed (default 0 (term_at applied (cl_core γ n)))) γ) s.
Proof.
  move=> S Hm Ep. have N := sim_node _ _ S n Hm. have [Hc _] := node_commit _ _ _ (sim_inv _ _ S) N.
  apply: (follows_still _ _ _ n S Hm); [by moving | done |].
  rw /= fn_lookup_insert. case: (sim_store _ _ S _ Hm) => T Ra P SV SR ST. rw Ep /= in P. case: P => P Pa.
  split => //=. split => //. have A := ok_applied _ _ _ N. rw (node_term_at _ _ _ _ N) /=; [lia | by rw Pa].
Qed.

Lemma sim_save_step γ n term st σ ph sv s : sim γ s → n ∈ members → cl_phase γ n = Termed term →
  st_memtable st = st_memtable (cl_store γ n) →
  ph = Resting ∧ (sv = cl_saved γ n ∨ sv = image term (cl_store γ n))
  ∨ ph = Saved sv.1 ∧ sv = image term (cl_store γ n) →
  follows (with_saved n sv (with_phase n ph (with_state n (cl_core γ n) st σ γ))) s.
Proof.
  move=> S Hm Ep Est H. apply: (follows_still _ _ _ n S Hm); [by moving | by rw /= fn_lookup_insert; apply S |].
  rw /= !fn_lookup_insert. case: (sim_store _ _ S _ Hm) => T Ra P SV SR ST. rw Ep /= in P. case: P => P Pt.
  have El : store_last_applied st = store_last_applied (cl_store γ n) by rw /store_last_applied Est.
  case: H => [[-> [->|->]]|[-> ->]]; split; rw /= ?Est ?El //; lia.
Qed.

Lemma store_snapshot_run term st σ r st' σ' : store_snapshot term (st, σ) = (r, (st', σ')) →
  st_memtable st' = st_memtable st ∧ ∀ meta, r = Ok meta → meta = (image term st).1.
Proof.
  rw /store_snapshot. case: (snapshot_write _ _ _ σ) => -[p|e|] σ1 [<- <- _]; split => //.
  by move=> meta [<-].
Qed.

Lemma sim_compact_step γ n meta c σ s : sim γ s → cl_phase γ n = Saved meta →
  runs members γ n (compact meta) tt c σ → follows (with_phase n Resting (with_node n c σ γ)) s.
Proof.
  move=> S Ep [Hm R]. have N := sim_node _ _ S n Hm. have Hw := node_wf _ _ _ N.
  have [Hc _] := node_commit _ _ _ (sim_inv _ _ S) N. have A := ok_applied _ _ _ N.
  case: (sim_store _ _ S _ Hm) => T Ra P SV SR ST. rw Ep /= in P. case: P => P Pm. rw -Pm in SR ST SV.
  have B := ok_base _ _ _ N. have [El _] := last_log_ok _ _ _ N.
  have E : essence c = essence (compacted meta (cl_core γ n)) ∨ essence c = essence (cl_core γ n).
  { move: R. case: (decide (snap_index (cl_core γ n) < last_included_index meta)) => Hlt.
    - rw compact_run //; first lia. cbn zeta.
      case: (wal_truncate_prefix _ _) => -[u|e|] [l' σ1] // [<- _]. by left.
    - rw /compact /bind /self /gets /=. case: Z.leb_spec => [_|]; last lia. case=> <- _. by right. }
  have {E} [c1 [E [N1 [Ea Es]]]] : ∃ c1, essence c = essence c1 ∧ node_ok s n c1
    ∧ rc_last_applied c1 = rc_last_applied (cl_core γ n) ∧ snap_index c1 ≤ last_included_index meta.
  { case: E => E; eexists; (split; first exact E); [|split_and! => //; lia].
    split_and! => //=. case: (N) => *. split => //=; [lia | | lia].
    rw (ok_entries _ _ _ N) drop_drop. f_equal. lia. }
  have N' := node_ok_essence _ _ _ _ E N1. have [Ea' Es'] := essence_kept _ _ E.
  apply: (follows_still _ _ _ n S Hm); [by moving | by rw /= fn_lookup_insert |].
  rw /= !fn_lookup_insert. split => //; rw -?Pm ?Ea' ?Ea ?Es' //; lia.
Qed.

(** ** Restarting *)

Lemma sim_restart_step {A} γ n (cfg : Config A) log now draw st σ c σ' s : sim γ s → n ∈ members →
  (st_last_snapshot st, st_memtable st) = cl_saved γ n →
  restore cfg (st_last_snapshot st) log now draw σ = (Ok c, σ') →
  cfg_id cfg = n → (peer_id <$> cfg_peers cfg) ≡ₚ rc_peers (cl_core γ n) →
  rc_hard c = rc_hard (cl_core γ n) →
  rc_entries c = filter (λ e, last_included_index (st_last_snapshot st) < e_index e)
                   (rc_entries (cl_core γ n)) →
  follows (with_phase n Resting (with_state n c st σ' γ)) s.
Proof.
  move=> S Hm Esv R Hid Hpe Eh Ee. have N := sim_node _ _ S n Hm.
  have [Ei [Ep [Ez [Es [Er [Ek Ea]]]]]] := restore_ok _ _ _ _ _ _ _ _ R.
  have [Hn1 _] := node_size _ _ _ N. have I := sim_inv _ _ S. have [Hc _] := node_commit _ _ _ I N.
  case: (sim_store _ _ S _ Hm) => T Ra _ SV SR ST. rw -Esv /= in SV SR ST.
  have B := ok_base _ _ _ N. have A0 := ok_applied _ _ _ N. have Hk := ok_commit _ _ _ N.
  set (b := last_included_index (st_last_snapshot st)) in *.
  have {}Ee : rc_entries c = drop (Z.to_nat b) (p_log s n).
  { rw Ee (filter_above _ (snap_index (cl_core γ n))); first by apply: lw_entries; apply: node_wf N.
    rw (ok_entries _ _ _ N) drop_drop. f_equal. lia. }
  pose proof (st_forget s n (Z.to_nat b) ltac:(lia)) as St. eexists. split; first by apply rtc_once, St.
  apply: (proj1 (sim_acts _ _ _ _ n S _ (acts_once _ _ _ St _) _)); [by moving | acting |].
  move=> _ /=. rw !fn_lookup_insert. split.
  - case: (N) => *. split; rw /= ?fn_lookup_insert ?Ei ?Ep ?Ez ?Es ?Er ?Eh ?Ek ?Ea //; try lia.
    + by rw Hpe.
    + have := Permutation_length Hpe. rw /cluster_size -(ok_size _ _ _ N) Hn1 /zlen length_fmap. lia.
  - have El : store_last_applied st = b by rw /store_last_applied SV /=; lia.
    split; rw -?Esv ?El ?Ea ?Es //=; lia.
Qed.

(** ** The cluster follows the protocol *)

Lemma step_follows γ γ' s : sim γ s → guarded_step members γ γ' → follows γ' s.
Proof.
  move=> S St. destruct St as [γ γ' St|]; last by apply: sim_restart_step. destruct St.
  - by apply: sim_campaign_step.
  - by apply: sim_vote_step.
  - by apply: sim_concluded_step.
  - by apply: sim_counted_step.
  - by apply: sim_propose_step.
  - exists s. split => //. have Ao := send_ok _ _ _ peer (sim_inv _ _ S) (sim_node _ _ S _ H) H0 H1.
    case: S => *. split => //= v args. rw elem_of_cons => -[[_ ->]|] //; eauto.
  - by apply: sim_append_step.
  - by apply: sim_fold_step.
  - apply: (follows_node _ _ _ (cl_core γ n)) => //.
    + rw /renew_lease. by case: (is_leader _).
    + exists s. split => //. by apply S.
  - by apply: sim_failed_step.
  - by apply: sim_take_step.
  - subst st. by apply: sim_fill_step.
  - by apply: sim_term_step.
  - have [? Em] := store_snapshot_run _ _ _ _ _ _ H1. rw (Em meta eq_refl).
    apply: (sim_save_step _ _ term) => //. by right.
  - have [? _] := store_snapshot_run _ _ _ _ _ _ H1. apply: (sim_save_step _ _ term) => //. by left.
  - by apply: sim_compact_step.
Qed.

Lemma init_follows γ : cluster_init members γ → sim γ proto_init.
Proof.
  move=> [Hn HS HP HV E1 E2 E3 E4 E5 E6].
  split; rw ?E1 ?E2 ?E3 ?E4 ?E5 ?E6;
    try by (intros; match goal with H : _ ∈ [] |- _ => by apply elem_of_nil in H end).
  - apply init_inv.
  - move=> n /Hn [Hi Hp Hz Hh He Hs Hr Hk Ha]. split; rw ?Hh ?He ?Hk ?Hr ?Ha ?Hs //=.
    move=> y. by rw elem_of_nil.
  - move=> n Hm. have F := Hn n Hm.
    split; rw ?(HP n Hm) ?(HV n Hm) /store_last_applied ?(HS n Hm) ?(fr_applied _ _ _ F) ?(fr_snapshot _ _ _ F) //.
Qed.

Lemma steps_follow γ γ' s : sim γ s → rtc (guarded_step members) γ γ' → ∃ s', rtc proto_step s s' ∧ sim γ' s'.
Proof.
  move=> S R. elim: R s S => [{}γ s S|γ1 γ2 γ3 St _ IH s S]; first by exists s.
  have [s1 [St1 S1]] := step_follows _ _ _ S St. have [s2 [St2 S2]] := IH _ S1.
  exists s2. split => //. by trans s1.
Qed.

Lemma reachable_follows γ : guarded_reachable members γ → ∃ s, rtc proto_step proto_init s ∧ sim γ s.
Proof. move=> [γ0 [/init_follows S R]]. by apply: steps_follow S R. Qed.

End steps.

End simulation.
