(* ===== verification/Safety.v ===== *)
(** * Safety: what holds in the guarded runs of a cluster, and what can go wrong outside.

    The theorems are about the clusters reached by the steps of file Cluster, with the guards these
    have and the code has not ([guarded_section]); their proofs use
    the simulation of file Simulation.  The second half runs concrete clusters: witnesses, and
    runs that break safety because of something the steps leave out. *)

From Corelib Require Import ssreflect.
From stdpp Require Import base gmap strings list sorting functions relations.
From S2P Require Import Prelude Text Fs AtomicFile Crc WalLog Codec Config MemTable Snapshot RaftState.
From S2P Require Import Wal RaftCore Election Replication Task Store Driver Sections Protocol Cluster Simulation.

Section safety.
Context {L : Type} {wal : Wal L} {bin_hard : Bincode HardState} {bin_entry : Bincode LogEntry}.
Context {bin_snap : Bincode SnapshotFile}.
Context (members : list Z) (members_distinct : NoDup members) (members_bound : zlen members ≤ u64_max).
Implicit Types (c : RaftCore L) (γ : cluster L) (s : proto).

#[local] Instance safety_majority : Quorums := majority members.

(** C3: guarded runs of the handlers implement the protocol of file Protocol: in every run
    of a fixed set of nodes, from new nodes, that keeps to the guards of file Cluster, which
    the code does not enforce (a node sends AppendEntries only while it leads and only from
    above its snapshot; a section that fails does not leave a node leading in a newer term;
    one task at a time applies entries on a node; compactions succeed; a restart finds the
    hard state, the snapshot and the entries the node had; terms and indices do not run
    out), while messages may be lost, repeated, delayed and reordered and all other sections
    may fail at any system call, what the handlers do is a run of the protocol, in which the
    terms and commit indices of the nodes are the same and a node's log is what its snapshot
    covers followed by its entries. *)
Theorem cluster_refines_protocol γ :
  guarded_reachable members γ →
  ∃ s, rtc proto_step proto_init s ∧ ∀ n, n ∈ members →
    let c := cl_core γ n in
    p_term s n = current_term (rc_hard c)
    ∧ Z.of_nat (p_commit s n) = rc_commit_index c
    ∧ snap_index c ≤ rc_commit_index c ≤ zlen (p_log s n)
    ∧ last_included_term (rc_snapshot c) = final_term (take (Z.to_nat (snap_index c)) (p_log s n))
    ∧ rc_entries c = drop (Z.to_nat (snap_index c)) (p_log s n).
Proof.
  move=> /(reachable_follows _ members_distinct members_bound) [s [R S]]. exists s. split => // n Hn c.
  have N := sim_node _ _ _ S n Hn. have [Hc _] := node_commit _ _ _ _ (sim_inv _ _ _ S) N.
  have Ha := ok_applied _ _ _ _ N. have B := ok_base _ _ _ _ N. rw /zlen in B.
  have Hk := ok_commit _ _ _ _ N. rw -/c in N Hc Ha B Hk. rw (ok_term _ _ _ _ N) (ok_base_term _ _ _ _ N).
  split_and! => //; [lia | | by apply: ok_entries N].
  rw -prev_term_end length_take Nat.min_l; first lia. apply prev_term_take. by rw take_take Nat.min_id.
Qed.

(** C1: state machine safety of guarded runs: in every run of a fixed set of nodes, from new
    nodes, that keeps to the guards of file Cluster, which the code does not enforce (a node
    sends AppendEntries only while it leads and only from above its snapshot; a section that
    fails does not leave a node leading in a newer term; one task at a time applies entries
    on a node; compactions succeed; a restart finds the hard state, the snapshot and the
    entries the node had; terms and indices do not run out), while messages may be lost,
    repeated, delayed and reordered and all other sections may fail at any system call, no
    two nodes (nor one node before and after a restart) ever hand different entries of the
    same index to their stores. *)
Theorem state_machine_safety γ n n' e e' :
  guarded_reachable members γ → (n, e) ∈ cl_applied γ → (n', e') ∈ cl_applied γ →
  e_index e = e_index e' → e = e'.
Proof.
  move=> /(reachable_follows _ members_distinct members_bound) [s [_ S]].
  move=> /(sim_applied _ _ _ S) [t [m [k [C [Hk [He Ei]]]]]].
  move=> /(sim_applied _ _ _ S) [t' [m' [k' [C' [Hk' [He' Ei']]]]]] E.
  have ? : k' = k by lia. subst k'. have A := committed_agree _ _ _ _ _ (Datatypes.S k) (sim_inv _ _ _ S) C C' Hk Hk'.
  have H1 : take (Datatypes.S k) (p_tlog s t) !! k = Some e by rw lookup_take_lt //; lia.
  rw A lookup_take_lt in H1; first lia. congruence.
Qed.

(** The node that knows most to be committed. *)
Lemma furthest (l : list Z) (f : Z → nat) : l ≠ [] → ∃ m, m ∈ l ∧ ∀ n, n ∈ l → (f n ≤ f m)%nat.
Proof.
  elim: l => [//|x l IH] _. case: (decide (l = [])) => [->|/IH [m [Hm H]]].
  { exists x. split; [apply list_elem_of_here | by move=> n /list_elem_of_singleton ->]. }
  case: (decide (f m ≤ f x)%nat) => ?; [exists x | exists m]; split; rw ?elem_of_cons; auto.
  all: move=> n; rw elem_of_cons => -[->|/H ?]; lia.
Qed.

(** C2: the replicas of guarded runs agree: in every run of a fixed set of nodes, from new
    nodes, that keeps to the guards of file Cluster, which the code does not enforce (a node
    sends AppendEntries only while it leads and only from above its snapshot; a section that
    fails does not leave a node leading in a newer term; one task at a time applies entries
    on a node; compactions succeed; a restart finds the hard state, the snapshot and the
    entries the node had; terms and indices do not run out), while messages may be lost,
    repeated, delayed and reordered and all other sections may fail at any system call,
    there is one sequence of commands such that the store of every node is what its first
    commands make of an empty table, as many as the store says it has applied; so is the
    snapshot on every disk, and every committed entry a node still has is the command at its
    place in that sequence. *)
Theorem replicas_agree γ :
  guarded_reachable members γ →
  ∃ cs, ∀ n, n ∈ members →
    let c := cl_core γ n in
    let st := cl_store γ n in
    let sv := cl_saved γ n in
    0 ≤ last_included_index sv.1 ≤ store_last_applied st
    ∧ store_last_applied st ≤ rc_commit_index c ≤ zlen cs
    ∧ st_memtable st = state_at cs (Z.to_nat (store_last_applied st))
    ∧ sv.2 = state_at cs (Z.to_nat (last_included_index sv.1))
    ∧ ∀ i e, 0 ≤ i ≤ rc_commit_index c → entry_at i c = Some e →
        cs !! Z.to_nat (i - 1) = Some (e_command e).
Proof.
  move=> /(reachable_follows _ members_distinct members_bound) [s [_ S]]. have I := sim_inv _ _ _ S.
  case: (decide (members = [])) => [->|/(furthest _ (p_commit s)) [m [Hm Hmax]]].
  { exists []. by move=> n /elem_of_nil. }
  exists (e_command <$> take (p_commit s m) (p_log s m)) => n Hn c st sv.
  have N := sim_node _ _ _ S _ Hn. have Hle := Hmax n Hn. have Hm' := commit_within _ I m.
  have A := ok_applied _ _ _ _ N. have B := ok_base _ _ _ _ N. have Hk := ok_commit _ _ _ _ N.
  have Hk' := commit_within _ I n. have Hb := ok_bound _ _ _ _ N. rw /zlen in Hb.
  case: (sim_store _ _ _ S _ Hn) => T Ra _ SV SR _. rw -/c -/st -/sv in N A B Hk T Ra SV SR.
  have cut : ∀ k, k ≤ rc_commit_index c →
    take (Z.to_nat k) (p_log s n) = take (Z.to_nat k) (take (p_commit s m) (p_log s m)).
  { move=> k ?. rw take_take Nat.min_l; first lia. apply: (agreement s s) => //; lia. }
  split_and!; [lia.. | | | |].
  - rw /zlen length_fmap length_take. lia.
  - rw {1}T. apply state_at_kept, cut. lia.
  - rw {1}SV. apply state_at_kept, cut. lia.
  - move=> i e Hi. case: (decide (snap_index c < i)) => ?; last by rw (node_entry_low _ _ _ _ _ N); first lia.
    rw (node_entry _ _ _ _ _ N); first lia. move=> He. rw list_lookup_fmap.
    rw -(lookup_take_lt _ (Z.to_nat i)) in He; first lia. rw (cut i) in He; first lia.
    rw lookup_take_lt in He; first lia. by rw He.
Qed.

(** C20: every node of a guarded run is well formed: in every run of a fixed set of nodes,
    from new nodes, that keeps to the guards of file Cluster, which the code does not
    enforce (a node sends AppendEntries only while it leads and only from above its
    snapshot; a section that fails does not leave a node leading in a newer term; one task
    at a time applies entries on a node; compactions succeed; a restart finds the hard
    state, the snapshot and the entries the node had; terms and indices do not run out),
    while messages may be lost, repeated, delayed and reordered and all other sections may
    fail at any system call, its entries are numbered from its snapshot on within [u64],
    their terms are positive, never decrease along the log and never exceed the node's term,
    and the snapshot is at most the applied index, that at most the commit index, that at
    most the last index. *)
Theorem reachable_nodes_wf γ n :
  guarded_reachable members γ → n ∈ members →
  let c := cl_core γ n in
  log_wf c ∧ snap_index c ≤ rc_last_applied c ≤ rc_commit_index c ∧ rc_commit_index c ≤ last_log_index c
  ∧ (∀ i e, rc_entries c !! i = Some e → 0 < e_term e ≤ current_term (rc_hard c))
  ∧ (∀ i j e e', rc_entries c !! i = Some e → rc_entries c !! j = Some e' → (i ≤ j)%nat →
       e_term e ≤ e_term e').
Proof.
  move=> /(reachable_follows _ members_distinct members_bound) [s [_ S]] Hn c.
  have N := sim_node _ _ _ S _ Hn. have I := sim_inv _ _ _ S.
  have [M T] := pi_log _ I n. have [El _] := last_log_ok _ _ _ _ N. rw -/c in N El.
  have A := ok_applied _ _ _ _ N. split_and!; [by apply: node_wf N | lia | lia | | |].
  - rw El. by apply (node_commit _ _ _ _ I N).
  - move=> i e. rw (ok_entries _ _ _ _ N) lookup_drop -(ok_term _ _ _ _ N) => He. have [E _] := M _ _ He. split.
    + by apply: (elected_positive _ I).
    + apply T. by eapply list_elem_of_lookup_2.
  - move=> i j e e'. rw (ok_entries _ _ _ _ N) !lookup_drop => He He' Hij. have [E P] := M _ _ He'.
    have Hi := take_lookup_prefix _ _ _ _ _ P He ltac:(lia).
    case: (tlog_terms _ I _ _ _ E Hi) => -[_ ?]; lia.
Qed.

(** C19: log matching in guarded runs: in every run of a fixed set of nodes, from new nodes,
    that keeps to the guards of file Cluster, which the code does not enforce (a node sends
    AppendEntries only while it leads and only from above its snapshot; a section that fails
    does not leave a node leading in a newer term; one task at a time applies entries on a
    node; compactions succeed; a restart finds the hard state, the snapshot and the entries
    the node had; terms and indices do not run out), while messages may be lost, repeated,
    delayed and reordered and all other sections may fail at any system call, if the logs of
    two nodes have entries of one term at the same index, they are the same entry, and so is
    everything before it that both still have. *)
Theorem log_matching γ n n' i e e' :
  guarded_reachable members γ → n ∈ members → n' ∈ members → 0 ≤ i ≤ u64_max →
  let c := cl_core γ n in
  let c' := cl_core γ n' in
  entry_at i c = Some e → entry_at i c' = Some e' → e_term e = e_term e' →
  ∀ j, snap_index c < j → snap_index c' < j → j ≤ i → entry_at j c = entry_at j c'.
Proof.
  move=> /(reachable_follows _ members_distinct members_bound) [s [_ S]] Hn Hn' Hi c c' He He' Ht j Hj1 Hj2 Hj.
  have N : node_ok _ _ _ c := sim_node _ _ _ S _ Hn. have N' : node_ok _ _ _ c' := sim_node _ _ _ S _ Hn'.
  have I := sim_inv _ _ _ S. have B := ok_base _ _ _ _ N.
  rw (node_entry _ _ _ _ _ N) in He; [lia|]. rw (node_entry _ _ _ _ _ N') in He'; [lia|].
  rw (node_entry _ _ _ _ _ N); first lia. rw (node_entry _ _ _ _ _ N'); first lia.
  have [M _] := pi_log _ I n. have [M' _] := pi_log _ I n'.
  have T := matching_same _ _ _ _ _ _ M M' He He' Ht.
  rw -(lookup_take_lt _ (Datatypes.S (Z.to_nat (i - 1)))) ?T; first lia. rw lookup_take_lt //. lia.
Qed.

(** C11: leader completeness of guarded runs: in every run of a fixed set of nodes, from new
    nodes, that keeps to the guards of file Cluster, which the code does not enforce (a node
    sends AppendEntries only while it leads and only from above its snapshot; a section that
    fails does not leave a node leading in a newer term; one task at a time applies entries
    on a node; compactions succeed; a restart finds the hard state, the snapshot and the
    entries the node had; terms and indices do not run out), while messages may be lost,
    repeated, delayed and reordered and all other sections may fail at any system call, an
    entry that some node has applied is in the log of every node that leads, from then on,
    in a term higher than the terms of that moment, unless that node's snapshot covers it.
    *)
Theorem leader_completeness γ γ' n e x :
  guarded_reachable members γ → rtc (guarded_step members) γ γ' → (n, e) ∈ cl_applied γ →
  x ∈ members → rc_role (cl_core γ' x) = Leader →
  (∀ m, m ∈ members →
     current_term (rc_hard (cl_core γ m)) < current_term (rc_hard (cl_core γ' x))) →
  e_index e ≤ last_log_index (cl_core γ' x)
  ∧ (snap_index (cl_core γ' x) < e_index e → entry_at (e_index e) (cl_core γ' x) = Some e).
Proof.
  move=> /(reachable_follows _ members_distinct members_bound) [s [_ S]].
  move=> /(steps_follow _ members_distinct members_bound _ _ _ S) [s' [R S']] Ha Hx Hl Ht.
  have [t [m [k [C [Hk [He Ei]]]]]] := sim_applied _ _ _ S _ _ Ha.
  have I := sim_inv _ _ _ S. have [I' G] := steps_inv _ _ I R. have N' := sim_node _ _ _ S' _ Hx.
  have [q' E'] := ok_elected _ _ _ _ N' Hl. have Hlog := leader_log _ _ _ _ I' N' Hl.
  have [[[y q] E] Hm] := committed_elected _ I _ _ C.
  have Hterm : t < p_term s' x.
  { have [Q [_ [_ [_ V]]]] := pi_elected _ I _ _ _ E. have [v Hv] := quorum_inhabited _ _ Q.
    have [Vv _] := V _ Hv. have [? _] := pi_votes _ I _ _ _ Vv. have Hvm : v ∈ members by apply Q.
    have := Ht v Hvm. rw -(ok_term _ _ _ _ (sim_node _ _ _ S _ Hvm)) -(ok_term _ _ _ _ N'). lia. }
  have P := committed_line _ I' _ _ _ (g_committed _ _ G _ _ C) (Z.lt_le_incl _ _ Hterm) (ex_intro _ _ E').
  have He' := lookup_of_prefix _ _ _ _ (g_tlog _ _ G t) He.
  have Hx' := take_lookup_prefix _ _ _ _ _ P He' Hk. rw -Hlog in Hx'.
  have Hb := ok_bound _ _ _ _ N'. have Hlt := lookup_lt_Some _ _ _ Hx'. rw /zlen in Hb.
  have [-> _] := last_log_ok _ _ _ _ N'. rw Ei /zlen. split; first lia. move=> ?.
  rw (node_entry _ _ _ _ _ N'); first lia. rw -Hx'. f_equal. lia.
Qed.

(** The entry that a proposal appends, in the log of its term. *)
Lemma proposed_entry γ s x cmd i c σ : sim members γ s →
  runs members γ x (propose_section cmd) i c σ → log_room (cl_core γ x) →
  let t := current_term (rc_hard (cl_core γ x)) in
  ∃ s1, rtc proto_step s s1 ∧ sim members (with_node x c σ γ) s1 ∧ 0 < i
    ∧ p_tlog s1 t !! Z.to_nat (i - 1) = Some (MkLogEntry t i cmd).
Proof.
  move=> S Rn Hr t. have [s1 [St S1]] := sim_propose_step _ members_distinct members_bound _ _ _ _ _ _ _ S Rn Hr.
  exists s1. split_and! => //; case: Rn => Hx R; have N := sim_node _ _ _ S _ Hx.
  all: have [El _] := last_log_ok _ _ _ _ N; have Hb := ok_bound _ _ _ _ N; have Hz := zlen_nonneg (p_log s x).
  all: have [Hn1 Hn2] := node_size _ members_bound _ _ _ N.
  all: have [Hl [Ei [k [_ E]]]] := propose_section_ok _ _ _ _ _ _ Hn1 Hn2 R.
  all: rw El u64_add_small in Ei; first lia.
  - lia.
  - have N1 := sim_node _ _ _ S1 _ Hx. rw /= fn_lookup_insert in N1. have I1 := sim_inv _ _ _ S1.
    case: E => _ _ _ Esn Eh Een Erl _ _ _ _.
    have Et : p_term s1 x = t by rw (ok_term _ _ _ _ N1) Eh.
    have Hlog := leader_log _ _ _ _ I1 N1 ltac:(by rw Erl). rw Et in Hlog. rw -Hlog.
    have B := ok_base _ _ _ _ N. have B1 := ok_base _ _ _ _ N1. rw Esn in B1.
    have D := ok_entries _ _ _ _ N. have D1 := ok_entries _ _ _ _ N1. rw Een Esn /= D El u64_add_small in D1; first lia.
    rw /zlen in B B1 Ei *. set (b := Z.to_nat (snap_index (cl_core γ x))) in D1 |- *.
    have -> : Z.to_nat (i - 1) = (b + (length (p_log s x) - b))%nat by rw /b; lia.
    rw -lookup_drop -D1 lookup_app_r length_drop; first lia. by rw Nat.sub_diag /= Ei.
Qed.

(** C4: an acknowledged write is final in guarded runs: in every run of a fixed set of
    nodes, from new nodes, that keeps to the guards of file Cluster, which the code does not
    enforce (a node sends AppendEntries only while it leads and only from above its
    snapshot; a section that fails does not leave a node leading in a newer term; one task
    at a time applies entries on a node; compactions succeed; a restart finds the hard
    state, the snapshot and the entries the node had; terms and indices do not run out),
    while messages may be lost, repeated, delayed and reordered and all other sections may
    fail at any system call, once the node that took a command still leads in the same term
    and its commit index has reached the index of the command, no node hands another entry
    of that index to its store in any continuation within the guards. *)
Theorem acknowledged_write_is_final γ x cmd i c σ γ2 γ3 n e :
  guarded_reachable members γ → runs members γ x (propose_section cmd) i c σ → log_room (cl_core γ x) →
  let t := current_term (rc_hard (cl_core γ x)) in
  rtc (guarded_step members) (with_node x c σ γ) γ2 →
  rc_role (cl_core γ2 x) = Leader → current_term (rc_hard (cl_core γ2 x)) = t →
  i ≤ rc_commit_index (cl_core γ2 x) →
  rtc (guarded_step members) γ2 γ3 → (n, e) ∈ cl_applied γ3 → e_index e = i →
  e = MkLogEntry t i cmd.
Proof.
  move=> /(reachable_follows _ members_distinct members_bound) [s [_ S]] Rn Hr t R2 Hl Ht Hk R3 Ha Hi.
  have [s1 [_ [S1 [Hpos He]]]] := proposed_entry _ _ _ _ _ _ _ S Rn Hr.
  have [s2 [St2 S2]] := steps_follow _ members_distinct members_bound _ _ _ S1 R2.
  have [s3 [St3 S3]] := steps_follow _ members_distinct members_bound _ _ _ S2 R3.
  have I1 := sim_inv _ _ _ S1. have I2 := sim_inv _ _ _ S2. have I3 := sim_inv _ _ _ S3.
  have [_ G2] := steps_inv _ _ I1 St2. have [_ G3] := steps_inv _ _ I2 St3. case: Rn => Hx _.
  have N2 := sim_node _ _ _ S2 _ Hx. have Hlog := leader_log _ _ _ _ I2 N2 Hl.
  have Et : p_term s2 x = t by rw (ok_term _ _ _ _ N2). rw Et in Hlog.
  have {}He := lookup_of_prefix _ _ _ _ (g_tlog _ _ G2 t) He. rw -Hlog in He.
  have Hc := ok_commit _ _ _ _ N2. rw Hc in Hk.
  have [u [m [C [Hm [_ P]]]]] := pi_commit _ I2 x ltac:(lia). have [_ Hlen] := committed_elected _ I2 _ _ C.
  have [y Hy] : is_Some (p_tlog s2 u !! Z.to_nat (i - 1)) by apply lookup_lt_is_Some; lia.
  have Hy' := take_lookup_prefix _ _ _ _ _ P Hy ltac:(lia). rw He in Hy'. case: Hy' => ?; subst y.
  have {}Hy := lookup_of_prefix _ _ _ _ (g_tlog _ _ G3 u) Hy.
  have [t' [m' [k' [C' [Hk' [He' Ei']]]]]] := sim_applied _ _ _ S3 _ _ Ha.
  have ? : k' = Z.to_nat (i - 1) by lia. subst k'.
  have A := committed_agree _ _ _ _ _ (Datatypes.S (Z.to_nat (i - 1))) I3 (g_committed _ _ G3 _ _ C) C'
    ltac:(lia) ltac:(lia).
  have H1 : take (Datatypes.S (Z.to_nat (i - 1))) (p_tlog s3 u) !! Z.to_nat (i - 1) = Some (MkLogEntry t i cmd).
  { rw lookup_take_lt //. lia. }
  rw A lookup_take_lt in H1; first lia. congruence.
Qed.

End safety.

(** ** Witnesses *)

#[local] Existing Instance crc32fast.
#[local] Existing Instance bincode_codec.

(** Three new nodes; a snapshot is due after two entries. *)
Definition demo_members : list Z := [1; 2; 3].
Definition demo_empty_store : Store := MkStore (snapshot_dir demo_cluster) memtable_new 2 default_meta.
Definition new_cluster (node : Z → RaftCore Log) (disk : Z → fs) : cluster Log :=
  MkCluster node (λ _, demo_empty_store) disk (λ _, Resting) (λ _, (default_meta, memtable_new))
    [] [] [] [] [] [].
Definition demo_fresh : cluster Log := new_cluster demo_node (λ _, (log_after []).2).

Lemma new_cluster_init node disk : (∀ n, ∃ l, node n = set_log l (demo_node n)) →
  cluster_init demo_members (new_cluster node disk).
Proof.
  intros Hl. split => // n Hn. destruct (Hl n) as [l E]. split; rw /= E //.
  by apply (bool_decide_unpack _); move: Hn;
    rw !elem_of_cons elem_of_nil => -[->|[->|[->|//]]]; vm_compute.
Qed.

Lemma demo_fresh_init disk : cluster_init demo_members (new_cluster demo_node disk).
Proof. apply new_cluster_init. intros n. by eexists (log_after []).1. Qed.

Definition demo_run (evs : list event) (γ : cluster Log) : cluster Log :=
  default γ (run_events demo_members evs γ).

Lemma demo_run_steps evs γ :
  (if run_events demo_members evs γ is Some _ then true else false) = true →
  rtc (guarded_step demo_members) γ (demo_run evs γ).
Proof.
  rw /demo_run. destruct (run_events demo_members evs γ) as [γ'|] eqn:E; [|done]. intros _.
  by eapply run_events_steps.
Qed.

Lemma demo_run_reachable evs disk :
  (if run_events demo_members evs (new_cluster demo_node disk) is Some _ then true else false) = true →
  guarded_reachable demo_members (demo_run evs (new_cluster demo_node disk)).
Proof. eexists. split; [apply demo_fresh_init|]. by apply demo_run_steps. Qed.

Lemma demo_run_further evs γ : guarded_reachable demo_members γ →
  (if run_events demo_members evs γ is Some _ then true else false) = true →
  guarded_reachable demo_members (demo_run evs γ).
Proof.
  intros (γ0 & I & R) E. exists γ0. split; [done|]. trans γ; [done|]. by apply demo_run_steps.
Qed.

(** Node 1 leads term 1 and commits an entry with node 2; both apply it.  Node 3 fails to vote,
    because its first call to its disk fails. *)
Definition demo_faults (n : Z) : fs :=
  if n =? 3 then set_sched [Some 0%nat] (log_after []).2 else (log_after []).2.
Definition demo_committed : cluster Log := demo_run
  [Campaign 1; DeliverVote 3 0; DeliverVote 2 0; CountVote 0 0; Propose 1 (Put [x61] [x31]);
   Send 1 2; DeliverAppend 0; Fold 1 1 0; Take 1; Fill 1; Send 1 2; DeliverAppend 0; Take 2; Fill 2]
  (new_cluster demo_node demo_faults).
(** Node 1 takes a snapshot and compacts its log. *)
Definition demo_snapshot : cluster Log := demo_run [ReadTerm 1; Save 1; Compact 1] demo_committed.

Lemma demo_committed_reachable : guarded_reachable demo_members demo_committed.
Proof. apply demo_run_reachable. vm_compute. reflexivity. Qed.
Lemma demo_snapshot_reachable : guarded_reachable demo_members demo_snapshot.
Proof. apply demo_run_further; [apply demo_committed_reachable|]. vm_compute. reflexivity. Qed.

Definition demo_put : LogEntry := MkLogEntry 1 2 (Put [x61] [x31]).

Lemma state_machine_safety_witness :
  (1, demo_put) ∈ cl_applied demo_snapshot ∧ (2, demo_put) ∈ cl_applied demo_snapshot
  ∧ demo_put = demo_put.
Proof.
  split_and!; [evaluate|evaluate|].
  apply (state_machine_safety demo_members ltac:(evaluate) ltac:(evaluate) demo_snapshot 1 2);
    [apply demo_snapshot_reachable|evaluate|evaluate|reflexivity].
Defined.

Lemma cluster_refines_protocol_witness :
  snap_index (cl_core demo_snapshot 1) = 2
  ∧ ∃ s, rtc (@proto_step (majority demo_members)) proto_init s
      ∧ rc_entries (cl_core demo_snapshot 1) = drop 2 (p_log s 1)
      ∧ rc_entries (cl_core demo_snapshot 2) = p_log s 2.
Proof.
  split; [vm_compute; reflexivity|].
  destruct (cluster_refines_protocol demo_members ltac:(evaluate) ltac:(evaluate) demo_snapshot
    demo_snapshot_reachable) as (s & R & H). exists s. split_and!; [exact R| |].
  - destruct (H 1 ltac:(evaluate)) as (_ & _ & _ & _ & E). exact E.
  - destruct (H 2 ltac:(evaluate)) as (_ & _ & _ & _ & E). exact E.
Defined.

Lemma replicas_agree_witness :
  store_last_applied (cl_store demo_snapshot 1) = 2
  ∧ ∃ cs, (cl_saved demo_snapshot 1).2 = state_at cs 2
      ∧ st_memtable (cl_store demo_snapshot 2) = state_at cs 2
      ∧ cs !! 1%nat = Some (Put [x61] [x31]).
Proof.
  split; [vm_compute; reflexivity|].
  destruct (replicas_agree demo_members ltac:(evaluate) ltac:(evaluate) demo_snapshot
    demo_snapshot_reachable) as (cs & H). exists cs.
  destruct (H 1 ltac:(evaluate)) as (_ & _ & _ & E1 & _).
  destruct (H 2 ltac:(evaluate)) as (_ & _ & E2 & _ & E3).
  split_and!; [exact E1|exact E2|].
  apply (E3 2 demo_put); [evaluate|vm_compute; reflexivity].
Defined.

Lemma reachable_nodes_wf_witness :
  rc_entries (cl_core demo_committed 1) !! 1%nat = Some demo_put
  ∧ log_wf (cl_core demo_committed 1) ∧ 0 < 1 ≤ current_term (rc_hard (cl_core demo_committed 1)).
Proof.
  destruct (reachable_nodes_wf demo_members ltac:(evaluate) ltac:(evaluate) demo_committed 1
    demo_committed_reachable ltac:(evaluate)) as (Hw & _ & _ & Ht & _).
  assert (rc_entries (cl_core demo_committed 1) !! 1%nat = Some demo_put) as E
    by (vm_compute; reflexivity).
  split_and!; [exact E|exact Hw|apply (Ht 1%nat demo_put E)..].
Defined.

Lemma log_matching_witness :
  entry_at 1 (cl_core demo_committed 1) = entry_at 1 (cl_core demo_committed 2).
Proof.
  apply (log_matching demo_members ltac:(evaluate) ltac:(evaluate) demo_committed 1 2 2 demo_put demo_put);
    [apply demo_committed_reachable|evaluate|evaluate|evaluate|vm_compute; reflexivity
    |vm_compute; reflexivity|reflexivity|evaluate|evaluate|evaluate].
Defined.

(** Then node 2 leads term 2 with the vote of node 3. *)
Definition demo_next : cluster Log :=
  demo_run [Campaign 2; DeliverVote 3 0; CountVote 0 0] demo_committed.

Lemma leader_completeness_witness :
  rc_role (cl_core demo_next 2) = Leader ∧ entry_at 2 (cl_core demo_next 2) = Some demo_put.
Proof.
  split; [vm_compute; reflexivity|].
  apply (leader_completeness demo_members ltac:(evaluate) ltac:(evaluate) demo_committed demo_next 1 demo_put 2).
  - apply demo_committed_reachable.
  - apply demo_run_steps. vm_compute. reflexivity.
  - evaluate.
  - evaluate.
  - vm_compute. reflexivity.
  - apply Forall_forall. evaluate.
  - evaluate.
Defined.

(** Node 1 proposes, commits and compacts; then node 2 leads and node 3 applies. *)
Definition final_start : cluster Log :=
  demo_run [Campaign 1; DeliverVote 2 0; CountVote 0 0] demo_fresh.
Definition final_proposal :=
  propose_section (Put [x61] [x31]) (cl_core final_start 1, cl_disk final_start 1).
Definition final_proposed : cluster Log := with_node 1 final_proposal.2.1 final_proposal.2.2 final_start.
Definition final_committed : cluster Log :=
  demo_run [Send 1 2; DeliverAppend 0; Fold 1 1 0; Take 1; Fill 1; ReadTerm 1; Save 1; Compact 1] final_proposed.
Definition final_end : cluster Log := demo_run
  [Campaign 2; DeliverVote 3 0; CountVote 0 0; Send 2 3; DeliverAppend 0; Fold 2 2 0; Send 2 3; DeliverAppend 0;
   Fold 2 2 0; Send 2 3; DeliverAppend 0; Take 3; Fill 3] final_committed.

Lemma acknowledged_write_is_final_witness :
  (3, demo_put) ∈ cl_applied final_end ∧ demo_put = MkLogEntry 1 2 (Put [x61] [x31]).
Proof.
  split; [evaluate|].
  apply (acknowledged_write_is_final demo_members ltac:(evaluate) ltac:(evaluate) final_start 1
    (Put [x61] [x31]) 2 final_proposal.2.1 final_proposal.2.2 final_committed final_end 3).
  - apply demo_run_reachable. vm_compute. reflexivity.
  - split; [evaluate|]. vm_compute. reflexivity.
  - evaluate.
  - apply demo_run_steps. vm_compute. reflexivity.
  - vm_compute. reflexivity.
  - vm_compute. reflexivity.
  - evaluate.
  - apply demo_run_steps. vm_compute. reflexivity.
  - evaluate.
  - reflexivity.
Defined.

(** ** A node that no longer leads must not send *)

(** Node 1 leads term 1 and starts a round. *)
Definition stale_start : cluster Log :=
  demo_run [Campaign 1; DeliverVote 2 0; CountVote 0 0] demo_fresh.
(** Node 2 leads term 2 and commits a command with node 3 (the request to node 1 is under way). *)
Definition stale_other : cluster Log := demo_run
  [Campaign 2; DeliverVote 3 0; CountVote 0 0; Propose 2 (Put [x61] [x32]); Send 2 3; DeliverAppend 0;
   Fold 2 2 0; Take 2; Fill 2] stale_start.
(** Node 1 hears of term 2. *)
Definition stale_moved : cluster Log := demo_run [DeliverVote 1 0] stale_other.
(** The round of node 1 goes on: it builds and sends the message to node 3.  Later node 1 leads
    term 3 with the vote of node 3. *)
Definition stale_sent : cluster Log :=
  with_append_req 3 (build_append_entries 3 (cl_core stale_moved 1)) stale_moved.
Definition stale_end : cluster Log := demo_run
  [DeliverAppend 0; Campaign 1; DeliverVote 3 0; CountVote 0 0; Send 1 3; DeliverAppend 0;
   Fold 1 3 0; Take 1; Fill 1] stale_sent.

Lemma stale_start_reachable : guarded_reachable demo_members stale_start.
Proof. apply demo_run_reachable. vm_compute. reflexivity. Qed.
Lemma stale_other_steps : rtc (guarded_step demo_members) stale_start stale_other.
Proof. apply demo_run_steps. vm_compute. reflexivity. Qed.
Lemma stale_other_reachable : guarded_reachable demo_members stale_other.
Proof. apply demo_run_further; [apply stale_start_reachable|]. vm_compute. reflexivity. Qed.

(** C34: the round of [broadcast_append_entries] builds its messages without checking that the
    node still leads, and such a message destroys committed entries: a node that led when
    its round started has stepped down when the message to a peer is built, so the message
    carries the new term and the old log; the peer takes it, drops a command that the
    leader of that term had committed and applied with it, and the cluster goes on to apply
    a different command at the same index. *)
Theorem stale_round_overwrites_committed :
  guarded_reachable demo_members stale_moved
  ∧ rc_role (cl_core stale_start 1) = Leader ∧ rtc (guarded_step demo_members) stale_start stale_moved
  ∧ rc_role (cl_core stale_moved 1) = Follower
  ∧ rtc (guarded_step demo_members) stale_sent stale_end
  ∧ (2, MkLogEntry 2 2 (Put [x61] [x32])) ∈ cl_applied stale_end
  ∧ (1, MkLogEntry 3 2 Noop) ∈ cl_applied stale_end.
Proof.
  split_and!; [|vm_compute; reflexivity| |vm_compute; reflexivity| |evaluate|evaluate].
  - apply demo_run_further; [apply stale_other_reachable|]. vm_compute. reflexivity.
  - trans stale_other; [apply stale_other_steps|]. apply demo_run_steps. vm_compute. reflexivity.
  - apply demo_run_steps. vm_compute. reflexivity.
Qed.

(** ** A leader must manage to step down *)

(** The disk of node 1 fails when node 1 hears of term 2. *)
Definition down_failed :=
  handle_request_vote (default (MkRequestVoteArgs 0 0 0 0) (cl_vote_reqs stale_other !! 0%nat)) 0 0
    (cl_core stale_other 1, set_sched [Some 0%nat] (cl_disk stale_other 1)).
Definition down_moved : cluster Log := with_node 1 down_failed.2.1 down_failed.2.2 stale_other.
(** Node 1 goes on as a leader: it sends its log to node 3, takes a command and commits it with
    node 3. *)
Definition down_end : cluster Log := demo_run
  [Send 1 3; DeliverAppend 0; Fold 1 2 0; Propose 1 (Put [x61] [x33]); Send 1 3; DeliverAppend 0;
   Fold 1 2 0; Take 1; Fill 1] down_moved.

(** C36: [become_follower] takes the new term before it persists it and gives up the role after:
    when persisting fails, a leader that hears of a newer term stays leader, now of that
    term; next to the leader the term has elected it overwrites committed entries on a peer,
    and the two commit and apply different commands of one term at the same index. *)
Theorem failed_step_down_keeps_leading :
  guarded_reachable demo_members stale_other
  ∧ failed down_failed.1
  ∧ rc_role (cl_core down_moved 1) = Leader ∧ rc_role (cl_core down_moved 2) = Leader
  ∧ current_term (rc_hard (cl_core down_moved 1)) = current_term (rc_hard (cl_core down_moved 2))
  ∧ rtc (guarded_step demo_members) down_moved down_end
  ∧ (2, MkLogEntry 2 2 (Put [x61] [x32])) ∈ cl_applied down_end
  ∧ (1, MkLogEntry 2 2 (Put [x61] [x33])) ∈ cl_applied down_end.
Proof.
  split_and!; [apply stale_other_reachable|vm_compute; done|vm_compute; reflexivity..| |evaluate|evaluate].
  apply demo_run_steps. vm_compute. reflexivity.
Qed.

(** ** What a leader counts must be on its disk *)

(** Nodes with durable directories; the tenth call of node 1 to its disk fails. *)
Definition opened := log_open (wal_dir demo_cluster) (cfg_segment_max_bytes demo_cluster) empty_fs.
Definition opened_log : Log := if opened.1 is Ok l then l else (log_after []).1.
Definition unsynced_disks (n : Z) : fs :=
  set_sched (if n =? 1 then replicate 9 None ++ [Some 0%nat] else []) (names_durable opened.2).
Definition unsynced_fresh : cluster Log :=
  new_cluster (λ n, set_log opened_log (demo_node n)) unsynced_disks.
(** Node 1 leads term 1; the fsync of its first proposal fails. *)
Definition unsynced_leads : cluster Log := demo_run
  [Campaign 1; DeliverVote 2 0; CountVote 0 0; Send 1 2; DeliverAppend 0; Fold 1 1 0] unsynced_fresh.
Definition unsynced_proposal := propose_section (Put [x61] [x31])
  (cl_core unsynced_leads 1, cl_disk unsynced_leads 1).
(** It commits and applies the entry with node 2. *)
Definition unsynced_applied : cluster Log := demo_run
  [Propose 1 (Put [x61] [x31]); Send 1 2; DeliverAppend 0; Fold 1 1 0; Take 1; Fill 1] unsynced_leads.
(** A power failure; node 1 restarts, leads term 2 with node 3 and commits another entry. *)
Definition unsynced_boot := bootstrap demo_cluster 0 0 (power_loss (cl_disk unsynced_applied 1)).
Definition unsynced_back : cluster Log :=
  if unsynced_boot.1 is Ok nd
  then with_phase 1 Resting (with_state 1 (nd_core nd) (nd_store nd) unsynced_boot.2 unsynced_applied)
  else unsynced_applied.
Definition unsynced_end : cluster Log := demo_run
  [Campaign 1; DeliverVote 3 0; CountVote 0 0; Send 1 3; DeliverAppend 0; Fold 1 2 0; Send 1 3;
   DeliverAppend 0; Fold 1 2 0; Take 1; Fill 1] unsynced_back.

(** C37: a leader counts its own log when it looks for a majority, also an entry whose [sync]
    failed: the proposal returns an error, but the entry stays, one peer out of two
    acknowledges it, and it is committed and applied; a power failure at the leader then
    leaves it on a minority, and the cluster commits another entry at the same index. *)
Theorem unsynced_entry_counts :
  guarded_reachable demo_members unsynced_leads
  ∧ failed unsynced_proposal.1
  ∧ rtc (guarded_step demo_members) unsynced_leads unsynced_applied
  ∧ (if unsynced_boot.1 is Ok nd then rc_entries (nd_core nd) else []) = [MkLogEntry 1 1 Noop]
  ∧ rtc (guarded_step demo_members) unsynced_back unsynced_end
  ∧ (1, MkLogEntry 1 2 (Put [x61] [x31])) ∈ cl_applied unsynced_end
  ∧ (1, MkLogEntry 2 2 Noop) ∈ cl_applied unsynced_end.
Proof.
  split_and!; [|vm_compute; done| |vm_compute; reflexivity| |evaluate|evaluate].
  - exists unsynced_fresh. split; [apply new_cluster_init; intros n; by eexists|].
    apply demo_run_steps. vm_compute. reflexivity.
  - apply demo_run_steps. vm_compute. reflexivity.
  - apply demo_run_steps. vm_compute. reflexivity.
Qed.

(** ** A compacted leader and a follower that is behind *)

(** Node 3 has the first entry only when node 1 commits and applies a second one with node 2;
    node 1 takes a snapshot and compacts its log. *)
Definition behind_start : cluster Log := demo_run
  [Campaign 1; DeliverVote 2 0; CountVote 0 0; Send 1 3; DeliverAppend 0; Fold 1 1 0;
   Propose 1 (Put [x61] [x31]); Send 1 2; DeliverAppend 0; Fold 1 1 0; Take 1; Fill 1; ReadTerm 1;
   Save 1; Compact 1; Propose 1 (Put [x62] [x32])] demo_fresh.
(** The round sends node 3 what is left. *)
Definition behind_sent : cluster Log :=
  with_append_req 3 (build_append_entries 3 (cl_core behind_start 1)) behind_start.
Definition behind_folded : cluster Log := demo_run [DeliverAppend 0; Fold 1 1 0] behind_sent.
(** The next rounds bring node 3 up to date. *)
Definition behind_end : cluster Log := demo_run
  [Send 1 3; DeliverAppend 0; Fold 1 1 0; Take 1; Fill 1; Send 1 3; DeliverAppend 0; Take 3; Fill 3]
  behind_folded.

(** C35: compaction can make a replica lose a committed write: when the entries that a follower
    lacks are compacted at the leader, the message skips them, names as previous entry one
    before the gap, and the follower accepts it; the follower's log gets a hole, the leader
    counts it as up to date, and a write that was committed is missing on the follower. *)
Theorem compaction_loses_write_on_follower :
  guarded_reachable demo_members behind_start
  ∧ rtc (guarded_step demo_members) behind_sent behind_end
  ∧ rc_commit_index (cl_core behind_end 1) = 3
  ∧ rc_last_applied (cl_core behind_end 1) = rc_last_applied (cl_core behind_end 3)
  ∧ memtable_get [x61] (st_memtable (cl_store behind_end 1)) = Some [x31]
  ∧ memtable_get [x61] (st_memtable (cl_store behind_end 3)) = None.
Proof.
  split_and!; [| |vm_compute; reflexivity..].
  - apply demo_run_reachable. vm_compute. reflexivity.
  - trans behind_folded; apply demo_run_steps; vm_compute; reflexivity.
Qed.
