(* ===== verification/Lease.v ===== *)
(** * Lease: what a leader that has been replaced answers (src/raft/lease.rs, src/rpc/service.rs).

    The comment in lease.rs says that no other leader can exist during a lease, the one in
    [get] that only the leader answers, to stay linearizable, and that a stricter build would
    ask for the lease ([can_serve_local_read]).  The run here has a leader whose lease
    is valid and which answers a read with a value that another leader has already replaced. *)

From Corelib Require Import ssreflect.
From stdpp Require Import base gmap strings list sorting functions relations.
From S2P Require Import Prelude Text Fs AtomicFile Crc WalLog Codec Config MemTable Snapshot RaftState.
From S2P Require Import Wal RaftCore Election Replication Task Store Driver Service Sections Cluster Safety.

#[local] Existing Instance crc32fast.
#[local] Existing Instance bincode_codec.

Definition run_at (now : Z) (evs : list event) (γ : cluster Log) : cluster Log :=
  default γ (run_events_at demo_members now evs γ).

Lemma run_at_steps now evs γ :
  (if run_events_at demo_members now evs γ is Some _ then true else false) = true →
  rtc (guarded_step demo_members) γ (run_at now evs γ).
Proof.
  rw /run_at. destruct (run_events_at demo_members now evs γ) as [γ'|] eqn:E; [|done]. intros _.
  by eapply run_events_steps.
Qed.

(** At time 0 node 1 is elected, commits and applies a write of "a" with node 2, and brings
    node 3 up to date. *)
Definition lease_start : cluster Log := run_at 0
  [Campaign 1; DeliverVote 2 0; CountVote 0 0; Propose 1 (Put [x61] [x31]); Send 1 2; DeliverAppend 0; Fold 1 1 0;
   Take 1; Fill 1; Send 1 3; DeliverAppend 0; Fold 1 1 0] demo_fresh.

(** At [lease_time] its heartbeat reaches node 2 but not node 3; a majority has answered. *)
Definition lease_time : Z := from_millis 400.
Definition lease_renewed : cluster Log := run_at lease_time
  [Send 1 2; DeliverAppend 0; Fold 1 1 0; Renew 1] lease_start.

(** Node 3, which has not heard of node 1 for longer than its timeout, is elected by node 2,
    which has just acknowledged the heartbeat, and overwrites "a". *)
Definition lease_end : cluster Log := run_at lease_time
  [Campaign 3; DeliverVote 2 0; CountVote 0 0; Propose 3 (Put [x61] [x32]); Send 3 2; DeliverAppend 0; Fold 3 2 0;
   Take 3; Fill 3] lease_renewed.

(** Node [n] as the services see it. *)
Definition node_of (γ : cluster Log) (n : Z) : Node Log :=
  MkNode (cl_core γ n) (cl_store γ n) false (rc_commit_index (cl_core γ n)) (cl_disk γ n).

(** C40: a lease does not keep other leaders away, and a leader that has been replaced serves
    stale reads: in a guarded run of three nodes node 1 renews its lease when node 2
    acknowledges its heartbeat; at that very moment node 2 gives its vote to node 3, whose
    timer has run out, and node 3 leads the next term, commits a new value of a key and
    applies it, while for the whole duration of its lease node 1 may serve reads, and its
    [get] answers with the old value. *)
Theorem lease_serves_stale_read :
  guarded_reachable demo_members lease_renewed ∧ rtc (guarded_step demo_members) lease_renewed lease_end
  ∧ election_timed_out lease_time (cl_core lease_renewed 3) = true
  ∧ (∀ now, now < lease_time + from_millis 75 → can_serve_local_read now (cl_core lease_end 1) = true)
  ∧ rc_role (cl_core lease_end 3) = Leader
  ∧ current_term (rc_hard (cl_core lease_end 1)) < current_term (rc_hard (cl_core lease_end 3))
  ∧ (3, MkLogEntry 2 4 (Put [x61] [x32])) ∈ cl_applied lease_end
  ∧ store_get [x61] (cl_store lease_end 3) = Some [x32]
  ∧ ∃ hint, run (kv_get [x61]) (node_of lease_end 1) =
      Some (Ok (inl (MkGetResponse true [x31] hint)), node_of lease_end 1).
Proof.
  split; [|split; [apply run_at_steps; vm_compute; reflexivity|]].
  { exists demo_fresh. split; [apply demo_fresh_init|].
    trans lease_start; apply run_at_steps; vm_compute; reflexivity. }
  split; [vm_compute; reflexivity|]. split.
  { intros now Hn. assert (is_leader (cl_core lease_end 1) = true) as Hl by (vm_compute; reflexivity).
    assert (lease_expiry (rc_lease (cl_core lease_end 1)) = Some (lease_time + from_millis 75)) as He
      by (vm_compute; reflexivity).
    rw /can_serve_local_read /lease_is_valid Hl He /=. by apply Z.ltb_lt. }
  split; [vm_compute; reflexivity|]. split; [vm_compute; reflexivity|]. split; [evaluate|].
  split; [vm_compute; reflexivity|]. eexists. vm_compute. reflexivity.
Qed.
