(* ===== verification/Conformance.v ===== *)
(** * Conformance: the tasks of the driver and of the services do what file Cluster says.

    File Cluster describes a node by the sections it may run.  Here the code that runs them,
    the tasks of files Driver and Service, is compared with that description, in the manner
    of rely and guarantee: as long as everything around a task moves the cluster by its
    steps, so does the task ([conforms]), or it runs into one of the situations that the
    steps leave out, which [exit] lists.  [tasks_conform] says that every task of a node
    conforms, and [pool_conforms] that tasks that conform do so together. *)

From Corelib Require Import ssreflect.
From stdpp Require Import base gmap strings list sorting functions relations.
From S2P Require Import Prelude Text Fs AtomicFile Crc WalLog Codec Config MemTable Snapshot RaftState.
From S2P Require Import Wal RaftCore Election Replication Task Store Driver Service Sections Protocol.
From S2P Require Import Cluster Simulation Safety.

Section conformance.
Context {L : Type} {wal : Wal L} {bin_hard : Bincode HardState} {bin_entry : Bincode LogEntry}.
Context {bin_snap : Bincode SnapshotFile} {bin_command : Bincode Command}.
Context (io_text : ErrorKind → string).
Context (members : list Z) (members_distinct : NoDup members) (members_bound : zlen members ≤ u64_max).
Implicit Types (nd : Node L) (c : RaftCore L) (γ : cluster L) (own : option apply_phase).

#[local] Instance conformance_majority : Quorums := majority members.
#[local] Abbreviation step := (guarded_step members).

(** ** What a task sees of the cluster, and where it leaves it *)

(** The task that applies entries holds the store's lock from the moment a snapshot is due. *)
Definition holds_lock (ph : apply_phase) : bool :=
  match ph with Resting | Taken _ => false | Due _ | Termed _ | Saved _ => true end.

(** The state that the tasks of node [n] share. *)
Record sees γ n nd : Prop := {
  se_core : nd_core nd = cl_core γ n;
  se_store : nd_store nd = cl_store γ n;
  se_disk : nd_disk nd = cl_disk γ n;
  se_held : nd_store_held nd = holds_lock (cl_phase γ n)
}.

(** A section that goes from [nd] to [nd'] and has the message [e] to do with is none of the
    cluster's: *)
Inductive exit γ n (e : option message) nd nd' : Prop :=
(** AppendEntries is sent by a node that does not lead, or to a peer that is to get an entry
    the log no longer has; *)
| ex_stale peer :
    e = Some (AppendRequest peer) → rc_role (nd_core nd) ≠ Leader → exit γ n e nd nd'
| ex_lagging peer :
    e = Some (AppendRequest peer) → ¬ has_next peer (nd_core nd) → exit γ n e nd nd'
(** the transport returns what the peer has not replied to such a request; *)
| ex_no_vote v t reply :
    e = Some (VoteReply v t reply) →
    (∀ args, (v, args, reply) ∈ cl_vote_reps γ → rv_term args = t → rv_candidate_id args ≠ n) →
    exit γ n e nd nd'
| ex_no_ack v sent t reply :
    e = Some (AppendReply v sent t reply) →
    (∀ args, (v, args, reply) ∈ cl_append_reps γ → ae_leader_id args = n → last_sent args = sent →
             ae_term args < t) →
    exit γ n e nd nd'
(** the term or the log has reached the end of [u64]; *)
| ex_last_term : ¬ term_room (nd_core nd) → exit γ n e nd nd'
| ex_log_full : ¬ log_room (nd_core nd) → exit γ n e nd nd'
(** a leader has failed to step down; *)
| ex_step_down :
    rc_role (nd_core nd') = Leader →
    current_term (rc_hard (nd_core nd')) ≠ current_term (rc_hard (nd_core nd)) → exit γ n e nd nd'
(** entries are taken while another task is applying; *)
| ex_applying :
    cl_phase γ n ≠ Resting → rc_last_applied (nd_core nd') ≠ rc_last_applied (nd_core nd) →
    exit γ n e nd nd'
(** compaction fails. *)
| ex_compaction meta :
    cl_phase γ n = Saved meta → nd_store_held nd = true → nd_store_held nd' = false →
    failed (compact meta (nd_core nd, nd_disk nd)).1 → exit γ n e nd nd'.

(** ** Tasks that conform *)

(** [own] is the phase of the task, if it is the one that applies entries on the node.  What a
    task relies on: the cluster has moved by its steps, and nobody else has touched the
    phase of that task. *)
Definition keeps_phase n own γ : Prop :=
  match own with Some ph => cl_phase γ n = ph ∧ ph ≠ Resting | None => True end.
Definition later n own γ γ1 : Prop := rtc step γ γ1 ∧ keeps_phase n own γ1.

(** What it guarantees: it moves the cluster by its steps, leaves the other nodes, and changes
    the phase of its node only if it applies entries there. *)
Definition handed own own' (ph ph' : apply_phase) : Prop :=
  match own, own' with
  | None, None => ph' = ph
  | None, Some _ => ph = Resting
  | Some _, None => ph' = Resting
  | Some _, Some _ => True
  end.
Definition only n γ γ' : Prop := ∀ n', n' ≠ n →
  cl_core γ' n' = cl_core γ n' ∧ cl_store γ' n' = cl_store γ n' ∧ cl_disk γ' n' = cl_disk γ n'
  ∧ cl_phase γ' n' = cl_phase γ n'.
Record moves n own own' γ γ' : Prop := {
  mv_steps : rtc step γ γ';
  mv_only : only n γ γ';
  mv_own : handed own own' (cl_phase γ n) (cl_phase γ' n);
  mv_keeps : keeps_phase n own' γ'
}.

(** The message that a section sends is in the network. *)
Definition posted (e : option message) nd γ : Prop :=
  match e with
  | Some (AppendRequest peer) => (peer, build_append_entries peer (nd_core nd)) ∈ cl_append_reqs γ
  | _ => True
  end.

(** The task [t] of node [n] conforms from [γ] on, and its result satisfies [Q]. *)
Fixpoint conforms n {A} (Q : outcome A → option apply_phase → cluster L → Prop)
    (t : task message (Node L) A) own γ : Prop :=
  match t with
  | Done r => Q r own γ
  | Atomic e ready f => ∀ γ1 nd, later n own γ γ1 → sees γ1 n nd → ready nd = true →
      let '(t', nd') := f nd in
      exit γ1 n e nd nd'
      ∨ ∃ own' γ2, moves n own own' γ1 γ2 ∧ posted e nd γ2 ∧ sees γ2 n nd' ∧ conforms n Q t' own' γ2
  end.

(** *** Composing tasks *)

Lemma conforms_weaken n {A} Q Q' (t : task message (Node L) A) own γ :
  (∀ r own γ, Q r own γ → Q' r own γ) → conforms n Q t own γ → conforms n Q' t own γ.
Proof.
  intros HQ. revert own γ. induction t as [r|e ready f IH] using task_sections_ind; intros own γ; [apply HQ|].
  intros H γ1 nd Hl Hs Hr. specialize (H γ1 nd Hl Hs Hr). specialize (IH nd).
  destruct (f nd) as [t' nd']. destruct H as [H|(own' & γ2 & H1 & H2 & H3 & H4)]; [by left|right].
  exists own', γ2. split_and!; [done..|by apply IH].
Qed.

(** A combinator [g] that runs the sections of its argument and goes on after its end. *)
Lemma conforms_comb n {A B} (g : task message (Node L) A → task message (Node L) B) P Q t own γ :
  (∀ e ready f, g (Atomic e ready f) = Atomic e ready (λ s, let '(t', s') := f s in (g t', s'))) →
  (∀ r own γ, P r own γ → conforms n Q (g (Done r)) own γ) →
  conforms n P t own γ → conforms n Q (g t) own γ.
Proof.
  intros Hg HD. revert own γ. induction t as [r|e ready f IH] using task_sections_ind; intros own γ; [apply HD|].
  rw Hg. intros H γ1 nd Hl Hs Hr. specialize (H γ1 nd Hl Hs Hr). specialize (IH nd).
  destruct (f nd) as [t' nd']. destruct H as [H|(own' & γ2 & H1 & H2 & H3 & H4)]; [by left|right].
  exists own', γ2. split_and!; [done..|by apply IH].
Qed.

Lemma conforms_await n {A B} Q (t : task message (Node L) A) (k : A → task message (Node L) B) own γ :
  conforms n (λ r own γ, match r with
                         | Ok a => conforms n Q (k a) own γ
                         | Err e => Q (Err e) own γ
                         | Panic => Q Panic own γ
                         end) t own γ →
  conforms n Q (await t k) own γ.
Proof. apply (conforms_comb n (λ t, await t k)); [done|]. by intros [] ? ?. Qed.

Lemma conforms_discard n {A} Q (t : task message (Node L) A) own γ :
  conforms n (λ r own γ, Q (match r with Panic => Panic | _ => Ok tt end) own γ) t own γ →
  conforms n Q (discard t) own γ.
Proof. apply (conforms_comb n discard); [done|]. by intros [] ? ?. Qed.

Lemma conforms_map_err n {A} Q (t : task message (Node L) A) own γ :
  conforms n (λ r own γ, Q (match r with
                            | Ok a => Ok (inl a)
                            | Err e => Ok (inr (status io_text e))
                            | Panic => Panic
                            end) own γ) t own γ →
  conforms n Q (map_err_status io_text t) own γ.
Proof. apply (conforms_comb n (map_err_status io_text)); [done|]. by intros [] ? ?. Qed.

(** *** Sections *)

(** A section that holds the core. *)
Lemma conforms_core n {A} e (m : M (RaftCore L * fs) A) Q own γ :
  (∀ γ1 nd, later n own γ γ1 → sees γ1 n nd →
     let '(r, (c, σ)) := m (cl_core γ1 n, cl_disk γ1 n) in
     exit γ1 n e nd (with_core c σ nd)
     ∨ ∃ own' γ2, moves n own own' γ1 γ2 ∧ posted e nd γ2
         ∧ cl_core γ2 n = c ∧ cl_disk γ2 n = σ ∧ cl_store γ2 n = cl_store γ1 n
         ∧ holds_lock (cl_phase γ2 n) = holds_lock (cl_phase γ1 n) ∧ Q r own' γ2) →
  conforms n Q (core_section_on e m) own γ.
Proof.
  intros H γ1 nd Hl Hs _. specialize (H γ1 nd Hl Hs). rw /on_core (se_core _ _ _ Hs) (se_disk _ _ _ Hs).
  destruct (m (cl_core γ1 n, cl_disk γ1 n)) as [r [c σ]].
  destruct H as [H|(own' & γ2 & H1 & H2 & H3 & H4 & H5 & H6 & H7)]; [by left|right].
  exists own', γ2. split_and!; [done|done| |done]. destruct Hs. split; simpl; congruence.
Qed.

#[local] Ltac at_node := rw /= ?fn_lookup_insert //.
#[local] Ltac elsewhere := intros ? ?; rw /= ?fn_lookup_insert_ne //.

(** Staying where one is. *)
Lemma moves_refl n own γ γ1 : later n own γ γ1 → moves n own own γ1 γ1.
Proof. intros [_ H]. by split; [|done|destruct own|]. Qed.

Lemma conforms_quiet n {A} (ready : Node L → bool) (m : M (Node L) A) Q own γ :
  (∀ γ1 nd, later n own γ γ1 → sees γ1 n nd → sees γ1 n (m nd).2 ∧ Q (m nd).1 own γ1) →
  conforms n Q (section_when ready m) own γ.
Proof.
  intros H γ1 nd Hl Hs _. specialize (H γ1 nd Hl Hs). destruct (m nd) as [r nd'] eqn:E.
  right. exists own, γ1. split_and!; [by eapply moves_refl|done|apply H..].
Qed.

(** Reading the core. *)
Lemma conforms_read n {A} (g : RaftCore L → A) Q own γ :
  (∀ γ1, later n own γ γ1 → Q (Ok (g (cl_core γ1 n))) own γ1) →
  conforms n Q (core_section (self g)) own γ.
Proof.
  intros H. apply conforms_quiet. intros γ1 nd Hl Hs. rw /on_core /self /gets /= (se_core _ _ _ Hs).
  split; [|by apply H]. destruct Hs. by split.
Qed.

(** A step of the cluster that runs a section of the core. *)
Lemma moves_step n own γ γ1 γ2 :
  later n own γ γ1 → step γ1 γ2 → only n γ1 γ2 → cl_phase γ2 = cl_phase γ1 → moves n own own γ1 γ2.
Proof.
  intros [_ Hk] Hs Ho Hp. split; [by apply rtc_once|done| |].
  - rw /handed Hp. by destruct own.
  - rw /keeps_phase Hp. exact Hk.
Qed.

(** When [m] fails, a section that the cluster may start has failed. *)
Definition fails_as γ n {A} (m : M (RaftCore L * fs) A) : Prop :=
  ∃ B (m0 : M (RaftCore L * fs) B), starts γ n m0
    ∧ ∀ r s, m (cl_core γ n, cl_disk γ n) = (r, s) → failed r →
        ∃ r0, m0 (cl_core γ n, cl_disk γ n) = (r0, s) ∧ failed r0.

Lemma starts_fails γ n {A} (m : M (RaftCore L * fs) A) : starts γ n m → fails_as γ n m.
Proof. intros Hs. exists A, m. split; [done|]. by intros r s E Hr; exists r. Qed.

(** A section that the cluster's steps start: a success is to be matched, a failure is a step of
    its own unless a leader has kept its role in a new term. *)
Lemma conforms_starts n {A} e (m : M (RaftCore L * fs) A) Q own γ :
  n ∈ members → (∀ nd γ, posted e nd γ) →
  (∀ γ1 nd, later n own γ γ1 → sees γ1 n nd →
     (∀ nd', exit γ1 n e nd nd')
     ∨ fails_as γ1 n m
       ∧ (∀ r c σ, runs members γ1 n m r c σ →
            ∃ γ2, step γ1 γ2 ∧ only n γ1 γ2 ∧ cl_phase γ2 = cl_phase γ1 ∧ cl_core γ2 n = c ∧ cl_disk γ2 n = σ
              ∧ cl_store γ2 n = cl_store γ1 n ∧ Q (Ok r) own γ2)
       ∧ (∀ r γ2, failed r → rtc step γ γ2 → Q r own γ2)) →
  conforms n Q (core_section_on e m) own γ.
Proof.
  intros Hn He H. apply conforms_core. intros γ1 nd Hl Hs.
  destruct (H γ1 nd Hl Hs) as [Hx|((B & m0 & Hst & Hm0) & Hok & Hf)].
  { destruct (m _) as [r [c σ]]. left. apply Hx. }
  destruct (m (cl_core γ1 n, cl_disk γ1 n)) as [r [c σ]] eqn:E.
  assert (Ok_or : (∃ a, r = Ok a) ∨ failed r) by (destruct r; [left; eauto|by right..]).
  destruct Ok_or as [[a ->]|Hr].
  - destruct (Hok a c σ (conj Hn E)) as (γ2 & Hst2 & Ho & Hp & Hc & Hd & Hst' & HQ). right.
    exists own, γ2. split_and!; [by eapply moves_step|done..| |done]. by rw Hp.
  - destruct (decide (rc_role c = Leader)) as [Hrole|Hrole].
    1: destruct (decide (current_term (rc_hard c) = current_term (rc_hard (cl_core γ1 n)))) as [Ht|Ht].
    2: { left. apply ex_step_down; simpl; [done|]. by rw (se_core _ _ _ Hs). }
    all: right; exists own, (with_node n c σ γ1).
    all: destruct (Hm0 _ _ eq_refl Hr) as (r0 & E0 & Hr0).
    all: assert (step γ1 (with_node n c σ γ1)) as St by (eapply cl_section, cl_failed; eauto; done).
    all: split_and!; [eapply moves_step; [done|done|elsewhere|done]|done|by rw /= fn_lookup_insert..|done|].
    all: apply Hf; [done|]; destruct Hl as [Hl _]; by eapply rtc_r.
Qed.

(** ** What stays true of a cluster *)

Record grown γ γ' : Prop := {
  gr_vote_reqs : cl_vote_reqs γ ⊆ cl_vote_reqs γ';
  gr_campaigns : cl_campaigns γ ⊆ cl_campaigns γ';
  gr_append_reqs : cl_append_reqs γ ⊆ cl_append_reqs γ'
}.

Lemma steps_grown γ γ' : rtc step γ γ' → grown γ γ'.
Proof.
  induction 1 as [γ|γ1 γ2 γ3 Hst _ [H1 H2 H3]]; [done|].
  assert (grown γ1 γ2) as [G1 G2 G3].
  { destruct Hst as [? ? []|]; split; simpl; try done; intros ? ?; by apply list_elem_of_further. }
  split; by etrans.
Qed.

Lemma reachable_later n own γ γ1 :
  guarded_reachable members γ → later n own γ γ1 → guarded_reachable members γ1.
Proof. intros (γ0 & Hi & Hr) [Hl _]. exists γ0. split; [done|]. by etrans. Qed.

(** The peers of a member are the other members, and its term does not go back. *)
Lemma reachable_peers n γ :
  guarded_reachable members γ → n ∈ members →
  NoDup (n :: rc_peers (cl_core γ n)) ∧ n :: rc_peers (cl_core γ n) ≡ₚ members
  ∧ rc_id (cl_core γ n) = n.
Proof.
  intros Hr Hn. destruct (reachable_follows _ members_distinct members_bound _ Hr) as (s & _ & S).
  pose proof (sim_node _ _ _ S n Hn) as N. split_and!; [|apply N..].
  rw (ok_peers _ _ _ _ N). exact members_distinct.
Qed.

Lemma steps_term n γ γ' :
  guarded_reachable members γ → rtc step γ γ' → n ∈ members →
  current_term (rc_hard (cl_core γ n)) ≤ current_term (rc_hard (cl_core γ' n)).
Proof.
  intros Hr Hst Hn. destruct (reachable_follows _ members_distinct members_bound _ Hr) as (s & _ & S).
  destruct (steps_follow _ members_distinct members_bound _ _ _ S Hst) as (s' & Hp & S').
  destruct (steps_inv _ _ (sim_inv _ _ _ S) Hp) as [_ G].
  rw -(ok_term _ _ _ _ (sim_node _ _ _ S n Hn)) -(ok_term _ _ _ _ (sim_node _ _ _ S' n Hn)). apply G.
Qed.

(** ** Elections *)

#[local] Instance log_room_dec c : Decision (log_room c) := Z.lt_dec _ _.
#[local] Instance term_room_dec c : Decision (term_room c) := Z.lt_dec _ _.
#[local] Instance vote_reply_eq : EqDecision RequestVoteReply := ltac:(solve_decision).
#[local] Instance append_reply_eq : EqDecision AppendEntriesReply := ltac:(solve_decision).

(** The reply is one to a request of this campaign, or it is not. *)
Lemma vote_reply_known γ n v t (reply : RequestVoteReply) :
  (∃ args, (v, args, reply) ∈ cl_vote_reps γ ∧ rv_term args = t ∧ rv_candidate_id args = n)
  ∨ ∀ args, (v, args, reply) ∈ cl_vote_reps γ → rv_term args = t → rv_candidate_id args ≠ n.
Proof.
  destruct (decide (Exists (λ x, x.1.1 = v ∧ x.2 = reply ∧ rv_term x.1.2 = t
                               ∧ rv_candidate_id x.1.2 = n) (cl_vote_reps γ))) as [Hx|Hx].
  - left. apply Exists_exists in Hx as ([[v' args] reply'] & Hin & E1 & E2 & ?).
    simpl in *. subst. by exists args.
  - right. intros args Hin Ht Hc. apply Hx, Exists_exists. by exists (v, args, reply).
Qed.

Lemma append_reply_known γ n v sent t (reply : AppendEntriesReply) :
  (∃ args, (v, args, reply) ∈ cl_append_reps γ ∧ ae_leader_id args = n ∧ last_sent args = sent
           ∧ t ≤ ae_term args)
  ∨ ∀ args, (v, args, reply) ∈ cl_append_reps γ → ae_leader_id args = n → last_sent args = sent →
            ae_term args < t.
Proof.
  destruct (decide (Exists (λ x, x.1.1 = v ∧ x.2 = reply ∧ ae_leader_id x.1.2 = n
                               ∧ last_sent x.1.2 = sent ∧ t ≤ ae_term x.1.2) (cl_append_reps γ))) as [Hx|Hx].
  - left. apply Exists_exists in Hx as ([[v' args] reply'] & Hin & E1 & E2 & ?).
    simpl in *. subst. by exists args.
  - right. intros args Hin Hl Hs. destruct (Z.lt_ge_cases (ae_term args) t) as [|Ht]; [done|].
    destruct Hx. apply Exists_exists. by exists (v, args, reply).
Qed.

(** The peers that a campaign of [n] is still waiting for. *)
Definition awaited n (pending vs : list Z) : Prop :=
  NoDup pending ∧ ∀ v, v ∈ pending → v ∈ members ∧ v ≠ n ∧ v ∉ vs.

Lemma awaited_remove n v pending pending' vs (b : bool) :
  awaited n pending vs → list_remove v pending = Some pending' →
  awaited n pending' (if b then v :: vs else vs).
Proof.
  intros [Hnd Hp] E%list_remove_Some. rw E in Hnd. apply NoDup_cons in Hnd as [Hv Hnd].
  split; [done|]. intros w Hw. destruct (Hp w) as (H1 & H2 & H3).
  { rw E. by apply list_elem_of_further. }
  split_and!; [done..|]. destruct b; [|done]. intros [->|?]%elem_of_cons; done.
Qed.

Lemma member_peer n v γ :
  guarded_reachable members γ → n ∈ members → v ∈ members → v ≠ n → v ∈ rc_peers (cl_core γ n).
Proof.
  intros Hr Hn Hv Hne. destruct (reachable_peers n γ Hr Hn) as (_ & Hp & _).
  rw -Hp in Hv. by apply elem_of_cons in Hv as [->|].
Qed.

Lemma collect_votes_conforms n Q completions t : ∀ pending vs γ,
  n ∈ members → guarded_reachable members γ → (n, t, vs) ∈ cl_campaigns γ → awaited n pending vs →
  (∀ r γ2, rtc step γ γ2 → Q r None γ2) →
  conforms n Q (collect_votes completions pending t (1 + zlen vs)) None γ.
Proof.
  induction completions as [|[v result] completions IH]; intros pending vs γ Hn Hr Hc Ha HQ.
  { by apply HQ. }
  cbn [collect_votes]. destruct (list_remove v pending) as [pending'|] eqn:Er; [|by apply IH].
  assert (v ∈ members ∧ v ≠ n ∧ v ∉ vs) as (Hv & Hvn & Hvs).
  { apply Ha. rw (list_remove_Some _ _ _ Er). by apply list_elem_of_here. }
  destruct result as [reply|e|]; [|apply IH; try done; by eapply (awaited_remove _ _ _ _ _ false)..].
  apply conforms_await, conforms_starts; [done..|]. intros γ1 nd Hl Hs.
  pose proof (reachable_later _ _ _ _ Hr Hl) as Hr1. destruct (Hl) as [Hst _].
  destruct (decide (log_room (nd_core nd))) as [Hroom|]; [|left; intros nd'; by apply ex_log_full].
  destruct (vote_reply_known γ1 n v t reply) as [(args & Hin & Ht & Hcand)|Hno];
    [|left; intros nd'; by eapply ex_no_vote].
  rw (se_core _ _ _ Hs) in Hroom.
  assert (answers γ1 n t vs v args reply) as Han.
  { split; try done; [by apply (gr_campaigns _ _ (steps_grown _ _ Hst))|by apply member_peer]. }
  right. split; [by apply starts_fails; econstructor|]. split; [|by intros [] ? ? ?; auto; done].
  intros counted c σ Hrun. destruct counted as [votes|].
  - eexists. split; [by eapply cl_section, cl_counted|]. split; [elsewhere|]. rw /= !fn_lookup_insert. split_and!; [done..|].
    destruct (count_vote_continue _ _ _ _ _ _ _ _ (proj2 Hrun)) as [_ ->].
    assert (St : step γ1 (with_campaign n t (if rvr_vote_granted reply then v :: vs else vs)
                            (with_node n c σ γ1))) by by eapply cl_section, cl_counted.
    replace (if rvr_vote_granted reply then 1 + zlen vs + 1 else 1 + zlen vs)
      with (1 + zlen (if rvr_vote_granted reply then v :: vs else vs))
      by (destruct (rvr_vote_granted reply); rw ?zlen_cons; lia).
    apply IH; [done| |by apply list_elem_of_here|by eapply awaited_remove|].
    + eapply (reachable_later n None); [exact Hr1|]. split; [by apply rtc_once|done].
    + intros r γ2 H2. apply HQ. etrans; [exact Hst|]. by eapply rtc_l.
  - eexists. split; [by eapply cl_section, cl_concluded|]. split; [elsewhere|]. rw /= !fn_lookup_insert. split_and!; [done..|].
    apply HQ. eapply rtc_r; [exact Hst|]. by eapply cl_section, cl_concluded.
Qed.

Lemma become_candidate_term now draw c σ args c' σ' :
  become_candidate now draw (c, σ) = (Ok args, (c', σ')) → rv_term args = current_term (rc_hard c').
Proof.
  rw /become_candidate. intros (? & ? & _ & E)%bind_Ok_inv. move: E.
  intros (? & ? & _ & E)%bind_Ok_inv. move: E. intros (? & ? & _ & E)%bind_Ok_inv. move: E.
  intros (? & ? & _ & E)%bind_Ok_inv. move: E. intros (? & ? & _ & E)%bind_Ok_inv. move: E.
  intros (? & ? & _ & E)%bind_Ok_inv. by injection E as <- ->.
Qed.

Lemma start_election_conforms n Q now draw completions γ :
  n ∈ members → guarded_reachable members γ → (∀ r γ2, rtc step γ γ2 → Q r None γ2) →
  conforms n Q (start_election now draw completions) None γ.
Proof.
  intros Hn Hr HQ. apply conforms_await, (conforms_starts _ None); [done..|]. intros γ1 nd Hl Hs.
  destruct (decide (term_room (nd_core nd))) as [Hroom|]; [|left; intros nd'; by apply ex_last_term].
  rw (se_core _ _ _ Hs) in Hroom. pose proof (reachable_later _ _ _ _ Hr Hl) as Hr1. destruct Hl as [Hl _].
  right. split_and!; [|intros t c σ [_ Hrun]|by intros [] ? ? ?; auto; done].
  - exists _, (become_candidate now draw). split; [by constructor|]. intros r s E Hf.
    destruct (bind_failed_inv _ _ _ _ _ E Hf) as [(r0 & E0 & Hr0)|(? & ? & _ & E0)]; [by exists r0|].
    rw /self /gets in E0. by injection E0 as <- _.
  - apply bind_Ok_inv in Hrun as (args & [c1 σ1] & Hrun & E). injection E as <- <- <-.
    eexists. split; [by eapply cl_section, cl_campaign|]. split; [elsewhere|]. do 4 (split; [by rw /= ?fn_lookup_insert|]).
    set (γ2 := with_vote_req _ _).
    assert (step γ1 γ2) as St by by eapply cl_section, cl_campaign.
    assert (guarded_reachable members γ2) as Hr2.
    { eapply (reachable_later n None); [exact Hr1|]. split; [by apply rtc_once|done]. }
    apply conforms_await, conforms_read. intros γ3 Hl3. pose proof (reachable_later _ _ _ _ Hr2 Hl3) as Hr3.
    destruct Hl3 as [Hl3 _]. destruct (reachable_peers n γ3 Hr3 Hn) as (Hnd & Hp & _).
    apply NoDup_cons in Hnd as [Hni Hnd]. apply (collect_votes_conforms n Q completions _ _ []); try done.
    + apply (gr_campaigns _ _ (steps_grown _ _ Hl3)). rw -(become_candidate_term _ _ _ _ _ _ _ Hrun).
      by apply list_elem_of_here.
    + split; [done|]. intros v Hv. split_and!; [|by intros ->|by apply not_elem_of_nil].
      rw -Hp. by apply list_elem_of_further.
    + intros r γ4 H4. apply HQ. etrans; [exact Hl|]. eapply rtc_l; [exact St|]. by etrans.
Qed.

(** ** Replication *)

(** [v] is a member other than [n]. *)
Definition other n v : Prop := v ∈ members ∧ v ≠ n.

Lemma fold_conforms n {A} Q v sent reply t acks (k : option Z → task message (Node L) A) γ :
  n ∈ members → other n v → guarded_reachable members γ →
  (∀ folded γ2, rtc step γ γ2 → conforms n Q (k folded) None γ2) →
  (∀ r γ2, rtc step γ γ2 → Q r None γ2) →
  conforms n Q (await (core_section_on (Some (AppendReply v sent t reply))
                         (fold_reply v sent reply t acks)) k) None γ.
Proof.
  intros Hn [Hv Hvn] Hr Hk HQ. apply conforms_await, conforms_starts; [done..|]. intros γ1 nd Hl Hs.
  pose proof (reachable_later _ _ _ _ Hr Hl) as Hr1. destruct Hl as [Hl _].
  destruct (append_reply_known γ1 n v sent t reply) as [(args & Hin & Hlead & <- & Ht)|Hno];
    [|left; intros nd'; by eapply ex_no_ack].
  assert (acknowledges γ1 n v args reply t) as Hak by (split; try done; by apply member_peer).
  right. split_and!; [by apply starts_fails; econstructor| |by intros [] ? ? ?; auto; done].
  intros folded c σ Hrun. assert (step γ1 (with_node n c σ γ1)) as St by by eapply cl_section, cl_fold.
  eexists. split; [exact St|]. split; [elsewhere|]. do 4 (split; [by rw /= ?fn_lookup_insert|]).
  apply Hk. by eapply rtc_r.
Qed.

Lemma send_conforms n {A} Q peer (k : AppendEntriesArgs → task message (Node L) A) γ :
  n ∈ members → (∀ args γ2, rtc step γ γ2 → conforms n Q (k args) None γ2) →
  conforms n Q (await (core_section_on (Some (AppendRequest peer)) (self (build_append_entries peer))) k)
    None γ.
Proof.
  intros Hn Hk. apply conforms_await, conforms_core. intros γ1 nd Hl Hs. rw /self /gets. cbn [fst].
  destruct (decide (rc_role (nd_core nd) = Leader)) as [Hrole|]; [|left; by eapply ex_stale].
  destruct (decide (has_next peer (nd_core nd))) as [Hnext|]; [|left; by eapply ex_lagging].
  rw (se_core _ _ _ Hs) in Hrole, Hnext. right.
  assert (step γ1 (with_append_req peer (build_append_entries peer (cl_core γ1 n)) γ1)) as St
    by by apply cl_section, cl_send.
  exists None. eexists. split; [eapply moves_step; [done|done|elsewhere|done]|]. split.
  { rw /= (se_core _ _ _ Hs). by apply list_elem_of_here. }
  do 4 (split; [done|]). apply Hk. destruct Hl as [Hl _]. by eapply rtc_r.
Qed.

Lemma round_conforms n Q t events : ∀ pending sent acks γ,
  n ∈ members → guarded_reachable members γ → Forall (other n) pending → map_Forall (λ v _, other n v) sent →
  (∀ r γ2, rtc step γ γ2 → Q r None γ2) →
  conforms n Q (round events pending sent t acks) None γ.
Proof.
  induction events as [|ev events IH]; intros pending sent acks γ Hn Hr Hp Hsent HQ; [by apply HQ|].
  assert (∀ γ2, rtc step γ γ2 → guarded_reachable members γ2 ∧ ∀ r γ3, rtc step γ2 γ3 → Q r None γ3) as Hlater.
  { intros γ2 H2. split; [by eapply (reachable_later n None); [exact Hr|]|].
    intros r γ3 H3. apply HQ. by etrans. }
  destruct ev as [peer|peer result]; cbn [round].
  - destruct (list_remove peer pending) as [pending'|] eqn:Er; [|by apply IH].
    apply list_remove_Some in Er. rw Er in Hp. apply Forall_cons in Hp as [Hpeer Hp].
    apply send_conforms; [done|]. intros args γ2 [H2 H3]%Hlater. apply IH; try done.
    by apply map_Forall_insert_2.
  - destruct (sent !! peer) as [last|] eqn:Es; [|by apply IH].
    assert (map_Forall (λ v _, other n v) (delete peer sent)) as Hsent' by by apply map_Forall_delete.
    destruct result as [reply|e|]; [|by apply IH..]. apply fold_conforms; [done| |done| |done].
    + by eapply (map_Forall_lookup_1 _ _ _ _ Hsent).
    + intros [acks'|] γ2 [H2 H3]%Hlater; [by apply IH|by apply H3].
Qed.

Lemma broadcast_conforms n Q now events γ :
  n ∈ members → guarded_reachable members γ → (∀ r γ2, rtc step γ γ2 → Q r None γ2) →
  conforms n Q (broadcast_append_entries now events) None γ.
Proof.
  intros Hn Hr HQ. apply conforms_await, conforms_read. intros γ1 Hl1.
  pose proof (reachable_later _ _ _ _ Hr Hl1) as Hr1. destruct Hl1 as [Hl1 _]. cbn [fst snd].
  apply conforms_await, round_conforms; try done.
  { destruct (reachable_peers n γ1 Hr1 Hn) as (Hnd & Hp & _). apply NoDup_cons in Hnd as [Hni _].
    apply Forall_forall. intros v Hv. split; [|by intros ->]. rw -Hp. by apply list_elem_of_further. }
  intros [[acks|]|e|] γ2 H2; [|apply HQ; by etrans..].
  apply conforms_await, conforms_read. intros γ3 [H3 _].
  destruct (_ <=? _); [|apply HQ; by do 2 (etrans; [done|])].
  apply (conforms_core _ None). intros γ4 nd Hl4 Hs. rw /update /modify. right.
  exists None, (with_node n (renew_lease now (cl_core γ4 n)) (cl_disk γ4 n) γ4).
  assert (step γ4 (with_node n (renew_lease now (cl_core γ4 n)) (cl_disk γ4 n) γ4)) as St by by apply cl_section, cl_renew.
  split; [eapply moves_step; [done|done|elsewhere|done]|]. split; [done|]. do 4 (split; [by rw /= ?fn_lookup_insert|]).
  destruct Hl4 as [H4 _]. apply HQ. eapply rtc_r; [|exact St]. by do 3 (etrans; [done|]).
Qed.

(** ** Applying *)

Lemma conforms_section n {A} (ready : Node L → bool) (m : M (Node L) A) Q own γ :
  (∀ γ1 nd, later n own γ γ1 → sees γ1 n nd →
     let '(r, nd') := m nd in
     exit γ1 n None nd nd' ∨ ∃ own' γ2, moves n own own' γ1 γ2 ∧ sees γ2 n nd' ∧ Q r own' γ2) →
  conforms n Q (section_when ready m) own γ.
Proof.
  intros H γ1 nd Hl Hs _. specialize (H γ1 nd Hl Hs). destruct (m nd) as [r nd'].
  destruct H as [H|(own' & γ2 & H1 & H2 & H3)]; [by left|right]. by exists own', γ2.
Qed.

(** A step by which the task that applies entries gets on. *)
Lemma moves_phase n own own' γ1 γ2 :
  step γ1 γ2 → only n γ1 γ2 →
  handed own own' (cl_phase γ1 n) (cl_phase γ2 n) → keeps_phase n own' γ2 → moves n own own' γ1 γ2.
Proof. intros Hs Ho Hh Hk. split; [by apply rtc_once|done..]. Qed.

(** What a member takes: nothing, or it moves on. *)
Lemma take_conforms n γ out c :
  guarded_reachable members γ → n ∈ members → take_committed (cl_core γ n) = (out, c) →
  (out = [] ∧ c = cl_core γ n) ∨ (out ≠ [] ∧ rc_last_applied c ≠ rc_last_applied (cl_core γ n)).
Proof.
  intros Hr Hn E. destruct (reachable_follows _ members_distinct members_bound _ Hr) as (s & _ & S).
  pose proof (sim_node _ _ _ S n Hn) as N. pose proof (ok_applied _ _ _ _ N). pose proof (ok_commit _ _ _ _ N).
  pose proof (ok_base _ _ _ _ N). destruct (take_node _ _ _ _ (sim_inv _ _ _ S) N) as [Ha Et].
  rw Et in E. injection E as <- <-. destruct (decide (rc_last_applied (cl_core γ n) = rc_commit_index (cl_core γ n))) as [He|].
  - left. split; [|by rw -He; destruct (cl_core γ n)]. apply drop_ge. rw length_take. lia.
  - right. split; [|done]. intros E%(f_equal length). rw length_drop length_take /= in E. lia.
Qed.

(** From the entries in the store on: a snapshot if one is due. *)
Lemma snapshot_conforms n Q applied γ :
  n ∈ members → (∀ r γ2, rtc step γ γ2 → Q r None γ2) →
  conforms n Q (await! term := core_section (self (λ c, default 0 (term_at applied c))) in
                await! meta := section (releasing_on_error (on_store (store_snapshot term))) in
                section (releasing (on_core (compact meta)))) (Some (Due applied)) γ.
Proof.
  intros Hn HQ. apply conforms_await, (conforms_core _ None). intros γ1 nd1 [Hl1 [Hp1 _]] Hs1.
  rw /self /gets. cbn [fst]. set (term := default 0 _). right.
  assert (step γ1 (with_phase n (Termed term) γ1)) as St1 by by eapply cl_section, cl_term.
  exists (Some (Termed term)), (with_phase n (Termed term) γ1).
  split; [apply moves_phase; [done|elsewhere|done|by split; [at_node|]]|]. split; [done|].
  do 3 (split; [done|]). split; [by rw /= fn_lookup_insert Hp1|].
  apply conforms_await, conforms_section. intros γ2 nd2 [Hl2 [Hp2 _]] Hs2.
  rw /releasing_on_error /on_store (se_store _ _ _ Hs2) (se_disk _ _ _ Hs2).
  destruct (store_snapshot term (cl_store γ2 n, cl_disk γ2 n)) as [r [st σ]] eqn:E. right.
  assert (Ok_or : (∃ meta, r = Ok meta) ∨ failed r) by (destruct r; [left; eauto|by right..]).
  destruct Ok_or as [[meta ->]|Hf].
  - set (γ3 := with_saved n (image term (cl_store γ2 n))
                 (with_phase n (Saved meta) (with_state n (cl_core γ2 n) st σ γ2))).
    assert (step γ2 γ3) as St2 by by eapply cl_section, cl_save. exists (Some (Saved meta)), γ3.
    split; [apply moves_phase; [done|elsewhere|done|by split; [at_node|]]|]. split.
    { destruct Hs2 as [H1 H2 H3 H4]. split; at_node. by rw H4 Hp2. }
    apply conforms_section. intros γ4 nd4 [Hl4 [Hp4 _]] Hs4.
    rw /releasing /on_core (se_core _ _ _ Hs4) (se_disk _ _ _ Hs4).
    destruct (compact meta (cl_core γ4 n, cl_disk γ4 n)) as [r [c' σ']] eqn:Ec.
    destruct (decide (r = Ok tt)) as [->|Hr]; [right|left].
    + assert (step γ4 (with_phase n Resting (with_node n c' σ' γ4))) as St4 by by eapply cl_section, cl_compact.
      exists None, (with_phase n Resting (with_node n c' σ' γ4)).
      split; [apply moves_phase; [done|elsewhere|by at_node|done]|]. split.
      { destruct Hs4 as [H1 H2 H3 H4]. split; at_node. }
      apply HQ. etrans; [exact Hl1|]. eapply rtc_l; [exact St1|]. etrans; [exact Hl2|].
      eapply rtc_l; [exact St2|]. by eapply rtc_r.
    + eapply ex_compaction; [done| |done|].
      * by rw (se_held _ _ _ Hs4) Hp4.
      * rw (se_core _ _ _ Hs4) (se_disk _ _ _ Hs4) Ec /=. by destruct r as [[]| |].
  - set (γ3 := with_saved n (cl_saved γ2 n) (with_phase n Resting (with_state n (cl_core γ2 n) st σ γ2))).
    assert (step γ2 γ3) as St2 by (eapply cl_section, cl_save_failed; [done|done|done|done|by left]).
    exists None, γ3. split; [apply moves_phase; [done|elsewhere|by at_node|done]|]. split.
    { destruct Hs2 as [H1 H2 H3 H4]. destruct r; [done|..]; split; at_node. }
    assert (rtc step γ γ3) as Hst.
    { etrans; [exact Hl1|]. eapply rtc_l; [exact St1|]. by eapply rtc_r. }
    destruct r; [done|by apply HQ..].
Qed.

Lemma apply_conforms n Q γ :
  n ∈ members → guarded_reachable members γ → (∀ r γ2, rtc step γ γ2 → Q r None γ2) →
  conforms n Q apply_committed None γ.
Proof.
  intros Hn Hr HQ. apply conforms_await, (conforms_core _ None). intros γ1 nd1 Hl1 Hs1.
  pose proof (reachable_later _ _ _ _ Hr Hl1) as Hr1. destruct Hl1 as [Hl1 _].
  destruct (take_committed (cl_core γ1 n)) as [out c] eqn:Et.
  destruct (take_conforms n γ1 out c Hr1 Hn Et) as [[-> ->]|[Hout Hc]].
  { right. exists None, γ1. split; [by apply (moves_refl n None γ1)|]. split_and!; [done..|]. by apply HQ. }
  destruct (cl_phase γ1 n) eqn:Hp1.
  2-5: left; apply ex_applying; [by rw Hp1|by rw /= (se_core _ _ _ Hs1)].
  right. set (γ2 := with_phase n (Taken out) (with_node n c (cl_disk γ1 n) γ1)).
  assert (step γ1 γ2) as St1.
  { pose proof (cl_section members _ _ (cl_take members γ1 n out c Hn Hp1 Et)) as St. by destruct out. }
  exists (Some (Taken out)), γ2.
  split; [apply moves_phase; [done|elsewhere|by rw Hp1|by split; [at_node|]]|].
  do 5 (split; [by rw /= ?fn_lookup_insert|]).
  destruct (last out) as [newest|] eqn:El; [|by apply last_None in El].
  apply conforms_await, conforms_section. intros γ3 nd3 [Hl3 [Hp3 _]] Hs3. rw /apply_entries.
  rw (se_store _ _ _ Hs3) -/(store_out out (cl_store γ3 n)). set (st := store_out out _). right.
  set (γ4 := with_applied n out
        (with_phase n (if should_snapshot st then Due (store_last_applied st) else Resting)
          (with_state n (cl_core γ3 n) st (cl_disk γ3 n) γ3))).
  assert (step γ3 γ4) as St3 by by eapply cl_section, cl_fill.
  assert (rtc step γ γ4) as Hst4.
  { etrans; [exact Hl1|]. eapply rtc_l; [exact St1|]. by eapply rtc_r. }
  assert (∀ γ5, rtc step γ4 γ5 →
    conforms n Q (section (modify (with_commit (e_index newest)))) None γ5) as Hpub.
  { intros γ5 H5. apply conforms_quiet. intros γ6 nd6 [H6 _] [E1 E2 E3 E4]. split; [by split|].
    apply HQ. by do 2 (etrans; [done|]). }
  exists (if should_snapshot st then Some (Due (store_last_applied st)) else None), γ4.
  destruct Hs3 as [H1 H2 H3 H4]. destruct (should_snapshot st) eqn:Ed.
  - split; [apply moves_phase; [done|elsewhere|done|by split; [at_node; rw Ed|]]|].
    split; [by split; at_node; rw Ed|]. apply conforms_await, snapshot_conforms; [done|].
    intros [[]|e|] γ5 H5; [by apply Hpub|apply HQ; by etrans..].
  - split; [apply moves_phase; [done|elsewhere|by at_node; rw Ed|done]|].
    split; [by split; at_node; rw Ed|]. by apply conforms_await, Hpub.
Qed.

(** ** The tasks of a node *)

Lemma tick_conforms n Q now now' draw votes events γ :
  n ∈ members → guarded_reachable members γ → (∀ r γ2, rtc step γ γ2 → Q r None γ2) →
  conforms n Q (tick now now' draw votes events) None γ.
Proof.
  intros Hn Hr HQ. apply conforms_await, conforms_read. intros γ1 Hl1.
  pose proof (reachable_later _ _ _ _ Hr Hl1) as Hr1. destruct Hl1 as [Hl1 _].
  assert (∀ (r : outcome unit) γ2, rtc step γ1 γ2 →
    match r with Ok _ => conforms n Q apply_committed None γ2 | Err e => Q (Err e) None γ2
               | Panic => Q Panic None γ2 end) as Hnext.
  { intros r γ2 H2. assert (rtc step γ γ2) as H by by etrans.
    destruct r; [|by apply HQ..]. apply apply_conforms; [done| |].
    - by apply (reachable_later n None γ1).
    - intros r' γ3 H3. apply HQ. by etrans. }
  destruct (is_leader _); [|destruct (election_timed_out _ _)]; apply conforms_await.
  - by apply broadcast_conforms.
  - by apply start_election_conforms.
  - apply (Hnext (Ok tt)). done.
Qed.

Lemma propose_conforms n Q command now events γ :
  n ∈ members → guarded_reachable members γ → (∀ r γ2, rtc step γ γ2 → Q r None γ2) →
  conforms n Q (propose command now events) None γ.
Proof.
  intros Hn Hr HQ. apply conforms_await, (conforms_starts _ None (propose_section command)); [done..|].
  intros γ1 nd Hl Hs.
  destruct (decide (log_room (nd_core nd))) as [Hroom|]; [|left; intros nd'; by apply ex_log_full].
  rw (se_core _ _ _ Hs) in Hroom. pose proof (reachable_later _ _ _ _ Hr Hl) as Hr1. destruct Hl as [Hl _].
  right. split_and!; [by apply starts_fails; constructor| |by intros [] ? ? ?; auto; done].
  intros i c σ Hrun. assert (step γ1 (with_node n c σ γ1)) as St by by eapply cl_section, cl_propose.
  eexists. split; [exact St|]. split; [elsewhere|]. do 4 (split; [by rw /= ?fn_lookup_insert|]).
  assert (∀ γ3, rtc step (with_node n c σ γ1) γ3 → guarded_reachable members γ3 ∧ rtc step γ γ3) as Hlater.
  { intros γ3 H3. assert (rtc step γ1 γ3) as H by by eapply rtc_l.
    split; [by apply (reachable_later n None γ1)|by etrans]. }
  apply conforms_await, conforms_discard, broadcast_conforms; [done|by apply Hlater|].
  intros [?|?|] γ3 H3; [..|by apply HQ, Hlater].
  all: destruct (Hlater γ3 H3) as [Hr3 _]; apply conforms_await, apply_conforms; [done..|].
  all: intros [?|?|] γ4 H4; apply HQ, Hlater; by etrans.
Qed.

Lemma wait_conforms n Q index : ∀ events γ,
  (∀ r γ2, rtc step γ γ2 → Q r None γ2) → conforms n Q (wait_for_commit (L := L) index events) None γ.
Proof.
  induction events as [|ev events IH]; intros γ HQ.
  all: apply conforms_await, conforms_quiet; intros γ1 nd [Hl _] Hs; split; [done|].
  all: cbn [gets fst]; destruct (index <=? nd_commit nd); [by apply HQ|].
  - by intros γ2 nd2 _ _.
  - destruct ev; [|by apply HQ..]. apply IH. intros r γ2 H2. apply HQ. by etrans.
Qed.

(** A write: a proposal, and the wait for its commit. *)
Lemma write_conforms n {A} Q command now events waits (reply : Z → A) γ :
  n ∈ members → guarded_reachable members γ → (∀ r γ2, rtc step γ γ2 → Q r None γ2) →
  conforms n Q (then_serve (map_err_status io_text (propose command now events)) (λ index,
                then_serve (wait_for_commit index waits) (λ _, Done (Ok (inl (reply index)))))) None γ.
Proof.
  intros Hn Hr HQ. apply conforms_await, conforms_map_err, propose_conforms; [done..|].
  intros [index|e|] γ2 H2; [|by apply HQ..]. cbn beta iota. apply conforms_await, wait_conforms.
  intros [[[]|st]|e|] γ3 H3; apply HQ; by etrans.
Qed.

(** The tasks that run on node [n] when the messages of [γ] have been sent, with what a
    service that handles a peer's request guarantees of its reply: the ticks of the driver,
    the requests of clients, and the requests of peers, which the network has to carry. *)
Inductive node_task γ n : ∀ {A}, task message (Node L) A → (outcome A → cluster L → Prop) → Prop :=
| nt_tick now now' draw votes events :
    node_task γ n (tick now now' draw votes events) (λ _ _, True)
| nt_put key value now events waits :
    node_task γ n (kv_put io_text key value now events waits) (λ _ _, True)
| nt_delete key now events waits :
    node_task γ n (kv_delete io_text key now events waits) (λ _ _, True)
| nt_get key : node_task γ n (kv_get key) (λ _ _, True)
| nt_request_vote args now draw :
    args ∈ cl_vote_reqs γ →
    node_task γ n (serve_request_vote io_text args now draw) (λ r γ',
      ∀ reply, r = Ok (inl reply) → (n, args, reply) ∈ cl_vote_reps γ')
| nt_append_entries args request now draw :
    (n, args) ∈ cl_append_reqs γ → append_entries_request args = Ok request →
    Forall (λ e, representable (e_command e)) (ae_entries args) →
    node_task γ n (serve_append_entries io_text request now draw) (λ r γ',
      ∀ reply, r = Ok (inl reply) → (n, args, reply) ∈ cl_append_reps γ').

Lemma get_conforms n Q key γ :
  (∀ r γ2, rtc step γ γ2 → Q r None γ2) → conforms n Q (kv_get (L := L) key) None γ.
Proof.
  intros HQ. apply conforms_await, conforms_read. intros γ1 [H1 _]. cbn beta iota.
  destruct (is_leader _); [|by apply HQ]. cbn [negb].
  apply conforms_await, conforms_quiet. intros γ2 nd [H2 _] Hs. split; [done|]. apply HQ. by etrans.
Qed.

Lemma request_vote_conforms n Q args now draw γ :
  n ∈ members → args ∈ cl_vote_reqs γ →
  (∀ r γ2, rtc step γ γ2 → (∀ reply, r = Ok (inl reply) → (n, args, reply) ∈ cl_vote_reps γ2) →
           Q r None γ2) →
  conforms n Q (serve_request_vote io_text args now draw) None γ.
Proof.
  intros Hn Ha HQ. rw /serve_request_vote.
  assert (MkRequestVoteArgs (rv_term args) (rv_candidate_id args) (rv_last_log_index args)
            (rv_last_log_term args) = args) as -> by by destruct args.
  apply conforms_await, conforms_map_err, (conforms_starts _ None); [done..|]. intros γ1 nd [Hl _] Hs.
  assert (args ∈ cl_vote_reqs γ1) as Ha1 by by apply (gr_vote_reqs _ _ (steps_grown _ _ Hl)).
  right. split_and!; [by apply starts_fails; constructor| |by intros [] γ2 ? ?; apply HQ].
  intros reply c σ Hrun.
  assert (step γ1 (with_vote_rep n args reply (with_node n c σ γ1))) as St by by eapply cl_section, cl_vote.
  eexists. split; [exact St|]. split; [elsewhere|]. do 4 (split; [by rw /= ?fn_lookup_insert|]).
  apply HQ; [by eapply rtc_r|]. intros reply' [= <-]. destruct reply. by apply list_elem_of_here.
Qed.

Lemma append_entries_conforms n Q args request now draw γ :
  n ∈ members → (n, args) ∈ cl_append_reqs γ → append_entries_request args = Ok request →
  Forall (λ e, representable (e_command e)) (ae_entries args) →
  (∀ r γ2, rtc step γ γ2 → (∀ reply, r = Ok (inl reply) → (n, args, reply) ∈ cl_append_reps γ2) →
           Q r None γ2) →
  conforms n Q (serve_append_entries io_text request now draw) None γ.
Proof.
  intros Hn Ha Hreq Hes HQ. destruct (entries_pb_roundtrip _ Hes) as (ps & E1 & E2).
  rw /append_entries_request E1 in Hreq. injection Hreq as <-. rw /serve_append_entries.
  cbn [aq_entries aq_term aq_leader_id aq_prev_log_index aq_prev_log_term aq_leader_commit]. rw E2.
  cbn [then_serve map_err_status await].
  assert (MkAppendEntriesArgs (ae_term args) (ae_leader_id args) (ae_prev_log_index args)
            (ae_prev_log_term args) (ae_entries args) (ae_leader_commit args) = args) as ->
    by by destruct args.
  apply conforms_await, conforms_map_err, (conforms_starts _ None); [done..|]. intros γ1 nd [Hl _] Hs.
  assert ((n, args) ∈ cl_append_reqs γ1) as Ha1 by by apply (gr_append_reqs _ _ (steps_grown _ _ Hl)).
  right. split_and!; [by apply starts_fails; constructor| |by intros [] γ2 ? ?; apply HQ].
  intros reply c σ Hrun.
  assert (step γ1 (with_append_rep n args reply (with_node n c σ γ1))) as St by by eapply cl_section, cl_append.
  eexists. split; [exact St|]. split; [elsewhere|]. do 4 (split; [by rw /= ?fn_lookup_insert|]).
  apply HQ; [by eapply rtc_r|]. intros reply' [= <-]. destruct reply. by apply list_elem_of_here.
Qed.

Lemma node_task_conforms γ n {A} (t : task message (Node L) A) post :
  guarded_reachable members γ → n ∈ members → node_task γ n t post →
  conforms n (λ r own γ', own = None ∧ post r γ') t None γ.
Proof.
  intros Hr Hn Ht. destruct Ht.
  - by apply tick_conforms.
  - by apply write_conforms.
  - by apply write_conforms.
  - by apply get_conforms.
  - apply request_vote_conforms; auto.
  - eapply append_entries_conforms; eauto.
Qed.

(** ** Tasks side by side *)

(** Every task in the pool of [n] conforms, and at most one of them applies entries. *)
Definition ended {A} (r : outcome A) own γ : Prop := own = None.
Definition attended γ n (ts : list (task message (Node L) unit)) : Prop :=
  ∃ owns, Forall2 (λ t own, conforms n ended t own γ) ts owns
    ∧ ∀ i own, owns !! i = Some own → keeps_phase n own γ
        ∧ ∀ j, is_Some own → is_Some (mjoin (owns !! j)) → j = i.

Lemma conforms_later n {A} (t : task message (Node L) A) own γ γ' :
  conforms n ended t own γ → later n own γ γ' → conforms n ended t own γ'.
Proof.
  destruct t; [done|]. intros H [Hl _] γ1 nd [H1 Hk]. apply H. split; [by etrans|done].
Qed.

(** A pool that nobody runs. *)
Lemma attended_later γ γ' n ts :
  attended γ n ts → rtc step γ γ' → cl_phase γ' n = cl_phase γ n → attended γ' n ts.
Proof.
  intros (owns & Hc & Ho) Hst Hp.
  assert (∀ own, keeps_phase n own γ → keeps_phase n own γ') as Hk.
  { intros own. rw /keeps_phase Hp. done. }
  exists owns. split.
  - apply Forall2_same_length_lookup. split; [by eapply Forall2_length|]. intros i t own Ht Hown.
    apply (conforms_later n t own γ); [by apply (Forall2_lookup_lr _ _ _ _ _ _ Hc Ht Hown)|].
    split; [done|]. by apply Hk, (Ho i).
  - intros i own Hown. destruct (Ho i own Hown) as [Hki Hu]. split; [by apply Hk|done].
Qed.

(** A new task. *)
Lemma attended_start γ n ts {A} (t : task message (Node L) A) post :
  guarded_reachable members γ → n ∈ members → attended γ n ts → node_task γ n t post →
  attended γ n (ts ++ [discard t]).
Proof.
  intros Hr Hn (owns & Hc & Ho) Ht. exists (owns ++ [None]). split.
  - apply Forall2_app; [done|]. constructor; [|constructor]. apply conforms_discard.
    eapply conforms_weaken; [|by eapply node_task_conforms]. by intros r own γ' [? _].
  - intros i own [Hi|[_ Hi]]%lookup_app_Some.
    + destruct (Ho i own Hi) as [Hk Hu]. split; [done|]. intros j Hs Hj. apply Hu; [done|].
      destruct (owns !! j) as [own'|] eqn:Ej; [by rw (lookup_app_l_Some _ _ _ _ Ej) in Hj|].
      destruct Hj as [ph Hj]. apply lookup_ge_None in Ej.
      rw lookup_app_r // in Hj. by destruct (j - length owns)%nat as [|[]].
    + destruct (i - length owns)%nat as [|[]]; simplify_eq/=. split; [done|]. by intros j [? ?].
Qed.

(** Its next section. *)
Lemma attended_section γ n nd ts nd' ts' :
  sees γ n nd → attended γ n ts → pool_step (nd, ts) (nd', ts') →
  (∃ i e ready f, ts !! i = Some (Atomic e ready f) ∧ exit γ n e nd nd')
  ∨ ∃ γ', rtc step γ γ' ∧ only n γ γ' ∧ sees γ' n nd' ∧ attended γ' n ts'.
Proof.
  intros Hs (owns & Hc & Ho) Hstep.
  inversion Hstep as [s0 ts0 i e ready f t' s' Hi Hready Ef]; subst.
  destruct (Forall2_lookup_l _ _ _ _ _ Hc Hi) as (own & Hown & Hci).
  destruct (Ho i own Hown) as [Hk Hu].
  specialize (Hci γ nd (conj (rtc_refl _ _) Hk) Hs Hready). rw Ef in Hci.
  destruct Hci as [Hx|(own' & γ2 & [Hst Hoth Hh Hk'] & _ & Hs' & Hc')]; [left; by exists i, e, ready, f|right].
  assert (∀ j ph, j ≠ i → owns !! j = Some (Some ph) → own = None ∧ own' = None ∧ keeps_phase n (Some ph) γ2) as Hj.
  { intros j ph Hne Hj. destruct (Ho j _ Hj) as [[Hp Hnr] _].
    destruct own as [ph0|]; [destruct Hne; apply Hu; [done|by rw Hj]|]. rw /handed in Hh.
    destruct own'; [congruence|]. split_and!; [done..|]. by rw /keeps_phase Hh. }
  exists γ2. split_and!; [done..|]. exists (<[i := own']> owns). split.
  - apply Forall2_same_length_lookup. split; [rw !length_insert; by eapply Forall2_length|].
    intros j t own0. destruct (decide (j = i)) as [->|Hne].
    { rw !list_lookup_insert_eq; [by eapply lookup_lt_Some..|]. by intros [= <-] [= <-]. }
    rw !list_lookup_insert_ne //. intros Ht Hj0. apply (conforms_later n t own0 γ).
    { by apply (Forall2_lookup_lr _ _ _ _ _ _ Hc Ht Hj0). }
    split; [done|]. destruct own0 as [ph|]; [|done]. by eapply Hj.
  - intros j own0 [(-> & <- & _)|[Hne Hj0]]%list_lookup_insert_Some.
    + split; [done|]. intros j' Hs0 Hsj. destruct (decide (j' = j)) as [|Hne]; [done|exfalso].
      rw list_lookup_insert_ne // in Hsj. destruct (owns !! j') as [[ph|]|] eqn:Ej; try by destruct Hsj.
      destruct (Hj j' ph Hne Ej) as (_ & -> & _). by destruct Hs0.
    + destruct own0 as [ph|]; [|split; [done|by intros ? [? ?]]].
      destruct (Hj j ph ltac:(done) Hj0) as (-> & -> & Hkj). split; [done|]. intros j' _ Hsj.
      destruct (decide (j' = i)) as [->|Hne'].
      { rw list_lookup_insert_eq in Hsj; [by eapply lookup_lt_Some|]. by destruct Hsj. }
      rw list_lookup_insert_ne // in Hsj. by apply (proj2 (Ho j _ Hj0)).
Qed.

(** ** The system *)

(** All nodes with their pools of tasks are those of a reachable cluster. *)
Record attuned γ (nodes : Z → Node L) (pools : Z → list (task message (Node L) unit)) : Prop := {
  at_reachable : guarded_reachable members γ;
  at_sees n : n ∈ members → sees γ n (nodes n);
  at_tasks n : n ∈ members → attended γ n (pools n)
}.

Lemma attuned_init γ nodes :
  cluster_init members γ → (∀ n, n ∈ members → sees γ n (nodes n)) → attuned γ nodes (λ _, []).
Proof.
  intros Hi Hs. split; [by exists γ|done|]. intros n Hn. exists []. split; [done|].
  intros i own Hown. by rw lookup_nil in Hown.
Qed.

Lemma attuned_start γ nodes pools n {A} (t : task message (Node L) A) post :
  attuned γ nodes pools → n ∈ members → node_task γ n t post →
  attuned γ nodes (<[n := pools n ++ [discard t]]> pools).
Proof.
  intros [Hr Hs Ht] Hn Hnt. split; [done..|]. intros n' Hn'.
  destruct (decide (n' = n)) as [->|Hne]; [|rw fn_lookup_insert_ne //; by apply Ht].
  rw fn_lookup_insert. eapply attended_start; eauto.
Qed.

(** C8: the asynchronous system stays within the cluster: when any node runs the next section
    of any of its tasks, the nodes are again those of a reachable cluster, which has moved by
    its steps, and all tasks of all nodes still conform; or the section is one of the listed
    exits. *)
Theorem system_conforms γ nodes pools n nd' ts' :
  attuned γ nodes pools → n ∈ members → pool_step (nodes n, pools n) (nd', ts') →
  (∃ i e ready f, pools n !! i = Some (Atomic e ready f) ∧ exit γ n e (nodes n) nd')
  ∨ ∃ γ', rtc step γ γ' ∧ attuned γ' (<[n := nd']> nodes) (<[n := ts']> pools).
Proof.
  intros [Hr Hs Ht] Hn Hstep.
  destruct (attended_section γ n _ _ _ _ (Hs n Hn) (Ht n Hn) Hstep) as [Hx|(γ' & Hst & Ho & Hs' & Ht')];
    [by left|right]. exists γ'. split; [done|]. split.
  - by apply (reachable_later n None γ).
  - intros n' Hn'. destruct (decide (n' = n)) as [->|Hne]; [by rw fn_lookup_insert|].
    rw fn_lookup_insert_ne //. destruct (Hs n' Hn') as [E1 E2 E3 E4]. destruct (Ho n' Hne) as (H1 & H2 & H3 & H4).
    split; congruence.
  - intros n' Hn'. destruct (decide (n' = n)) as [->|Hne]; [by rw fn_lookup_insert|].
    rw fn_lookup_insert_ne //. apply (attended_later γ); [by apply Ht|done|]. by apply Ho.
Qed.

(** C7: the driver and the services run the cluster: every task of a node, in any reachable
    cluster and whatever else happens there between its sections, moves the cluster by the
    steps of file Cluster, its messages being the network's and the replies of its handlers
    the ones recorded there, until it ends without holding a lock or leaves the steps by one
    of the listed exits. *)
Theorem tasks_conform γ n {A} (t : task message (Node L) A) post :
  guarded_reachable members γ → n ∈ members → node_task γ n t post →
  conforms n (λ r own γ', own = None ∧ post r γ') t None γ.
Proof. apply node_task_conforms. Qed.

End conformance.

(** ** Witnesses *)

#[local] Existing Instance crc32fast.
#[local] Existing Instance bincode_codec.

Definition demo_text (kind : ErrorKind) : string := "failed".

(** A client writes to the node that leads. *)
Definition demo_write : task message (Node Log) (served PutResponse) :=
  kv_put demo_text [x6b] [x76] 0 [Sent 2; Sent 3] [].

Lemma tasks_conform_witness :
  guarded_reachable demo_members demo_committed
  ∧ conforms demo_members 1 (λ r own γ', own = None ∧ True) demo_write None demo_committed.
Proof.
  split; [apply demo_committed_reachable|].
  apply (tasks_conform demo_text demo_members ltac:(evaluate) ltac:(evaluate) demo_committed 1 demo_write
           (λ _ _, True)); [apply demo_committed_reachable|evaluate|apply nt_put].
Defined.

(** Three new nodes, one of which ticks. *)
Definition demo_nodes (n : Z) : Node Log :=
  MkNode (cl_core demo_fresh n) (cl_store demo_fresh n) false 0 (cl_disk demo_fresh n).
Definition demo_tick : task message (Node Log) unit := tick (from_millis 500) 0 0 [] [].
Definition demo_pools : Z → list (task message (Node Log) unit) := <[1 := [discard demo_tick]]> (λ _, []).
Definition demo_ticked : task message (Node Log) unit * Node Log :=
  match discard demo_tick with Atomic _ _ f => f (demo_nodes 1) | t => (t, demo_nodes 1) end.

Lemma demo_attuned : attuned demo_members demo_fresh demo_nodes demo_pools.
Proof.
  apply (attuned_start demo_text demo_members ltac:(evaluate) ltac:(evaluate) demo_fresh demo_nodes (λ _, [])
           1 demo_tick (λ _ _, True)); [|evaluate|apply nt_tick].
  apply attuned_init; [apply demo_fresh_init|]. by intros n _.
Qed.

Lemma system_conforms_witness :
  pool_step (demo_nodes 1, demo_pools 1) (demo_ticked.2, [demo_ticked.1])
  ∧ ((∃ i e ready f, demo_pools 1 !! i = Some (Atomic e ready f)
        ∧ exit demo_fresh 1 e (demo_nodes 1) demo_ticked.2)
     ∨ ∃ γ', rtc (guarded_step demo_members) demo_fresh γ'
         ∧ attuned demo_members γ' (<[1 := demo_ticked.2]> demo_nodes)
             (<[1 := [demo_ticked.1]]> demo_pools)).
Proof.
  assert (pool_step (demo_nodes 1, demo_pools 1) (demo_ticked.2, [demo_ticked.1])) as St.
  { eapply (step_section (demo_nodes 1) [discard demo_tick] 0);
      [reflexivity|reflexivity|exact (surjective_pairing demo_ticked)]. }
  split; [exact St|].
  apply (system_conforms demo_members demo_fresh demo_nodes demo_pools 1);
    [apply demo_attuned|evaluate|exact St].
Defined.
