(* ===== verification/Startup.v ===== *)
(** * Startup: the configuration file and the start of a node (src/config.rs, src/main.rs).

    Reading the file is [std], its syntax is the [toml] crate (class [Toml]); which fields may
    be missing and what they default to is the code's.  [start_node] is [main] up to serving:
    the command line is parsed by [clap] into [Cli], and serving is [tonic].

    A node that starts on an empty disk is the fresh node from which file Cluster starts. *)

From Corelib Require Import ssreflect.
From Stdlib Require Import Strings.String.
From stdpp Require Import base gmap strings list sorting.
From S2P Require Import Prelude Text Fs AtomicFile Crc WalLog Codec Config MemTable Snapshot RaftState.
From S2P Require Import Wal RaftCore Election Replication Mirror Task Store Driver Service Cluster Safety.

(** ** Reading the file *)

(** A continuation byte, and a byte of the range [lo..=hi]. *)
Definition between (lo hi : Z) (b : byte) : bool := (lo <=? Z_of_byte b) && (Z_of_byte b <=? hi).
Definition continuation : byte → bool := between 128 191.

(** [core::str::from_utf8]: no overlong forms, no surrogates, nothing above 0x10ffff. *)
Fixpoint utf8_valid (bs : list byte) : bool :=
  match bs with
  | [] => true
  | b :: bs =>
      if between 0 127 b then utf8_valid bs
      else match bs with
      | b1 :: bs =>
          if between 194 223 b then continuation b1 && utf8_valid bs
          else match bs with
          | b2 :: bs =>
              if between 224 239 b then
                (if Z_of_byte b =? 224 then between 160 191 b1
                 else if Z_of_byte b =? 237 then between 128 159 b1 else continuation b1)
                && continuation b2 && utf8_valid bs
              else match bs with
              | b3 :: bs =>
                  between 240 244 b
                  && (if Z_of_byte b =? 240 then between 144 191 b1
                      else if Z_of_byte b =? 244 then between 128 143 b1 else continuation b1)
                  && continuation b2 && continuation b3 && utf8_valid bs
              | [] => false
              end
          | [] => false
          end
      | [] => false
      end
  end.

(** [std::fs::read_to_string]. *)
Definition read_to_string (p : path) : M fs string :=
  let! bytes := fs_read p in
  if utf8_valid bytes then ret (string_of_list_byte bytes) else throw (EIo OtherIo).

(** The fields of the document that [FileConfig] has, where they are present. *)
Record FileFields := MkFileFields {
  ff_id : option Z;
  ff_listen_addr : option string;
  ff_peers : option (list Peer);
  ff_data_dir : option path;
  ff_heartbeat_ms : option Z;
  ff_election_min_ms : option Z;
  ff_election_max_ms : option Z;
  ff_segment_max_bytes : option Z;
  ff_snapshot_threshold : option Z
}.

(** The [toml] crate: the fields of a document, or why it is none (syntax, types); and how it
    words a missing field. *)
Class Toml := {
  toml_fields : string → FileFields + string;
  toml_missing : string → string
}.

Definition default_heartbeat_ms : Z := 50.
Definition default_election_min_ms : Z := 150.
Definition default_election_max_ms : Z := 300.
Definition default_segment_max_bytes : Z := 64 * 1024 * 1024.
Definition default_snapshot_threshold : Z := 10000.

Section startup.
Context `{Toml} {SocketAddr Client : Type} (parse_addr : string → SocketAddr + string).
Context {crc : Crc32} {bin_hard : Bincode HardState} {bin_entry : Bincode LogEntry}
  {bin_snap : Bincode SnapshotFile}.

(** The derived [Deserialize] of [FileConfig]. *)
Definition file_config (f : FileFields) : FileConfig + string :=
  match ff_id f, ff_listen_addr f, ff_data_dir f with
  | None, _, _ => inr (toml_missing "id")
  | _, None, _ => inr (toml_missing "listen_addr")
  | _, _, None => inr (toml_missing "data_dir")
  | Some id, Some listen_addr, Some data_dir =>
      inl (MkFileConfig id listen_addr (default [] (ff_peers f)) data_dir
        (default default_heartbeat_ms (ff_heartbeat_ms f))
        (default default_election_min_ms (ff_election_min_ms f))
        (default default_election_max_ms (ff_election_max_ms f))
        (default default_segment_max_bytes (ff_segment_max_bytes f))
        (default default_snapshot_threshold (ff_snapshot_threshold f)))
  end.

(** [toml::from_str::<FileConfig>]. *)
Definition toml_from_str (text : string) : FileConfig + string :=
  match toml_fields text with
  | inl f => file_config f
  | inr e => inr e
  end.

(** [Config::from_file]. *)
Definition from_file (p : path) : M fs (Config SocketAddr) :=
  let! text := read_to_string p in
  match toml_from_str text with
  | inr e => throw (EConfig ("invalid TOML: " +:+ e))
  | inl raw => lift (into_config parse_addr raw)
  end.

(** ** Starting *)

Record Cli := MkCli {
  cli_id : Z;
  cli_listen : SocketAddr;
  cli_data_dir : path;
  cli_peers : list Peer;
  cli_config : option path
}.

(** The choice of the configuration in [main]. *)
Definition select_config (cli : Cli) : M fs (Config SocketAddr) :=
  match cli_config cli with
  | Some p => from_file p
  | None => ret (with_peers (cli_peers cli) (config_new (cli_id cli) (cli_listen cli) (cli_data_dir cli)))
  end.

(** [main] up to serving: the node that the driver and both services share. *)
Definition start_node (cli : Cli) (now draw : Z)
    : M fs (Config SocketAddr * PeerTransport (Client := Client) * Node Log) :=
  let! cfg := select_config cli in
  do! lift (validate cfg) then
  let transport := transport_new (cfg_peers cfg) in
  let! node := bootstrap cfg now draw in
  ret (cfg, transport, node).

(** ** The configuration *)

(** The file form and the command line have the same defaults: a file that gives only the
    id, the address, the data directory and perhaps peers yields exactly the configuration
    that the flags would, and like it is refused when it is not valid. *)
Theorem file_defaults_agree p text id addr peers dir a σ σ' :
  toml_fields text = inl (MkFileFields (Some id) (Some addr) peers (Some dir) None None None None None) →
  parse_addr addr = inl a → read_to_string p σ = (Ok text, σ') →
  from_file p σ =
    (let! cfg := select_config (MkCli id a dir (default [] peers) None) in
     do! lift (validate cfg) then ret cfg) σ'.
Proof.
  move=> Hf Ha Hr. rw /from_file (bind_Ok _ _ _ _ _ Hr) /toml_from_str Hf /= /into_config /= Ha.
  rw /select_config /bind /ret /lift /=. set (cfg := MkConfig _ _ _ _ _ _ _ _).
  have -> : with_peers (default [] peers) (config_new id a dir) = cfg by done.
  by destruct (validate cfg) as [[]| |].
Qed.

(** The fields that the file gives are of the Rust types. *)
Definition fields_in_range : Prop := ∀ text f, toml_fields text = inl f →
  (∀ ms, ff_election_min_ms f = Some ms → 0 ≤ ms ≤ u64_max)
  ∧ (∀ ms, ff_election_max_ms f = Some ms → 0 ≤ ms ≤ u64_max).

Lemma as_from_millis ms : 0 ≤ ms ≤ u64_max → as_millis (from_millis ms) = ms.
Proof. move=> ?. by rw /as_millis /from_millis Z.div_mul // u64_small. Qed.

(** A timeout range that is not empty in whole milliseconds. *)
Definition timeouts_ok (cfg : Config SocketAddr) : Prop :=
  as_millis (cfg_election_timeout cfg).1 < as_millis (cfg_election_timeout cfg).2.

Lemma select_config_timeouts cli σ cfg σ' : fields_in_range →
  select_config cli σ = (Ok cfg, σ') → validate cfg = Ok tt → timeouts_ok cfg.
Proof.
  move=> Hr. rw /select_config. case: (cli_config cli) => [p|]; last first.
  { rw /ret => -[<- _] _. done. }
  rw /from_file. intros (text & σ1 & _ & E)%bind_Ok_inv V. move: E.
  rw /toml_from_str. case Ef : (toml_fields text) => [f|//]. rw /file_config.
  case: (ff_id f) (ff_listen_addr f) (ff_data_dir f) => [id|//] [addr|//] [dir|//].
  rw /lift /into_config /=. case: (parse_addr addr) => [a|//].
  case Ev : (validate _) => [[]|//|//] -[Ec _]. subst cfg.
  have [_ _ _ Ht] := proj1 (validate_spec _) V. move: Ht. rw /timeouts_ok /=.
  have [Hmin Hmax] := Hr _ _ Ef.
  have r1 : 0 ≤ default default_election_min_ms (ff_election_min_ms f) ≤ u64_max.
  { case E : (ff_election_min_ms f) => [ms|] //=. by apply Hmin. }
  have r2 : 0 ≤ default default_election_max_ms (ff_election_max_ms f) ≤ u64_max.
  { case E : (ff_election_max_ms f) => [ms|] //=. by apply Hmax. }
  rw !as_from_millis // /from_millis. lia.
Qed.

(** ** The started node *)

Lemma bootstrap_core (cfg : Config SocketAddr) now draw σ nd σ' :
  bootstrap cfg now draw σ = (Ok nd, σ') →
  rc_id (nd_core nd) = cfg_id cfg ∧ rc_peers (nd_core nd) = peer_id <$> cfg_peers cfg
  ∧ rc_cluster_size (nd_core nd) = cluster_size cfg ∧ rc_role (nd_core nd) = Follower
  ∧ rc_election_timeout (nd_core nd) = cfg_election_timeout cfg.
Proof.
  rw /bootstrap. intros (st & σ1 & _ & E)%bind_Ok_inv.
  destruct (bind_Ok_inv _ _ _ _ _ E) as (l & σ2 & _ & E2). clear E.
  destruct (bind_Ok_inv _ _ _ _ _ E2) as (c & σ3 & E3 & E4). move: E4 => -[<- _] /=. move: E3.
  rw /restore. intros (h & σ4 & _ & E)%bind_Ok_inv.
  destruct (bind_Ok_inv _ _ _ _ _ E) as (recs & σ5 & _ & E5). clear E.
  destruct (bind_Ok_inv _ _ _ _ _ E5) as (es & σ6 & _ & E6). move: E6. cbn zeta.
  destruct (reset_election_timer now draw _) as [r [c1 σ7]] eqn:E7.
  apply reset_timer_run in E7 as (_ & d & ->). by destruct r as [[]| |]; [|done..]; intros [= <- _].
Qed.

Lemma dom_addrs (f : Peer → string) ps (m : gmap Z string) :
  dom (foldl (λ m p, <[peer_id p := f p]> m) m ps) = list_to_set (peer_id <$> ps) ∪ dom m.
Proof.
  elim: ps m => [|p ps IH] m /=; first by rw left_id_L.
  by rw IH dom_insert_L (assoc_L (∪)) (comm_L (∪) (list_to_set _)).
Qed.

(** What [main] hands to the driver and the services, whatever is on the disk: a valid
    configuration, a follower of exactly that cluster, and timeouts from which a random one
    can always be drawn. *)
Theorem started_node_ready cli now draw σ cfg transport nd σ' :
  fields_in_range → start_node cli now draw σ = (Ok (cfg, transport, nd), σ') →
  valid_config cfg ∧ timer_ok (nd_core nd) ∧ rc_role (nd_core nd) = Follower
  ∧ rc_id (nd_core nd) :: rc_peers (nd_core nd) = members cfg
  ∧ core_quorum (nd_core nd) = quorum cfg
  ∧ dom (pt_addrs transport) = list_to_set (rc_peers (nd_core nd)).
Proof.
  move=> Hr. rw /start_node. intros (cfg1 & σ1 & E1 & E)%bind_Ok_inv.
  destruct (bind_Ok_inv _ _ _ _ _ E) as ([] & σ2 & E2 & E3). clear E.
  destruct (bind_Ok_inv _ _ _ _ _ E3) as (nd1 & σ3 & E4 & E5). move: E5 => -[<- <- <- _].
  move: E2 => -[V _]. have [Ei [Ep [Ez [Er Et]]]] := bootstrap_core _ _ _ _ _ _ E4.
  split_and! => //.
  - by apply validate_spec.
  - rw /timer_ok Et. by apply: select_config_timeouts Hr E1 V.
  - by rw Ei Ep.
  - by rw /core_quorum /quorum Ez.
  - by rw Ep /= dom_addrs dom_empty_L right_id_L.
Qed.

(** ** A new cluster *)

(** Nothing of the node is on the disk yet. *)
Record blank (cfg : Config SocketAddr) (σ : fs) : Prop := {
  bl_faults : fault_free σ;
  bl_wf : fs_wf σ;
  bl_wal n : fs_names σ !! join (wal_dir cfg) n = None;
  bl_snapshots n : fs_names σ !! join (snapshot_dir cfg) n = None;
  bl_hard : fs_names σ !! hard_state_path cfg = None
}.

Lemma store_open_blank cfg σ : blank cfg σ →
  store_open cfg σ = (Ok (MkStore (snapshot_dir cfg) memtable_new (cfg_snapshot_threshold cfg) default_meta), σ).
Proof.
  move=> B. have Ed : discover (snapshot_dir cfg) σ = (Ok [], σ).
  { rw /discover {1}/bind /dir_exists /gets. case: bool_decide_reflect => // Hin.
    rw /bind /read_dir syscall_ok; first by apply B. rw bool_decide_eq_true_2 // /ret.
    have -> : dir_entries (snapshot_dir cfg) (fs_names σ) = []; last done.
    apply elem_of_nil_inv => n /elem_of_dir_entries [fd]. by rw (bl_snapshots _ _ B). }
  by rw /store_open /load_latest (bind_Ok _ _ _ _ _ (bind_Ok _ _ _ _ _ Ed)).
Qed.

Lemma hard_load_blank p σ : fault_free σ → fs_names σ !! p = None →
  hard_load p σ = (Ok default_hard, σ).
Proof. move=> Hs Hn. by rw /hard_load /fs_read /bind open_existing_missing. Qed.

Lemma restore_blank cfg (l : Log) now draw σ ms : timeouts_ok cfg → members cfg ≡ₚ ms →
  hard_load (hard_state_path cfg) σ = (Ok default_hard, σ) → wal_read_all l σ = (Ok [], σ) →
  ∃ c, restore cfg default_meta l now draw σ = (Ok c, σ) ∧ fresh ms (cfg_id cfg) c.
Proof.
  move=> Ht Hms Eh Er. rw /restore (bind_Ok _ _ _ _ _ Eh) (bind_Ok _ _ _ _ _ Er).
  rw (bind_Ok (lift _) _ σ [] σ) //. cbn zeta.
  match goal with |- context [reset_election_timer now draw (?c0, σ)] =>
    have [d Ed] := reset_timer_ok now draw c0 σ Ht end.
  rw Ed. eexists. split => //. split => //=.
  rw /cluster_size /zlen -Hms /members /= length_fmap. lia.
Qed.

(** A node starts on a blank disk as a fresh member of its cluster, with an empty store. *)
Lemma bootstrap_blank cfg now draw σ ms : blank cfg σ → timeouts_ok cfg → members cfg ≡ₚ ms →
  ∃ nd σ', bootstrap cfg now draw σ = (Ok nd, σ') ∧ fresh ms (cfg_id cfg) (nd_core nd)
    ∧ (st_last_snapshot (nd_store nd), st_memtable (nd_store nd)) = (default_meta, memtable_new) ∧ nd_disk nd = σ'.
Proof.
  move=> B Ht Hms. have [Hs Hwf Hw Hsn Hh] := B.
  have [l [σ1 [E1 [Hrep [Hs1 [Hsy [_ [_ [Hf [Hl Hn]]]]]]]]]] :=
    log_open_fresh_rep (wal_dir cfg) (cfg_segment_max_bytes cfg) σ Hs Hwf
      ltac:(move=> n fd; by rw Hw).
  have Eh : hard_load (hard_state_path cfg) σ1 = (Ok default_hard, σ1).
  { apply hard_load_blank => //. rw Hn //. rw /hard_state_path /segment_path /wal_dir /join => E.
    apply (f_equal (length (A := string))) in E. rw !length_app /= in E. lia. }
  have Er : wal_read_all l σ1 = (Ok [], σ1).
  { have := log_read_all_rep l σ1 [[]] Hs1 Hrep (log_synced_flushed _ _ Hsy). by rw Hf. }
  have [c [Ec Hfr]] := restore_blank cfg l now draw σ1 ms Ht Hms Eh Er.
  exists (MkNode c (MkStore (snapshot_dir cfg) memtable_new (cfg_snapshot_threshold cfg) default_meta)
            false (rc_commit_index c) σ1), σ1.
  by rw /bootstrap (bind_Ok _ _ _ _ _ (store_open_blank _ _ B)) (bind_Ok _ _ _ _ _ E1)
    (bind_Ok _ _ _ _ _ Ec).
Qed.

(** The cluster of nodes that have just started. *)
Definition booted (nodes : Z → Node Log) : cluster Log :=
  MkCluster (λ n, nd_core (nodes n)) (λ n, nd_store (nodes n)) (λ n, nd_disk (nodes n)) (λ _, Resting)
    (λ n, (st_last_snapshot (nd_store (nodes n)), st_memtable (nd_store (nodes n)))) [] [] [] [] [] [].

(** The flags of node [n] of the cluster [ms]. *)
Record flags_of (ms : list Z) (n : Z) (cli : Cli) : Prop := {
  fl_config : cli_config cli = None;
  fl_id : cli_id cli = n;
  fl_nonzero : n ≠ 0;
  fl_peers : n :: (peer_id <$> cli_peers cli) ≡ₚ ms
}.

Definition cli_cfg (cli : Cli) : Config SocketAddr :=
  with_peers (cli_peers cli) (config_new (cli_id cli) (cli_listen cli) (cli_data_dir cli)).

Lemma start_blank ms n cli now draw σ : NoDup ms → flags_of ms n cli → blank (cli_cfg cli) σ →
  ∃ nd σ', start_node cli now draw σ = (Ok (cli_cfg cli, transport_new (cli_peers cli), nd), σ')
    ∧ fresh ms n (nd_core nd) ∧ (st_last_snapshot (nd_store nd), st_memtable (nd_store nd)) = (default_meta, memtable_new).
Proof.
  move=> ND [Hc Hi Hz Hp] B.
  have V : validate (cli_cfg cli) = Ok tt.
  { apply validate_spec. split => //=; [by rw Hi | by rw /members /= Hi Hp]. }
  have [nd [σ' [E [Hf [Hm _]]]]] :=
    bootstrap_blank (cli_cfg cli) now draw σ ms B ltac:(done) ltac:(by rw /members /= Hi).
  exists nd, σ'. rw /start_node /select_config Hc. rw (bind_Ok (ret _) _ σ (cli_cfg cli) σ) //.
  rw (bind_Ok (lift _) _ σ tt σ); first by rw /lift V. rw (bind_Ok _ _ _ _ _ E). rw -Hi. done.
Qed.

(** C30: a cluster whose nodes start with the flags of one list of members on blank disks,
    each at a time and with a random draw of its own, is the cluster from which the runs of
    file Cluster start: every node starts, with an empty store, and what the nodes are then
    is what those theorems assume of the start. *)
Theorem started_cluster_is_initial ms (cli : Z → Cli) (now draw : Z → Z) (disk : Z → fs) :
  NoDup ms → (∀ n, n ∈ ms → flags_of ms n (cli n) ∧ blank (cli_cfg (cli n)) (disk n)) →
  (∀ n, n ∈ ms → ∃ nd σ', start_node (cli n) (now n) (draw n) (disk n)
      = (Ok (cli_cfg (cli n), transport_new (cli_peers (cli n)), nd), σ')
      ∧ st_memtable (nd_store nd) = memtable_new)
  ∧ ∀ nodes, (∀ n, n ∈ ms → ∃ cfg transport σ',
        start_node (cli n) (now n) (draw n) (disk n) = (Ok (cfg, transport, nodes n), σ')) →
      cluster_init ms (booted nodes).
Proof.
  move=> ND Hcli. split.
  - move=> n /Hcli [F B]. have [nd [σ' [E [_ [_ ?]]]]] := start_blank _ _ _ (now n) (draw n) _ ND F B.
    by exists nd, σ'.
  - move=> nodes Hnodes.
    have all : ∀ n, n ∈ ms → fresh ms n (nd_core (nodes n))
      ∧ (st_last_snapshot (nd_store (nodes n)), st_memtable (nd_store (nodes n))) = (default_meta, memtable_new).
    { move=> n Hn. have [F B] := Hcli n Hn.
      have [nd [σ' [E Hf]]] := start_blank _ _ _ (now n) (draw n) _ ND F B.
      have [cfg [tr [σ2 E2]]] := Hnodes n Hn. rw E in E2. by case: E2 => _ _ <- _. }
    split => // n /all [? [? ?]] //=. congruence.
Qed.

End startup.

(** ** Witnesses *)

#[local] Existing Instance crc32fast.
#[local] Existing Instance bincode_codec.

(** A parser that knows one document. *)
Definition demo_text : string := "id = 1".
#[local] Instance demo_toml : Toml := {|
  toml_fields text :=
    if decide (text = demo_text)
    then inl (MkFileFields (Some 1) (Some "a:1"%string) (Some [MkPeer 2 "b:1"]) (Some demo_dir)
                None None None None None)
    else inr "expected id"%string;
  toml_missing field := "missing field `"%string +:+ field +:+ "`"%string
|}.
Definition demo_addr (s : string) : string + string := inl s.
Definition config_disk : fs := file_fs (list_byte_of_string demo_text).

Lemma file_defaults_agree_witness :
  from_file demo_addr demo_path config_disk =
    (let! cfg := select_config demo_addr (MkCli 1 "a:1"%string demo_dir [MkPeer 2 "b:1"] None) in
     do! lift (validate cfg) then ret cfg) config_disk.
Proof.
  apply (file_defaults_agree demo_addr demo_path demo_text 1 "a:1" (Some [MkPeer 2 "b:1"]) demo_dir
    "a:1"%string config_disk config_disk); vm_compute; reflexivity.
Defined.

Definition demo_cli (n : Z) : Cli (SocketAddr := string) :=
  MkCli n "a:1"%string demo_dir ((λ p, MkPeer p "b:1") <$> filter (λ p, p ≠ n) demo_members) None.
Definition demo_started (n : Z) :=
  start_node (Client := unit) demo_addr (demo_cli n) 0 0 empty_fs.

Lemma started_node_ready_witness :
  match (demo_started 1).1 with
  | Ok (cfg, transport, nd) => valid_config cfg ∧ timer_ok (nd_core nd)
  | _ => False
  end.
Proof.
  destruct (demo_started 1) as [[[[cfg transport] nd]| |] σ'] eqn:E; [|by vm_compute in E..].
  destruct (started_node_ready demo_addr (demo_cli 1) 0 0 empty_fs cfg transport nd σ')
    as (Hv & Ht & _); [|exact E|by split].
  intros text f. simpl. case_decide; [|done]. intros [= <-]. split; intros ms [=].
Defined.

Lemma empty_blank n : blank (cli_cfg (demo_cli n)) empty_fs.
Proof. split; [done|apply empty_fs_wf|done..]. Qed.

Lemma started_cluster_is_initial_witness :
  ∃ nd σ', demo_started 1 = (Ok (cli_cfg (demo_cli 1), transport_new (cli_peers (demo_cli 1)), nd), σ')
    ∧ st_memtable (nd_store nd) = memtable_new.
Proof.
  apply (started_cluster_is_initial (Client := unit) demo_addr demo_members demo_cli (λ _, 0) (λ n, n - 1) (λ _, empty_fs));
    [evaluate| |evaluate].
  intros n Hn. split; [|apply empty_blank].
  apply elem_of_cons in Hn as [->|Hn]; [split; [done..|evaluate]|].
  apply elem_of_cons in Hn as [->|Hn]; [split; [done..|evaluate]|].
  apply elem_of_cons in Hn as [->|Hn]; [split; [done..|evaluate]|by apply elem_of_nil in Hn].
Defined.
