(* ===== verification/Restart.v ===== *)
(** * Restart: a crash between two sections and the restart of the node.

    File Cluster lets a node restart with the hard state, the snapshot and the entries it had.
    This file shows that the disk provides them: after any crash that finds the directory entries of the log, [bootstrap] (opening the
    store and the log, and [restore]) gives a node with the same term and vote, the store of
    the snapshot and the entries above it, so that the restart is a step of the cluster. *)

From Corelib Require Import ssreflect.
From stdpp Require Import base gmap strings list sorting functions.
From S2P Require Import Prelude Text Fs AtomicFile Crc Segment WalLog Codec Config MemTable Snapshot RaftState.
From S2P Require Import Wal RaftCore Election Replication Mirror Footprint Task Store Driver Sections Durable Cluster Safety Startup.

Section restart.
Context {crc : Crc32} {bin_hard : Bincode HardState} {bin_entry : Bincode LogEntry}.
Context {bin_snap : Bincode SnapshotFile}.
Context {A : Type}.
Implicit Types (c : RaftCore Log) (cfg : Config A).

(** The entries above a newer snapshot. *)
Lemma load_entries_newer c σ a b : mirror σ c a → snap_index c ≤ b →
  load_entries b (al_entries a) = Ok (filter (λ e, b < e_index e) (rc_entries c)).
Proof.
  move=> [Hw _ Hf _ He] Hb. rw al_entries_numbered (filter_above _ (snap_index c)); first by apply Hw.
  apply load_entries_drop; first lia. apply (Forall2_drop _ _ _ (Z.to_nat (b - snap_index c))) in He.
  rw drop_drop in He. have <- : (Z.to_nat (snap_index c + 1 - al_first a) + Z.to_nat (b - snap_index c)
    = Z.to_nat (b + 1 - al_first a))%nat by lia. done.
Qed.

Lemma store_reopen cfg σ latest : fault_free σ → latest_is σ (snapshot_dir cfg) latest →
  ∃ st, store_open cfg σ = (Ok st, σ) ∧ st_snapshot_dir st = snapshot_dir cfg
    ∧ (st_last_snapshot st, st_memtable st) = from_option snapshot_value (default_meta, memtable_new) latest.
Proof.
  move=> Hs Hl. rw /store_open (bind_Ok _ _ _ _ _ (load_latest_is _ _ _ Hs Hl)).
  case: latest {Hl} => [file|] /=; by eexists.
Qed.

(** The core that [restore] makes of the snapshot [meta] and the log [l]. *)
Definition restored cfg (meta : SnapshotMeta) (l : Log) (h : HardState) (es : list LogEntry) (deadline : Z)
    : RaftCore Log :=
  MkRaftCore (cfg_id cfg) (peer_id <$> cfg_peers cfg) (cluster_size cfg) (cfg_election_timeout cfg)
    h (hard_state_path cfg) l es meta Follower (last_included_index meta) (last_included_index meta)
    None deadline ∅ ∅ (lease_new ((cfg_election_timeout cfg).1 / 2)).

Lemma restore_run cfg meta l now draw σ h recs es :
  hard_load (hard_state_path cfg) σ = (Ok h, σ) → wal_read_all l σ = (Ok recs, σ) →
  load_entries (last_included_index meta) recs = Ok es → timeouts_ok cfg →
  ∃ d, restore cfg meta l now draw σ = (Ok (restored cfg meta l h es d), σ).
Proof.
  move=> Eh Er El Ht. rw /restore (bind_Ok _ _ _ _ _ Eh) (bind_Ok _ _ _ _ _ Er).
  rw (bind_Ok _ _ _ _ _ (f_equal (λ o, (o, σ)) El : lift _ σ = _)). cbn zeta.
  match goal with |- context [reset_election_timer now draw (?c0, σ)] =>
    have [d Ed] := reset_timer_ok now draw c0 σ Ht end.
  rw Ed. by eexists.
Qed.

(** The entries above a newer snapshot mirror the same log. *)
Lemma mirror_newer σ c c' a : mirror σ c a →
  snap_index c ≤ snap_index c' ≤ last_log_index c →
  rc_entries c' = filter (λ e, snap_index c' < e_index e) (rc_entries c) →
  wal_rep σ (rc_log c') a → mirror σ c' a.
Proof.
  move=> [Hw _ Hf Hl He] Hb Ee Hr. rw (filter_above _ (snap_index c)) in Ee; first by apply Hw.
  have Hll := last_log_index_wf _ Hw. have Hm := lw_bound _ Hw. have H0 := lw_base _ Hw.
  have Hw' : log_wf c'.
  { split; first lia.
    - move=> i e. rw Ee lookup_drop => /(lw_entries _ Hw). lia.
    - rw Ee /zlen length_drop. rw /zlen in Hll, Hm. lia. }
  split => //; [lia | |].
  - rw last_log_index_wf // Ee /zlen length_drop Hl Hll /zlen. rw /zlen in Hll. lia.
  - rw Ee. apply (Forall2_drop _ _ _ (Z.to_nat (snap_index c' - snap_index c))) in He. rw drop_drop in He.
    have -> : (Z.to_nat (snap_index c' + 1 - al_first a) =
      Z.to_nat (snap_index c + 1 - al_first a) + Z.to_nat (snap_index c' - snap_index c))%nat by lia. done.
Qed.

(** A crash and the start of the node: it comes back with the store of its snapshot, its hard
    state and its entries, and all of that is on disk again. *)
Lemma restart_run cfg c σ σc sv a now draw : on_disk cfg σ c sv a → crash σ σc →
  entries_kept (wal_dir cfg) σ σc → files_bounded σc → timeouts_ok cfg → last_included_index sv.1 ≤ last_log_index c →
  ∃ nd σ' log, bootstrap cfg now draw σc = (Ok nd, σ')
    ∧ (st_last_snapshot (nd_store nd), st_memtable (nd_store nd)) = sv
    ∧ st_snapshot_dir (nd_store nd) = snapshot_dir cfg
    ∧ restore cfg (st_last_snapshot (nd_store nd)) log now draw σ' = (Ok (nd_core nd), σ')
    ∧ rc_hard (nd_core nd) = rc_hard c
    ∧ rc_entries (nd_core nd) = filter (λ e, last_included_index (st_last_snapshot (nd_store nd)) < e_index e) (rc_entries c)
    ∧ fault_free σ' ∧ on_disk cfg σ' (nd_core nd) sv a.
Proof.
  move=> [As Mi Sy] Hcr Hdn Hmax Ht Hlast.
  have [Hti Hl Htm Hr Hp Hh Htmp [latest [Hla Esv]] Hsn Hab] := As. have Hsc := crash_sched _ _ Hcr.
  have [st [Est [Edir Hst]]] := store_reopen cfg σc latest Hsc (latest_is_crash _ _ _ _ Hcr Hla). rw Esv in Hst.
  have [l [σ' [Eo [Ha [_ [Eread [Hs' [Hn [_ Hsy']]]]]]]]] :=
    log_reopen_crash_full (rc_log c) σ σc a (cfg_segment_max_bytes cfg) (mi_rep _ _ _ Mi) Sy Hcr
      ltac:(by rw Hl) Hmax.
  rw Hl in Eo. have Htc := crash_tidy _ _ Hcr Hti.
  have W := works_log_open (wal_dir cfg) (cfg_segment_max_bytes cfg) [] σc Htc ltac:(done) I. rw Eo in W.
  move: W => [T [C [_ [_ [_ [Hld _]]]]]].
  have Hv : hard_views σ' (hard_state_path cfg) (λ h, h = rc_hard c).
  { apply: (views_ok_confined _ _ _ _ _ C); last by apply: (views_ok_crash _ _ _ _ Hcr Hh).
    apply hard_not_in. rw /wal_dir. apply not_eq_sym, data_not_sub. }
  have [h [Eh Hx]] := hard_load_views σ' (hard_state_path cfg) _ Hs' Hv. subst h.
  have El := load_entries_newer _ _ _ (last_included_index (st_last_snapshot st)) Mi ltac:(by rw -Hst in Hab).
  have [d Er] := restore_run cfg (st_last_snapshot st) l now draw σ' _ _ _ Eh Eread El Ht.
  set c' := restored _ _ _ _ _ _ in Er.
  have Mi' : mirror σ' c' a.
  { have Hm0 : mirror σ c a by done. have Hb : snap_index c ≤ snap_index c' ≤ last_log_index c.
    { rw /c' /=. by rw -Hst /= in Hab, Hlast. }
    apply: (mirror_newer σ' (set_log l c)) => //. destruct Mi as [Hw _ ? ? ?]. split => //. by destruct Hw. }
  exists (MkNode c' st false (rc_commit_index c') σ'), σ', l. split_and! => //.
  - by rw /bootstrap (bind_Ok _ _ _ _ _ Est) (bind_Ok _ _ _ _ _ Eo) (bind_Ok _ _ _ _ _ Er).
  - split => //. split => //.
    + move=> fd. rw (confined_view _ _ _ _ _ C); last by move=> /(crash_view _ _ _ _ Hcr) /Htmp.
      rw hard_tmp_join. apply join_not_in. rw /wal_dir. apply not_eq_sym, data_not_sub.
    + exists latest. split => //. apply: (latest_confined _ _ _ _ _ C (wal_not_snapshots cfg)).
      by apply: latest_is_crash.
    + move=> n fd. rw (confined_view _ _ _ _ _ C); last by move=> /(crash_view _ _ _ _ Hcr) /Hsn.
      apply join_not_in, wal_not_snapshots.
    + by rw /c' /= -Hst.
Qed.

(** A crash between two sections and a restart are a step of the cluster: if the node's log,
    hard state and newest snapshot are on disk, any crash that the directory entries of the log
    survive leaves a disk on which [bootstrap] succeeds, and the restarted node is one that the
    runs of file Cluster allow. *)
Theorem restart_is_step ms (γ : cluster Log) n cfg σc a now draw :
  n ∈ ms → on_disk cfg (cl_disk γ n) (cl_core γ n) (cl_saved γ n) a →
  crash (cl_disk γ n) σc → entries_kept (wal_dir cfg) (cl_disk γ n) σc → files_bounded σc → timeouts_ok cfg →
  last_included_index (cl_saved γ n).1 ≤ last_log_index (cl_core γ n) →
  cfg_id cfg = n → (peer_id <$> cfg_peers cfg) ≡ₚ rc_peers (cl_core γ n) →
  ∃ nd σ', bootstrap cfg now draw σc = (Ok nd, σ')
    ∧ guarded_step ms γ (with_phase n Resting (with_state n (nd_core nd) (nd_store nd) σ' γ)).
Proof.
  move=> Hn D Hcr Hdn Hb Ht Hla Hid Hpe.
  have [nd [σ' [log [Eb [Es [_ [Er [Eh [Ee _]]]]]]]]] := restart_run cfg _ _ σc _ a now draw D Hcr Hdn Hb Ht Hla.
  exists nd, σ'. split => //. by apply: (cl_restart _ _ _ cfg log now draw (nd_store nd) σ').
Qed.

End restart.

(** ** Witness *)

#[local] Existing Instance crc32fast.
#[local] Existing Instance bincode_codec.

(** A follower with three entries and no snapshot yet, none of it lost by a power failure. *)
Definition demo_down_config : Config unit :=
  with_peers [MkPeer 2 "b:1"; MkPeer 3 "c:1"] (config_new 1 tt []).
Definition relocated (p : path) (c : RaftCore Log) : RaftCore Log :=
  MkRaftCore 1 [2; 3] 3 (from_millis 150, from_millis 300) (rc_hard c) p (rc_log c) (rc_entries c)
    (rc_snapshot c) Follower 0 0 None 0 ∅ ∅ (lease_new (from_millis 75)).
Lemma relocated_mirror p σ c a : mirror σ c a → mirror σ (relocated p c) a.
Proof. intros M. by apply (mirror_core σ c). Qed.
Definition demo_down_core : RaftCore Log := relocated (hard_state_path demo_down_config) demo_large.
Definition demo_down : cluster Log := with_node 1 demo_down_core demo_large_disk demo_fresh.

(** All its files are in one directory. *)
Lemma one_home_in d σ :
  fs_dnames σ = fs_names σ → map_Forall (λ p _, in_dir d p) (fs_names σ) →
  one_home σ ∧ ∀ p fd, view_fd σ p fd → in_dir d p.
Proof.
  move=> Ed Hd. have Hv : ∀ p fd, view_fd σ p fd → in_dir d p.
  { move=> p fd. rw /view_fd Ed => -[] /Hd //. }
  split => // p q fd /Hv Hp /Hv Hq. by rw Hp Hq.
Qed.

Lemma demo_down_on_disk :
  on_disk demo_down_config (cl_disk demo_down 1) (cl_core demo_down 1) (cl_saved demo_down 1)
    (MkALog 1 demo_replica_records).
Proof.
  assert (cl_disk demo_down 1 = demo_large_disk) as -> by (vm_compute; reflexivity).
  assert (cl_core demo_down 1 = demo_down_core) as -> by (rw /demo_down /= fn_lookup_insert; done).
  destruct (one_home_in (wal_dir demo_down_config) demo_large_disk) as [Hh Hv];
    [vm_compute; reflexivity|evaluate|].
  assert (∀ p fd, ¬ in_dir (wal_dir demo_down_config) p → ¬ view_fd demo_large_disk p fd) as Hno
    by (intros p fd Hp Hx; by apply Hp, (Hv p fd)).
  split; [|apply relocated_mirror, demo_large_mirror|apply (log_at_abs 1000 demo_replica_records); evaluate].
  split; [|vm_compute; reflexivity|evaluate| |vm_compute; reflexivity| | | | |evaluate].
  - split; [apply fs_wf_check; evaluate|exact Hh].
  - split; [evaluate|]. intros x E. vm_compute in E. by simplify_eq.
  - split; [done|]. intros fd Hx. exfalso. eapply (Hno (hard_state_path demo_down_config)); [by vm_compute|exact Hx].
  - intros fd. apply Hno. by vm_compute.
  - exists None. split; [|done]. split; [|done]. intros n fd idx Hn _. exfalso.
    apply (Hno (join (snapshot_dir demo_down_config) n) fd); [|exact Hn]. by apply join_not_in.
  - intros n fd Hx. exfalso. eapply Hno; [|exact Hx]. by apply join_not_in.
Qed.

Lemma restart_is_step_witness :
  ∃ nd σ', bootstrap demo_down_config 0 0 (power_loss (cl_disk demo_down 1)) = (Ok nd, σ')
    ∧ guarded_step demo_members demo_down
        (with_phase 1 Resting (with_state 1 (nd_core nd) (nd_store nd) σ' demo_down)).
Proof.
  apply (restart_is_step demo_members demo_down 1 demo_down_config (power_loss (cl_disk demo_down 1))
    (MkALog 1 demo_replica_records) 0 0).
  - evaluate.
  - apply demo_down_on_disk.
  - apply power_loss_crash.
  - assert (cl_disk demo_down 1 = demo_large_disk) as -> by (vm_compute; reflexivity).
    assert (fs_dnames demo_large_disk = fs_names demo_large_disk) as E by (vm_compute; reflexivity).
    apply crash_entries_kept; [apply power_loss_crash|]. intros n. by rw E.
  - apply files_bounded_alt. evaluate.
  - evaluate.
  - evaluate.
  - vm_compute. reflexivity.
  - vm_compute. reflexivity.
Defined.
