(* ===== verification/Recovery.v ===== *)
(** * Recovery: a cluster whose nodes crash and start again.

    The runs of file Cluster let a node restart if its disk gives back what it had.  Here the
    disk is the one the node has written: from nodes started on unused disks, in guarded runs
    in which no system call fails, every node has its state on disk after every section (file Durable),
    so that it can crash at any of these moments and [bootstrap] brings it back (file
    Restart); what follows is again a run of file Cluster, and its theorems hold. *)

From Corelib Require Import ssreflect.
From stdpp Require Import base gmap strings list sorting functions relations.
From S2P Require Import Prelude Text Fs AtomicFile Crc Record Segment WalLog Codec Config MemTable Snapshot RaftState.
From S2P Require Import Wal RaftCore Election Replication Mirror Footprint Task Store Driver Sections Durable.
From S2P Require Import Faults Protocol Cluster Simulation Safety Startup Restart.

(** The term a reply carries is the node's. *)
Lemma append_reply_term {L} {wal : Wal L} {bin_hard : Bincode HardState} {bin_entry : Bincode LogEntry}
    args now draw (c : RaftCore L) σ reply c' σ' :
  handle_append_entries args now draw (c, σ) = (Ok reply, (c', σ')) → aer_term reply = current_term (rc_hard c').
Proof.
  rw /handle_append_entries {1}/bind /self /gets. cbn [fst]. destruct (_ <? _); [by intros [= <- <- _]|].
  intros ([] & [c1 σ1] & _ & E)%bind_Ok_inv. apply bind_Ok_inv in E as ([] & [c2 σ2] & _ & E).
  move: E. rw {1}/bind. cbn [fst]. destruct (matching_conflict args c2); [by intros [= <- <- _]|].
  intros ([] & [c3 σ3] & _ & E)%bind_Ok_inv. apply bind_Ok_inv in E as ([] & [c4 σ4] & _ & E).
  apply bind_Ok_inv in E as ([] & [c5 σ5] & _ & E). by injection E as <- <- _.
Qed.

(** A vote that does not decide the campaign leaves the core alone. *)
Lemma count_vote_pending {L} {wal : Wal L} {bin_hard : Bincode HardState} {bin_entry : Bincode LogEntry}
    reply term votes (c : RaftCore L) σ k c' σ' :
  count_vote reply term votes (c, σ) = (Ok (Some k), (c', σ')) → c' = c ∧ σ' = σ.
Proof.
  rw /count_vote /bind /self /gets /ret. cbn [fst]. destruct (_ <? _).
  { by destruct (become_follower _ _ _) as [[[]| |] ?]. }
  destruct (_ || _); [done|]. destruct (rvr_vote_granted reply); [|by intros [= _ <- <-]].
  cbn [fst]. destruct (_ <=? _); [|by intros [= _ <- <-]]. rw /update /modify.
  destruct (append_command _ _) as [[?| |] ?]; [|done..]. destruct (core_sync _) as [[[]| |] ?]; [|done..].
  by destruct (advance_commit_index _) as [[[]| |] ?].
Qed.

Lemma entries_from_sub {L} next (c : RaftCore L) : entries_from next c ⊆ rc_entries c.
Proof.
  rw /entries_from. destruct (_ <? _); [done|]. rw /zget_from. case_match; simpl; [|apply list_subseteq_nil].
  intros e [i Hi]%list_elem_of_lookup. rw lookup_drop in Hi. by eapply list_elem_of_lookup_2.
Qed.

Section recovery.
Context {crc : Crc32} {bin_hard : Bincode HardState} {bin_entry : Bincode LogEntry}.
Context {bin_snap : Bincode SnapshotFile} {SocketAddr : Type}.
Context (hard_representable : ∀ h, hard_in_range h → representable h).
Context (ms : list Z) (ms_distinct : NoDup ms) (ms_bound : zlen ms ≤ u64_max).
Context (ms_range : ∀ n, n ∈ ms → 0 ≤ n ≤ u64_max).

(** The configuration of each node. *)
Context (cfg : Z → Config SocketAddr).
Record configured (n : Z) : Prop := {
  co_id : cfg_id (cfg n) = n;
  co_members : n :: (peer_id <$> cfg_peers (cfg n)) ≡ₚ ms;
  co_timeouts : timeouts_ok (cfg n)
}.
Context (cfg_ok : ∀ n, n ∈ ms → configured n).
Implicit Types (γ : cluster Log) (c : RaftCore Log).

(** ** Runs *)

(** The entries of every log fit a record and the table of every store fits a snapshot. *)
Definition manageable γ : Prop :=
  ∀ n, n ∈ ms → Forall storable (rc_entries (cl_core γ n)) ∧ fits (cl_store γ n).

(** A node works on, or it crashes and starts again on what the crash left. *)
Inductive live_step : cluster Log → cluster Log → Prop :=
| live_section γ γ' : guarded_section ms γ γ' → manageable γ → manageable γ' → live_step γ γ'
| live_crash γ n σc now draw nd σ' :
    n ∈ ms → crash (cl_disk γ n) σc → entries_kept (wal_dir (cfg n)) (cl_disk γ n) σc → files_bounded σc →
    bootstrap (cfg n) now draw σc = (Ok nd, σ') →
    live_step γ (with_phase n Resting (with_state n (nd_core nd) (nd_store nd) σ' γ)).

(** A disk on which the node has never run. *)
Definition unused n (σ : fs) : Prop :=
  fault_free σ ∧ tidy σ ∧ ∀ p fd, view_fd σ p fd → ¬ cfg_data_dir (cfg n) `prefix_of` p.

(** The nodes have just started on such disks. *)
Definition started (nodes : Z → Node Log) : Prop :=
  ∀ n, n ∈ ms → ∃ σ now draw, unused n σ ∧ bootstrap (cfg n) now draw σ = (Ok (nodes n), nd_disk (nodes n)).

(** ** The invariant *)

Record settled n c (st : Store) (σ : fs) (sv : SnapshotMeta * MemTable) : Prop := {
  se_faults : fault_free σ;
  se_disk : ∃ a, on_disk (cfg n) σ c sv a;
  se_dir : st_snapshot_dir st = snapshot_dir (cfg n)
}.

Definition in_u64 (z : Z) : Prop := 0 ≤ z ≤ u64_max.

(** What is under way is of the Rust types, and can be stored. *)
Record mail_ok γ : Prop := {
  ml_vote_reqs : Forall (λ args, in_u64 (rv_term args) ∧ rv_candidate_id args ∈ ms) (cl_vote_reqs γ);
  ml_vote_reps : Forall (λ x, in_u64 (rvr_term x.2)) (cl_vote_reps γ);
  ml_append_reqs : Forall (λ x, in_u64 (ae_term x.2) ∧ Forall storable (ae_entries x.2)) (cl_append_reqs γ);
  ml_append_reps : Forall (λ x, in_u64 (aer_term x.2)) (cl_append_reps γ)
}.

Record live γ : Prop := {
  lv_reach : guarded_reachable ms γ;
  lv_node n : n ∈ ms → settled n (cl_core γ n) (cl_store γ n) (cl_disk γ n) (cl_saved γ n);
  lv_mail : mail_ok γ
}.

(** Node [n] has moved, and more messages may be under way. *)
Lemma live_moved γ γ' n :
  live γ → guarded_step ms γ γ' →
  (∀ m, m ≠ n → cl_core γ' m = cl_core γ m ∧ cl_store γ' m = cl_store γ m ∧ cl_disk γ' m = cl_disk γ m
                ∧ cl_saved γ' m = cl_saved γ m) →
  (n ∈ ms → settled n (cl_core γ' n) (cl_store γ' n) (cl_disk γ' n) (cl_saved γ' n)) →
  mail_ok γ' → live γ'.
Proof.
  move=> [[γ0 [Hi Hr]] Hn _] St Hot Hnew Hm. split => //; first by exists γ0; split => //; apply: rtc_r St.
  move=> m Hin. case: (decide (m = n)) => [?|Hne]; first by subst; apply Hnew.
  have [-> [-> [-> ->]]] := Hot m Hne. by apply Hn.
Qed.

(** Everything else stays where it is. *)
#[local] Ltac elsewhere :=
  move=> m Hne /=; rw /insert /fn_insert /=; repeat case_decide; simplify_eq; done.

Lemma settled_run n γ {B} (m : M (RaftCore Log * fs) B) r c σ :
  live γ → n ∈ ms → m (cl_core γ n, cl_disk γ n) = (r, (c, σ)) →
  leaves (cfg n) (cl_saved γ n) m (cl_core γ n) (cl_disk γ n) → Forall storable (rc_entries c) →
  settled n c (cl_store γ n) σ (cl_saved γ n).
Proof.
  move=> Lv Hn E Hl Hst. have [? ?] := Hl _ _ _ E Hst. have [_ _ ?] := lv_node _ Lv n Hn. by split.
Qed.

(** A section of a node, seen from outside. *)
Lemma live_with_node γ n c σ :
  live γ → guarded_step ms γ (with_node n c σ γ) → settled n c (cl_store γ n) σ (cl_saved γ n) →
  live (with_node n c σ γ).
Proof.
  move=> Lv St Se. apply: (live_moved γ _ n Lv St); first elsewhere.
  - move=> _ /=. by rw !fn_lookup_insert.
  - by case: (lv_mail _ Lv).
Qed.

Lemma live_sim γ : live γ → ∃ s, sim ms γ s.
Proof. move=> Lv. have [s [_ S]] := reachable_follows _ ms_distinct ms_bound _ (lv_reach _ Lv). by exists s. Qed.

Lemma live_term γ n : live γ → n ∈ ms → in_u64 (current_term (rc_hard (cl_core γ n))).
Proof. move=> Lv Hn. have [_ [a D] _] := lv_node _ Lv n Hn. by case: (as_range _ _ _ _ (od_aside _ _ _ _ _ D)). Qed.

Lemma live_sized γ n : live γ → n ∈ ms → sized (cl_core γ n) ∧ rc_id (cl_core γ n) = n.
Proof.
  move=> Lv Hn. have [s S] := live_sim _ Lv. have N := sim_node _ _ _ S n Hn. split; last by apply N.
  by apply: (node_size _ ms_bound _ _ _ N).
Qed.

(** ** Sections *)

Lemma campaign_settles γ n now draw : live γ → n ∈ ms → term_room (cl_core γ n) →
  settles (cfg n) (cl_saved γ n) (become_candidate now draw) (cl_core γ n) (cl_disk γ n).
Proof.
  move=> Lv Hn Hr. have [Hs [a D] _] := lv_node _ Lv n Hn. have [_ Hid] := live_sized _ _ Lv Hn.
  apply: become_candidate_on_disk => //. rw Hid. by apply ms_range.
Qed.

Lemma vote_settles γ n args now draw : live γ → n ∈ ms → args ∈ cl_vote_reqs γ →
  settles (cfg n) (cl_saved γ n) (handle_request_vote args now draw) (cl_core γ n) (cl_disk γ n).
Proof.
  move=> Lv Hn Hin. have [Hs [a D] _] := lv_node _ Lv n Hn.
  have [Ht Hc] := proj1 (Forall_forall _ _) (ml_vote_reqs _ (lv_mail _ Lv)) _ Hin.
  apply: request_vote_on_disk => //. by apply ms_range.
Qed.

Lemma append_settles γ n args now draw : live γ → n ∈ ms → (n, args) ∈ cl_append_reqs γ →
  settles (cfg n) (cl_saved γ n) (handle_append_entries args now draw) (cl_core γ n) (cl_disk γ n).
Proof.
  move=> Lv Hn Hin. have [Hs [a D] _] := lv_node _ Lv n Hn. have [s S] := live_sim _ Lv.
  have [Ht Hst] := proj1 (Forall_forall _ _) (ml_append_reqs _ (lv_mail _ Lv)) _ Hin.
  have [? [? ?]] := append_ok_range _ _ (sim_append_req _ _ _ S _ _ Hin). by apply: append_entries_on_disk.
Qed.

Lemma fold_settles γ n v args reply term acks :
  live γ → n ∈ ms → acknowledges γ n v args reply term →
  settles (cfg n) (cl_saved γ n) (fold_reply v (last_sent args) reply term acks) (cl_core γ n) (cl_disk γ n).
Proof.
  move=> Lv Hn [Hin _ _ _]. have [Hs [a D] _] := lv_node _ Lv n Hn. have [Hz _] := live_sized _ _ Lv Hn.
  apply: fold_reply_on_disk => //. by apply (proj1 (Forall_forall _ _) (ml_append_reps _ (lv_mail _ Lv)) _ Hin).
Qed.

(** Every section that a node may start leaves its state on disk. *)
Lemma starts_leaves γ n {B} (m : M (RaftCore Log * fs) B) :
  live γ → n ∈ ms → starts γ n m → leaves (cfg n) (cl_saved γ n) m (cl_core γ n) (cl_disk γ n).
Proof.
  move=> Lv Hn St. have [Hs [a D] _] := lv_node _ Lv n Hn. have [Hz _] := live_sized _ _ Lv Hn.
  destruct St as [now draw R|args now draw Hin|t vs v args reply [_ Hin _ _ _ _] R|cmd R|args now draw Hin
    |v args reply term acks Hack].
  - by apply settles_leaves, campaign_settles.
  - by apply settles_leaves, vote_settles.
  - apply: count_vote_on_disk => //. by apply (proj1 (Forall_forall _ _) (ml_vote_reps _ (lv_mail _ Lv)) _ Hin).
  - by apply: propose_on_disk.
  - by apply settles_leaves, append_settles.
  - by apply settles_leaves, fold_settles.
Qed.

Lemma live_runs γ n {B} (m : M (RaftCore Log * fs) B) r c σ :
  live γ → runs ms γ n m r c σ → starts γ n m → Forall storable (rc_entries c) →
  settled n c (cl_store γ n) σ (cl_saved γ n).
Proof. move=> Lv [Hn E] St. apply: (settled_run n γ m) => //. by apply: starts_leaves. Qed.

(** The new term of a node is in range. *)
Lemma settled_term n c st σ sv : settled n c st σ sv → in_u64 (current_term (rc_hard c)).
Proof. move=> [_ [a D] _]. by case: (as_range _ _ _ _ (od_aside _ _ _ _ _ D)). Qed.

(** A section after which a message is under way. *)
Lemma live_with_mail γ γ' n c σ :
  live γ → guarded_step ms γ γ' → settled n c (cl_store γ n) σ (cl_saved γ n) →
  cl_core γ' = <[n := c]> (cl_core γ) → cl_store γ' = <[n := cl_store γ n]> (cl_store γ) →
  cl_disk γ' = <[n := σ]> (cl_disk γ) → cl_saved γ' = cl_saved γ → mail_ok γ' → live γ'.
Proof.
  move=> Lv St Se E1 E2 E3 E4 Hm. apply: (live_moved γ γ' n Lv St) => //; rw E1 E2 E3 E4; first elsewhere.
  move=> _. by rw !fn_lookup_insert.
Qed.

Lemma manageable_node γ n c f :
  manageable γ → n ∈ ms → cl_core γ = <[n := c]> f → Forall storable (rc_entries c).
Proof. move=> H /H [+ _] E. by rw E fn_lookup_insert. Qed.

Lemma live_campaign γ n now draw args c σ :
  live γ → runs ms γ n (become_candidate now draw) args c σ → term_room (cl_core γ n) →
  let γ' := with_vote_req args (with_campaign n (rv_term args) [] (with_node n c σ γ)) in
  manageable γ' → live γ'.
Proof.
  move=> Lv R Hr γ' Hm. have Hn := proj1 R. have Se := live_runs _ _ _ _ _ _ Lv R (s_campaign _ _ _ _ Hr)
    (manageable_node _ _ _ _ Hm Hn eq_refl).
  have St : guarded_step ms γ γ' by apply cl_section, (cl_campaign _ _ _ now draw).
  eapply (live_with_mail γ γ' n c σ Lv St Se); [done..|].
  case: (lv_mail _ Lv) => V1 V2 A1 A2. split => //=. constructor => //.
  have Ht := live_term _ _ Lv Hn. rw /in_u64 in Ht.
  have Hr' : 0 ≤ current_term (rc_hard (cl_core γ n)) < u64_max by rw /term_room in Hr; lia.
  have [_ ->] := become_candidate_ok _ _ _ _ _ _ _ Hr' (proj2 R). have [_ Hid] := live_sized _ _ Lv Hn.
  rw /= Hid. split => //. rw /in_u64. lia.
Qed.

Lemma live_vote γ v args now draw reply c σ :
  live γ → args ∈ cl_vote_reqs γ → runs ms γ v (handle_request_vote args now draw) reply c σ →
  let γ' := with_vote_rep v args reply (with_node v c σ γ) in manageable γ' → live γ'.
Proof.
  move=> Lv Hin R γ' Hm. have Hn := proj1 R. have Se := live_runs _ _ _ _ _ _ Lv R (s_vote _ _ _ _ _ Hin)
    (manageable_node _ _ _ _ Hm Hn eq_refl).
  have St : guarded_step ms γ γ' by apply cl_section, (cl_vote _ _ _ _ now draw).
  eapply (live_with_mail γ γ' v c σ Lv St Se); [done..|].
  case: (lv_mail _ Lv) => V1 V2 A1 A2. split => //=. constructor => //=.
  have [-> _] := vote_decision _ _ _ _ _ _ _ _ (proj2 R). by apply: settled_term Se.
Qed.

Lemma live_append γ v args now draw reply c σ :
  live γ → (v, args) ∈ cl_append_reqs γ → runs ms γ v (handle_append_entries args now draw) reply c σ →
  let γ' := with_append_rep v args reply (with_node v c σ γ) in manageable γ' → live γ'.
Proof.
  move=> Lv Hin R γ' Hm. have Hn := proj1 R. have Se := live_runs _ _ _ _ _ _ Lv R (s_append _ _ _ _ _ Hin)
    (manageable_node _ _ _ _ Hm Hn eq_refl).
  have St : guarded_step ms γ γ' by apply cl_section, (cl_append _ _ _ _ now draw).
  eapply (live_with_mail γ γ' v c σ Lv St Se); [done..|].
  case: (lv_mail _ Lv) => V1 V2 A1 A2. split => //=. constructor => //=.
  rw (append_reply_term _ _ _ _ _ _ _ _ (proj2 R)). by apply: settled_term Se.
Qed.

(** Sections that send nothing. *)
Lemma live_quiet γ n {B} (m : M (RaftCore Log * fs) B) r c σ :
  live γ → guarded_section ms γ (with_node n c σ γ) → n ∈ ms → m (cl_core γ n, cl_disk γ n) = (r, (c, σ)) →
  starts γ n m → manageable (with_node n c σ γ) → live (with_node n c σ γ).
Proof.
  move=> Lv St Hn E Hs Hm. apply live_with_node => //; first by apply cl_section.
  apply: (settled_run n γ m) => //; first by apply: starts_leaves. by apply: (manageable_node _ _ _ _ Hm Hn eq_refl).
Qed.

(** The disk of the node stays, and what of its core matters for it. *)
Lemma settled_core n c c' st σ sv : settled n c st σ sv → rc_log c' = rc_log c → rc_entries c' = rc_entries c →
  steady c' = steady c → settled n c' st σ sv.
Proof. move=> [Hs [a D] Hd] El Ee Es. split => //. exists a. by apply: (on_disk_core _ _ c). Qed.

Lemma live_send γ x peer :
  live γ → x ∈ ms → rc_role (cl_core γ x) = Leader → has_next peer (cl_core γ x) → manageable γ →
  live (with_append_req peer (build_append_entries peer (cl_core γ x)) γ).
Proof.
  move=> Lv Hx Hr Hn Hm. apply: (live_moved γ _ x Lv) => //.
  - by apply cl_section, cl_send.
  - move=> _ /=. by apply Lv.
  - case: (lv_mail _ Lv) => V1 V2 A1 A2. split => //=. constructor => //=. split; first by apply live_term.
    eapply Forall_subset; [apply entries_from_sub|by apply Hm].
Qed.

(** ** Applying and snapshots *)

(** The snapshot on disk is of entries that the log has had. *)
Lemma live_saved_last γ n : live γ → n ∈ ms →
  last_included_index (cl_saved γ n).1 ≤ last_log_index (cl_core γ n).
Proof.
  move=> Lv Hn. have [s S] := live_sim _ Lv. have N := sim_node _ _ _ S n Hn. have [-> _] := last_log_ok _ _ _ _ N.
  have [Hc _] := node_commit _ _ _ _ (sim_inv _ _ _ S) N. have Ha := ok_applied _ _ _ _ N.
  case: (sim_store _ _ _ S n Hn) => _ Ra _ _ Rs _. lia.
Qed.

Lemma live_take γ n out c :
  live γ → n ∈ ms → cl_phase γ n = Resting → take_committed (cl_core γ n) = (out, c) →
  live (with_phase n (match out with [] => Resting | _ => Taken out end) (with_node n c (cl_disk γ n) γ)).
Proof.
  move=> Lv Hn Hp E. have [s S] := live_sim _ Lv.
  have [_ E'] := take_node _ _ _ _ (sim_inv _ _ _ S) (sim_node _ _ _ S n Hn). rw E in E'. move: E' => [_ Ec].
  apply: (live_moved γ _ n Lv); first by apply cl_section, cl_take.
  - elsewhere.
  - move=> _ /=. rw !fn_lookup_insert Ec. by apply: (settled_core n (cl_core γ n)); first apply Lv.
  - by case: (lv_mail _ Lv).
Qed.

Lemma store_out_dir out st : st_snapshot_dir (store_out out st) = st_snapshot_dir st.
Proof. rw /store_out. elim: out st => [//|e out IH] st /=. by rw IH. Qed.

Lemma live_fill γ n out st :
  live γ → n ∈ ms → cl_phase γ n = Taken out → st = store_out out (cl_store γ n) →
  live (with_applied n out
    (with_phase n (if should_snapshot st then Due (store_last_applied st) else Resting)
      (with_state n (cl_core γ n) st (cl_disk γ n) γ))).
Proof.
  move=> Lv Hn Hp Es. apply: (live_moved γ _ n Lv); first by apply cl_section, cl_fill.
  - elsewhere.
  - move=> _ /=. rw !fn_lookup_insert Es. have [? ? ?] := lv_node _ Lv n Hn. split => //. by rw store_out_dir.
  - by case: (lv_mail _ Lv).
Qed.

Lemma live_term_read γ n applied :
  live γ → n ∈ ms → cl_phase γ n = Due applied →
  live (with_phase n (Termed (default 0 (term_at applied (cl_core γ n)))) γ).
Proof.
  move=> Lv Hn Hp. apply: (live_moved γ _ n Lv); first by apply cl_section, cl_term.
  - elsewhere.
  - move=> _ /=. by apply Lv.
  - by case: (lv_mail _ Lv).
Qed.

(** The term a task has read for its snapshot. *)
Lemma live_saved_term γ n term : live γ → n ∈ ms → cl_phase γ n = Termed term → in_u64 term.
Proof.
  move=> Lv Hn Hp. have [s S] := live_sim _ Lv. have I := sim_inv _ _ _ S. have N := sim_node _ _ _ S n Hn.
  case: (sim_store _ _ _ S n Hn) => _ _ Ph _ _ _. rw Hp /= in Ph. move: Ph => [_ ->].
  have Ht := live_term _ _ Lv Hn. rw -(ok_term _ _ _ _ N) in Ht. rw /in_u64 in Ht |- *.
  have [M T] := pi_log _ I n. case: (Z.to_nat _) => [|k] /=; first lia.
  case He: (p_log s n !! k) => [e|] /=; last lia. have [E _] := M _ _ He.
  have := elected_positive _ I _ E. have := T e ltac:(by eapply list_elem_of_lookup_2). lia.
Qed.

(** A snapshot always succeeds. *)
Lemma live_snapshot γ n term :
  live γ → n ∈ ms → cl_phase γ n = Termed term → fits (cl_store γ n) →
  ∃ meta σ', store_snapshot term (cl_store γ n, cl_disk γ n)
      = (Ok meta, (set_last_snapshot meta (cl_store γ n), σ'))
    ∧ settled n (cl_core γ n) (set_last_snapshot meta (cl_store γ n)) σ' (image term (cl_store γ n)).
Proof.
  move=> Lv Hn Hp Hf. have Ht := live_saved_term _ _ _ Lv Hn Hp. have [Hs [a D] Hd] := lv_node _ Lv n Hn.
  have [s S] := live_sim _ Lv. have N := sim_node _ _ _ S n Hn. have Bd := ok_bound _ _ _ _ N.
  have B := ok_base _ _ _ _ N. have [Hc _] := node_commit _ _ _ _ (sim_inv _ _ _ S) N.
  have Ha := ok_applied _ _ _ _ N. case: (sim_store _ _ _ S n Hn) => _ Ra _ _ Rs _.
  edestruct (snapshot_on_disk (cfg n) _ _ _ a (cl_store γ n) term D Hs Hd Hf Ht) as (σ' & E & Hs' & D'); [lia..|].
  eexists _, σ'. split; first exact E. split => //. by exists a.
Qed.

Lemma live_save γ n term meta st σ :
  live γ → manageable γ → n ∈ ms → cl_phase γ n = Termed term →
  store_snapshot term (cl_store γ n, cl_disk γ n) = (Ok meta, (st, σ)) →
  live (with_saved n (image term (cl_store γ n)) (with_phase n (Saved meta) (with_state n (cl_core γ n) st σ γ))).
Proof.
  move=> Lv Hm Hn Hp E. have [meta' [σ' [E' Se]]] := live_snapshot _ _ _ Lv Hn Hp (proj2 (Hm n Hn)).
  rw E in E'. move: E' => [_ Est Eσ]. apply: (live_moved γ _ n Lv); first by apply cl_section, cl_save.
  - elsewhere.
  - move=> _ /=. by rw !fn_lookup_insert Est Eσ.
  - by case: (lv_mail _ Lv).
Qed.

Lemma compact_settles γ n meta : live γ → n ∈ ms → cl_phase γ n = Saved meta →
  settles (cfg n) (cl_saved γ n) (compact meta) (cl_core γ n) (cl_disk γ n).
Proof.
  move=> Lv Hn Hp. have [Hs [a D] _] := lv_node _ Lv n Hn. have [s S] := live_sim _ Lv.
  case: (sim_store _ _ _ S n Hn) => _ _ Ph _ _ _. rw Hp /= in Ph. move: Ph => [_ Em].
  apply: (compact_on_disk (cfg n) _ _ _ a) => //; rw Em //. by apply live_saved_last.
Qed.

Lemma live_compact γ n meta c σ :
  live γ → cl_phase γ n = Saved meta → runs ms γ n (compact meta) tt c σ →
  live (with_phase n Resting (with_node n c σ γ)).
Proof.
  move=> Lv Hp R. have [Hn E] := R. have [_ _ Hd] := lv_node _ Lv n Hn.
  have [r [c1 [σ1 [a1 [E1 [Hs1 D1]]]]]] := compact_settles _ _ _ Lv Hn Hp. rw E in E1. move: E1 => [_ Ec Eσ].
  apply: (live_moved γ _ n Lv); first by apply cl_section, (cl_compact _ _ _ meta).
  - elsewhere.
  - move=> _ /=. rw !fn_lookup_insert Ec Eσ. split => //. by exists a1.
  - by case: (lv_mail _ Lv).
Qed.

(** ** Steps *)

Lemma live_section_step γ γ' : live γ → guarded_section ms γ γ' → manageable γ → manageable γ' → live γ'.
Proof.
  move=> Lv St Hm Hm'. destruct St.
  - by apply: live_campaign.
  - by apply: live_vote.
  - have [Hn E] := H0. by apply: (live_quiet γ x _ _ c σ Lv (cl_concluded _ _ _ _ _ _ _ _ _ _ H H0 H1) Hn E
      (s_count _ _ _ _ _ _ _ H H1)).
  - have [Hn E] := H0. have [Ec Eσ] := count_vote_pending _ _ _ _ _ _ _ _ E. subst c σ.
    apply: (live_moved γ _ x Lv); first by apply cl_section; apply: cl_counted H H0.
    + elsewhere.
    + move=> _ /=. rw !fn_lookup_insert. by apply Lv.
    + by case: (lv_mail _ Lv).
  - have [Hn E] := H. by apply: (live_quiet γ x _ _ c σ Lv (cl_propose _ _ _ _ _ _ _ H H0) Hn E (s_propose _ _ _ H0)).
  - by apply: live_send.
  - by apply: live_append.
  - have [Hn E] := H0. by apply: (live_quiet γ x _ _ c σ Lv (cl_fold _ _ _ _ _ _ _ _ _ _ _ H H0) Hn E
      (s_fold _ _ _ _ _ _ _ H)).
  - apply live_with_node => //; first by apply cl_section, cl_renew.
    apply: (settled_core n (cl_core γ n)); first by apply Lv. all: rw /renew_lease; by case: (is_leader _).
  - by apply: (live_quiet γ n m r c σ Lv (cl_failed _ _ _ _ _ _ _ H H0 H1 H2 H3) H H1 H0).
  - by apply: live_take.
  - by apply: live_fill.
  - by apply: live_term_read.
  - by apply: live_save.
  - exfalso. have [meta' [σ' [E' _]]] := live_snapshot _ _ _ Lv H H0 (proj2 (Hm n H)). rw H1 in E'.
    move: E' H2 => [-> _ _]. by rw /failed.
  - by apply: live_compact.
Qed.

(** ** Crashes *)

Lemma live_peers γ n : live γ → n ∈ ms → (peer_id <$> cfg_peers (cfg n)) ≡ₚ rc_peers (cl_core γ n).
Proof.
  move=> Lv Hn. have [s S] := live_sim _ Lv. have N := sim_node _ _ _ S n Hn. have [_ Hm _] := cfg_ok n Hn.
  apply (Permutation_cons_inv (a := n)). by rw Hm (ok_peers _ _ _ _ N).
Qed.

(** The node comes back as it was, up to what its snapshot covers. *)
Record recovered γ n (nd : Node Log) : Prop := {
  rv_hard : rc_hard (nd_core nd) = rc_hard (cl_core γ n);
  rv_store : (st_last_snapshot (nd_store nd), st_memtable (nd_store nd)) = cl_saved γ n;
  rv_snapshot : rc_snapshot (nd_core nd) = (cl_saved γ n).1;
  rv_entries : rc_entries (nd_core nd) =
    filter (λ e, last_included_index (cl_saved γ n).1 < e_index e) (rc_entries (cl_core γ n))
}.

Lemma live_restart γ n σc now draw :
  live γ → n ∈ ms → crash (cl_disk γ n) σc → entries_kept (wal_dir (cfg n)) (cl_disk γ n) σc → files_bounded σc →
  ∃ nd σ', bootstrap (cfg n) now draw σc = (Ok nd, σ') ∧ recovered γ n nd
    ∧ live (with_phase n Resting (with_state n (nd_core nd) (nd_store nd) σ' γ)).
Proof.
  move=> Lv Hn Hcr Hk Hb. have [Hs [a D] _] := lv_node _ Lv n Hn. have [Hid _ Ht] := cfg_ok n Hn.
  have [nd [σ' [log [Eb [Es [Ed [Er [Eh [Ee [Hs' D']]]]]]]]]] :=
    restart_run (cfg n) _ _ σc _ a now draw D Hcr Hk Hb Ht (live_saved_last _ _ Lv Hn).
  have Esn : st_last_snapshot (nd_store nd) = (cl_saved γ n).1 by rw -Es.
  exists nd, σ'. split => //. split.
  { split => //; last by rw Ee Esn. have [_ [_ [_ [-> _]]]] := restore_ok _ _ _ _ _ _ _ _ Er. done. }
  apply: (live_moved γ _ n Lv).
  - apply: (cl_restart _ _ _ (cfg n) log now draw (nd_store nd) σ') => //. by apply live_peers.
  - elsewhere.
  - move=> _ /=. rw !fn_lookup_insert. split => //. by exists a.
  - by case: (lv_mail _ Lv).
Qed.

(** Every step leads to such a cluster again. *)
Lemma live_step_live γ γ' : live γ → live_step γ γ' → live γ'.
Proof.
  move=> Lv St. destruct St as [γ γ' St Hm Hm'|γ n σc now draw nd σ' Hn Hcr Hk Hb E]; first by apply: live_section_step.
  have [nd' [σ1 [E' [_ L]]]] := live_restart _ _ _ now draw Lv Hn Hcr Hk Hb. rw E in E'. by simplify_eq.
Qed.

Lemma live_steps γ γ' : live γ → rtc live_step γ γ' → live γ'.
Proof. move=> Lv R. elim: R Lv => // γ1 γ2 γ3 St _ IH Lv. by apply IH, (live_step_live γ1). Qed.

(** ** The start *)

Lemma unused_join n σ p fd : unused n σ → ¬ view_fd σ (cfg_data_dir (cfg n) ++ p) fd.
Proof. move=> [_ [_ H]] Hv. apply: (H _ _ Hv). by apply prefix_app_r. Qed.

Lemma unused_none n σ p : unused n σ → fs_names σ !! (cfg_data_dir (cfg n) ++ p) = None.
Proof. move=> H. case E: (_ !! _) => [fd|] //. exfalso. apply: (unused_join n σ p fd H). by left. Qed.

Lemma unused_blank n σ : unused n σ → blank (cfg n) σ.
Proof.
  move=> H. have [Hs [Ht _]] := H. split => //; first by apply Ht.
  - move=> x. rw /wal_dir /join -app_assoc. by apply unused_none.
  - move=> x. rw /snapshot_dir /join -app_assoc. by apply unused_none.
  - by apply unused_none.
Qed.

(** A node that starts on an unused disk has its state, which is nothing, on disk. *)
Lemma first_start n σ now draw : n ∈ ms → unused n σ →
  ∃ nd σ', bootstrap (cfg n) now draw σ = (Ok nd, σ') ∧ nd_disk nd = σ' ∧ fresh ms n (nd_core nd)
    ∧ (st_last_snapshot (nd_store nd), st_memtable (nd_store nd)) = (default_meta, memtable_new)
    ∧ settled n (nd_core nd) (nd_store nd) σ' (default_meta, memtable_new).
Proof.
  move=> Hn U. have B := unused_blank _ _ U. have [Hs [Hti _]] := U. have [Hid Hm Ht] := cfg_ok n Hn.
  have [l [σ1 [E1 [Hrep [Hs1 [Hsy [Hld [_ [Hf [Hl _]]]]]]]]]] :=
    log_open_fresh_rep (wal_dir (cfg n)) (cfg_segment_max_bytes (cfg n)) σ Hs (ti_wf _ Hti)
      ltac:(move=> x fd; by rw (bl_wal _ _ B)).
  have W := works_log_open (wal_dir (cfg n)) (cfg_segment_max_bytes (cfg n)) [] σ Hti ltac:(done) I. rw E1 in W.
  move: W => [T [C _]].
  have Hno : ∀ p fd, ¬ in_dir (wal_dir (cfg n)) (cfg_data_dir (cfg n) ++ p) →
    ¬ view_fd σ1 (cfg_data_dir (cfg n) ++ p) fd.
  { move=> p fd Hp. rw (confined_view _ _ _ _ _ C) //. by apply unused_join. }
  have Hdw : wal_dir (cfg n) ≠ cfg_data_dir (cfg n) by apply not_eq_sym, data_not_sub.
  have Hsnap : ∀ x fd, ¬ view_fd σ1 (join (snapshot_dir (cfg n)) x) fd.
  { move=> x fd. have := join_not_in _ _ x (wal_not_snapshots (cfg n)).
    rw /snapshot_dir /join -app_assoc. apply Hno. }
  have Hhard : ∀ fd, ¬ view_fd σ1 (hard_state_path (cfg n)) fd by move=> fd; apply Hno, hard_not_in.
  have Eh : hard_load (hard_state_path (cfg n)) σ1 = (Ok default_hard, σ1).
  { apply hard_load_blank => //. case E: (_ !! _) => [fd|] //. by case: (Hhard fd); left. }
  have Er : wal_read_all l σ1 = (Ok [], σ1).
  { have := log_read_all_rep l σ1 [[]] Hs1 Hrep (log_synced_flushed _ _ Hsy). by rw Hf. }
  have [d Ec] := restore_run (cfg n) default_meta l now draw σ1 default_hard [] [] Eh Er eq_refl Ht.
  set c := restored _ _ _ _ _ _ in Ec. set st := MkStore (snapshot_dir (cfg n)) memtable_new
    (cfg_snapshot_threshold (cfg n)) default_meta.
  exists (MkNode c st false (rc_commit_index c) σ1), σ1. split_and! => //.
  - by rw /bootstrap (bind_Ok _ _ _ _ _ (store_open_blank _ _ B)) (bind_Ok _ _ _ _ _ E1) (bind_Ok _ _ _ _ _ Ec).
  - split => //=. rw /cluster_size /zlen -Hm /= length_fmap. lia.
  - split => //. exists (MkALog 1 []). split => //.
    + split => //.
      * split => //. move=> fd Hv. by case: (Hhard fd Hv).
      * move=> fd. rw hard_tmp_join. apply Hno. by apply join_not_in.
      * exists None. split => //. split => //. move=> x fd idx Hv. by case: (Hsnap x fd Hv).
      * move=> x fd Hv. by case: (Hsnap x fd Hv).
    + have Hw : log_wf c by split => // i e; rw lookup_nil.
      split => //. exists [[]]. by rw Hf.
Qed.

Lemma started_live nodes : started nodes → live (booted nodes).
Proof.
  move=> Hst. have all : ∀ n, n ∈ ms → fresh ms n (nd_core (nodes n))
    ∧ (st_last_snapshot (nd_store (nodes n)), st_memtable (nd_store (nodes n))) = (default_meta, memtable_new)
    ∧ settled n (nd_core (nodes n)) (nd_store (nodes n)) (nd_disk (nodes n)) (default_meta, memtable_new).
  { move=> n Hn. have [σ [now [draw [U E]]]] := Hst n Hn.
    have [nd [σ' [E' [_ H]]]] := first_start n σ now draw Hn U. rw E in E'. by simplify_eq. }
  split; last by split.
  - exists (booted nodes). split; last done. split => // n /all [? [? _]] //=. congruence.
  - move=> n /all [_ [E Se]] /=. by rw E.
Qed.

(** ** What a cluster of such nodes promises *)

(** The started node has the entry: in its log, or among the commands that its table is made of. *)
Definition holds (e : LogEntry) (nd : Node Log) : Prop :=
  entry_at (e_index e) (nd_core nd) = Some e
  ∨ ∃ cs, cs !! Z.to_nat (e_index e - 1) = Some (e_command e) ∧ st_memtable (nd_store nd) = state_at cs (length cs).

(** What a node has in its log or in its snapshot, it has after a restart. *)
Lemma recovered_holds γ s n nd e :
  sim ms γ s → n ∈ ms → recovered γ n nd → log_wf (nd_core nd) → 0 < e_index e →
  p_log s n !! Z.to_nat (e_index e - 1) = Some e → holds e nd.
Proof.
  move=> S Hn [_ Est Esn Ee] Hw Hi He. have N := sim_node _ _ _ S n Hn. have B := ok_base _ _ _ _ N.
  have Bd := ok_bound _ _ _ _ N. have Hlt := lookup_lt_Some _ _ _ He. rw /zlen in Bd B.
  case: (sim_store _ _ _ S n Hn) => _ _ _ SV SR _. set b := last_included_index (cl_saved γ n).1 in Ee SV SR.
  case: (decide (e_index e ≤ b)) => Hb; [right | left].
  - exists (e_command <$> take (Z.to_nat b) (p_log s n)). split.
    { rw list_lookup_fmap lookup_take_lt; first lia. by rw He. }
    have Hl : (Z.to_nat b ≤ length (p_log s n))%nat.
    { have [Hc _] := node_commit _ _ _ _ (sim_inv _ _ _ S) N. have ? := ok_applied _ _ _ _ N.
      case: (sim_store _ _ _ S n Hn) => _ ? _ _ _ _. rw /zlen in Hc. lia. }
    rw length_fmap length_take Nat.min_l //. have -> : st_memtable (nd_store nd) = (cl_saved γ n).2 by rw -Est.
    rw SV. apply state_at_kept. by rw take_take Nat.min_id.
  - have Eb : snap_index (nd_core nd) = b by rw Esn. rw entry_at_wf //; first lia.
    rw Ee (filter_above _ (snap_index (cl_core γ n))); first by apply: lw_entries; apply: node_wf N.
    rw (ok_entries _ _ _ _ N) drop_drop lookup_drop /pos Eb -He. f_equal. lia.
Qed.

(** Wherever a run has come, the state of every node is on its disk, and all that holds of the
    runs of file Cluster holds. *)
Lemma live_reachable nodes γ : started nodes → rtc live_step (booted nodes) γ → live γ.
Proof. move=> Hst. by apply live_steps, started_live. Qed.

(** C6: a node comes back after a crash between any two sections: in runs of nodes
    configured as one cluster and started on unused disks in which no system call fails,
    entries fit a record and tables a snapshot, a node sends AppendEntries only while it
    leads and only from above its snapshot, one task at a time applies entries on a node,
    terms, indices and file sizes fit u64, and crashes fall between two sections and find
    the directory entries of the log (none of which the code ensures; messages may be lost,
    repeated, delayed and reordered), any such crash of a node leaves a disk on which
    [bootstrap] succeeds; the node has its term and vote, the table of its newest snapshot
    and the entries above it, and what follows is again such a run, and a guarded run of
    file Cluster. *)
Theorem crash_anywhere_recovers nodes γ n σc now draw :
  started nodes → rtc live_step (booted nodes) γ → n ∈ ms →
  crash (cl_disk γ n) σc → entries_kept (wal_dir (cfg n)) (cl_disk γ n) σc → files_bounded σc →
  ∃ nd σ', bootstrap (cfg n) now draw σc = (Ok nd, σ') ∧ recovered γ n nd
    ∧ let γ' := with_phase n Resting (with_state n (nd_core nd) (nd_store nd) σ' γ) in
      live_step γ γ' ∧ guarded_reachable ms γ'.
Proof.
  move=> Hst R Hn Hcr Hk Hb. have Lv := live_reachable _ _ Hst R.
  have [nd [σ' [E [Rc Lv']]]] := live_restart _ _ _ now draw Lv Hn Hcr Hk Hb.
  exists nd, σ'. do 2 split => //. split; [by apply: (live_crash _ _ σc now draw) | by apply lv_reach].
Qed.

(** A section of node [n] returns without an error. *)
Definition succeeds γ n {B} (m : M (RaftCore Log * fs) B) : Prop :=
  ∃ r c σ, m (cl_core γ n, cl_disk γ n) = (Ok r, (c, σ)).

Definition next_entry γ n (cmd : Command) : LogEntry :=
  MkLogEntry (current_term (rc_hard (cl_core γ n))) (last_log_index (cl_core γ n) + 1) cmd.

(** A node does what it is asked to, as long as numbers are left and entries can be stored. *)
Record responsive γ n : Prop := {
  rs_campaign now draw : term_room (cl_core γ n) → succeeds γ n (become_candidate now draw);
  rs_vote args now draw : args ∈ cl_vote_reqs γ → succeeds γ n (handle_request_vote args now draw);
  rs_count t vs v args reply : answers γ n t vs v args reply → log_room (cl_core γ n) →
    storable (next_entry γ n Noop) → succeeds γ n (count_vote reply t (1 + zlen vs));
  rs_propose cmd : rc_role (cl_core γ n) = Leader → log_room (cl_core γ n) → storable (next_entry γ n cmd) →
    succeeds γ n (propose_section cmd);
  rs_append args now draw : (n, args) ∈ cl_append_reqs γ → succeeds γ n (handle_append_entries args now draw);
  rs_fold v args reply term acks : acknowledges γ n v args reply term →
    succeeds γ n (fold_reply v (last_sent args) reply term acks);
  rs_snapshot term : cl_phase γ n = Termed term → fits (cl_store γ n) →
    ∃ meta st σ, store_snapshot term (cl_store γ n, cl_disk γ n) = (Ok meta, (st, σ));
  rs_compact meta : cl_phase γ n = Saved meta → succeeds γ n (compact meta)
}.

Lemma settles_succeeds γ n {B} (m : M (RaftCore Log * fs) B) :
  settles (cfg n) (cl_saved γ n) m (cl_core γ n) (cl_disk γ n) → succeeds γ n m.
Proof. move=> [r [c [σ [_ [E _]]]]]. by exists r, c, σ. Qed.

(** C9: healthy nodes respond: in runs of nodes configured as one cluster and started on
    unused disks in which no system call fails, entries fit a record and tables a snapshot,
    a node sends AppendEntries only while it leads and only from above its snapshot, one
    task at a time applies entries on a node, terms, indices and file sizes fit u64, and
    crashes fall between two sections and find the directory entries of the log (none of
    which the code ensures; messages may be lost, repeated, delayed and reordered), no
    section that a node starts fails or panics: it answers every request for a vote and
    every AppendEntries message that was sent in such a run, campaigns, counts votes, takes
    commands that fit a record when it leads, folds replies in, takes snapshots of tables
    that fit and compacts its log. *)
Theorem healthy_nodes_respond nodes γ n :
  started nodes → rtc live_step (booted nodes) γ → n ∈ ms → responsive γ n.
Proof.
  move=> Hst R Hn. have Lv := live_reachable _ _ Hst R. have [Hs [a D] _] := lv_node _ Lv n Hn.
  have [Hz _] := live_sized _ _ Lv Hn. split.
  - move=> *. by apply settles_succeeds, campaign_settles.
  - move=> *. by apply settles_succeeds, vote_settles.
  - move=> t vs v args reply [_ Hin _ _ _ _] Hr Hst'. apply settles_succeeds. apply: count_vote_settles => //.
    by apply (proj1 (Forall_forall _ _) (ml_vote_reps _ (lv_mail _ Lv)) _ Hin).
  - move=> *. apply settles_succeeds. by apply: propose_settles.
  - move=> *. by apply settles_succeeds, append_settles.
  - move=> *. by apply settles_succeeds, fold_settles.
  - move=> term Hp Hf. have [meta [σ [E _]]] := live_snapshot _ _ _ Lv Hn Hp Hf. by eexists _, _, _.
  - move=> *. by apply settles_succeeds, compact_settles.
Qed.

(** C5: applied entries survive: in runs of nodes configured as one cluster and started on
    unused disks in which no system call fails, entries fit a record and tables a snapshot,
    a node sends AppendEntries only while it leads and only from above its snapshot, one
    task at a time applies entries on a node, terms, indices and file sizes fit u64, and
    crashes fall between two sections and find the directory entries of the log (none of
    which the code ensures; messages may be lost, repeated, delayed and reordered), once any
    node has applied an entry there is between any two later sections a majority of nodes
    each of which still has it after any such crash (all of them may crash together, and may
    have crashed before): [bootstrap] succeeds, and the entry is in the log or among the
    commands that the table is made of. *)
Theorem applied_entries_survive nodes γ n e :
  started nodes → rtc live_step (booted nodes) γ → (n, e) ∈ cl_applied γ →
  ∃ q, NoDup q ∧ q ⊆ ms ∧ zlen ms / 2 + 1 ≤ zlen q
    ∧ ∀ v σc now draw, v ∈ q →
      crash (cl_disk γ v) σc → entries_kept (wal_dir (cfg v)) (cl_disk γ v) σc → files_bounded σc →
      ∃ nd σ', bootstrap (cfg v) now draw σc = (Ok nd, σ') ∧ holds e nd.
Proof.
  move=> Hst R Ha. have Lv := live_reachable _ _ Hst R. have [s S] := live_sim _ Lv.
  have [t [m [k [C [Hk [He Ei]]]]]] := sim_applied _ _ _ S _ _ Ha.
  have [q [[Nd [Sub Hq]] Held]] := committed_held _ (sim_inv _ _ _ S) _ _ C.
  exists q. split_and! => // v σc now draw Hv Hcr Hkept Hb. have Hm : v ∈ ms by apply Sub.
  have [nd [σ' [E [Rc Lv']]]] := live_restart _ _ _ now draw Lv Hm Hcr Hkept Hb.
  exists nd, σ'. split => //. apply: (recovered_holds γ s v) => //.
  - have [s' S'] := live_sim _ Lv'. have := node_wf _ _ _ _ (sim_node _ _ _ S' v Hm). by rw /= fn_lookup_insert.
  - lia.
  - have := take_lookup_prefix _ _ _ _ _ (Held v Hv) He Hk. by rw Ei; have -> : Z.to_nat (Z.of_nat k + 1 - 1) = k by lia.
Qed.

End recovery.

(** ** Witnesses *)

#[local] Existing Instance crc32fast.
#[local] Existing Instance bincode_codec.

(** The reboot that finds every directory entry and of the files what was synced. *)
Definition reboot (σ : fs) : fs :=
  Fs ((λ i, Inode (i_durable i) (i_durable i)) <$> fs_inodes σ)
     (fs_names σ) (fs_names σ) (fs_dirs σ) (fs_next σ) [].

Lemma reboot_crash σ : crash σ (reboot σ).
Proof. have [? _ _ _ _ _] := power_loss_crash σ. split => // p. by right. Qed.

Lemma reboot_kept d σ : entries_kept d σ (reboot σ).
Proof. done. Qed.

(** Three nodes, which take a snapshot of every two entries. *)
Definition small_cfg (n : Z) : Config unit :=
  MkConfig n tt ((λ p, MkPeer p "b:1") <$> filter (λ p, p ≠ n) demo_members) demo_dir
    (from_millis 50) (from_millis 150, from_millis 300) (64 * 1024 * 1024) 2.

Lemma demo_member n : n ∈ demo_members → n = 1 ∨ n = 2 ∨ n = 3.
Proof. rw !elem_of_cons elem_of_nil => -[?|[?|[?|[]]]]; auto. Qed.

Lemma small_cfg_ok n : n ∈ demo_members → configured demo_members small_cfg n.
Proof. by move=> /demo_member [->|[->|->]]; split => //; evaluate. Qed.

Lemma empty_unused n : unused small_cfg n empty_fs.
Proof.
  have Hv : ∀ p fd, ¬ view_fd empty_fs p fd by move=> p fd [] //; rw lookup_empty.
  split => //. split; last by move=> p fd /Hv. split; [apply empty_fs_wf | by move=> p q fd /Hv].
Qed.

Definition small_nodes (n : Z) : Node Log :=
  match bootstrap (small_cfg n) 0 0 empty_fs with
  | (Ok nd, _) => nd
  | _ => MkNode (demo_node n) demo_empty_store false 0 empty_fs
  end.

Lemma small_started : started demo_members small_cfg small_nodes.
Proof.
  move=> n Hn. exists empty_fs, 0, 0. split; first by apply empty_unused.
  have [nd [σ' [E [Ed _]]]] := first_start demo_members small_cfg small_cfg_ok n empty_fs 0 0 Hn (empty_unused n).
  by rw /small_nodes E Ed.
Qed.

(** What certainly can be stored. *)
Definition short (bs : list byte) : bool := bool_decide (zlen bs ≤ 1000).
Definition small_entry (e : LogEntry) : bool :=
  bool_decide (0 ≤ e_term e ≤ u64_max) && bool_decide (0 ≤ e_index e ≤ u64_max)
  && match e_command e with
     | Put k v => short k && short v
     | Delete k => short k
     | Noop => true
     end.
Definition small_store (st : Store) : bool :=
  let m := map_to_list (mt_map (st_memtable st)) in
  bool_decide (0 ≤ store_last_applied st ≤ u64_max) && bool_decide (zlen m ≤ u64_max)
  && forallb (λ kv, short kv.1 && short kv.2) m.
Definition small (γ : cluster Log) : bool :=
  forallb (λ n, forallb small_entry (rc_entries (cl_core γ n)) && small_store (cl_store γ n)) demo_members.

Lemma short_valid bs : short bs = true → zlen bs ≤ 1000.
Proof. by move=> /bool_decide_eq_true. Qed.

Lemma small_entry_storable e : small_entry e = true → storable e.
Proof.
  destruct e as [t i cmd]. rw /small_entry /= !andb_true_iff !bool_decide_eq_true. move=> [[Ht Hi] Hc].
  have [z [k [v [E [Hz [Hk Hv]]]]]] : ∃ z k v, command_sum cmd = (z, (k, v)) ∧ 0 ≤ z ≤ 2 ∧ zlen k ≤ 1000 ∧ zlen v ≤ 1000.
  { destruct cmd as [k v|k|]; rw ?andb_true_iff in Hc; eexists _, _, _; split_and!; try done; try by apply short_valid.
    all: by apply short_valid, Hc. }
  split.
  - split; [exact Ht|]. split; [exact Hi|]. rw /= /valid /= E. rw /u64_max. split; [|split]; rw /valid /=; lia.
  - move=> bs [= <-]. change (zlen (to_le_bytes 8 t ++ to_le_bytes 8 i ++ put (command_sum cmd)) ≤ MAX_RECORD_LEN).
    rw E. change (put (z, (k, v))) with (to_le_bytes 8 z ++ (to_le_bytes 8 (zlen k) ++ k) ++ to_le_bytes 8 (zlen v) ++ v).
    rw /zlen !length_app !length_to_le_bytes. rw /zlen in Hk, Hv. rw /MAX_RECORD_LEN. lia.
Qed.

Lemma small_store_fits st : small_store st = true → fits st.
Proof.
  rw /small_store !andb_true_iff !bool_decide_eq_true forallb_forall. move=> [[Ha Hl] Hf] term Ht.
  split; first by split. split => //. apply Forall_forall => -[k v] /list_elem_of_In /Hf.
  rw andb_true_iff => -[/short_valid Hk /short_valid Hv]. have ? : 1000 ≤ u64_max by done.
  change (zlen k ≤ u64_max ∧ zlen v ≤ u64_max). rw /= in Hk, Hv. lia.
Qed.

Lemma small_manageable γ : small γ = true → manageable demo_members γ.
Proof.
  rw /small forallb_forall => H n /list_elem_of_In /H. rw andb_true_iff forallb_forall => -[He Hst].
  split; last by apply small_store_fits. apply Forall_forall => e /list_elem_of_In /He. apply small_entry_storable.
Qed.

(** Running such a cluster. *)
Fixpoint run_small (evs : list event) (γ : cluster Log) : option (cluster Log) :=
  match evs with
  | [] => Some γ
  | ev :: evs =>
      γ' ← run_event demo_members ev γ;
      if small γ && small γ' then run_small evs γ' else None
  end.

Lemma run_small_steps evs γ γ' : run_small evs γ = Some γ' → rtc (live_step demo_members small_cfg) γ γ'.
Proof.
  elim: evs γ => [|ev evs IH] γ /=; first by move=> [= ->].
  case E: (run_event _ ev γ) => [γ1|] //=. case Es: (small γ && small γ1) => // R.
  apply andb_true_iff in Es as [? ?]. apply: rtc_l (IH _ R). apply live_section; [by apply: run_event_section E | |].
  all: by apply small_manageable.
Qed.

(** Node 1 leads, commits a command with node 2, applies it, takes a snapshot and compacts its log. *)
Definition small_events : list event :=
  [Campaign 1; DeliverVote 2 0; CountVote 0 0; Propose 1 (Put [x61] [x31]); Send 1 2; DeliverAppend 0; Fold 1 1 0;
   Take 1; Fill 1; ReadTerm 1; Save 1; Compact 1].
Definition small_run : cluster Log := default (booted small_nodes) (run_small small_events (booted small_nodes)).
Lemma small_run_live : rtc (live_step demo_members small_cfg) (booted small_nodes) small_run.
Proof.
  apply (run_small_steps small_events). rw /small_run.
  have : (if run_small small_events (booted small_nodes) is Some _ then true else false) = true
    by vm_compute; reflexivity.
  by case: (run_small _ _).
Qed.
Definition small_put : LogEntry := MkLogEntry 1 2 (Put [x61] [x31]).

(** Any of its nodes can be rebooted. *)
Lemma small_reboot n : n ∈ demo_members →
  crash (cl_disk small_run n) (reboot (cl_disk small_run n))
  ∧ entries_kept (wal_dir (small_cfg n)) (cl_disk small_run n) (reboot (cl_disk small_run n))
  ∧ files_bounded (reboot (cl_disk small_run n)).
Proof.
  move=> Hn. split_and!; [apply reboot_crash | apply reboot_kept |]. apply files_bounded_alt.
  move: Hn => /demo_member [->|[->|->]]; evaluate.
Qed.

Lemma crash_anywhere_recovers_witness :
  (cl_saved small_run 1).1 = MkSnapshotMeta 2 1
  ∧ ∃ nd σ', bootstrap (small_cfg 1) 0 0 (reboot (cl_disk small_run 1)) = (Ok nd, σ') ∧ recovered small_run 1 nd
    ∧ guarded_reachable demo_members (with_phase 1 Resting (with_state 1 (nd_core nd) (nd_store nd) σ' small_run)).
Proof.
  have Hin : 1 ∈ demo_members by evaluate. have [Hc [Hk Hb]] := small_reboot 1 Hin.
  split; [vm_compute; reflexivity|].
  destruct (crash_anywhere_recovers codec_representable demo_members ltac:(evaluate) ltac:(evaluate)
    ltac:(by move=> n /demo_member [->|[->|->]]) small_cfg small_cfg_ok small_nodes small_run 1 _ 0 0
    small_started small_run_live Hin Hc Hk Hb) as (nd & σ' & E & R & _ & Hr).
  exists nd, σ'. by split_and!.
Defined.

Lemma healthy_nodes_respond_witness :
  rc_role (cl_core small_run 1) = Leader ∧ succeeds small_run 1 (propose_section (Delete [x61]))
  ∧ succeeds small_run 3 (become_candidate 0 0).
Proof.
  have R := healthy_nodes_respond codec_representable demo_members ltac:(evaluate) ltac:(evaluate)
    ltac:(by move=> n /demo_member [->|[->|->]]) small_cfg small_cfg_ok small_nodes small_run _
    small_started small_run_live.
  have Hl : rc_role (cl_core small_run 1) = Leader by vm_compute.
  split; [exact Hl|split].
  - have H1 : 1 ∈ demo_members by evaluate.
    have H2 : log_room (cl_core small_run 1) by vm_compute.
    have H3 : small_entry (next_entry small_run 1 (Delete [x61])) = true by vm_compute.
    exact (rs_propose small_run 1 (R 1 H1) _ Hl H2 (small_entry_storable _ H3)).
  - have H1 : 3 ∈ demo_members by evaluate.
    have H2 : term_room (cl_core small_run 3) by vm_compute.
    exact (rs_campaign small_run 3 (R 3 H1) 0 0 H2).
Defined.

Lemma applied_entries_survive_witness :
  (1, small_put) ∈ cl_applied small_run
  ∧ ∃ q, 2 ≤ zlen q ∧ ∀ v, v ∈ q →
      ∃ nd σ', bootstrap (small_cfg v) 0 0 (reboot (cl_disk small_run v)) = (Ok nd, σ') ∧ holds small_put nd.
Proof.
  have Ha : (1, small_put) ∈ cl_applied small_run by evaluate. split => //.
  destruct (applied_entries_survive codec_representable demo_members ltac:(evaluate) ltac:(evaluate)
    ltac:(by move=> n /demo_member [->|[->|->]]) small_cfg small_cfg_ok small_nodes small_run 1 small_put
    small_started small_run_live Ha) as (q & _ & Sub & Hq & H).
  exists q. split; [exact Hq|]. intros v Hv. have [Hc [Hk Hb]] := small_reboot v (Sub v Hv). by apply (H v _ 0 0 Hv).
Defined.
