(* ===== verification/Losses.v ===== *)
(** * Losses: crashes that lose what a node has acknowledged.

    File Recovery is about crashes between sections that find the directory entries of the
    log.  The two runs here show what the other crashes can do, since the code neither syncs
    the directory of a new segment nor keeps the old segment until its replacement is written
    (src/wal/segment.rs, src/wal/log.rs). *)

From Corelib Require Import ssreflect.
From stdpp Require Import base gmap strings list sorting functions relations.
From S2P Require Import Prelude Text Fs AtomicFile Crc Record Segment WalLog Codec Config MemTable Snapshot RaftState.
From S2P Require Import Wal RaftCore Election Replication Mirror Footprint Task Store Driver Sections Durable.
From S2P Require Import Faults Protocol Cluster Simulation Safety Startup Restart Recovery.

#[local] Existing Instance crc32fast.
#[local] Existing Instance bincode_codec.

(** ** A directory entry that was not synced *)

(** C32: a power failure can take a synced log: nothing in the code syncs the directory in which
    a segment is created, so in a run of nodes started on unused disks node 2, which has
    acknowledged a command that node 1 has applied, can lose the directory entry of its only
    segment; it starts without that command and with the term and the vote it had. *)
Theorem lost_directory_entry_loses_log :
  started demo_members small_cfg small_nodes ∧ rtc (live_step demo_members small_cfg) (booted small_nodes) small_run
  ∧ (1, small_put) ∈ cl_applied small_run ∧ entry_at 2 (cl_core small_run 2) = Some small_put
  ∧ let σc := power_loss (cl_disk small_run 2) in
    crash (cl_disk small_run 2) σc
    ∧ ∃ nd σ', bootstrap (small_cfg 2) 0 0 σc = (Ok nd, σ') ∧ rc_entries (nd_core nd) = []
      ∧ st_memtable (nd_store nd) = memtable_new ∧ rc_hard (nd_core nd) = rc_hard (cl_core small_run 2).
Proof.
  split; [exact small_started|]. split; [exact small_run_live|].
  split; [evaluate|]. split; [vm_compute; reflexivity|]. intros σc. split; [apply power_loss_crash|].
  assert (match bootstrap (small_cfg 2) 0 0 σc with
          | (Ok nd, _) => (rc_entries (nd_core nd), st_memtable (nd_store nd), rc_hard (nd_core nd))
                          = ([], memtable_new, rc_hard (cl_core small_run 2))
          | _ => False
          end) as H by (vm_compute; reflexivity).
  destruct (bootstrap (small_cfg 2) 0 0 σc) as [[nd| |] σ']; [|destruct H..]. exists nd, σ'. split; [reflexivity|].
  split; [exact (f_equal (λ x, x.1.1) H)|]. split; [exact (f_equal (λ x, x.1.2) H)|exact (f_equal snd H)].
Qed.

(** ** A crash while a log is cut *)

(** Node 1 commits and applies a command that node 2 has acknowledged; node 2 leads the next
    term and appends an entry nobody else gets; node 1 leads again and sends its next entry. *)
Definition torn_events : list event :=
  [Campaign 1; DeliverVote 2 0; CountVote 0 0; Propose 1 (Put [x61] [x31]); Send 1 2; DeliverAppend 0; Fold 1 1 0;
   Take 1; Fill 1; Campaign 2; DeliverVote 3 0; CountVote 0 0; Campaign 1; Campaign 1; DeliverVote 3 0; CountVote 0 0;
   Send 1 2].
Definition torn_run : cluster Log := default (booted small_nodes) (run_small torn_events (booted small_nodes)).
Definition torn_request : AppendEntriesArgs := MkAppendEntriesArgs 3 1 2 1 [MkLogEntry 3 3 Noop] 2.

(** Node 2 is to replace its entry 3; the machine stops before the tenth system call, which
    creates the new segment. *)
Definition torn_section := handle_append_entries torn_request 0 0
  (cl_core torn_run 2, set_sched (replicate 9 None ++ [Some 0%nat]) (cl_disk torn_run 2)).
Definition torn_disk : fs := reboot torn_section.2.2.

(** It starts again, and node 3 leads with its vote. *)
Definition torn_back : cluster Log :=
  match bootstrap (small_cfg 2) 0 0 torn_disk with
  | (Ok nd, σ) => with_phase 2 Resting (with_state 2 (nd_core nd) (nd_store nd) σ torn_run)
  | _ => torn_run
  end.
Definition torn_end : cluster Log := default torn_back (run_small
  [Campaign 3; DeliverVote 2 0; CountVote 0 0; Propose 3 (Put [x61] [x32]); Send 3 2; DeliverAppend 0; Fold 3 4 0;
   Take 3; Fill 3] torn_back).

Lemma run_small_default evs γ :
  (if run_small evs γ is Some _ then true else false) = true →
  rtc (live_step demo_members small_cfg) γ (default γ (run_small evs γ)).
Proof. move=> E. apply (run_small_steps evs). by case: (run_small evs γ) E. Qed.

(** C33: a crash while a follower's log is cut loses committed entries: [Log::truncate_suffix]
    removes the segment that straddles the cut before it writes the records to keep to a new
    one, so a crash (or a failing call) in between leaves a log without them.  In a run of
    nodes started on unused disks node 2 replaces an entry that conflicts with its leader's
    and crashes at that point; although every directory entry survives, it starts without
    the command below the cut that it had acknowledged and node 1 has applied, node 3 is
    elected with its vote, and applies another command at the same index. *)
Theorem truncation_crash_breaks_safety :
  rtc (live_step demo_members small_cfg) (booted small_nodes) torn_run
  ∧ (1, small_put) ∈ cl_applied torn_run ∧ entry_at 2 (cl_core torn_run 2) = Some small_put
  ∧ (2, torn_request) ∈ cl_append_reqs torn_run
  ∧ crash torn_section.2.2 torn_disk ∧ entries_kept (wal_dir (small_cfg 2)) torn_section.2.2 torn_disk
  ∧ (∃ nd σ', bootstrap (small_cfg 2) 0 0 torn_disk = (Ok nd, σ') ∧ rc_entries (nd_core nd) = []
      ∧ torn_back = with_phase 2 Resting (with_state 2 (nd_core nd) (nd_store nd) σ' torn_run))
  ∧ rtc (live_step demo_members small_cfg) torn_back torn_end
  ∧ (1, small_put) ∈ cl_applied torn_end ∧ (3, MkLogEntry 4 2 (Put [x61] [x32])) ∈ cl_applied torn_end.
Proof.
  split; [apply run_small_default; vm_compute; reflexivity|]. split; [evaluate|].
  split; [vm_compute; reflexivity|].
  split; [apply (list_elem_of_lookup_2 _ 0); vm_compute; reflexivity|].
  split; [apply reboot_crash|]. split; [apply reboot_kept|]. split.
  - assert (match bootstrap (small_cfg 2) 0 0 torn_disk with (Ok nd, _) => rc_entries (nd_core nd) = [] | _ => False end)
      as H by (vm_compute; reflexivity).
    rw /torn_back. destruct (bootstrap (small_cfg 2) 0 0 torn_disk) as [[nd| |] σ']; [|destruct H..].
    exists nd, σ'. split; [reflexivity|]. split; [exact H|reflexivity].
  - split; [apply run_small_default; vm_compute; reflexivity|]. split; evaluate.
Qed.
